(* ===== verification/_CoqProject ===== *)
-Q . S2P
Prelude.v
Types.v
Selectors.v
Stores.v
PodIndex.v
PolicyIndex.v
BlocklistCache.v
Client.v
PolicyReconciler.v
PodReconciler.v
System.v
Interleaving.v
Schedules.v
Examples.v
ScheduleExamples.v
Json.v
Sha256.v
Hash.v
Http.v
ApiServer.v
Webhook.v
ServerExamples.v
Heap.v
Isolation.v
Strconv.v
Flags.v
Lifecycle.v
WebhookMain.v
Slices.v
ControllerMain.v
Scheme.v
MainExamples.v
Locks.v
Linearizable.v
Queue.v
QueueExamples.v
Concurrent.v
Rest.v
ConcurrentExamples.v
Text.v
TestUtils.v
Wire.v
