(* ===== verification/Prelude.v ===== *)
(** * DNS Mesh Controller: a verification library

    ** The program

    The repository is a Kubernetes operator and an admission webhook. The operator
    (src/controller) watches DnsPolicy objects and pods. A DnsPolicy names, by label
    selector, the pods it applies to and lists the domains they may not resolve. Two
    reconcilers keep two in-memory indexes of what they have seen, and a cache that
    maps each pod address to its blocked domains; an HTTP server hands that mapping
    to the eBPF agents that enforce it. The webhook (src/webhook) patches annotated
    deployments so that their pods use the DNS service under control.

    ** The files and what they model

    - Prelude.v: Go maps and slices (nil or allocated), map iteration order as the
      class [RangeOrder], sorting of strings, the library's tactics and databases.
    - Types.v: the DnsPolicy types (api/v1alpha1/dnspolicy_types.go) and their
      generated deep copies (zz_generated.deepcopy.go); errors; the class
      [ApiMachinery] for the helpers of apimachinery and controller-runtime.
    - Selectors.v: [LabelsContainAll], [selectorsEqual], [labelsEqual].
    - Stores.v: the interfaces [PodStore] and [PolicyStore] the cache reads.
    - PodIndex.v, PolicyIndex.v: pod_index.go and policy_index.go, every method, with
      instances of the interfaces.
    - BlocklistCache.v: blocklist_cache.go, every method, against the interfaces;
      [Blocked], [complete_at], [exact_at] and [NoStale] say what it should hold.
    - Client.v: the API client as a class, an API server as a concrete instance.
    - PolicyReconciler.v: dnspolicy_controller.go, [Reconcile] on every branch with its
      API calls, events and errors, and [updateCondition].
    - PodReconciler.v: pod_controller.go, [Reconcile] and the event filter.
    - System.v: both reconcilers over one cache as a transition system whose steps are
      whole reconciliations, of any object in any state; conditions on what the
      reconcilers read in a run ([RunCondition]); independence of the map iteration order.
    - Queue.v: the controllers behind their work queues: events through the pod filter,
      workers that take names and put them back on errors, an API server that may fail
      every call; QueueExamples.v: runs of it.
    - Interleaving.v, Schedules.v: the same two workers interleaved at the granularity
      of index methods and critical sections of the cache's mutex; [beginPolicy] and
      [beginPod] are [Reconcile] from the read of the object to its first such step.
    - Concurrent.v: these interleaved workers behind the queues, with the cluster changing
      at any moment: a reconciliation is its read, its steps on the shared state and its
      write, which the API server refuses when the object was changed in between;
      Rest.v: how much of their work is left; ConcurrentExamples.v: runs of it.
    - Locks.v: the three readers-writer mutexes, the methods as sequences of lock
      operations and accesses to guarded data, and any number of goroutines.
    - Linearizable.v: the methods of the indexes one map access at a time, under their
      mutex, called by any number of goroutines.
    - Json.v, Sha256.v: encoding/json's writer with a reader of its output, SHA-256 and
      hexadecimal encoding; Hash.v: hash.go on top of them.
    - Wire.v: the JSON form the struct tags give a specification, and its reader.
    - Heap.v: the copies the indexes make, as allocations on a heap of objects with
      pointers; Isolation.v: the indexes as maps of pointers, every method that takes or
      hands out memory, among callers that write everything they can reach.
    - Http.v, ApiServer.v: response writers and api_server.go's handlers, with a client
      that reads the answer.
    - Lifecycle.v: [http.Server] in its goroutine, the function that waits and shuts it
      down, connections, which are answered or end without an answer, and the clock;
      [Start] of api_server.go.
    - Webhook.v: webhook/pkg/webhook (mutation.go, server.go, types.go) and the effect
      of the JSON patch.
    - Strconv.v, Flags.v: what both programs use of strconv and flag: 64-bit integers
      with their overflow tests, declaring and parsing flags.
    - WebhookMain.v: webhook/cmd/webhook/main.go: flags, routes, TLS, signals, exit.
    - Slices.v: slices as views of arrays that [append] may share.
    - ControllerMain.v: controller/cmd/main.go: flags, TLS options, the wiring of
      indexes, cache, reconcilers ([SetupWithManager]) and API server, and the calls to
      controller-runtime with their failures.
    - Scheme.v: groupversion_info.go and the init functions that register the types.
    - Text.v, TestUtils.v: what test/utils/utils.go uses of strings and bufio, and its
      helpers: running commands, looking for resource definitions, uncommenting code.
    - Examples.v, ScheduleExamples.v, ServerExamples.v, MainExamples.v: a small cluster,
      servers and processes on which every definition evaluates, and instances of the
      properties there.

    ** State and operations

    State is passed explicitly. The cache record holds the two indexes, as the Go
    struct holds pointers to them; main.go gives the reconcilers the same pointers, so
    their index is the cache's, which ControllerMain.v proves. A reconciliation maps the
    API server's state, the cache and the recorded events to their next values and an
    optional error. Every map
    iteration goes through [RangeOrder], and theorems hold for all orders. Code outside
    the repository (API server, apimachinery helpers, Kubernetes client, decoders of
    admission reviews) is a class parameter whose laws state its documented behaviour,
    with a concrete instance for evaluation. In the entry points, main is a program in
    a state and exit monad, and the outcome of every call to controller-runtime is
    chosen by the environment. Logging is dropped.

    ** What the theorems show

    Two things the code does can spoil the entry of an address: it reconciles a pod with
    an address that another indexed pod has, and it reconciles the deletion of a policy
    that was edited, since it was indexed, so that it no longer selects the pod. No step
    relation excludes them. Theorems about an address name them as conditions on the
    reads of the run: [one_pod] excludes the first, [undisturbed] both, [anything]
    nothing. Theorems of their own show what happens in these two cases.

    - End to end: with reconciliations run one at a time, the served blocklist and what a
      client reads from the HTTP answer are sorted, name each address once and only
      addresses of indexed pods. Under [one_pod] no domain of an indexed policy that
      selects the pod is missing, under [undisturbed] the entry is exact.
    - Convergence: with work queues, retries, failing API calls and the event filter,
      names that are in no queue are in step with the cluster. When the queues are empty,
      under [one_pod] every running pod is served the domains of the live policies that
      select it; under [undisturbed], with no policy being deleted and every pod having
      an address, nothing else is served. Without failures and outside changes, when
      every live policy has a selector, the queues do become empty, within a bound; a
      policy without a selector is retried for ever, without effect.
    - Each reconciler keeps entries complete and exact on every branch, under the same
      two conditions, changes the indexes as specified, keeps only valid policies, is
      idempotent in the steady state, and picks a new policy up in two reconciliations.
      The pod event filter drops only updates that would change nothing.
    - The indexes implement finite maps for all histories of calls, and because they
      copy what they take and return, whatever callers write to the memory they passed or
      were given (also the selectors that are handed out uncopied), all calls return
      what they return on values.
    - Concurrency: under every interleaving an indexed pod whose entry is not complete
      ([one_pod]) or not exact ([undisturbed]) is about to be recalculated or removed;
      workers finish in a bounded number of steps and do not deadlock. With the queues,
      when they are empty and the workers idle, a running pod is served what the policies
      of the cluster ask for, under the same conditions; without failures and outside
      changes, when every live policy has a selector, every run comes to such a state.
      Entries of pods that are gone may stay: a theorem exhibits the schedule. Run without
      interference, the pieces of a reconciliation are [Reconcile].
    - Mutexes: no schedule of goroutines that call methods of the indexes and the cache
      has a data race or a deadlock; both indexes are linearizable, so that the atomic
      index operations of the other files are what concurrent callers see.
    - Servers: a shutdown takes at most five seconds and a bounded number of steps, and
      a success reported means that every accepted connection was answered or ended by
      itself (client gone, timeout, failed handshake, panic, nothing sent).
    - Entry points: the command line carries the configuration, integers are bounded,
      the manager is started exactly when every step before succeeded, and it runs the
      two reconcilers and the API server on one cache, the start state of the system
      above. Each server gets its own TLS options.
    - Results do not depend on the iteration order of Go's maps.
    - The hashes identify what they cover up to SHA-256 collisions of different texts;
      the JSON written reads back, and a specification survives its JSON form.
    - Test helpers: uncommenting undoes commenting of a block given without its final
      newline, with lines the scanner takes; commands run in the project
      directory, the checks for resource definitions find exactly the names.
    - The webhook admits, refuses and patches as specified, the patch sets the two DNS
      members and nothing else, and every well-formed review is answered.
    - Where the code does not do what it means to, the behaviour is a theorem too: reuse
      of an address, a pod recreated before its deletion is handled, deletion after an
      edit of the selector, a policy recalculated during the deletion of a pod (also in
      the concurrent system at rest), pods that stop running or lose their address, an
      invalid edit of a policy, a review without a request, an API server that cannot
      listen, and flags that are documented but not declared.

    ** Bounds

    The JSON reader recurses with a fuel of twice the length of the text, which is
    proved sufficient for every document the writer produces; decimal numbers use one
    round per bit. SHA-256 processes the blocks of the padded message, whose number is
    computed from its length. Nothing else uses fuel. Numbers on the command line are
    64-bit integers with the overflow tests of strconv. Kubernetes generations and times
    are unbounded integers, which the code only compares and copies. The line scanner
    of the test helpers has its buffer limit of 64 KiB.

    ** Assumptions on the environment

    The step relations of System.v, Interleaving.v, Queue.v and Concurrent.v have no
    guards on addresses or selectors: [one_pod] and [undisturbed] are hypotheses of the
    theorems that need them. In System.v and Queue.v a step is a whole reconciliation; the
    steps of Interleaving.v and Concurrent.v are the ones the mutexes allow to interleave.

    The server runs assume that a pending [Shutdown] notices its deadline before the
    clock moves on. A connection carries one request; reuse of connections is not
    modelled. Keeping the TLS options of the two servers of the controller apart
    depends on the growth of a nil slice, which is a parameter.

    The effect of the webhook's patch is that of RFC 6902, for the operations the webhook
    writes: add, at members of objects, with no escapes in the path.

    In Queue.v the queues and watches are controller-runtime's, taken by their documented
    behaviour: every change of a watched object that passes the filter puts its name
    into the queue, an error of [Reconcile] puts it back, and a read returns the object
    as it was last written. A read that fails does not report the object as absent.
    Delays between retries have no counterpart: a name in the queue may be taken at any
    time. In Concurrent.v a write succeeds only when the stored object is the one that was
    read, which stands for the comparison of resource versions.

    ** Not modelled

    Every component of the repository is modelled. Not modelled: logging, the rendering
    of quoted error messages of the test helpers, leader election and the metrics
    endpoint, which are controller-runtime's, and the JSON form of metadata and
    conditions, which is apimachinery's. The concurrent system has one worker per
    controller, controller-runtime's default, which main.go does not change. *)

From stdpp Require Export base gmap strings list sorting fin_maps fin_sets.
From Stdlib Require Export ZArith.

(** ** Notation scope of the library *)
Declare Scope gomesh_scope.
Delimit Scope gomesh_scope with gomesh.
Open Scope gomesh_scope.

(** ** Proof search database of the library *)
Create HintDb gomesh discriminated.
Create Rewrite HintDb gomesh.

(** ** Go maps

    [map[string]string] is nil or an allocated map: [None] is the nil map.
    Reading a nil map behaves like reading an empty one; writing it is never
    done by the sources. *)
Abbreviation GoMap := (option (gmap string string)).

(** The contents of a possibly nil map. *)
Definition contents (m : GoMap) : gmap string string := default ∅ m.

(** [len(m)] *)
Definition mlen (m : GoMap) : nat := size (contents m).

(** [v, ok := m[k]] *)
Definition mget (m : GoMap) (k : string) : option string := contents m !! k.

(** [m == nil] *)
Definition is_nil {A} (o : option A) : bool :=
  match o with Some _ => false | None => true end.

(** Go slices are nil or allocated; [elems] is what ranging over one visits. *)
Definition elems {A} (s : option (list A)) : list A := default [] s.

(** ** Iteration order of Go maps

    [for k, v := range m] visits every entry once in an unspecified order. A
    [RangeOrder] is one choice of orders, possibly different for every map;
    the definitions take it as an argument and the theorems hold for each. *)
Class RangeOrder := {
  range : ∀ {K V : Type} `{Countable K}, gmap K V → list (K * V);
  range_perm : ∀ {K V : Type} `{Countable K} (m : gmap K V),
    range m ≡ₚ map_to_list m;
}.

(** Two concrete orders, for evaluating the definitions. *)
Definition order_fwd : RangeOrder := {|
  range := λ K V _ _ m, map_to_list m;
  range_perm := λ K V _ _ m, Permutation_refl _;
|}.
Definition order_rev : RangeOrder := {|
  range := λ K V _ _ m, reverse (map_to_list m);
  range_perm := λ K V _ _ m, reverse_Permutation _;
|}.

Section Range.
Context `{RO : RangeOrder} {K V : Type} `{Countable K}.

Lemma elem_of_range (m : gmap K V) k v : (k, v) ∈ range m ↔ m !! k = Some v.
Proof. by rewrite range_perm, elem_of_map_to_list. Qed.

Lemma NoDup_range_fst (m : gmap K V) : NoDup (range m).*1.
Proof. rewrite range_perm. apply NoDup_fst_map_to_list. Qed.

Lemma NoDup_range (m : gmap K V) : NoDup (range m).
Proof. rewrite range_perm. apply NoDup_map_to_list. Qed.

Lemma length_range (m : gmap K V) : length (range m) = size m.
Proof. by rewrite range_perm, length_map_to_list. Qed.

Lemma elem_of_range_snd (m : gmap K V) v :
  v ∈ (range m).*2 ↔ ∃ k, m !! k = Some v.
Proof.
  rewrite list_elem_of_fmap. split.
  - intros [[k v'] [-> Hin]]. exists k. by apply elem_of_range.
  - intros [k Hk]. exists (k, v). by rewrite elem_of_range.
Qed.

(** A loop that stores entries with distinct keys. *)
Lemma foldl_insert_map (l : list (K * V)) (acc : gmap K V) :
  NoDup l.*1 → foldl (λ out '(k, v), <[k:=v]> out) acc l = list_to_map l ∪ acc.
Proof.
  revert acc. induction l as [|[k v] l IH]; intros acc Hnd; simpl.
  - by rewrite (left_id_L ∅ (∪)).
  - inversion Hnd; subst. rewrite IH by done.
    rewrite <- insert_union_r; [by rewrite insert_union_l|].
    by apply not_elem_of_list_to_map_1.
Qed.

(** Storing the entries of a map in any order into a fresh one copies it. *)
Lemma foldl_insert_perm (l : list (K * V)) (m : gmap K V) :
  l ≡ₚ map_to_list m → foldl (λ out '(k, v), <[k:=v]> out) ∅ l = m.
Proof.
  intros Hp. assert (NoDup l.*1) as Hnd by (rewrite Hp; apply NoDup_fst_map_to_list).
  rewrite foldl_insert_map, (right_id_L ∅ (∪)) by done.
  rewrite <- (list_to_map_to_list m). by apply list_to_map_proper.
Qed.

(** The loop [for k, v := range m { out[k] = v }] into a fresh map copies [m],
    whatever the order. *)
Lemma copy_loop (m : gmap K V) :
  foldl (λ out '(k, v), <[k:=v]> out) ∅ (range m) = m.
Proof. apply foldl_insert_perm, range_perm. Qed.
End Range.

(** ** Sorting

    [sort.Strings] returns the ascending (bytewise) arrangement of its
    argument; it is unique, so any sorting algorithm computes it. *)
Definition sort_Strings : list string → list string := merge_sort String.le.

Lemma sort_Strings_perm l : sort_Strings l ≡ₚ l.
Proof. apply merge_sort_Permutation. Qed.

Lemma sort_Strings_sorted l : Sorted String.le (sort_Strings l).
Proof. apply Sorted_merge_sort. apply _. Qed.

Lemma elem_of_sort_Strings l x : x ∈ sort_Strings l ↔ x ∈ l.
Proof. by rewrite sort_Strings_perm. Qed.

Lemma sort_Strings_unique l l' :
  Sorted String.le l' → l' ≡ₚ l → l' = sort_Strings l.
Proof.
  intros Hs Hp. apply (Sorted_unique String.le); [done|apply sort_Strings_sorted|].
  by rewrite sort_Strings_perm.
Qed.

Lemma sort_Strings_proper l1 l2 : l1 ≡ₚ l2 → sort_Strings l1 = sort_Strings l2.
Proof.
  intros Hp. apply sort_Strings_unique; [apply sort_Strings_sorted|].
  by rewrite sort_Strings_perm.
Qed.
#[export] Instance sort_Strings_Proper : Proper ((≡ₚ) ==> (=)) sort_Strings.
Proof. intros l1 l2. apply sort_Strings_proper. Qed.

#[export] Hint Resolve sort_Strings_sorted sort_Strings_perm : gomesh.
#[export] Hint Rewrite elem_of_sort_Strings : gomesh.

(** ** Strings: the Go test [s == ""] *)
Definition str_empty (s : string) : bool := bool_decide (s = "").

Lemma str_empty_true s : str_empty s = true ↔ s = "".
Proof. apply bool_decide_eq_true. Qed.
Lemma str_empty_false s : str_empty s = false ↔ s ≠ "".
Proof. apply bool_decide_eq_false. Qed.

(** ** Termination

    Steps that decrease one measure, or keep it and decrease a second one, come to an
    end, from every state of an invariant they preserve. *)
Lemma sn_lex {A} (R : relation A) (P : A → Prop) (f g : A → nat) :
  (∀ x y, P x → R x y → P y ∧ (f y < f x ∨ f y = f x ∧ g y < g x)) →
  ∀ x, P x → sn R x.
Proof.
  intros Hdec x. remember (f x) as n eqn:Hn. revert x Hn.
  induction (lt_wf n) as [n _ IHn]. intros x.
  remember (g x) as m eqn:Hm. revert x Hm. induction (lt_wf m) as [m _ IHm].
  intros x -> -> Hx. constructor. intros y Hy. destruct (Hdec x y Hx Hy) as [HP [Hlt|[Heq Hlt]]].
  - by apply (IHn (f y)).
  - by apply (IHm (g y)).
Qed.

(** ** Tactics *)

(** Case analysis on the first [match] or [if] the goal or a hypothesis is
    stuck on, keeping the equation. *)
Ltac step_match :=
  match goal with
  | |- context [match ?x with _ => _ end] => destruct x eqn:?
  | H : context [match ?x with _ => _ end] |- _ => destruct x eqn:?
  end.
Ltac crush_match := repeat (step_match; simplify_eq/=); try done.

(** Turn the boolean tests of the code into the propositions they decide. *)
Ltac reflect_bools :=
  repeat match goal with
  | H : bool_decide _ = true |- _ => apply bool_decide_eq_true in H
  | H : bool_decide _ = false |- _ => apply bool_decide_eq_false in H
  | H : str_empty _ = true |- _ => apply str_empty_true in H
  | H : str_empty _ = false |- _ => apply str_empty_false in H
  | H : negb _ = true |- _ => apply negb_true_iff in H
  | H : negb _ = false |- _ => apply negb_false_iff in H
  | H : (_ && _)%bool = true |- _ => apply andb_true_iff in H as [? ?]
  | H : (_ || _)%bool = false |- _ => apply orb_false_iff in H as [? ?]
  end.

(** Decide a closed proposition by evaluating its decision procedure. *)
Ltac decide_now := refine (bool_decide_unpack _ _); vm_compute; exact I.
