(* ===== verification/Types.v ===== *)
(** * API types of the DnsPolicy resource (api/v1alpha1)

    The structs of [dnspolicy_types.go], their generated deep copies
    ([zz_generated.deepcopy.go]) and the parts of the Kubernetes API machinery
    the sources call. That machinery is not part of this repository: it enters
    as the class [ApiMachinery], whose laws state its documented behaviour, and
    every definition that calls it takes an instance. *)

From S2P Require Import Prelude.

(** ** Names *)

(** [types.NamespacedName] *)
Record NamespacedName := mkNN { nn_Namespace : string; nn_Name : string }.

#[export] Instance NamespacedName_eq_dec : EqDecision NamespacedName.
Proof. solve_decision. Defined.
#[export] Instance NamespacedName_countable : Countable NamespacedName.
Proof.
  refine (inj_countable' (λ n, (nn_Namespace n, nn_Name n))
    (λ '(ns, n), mkNN ns n) _). by intros [].
Defined.

(** ** Object metadata and conditions: the fields the sources read or write *)

(** [metav1.Time], in seconds *)
Definition Time := Z.

(** [metav1.ObjectMeta] *)
Record ObjectMeta := mkObjectMeta {
  om_Namespace : string;
  om_Name : string;
  om_Generation : Z;
  om_DeletionTimestamp : option Time;
  om_Finalizers : option (list string);
}.

(** [metav1.Condition] *)
Record Condition := mkCondition {
  c_Type : string;
  c_Status : string;
  c_ObservedGeneration : Z;
  c_LastTransitionTime : Time;
  c_Reason : string;
  c_Message : string;
}.

#[export] Instance ObjectMeta_eq_dec : EqDecision ObjectMeta.
Proof. solve_decision. Defined.
#[export] Instance Condition_eq_dec : EqDecision Condition.
Proof. solve_decision. Defined.

(** [metav1.ConditionTrue], [metav1.ConditionFalse] *)
Definition ConditionTrue : string := "True".
Definition ConditionFalse : string := "False".

(** ** The DnsPolicy resource *)

Record DnsPolicySpec := mkSpec {
  TargetSelector : GoMap;
  BlockList : option (list string);
  Subject : GoMap;
  DryRun : bool;
  Doh : bool;
  DohTlsSecrets : GoMap;
}.

Record DnsPolicyStatus := mkStatus {
  SelectorHash : string;
  SpecHash : string;
  ObservedGeneration : Z;
  Conditions : option (list Condition);
}.

Record DnsPolicy := mkPolicy {
  p_ObjectMeta : ObjectMeta;
  p_Spec : DnsPolicySpec;
  p_Status : DnsPolicyStatus;
}.

(** [DnsPolicyList] *)
Record DnsPolicyList := mkPolicyList { Items : option (list DnsPolicy) }.

#[export] Instance DnsPolicySpec_eq_dec : EqDecision DnsPolicySpec.
Proof. solve_decision. Defined.
#[export] Instance DnsPolicyStatus_eq_dec : EqDecision DnsPolicyStatus.
Proof. solve_decision. Defined.
#[export] Instance DnsPolicy_eq_dec : EqDecision DnsPolicy.
Proof. solve_decision. Defined.

(** [types.NamespacedName{Namespace: policy.Namespace, Name: policy.Name}] *)
Definition policy_key (p : DnsPolicy) : NamespacedName :=
  mkNN (om_Namespace (p_ObjectMeta p)) (om_Name (p_ObjectMeta p)).

(** [policy.Spec.TargetSelector] *)
Definition policy_selector (p : DnsPolicy) : GoMap := TargetSelector (p_Spec p).

(** ** Errors *)

(** Go's [error]: made by [fmt.Errorf], or a status returned by the API server. *)
Inductive goerror :=
  | Errorf (msg : string)
  | StatusError (reason : string) (msg : string).

#[export] Instance goerror_eq_dec : EqDecision goerror.
Proof. solve_decision. Defined.

(** [err.Error()], and [%v] of an error *)
Definition err_Error (e : goerror) : string :=
  match e with Errorf msg => msg | StatusError _ msg => msg end.

(** ** Kubernetes API machinery

    [metav1]'s deep copies and [Time.IsZero], and controller-runtime's finalizer
    helpers, with what their documentation promises: a deep copy has the value
    of its argument, a nil timestamp is zero, [ContainsFinalizer] tests
    membership, [AddFinalizer] appends an absent finalizer, [RemoveFinalizer]
    removes every occurrence, and neither touches another field; [IsNotFound]
    recognises the API server's NotFound status and no other error. *)
Class ApiMachinery := {
  ObjectMeta_DeepCopyInto : ObjectMeta → ObjectMeta;
  Condition_DeepCopyInto : Condition → Condition;
  Time_IsZero : option Time → bool;
  ContainsFinalizer : ObjectMeta → string → bool;
  AddFinalizer : ObjectMeta → string → ObjectMeta;
  RemoveFinalizer : ObjectMeta → string → ObjectMeta;
  IsNotFound : goerror → bool;
  ObjectMeta_DeepCopyInto_value o : ObjectMeta_DeepCopyInto o = o;
  Condition_DeepCopyInto_value c : Condition_DeepCopyInto c = c;
  Time_IsZero_nil : Time_IsZero None = true;
  ContainsFinalizer_spec o f :
    ContainsFinalizer o f = true ↔ f ∈ elems (om_Finalizers o);
  AddFinalizer_spec o f :
    ContainsFinalizer o f = false →
    AddFinalizer o f = mkObjectMeta (om_Namespace o) (om_Name o)
      (om_Generation o) (om_DeletionTimestamp o)
      (Some (elems (om_Finalizers o) ++ [f]));
  RemoveFinalizer_spec o f :
    let o' := RemoveFinalizer o f in
    om_Namespace o' = om_Namespace o ∧ om_Name o' = om_Name o ∧
    om_Generation o' = om_Generation o ∧
    om_DeletionTimestamp o' = om_DeletionTimestamp o ∧
    elems (om_Finalizers o') = filter (.≠ f) (elems (om_Finalizers o));
  IsNotFound_spec e :
    IsNotFound e = true ↔ ∃ msg, e = StatusError "NotFound" msg;
}.

(** A concrete machinery with these laws. *)
Program Definition simple_machinery : ApiMachinery := {|
  ObjectMeta_DeepCopyInto := λ o, o;
  Condition_DeepCopyInto := λ c, c;
  Time_IsZero := λ t, is_nil t;
  ContainsFinalizer := λ o f, bool_decide (f ∈ elems (om_Finalizers o));
  AddFinalizer := λ o f, mkObjectMeta (om_Namespace o) (om_Name o)
    (om_Generation o) (om_DeletionTimestamp o)
    (if decide (f ∈ elems (om_Finalizers o)) then om_Finalizers o
     else Some (elems (om_Finalizers o) ++ [f]));
  RemoveFinalizer := λ o f, mkObjectMeta (om_Namespace o) (om_Name o)
    (om_Generation o) (om_DeletionTimestamp o)
    (Some (filter (.≠ f) (elems (om_Finalizers o))));
  IsNotFound := λ e,
    match e with StatusError r _ => bool_decide (r = "NotFound") | Errorf _ => false end;
|}.
Next Obligation. done. Qed.
Next Obligation. done. Qed.
Next Obligation. done. Qed.
Next Obligation. intros o f. apply bool_decide_eq_true. Qed.
Next Obligation.
  intros o f Hf%bool_decide_eq_false. cbn in *. by rewrite decide_False.
Qed.
Next Obligation. done. Qed.
Next Obligation.
  intros [m|r m]; simpl; [naive_solver|]. rewrite bool_decide_eq_true. naive_solver.
Qed.

(** ** Generated deep copies

    The generated code first assigns the whole struct and then
    replaces every map and slice by a fresh one filled from the original. *)

(** A nil map stays nil; any other one is copied entry by entry into a fresh map. *)
Definition deepcopy_map `{RangeOrder} (m : GoMap) : GoMap :=
  match m with
  | None => None
  | Some m => Some (foldl (λ out '(k, v), <[k:=v]> out) ∅ (range m))
  end.

(** The builtin [copy(dst, src)]: overwrites the first
    [min(len(dst), len(src))] elements of [dst]. *)
Definition go_copy {A} (dst src : list A) : list A :=
  take (length dst) src ++ drop (length src) dst.

(** A nil slice stays nil; any other one is copied into a fresh slice of its length. *)
Definition deepcopy_strings (s : option (list string)) : option (list string) :=
  match s with
  | None => None
  | Some l => Some (go_copy (replicate (length l) "") l)
  end.

(** A fresh slice of the same length, each element deep-copied in its place. *)
Definition deepcopy_each {A} (f : A → A) (s : option (list A)) : option (list A) :=
  match s with
  | None => None
  | Some l => Some (f <$> l)
  end.

Section DeepCopy.
Context `{RO : RangeOrder} `{AM : ApiMachinery}.

Definition DnsPolicySpec_DeepCopyInto (i : DnsPolicySpec) : DnsPolicySpec := {|
  TargetSelector := deepcopy_map (TargetSelector i);
  BlockList := deepcopy_strings (BlockList i);
  Subject := deepcopy_map (Subject i);
  DryRun := DryRun i;
  Doh := Doh i;
  DohTlsSecrets := deepcopy_map (DohTlsSecrets i);
|}.

Definition DnsPolicyStatus_DeepCopyInto (i : DnsPolicyStatus) : DnsPolicyStatus := {|
  SelectorHash := SelectorHash i;
  SpecHash := SpecHash i;
  ObservedGeneration := ObservedGeneration i;
  Conditions := deepcopy_each Condition_DeepCopyInto (Conditions i);
|}.

Definition DnsPolicy_DeepCopyInto (i : DnsPolicy) : DnsPolicy := {|
  p_ObjectMeta := ObjectMeta_DeepCopyInto (p_ObjectMeta i);
  p_Spec := DnsPolicySpec_DeepCopyInto (p_Spec i);
  p_Status := DnsPolicyStatus_DeepCopyInto (p_Status i);
|}.

(** A nil receiver gives nil. *)
Definition DnsPolicy_DeepCopy (i : option DnsPolicy) : option DnsPolicy :=
  match i with
  | None => None
  | Some i => Some (DnsPolicy_DeepCopyInto i)
  end.

Definition DnsPolicyList_DeepCopyInto (i : DnsPolicyList) : DnsPolicyList := {|
  Items := deepcopy_each DnsPolicy_DeepCopyInto (Items i);
|}.

Definition DnsPolicyList_DeepCopy (i : option DnsPolicyList) : option DnsPolicyList :=
  match i with
  | None => None
  | Some i => Some (DnsPolicyList_DeepCopyInto i)
  end.

Definition DnsPolicySpec_DeepCopy (i : option DnsPolicySpec) : option DnsPolicySpec :=
  match i with
  | None => None
  | Some i => Some (DnsPolicySpec_DeepCopyInto i)
  end.

Definition DnsPolicyStatus_DeepCopy (i : option DnsPolicyStatus) : option DnsPolicyStatus :=
  match i with
  | None => None
  | Some i => Some (DnsPolicyStatus_DeepCopyInto i)
  end.

(** Interface values of type [runtime.Object]: nil, or a pointer with its type, which
    may itself be nil. *)
Inductive objectPtr := PolicyPtr (p : option DnsPolicy) | PolicyListPtr (l : option DnsPolicyList).
Abbreviation runtimeObject := (option objectPtr).

Definition DnsPolicy_DeepCopyObject (i : option DnsPolicy) : runtimeObject :=
  match DnsPolicy_DeepCopy i with
  | Some c => Some (PolicyPtr (Some c))
  | None => None
  end.

Definition DnsPolicyList_DeepCopyObject (i : option DnsPolicyList) : runtimeObject :=
  match DnsPolicyList_DeepCopy i with
  | Some c => Some (PolicyListPtr (Some c))
  | None => None
  end.

(** *** Every deep copy has the value of its original *)

Lemma deepcopy_map_value (m : GoMap) : deepcopy_map m = m.
Proof. destruct m as [m|]; [|done]. simpl. f_equal. apply copy_loop. Qed.

Lemma go_copy_fresh {A} (x : A) l : go_copy (replicate (length l) x) l = l.
Proof.
  unfold go_copy. rewrite length_replicate, take_ge by done.
  by rewrite drop_ge, app_nil_r by (by rewrite length_replicate).
Qed.

Lemma deepcopy_strings_value s : deepcopy_strings s = s.
Proof. destruct s as [l|]; [|done]. simpl. by rewrite go_copy_fresh. Qed.

Lemma deepcopy_each_value {A} (f : A → A) s :
  (∀ x, f x = x) → deepcopy_each f s = s.
Proof.
  intros Hf. destruct s as [l|]; [|done]. simpl. f_equal.
  induction l as [|x l IH]; [done|]. csimpl. by rewrite Hf, IH.
Qed.

Lemma DnsPolicySpec_DeepCopyInto_value i : DnsPolicySpec_DeepCopyInto i = i.
Proof.
  destruct i. unfold DnsPolicySpec_DeepCopyInto; simpl.
  by rewrite !deepcopy_map_value, deepcopy_strings_value.
Qed.

Lemma DnsPolicyStatus_DeepCopyInto_value i : DnsPolicyStatus_DeepCopyInto i = i.
Proof.
  destruct i. unfold DnsPolicyStatus_DeepCopyInto; simpl.
  by rewrite (deepcopy_each_value _ _ Condition_DeepCopyInto_value).
Qed.

Lemma DnsPolicy_DeepCopyInto_value i : DnsPolicy_DeepCopyInto i = i.
Proof.
  destruct i. unfold DnsPolicy_DeepCopyInto; simpl.
  by rewrite ObjectMeta_DeepCopyInto_value, DnsPolicySpec_DeepCopyInto_value,
    DnsPolicyStatus_DeepCopyInto_value.
Qed.

Lemma DnsPolicyList_DeepCopyInto_value i : DnsPolicyList_DeepCopyInto i = i.
Proof.
  destruct i. unfold DnsPolicyList_DeepCopyInto; simpl.
  by rewrite (deepcopy_each_value _ _ DnsPolicy_DeepCopyInto_value).
Qed.

(** A copied object has the value of the original, and a nil pointer becomes the nil
    interface, never an interface that holds a nil pointer. *)
Lemma DeepCopyObject_value p l :
  DnsPolicy_DeepCopyObject p = (λ p, PolicyPtr (Some p)) <$> p ∧
  DnsPolicyList_DeepCopyObject l = (λ l, PolicyListPtr (Some l)) <$> l.
Proof.
  unfold DnsPolicy_DeepCopyObject, DnsPolicyList_DeepCopyObject. destruct p, l; simpl;
    by rewrite ?DnsPolicy_DeepCopyInto_value, ?DnsPolicyList_DeepCopyInto_value.
Qed.
End DeepCopy.

#[export] Hint Rewrite @deepcopy_map_value @deepcopy_strings_value
  @DnsPolicy_DeepCopyInto_value : gomesh.
