(* ===== verification/Selectors.v ===== *)
(** * Label maps and selectors

    [LabelsContainAll] (pod_index.go), [selectorsEqual]
    (dnspolicy_controller.go) and [labelsEqual] (pod_controller.go): loops over
    a Go map that return at the first mismatch, and the relations on maps they
    decide. *)

From S2P Require Import Prelude.

(** ** The loops *)

(** [v, ok := m[k]; !ok || v != value] returns from the loop with false, so the
    loop is the conjunction of the tests of the entries visited. *)
Definition entry_in (m : GoMap) (kv : string * string) : bool :=
  match mget m kv.1 with
  | Some v => bool_decide (v = kv.2)
  | None => false
  end.

Definition LabelsContainAll `{RangeOrder} (labels selector : GoMap) : bool :=
  if bool_decide (mlen selector = 0) then false
  else forallb (entry_in labels) (range (contents selector)).

Definition selectorsEqual `{RangeOrder} (a b : GoMap) : bool :=
  if bool_decide (mlen a ≠ mlen b) then false
  else forallb (entry_in b) (range (contents a)).

Definition labelsEqual `{RangeOrder} (a b : GoMap) : bool :=
  if bool_decide (mlen a ≠ mlen b) then false
  else forallb (entry_in b) (range (contents a)).

(** ** What they decide *)

(** A selector selects labels when it is not empty and every entry of it is
    an entry of the labels. *)
Definition Selects (selector labels : GoMap) : Prop :=
  contents selector ≠ ∅ ∧ contents selector ⊆ contents labels.

#[export] Instance Selects_dec selector labels : Decision (Selects selector labels).
Proof. unfold Selects. apply _. Defined.

Section Specs.
Context `{RO : RangeOrder}.

Lemma entry_in_spec m k v : entry_in m (k, v) = true ↔ contents m !! k = Some v.
Proof.
  unfold entry_in, mget; simpl. destruct (contents m !! k) as [v'|]; [|done].
  rewrite bool_decide_eq_true. naive_solver.
Qed.

Lemma forallb_entries m (a : gmap string string) :
  forallb (entry_in m) (range a) = true ↔ a ⊆ contents m.
Proof.
  rewrite forallb_forall, map_subseteq_spec. split.
  - intros Hall k v Hk. apply entry_in_spec, Hall, list_elem_of_In, elem_of_range, Hk.
  - intros Hsub [k v] Hin%list_elem_of_In%elem_of_range. by apply entry_in_spec, Hsub.
Qed.

Lemma mlen_0 m : mlen m = 0 ↔ contents m = ∅.
Proof. apply map_size_empty_iff. Qed.

Lemma LabelsContainAll_Selects labels selector :
  LabelsContainAll labels selector = true ↔ Selects selector labels.
Proof.
  unfold LabelsContainAll, Selects. rewrite <- mlen_0.
  case_bool_decide; [naive_solver|]. rewrite forallb_entries. naive_solver.
Qed.

Lemma LabelsContainAll_decide labels selector :
  LabelsContainAll labels selector = bool_decide (Selects selector labels).
Proof. apply eq_true_iff_eq. rewrite LabelsContainAll_Selects. by rewrite bool_decide_eq_true. Qed.

Lemma selectorsEqual_contents a b :
  selectorsEqual a b = true ↔ contents a = contents b.
Proof.
  unfold selectorsEqual, mlen. case_bool_decide as Hlen.
  - split; [done|]. by intros Heq; rewrite Heq in Hlen.
  - rewrite forallb_entries. split; [|by intros ->].
    intros Hsub. apply map_subseteq_size_eq; [done|]. lia.
Qed.

Lemma labelsEqual_contents a b :
  labelsEqual a b = true ↔ contents a = contents b.
Proof. apply selectorsEqual_contents. Qed.
End Specs.

(** Selection only looks at the contents of the two maps. *)
#[export] Instance Selects_proper :
  Proper ((λ a b, contents a = contents b) ==> (λ a b, contents a = contents b) ==> iff) Selects.
Proof. intros a b Hab c d Hcd. unfold Selects. by rewrite Hab, Hcd. Qed.

(** More labels never unselect, and a selector with more entries selects less. *)
Lemma Selects_mono selector labels labels' :
  contents labels ⊆ contents labels' → Selects selector labels → Selects selector labels'.
Proof. intros Hsub [Hne Hsel]. split; [done|]. by etrans. Qed.

Lemma Selects_nonempty selector labels : Selects selector labels → mlen selector ≠ 0.
Proof. intros [Hne _]. by rewrite mlen_0. Qed.
