(* ===== verification/Stores.v ===== *)
(** * Interfaces between the indexes and the blocklist cache

    The blocklist cache reads the pod index through [Get], [GetAll] and
    [GetPodsMatchingSelector], and the policy index through [GetAll]. The
    classes below state what those reads promise: the cache's theorems are
    proved against them, and the index files discharge them. *)

From S2P Require Import Prelude Types Selectors.

(** [PodInfo] (pod_index.go) *)
Record PodInfo := mkPodInfo {
  pod_IP : string;
  pod_Labels : GoMap;
  pod_Namespace : string;
  pod_Name : string;
}.

#[export] Instance PodInfo_eq_dec : EqDecision PodInfo.
Proof. solve_decision. Defined.

(** ** What the cache asks of a store of pods *)
Class PodStore (S : Type) := {
  ps_Get : S → NamespacedName → option PodInfo;
  ps_GetAll : S → list PodInfo;
  ps_GetPodsMatchingSelector : S → GoMap → list PodInfo;
  ps_GetAll_spec s p : p ∈ ps_GetAll s ↔ ∃ nn, ps_Get s nn = Some p;
  ps_matching_spec s sel p :
    p ∈ ps_GetPodsMatchingSelector s sel ↔
    (∃ nn, ps_Get s nn = Some p) ∧ Selects sel (pod_Labels p);
}.
#[export] Hint Mode PodStore ! : typeclass_instances.

(** ** What the cache asks of a store of policies *)
Class PolicyStore (P : Type) := {
  pol_Get : P → NamespacedName → option DnsPolicy;
  pol_GetAll : P → list DnsPolicy;
  pol_GetAll_spec s p : p ∈ pol_GetAll s ↔ ∃ nn, pol_Get s nn = Some p;
}.
#[export] Hint Mode PolicyStore ! : typeclass_instances.

(** ** Who has an address *)

(** At most one pod of the store has the address. Pods on the host network share theirs,
    and a pod that is gone keeps its own until it is removed, so this is a property of
    single addresses. *)
Definition sole {S} `{PodStore S} (s : S) (ip : string) : Prop :=
  ∀ nn1 nn2 p1 p2,
    ps_Get s nn1 = Some p1 → ps_Get s nn2 = Some p2 → pod_IP p1 = ip → pod_IP p2 = ip → nn1 = nn2.

(** Two pods of the store never have the same non-empty address. *)
Definition ips_unique {S} `{PodStore S} (s : S) : Prop :=
  ∀ nn1 nn2 p1 p2,
    ps_Get s nn1 = Some p1 → ps_Get s nn2 = Some p2 →
    pod_IP p1 = pod_IP p2 → pod_IP p1 ≠ "" → nn1 = nn2.

Lemma ips_unique_sole {S} `{PodStore S} (s : S) : ips_unique s ↔ ∀ ip, ip ≠ "" → sole s ip.
Proof.
  split.
  - intros Hu ip Hne n1 n2 p1 p2 H1 H2 Hip1 Hip2. eapply (Hu n1 n2 p1 p2); congruence.
  - intros Hs n1 n2 p1 p2 H1 H2 Hip Hne. by eapply (Hs (pod_IP p1)).
Qed.

(** An address no pod of the store but [nn] has. *)
Definition ip_free {S} `{PodStore S} (s : S) (nn : NamespacedName) (ip : string) : Prop :=
  ∀ nn' p, ps_Get s nn' = Some p → pod_IP p = ip → nn' = nn.
