(* ===== verification/PodIndex.v ===== *)
(** * The pod index (internal/controller/pod_index.go)

    Running pods by namespaced name, with a reverse map from IP to name. Every
    method runs under the index's mutex, so each is one atomic state change;
    the state is the record [PodIndex]. Returned and stored [PodInfo] values
    are copies made entry by entry ([podCopy]). *)

From S2P Require Import Prelude Types Selectors Stores.

Record PodIndex := mkPodIndex {
  pods : gmap NamespacedName PodInfo;
  ipToPod : gmap string NamespacedName;
}.

Definition NewPodIndex : PodIndex := mkPodIndex ∅ ∅.

Section PodIndex.
Context `{RO : RangeOrder}.

(** ** Operations *)

(** A fresh [PodInfo] with a fresh label map filled from [info]'s. *)
Definition podCopy (info : PodInfo) : PodInfo := {|
  pod_IP := pod_IP info;
  pod_Labels := Some (foldl (λ out '(k, v), <[k:=v]> out) ∅ (range (contents (pod_Labels info))));
  pod_Namespace := pod_Namespace info;
  pod_Name := pod_Name info;
|}.

Definition Upsert (pi : PodIndex) (nn : NamespacedName) (info : PodInfo) : PodIndex :=
  let ipToPod' :=
    match pods pi !! nn with
    | Some existing =>
        if bool_decide (pod_IP existing ≠ pod_IP info)
        then delete (pod_IP existing) (ipToPod pi)
        else ipToPod pi
    | None => ipToPod pi
    end in
  {| pods := <[nn := podCopy info]> (pods pi);
     ipToPod := <[pod_IP info := nn]> ipToPod' |}.

Definition Delete (pi : PodIndex) (nn : NamespacedName) : PodIndex :=
  match pods pi !! nn with
  | Some existing =>
      {| pods := delete nn (pods pi);
         ipToPod := delete (pod_IP existing) (ipToPod pi) |}
  | None => pi
  end.

Definition Get (pi : PodIndex) (nn : NamespacedName) : option PodInfo :=
  match pods pi !! nn with
  | Some info => Some (podCopy info)
  | None => None
  end.

Definition GetByIP (pi : PodIndex) (ip : string) : option PodInfo :=
  match ipToPod pi !! ip with
  | Some nn =>
      match pods pi !! nn with
      | Some info => Some (podCopy info)
      | None => None
      end
  | None => None
  end.

Definition GetAll (pi : PodIndex) : list PodInfo :=
  foldl (λ result '(_, info), result ++ [podCopy info]) [] (range (pods pi)).

Definition GetPodsMatchingSelector (pi : PodIndex) (selector : GoMap) : list PodInfo :=
  foldl (λ result '(_, info),
    if LabelsContainAll (pod_Labels info) selector
    then result ++ [podCopy info] else result) [] (range (pods pi)).

Definition Size (pi : PodIndex) : nat := size (pods pi).

(** ** Invariant

    Stored labels are allocated maps, and the reverse map never lies: an IP is
    mapped only to an indexed pod that has it. *)
Record wf (pi : PodIndex) : Prop := {
  wf_labels : ∀ nn p, pods pi !! nn = Some p → is_Some (pod_Labels p);
  wf_reverse : ∀ ip nn, ipToPod pi !! ip = Some nn →
    ∃ p, pods pi !! nn = Some p ∧ pod_IP p = ip;
}.

(** The value a copy has: the labels of a nil map become an empty map. *)
Definition normal (info : PodInfo) : PodInfo :=
  mkPodInfo (pod_IP info) (Some (contents (pod_Labels info)))
    (pod_Namespace info) (pod_Name info).

Lemma podCopy_normal info : podCopy info = normal info.
Proof. unfold podCopy, normal. by rewrite copy_loop. Qed.

Lemma podCopy_IP info : pod_IP (podCopy info) = pod_IP info.
Proof. done. Qed.

Lemma podCopy_labels info : contents (pod_Labels (podCopy info)) = contents (pod_Labels info).
Proof. by rewrite podCopy_normal. Qed.

Lemma podCopy_id info : is_Some (pod_Labels info) → podCopy info = info.
Proof. rewrite podCopy_normal. destruct info; by intros [m ?]; simplify_eq/=. Qed.

Lemma podCopy_idemp info : podCopy (podCopy info) = podCopy info.
Proof. apply podCopy_id. by eexists. Qed.

Lemma podCopy_Selects info sel :
  Selects sel (pod_Labels (podCopy info)) ↔ Selects sel (pod_Labels info).
Proof. unfold Selects. by rewrite podCopy_labels. Qed.

Lemma Get_wf pi nn : wf pi → Get pi nn = pods pi !! nn.
Proof.
  intros [Hl _]. unfold Get. destruct (pods pi !! nn) as [p|] eqn:Hp; [|done].
  by rewrite podCopy_id by eauto.
Qed.

Lemma Get_Some pi nn p :
  Get pi nn = Some p ↔ ∃ p', pods pi !! nn = Some p' ∧ p = podCopy p'.
Proof. unfold Get. destruct (pods pi !! nn); naive_solver. Qed.

Lemma Get_NewPodIndex nn : Get NewPodIndex nn = None.
Proof. done. Qed.

Lemma Get_Upsert pi nn info nn' :
  Get (Upsert pi nn info) nn' =
  if decide (nn = nn') then Some (podCopy info) else Get pi nn'.
Proof.
  unfold Get, Upsert; simpl. rewrite lookup_insert.
  case_decide; [|done]. by rewrite podCopy_idemp.
Qed.

Lemma Get_Delete pi nn nn' :
  Get (Delete pi nn) nn' = if decide (nn = nn') then None else Get pi nn'.
Proof.
  unfold Get, Delete. destruct (pods pi !! nn) as [p|] eqn:Hp; simpl.
  - rewrite lookup_delete. by case_decide.
  - case_decide; [|done]. subst. by rewrite Hp.
Qed.

Lemma GetAll_fmap pi : GetAll pi = podCopy <$> (range (pods pi)).*2.
Proof.
  unfold GetAll. generalize (range (pods pi)). intros l.
  enough (∀ acc, foldl (λ result '(_, info), result ++ [podCopy info]) acc l =
    acc ++ (podCopy <$> l.*2)) as Hacc by apply Hacc.
  induction l as [|[k v] l IH]; intros acc; csimpl; [by rewrite app_nil_r|].
  by rewrite IH, <- app_assoc.
Qed.

Lemma GetPodsMatchingSelector_fmap pi sel :
  GetPodsMatchingSelector pi sel =
  podCopy <$> filter (λ p, Selects sel (pod_Labels p)) (range (pods pi)).*2.
Proof.
  unfold GetPodsMatchingSelector. generalize (range (pods pi)). intros l.
  enough (∀ acc, foldl (λ result '(_, info), if LabelsContainAll (pod_Labels info) sel
      then result ++ [podCopy info] else result) acc l =
    acc ++ (podCopy <$> filter (λ p, Selects sel (pod_Labels p)) l.*2)) as Hacc by apply Hacc.
  induction l as [|[k v] l IH]; intros acc; csimpl; [by rewrite app_nil_r|].
  rewrite LabelsContainAll_decide, filter_cons.
  case_bool_decide as Hs; rewrite IH.
  - rewrite decide_True by done. csimpl. by rewrite <- app_assoc.
  - by rewrite decide_False by done.
Qed.

Lemma elem_of_GetAll pi p : p ∈ GetAll pi ↔ ∃ nn, Get pi nn = Some p.
Proof.
  rewrite GetAll_fmap, list_elem_of_fmap. setoid_rewrite elem_of_range_snd.
  setoid_rewrite Get_Some. naive_solver.
Qed.

Lemma elem_of_GetPodsMatchingSelector pi sel p :
  p ∈ GetPodsMatchingSelector pi sel ↔
  (∃ nn, Get pi nn = Some p) ∧ Selects sel (pod_Labels p).
Proof.
  rewrite GetPodsMatchingSelector_fmap, list_elem_of_fmap.
  setoid_rewrite list_elem_of_filter. setoid_rewrite elem_of_range_snd.
  setoid_rewrite Get_Some. split.
  - intros (p' & -> & Hs & nn & Hnn). split; [by eauto|]. by apply podCopy_Selects.
  - intros [(nn & p' & Hnn & ->) Hs].
    exists p'. rewrite podCopy_Selects in Hs. split_and!; eauto.
Qed.

(** ** The invariant holds initially and every operation preserves it *)

Lemma wf_NewPodIndex : wf NewPodIndex.
Proof. split; simpl; intros *; by rewrite lookup_empty. Qed.

Lemma wf_Upsert pi nn info : wf pi → wf (Upsert pi nn info).
Proof.
  intros [Hl Hr]. split; unfold Upsert; simpl.
  - intros nn' p. rewrite lookup_insert. case_decide; [|by eauto].
    intros; simplify_eq. by eexists.
  - intros ip nn'. rewrite lookup_insert. case_decide as Hip.
    { intros; simplify_eq. exists (podCopy info). by rewrite lookup_insert_eq. }
    assert (∀ nn', ipToPod pi !! ip = Some nn' → nn' ≠ nn →
      ∃ p, <[nn:=podCopy info]> (pods pi) !! nn' = Some p ∧ pod_IP p = ip) as Hother.
    { intros nn2 Hnn2 Hne. rewrite lookup_insert_ne by done. eauto. }
    destruct (pods pi !! nn) as [ex|] eqn:Hex.
    + case_bool_decide as Hchg.
      * rewrite lookup_delete_Some. intros [Hne Hnn']. apply Hother; [done|].
        intros ->. apply Hr in Hnn' as (p & ? & ?). by simplify_eq.
      * intros Hnn'. apply Hother; [done|].
        intros ->. apply Hr in Hnn' as (p & ? & ?). by simplify_eq.
    + intros Hnn'. apply Hother; [done|].
      intros ->. apply Hr in Hnn' as (p & ? & ?). by simplify_eq.
Qed.

Lemma wf_Delete pi nn : wf pi → wf (Delete pi nn).
Proof.
  intros [Hl Hr]. unfold Delete. destruct (pods pi !! nn) as [ex|] eqn:Hex; [|done].
  split; simpl.
  - intros nn' p [_ ?]%lookup_delete_Some. eauto.
  - intros ip nn' [Hne Hnn']%lookup_delete_Some.
    apply Hr in Hnn' as (p & Hp & <-). exists p. split; [|done].
    rewrite lookup_delete_ne; [done|]. intros ->. by simplify_eq.
Qed.

(** A lookup by address returns a pod that is indexed and has that address. *)
Lemma GetByIP_sound pi ip p :
  wf pi → GetByIP pi ip = Some p → pod_IP p = ip ∧ ∃ nn, Get pi nn = Some p.
Proof.
  intros [Hl Hr]. unfold GetByIP. destruct (ipToPod pi !! ip) as [nn|] eqn:Hip; [|done].
  apply Hr in Hip as (p' & Hp' & <-). rewrite Hp'. intros ?; simplify_eq.
  split; [done|]. exists nn. apply Get_Some. eauto.
Qed.

(** ** Completeness of the reverse map

    While addresses are unique the reverse map finds every pod. *)
Definition reverse_complete (pi : PodIndex) : Prop :=
  ∀ nn p, pods pi !! nn = Some p → ipToPod pi !! pod_IP p = Some nn.

Lemma reverse_complete_NewPodIndex : reverse_complete NewPodIndex.
Proof. intros nn p; simpl. by rewrite lookup_empty. Qed.

(** No other indexed pod has the address. *)
Definition addr_free (pi : PodIndex) (nn : NamespacedName) (ip : string) : Prop :=
  ∀ nn' p, pods pi !! nn' = Some p → pod_IP p = ip → nn' = nn.

Lemma reverse_complete_Upsert pi nn info :
  addr_free pi nn (pod_IP info) →
  reverse_complete pi → reverse_complete (Upsert pi nn info).
Proof.
  intros Hfree Hc nn' p. unfold Upsert; simpl. rewrite lookup_insert.
  case_decide as Hnn; [intros; simplify_eq; by rewrite lookup_insert_eq|].
  intros Hp. pose proof (Hc _ _ Hp) as Hip.
  rewrite lookup_insert_ne by (intros Heq; by eapply Hnn, eq_sym, Hfree).
  destruct (pods pi !! nn) as [ex|] eqn:Hex; [|done].
  case_bool_decide; [|done]. rewrite lookup_delete_ne; [done|].
  intros Heq. apply Hc in Hex. congruence.
Qed.

Lemma reverse_complete_Delete pi nn :
  reverse_complete pi → reverse_complete (Delete pi nn).
Proof.
  intros Hc nn' p. unfold Delete. destruct (pods pi !! nn) as [ex|] eqn:Hex; [|by apply Hc].
  simpl. intros [Hne Hp]%lookup_delete_Some. pose proof (Hc _ _ Hp) as Hip.
  rewrite lookup_delete_ne; [done|]. intros Heq. apply Hc in Hex. congruence.
Qed.

Lemma GetByIP_complete pi nn p :
  reverse_complete pi → Get pi nn = Some p → GetByIP pi (pod_IP p) = Some p.
Proof.
  intros Hc (p' & Hp' & ->)%Get_Some. unfold GetByIP.
  rewrite podCopy_IP, (Hc _ _ Hp'), Hp'. done.
Qed.

(** Sizes *)
Lemma Size_Upsert pi nn info :
  Size (Upsert pi nn info) = if decide (is_Some (pods pi !! nn)) then Size pi else S (Size pi).
Proof.
  unfold Size, Upsert; simpl. case_decide as Hs.
  - by apply map_size_insert_Some.
  - apply map_size_insert_None. by apply eq_None_not_Some.
Qed.

Lemma length_GetAll pi : length (GetAll pi) = Size pi.
Proof. by rewrite GetAll_fmap, !length_fmap, length_range. Qed.

Lemma GetAll_wf pi : wf pi → GetAll pi ≡ₚ (map_to_list (pods pi)).*2.
Proof.
  intros [Hl _]. rewrite GetAll_fmap, range_perm.
  rewrite <- (list_fmap_id (map_to_list (pods pi)).*2) at 2.
  erewrite Forall_fmap_ext_1; [done|]. apply Forall_forall.
  intros p ([nn p'] & -> & Hin%elem_of_map_to_list)%list_elem_of_fmap.
  apply podCopy_id. eauto.
Qed.

(** ** Histories of the index

    The calls the pod reconciler makes, in the order their critical sections
    run, and the finite map they describe. *)
Inductive PodOp :=
  | OpUpsert (nn : NamespacedName) (info : PodInfo)
  | OpDelete (nn : NamespacedName).

Definition run_op (pi : PodIndex) (o : PodOp) : PodIndex :=
  match o with
  | OpUpsert nn info => Upsert pi nn info
  | OpDelete nn => Delete pi nn
  end.

Definition run_ops (pi : PodIndex) (os : list PodOp) : PodIndex := foldl run_op pi os.

Definition spec_op (m : gmap NamespacedName PodInfo) (o : PodOp) : gmap NamespacedName PodInfo :=
  match o with
  | OpUpsert nn info => <[nn := normal info]> m
  | OpDelete nn => delete nn m
  end.

Definition spec_ops (os : list PodOp) : gmap NamespacedName PodInfo := foldl spec_op ∅ os.

(** The concrete index agrees with the map it stands for. *)
Definition refines (pi : PodIndex) (m : gmap NamespacedName PodInfo) : Prop :=
  pods pi = m ∧ wf pi.

Lemma refines_step pi m o : refines pi m → refines (run_op pi o) (spec_op m o).
Proof.
  intros [<- Hwf]. destruct o as [nn info|nn]; split; simpl;
    auto using wf_Upsert, wf_Delete.
  - by rewrite podCopy_normal.
  - unfold Delete. destruct (pods pi !! nn) eqn:Hp; [done|]. by rewrite delete_id.
Qed.

Lemma refines_run os : refines (run_ops NewPodIndex os) (spec_ops os).
Proof.
  unfold run_ops, spec_ops.
  assert (refines NewPodIndex ∅) as H0 by (split; [done|apply wf_NewPodIndex]).
  revert H0. generalize NewPodIndex (∅ : gmap NamespacedName PodInfo).
  induction os as [|o os IH]; intros pi m Hr; [done|]. by apply IH, refines_step.
Qed.

(** A history in which no pod is indexed with an address another indexed pod has. *)
Fixpoint addresses_unique (m : gmap NamespacedName PodInfo) (os : list PodOp) : Prop :=
  match os with
  | [] => True
  | OpUpsert nn info :: os =>
      (∀ nn' p, m !! nn' = Some p → pod_IP p = pod_IP info → nn' = nn) ∧
      addresses_unique (spec_op m (OpUpsert nn info)) os
  | OpDelete nn :: os => addresses_unique (spec_op m (OpDelete nn)) os
  end.

Lemma reverse_complete_run pi m os :
  refines pi m → reverse_complete pi → addresses_unique m os →
  reverse_complete (run_ops pi os).
Proof.
  revert pi m. induction os as [|o os IH]; intros pi m Hr Hc Hu; [done|].
  pose proof (refines_step _ _ o Hr) as Hr'. destruct o as [nn info|nn]; simpl in *.
  - destruct Hu as [Hfree Hu]. eapply IH; [done| |done].
    apply reverse_complete_Upsert; [|done]. by destruct Hr as [<- _].
  - eapply IH; [done| |done]. by apply reverse_complete_Delete.
Qed.
End PodIndex.

(** The pod index is a pod store. *)
#[export] Instance PodIndex_store `{RangeOrder} : PodStore PodIndex := {|
  ps_Get := Get;
  ps_GetAll := GetAll;
  ps_GetPodsMatchingSelector := GetPodsMatchingSelector;
  ps_GetAll_spec := elem_of_GetAll;
  ps_matching_spec := elem_of_GetPodsMatchingSelector;
|}.

(** ** Properties *)
Section Properties.
Context `{RO : RangeOrder}.

(** C16: the pod index implements a finite map. After any history of [Upsert] and
    [Delete] calls on a new index, [Get] returns exactly the last information
    upserted under a name that was not deleted since (with its own allocated
    label map), [GetAll] and [Size] describe the same map, and
    [GetPodsMatchingSelector] returns exactly its pods whose labels contain the
    non-empty selector. *)
Theorem pod_index_refines_map (os : list PodOp) :
  let pi := run_ops NewPodIndex os in
  let m := spec_ops os in
  (∀ nn, Get pi nn = m !! nn) ∧
  GetAll pi ≡ₚ (map_to_list m).*2 ∧
  Size pi = size m ∧
  (∀ sel p, p ∈ GetPodsMatchingSelector pi sel ↔
    (∃ nn, m !! nn = Some p) ∧ Selects sel (pod_Labels p)).
Proof.
  intros pi m. destruct (refines_run os) as [Hm Hwf]. fold pi m in Hm, Hwf.
  assert (∀ nn, Get pi nn = m !! nn) as Hget by (intros; by rewrite Get_wf, Hm).
  split_and!; [done| |by unfold Size; rewrite Hm|].
  - by rewrite GetAll_wf, Hm.
  - intros sel p. rewrite elem_of_GetPodsMatchingSelector. by setoid_rewrite Hget.
Qed.

(** A lookup by address never returns a wrong pod. After any history, even
    one in which addresses are reused, a pod returned by [GetByIP] has the
    address asked for and is in the index. *)
Theorem get_by_ip_sound (os : list PodOp) ip p :
  GetByIP (run_ops NewPodIndex os) ip = Some p →
  pod_IP p = ip ∧ ∃ nn, spec_ops os !! nn = Some p.
Proof.
  destruct (refines_run os) as [Hm Hwf]. intros [Hip [nn Hnn]]%GetByIP_sound; [|done].
  rewrite Get_wf, Hm in Hnn by done. eauto.
Qed.

(** While no pod is indexed with an address another indexed pod holds, the
    lookup by address is exact: it finds every indexed pod by its address and
    nothing else. *)
Theorem get_by_ip_exact (os : list PodOp) ip p :
  addresses_unique ∅ os →
  GetByIP (run_ops NewPodIndex os) ip = Some p ↔
  ∃ nn, spec_ops os !! nn = Some p ∧ pod_IP p = ip.
Proof.
  intros Hu. destruct (refines_run os) as [Hm Hwf]. split.
  - intros [Hip [nn Hnn]]%GetByIP_sound; [|done]. rewrite Get_wf, Hm in Hnn by done. eauto.
  - intros (nn & Hnn & <-). rewrite <- Hm, <- Get_wf in Hnn by done.
    eapply GetByIP_complete; [|done].
    eapply reverse_complete_run; [|apply reverse_complete_NewPodIndex|done].
    split; [done|apply wf_NewPodIndex].
Qed.

(** Reusing an address loses a pod. When pod [b] is indexed with the address
    pod [a] still holds and [a] is deleted afterwards, [b] is in the index but
    can no longer be found by its address. *)
Theorem address_reuse_loses_pod (pi : PodIndex) (a b : NamespacedName) (ia ib : PodInfo) :
  a ≠ b → pod_IP ia = pod_IP ib →
  let pi' := Delete (Upsert (Upsert pi a ia) b ib) a in
  Get pi' b = Some (podCopy ib) ∧ GetByIP pi' (pod_IP ib) = None.
Proof.
  intros Hab Hip pi'. split.
  - unfold pi'. rewrite Get_Delete, decide_False by done.
    by rewrite Get_Upsert, decide_True by done.
  - unfold pi', Delete, GetByIP; simpl.
    rewrite lookup_insert_ne, lookup_insert_eq by done; simpl.
    by rewrite Hip, lookup_delete_eq.
Qed.
End Properties.

(** ** Concrete instances *)
Definition nn_web : NamespacedName := mkNN "default" "web-1".
Definition nn_db : NamespacedName := mkNN "default" "db-1".
Definition info_web : PodInfo :=
  mkPodInfo "10.0.0.1" (Some {["app" := "web"]}) "default" "web-1".
Definition info_db : PodInfo :=
  mkPodInfo "10.0.0.2" (Some {["app" := "db"]}) "default" "db-1".
Definition history : list PodOp := [OpUpsert nn_web info_web; OpUpsert nn_db info_db].

Lemma get_by_ip_sound_witness :
  pod_IP info_db = "10.0.0.2" ∧ ∃ nn, spec_ops history !! nn = Some info_db.
Proof. apply (get_by_ip_sound (RO:=order_fwd) history). vm_compute. reflexivity. Defined.

Lemma get_by_ip_exact_witness :
  GetByIP (RO:=order_fwd) (run_ops (RO:=order_fwd) NewPodIndex history) "10.0.0.1" = Some info_web.
Proof.
  apply (get_by_ip_exact (RO:=order_fwd) history).
  - split; [|split; [|exact I]].
    + intros nn' p Hp. by rewrite lookup_empty in Hp.
    + intros nn' p Hp. simpl in Hp. apply lookup_insert_Some in Hp as [[<- <-]|[_ Hp]].
      * intros HIP. discriminate HIP.
      * by rewrite lookup_empty in Hp.
  - exists nn_web. vm_compute. by split.
Defined.

Lemma address_reuse_loses_pod_witness :
  let reused := mkPodInfo "10.0.0.1" None "default" "db-1" in
  let pi' := Delete (Upsert (RO:=order_fwd) (Upsert (RO:=order_fwd) NewPodIndex nn_web info_web)
    nn_db reused) nn_web in
  Get (RO:=order_fwd) pi' nn_db = Some (podCopy (RO:=order_fwd) reused) ∧
  GetByIP (RO:=order_fwd) pi' "10.0.0.1" = None.
Proof.
  intros reused. apply (address_reuse_loses_pod (RO:=order_fwd) NewPodIndex nn_web nn_db info_web reused).
  - discriminate.
  - reflexivity.
Defined.
