(* ===== verification/PolicyIndex.v ===== *)
(** * The policy index (internal/controller/policy_index.go)

    DnsPolicy objects by namespaced name. Each method is one critical section of
    the index's mutex; [Upsert] and [Delete] also return the selector of the
    entry they replace or remove. *)

From S2P Require Import Prelude Types Selectors Stores.

Record PolicyIndex := mkPolicyIndex {
  policies : gmap NamespacedName DnsPolicy;
}.

Definition NewPolicyIndex : PolicyIndex := mkPolicyIndex ∅.

Section PolicyIndex.
Context `{RO : RangeOrder} `{AM : ApiMachinery}.

(** ** Operations *)

Definition Upsert (pi : PolicyIndex) (policy : DnsPolicy) : PolicyIndex * GoMap :=
  let namespacedName := policy_key policy in
  let oldSelector :=
    match policies pi !! namespacedName with
    | Some existing => policy_selector existing
    | None => None
    end in
  (mkPolicyIndex (<[namespacedName := DnsPolicy_DeepCopyInto policy]> (policies pi)),
   oldSelector).

Definition Delete (pi : PolicyIndex) (nn : NamespacedName) : PolicyIndex * GoMap :=
  match policies pi !! nn with
  | Some existing => (mkPolicyIndex (delete nn (policies pi)), policy_selector existing)
  | None => (pi, None)
  end.

Definition Get (pi : PolicyIndex) (nn : NamespacedName) : option DnsPolicy :=
  match policies pi !! nn with
  | Some policy => DnsPolicy_DeepCopy (Some policy)
  | None => None
  end.

Definition GetAll (pi : PolicyIndex) : list DnsPolicy :=
  foldl (λ ps '(_, policy), ps ++ [DnsPolicy_DeepCopyInto policy]) [] (range (policies pi)).

Definition Size (pi : PolicyIndex) : nat := size (policies pi).

(** ** Lemmas *)

Lemma policy_Get_lookup pi nn : Get pi nn = policies pi !! nn.
Proof.
  unfold Get. destruct (policies pi !! nn) as [p|]; [|done]; simpl.
  by rewrite DnsPolicy_DeepCopyInto_value.
Qed.

Lemma policy_GetAll_range pi : GetAll pi = (range (policies pi)).*2.
Proof.
  unfold GetAll. generalize (range (policies pi)). intros l.
  enough (∀ acc, foldl (λ ps '(_, policy), ps ++ [DnsPolicy_DeepCopyInto policy]) acc l =
    acc ++ l.*2) as Hacc by apply Hacc.
  induction l as [|[k v] l IH]; intros acc; csimpl; [by rewrite app_nil_r|].
  by rewrite IH, <- app_assoc, DnsPolicy_DeepCopyInto_value.
Qed.

Lemma elem_of_policy_GetAll pi p : p ∈ GetAll pi ↔ ∃ nn, Get pi nn = Some p.
Proof.
  rewrite policy_GetAll_range, elem_of_range_snd. by setoid_rewrite policy_Get_lookup.
Qed.

Lemma policies_Upsert pi p :
  policies (Upsert pi p).1 = <[policy_key p := p]> (policies pi).
Proof. simpl. by rewrite DnsPolicy_DeepCopyInto_value. Qed.

Lemma policies_Delete pi nn : policies (Delete pi nn).1 = delete nn (policies pi).
Proof.
  unfold Delete. destruct (policies pi !! nn) eqn:Hp; [done|]. by rewrite delete_id.
Qed.

Lemma Upsert_old pi p :
  (Upsert pi p).2 = policies pi !! policy_key p ≫= policy_selector.
Proof. simpl. by destruct (policies pi !! policy_key p). Qed.

Lemma Delete_old pi nn : (Delete pi nn).2 = policies pi !! nn ≫= policy_selector.
Proof. unfold Delete. by destruct (policies pi !! nn). Qed.

(** ** Histories *)

Inductive PolicyOp :=
  | PolUpsert (p : DnsPolicy)
  | PolDelete (nn : NamespacedName).

Definition run_policy_op (pi : PolicyIndex) (o : PolicyOp) : PolicyIndex :=
  match o with
  | PolUpsert p => (Upsert pi p).1
  | PolDelete nn => (Delete pi nn).1
  end.

Definition spec_policy_op (m : gmap NamespacedName DnsPolicy) (o : PolicyOp) :=
  match o with
  | PolUpsert p => <[policy_key p := p]> m
  | PolDelete nn => delete nn m
  end.

Lemma policies_run os pi :
  policies (foldl run_policy_op pi os) = foldl spec_policy_op (policies pi) os.
Proof.
  revert pi. induction os as [|[p|nn] os IH]; intros pi; [done| |]; cbn [foldl run_policy_op spec_policy_op].
  - by rewrite IH, policies_Upsert.
  - by rewrite IH, policies_Delete.
Qed.

(** Policies are stored under their own name. *)
Definition policy_keys_ok (m : gmap NamespacedName DnsPolicy) : Prop :=
  ∀ nn p, m !! nn = Some p → policy_key p = nn.

Lemma policy_keys_ok_step m o : policy_keys_ok m → policy_keys_ok (spec_policy_op m o).
Proof.
  intros Hk nn p. destruct o as [q|nn']; simpl.
  - intros [[<- <-]|[_ ?]]%lookup_insert_Some; [done|by apply Hk].
  - intros [_ ?]%lookup_delete_Some. by apply Hk.
Qed.

Lemma policy_keys_ok_run m os : policy_keys_ok m → policy_keys_ok (foldl spec_policy_op m os).
Proof.
  revert m. induction os as [|o os IH]; intros m Hk; [done|]. by apply IH, policy_keys_ok_step.
Qed.
End PolicyIndex.

(** The policy index is a policy store. *)
#[export] Instance PolicyIndex_store `{RangeOrder} `{ApiMachinery} : PolicyStore PolicyIndex := {|
  pol_Get := Get;
  pol_GetAll := GetAll;
  pol_GetAll_spec := elem_of_policy_GetAll;
|}.

(** ** Properties *)
Section Properties.
Context `{RO : RangeOrder} `{AM : ApiMachinery}.

(** C19: the policy index implements a finite map keyed by each policy's own
    namespaced name. After any history of [Upsert] and [Delete] calls on a new
    index, [Get] returns the last policy upserted under a name and not deleted
    since, field for field; [GetAll] lists exactly those, [Size] counts them; and
    the selector returned by the next [Upsert] or [Delete] is that of the entry
    it replaces or removes, nil when there is none. *)
Theorem policy_index_refines_map (os : list PolicyOp) :
  let pi := foldl run_policy_op NewPolicyIndex os in
  let m := foldl spec_policy_op ∅ os in
  (∀ nn, Get pi nn = m !! nn) ∧
  GetAll pi ≡ₚ (map_to_list m).*2 ∧
  Size pi = size m ∧
  (∀ nn p, Get pi nn = Some p → policy_key p = nn) ∧
  (∀ p, (Upsert pi p).2 = m !! policy_key p ≫= policy_selector) ∧
  (∀ nn, (Delete pi nn).2 = m !! nn ≫= policy_selector).
Proof.
  intros pi m. assert (policies pi = m) as Hm by apply policies_run.
  split_and!; intros.
  - by rewrite policy_Get_lookup, Hm.
  - by rewrite policy_GetAll_range, range_perm, Hm.
  - unfold Size. by rewrite Hm.
  - rewrite policy_Get_lookup, Hm in *.
    by apply (policy_keys_ok_run ∅ os) with (nn:=nn).
  - by rewrite Upsert_old, Hm.
  - by rewrite Delete_old, Hm.
Qed.
End Properties.
