(* ===== verification/BlocklistCache.v ===== *)
(** * The blocklist cache (internal/controller/blocklist_cache.go)

    The computed IP-to-domains mapping. The cache reads the two indexes through
    the interfaces of Stores.v; its state holds them as the Go struct holds
    pointers to them, so a change of an index is a change of that field. *)

From S2P Require Import Prelude Types Selectors Stores.

Record BlocklistEntry := mkEntry {
  entry_IP : string;
  entry_Domains : list string;
}.

#[export] Instance BlocklistEntry_eq_dec : EqDecision BlocklistEntry.
Proof. solve_decision. Defined.

Record BlocklistCache (S P : Type) := mkCache {
  podIndex : S;
  policyIndex : P;
  entries : gmap string BlocklistEntry;
}.
Arguments mkCache {S P} _ _ _.
Arguments podIndex {S P} _.
Arguments policyIndex {S P} _.
Arguments entries {S P} _.

(** The order [sort.Slice] sorts the served entries by: their IP. *)
Definition entry_le (a b : BlocklistEntry) : Prop := String.le (entry_IP a) (entry_IP b).

#[export] Instance entry_le_dec : RelDecision entry_le.
Proof. intros a b. unfold entry_le. apply _. Defined.
#[export] Instance entry_le_trans : Transitive entry_le.
Proof. intros a b c. unfold entry_le. apply transitivity. Qed.
#[export] Instance entry_le_total : Total entry_le.
Proof. intros a b. unfold entry_le. apply (total String.le). Qed.

Section Operations.
Context `{RO : RangeOrder} {S P : Type} `{PS : PodStore S} `{PL : PolicyStore P}.
Implicit Types (bc : BlocklistCache S P) (pod : PodInfo) (ip : string).

Definition NewBlocklistCache (s : S) (p : P) : BlocklistCache S P := mkCache s p ∅.

(** Field updates. *)
Definition with_entries bc (e : gmap string BlocklistEntry) : BlocklistCache S P :=
  mkCache (podIndex bc) (policyIndex bc) e.
Definition with_pods bc (s : S) : BlocklistCache S P :=
  mkCache s (policyIndex bc) (entries bc).
Definition with_policies bc (p : P) : BlocklistCache S P :=
  mkCache (podIndex bc) p (entries bc).

(** ** Recalculation of one pod *)

(** The loop over the policies: collects the domains of every policy with a
    non-empty selector that matches. [domainsSet] is a [map[string]struct{}]. *)
Definition collectDomains (labels : GoMap) (ps : list DnsPolicy) : gmap string () :=
  foldl (λ domainsSet policy,
    if bool_decide (mlen (policy_selector policy) = 0) then domainsSet
    else if LabelsContainAll labels (policy_selector policy)
    then foldl (λ set domain, <[domain := tt]> set) domainsSet (elems (BlockList (p_Spec policy)))
    else domainsSet) ∅ ps.

(** The set converted to a sorted slice. *)
Definition sortedDomains (domainsSet : gmap string ()) : list string :=
  sort_Strings (foldl (λ domains '(domain, _), domains ++ [domain]) [] (range domainsSet)).

Definition recalculatePodInternal bc pod : BlocklistCache S P :=
  if str_empty (pod_IP pod) then bc
  else
    let domainsSet := collectDomains (pod_Labels pod) (pol_GetAll (policyIndex bc)) in
    let domains := sortedDomains domainsSet in
    with_entries bc (<[pod_IP pod := mkEntry (pod_IP pod) domains]> (entries bc)).

Definition RecalculatePod bc (nn : NamespacedName) : BlocklistCache S P :=
  match ps_Get (podIndex bc) nn with
  | None => bc
  | Some pod => recalculatePodInternal bc pod
  end.

Definition RemovePod bc ip : BlocklistCache S P :=
  with_entries bc (delete ip (entries bc)).

(** ** Recalculation after a policy change *)

Definition RecalculateForPolicy bc (selector : GoMap) : BlocklistCache S P :=
  if bool_decide (mlen selector = 0) then bc
  else
    let matchingPods := ps_GetPodsMatchingSelector (podIndex bc) selector in
    foldl recalculatePodInternal bc matchingPods.

(** [for _, pod := range matching { affectedPods[pod.IP] = pod }] *)
Definition addAffected (affected : gmap string PodInfo) (ps : list PodInfo) : gmap string PodInfo :=
  foldl (λ m pod, <[pod_IP pod := pod]> m) affected ps.

Definition RecalculateForPolicyChange bc (oldSelector newSelector : GoMap) : BlocklistCache S P :=
  let affected0 :=
    if bool_decide (0 < mlen oldSelector)
    then addAffected ∅ (ps_GetPodsMatchingSelector (podIndex bc) oldSelector) else ∅ in
  let affectedPods :=
    if bool_decide (0 < mlen newSelector)
    then addAffected affected0 (ps_GetPodsMatchingSelector (podIndex bc) newSelector)
    else affected0 in
  foldl (λ bc '(_, pod), recalculatePodInternal bc pod) bc (range affectedPods).

Definition RecalculateAll bc : BlocklistCache S P :=
  foldl recalculatePodInternal (with_entries bc ∅) (ps_GetAll (podIndex bc)).

(** ** Reading *)

(** A copy of an entry, its domains in a fresh slice. *)
Definition entryCopy (e : BlocklistEntry) : BlocklistEntry :=
  mkEntry (entry_IP e) (go_copy (replicate (length (entry_Domains e)) "") (entry_Domains e)).

Definition GetBlocklist bc : list BlocklistEntry :=
  let result := foldl (λ result '(_, entry),
      if bool_decide (0 < length (entry_Domains entry))
      then result ++ [entryCopy entry] else result) [] (range (entries bc)) in
  merge_sort entry_le result.

Definition Size bc : nat := size (entries bc).
End Operations.

(** ** What the cache should hold *)
Section Spec.
Context `{RO : RangeOrder} {S P : Type} `{PS : PodStore S} `{PL : PolicyStore P}.
Implicit Types (bc : BlocklistCache S P) (pod : PodInfo) (ip d : string).

(** A domain is blocked for labels when a stored policy selects them and lists it. *)
Definition Blocked (pl : P) (labels : GoMap) (d : string) : Prop :=
  ∃ nn policy, pol_Get pl nn = Some policy ∧
    Selects (policy_selector policy) labels ∧
    d ∈ elems (BlockList (p_Spec policy)).

(** The same set, computed. *)
Definition blockedSet (pl : P) (labels : GoMap) : gset string :=
  list_to_set (pol_GetAll pl ≫= λ policy,
    if decide (Selects (policy_selector policy) labels)
    then elems (BlockList (p_Spec policy)) else []).

(** The entry a pod should have. *)
Definition wantDomains (pl : P) (labels : GoMap) : list string :=
  sort_Strings (elements (blockedSet pl labels)).
Definition wantEntry (pl : P) (pod : PodInfo) : BlocklistEntry :=
  mkEntry (pod_IP pod) (wantDomains pl (pod_Labels pod)).

(** Every indexed pod with an address has its entry. *)
Definition Fresh bc : Prop :=
  ∀ nn pod, ps_Get (podIndex bc) nn = Some pod → pod_IP pod ≠ "" →
    entries bc !! pod_IP pod = Some (wantEntry (policyIndex bc) pod).

(** Every entry belongs to an indexed pod. *)
Definition NoStale bc : Prop :=
  ∀ ip e, entries bc !! ip = Some e →
    ip ≠ "" ∧ ∃ nn pod, ps_Get (podIndex bc) nn = Some pod ∧ pod_IP pod = ip.

(** Both: the cache is the mapping the indexes define. *)
Definition Coherent bc : Prop := Fresh bc ∧ NoStale bc.

(** Two policy stores that block the same domains for the labels. *)
Definition same_blocked (pl1 pl2 : P) (labels : GoMap) : Prop :=
  ∀ d, Blocked pl1 labels d ↔ Blocked pl2 labels d.

(** *** One address at a time

    What the entry of a pod's address holds: with [strict], exactly the domains blocked
    for the pod's labels; without, at least those. *)
Definition fits (strict : bool) (pl : P) (pod : PodInfo) (e : BlocklistEntry) : Prop :=
  if strict then e = wantEntry pl pod
  else entry_IP e = pod_IP pod ∧ ∀ d, Blocked pl (pod_Labels pod) d → d ∈ entry_Domains e.

Definition HoldsAt (strict : bool) bc (ip : string) : Prop :=
  ∀ nn pod, ps_Get (podIndex bc) nn = Some pod → pod_IP pod = ip →
    ∃ e, entries bc !! ip = Some e ∧ fits strict (policyIndex bc) pod e.

(** The cache is exact at an address: its entry lists what is blocked for the pod there. *)
Definition exact_at bc (ip : string) : Prop := HoldsAt true bc ip.
(** The cache misses nothing at an address. *)
Definition complete_at bc (ip : string) : Prop := HoldsAt false bc ip.

(** How the policies for the labels may change without the entry being written. *)
Definition shrinks (strict : bool) (pl1 pl2 : P) (labels : GoMap) : Prop :=
  if strict then same_blocked pl1 pl2 labels
  else ∀ d, Blocked pl2 labels d → Blocked pl1 labels d.

Lemma elem_of_blockedSet pl labels d : d ∈ blockedSet pl labels ↔ Blocked pl labels d.
Proof.
  unfold blockedSet, Blocked. rewrite elem_of_list_to_set, list_elem_of_bind. split.
  - intros (policy & Hd & [nn Hnn]%pol_GetAll_spec). case_decide; [eauto|set_solver].
  - intros (nn & policy & Hnn & Hs & Hd). exists policy.
    rewrite decide_True by done. split; [done|]. apply pol_GetAll_spec. eauto.
Qed.

Lemma blockedSet_ext pl1 pl2 labels :
  same_blocked pl1 pl2 labels → blockedSet pl1 labels = blockedSet pl2 labels.
Proof. intros Hs. apply set_eq. intros d. rewrite !elem_of_blockedSet. apply Hs. Qed.

Lemma wantEntry_ext pl1 pl2 pod :
  same_blocked pl1 pl2 (pod_Labels pod) → wantEntry pl1 pod = wantEntry pl2 pod.
Proof. intros Hs. unfold wantEntry, wantDomains. by rewrite (blockedSet_ext _ _ _ Hs). Qed.

Lemma elem_of_wantDomains pl labels d : d ∈ wantDomains pl labels ↔ Blocked pl labels d.
Proof. unfold wantDomains. by rewrite elem_of_sort_Strings, elem_of_elements, elem_of_blockedSet. Qed.

Lemma NoDup_wantDomains pl labels : NoDup (wantDomains pl labels).
Proof. unfold wantDomains. rewrite sort_Strings_perm. apply NoDup_elements. Qed.

Lemma wantEntry_fits strict pl pod : fits strict pl pod (wantEntry pl pod).
Proof. destruct strict; [done|]. split; [done|]. intros d Hd. by apply elem_of_wantDomains. Qed.

Lemma fits_shrinks strict pl1 pl2 pod e :
  fits strict pl1 pod e → shrinks strict pl1 pl2 (pod_Labels pod) → fits strict pl2 pod e.
Proof.
  destruct strict; simpl; [intros -> Hs; by apply wantEntry_ext|]. intros [Hip Hd] Hs.
  split; [done|]. auto.
Qed.

Lemma same_shrinks strict pl1 pl2 labels : same_blocked pl1 pl2 labels → shrinks strict pl1 pl2 labels.
Proof. intros Hs. destruct strict; [done|]. intros d. apply Hs. Qed.

Lemma HoldsAt_weaken strict bc ip : HoldsAt true bc ip → HoldsAt strict bc ip.
Proof.
  intros Hh nn pod Hget Hip. destruct (Hh nn pod Hget Hip) as (e & He & ->).
  exists (wantEntry (policyIndex bc) pod). split; [done|]. apply wantEntry_fits.
Qed.

(** Coherence is exactness at every address, and no entries for other addresses. *)
Lemma Coherent_exact bc : Coherent bc ↔ (∀ ip, ip ≠ "" → exact_at bc ip) ∧ NoStale bc.
Proof.
  unfold Coherent, exact_at. apply and_iff_compat_r. split.
  - intros Hf ip Hne nn pod Hget <-. eexists. split; [by eapply Hf|done].
  - intros Hh nn pod Hget Hne. by destruct (Hh _ Hne nn pod Hget eq_refl) as (e & He & ->).
Qed.

(** *** The recalculation loop computes it, in every order *)

Lemma dom_insert_loop (ds : list string) (set : gmap string ()) :
  dom (foldl (λ set domain, <[domain := tt]> set) set ds) = dom set ∪ list_to_set ds.
Proof.
  revert set. induction ds as [|d ds IH]; intros set; simpl; [set_solver|].
  rewrite IH, dom_insert_L. set_solver.
Qed.

Lemma dom_collectDomains labels ps :
  dom (collectDomains labels ps) = list_to_set (ps ≫= λ policy,
    if decide (Selects (policy_selector policy) labels)
    then elems (BlockList (p_Spec policy)) else []).
Proof.
  unfold collectDomains.
  set (body := λ (domainsSet : gmap string ()) policy, _).
  set (list_of := λ policy, _).
  enough (∀ acc, dom (foldl body acc ps) = dom acc ∪ list_to_set (ps ≫= list_of)) as ->.
  { by rewrite dom_empty_L, (left_id_L ∅ (∪)). }
  induction ps as [|q ps IH]; intros acc; simpl; [set_solver|].
  rewrite IH, list_to_set_app_L, (assoc_L (∪)). f_equal. unfold body, list_of.
  rewrite LabelsContainAll_decide. case_bool_decide as Hlen.
  - rewrite decide_False by (intros Hs; by apply Selects_nonempty in Hs). set_solver.
  - case_bool_decide; [rewrite decide_True by done|rewrite decide_False by done; set_solver].
    apply dom_insert_loop.
Qed.

Lemma sortedDomains_elements (set : gmap string ()) :
  sortedDomains set = sort_Strings (elements (dom set)).
Proof.
  unfold sortedDomains. apply sort_Strings_proper.
  assert (∀ (l : list (string * ())) acc,
    foldl (λ domains '(domain, _), domains ++ [domain]) acc l = acc ++ l.*1) as Hfold.
  { induction l as [|[k v] l IH]; intros acc; csimpl; [by rewrite app_nil_r|].
    by rewrite IH, <- app_assoc. }
  rewrite Hfold; simpl. apply NoDup_Permutation.
  - apply NoDup_range_fst.
  - apply NoDup_elements.
  - intros d. rewrite elem_of_elements, elem_of_dom, list_elem_of_fmap. split.
    + intros ([k v] & -> & Hin%elem_of_range). by eexists.
    + intros [v Hv]. exists (d, v). by rewrite elem_of_range.
Qed.

Lemma recalculate_wantEntry bc pod :
  recalculatePodInternal bc pod =
  if str_empty (pod_IP pod) then bc
  else with_entries bc
    (<[pod_IP pod := wantEntry (policyIndex bc) pod]> (entries bc)).
Proof.
  unfold recalculatePodInternal, wantEntry, wantDomains, blockedSet. case_match; [done|].
  by rewrite sortedDomains_elements, dom_collectDomains.
Qed.
End Spec.

(** ** Recalculating a list of pods *)
Section Recalculate.
Context `{RO : RangeOrder} {S P : Type} `{PS : PodStore S} `{PL : PolicyStore P}.
Implicit Types (bc : BlocklistCache S P) (pod : PodInfo) (ip d : string).

(** Recalculation touches the entries only. *)
Lemma recalculate_indexes bc pod :
  podIndex (recalculatePodInternal bc pod) = podIndex bc ∧
  policyIndex (recalculatePodInternal bc pod) = policyIndex bc.
Proof. unfold recalculatePodInternal. by case_match. Qed.

Lemma recalculate_list_indexes bc ps :
  podIndex (foldl recalculatePodInternal bc ps) = podIndex bc ∧
  policyIndex (foldl recalculatePodInternal bc ps) = policyIndex bc.
Proof.
  revert bc. induction ps as [|p ps IH]; intros bc; [done|]; simpl.
  destruct (IH (recalculatePodInternal bc p)) as [-> ->]. apply recalculate_indexes.
Qed.

Lemma recalculate_lookup bc pod ip :
  entries (recalculatePodInternal bc pod) !! ip =
  if decide (pod_IP pod = ip ∧ ip ≠ "") then Some (wantEntry (policyIndex bc) pod)
  else entries bc !! ip.
Proof.
  rewrite recalculate_wantEntry. destruct (str_empty (pod_IP pod)) eqn:He; reflect_bools.
  - rewrite decide_False; [done|]. naive_solver.
  - simpl. rewrite lookup_insert. repeat case_decide; naive_solver.
Qed.

(** An address no pod of the list has keeps its entry. *)
Lemma recalculate_list_other bc ps ip :
  (∀ p, p ∈ ps → pod_IP p = ip → ip = "") →
  entries (foldl recalculatePodInternal bc ps) !! ip = entries bc !! ip.
Proof.
  revert bc. induction ps as [|p ps IH]; intros bc Hps; [done|]; simpl.
  rewrite IH by set_solver. rewrite recalculate_lookup, decide_False; [done|].
  intros [Hip Hne]. apply Hne, (Hps p); [by left|done].
Qed.

(** An address some pod of the list has gets the entry the policies define,
    when pods of the list with the same address are the same pod. *)
Lemma recalculate_list_member bc ps p :
  p ∈ ps → pod_IP p ≠ "" →
  (∀ q, q ∈ ps → pod_IP q = pod_IP p → q = p) →
  entries (foldl recalculatePodInternal bc ps) !! pod_IP p =
    Some (wantEntry (policyIndex bc) p).
Proof.
  intros Hin Hne. revert bc. induction ps as [|q ps IH]; intros bc Huniq; [set_solver|]; simpl.
  destruct (decide (p ∈ ps)) as [Hps|Hps].
  - rewrite IH by set_solver. by destruct (recalculate_indexes bc q) as [_ ->].
  - assert (q = p) as -> by set_solver.
    rewrite recalculate_list_other.
    + by rewrite recalculate_lookup, decide_True.
    + intros q Hq Hip. destruct Hps. by rewrite <- (Huniq q) by (done || by right).
Qed.

(** Entries the list creates belong to its pods. *)
Lemma recalculate_list_dom bc ps ip e :
  entries (foldl recalculatePodInternal bc ps) !! ip = Some e →
  entries bc !! ip = Some e ∨ (ip ≠ "" ∧ ∃ p, p ∈ ps ∧ pod_IP p = ip).
Proof.
  revert bc. induction ps as [|p ps IH]; intros bc; simpl; [by left|].
  intros [Hl|(Hne & q & Hq & Hip)]%IH; [|right; set_solver].
  rewrite recalculate_lookup in Hl. case_decide as Hd; [|by left].
  destruct Hd. right. split; [done|]. exists p. set_solver.
Qed.

(** ** Coherence *)

(** Recalculating a sublist of the indexed pods that contains every pod of the address
    whose blocked domains changed. *)
Lemma HoldsAt_recalculate strict bc pl ps ip :
  ip ≠ "" → sole (podIndex bc) ip → HoldsAt strict (with_policies bc pl) ip →
  (∀ p, p ∈ ps → ∃ nn, ps_Get (podIndex bc) nn = Some p) →
  (∀ nn p, ps_Get (podIndex bc) nn = Some p → pod_IP p = ip → p ∉ ps →
    shrinks strict pl (policyIndex bc) (pod_Labels p)) →
  HoldsAt strict (foldl recalculatePodInternal bc ps) ip.
Proof.
  intros Hne Hu Hh Hsub Hrest nn p. destruct (recalculate_list_indexes bc ps) as [Hpi Hpl].
  rewrite Hpi, Hpl. intros Hget Hip.
  assert (∀ q, q ∈ ps → pod_IP q = ip → q = p) as Huniq.
  { intros q Hq Hqip. destruct (Hsub q Hq) as [nn' Hq'].
    assert (nn' = nn) as -> by (by eapply Hu). congruence. }
  destruct (decide (p ∈ ps)) as [Hin|Hin].
  - subst ip. eexists. split; [by apply recalculate_list_member|]. apply wantEntry_fits.
  - destruct (Hh nn p Hget Hip) as (e & He & Hfit). exists e. rewrite recalculate_list_other.
    + split; [done|]. eapply fits_shrinks; [done|]. by eapply Hrest.
    + intros q Hq Hqip. destruct Hin. by rewrite <- (Huniq q).
Qed.

Lemma NoStale_recalculate bc ps :
  NoStale bc → (∀ p, p ∈ ps → ∃ nn, ps_Get (podIndex bc) nn = Some p) →
  NoStale (foldl recalculatePodInternal bc ps).
Proof.
  intros Hns Hsub ip e Hl%recalculate_list_dom. destruct (recalculate_list_indexes bc ps) as [-> _].
  destruct Hl as [Hl|(Hne & p & Hp & Hip)]; [by eapply Hns|].
  split; [done|]. destruct (Hsub p Hp) as [nn Hnn]. eauto.
Qed.

(** The pods a selector matches, after a change of the policies that only concerns pods
    it matches. *)
Lemma HoldsAt_RecalculateForPolicy strict bc pl sel ip :
  ip ≠ "" → sole (podIndex bc) ip → HoldsAt strict (with_policies bc pl) ip →
  (∀ nn p, ps_Get (podIndex bc) nn = Some p → pod_IP p = ip → ¬ Selects sel (pod_Labels p) →
    shrinks strict pl (policyIndex bc) (pod_Labels p)) →
  HoldsAt strict (RecalculateForPolicy bc sel) ip.
Proof.
  intros Hne Hu Hh Hs. unfold RecalculateForPolicy. case_bool_decide as Hlen.
  - apply (HoldsAt_recalculate strict bc pl [] ip); [done..|set_solver|].
    intros nn p Hget Hip _. apply (Hs nn); [done..|]. intros Hs'. by apply Selects_nonempty in Hs'.
  - apply (HoldsAt_recalculate strict bc pl); [done..| |].
    + intros p Hp%ps_matching_spec. apply Hp.
    + intros nn p Hget Hip Hnot. apply (Hs nn); [done..|]. intros Hs'. apply Hnot, ps_matching_spec. eauto.
Qed.

Lemma NoStale_RecalculateForPolicy bc sel : NoStale bc → NoStale (RecalculateForPolicy bc sel).
Proof.
  intros Hns. unfold RecalculateForPolicy. case_bool_decide; [done|].
  apply NoStale_recalculate; [done|]. intros p Hp%ps_matching_spec. apply Hp.
Qed.

(** A pod the selector does not match keeps its entry. *)
Lemma RecalculateForPolicy_other bc sel nn p :
  sole (podIndex bc) (pod_IP p) → ps_Get (podIndex bc) nn = Some p →
  ¬ Selects sel (pod_Labels p) →
  entries (RecalculateForPolicy bc sel) !! pod_IP p = entries bc !! pod_IP p.
Proof.
  intros Hu Hget Hns. unfold RecalculateForPolicy. case_bool_decide; [done|].
  apply recalculate_list_other. intros q [[nn' Hq] Hs]%ps_matching_spec Hip.
  assert (nn' = nn) as -> by (by eapply Hu). naive_solver.
Qed.

Lemma addAffected_lookup affected ps p :
  p ∈ ps → (∀ q, q ∈ ps → pod_IP q = pod_IP p → q = p) →
  addAffected affected ps !! pod_IP p = Some p.
Proof.
  unfold addAffected. intros Hin. revert affected.
  induction ps as [|q ps IH]; intros affected Huniq; [set_solver|]; simpl.
  destruct (decide (p ∈ ps)) as [Hps|Hps]; [apply IH; set_solver|].
  assert (q = p) as -> by set_solver. clear IH Hin.
  assert (∀ q, q ∈ ps → pod_IP q ≠ pod_IP p) as Hne.
  { intros q Hq Hip. destruct Hps. by rewrite <- (Huniq q) by (done || by right). }
  assert (∀ m : gmap string PodInfo, m !! pod_IP p = Some p →
    foldl (λ m pod, <[pod_IP pod:=pod]> m) m ps !! pod_IP p = Some p) as Hkeep.
  { clear Huniq Hps. induction ps as [|q ps IH]; intros m Hm; [done|]; simpl.
    apply IH; [set_solver|]. rewrite lookup_insert_ne; [done|]. apply Hne. by left. }
  apply Hkeep, lookup_insert_eq.
Qed.

Lemma addAffected_source affected ps ip p :
  addAffected affected ps !! ip = Some p → affected !! ip = Some p ∨ p ∈ ps.
Proof.
  unfold addAffected. revert affected.
  induction ps as [|q ps IH]; intros affected; simpl; [by left|].
  intros [Hl|Hl]%IH; [|set_solver].
  apply lookup_insert_Some in Hl as [[_ <-]|[_ Hl]]; set_solver.
Qed.

(** An entry that was added before survives when later pods with its address
    are the same pod. *)
Lemma addAffected_keep affected ps p :
  affected !! pod_IP p = Some p → (∀ q, q ∈ ps → pod_IP q = pod_IP p → q = p) →
  addAffected affected ps !! pod_IP p = Some p.
Proof.
  unfold addAffected. revert affected.
  induction ps as [|q ps IH]; intros affected Hp Huniq; simpl; [done|].
  apply IH; [|set_solver]. rewrite lookup_insert. case_decide as Hip; [|done].
  f_equal. apply Huniq; [by left|done].
Qed.

(** The pods [RecalculateForPolicyChange] recalculates. *)
Definition affectedBy bc (oldSelector newSelector : GoMap) : gmap string PodInfo :=
  let affected0 :=
    if bool_decide (0 < mlen oldSelector)
    then addAffected ∅ (ps_GetPodsMatchingSelector (podIndex bc) oldSelector) else ∅ in
  if bool_decide (0 < mlen newSelector)
  then addAffected affected0 (ps_GetPodsMatchingSelector (podIndex bc) newSelector)
  else affected0.

Lemma RecalculateForPolicyChange_list bc o n :
  RecalculateForPolicyChange bc o n =
  foldl recalculatePodInternal bc (range (affectedBy bc o n)).*2.
Proof.
  unfold RecalculateForPolicyChange. fold (affectedBy bc o n).
  generalize (range (affectedBy bc o n)). intros l. revert bc.
  induction l as [|[k v] l IH]; intros bc; [done|]; simpl. apply IH.
Qed.

Lemma matching_unique bc sel nn p q :
  sole (podIndex bc) (pod_IP p) → ps_Get (podIndex bc) nn = Some p →
  q ∈ ps_GetPodsMatchingSelector (podIndex bc) sel → pod_IP q = pod_IP p → q = p.
Proof.
  intros Hu Hget [[nn' Hq] _]%ps_matching_spec Hip.
  assert (nn' = nn) as -> by (by eapply Hu). congruence.
Qed.

Lemma affectedBy_member bc o n nn p :
  sole (podIndex bc) (pod_IP p) → ps_Get (podIndex bc) nn = Some p →
  Selects o (pod_Labels p) ∨ Selects n (pod_Labels p) →
  affectedBy bc o n !! pod_IP p = Some p.
Proof.
  intros Hu Hget Hs. unfold affectedBy.
  set (a0 := if bool_decide (0 < mlen o) then _ else _).
  assert (Selects o (pod_Labels p) → a0 !! pod_IP p = Some p) as Ho.
  { intros Hso. unfold a0. rewrite bool_decide_true
      by (apply Selects_nonempty in Hso; lia).
    apply addAffected_lookup; [apply ps_matching_spec; eauto|].
    intros q Hq. by eapply matching_unique. }
  case_bool_decide as Hlen.
  - destruct (decide (Selects n (pod_Labels p))) as [Hsn|Hsn].
    + apply addAffected_lookup; [apply ps_matching_spec; eauto|].
      intros q Hq. by eapply matching_unique.
    + apply addAffected_keep; [naive_solver|]. intros q Hq. by eapply matching_unique.
  - apply Ho. destruct Hs as [|Hsn]; [done|]. apply Selects_nonempty in Hsn. lia.
Qed.

Lemma affectedBy_matching bc o n ip p :
  affectedBy bc o n !! ip = Some p →
  p ∈ ps_GetPodsMatchingSelector (podIndex bc) o ∨
  p ∈ ps_GetPodsMatchingSelector (podIndex bc) n.
Proof.
  unfold affectedBy. intros Hl. repeat case_bool_decide;
    repeat match goal with H : addAffected _ _ !! _ = Some _ |- _ =>
      apply addAffected_source in H as [H|H] end;
    rewrite ?lookup_empty in *; naive_solver.
Qed.

Lemma affectedBy_source bc o n ip p :
  affectedBy bc o n !! ip = Some p → ∃ nn, ps_Get (podIndex bc) nn = Some p.
Proof. intros [Hp|Hp]%affectedBy_matching; by apply ps_matching_spec in Hp as [? _]. Qed.

Lemma affectedBy_selects bc o n ip p :
  affectedBy bc o n !! ip = Some p → Selects o (pod_Labels p) ∨ Selects n (pod_Labels p).
Proof.
  intros [Hp|Hp]%affectedBy_matching; apply ps_matching_spec in Hp as [_ ?]; [by left|by right].
Qed.

Lemma HoldsAt_RecalculateForPolicyChange strict bc pl o n ip :
  ip ≠ "" → sole (podIndex bc) ip → HoldsAt strict (with_policies bc pl) ip →
  (∀ nn p, ps_Get (podIndex bc) nn = Some p → pod_IP p = ip →
    ¬ Selects o (pod_Labels p) → ¬ Selects n (pod_Labels p) →
    shrinks strict pl (policyIndex bc) (pod_Labels p)) →
  HoldsAt strict (RecalculateForPolicyChange bc o n) ip.
Proof.
  intros Hne Hu Hh Hs. rewrite RecalculateForPolicyChange_list.
  apply (HoldsAt_recalculate strict bc pl); [done..| |].
  - intros p [ip' Hip]%elem_of_range_snd. by eapply affectedBy_source.
  - intros nn p Hget Hip Hnot.
    assert (¬ (Selects o (pod_Labels p) ∨ Selects n (pod_Labels p))) as Hneither.
    { intros Hsel. apply Hnot, elem_of_range_snd. eexists. eapply affectedBy_member; [by subst|done..]. }
    apply (Hs nn); naive_solver.
Qed.

Lemma NoStale_RecalculateForPolicyChange bc o n :
  NoStale bc → NoStale (RecalculateForPolicyChange bc o n).
Proof.
  intros Hns. rewrite RecalculateForPolicyChange_list. apply NoStale_recalculate; [done|].
  intros p [ip' Hip]%elem_of_range_snd. by eapply affectedBy_source.
Qed.

(** A full refresh needs no assumption on the entries it starts from. *)
Lemma Coherent_RecalculateAll bc :
  ips_unique (podIndex bc) → Coherent (RecalculateAll bc).
Proof.
  intros Hu. unfold RecalculateAll.
  destruct (recalculate_list_indexes (with_entries bc ∅) (ps_GetAll (podIndex bc))) as [Hpi Hpl].
  split.
  - intros nn p. rewrite Hpi, Hpl; simpl. intros Hget Hne.
    apply (recalculate_list_member (with_entries bc ∅)); [apply ps_GetAll_spec; eauto|done|].
    intros q [nn' Hq]%ps_GetAll_spec Hip.
    assert (nn' = nn) as -> by (eapply Hu; [done..|congruence]). congruence.
  - intros ip e Hl%recalculate_list_dom. rewrite Hpi; simpl in *.
    destruct Hl as [Hl|(Hne & p & Hp & Hip)]; [by rewrite lookup_empty in Hl|].
    split; [done|]. apply ps_GetAll_spec in Hp as [nn Hnn]. eauto.
Qed.

(** ** Changes of the pod store *)

(** A pod is stored under [nn], its old address being removed first when it
    changed, and then recalculated. *)
Definition moved bc (nn : NamespacedName) (p : PodInfo) : BlocklistCache S P :=
  match ps_Get (podIndex bc) nn with
  | Some old => if bool_decide (pod_IP old ≠ pod_IP p) then RemovePod bc (pod_IP old) else bc
  | None => bc
  end.

Lemma moved_entries bc nn p ip :
  entries (moved bc nn p) !! ip =
  if decide (pod_IP <$> ps_Get (podIndex bc) nn = Some ip ∧ ip ≠ pod_IP p)
  then None else entries bc !! ip.
Proof.
  unfold moved. destruct (ps_Get (podIndex bc) nn) as [old|]; [|rewrite decide_False; naive_solver].
  case_bool_decide as Hch; simpl; [rewrite lookup_delete|]; repeat case_decide; naive_solver.
Qed.

Lemma moved_policies bc nn p : policyIndex (moved bc nn p) = policyIndex bc.
Proof. unfold moved. by repeat case_match. Qed.

Lemma HoldsAt_pod_upsert strict bc s nn p ip :
  ip ≠ "" → sole (podIndex bc) ip → sole s ip → HoldsAt strict bc ip →
  (∀ nn', ps_Get s nn' = if decide (nn = nn') then Some p else ps_Get (podIndex bc) nn') →
  HoldsAt strict (RecalculatePod (with_pods (moved bc nn p) s) nn) ip.
Proof.
  intros Hne Hu Hus Hh Hs. unfold RecalculatePod; simpl.
  assert (ps_Get s nn = Some p) as Hnn by (by rewrite Hs, decide_True).
  rewrite Hnn. destruct (recalculate_indexes (with_pods (moved bc nn p) s) p) as [Hpi Hpl].
  intros nn' q. rewrite Hpi, Hpl, recalculate_lookup; simpl. intros Hq Hqip.
  case_decide as Hip.
  { destruct Hip as [Hip _]. assert (nn' = nn) as -> by (by eapply Hus).
    assert (q = p) as -> by congruence. eexists. split; [done|]. apply wantEntry_fits. }
  rewrite Hs in Hq. case_decide as Heq; [naive_solver|].
  rewrite moved_entries, moved_policies, decide_False; [by eapply Hh|].
  intros [(old & Hio & Hold)%fmap_Some _]. destruct Heq. by eapply Hu.
Qed.

Lemma NoStale_pod_upsert bc s nn p :
  NoStale bc →
  (∀ nn', ps_Get s nn' = if decide (nn = nn') then Some p else ps_Get (podIndex bc) nn') →
  NoStale (RecalculatePod (with_pods (moved bc nn p) s) nn).
Proof.
  intros Hns Hs. unfold RecalculatePod; simpl.
  assert (ps_Get s nn = Some p) as Hnn by (by rewrite Hs, decide_True).
  rewrite Hnn. destruct (recalculate_indexes (with_pods (moved bc nn p) s) p) as [Hpi _].
  intros ip e. rewrite Hpi, recalculate_lookup; simpl. case_decide as Hip.
  { intros _. split; [naive_solver|]. exists nn, p. naive_solver. }
  rewrite moved_entries. case_decide as Hrem; [done|].
  intros (Hipne & nn' & q & Hq & Hqip)%Hns. split; [done|].
  destruct (decide (nn = nn')) as [<-|Hnn'].
  - exfalso. apply Hrem. rewrite Hq; simpl. naive_solver.
  - exists nn', q. by rewrite Hs, decide_False.
Qed.

(** A pod and its entry are removed. *)
Definition removed bc (nn : NamespacedName) : BlocklistCache S P :=
  match ps_Get (podIndex bc) nn with
  | Some old => RemovePod bc (pod_IP old)
  | None => bc
  end.

Lemma removed_entries bc nn ip :
  entries (removed bc nn) !! ip =
  if decide (pod_IP <$> ps_Get (podIndex bc) nn = Some ip) then None else entries bc !! ip.
Proof.
  unfold removed. destruct (ps_Get (podIndex bc) nn) as [old|]; [|rewrite decide_False; naive_solver].
  simpl. rewrite lookup_delete. repeat case_decide; naive_solver.
Qed.

Lemma removed_policies bc nn : policyIndex (removed bc nn) = policyIndex bc.
Proof. unfold removed. by case_match. Qed.

Lemma HoldsAt_pod_delete strict bc s nn ip :
  sole (podIndex bc) ip → HoldsAt strict bc ip →
  (∀ nn', ps_Get s nn' = if decide (nn = nn') then None else ps_Get (podIndex bc) nn') →
  HoldsAt strict (with_pods (removed bc nn) s) ip.
Proof.
  intros Hu Hh Hs nn' q; simpl. rewrite Hs, removed_policies. case_decide as Heq; [done|]. intros Hq Hqip.
  rewrite removed_entries, decide_False; [by eapply Hh|].
  intros (old & Hold & Hio)%fmap_Some. destruct Heq. by eapply Hu.
Qed.

Lemma NoStale_pod_delete bc s nn :
  NoStale bc →
  (∀ nn', ps_Get s nn' = if decide (nn = nn') then None else ps_Get (podIndex bc) nn') →
  NoStale (with_pods (removed bc nn) s).
Proof.
  intros Hns Hs ip e; simpl. rewrite removed_entries. case_decide as Hrem; [done|].
  intros (Hipne & nn' & q & Hq & Hqip)%Hns. split; [done|]. exists nn', q.
  rewrite Hs, decide_False; [done|]. intros <-. apply Hrem. rewrite Hq; simpl. by f_equal.
Qed.
End Recalculate.

(** ** The served blocklist *)
Section Serve.
Context `{RO : RangeOrder} {S P : Type} `{PS : PodStore S} `{PL : PolicyStore P}.
Implicit Types (bc : BlocklistCache S P) (pod : PodInfo) (ip d : string).

(** Entries are stored under their own address. *)
Definition entries_keyed bc : Prop := ∀ ip e, entries bc !! ip = Some e → entry_IP e = ip.

Lemma entryCopy_id e : entryCopy e = e.
Proof. destruct e. unfold entryCopy; simpl. by rewrite go_copy_fresh. Qed.

Lemma GetBlocklist_filter bc :
  GetBlocklist bc =
  merge_sort entry_le (filter (λ e, entry_Domains e ≠ []) (range (entries bc)).*2).
Proof.
  unfold GetBlocklist. f_equal. generalize (range (entries bc)). intros l.
  enough (∀ acc, foldl (λ result '(_, entry), if bool_decide (0 < length (entry_Domains entry))
      then result ++ [entryCopy entry] else result) acc l =
    acc ++ filter (λ e, entry_Domains e ≠ []) l.*2) as Hacc by apply Hacc.
  induction l as [|[k e] l IH]; intros acc; csimpl; [by rewrite app_nil_r|].
  rewrite filter_cons, IH, entryCopy_id.
  destruct (entry_Domains e) as [|d ds]; simpl; [done|]. by rewrite <- app_assoc.
Qed.

Lemma elem_of_GetBlocklist bc e :
  e ∈ GetBlocklist bc ↔ entry_Domains e ≠ [] ∧ ∃ ip, entries bc !! ip = Some e.
Proof.
  by rewrite GetBlocklist_filter, merge_sort_Permutation, list_elem_of_filter, elem_of_range_snd.
Qed.

Lemma GetBlocklist_sorted bc : StronglySorted entry_le (GetBlocklist bc).
Proof. rewrite GetBlocklist_filter. apply StronglySorted_merge_sort; apply _. Qed.

(** Addresses of the values of a keyed map are distinct, also after filtering. *)
Lemma keyed_NoDup bc (l : list (string * BlocklistEntry)) :
  entries_keyed bc → l ≡ₚ map_to_list (entries bc) →
  NoDup (entry_IP <$> filter (λ e, entry_Domains e ≠ []) l.*2).
Proof.
  intros Hk Hl.
  assert (entry_IP <$> l.*2 = l.*1) as Heq.
  { assert (∀ k e, (k, e) ∈ l → entry_IP e = k) as Hin.
    { intros k e. rewrite Hl, elem_of_map_to_list. apply Hk. }
    clear Hl. induction l as [|[k e] l IH]; [done|]; csimpl. f_equal; set_solver. }
  eapply (sublist_NoDup _ l.*1); [rewrite Hl; apply NoDup_fst_map_to_list|].
  rewrite <- Heq. apply fmap_sublist, sublist_filter.
Qed.

Lemma GetBlocklist_NoDup bc : entries_keyed bc → NoDup (entry_IP <$> GetBlocklist bc).
Proof.
  intros Hk. rewrite GetBlocklist_filter, merge_sort_Permutation.
  by apply (keyed_NoDup bc); [|apply range_perm].
Qed.

(** *** What is served *)

(** The domain is served for the address. *)
Definition serves bc ip d : Prop :=
  ∃ e, e ∈ GetBlocklist bc ∧ entry_IP e = ip ∧ d ∈ entry_Domains e.

Lemma serves_entry bc ip d :
  entries_keyed bc → serves bc ip d ↔ ∃ e, entries bc !! ip = Some e ∧ d ∈ entry_Domains e.
Proof.
  intros Hk. unfold serves. setoid_rewrite elem_of_GetBlocklist. split.
  - intros (e & (_ & ip' & He) & Hip & Hd). rewrite (Hk _ _ He) in Hip. subst. eauto.
  - intros (e & He & Hd). exists e. split_and!; [by intros Hn; rewrite Hn in Hd; set_solver|eauto|by apply Hk|done].
Qed.

Lemma complete_at_serves bc ip nn pod d :
  entries_keyed bc → complete_at bc ip → ps_Get (podIndex bc) nn = Some pod → pod_IP pod = ip →
  Blocked (policyIndex bc) (pod_Labels pod) d → serves bc ip d.
Proof.
  intros Hk Hc Hget Hip Hb. destruct (Hc nn pod Hget Hip) as (e & He & _ & Hd).
  apply serves_entry; [done|]. eauto.
Qed.

Lemma exact_at_serves bc ip nn pod d :
  entries_keyed bc → exact_at bc ip → ps_Get (podIndex bc) nn = Some pod → pod_IP pod = ip →
  serves bc ip d ↔ Blocked (policyIndex bc) (pod_Labels pod) d.
Proof.
  intros Hk Hx Hget Hip. destruct (Hx nn pod Hget Hip) as (e & He & ->).
  rewrite serves_entry by done. rewrite <- elem_of_wantDomains. split; [|by eauto].
  intros (e' & He' & Hd). by simplify_eq.
Qed.

(** Served addresses are those of indexed pods. *)
Lemma serves_NoStale bc ip d :
  entries_keyed bc → NoStale bc → serves bc ip d →
  ip ≠ "" ∧ ∃ nn pod, ps_Get (podIndex bc) nn = Some pod ∧ pod_IP pod = ip.
Proof. intros Hk Hns (e & He & _)%serves_entry; [|done]. by eapply Hns. Qed.

(** Writing and removing entries keeps them under their addresses. *)
Lemma entries_keyed_recalculate bc pod : entries_keyed bc → entries_keyed (recalculatePodInternal bc pod).
Proof.
  intros Hk ip e. rewrite recalculate_lookup. case_decide as Hd; [|by apply Hk].
  intros [= <-]. by destruct Hd.
Qed.

Lemma entries_keyed_list bc ps : entries_keyed bc → entries_keyed (foldl recalculatePodInternal bc ps).
Proof. revert bc. induction ps as [|p ps IH]; intros bc Hk; simpl; [done|]. by apply IH, entries_keyed_recalculate. Qed.

Lemma entries_keyed_RemovePod bc ip : entries_keyed bc → entries_keyed (RemovePod bc ip).
Proof. intros Hk ip' e; simpl. intros [_ ?]%lookup_delete_Some. by apply Hk. Qed.

Lemma entries_keyed_RecalculatePod bc nn : entries_keyed bc → entries_keyed (RecalculatePod bc nn).
Proof. intros Hk. unfold RecalculatePod. case_match; [by apply entries_keyed_recalculate|done]. Qed.

(** Any arrangement of the non-empty entries that is sorted by address is the
    one served: the result does not depend on the sorting algorithm nor on the
    order the map is visited in. *)
Lemma GetBlocklist_unique bc l :
  entries_keyed bc → StronglySorted entry_le l →
  l ≡ₚ filter (λ e, entry_Domains e ≠ []) (map_to_list (entries bc)).*2 →
  l = GetBlocklist bc.
Proof.
  intros Hk Hl Hperm.
  assert (GetBlocklist bc ≡ₚ filter (λ e, entry_Domains e ≠ []) (map_to_list (entries bc)).*2)
    as Hg by (by rewrite GetBlocklist_filter, merge_sort_Permutation, range_perm).
  apply (StronglySorted_unique_strong entry_le); [|done|apply GetBlocklist_sorted|by rewrite Hg].
  intros e1 e2 He1 He2 H12 H21.
  assert (entry_IP e1 = entry_IP e2) as Hip by (by apply (anti_symm String.le)).
  rewrite Hperm, list_elem_of_filter in He1. rewrite Hg, list_elem_of_filter in He2.
  destruct He1 as [_ ([i1 ?] & -> & Hi1%elem_of_map_to_list)%list_elem_of_fmap].
  destruct He2 as [_ ([i2 ?] & -> & Hi2%elem_of_map_to_list)%list_elem_of_fmap].
  simpl in *. pose proof (Hk _ _ Hi1). pose proof (Hk _ _ Hi2). congruence.
Qed.

(** A coherent cache is keyed, and its entries are the wanted ones. *)
Lemma Coherent_entry bc ip e :
  Coherent bc → entries bc !! ip = Some e →
  ip ≠ "" ∧ ∃ nn pod, ps_Get (podIndex bc) nn = Some pod ∧ pod_IP pod = ip ∧
    e = wantEntry (policyIndex bc) pod.
Proof.
  intros [Hf Hns] He. destruct (Hns _ _ He) as (Hne & nn & pod & Hpod & <-).
  split; [done|]. exists nn, pod. split_and!; [done..|].
  rewrite (Hf _ _ Hpod Hne) in He. congruence.
Qed.

Lemma Coherent_keyed bc : Coherent bc → entries_keyed bc.
Proof. intros Hc ip e He. by apply Coherent_entry in He as (_ & nn & pod & _ & <- & ->). Qed.

(** End to end: a coherent cache serves a domain for an address exactly when
    an indexed pod has that address and an indexed policy that selects the pod
    lists the domain. *)
Lemma GetBlocklist_Blocked bc ip d :
  Coherent bc →
  (∃ e, e ∈ GetBlocklist bc ∧ entry_IP e = ip ∧ d ∈ entry_Domains e) ↔
  ip ≠ "" ∧ ∃ nn pod, ps_Get (podIndex bc) nn = Some pod ∧ pod_IP pod = ip ∧
    Blocked (policyIndex bc) (pod_Labels pod) d.
Proof.
  intros Hc. setoid_rewrite elem_of_GetBlocklist. split.
  - intros (e & (_ & ip' & He) & <- & Hd).
    destruct (Coherent_entry _ _ _ Hc He) as (Hne & nn & pod & Hpod & Hip & ->).
    simpl in *. subst. split; [done|]. exists nn, pod. split_and!; [done..|].
    by apply elem_of_wantDomains.
  - intros (Hne & nn & pod & Hpod & <- & Hb). exists (wantEntry (policyIndex bc) pod).
    assert (d ∈ entry_Domains (wantEntry (policyIndex bc) pod)) as Hd
      by (by apply elem_of_wantDomains).
    split_and!; [intros Heq; rewrite Heq in Hd; set_solver| |done..].
    eexists. by eapply (proj1 Hc).
Qed.

(** ** Two views of the same stores

    Coherence only depends on what the stores return, so two caches that see the
    same pods and the same policies and are both coherent hold the same entries. *)
Lemma Coherent_ext bc1 bc2 :
  Coherent bc1 → Coherent bc2 →
  podIndex bc1 = podIndex bc2 → policyIndex bc1 = policyIndex bc2 →
  entries bc1 = entries bc2.
Proof.
  intros [Hf1 Hn1] [Hf2 Hn2] Hpi Hpl. apply map_eq. intros ip.
  apply option_eq. intros e. split; intros He.
  - destruct (Hn1 _ _ He) as (Hne & nn & pod & Hpod & <-).
    rewrite (Hf1 _ _ Hpod Hne) in He. rewrite Hpi in Hpod. rewrite (Hf2 _ _ Hpod Hne). congruence.
  - destruct (Hn2 _ _ He) as (Hne & nn & pod & Hpod & <-).
    rewrite (Hf2 _ _ Hpod Hne) in He. rewrite <- Hpi in Hpod. rewrite (Hf1 _ _ Hpod Hne). congruence.
Qed.
End Serve.

(** ** Properties *)
Section Properties.
Context `{RO : RangeOrder} {S P : Type} `{PS : PodStore S} `{PL : PolicyStore P}.
Implicit Types (bc : BlocklistCache S P) (ip d : string).

(** A full refresh repairs the cache. Whatever entries the cache holds, stale
    or missing, [RecalculateAll] leaves one that is coherent with the indexes and
    the indexes as they were, when the pods' addresses are distinct. *)
Theorem full_refresh_repairs bc :
  ips_unique (podIndex bc) →
  Coherent (RecalculateAll bc) ∧
  podIndex (RecalculateAll bc) = podIndex bc ∧ policyIndex (RecalculateAll bc) = policyIndex bc.
Proof.
  intros Hu. split; [exact (Coherent_RecalculateAll bc Hu)|].
  apply (recalculate_list_indexes (with_entries bc ∅)).
Qed.

(** [RecalculatePod] touches one entry and makes it exact. After it, the entry
    of an indexed pod with an address lists, in ascending order and once each,
    exactly the domains of the policies that select the pod's labels; every other
    entry is as before, and an absent pod or one without an address changes
    nothing. *)
Theorem recalculate_pod_exact bc nn :
  let bc' := RecalculatePod bc nn in
  match ps_Get (podIndex bc) nn with
  | Some pod =>
      if str_empty (pod_IP pod) then bc' = bc
      else (∃ e, entries bc' !! pod_IP pod = Some e ∧ entry_IP e = pod_IP pod ∧
              NoDup (entry_Domains e) ∧ Sorted String.le (entry_Domains e) ∧
              ∀ d, d ∈ entry_Domains e ↔ Blocked (policyIndex bc) (pod_Labels pod) d) ∧
           ∀ ip, ip ≠ pod_IP pod → entries bc' !! ip = entries bc !! ip
  | None => bc' = bc
  end.
Proof.
  intros bc'. unfold bc', RecalculatePod. destruct (ps_Get (podIndex bc) nn) as [pod|]; [|done].
  rewrite recalculate_wantEntry. destruct (str_empty (pod_IP pod)); [done|]. simpl. split.
  - eexists. split; [apply lookup_insert_eq|]. split_and!; [done| | |].
    + apply NoDup_wantDomains.
    + apply sort_Strings_sorted.
    + intros d. apply elem_of_wantDomains.
  - intros ip Hip. by rewrite lookup_insert_ne.
Qed.
End Properties.
