(* ===== verification/Client.v ===== *)
(** * Events and the Kubernetes client

    What the reconcilers use of controller-runtime: a client for the API server,
    whose state [A] is not part of this repository, and an event recorder. The
    client is a class parameter of the reconcilers; its only law is that an
    object read by name has that name. *)

From S2P Require Import Prelude Types.

(** [corev1.EventTypeNormal], [corev1.EventTypeWarning] *)
Inductive EventType := EventTypeNormal | EventTypeWarning.

(** One call of [Recorder.Event] *)
Record Event := mkEvent {
  ev_object : NamespacedName;
  ev_type : EventType;
  ev_reason : string;
  ev_message : string;
}.

#[export] Instance EventType_eq_dec : EqDecision EventType.
Proof. solve_decision. Defined.
#[export] Instance Event_eq_dec : EqDecision Event.
Proof. solve_decision. Defined.

(** The client's calls on DnsPolicy objects. A successful update returns the
    object as the server stored it, which Go writes back into its argument. *)
Class PolicyClient (A : Type) := {
  client_Get : A → NamespacedName → DnsPolicy + goerror;
  client_Update : A → DnsPolicy → A * (DnsPolicy + goerror);
  client_StatusUpdate : A → DnsPolicy → A * (DnsPolicy + goerror);
  client_Get_key a nn p : client_Get a nn = inl p → policy_key p = nn;
}.
#[export] Hint Mode PolicyClient ! : typeclass_instances.

(** What a server that stores what it is sent promises of an update of a live
    object: the specification and finalizers are kept, the object is not being
    deleted, and reading it back returns what the update returned. *)
Class PolicyClientLaws (A : Type) `{PolicyClient A} : Prop := {
  client_Update_live (a : A) p (a' : A) p' :
    om_DeletionTimestamp (p_ObjectMeta p) = None →
    client_Update a p = (a', inl p') →
    p_Spec p' = p_Spec p ∧
    om_Finalizers (p_ObjectMeta p') = om_Finalizers (p_ObjectMeta p) ∧
    om_DeletionTimestamp (p_ObjectMeta p') = None ∧
    client_Get a' (policy_key p) = inl p';
}.

(** A concrete API server: a map of objects in which an update of an object that
    is being deleted and has no finalizer left removes it, a status update only
    replaces the status, and writing an absent object fails. *)
Abbreviation ApiServer := (gmap NamespacedName DnsPolicy).

Definition err_NotFound : goerror := StatusError "NotFound" "not found".

Definition server_Get (a : ApiServer) (nn : NamespacedName) : DnsPolicy + goerror :=
  match a !! nn with
  | Some p => if decide (policy_key p = nn) then inl p else inr err_NotFound
  | None => inr err_NotFound
  end.

Definition server_Update (a : ApiServer) (p : DnsPolicy) : ApiServer * (DnsPolicy + goerror) :=
  match a !! policy_key p with
  | None => (a, inr err_NotFound)
  | Some _ =>
      if decide (is_Some (om_DeletionTimestamp (p_ObjectMeta p)) ∧
                 elems (om_Finalizers (p_ObjectMeta p)) = [])
      then (delete (policy_key p) a, inl p)
      else (<[policy_key p := p]> a, inl p)
  end.

Definition server_StatusUpdate (a : ApiServer) (p : DnsPolicy) : ApiServer * (DnsPolicy + goerror) :=
  match a !! policy_key p with
  | None => (a, inr err_NotFound)
  | Some q =>
      let q' := mkPolicy (p_ObjectMeta q) (p_Spec q) (p_Status p) in
      (<[policy_key p := q']> a, inl q')
  end.

Lemma server_Get_key a nn p : server_Get a nn = inl p → policy_key p = nn.
Proof. unfold server_Get. repeat case_match; naive_solver. Qed.

#[export] Instance server_client : PolicyClient ApiServer := {|
  client_Get := server_Get;
  client_Update := server_Update;
  client_StatusUpdate := server_StatusUpdate;
  client_Get_key := server_Get_key;
|}.

#[export] Instance server_client_laws : PolicyClientLaws ApiServer.
Proof.
  split. intros a p a' p' Hlive. simpl. unfold server_Update. case_match; [|done].
  rewrite decide_False by (rewrite Hlive; intros [[? ?] _]; done).
  intros; simplify_eq. split_and!; try done.
  unfold server_Get. by rewrite lookup_insert_eq, decide_True.
Qed.
