(* ===== verification/PolicyReconciler.v ===== *)
(** * The DnsPolicy reconciler (internal/controller/dnspolicy_controller.go)

    [Reconcile] as a function from the API server's state, the shared cache and
    the recorded events to their next values and an optional error. The
    reconciler's [Index] is the cache's policy index: main.go passes the same
    pointer to both. *)

From S2P Require Import Prelude Types Selectors Stores Client.
From S2P Require Import PodIndex PolicyIndex BlocklistCache.

Abbreviation Cache := (BlocklistCache PodIndex PolicyIndex).

Definition dnsPolicyFinalizer : string := "dns.dnspolicies.io/finalizer".

(** What a reconciliation reads and changes. *)
Record RState (A : Type) := mkRState {
  st_api : A;
  st_cache : Cache;
  st_events : list Event;
}.
Arguments mkRState {A} _ _ _.
Arguments st_api {A} _.
Arguments st_cache {A} _.
Arguments st_events {A} _.

Definition set_api {A} (st : RState A) (a : A) : RState A :=
  mkRState a (st_cache st) (st_events st).
Definition set_cache {A} (st : RState A) (bc : Cache) : RState A :=
  mkRState (st_api st) bc (st_events st).

(** [r.Recorder.Event(&policy, type, reason, message)] *)
Definition record {A} (st : RState A) (p : DnsPolicy) (t : EventType) (reason msg : string) : RState A :=
  mkRState (st_api st) (st_cache st) (st_events st ++ [mkEvent (policy_key p) t reason msg]).

(** Field updates of a policy. *)
Definition with_meta (p : DnsPolicy) (o : ObjectMeta) : DnsPolicy :=
  mkPolicy o (p_Spec p) (p_Status p).
Definition with_status (p : DnsPolicy) (s : DnsPolicyStatus) : DnsPolicy :=
  mkPolicy (p_ObjectMeta p) (p_Spec p) s.
Definition with_conditions (p : DnsPolicy) (cs : option (list Condition)) : DnsPolicy :=
  let s := p_Status p in
  with_status p (mkStatus (SelectorHash s) (SpecHash s) (ObservedGeneration s) cs).
Definition with_generation (p : DnsPolicy) (g : Z) : DnsPolicy :=
  let s := p_Status p in
  with_status p (mkStatus (SelectorHash s) (SpecHash s) g (Conditions s)).

(** ** updateCondition *)

(** The loop over the existing conditions, which stops at the first one of the
    type: it is replaced when its status differs. The flag is [found]. *)
Fixpoint updateLoop (condition : Condition) (cs : list Condition) : list Condition * bool :=
  match cs with
  | [] => ([], false)
  | existing :: cs =>
      if bool_decide (c_Type existing = c_Type condition)
      then ((if bool_decide (c_Status existing ≠ c_Status condition)
             then condition else existing) :: cs, true)
      else let '(cs', found) := updateLoop condition cs in (existing :: cs', found)
  end.

Definition updateCondition (now : Time) (policy : DnsPolicy)
    (conditionType status reason message : string) : DnsPolicy :=
  let condition := mkCondition conditionType status
    (om_Generation (p_ObjectMeta policy)) now reason message in
  let '(cs, found) := updateLoop condition (elems (Conditions (p_Status policy))) in
  if found then with_conditions policy (Some cs)
  else with_conditions policy (Some (elems (Conditions (p_Status policy)) ++ [condition])).

(** ** Reconcile *)
Section Reconcile.
Context `{RO : RangeOrder} `{AM : ApiMachinery} {A : Type} `{PC : PolicyClient A}.

(** The object is gone: remove it from the index and recalculate the pods its
    indexed selector matched. *)
Definition reconcileNotFound (st : RState A) (req : NamespacedName) : RState A :=
  let '(idx, oldSelector) := PolicyIndex.Delete (policyIndex (st_cache st)) req in
  let bc := with_policies (st_cache st) idx in
  set_cache st
    (if negb (is_nil oldSelector) && bool_decide (0 < mlen oldSelector)
     then RecalculateForPolicy bc oldSelector else bc).

(** The object is being deleted and still has the finalizer. *)
Definition reconcileDeletion (st : RState A) (req : NamespacedName) (policy : DnsPolicy)
    : RState A * option goerror :=
  let oldSelector := policy_selector policy in
  let '(idx, _) := PolicyIndex.Delete (policyIndex (st_cache st)) req in
  let st := set_cache st (with_policies (st_cache st) idx) in
  let st := record st policy EventTypeNormal "Deleted" "DnsPolicy removed from index" in
  let st :=
    if bool_decide (0 < mlen oldSelector)
    then set_cache st (RecalculateForPolicy (st_cache st) oldSelector) else st in
  let policy := with_meta policy (RemoveFinalizer (p_ObjectMeta policy) dnsPolicyFinalizer) in
  match client_Update (st_api st) policy with
  | (api, inr err) =>
      (record (set_api st api) policy EventTypeWarning "FinalizerRemovalFailed"
         ("Failed to remove finalizer: " +:+ err_Error err), Some err)
  | (api, inl _) => (set_api st api, None)
  end.

(** A live object without the finalizer. *)
Definition reconcileAddFinalizer (st : RState A) (policy : DnsPolicy)
    : RState A * option goerror :=
  let policy := with_meta policy (AddFinalizer (p_ObjectMeta policy) dnsPolicyFinalizer) in
  match client_Update (st_api st) policy with
  | (api, inr err) =>
      (record (set_api st api) policy EventTypeWarning "FinalizerAddFailed"
         ("Failed to add finalizer: " +:+ err_Error err), Some err)
  | (api, inl policy) =>
      (record (set_api st api) policy EventTypeNormal "FinalizerAdded"
         "Finalizer added to DnsPolicy", None)
  end.

Definition err_emptySelector : goerror := Errorf "targetSelector cannot be empty".

(** A live object with the finalizer and a selector: index it, recalculate the
    pods concerned, report the generation. *)
Definition reconcileValid (now : Time) (st : RState A) (policy : DnsPolicy)
    : RState A * option goerror :=
  let '(idx, oldSelector) := PolicyIndex.Upsert (policyIndex (st_cache st)) policy in
  let st := set_cache st (with_policies (st_cache st) idx) in
  let st := record st policy EventTypeNormal "PolicyIndexed" "DnsPolicy successfully indexed" in
  let st := set_cache st
    (if negb (is_nil oldSelector) && negb (selectorsEqual oldSelector (policy_selector policy))
     then RecalculateForPolicyChange (st_cache st) oldSelector (policy_selector policy)
     else RecalculateForPolicy (st_cache st) (policy_selector policy)) in
  let needsStatusUpdate :=
    bool_decide (ObservedGeneration (p_Status policy) ≠ om_Generation (p_ObjectMeta policy)) in
  let policy :=
    if needsStatusUpdate then with_generation policy (om_Generation (p_ObjectMeta policy))
    else policy in
  if needsStatusUpdate then
    let policy := updateCondition now policy "Ready" ConditionTrue "Reconciled"
      "DnsPolicy successfully reconciled" in
    match client_StatusUpdate (st_api st) policy with
    | (api, inr err) =>
        (record (set_api st api) policy EventTypeWarning "StatusUpdateFailed"
           ("Failed to update status: " +:+ err_Error err), Some err)
    | (api, inl policy) =>
        (record (set_api st api) policy EventTypeNormal "Reconciled"
           "DnsPolicy successfully reconciled", None)
    end
  else (st, None).

Definition Reconcile (now : Time) (st : RState A) (req : NamespacedName)
    : RState A * option goerror :=
  match client_Get (st_api st) req with
  | inr err =>
      if IsNotFound err then (reconcileNotFound st req, None) else (st, Some err)
  | inl policy =>
      if negb (Time_IsZero (om_DeletionTimestamp (p_ObjectMeta policy))) then
        if ContainsFinalizer (p_ObjectMeta policy) dnsPolicyFinalizer
        then reconcileDeletion st req policy
        else (st, None)
      else if negb (ContainsFinalizer (p_ObjectMeta policy) dnsPolicyFinalizer) then
        reconcileAddFinalizer st policy
      else if bool_decide (mlen (policy_selector policy) = 0) then
        let st := record st policy EventTypeWarning "InvalidSpec" "TargetSelector cannot be empty" in
        (* the condition is set on the local object only: nothing writes it back *)
        let _ := updateCondition now policy "Ready" ConditionFalse "InvalidSpec"
          (err_Error err_emptySelector) in
        (st, Some err_emptySelector)
      else reconcileValid now st policy
  end.
End Reconcile.

(** ** Effects of a reconciliation on the shared cache *)
Section CacheEffects.
Context `{RO : RangeOrder} `{AM : ApiMachinery} {A : Type} `{PC : PolicyClient A}.
Implicit Types (bc : Cache) (st : RState A).

(** The cache after an object was found gone, deleted or indexed. *)
Definition cacheAfterRemoval bc (req : NamespacedName) (sel : GoMap) : Cache :=
  let bc := with_policies bc (PolicyIndex.Delete (policyIndex bc) req).1 in
  if bool_decide (0 < mlen sel) then RecalculateForPolicy bc sel else bc.

Definition cacheAfterUpsert bc (policy : DnsPolicy) : Cache :=
  let '(idx, old) := PolicyIndex.Upsert (policyIndex bc) policy in
  let bc := with_policies bc idx in
  if negb (is_nil old) && negb (selectorsEqual old (policy_selector policy))
  then RecalculateForPolicyChange bc old (policy_selector policy)
  else RecalculateForPolicy bc (policy_selector policy).

Lemma reconcileNotFound_cache st req :
  st_cache (reconcileNotFound st req) =
  cacheAfterRemoval (st_cache st) req (PolicyIndex.Delete (policyIndex (st_cache st)) req).2.
Proof.
  unfold reconcileNotFound, cacheAfterRemoval.
  destruct (PolicyIndex.Delete _ req) as [idx old]; simpl.
  destruct old as [m|]; [done|]. by rewrite bool_decide_false by (unfold mlen; simpl; rewrite map_size_empty; lia).
Qed.

Lemma reconcileDeletion_cache st req policy :
  st_cache (reconcileDeletion st req policy).1 =
  cacheAfterRemoval (st_cache st) req (policy_selector policy).
Proof.
  unfold reconcileDeletion, cacheAfterRemoval. destruct (PolicyIndex.Delete _ req) as [idx old]; simpl.
  by case_bool_decide; destruct (client_Update _ _) as [api [?|?]].
Qed.

Lemma reconcileAddFinalizer_cache st policy :
  st_cache (reconcileAddFinalizer st policy).1 = st_cache st.
Proof. unfold reconcileAddFinalizer. by destruct (client_Update _ _) as [api [?|?]]. Qed.

Lemma reconcileValid_cache now st policy :
  st_cache (reconcileValid now st policy).1 = cacheAfterUpsert (st_cache st) policy.
Proof.
  unfold reconcileValid, cacheAfterUpsert. destruct (PolicyIndex.Upsert _ policy) as [idx old].
  case_bool_decide; [|done]. by destruct (client_StatusUpdate _ _) as [api [?|?]].
Qed.

Lemma with_policies_id bc : with_policies bc (policyIndex bc) = bc.
Proof. by destruct bc. Qed.

(** *** Which labels a change of the policy index concerns *)

Lemma Blocked_lookup (pl : PolicyIndex) labels d :
  Blocked pl labels d ↔ ∃ nn p, policies pl !! nn = Some p ∧
    Selects (policy_selector p) labels ∧ d ∈ elems (BlockList (p_Spec p)).
Proof. unfold Blocked; simpl. by setoid_rewrite policy_Get_lookup. Qed.

Lemma same_blocked_Delete (pl : PolicyIndex) req labels :
  (∀ q, policies pl !! req = Some q → ¬ Selects (policy_selector q) labels) →
  same_blocked pl (PolicyIndex.Delete pl req).1 labels.
Proof.
  intros Hq d. rewrite !Blocked_lookup, policies_Delete. setoid_rewrite lookup_delete_Some.
  split; [|naive_solver]. intros (nn & p & Hp & Hs & Hd). exists nn, p.
  split_and!; try done. intros ->. by eapply Hq.
Qed.

Lemma same_blocked_Upsert (pl : PolicyIndex) policy labels :
  ¬ Selects (policy_selector policy) labels →
  (∀ q, policies pl !! policy_key policy = Some q → ¬ Selects (policy_selector q) labels) →
  same_blocked pl (PolicyIndex.Upsert pl policy).1 labels.
Proof.
  intros Hnew Hq d. rewrite !Blocked_lookup, policies_Upsert. setoid_rewrite lookup_insert_Some.
  split; [|naive_solver]. intros (nn & p & Hp & Hs & Hd). exists nn, p.
  split_and!; try done. right. split; [|done]. intros <-. by eapply Hq.
Qed.

Lemma not_Selects_empty sel labels : mlen sel = 0 → ¬ Selects sel labels.
Proof. intros Hlen Hs. by apply Selects_nonempty in Hs. Qed.

(** *** Coherence is preserved *)

Lemma cacheAfterRemoval_indexes bc req sel :
  podIndex (cacheAfterRemoval bc req sel) = podIndex bc ∧
  policies (policyIndex (cacheAfterRemoval bc req sel)) = delete req (policies (policyIndex bc)).
Proof.
  rewrite <- policies_Delete. unfold cacheAfterRemoval, RecalculateForPolicy.
  repeat case_bool_decide; try done.
  match goal with |- context [foldl recalculatePodInternal ?b ?l] =>
    by destruct (recalculate_list_indexes b l) as [-> ->] end.
Qed.

Lemma cacheAfterUpsert_indexes bc policy :
  podIndex (cacheAfterUpsert bc policy) = podIndex bc ∧
  policies (policyIndex (cacheAfterUpsert bc policy)) =
    <[policy_key policy := policy]> (policies (policyIndex bc)).
Proof.
  rewrite <- policies_Upsert. unfold cacheAfterUpsert, RecalculateForPolicy.
  destruct (PolicyIndex.Upsert _ policy) as [idx old]; simpl. case_match.
  - rewrite RecalculateForPolicyChange_list.
    match goal with |- context [foldl recalculatePodInternal ?b ?l] =>
      by destruct (recalculate_list_indexes b l) as [-> ->] end.
  - case_bool_decide; [done|].
    match goal with |- context [foldl recalculatePodInternal ?b ?l] =>
      by destruct (recalculate_list_indexes b l) as [-> ->] end.
Qed.

(** When the policy leaves the index, only labels it selected are concerned. *)
Lemma shrinks_Delete strict (pl : PolicyIndex) req labels :
  (strict = true → ∀ q, policies pl !! req = Some q → ¬ Selects (policy_selector q) labels) →
  shrinks strict pl (PolicyIndex.Delete pl req).1 labels.
Proof.
  destruct strict; intros Hq; [by apply same_blocked_Delete, Hq|]. intros d.
  rewrite !Blocked_lookup, policies_Delete. setoid_rewrite lookup_delete_Some. naive_solver.
Qed.

Lemma HoldsAt_cacheAfterRemoval strict bc req sel ip :
  ip ≠ "" → sole (podIndex bc) ip → HoldsAt strict bc ip →
  (strict = true → ∀ q nn p, policies (policyIndex bc) !! req = Some q →
    PodIndex.Get (podIndex bc) nn = Some p → pod_IP p = ip →
    Selects (policy_selector q) (pod_Labels p) → Selects sel (pod_Labels p)) →
  HoldsAt strict (cacheAfterRemoval bc req sel) ip.
Proof.
  intros Hne Hu Hh Hsel. unfold cacheAfterRemoval.
  set (idx := (PolicyIndex.Delete (policyIndex bc) req).1).
  assert (∀ nn p, PodIndex.Get (podIndex bc) nn = Some p → pod_IP p = ip → ¬ Selects sel (pod_Labels p) →
    shrinks strict (policyIndex bc) idx (pod_Labels p)) as Hs.
  { intros nn p Hget Hip Hns. apply shrinks_Delete. intros -> q Hq Hsq. apply Hns. by eapply Hsel. }
  assert (HoldsAt strict (with_policies (with_policies bc idx) (policyIndex bc)) ip) as Hh' by exact Hh.
  case_bool_decide as Hlen.
  - by apply (HoldsAt_RecalculateForPolicy strict _ (policyIndex bc)).
  - apply (HoldsAt_recalculate strict (with_policies bc idx) (policyIndex bc) []); [done..|set_solver|].
    intros nn p Hget Hip _. apply (Hs nn); [done..|]. apply not_Selects_empty. lia.
Qed.

Lemma NoStale_cacheAfterRemoval bc req sel : NoStale bc → NoStale (cacheAfterRemoval bc req sel).
Proof.
  intros Hns. unfold cacheAfterRemoval. case_bool_decide; [|done]. by apply NoStale_RecalculateForPolicy.
Qed.

(** A pod the selector does not match keeps its entry. *)
Lemma cacheAfterRemoval_other bc req sel nn p :
  sole (podIndex bc) (pod_IP p) → PodIndex.Get (podIndex bc) nn = Some p →
  ¬ Selects sel (pod_Labels p) →
  entries (cacheAfterRemoval bc req sel) !! pod_IP p = entries bc !! pod_IP p.
Proof.
  intros Hu Hp Hns. unfold cacheAfterRemoval. case_bool_decide; [|done].
  by rewrite (RecalculateForPolicy_other _ _ nn).
Qed.

(** Nothing happens for an object that is gone and not indexed. *)
Lemma reconcileNotFound_absent st req :
  policies (policyIndex (st_cache st)) !! req = None →
  st_cache (reconcileNotFound st req) = st_cache st.
Proof.
  intros Hnone. unfold reconcileNotFound, PolicyIndex.Delete. rewrite Hnone; simpl.
  apply with_policies_id.
Qed.

Lemma HoldsAt_cacheAfterUpsert strict bc policy ip :
  ip ≠ "" → sole (podIndex bc) ip → HoldsAt strict bc ip → HoldsAt strict (cacheAfterUpsert bc policy) ip.
Proof.
  intros Hne Hu Hh. unfold cacheAfterUpsert.
  rewrite (surjective_pairing (PolicyIndex.Upsert _ policy)), Upsert_old.
  set (idx := (PolicyIndex.Upsert (policyIndex bc) policy).1).
  set (old := policies (policyIndex bc) !! policy_key policy ≫= policy_selector).
  assert (∀ labels, ¬ Selects old labels → ¬ Selects (policy_selector policy) labels →
    shrinks strict (policyIndex bc) idx labels) as Hs.
  { intros labels Hold Hnew. apply same_shrinks, same_blocked_Upsert; [done|]. intros q Hq.
    unfold old in Hold. by rewrite Hq in Hold. }
  assert (HoldsAt strict (with_policies (with_policies bc idx) (policyIndex bc)) ip) as Hh' by exact Hh.
  destruct (negb (is_nil old) && negb (selectorsEqual old (policy_selector policy))) eqn:Hch.
  - apply (HoldsAt_RecalculateForPolicyChange strict _ (policyIndex bc)); auto.
  - apply (HoldsAt_RecalculateForPolicy strict _ (policyIndex bc)); [done..|].
    intros nn p _ _ Hnew. apply Hs; [|done].
    apply andb_false_iff in Hch as [Hnil|Heq].
    + destruct old; [done|]. by apply not_Selects_empty.
    + apply negb_false_iff, selectorsEqual_contents in Heq.
      by rewrite (Selects_proper _ _ Heq _ _ eq_refl).
Qed.

Lemma NoStale_cacheAfterUpsert bc policy : NoStale bc → NoStale (cacheAfterUpsert bc policy).
Proof.
  intros Hns. unfold cacheAfterUpsert. destruct (PolicyIndex.Upsert _ policy) as [idx old].
  case_match; [by apply NoStale_RecalculateForPolicyChange|by apply NoStale_RecalculateForPolicy].
Qed.

Lemma Coherent_cacheAfterUpsert bc policy :
  Coherent bc → ips_unique (podIndex bc) → Coherent (cacheAfterUpsert bc policy).
Proof.
  rewrite !Coherent_exact, ips_unique_sole. intros [Hx Hns] Hu. split; [|by apply NoStale_cacheAfterUpsert].
  intros ip Hne. apply HoldsAt_cacheAfterUpsert; [done|auto|by apply Hx].
Qed.

(** Entries stay under their addresses. *)
Lemma entries_keyed_cacheAfterRemoval bc req sel :
  entries_keyed bc → entries_keyed (cacheAfterRemoval bc req sel).
Proof.
  intros Hk. unfold cacheAfterRemoval, RecalculateForPolicy. repeat case_bool_decide; try done.
  by apply entries_keyed_list.
Qed.

Lemma entries_keyed_cacheAfterUpsert bc policy :
  entries_keyed bc → entries_keyed (cacheAfterUpsert bc policy).
Proof.
  intros Hk. unfold cacheAfterUpsert, RecalculateForPolicy. destruct (PolicyIndex.Upsert _ policy).
  case_match; [rewrite RecalculateForPolicyChange_list; by apply entries_keyed_list|].
  case_bool_decide; [done|]. by apply entries_keyed_list.
Qed.

(** A pod the policy selects gets its entry. *)
Lemma entries_cacheAfterUpsert bc policy nn p :
  sole (podIndex bc) (pod_IP p) → PodIndex.Get (podIndex bc) nn = Some p → pod_IP p ≠ "" →
  Selects (policy_selector policy) (pod_Labels p) →
  entries (cacheAfterUpsert bc policy) !! pod_IP p =
    Some (wantEntry (policyIndex (cacheAfterUpsert bc policy)) p).
Proof.
  intros Hu Hp Hne Hs. unfold cacheAfterUpsert, RecalculateForPolicy.
  destruct (PolicyIndex.Upsert (policyIndex bc) policy) as [idx old].
  set (bc1 := with_policies bc idx).
  assert (∀ ps, p ∈ ps → (∀ q, q ∈ ps → ∃ nn', ps_Get (podIndex bc) nn' = Some q) →
    entries (foldl recalculatePodInternal bc1 ps) !! pod_IP p =
      Some (wantEntry (policyIndex (foldl recalculatePodInternal bc1 ps)) p)) as Hgen.
  { intros ps Hin Hps. destruct (recalculate_list_indexes bc1 ps) as [_ ->].
    apply recalculate_list_member; [done..|]. intros q Hq Hip.
    destruct (Hps q Hq) as [nn' Hq']. assert (nn' = nn) as -> by (by eapply Hu).
    simpl in Hq'. congruence. }
  case_match.
  - rewrite RecalculateForPolicyChange_list. apply Hgen.
    + apply elem_of_range_snd. exists (pod_IP p). apply (affectedBy_member bc1 _ _ nn); auto.
    + intros q [ip Hip]%elem_of_range_snd. by apply affectedBy_source in Hip.
  - rewrite bool_decide_false by (intros Hz; by eapply not_Selects_empty). apply Hgen.
    + apply ps_matching_spec. eauto.
    + intros q Hq. by apply (ps_matching_spec (podIndex bc)) in Hq as [? _].
Qed.
End CacheEffects.

(** ** Invariants and specifications *)
Section Specs.
Context `{RO : RangeOrder} `{AM : ApiMachinery} {A : Type} `{PC : PolicyClient A}.
Implicit Types (bc : Cache) (st : RState A).

(** What a reconciliation does to the set of indexed policies: the contract of
    [Reconcile] on the index, by what the API server answers. *)
Definition indexAfter (st : RState A) (req : NamespacedName) : gmap NamespacedName DnsPolicy :=
  let m := policies (policyIndex (st_cache st)) in
  match client_Get (st_api st) req with
  | inr err => if IsNotFound err then delete req m else m
  | inl policy =>
      let finalized := ContainsFinalizer (p_ObjectMeta policy) dnsPolicyFinalizer in
      match Time_IsZero (om_DeletionTimestamp (p_ObjectMeta policy)), finalized with
      | false, true => delete req m
      | false, false => m
      | true, false => m
      | true, true =>
          if bool_decide (mlen (policy_selector policy) = 0) then m else <[req := policy]> m
      end
  end.

(** When the answer is an object that is being deleted, its selector still selects the
    pods at the address that its indexed version selects. *)
Definition deletion_covers bc (req : NamespacedName) (r : DnsPolicy + goerror) (ip : string) : Prop :=
  ∀ policy q nn p, r = inl policy →
    Time_IsZero (om_DeletionTimestamp (p_ObjectMeta policy)) = false →
    policies (policyIndex bc) !! req = Some q →
    pods (podIndex bc) !! nn = Some p → pod_IP p = ip →
    Selects (policy_selector q) (pod_Labels p) → Selects (policy_selector policy) (pod_Labels p).

(** Indexed policies are live, carry the finalizer, have a selector and are
    stored under their own name. *)
Definition index_valid (m : gmap NamespacedName DnsPolicy) : Prop :=
  ∀ nn p, m !! nn = Some p →
    policy_key p = nn ∧
    Time_IsZero (om_DeletionTimestamp (p_ObjectMeta p)) = true ∧
    ContainsFinalizer (p_ObjectMeta p) dnsPolicyFinalizer = true ∧
    mlen (policy_selector p) ≠ 0.

Lemma Reconcile_indexes now st req :
  let bc := st_cache st in
  let bc' := st_cache (Reconcile now st req).1 in
  podIndex bc' = podIndex bc ∧ policies (policyIndex bc') = indexAfter st req.
Proof.
  unfold Reconcile, indexAfter. destruct (client_Get (st_api st) req) as [policy|err] eqn:Hget.
  - destruct (Time_IsZero _) eqn:Htz, (ContainsFinalizer _ _) eqn:Hfin; simpl; [| |by rewrite ?reconcileDeletion_cache; apply cacheAfterRemoval_indexes|done].
    + case_bool_decide; [done|]. rewrite reconcileValid_cache.
      rewrite <- (client_Get_key _ _ _ Hget). apply cacheAfterUpsert_indexes.
    + by rewrite reconcileAddFinalizer_cache.
  - destruct (IsNotFound err); [|done]. simpl. rewrite reconcileNotFound_cache.
    apply cacheAfterRemoval_indexes.
Qed.

Lemma index_valid_Reconcile now st req :
  index_valid (policies (policyIndex (st_cache st))) →
  index_valid (policies (policyIndex (st_cache (Reconcile now st req).1))).
Proof.
  intros Hv. destruct (Reconcile_indexes now st req) as [_ ->]. unfold indexAfter.
  assert (index_valid (delete req (policies (policyIndex (st_cache st))))) as Hdel.
  { intros nn p [_ ?]%lookup_delete_Some. eauto. }
  destruct (client_Get (st_api st) req) as [policy|err] eqn:Hget; [|by case_match].
  destruct (Time_IsZero _) eqn:Htz, (ContainsFinalizer _ _) eqn:Hfin; try done.
  case_bool_decide; [done|]. intros nn p [[<- <-]|[_ ?]]%lookup_insert_Some; [|eauto].
  split_and!; try done. by eapply client_Get_key.
Qed.

Lemma HoldsAt_Reconcile strict now st req ip :
  ip ≠ "" → sole (podIndex (st_cache st)) ip → HoldsAt strict (st_cache st) ip →
  (strict = true → deletion_covers (st_cache st) req (client_Get (st_api st) req) ip) →
  HoldsAt strict (st_cache (Reconcile now st req).1) ip.
Proof.
  intros Hne Hu Hh Hdel. unfold Reconcile.
  destruct (client_Get (st_api st) req) as [policy|err] eqn:Hget.
  - destruct (Time_IsZero _) eqn:Htz, (ContainsFinalizer _ _) eqn:Hfin; simpl; try done.
    + case_bool_decide; [done|]. rewrite reconcileValid_cache. by apply HoldsAt_cacheAfterUpsert.
    + by rewrite reconcileAddFinalizer_cache.
    + rewrite reconcileDeletion_cache. apply HoldsAt_cacheAfterRemoval; [done..|].
      intros Hst q nn p' Hq (p & Hp & ->)%Get_Some Hip. rewrite !podCopy_Selects. intros Hs.
      by apply (Hdel Hst policy q nn p).
  - destruct (IsNotFound err); [|done]. simpl. rewrite reconcileNotFound_cache.
    apply HoldsAt_cacheAfterRemoval; [done..|]. intros _ q nn p Hq _ _. by rewrite Delete_old, Hq.
Qed.

(** Every branch leaves the entries alone or recalculates. *)
Lemma Reconcile_cache_ind (P : Cache → Prop) now st req :
  P (st_cache st) → (∀ sel, P (cacheAfterRemoval (st_cache st) req sel)) →
  (∀ policy, P (cacheAfterUpsert (st_cache st) policy)) →
  P (st_cache (Reconcile now st req).1).
Proof.
  intros H0 Hr Hu. unfold Reconcile. repeat case_match; simpl; try done;
    rewrite ?reconcileDeletion_cache, ?reconcileAddFinalizer_cache,
      ?reconcileValid_cache, ?reconcileNotFound_cache; auto.
Qed.

Lemma NoStale_Reconcile now st req :
  NoStale (st_cache st) → NoStale (st_cache (Reconcile now st req).1).
Proof. intros Hns. apply Reconcile_cache_ind; auto using NoStale_cacheAfterRemoval, NoStale_cacheAfterUpsert. Qed.

Lemma entries_keyed_Reconcile now st req :
  entries_keyed (st_cache st) → entries_keyed (st_cache (Reconcile now st req).1).
Proof.
  intros Hk. apply Reconcile_cache_ind; auto using entries_keyed_cacheAfterRemoval, entries_keyed_cacheAfterUpsert.
Qed.

(** *** updateCondition *)

Lemma updateLoop_found c cs :
  (updateLoop c cs).2 = true ↔ c_Type c ∈ c_Type <$> cs.
Proof.
  induction cs as [|e cs IH]; csimpl; [set_solver|].
  rewrite elem_of_cons. case_bool_decide as Ht; simpl; [naive_solver|].
  destruct (updateLoop c cs) as [cs' f]; simpl in *. naive_solver.
Qed.

Lemma updateLoop_types c cs : c_Type <$> (updateLoop c cs).1 = c_Type <$> cs.
Proof.
  induction cs as [|e cs IH]; [done|]; simpl. case_bool_decide as Ht; csimpl.
  - f_equal. by case_bool_decide.
  - destruct (updateLoop c cs) as [cs' f]; csimpl. by f_equal.
Qed.

Lemma updateLoop_other c cs e :
  c_Type e ≠ c_Type c → e ∈ (updateLoop c cs).1 ↔ e ∈ cs.
Proof.
  intros Hne. induction cs as [|x cs IH]; [done|]; simpl. case_bool_decide as Ht; simpl.
  - rewrite !elem_of_cons. case_bool_decide; naive_solver.
  - destruct (updateLoop c cs) as [cs' f]; simpl in *. rewrite !elem_of_cons. naive_solver.
Qed.

Lemma updateLoop_status c cs :
  c_Type c ∈ c_Type <$> cs →
  ∃ e, e ∈ (updateLoop c cs).1 ∧ c_Type e = c_Type c ∧ c_Status e = c_Status c ∧ (e = c ∨ e ∈ cs).
Proof.
  induction cs as [|x cs IH]; csimpl; [set_solver|]. case_bool_decide as Ht; simpl.
  - intros _. case_bool_decide as Hs.
    + exists c. set_solver.
    + exists x. split; [by left|]. split; [done|]. split; [|by right; left].
      by destruct (decide (c_Status x = c_Status c)).
  - intros [?|Hin]%elem_of_cons; [by destruct Ht|].
    destruct (IH Hin) as (e & He & ? & ? & Hor). exists e.
    destruct (updateLoop c cs) as [cs' f]; simpl in *. split_and!; try done; [by right|].
    destruct Hor; [by left|]. right. by right.
Qed.
End Specs.

(** ** Properties *)
Section Properties.
Context `{RO : RangeOrder} `{AM : ApiMachinery} {A : Type} `{PC : PolicyClient A}.
Implicit Types (bc : Cache) (st : RState A).

(** C3: reconciling a policy keeps what is served for an address. For an address that at
    most one indexed pod has, every branch of [Reconcile] (object gone, being deleted,
    created, edited with or without a new selector, invalid, or any API error) keeps
    the entry complete: no domain an indexed policy blocks for the pod is missing
    afterwards. It keeps the entry exact provided that an object that is being deleted
    still selects the pod if its indexed version does. Whatever the addresses, no entry
    appears for an address of no indexed pod. *)
Theorem policy_reconcile_coherent now st req ip :
  ip ≠ "" → sole (podIndex (st_cache st)) ip →
  let bc := st_cache st in
  let bc' := st_cache (Reconcile now st req).1 in
  (complete_at bc ip → complete_at bc' ip) ∧
  (exact_at bc ip → deletion_covers bc req (client_Get (st_api st) req) ip → exact_at bc' ip) ∧
  (NoStale bc → NoStale bc').
Proof.
  intros Hne Hu bc bc'. split_and!.
  - intros Hc. by apply HoldsAt_Reconcile.
  - intros Hx Hd. by apply HoldsAt_Reconcile.
  - apply NoStale_Reconcile.
Qed.

(** What [Reconcile] does to the indexes, on every branch. The pod index is
    never changed. The policy index loses the policy when it is gone or is being
    deleted with the finalizer on it, receives the object when it is live, has
    the finalizer and a non-empty selector, and is unchanged otherwise. *)
Theorem policy_reconcile_index now st req :
  podIndex (st_cache (Reconcile now st req).1) = podIndex (st_cache st) ∧
  policies (policyIndex (st_cache (Reconcile now st req).1)) = indexAfter st req.
Proof. apply Reconcile_indexes. Qed.

(** C20: only valid policies are ever indexed: each indexed policy is live, has
    the finalizer, has a non-empty selector and is stored under its own name.
    [Reconcile] preserves this on every branch. *)
Theorem policy_reconcile_index_valid now st req :
  index_valid (policies (policyIndex (st_cache st))) →
  index_valid (policies (policyIndex (st_cache (Reconcile now st req).1))).
Proof. apply index_valid_Reconcile. Qed.

(** An edit that empties the selector is rejected and has no effect: the
    error is returned, the warning is recorded, and neither the API server nor
    the cache changes. In particular no status is written, and a version of the
    policy indexed before keeps being enforced. *)
Theorem empty_selector_rejected now st req policy :
  client_Get (st_api st) req = inl policy →
  Time_IsZero (om_DeletionTimestamp (p_ObjectMeta policy)) = true →
  ContainsFinalizer (p_ObjectMeta policy) dnsPolicyFinalizer = true →
  mlen (policy_selector policy) = 0 →
  Reconcile now st req =
    (mkRState (st_api st) (st_cache st)
       (st_events st ++ [mkEvent req EventTypeWarning "InvalidSpec" "TargetSelector cannot be empty"]),
     Some (Errorf "targetSelector cannot be empty")).
Proof.
  intros Hget Htz Hfin Hlen. unfold Reconcile.
  rewrite Hget, Htz, Hfin; simpl. rewrite bool_decide_true by done.
  unfold record. by rewrite (client_Get_key _ _ _ Hget).
Qed.

(** C21: deleting a policy whose selector was edited after it was indexed leaves
    stale entries. When the object being deleted no longer selects a pod that
    its indexed version selects, the policy leaves the index, but the pod's
    entry still lists the domain although no indexed policy blocks it; and the
    reconciliation that follows once the object is gone does not repair it. *)
Theorem deletion_after_edit_leaves_stale now now' st req policy q nn p d a' err :
  Coherent (st_cache st) → ips_unique (podIndex (st_cache st)) →
  client_Get (st_api st) req = inl policy →
  Time_IsZero (om_DeletionTimestamp (p_ObjectMeta policy)) = false →
  ContainsFinalizer (p_ObjectMeta policy) dnsPolicyFinalizer = true →
  policies (policyIndex (st_cache st)) !! req = Some q →
  PodIndex.Get (podIndex (st_cache st)) nn = Some p → pod_IP p ≠ "" →
  Selects (policy_selector q) (pod_Labels p) → d ∈ elems (BlockList (p_Spec q)) →
  ¬ Selects (policy_selector policy) (pod_Labels p) →
  ¬ Blocked (PolicyIndex.Delete (policyIndex (st_cache st)) req).1 (pod_Labels p) d →
  client_Get a' req = inr err → IsNotFound err = true →
  let st1 := (Reconcile now st req).1 in
  let st2 := (Reconcile now' (set_api st1 a') req).1 in
  ¬ Blocked (policyIndex (st_cache st1)) (pod_Labels p) d ∧
  (∃ e, entries (st_cache st1) !! pod_IP p = Some e ∧ d ∈ entry_Domains e) ∧
  st_cache st2 = st_cache st1.
Proof.
  intros [Hf _] Hu Hget Htz Hfin Hq Hp Hne Hsq Hd Hns Hnb Hget' Hnf st1 st2.
  assert (st_cache st1 = cacheAfterRemoval (st_cache st) req (policy_selector policy)) as Hst1.
  { unfold st1, Reconcile. rewrite Hget, Htz, Hfin; simpl. apply reconcileDeletion_cache. }
  destruct (cacheAfterRemoval_indexes (st_cache st) req (policy_selector policy)) as [_ Hidx].
  rewrite <- Hst1 in Hidx. split_and!.
  - rewrite Blocked_lookup in Hnb |- *. by rewrite policies_Delete in Hnb; rewrite Hidx.
  - exists (wantEntry (policyIndex (st_cache st)) p). split.
    + rewrite Hst1. erewrite cacheAfterRemoval_other; [by eapply Hf| |done|done].
      by apply (proj1 (ips_unique_sole _) Hu).
    + apply elem_of_wantDomains, Blocked_lookup. eauto.
  - unfold st2, Reconcile; simpl. rewrite Hget', Hnf; simpl.
    apply (reconcileNotFound_absent (set_api st1 a')). simpl.
    by rewrite Hidx, lookup_delete_eq.
Qed.

(** [updateCondition] behaves as a map keyed by condition type. Types stay
    distinct, the condition of the given type has the given status afterwards,
    the other conditions are untouched, an existing condition is kept as it was
    (transition time included) unless its status changes, and nothing but the
    conditions of the object changes. *)
Theorem update_condition_spec now policy t s reason msg :
  let c := mkCondition t s (om_Generation (p_ObjectMeta policy)) now reason msg in
  let cs := elems (Conditions (p_Status policy)) in
  let policy' := updateCondition now policy t s reason msg in
  let cs' := elems (Conditions (p_Status policy')) in
  (NoDup (c_Type <$> cs) → NoDup (c_Type <$> cs')) ∧
  (∃ e, e ∈ cs' ∧ c_Type e = t ∧ c_Status e = s ∧ (e = c ∨ e ∈ cs)) ∧
  (∀ e, c_Type e ≠ t → e ∈ cs' ↔ e ∈ cs) ∧
  p_ObjectMeta policy' = p_ObjectMeta policy ∧ p_Spec policy' = p_Spec policy ∧
  ObservedGeneration (p_Status policy') = ObservedGeneration (p_Status policy).
Proof.
  intros c cs policy' cs'.
  assert (cs' = if (updateLoop c cs).2 then (updateLoop c cs).1 else cs ++ [c]) as Hcs'.
  { unfold cs', policy', updateCondition. fold c cs.
    destruct (updateLoop c cs) as [l f]. by destruct f. }
  assert (p_ObjectMeta policy' = p_ObjectMeta policy ∧ p_Spec policy' = p_Spec policy ∧
    ObservedGeneration (p_Status policy') = ObservedGeneration (p_Status policy)) as Hrest.
  { unfold policy', updateCondition. destruct (updateLoop _ _) as [l f]. by destruct f. }
  rewrite Hcs'. clear Hcs'. destruct (updateLoop c cs).2 eqn:Hf.
  - apply updateLoop_found in Hf. split_and!; [by rewrite updateLoop_types| | |apply Hrest..].
    + by apply updateLoop_status in Hf.
    + intros e He. by apply updateLoop_other.
  - split_and!; [| | |apply Hrest..].
    + intros Hnd. rewrite fmap_app. apply NoDup_app. split_and!; [done| |apply NoDup_singleton].
      intros x Hx ->%list_elem_of_singleton. apply (updateLoop_found c) in Hx. congruence.
    + exists c. set_solver.
    + intros e He. rewrite elem_of_app, list_elem_of_singleton. split; [|naive_solver].
      intros [Hin|Heq]; [done|]. subst. by destruct He.
Qed.

(** Reconciling a policy in its steady state changes nothing. When the
    object is live, finalized and valid, the index holds it, its generation has
    been reported and the cache is coherent, [Reconcile] succeeds and only
    records that the policy was indexed. *)
Theorem policy_reconcile_idempotent now st req policy :
  Coherent (st_cache st) → ips_unique (podIndex (st_cache st)) →
  client_Get (st_api st) req = inl policy →
  Time_IsZero (om_DeletionTimestamp (p_ObjectMeta policy)) = true →
  ContainsFinalizer (p_ObjectMeta policy) dnsPolicyFinalizer = true →
  mlen (policy_selector policy) ≠ 0 →
  ObservedGeneration (p_Status policy) = om_Generation (p_ObjectMeta policy) →
  policies (policyIndex (st_cache st)) !! req = Some policy →
  Reconcile now st req =
    (mkRState (st_api st) (st_cache st)
      (st_events st ++ [mkEvent req EventTypeNormal "PolicyIndexed" "DnsPolicy successfully indexed"]),
     None).
Proof.
  intros Hc Hu Hget Htz Hfin Hlen Hgen Hidx.
  assert (cacheAfterUpsert (st_cache st) policy = st_cache st) as Hcache.
  { pose proof (Coherent_cacheAfterUpsert _ policy Hc Hu) as Hc'.
    destruct (cacheAfterUpsert_indexes (st_cache st) policy) as [Hpods Hpols].
    rewrite (client_Get_key _ _ _ Hget), insert_id in Hpols by done.
    assert (policyIndex (cacheAfterUpsert (st_cache st) policy) = policyIndex (st_cache st)) as Hpols'.
    { destruct (policyIndex (cacheAfterUpsert _ _)), (policyIndex (st_cache st)). simpl in *. by f_equal. }
    pose proof (Coherent_ext _ _ Hc' Hc Hpods Hpols') as He.
    destruct (cacheAfterUpsert _ _), (st_cache st); simpl in *. congruence. }
  unfold Reconcile. rewrite Hget, Htz, Hfin; simpl. rewrite bool_decide_false by done.
  unfold reconcileValid, cacheAfterUpsert in *.
  destruct (PolicyIndex.Upsert _ policy) as [idx old].
  rewrite bool_decide_false by (intros Hne; by apply Hne). simpl.
  unfold set_cache, record; simpl. by rewrite Hcache, (client_Get_key _ _ _ Hget).
Qed.

(** A new policy is picked up in two reconciliations. For a live object with
    a selector that does not have the finalizer yet, when the API server accepts
    the update, the first reconciliation succeeds and adds the finalizer, and the
    second one indexes the object with the specification it was created with. *)
Theorem new_policy_indexed_in_two `{PCL : !PolicyClientLaws A} now now' st req policy a' p' :
  client_Get (st_api st) req = inl policy →
  om_DeletionTimestamp (p_ObjectMeta policy) = None →
  ContainsFinalizer (p_ObjectMeta policy) dnsPolicyFinalizer = false →
  mlen (policy_selector policy) ≠ 0 →
  client_Update (st_api st)
    (with_meta policy (AddFinalizer (p_ObjectMeta policy) dnsPolicyFinalizer)) = (a', inl p') →
  let r1 := Reconcile now st req in
  let r2 := Reconcile now' r1.1 req in
  r1.2 = None ∧ st_cache r1.1 = st_cache st ∧
  policies (policyIndex (st_cache r2.1)) !! req = Some p' ∧ p_Spec p' = p_Spec policy.
Proof.
  intros Hget Hlive Hfin Hlen Hupd r1 r2.
  pose proof (AddFinalizer_spec _ _ Hfin) as Hadd.
  assert (r1 = (record (set_api st a') p' EventTypeNormal "FinalizerAdded"
    "Finalizer added to DnsPolicy", None)) as Hr1.
  { unfold r1, Reconcile. rewrite Hget, Hlive, Time_IsZero_nil, Hfin; simpl.
    unfold reconcileAddFinalizer. by rewrite Hupd. }
  apply client_Update_live in Hupd as (Hspec & Hfins & Hdel & Hget'); [|by rewrite Hadd].
  assert (client_Get (st_api r1.1) req = inl p') as Hget1.
  { rewrite Hr1; simpl. rewrite <- Hget'. f_equal. rewrite <- (client_Get_key _ _ _ Hget).
    unfold policy_key, with_meta; simpl. by rewrite Hadd. }
  assert (ContainsFinalizer (p_ObjectMeta p') dnsPolicyFinalizer = true) as Hfin'.
  { apply ContainsFinalizer_spec. rewrite Hfins; simpl. rewrite Hadd; simpl. set_solver. }
  split_and!; [by rewrite Hr1..| |done].
  destruct (Reconcile_indexes now' r1.1 req) as [_ Hidx]. fold r2 in Hidx. rewrite Hidx.
  unfold indexAfter. rewrite Hget1, Hdel, Time_IsZero_nil, Hfin'.
  unfold policy_selector. rewrite Hspec. rewrite bool_decide_false by done. apply lookup_insert_eq.
Qed.
End Properties.
