(* ===== verification/PodReconciler.v ===== *)
(** * The pod reconciler (internal/controller/pod_controller.go)

    [Reconcile] as a function of the API server's state and the shared cache, and
    the event filter that decides which pod events lead to a reconciliation. The
    reconciler's [PodIndex] is the cache's pod index: main.go passes the same
    pointer to both. *)

From S2P Require Import Prelude Types Selectors Stores Client.
From S2P Require Import PodIndex PolicyIndex BlocklistCache.

(** [corev1.Pod]: the fields the sources read *)
Record Pod := mkPod {
  k_Namespace : string;
  k_Name : string;
  k_Labels : GoMap;
  k_PodIP : string;
  k_Phase : string;
}.

(** [corev1.PodRunning] *)
Definition PodRunning : string := "Running".

Definition PodNamespacedName (pod : Pod) : NamespacedName :=
  mkNN (k_Namespace pod) (k_Name pod).

(** The client's read of a pod by name. *)
Class PodClient (A : Type) := {
  pod_client_Get : A → NamespacedName → Pod + goerror;
  pod_client_Get_key a nn pod :
    pod_client_Get a nn = inl pod → PodNamespacedName pod = nn;
}.
#[export] Hint Mode PodClient ! : typeclass_instances.

Section Reconcile.
Context `{RO : RangeOrder} `{AM : ApiMachinery} {A : Type} `{PC : PodClient A}.
Implicit Types (bc : BlocklistCache PodIndex PolicyIndex) (pod : Pod) (a : A).

(** [existingPod := r.PodIndex.Get(req); if existingPod != nil { RemovePod(existingPod.IP) }] *)
Definition removeExisting bc (req : NamespacedName) : BlocklistCache PodIndex PolicyIndex :=
  match PodIndex.Get (podIndex bc) req with
  | Some existingPod => RemovePod bc (pod_IP existingPod)
  | None => bc
  end.

Definition Reconcile (a : A) bc (req : NamespacedName)
    : BlocklistCache PodIndex PolicyIndex * option goerror :=
  match pod_client_Get a req with
  | inr err =>
      if IsNotFound err then
        (* pod was deleted *)
        let bc := removeExisting bc req in
        (with_pods bc (PodIndex.Delete (podIndex bc) req), None)
      else (bc, Some err)
  | inl pod =>
      if str_empty (k_PodIP pod) then (bc, None)
      else if bool_decide (k_Phase pod ≠ PodRunning) && bool_decide (String.length (k_PodIP pod) = 0) then
        (* pod is not running: remove it when it was indexed *)
        match PodIndex.Get (podIndex bc) req with
        | Some existingPod =>
            let bc := RemovePod bc (pod_IP existingPod) in
            (with_pods bc (PodIndex.Delete (podIndex bc) req), None)
        | None => (bc, None)
        end
      else
        let podInfo := mkPodInfo (k_PodIP pod) (k_Labels pod) (k_Namespace pod) (k_Name pod) in
        let bc :=
          match PodIndex.Get (podIndex bc) req with
          | Some existingPod =>
              if bool_decide (pod_IP existingPod ≠ pod_IP podInfo)
              then RemovePod bc (pod_IP existingPod) else bc
          | None => bc
          end in
        let bc := with_pods bc (PodIndex.Upsert (podIndex bc) req podInfo) in
        (RecalculatePod bc req, None)
  end.

(** ** The event filter

    Objects of watch events, with the type assertion to a pod. *)
Inductive Object := ObjPod (pod : Pod) | ObjOther.

Inductive WatchEvent :=
  | CreateEvent (o : Object)
  | UpdateEvent (old new : Object)
  | DeleteEvent (o : Object)
  | GenericEvent (o : Object).

Definition podEventFilter (e : WatchEvent) : bool :=
  match e with
  | CreateEvent (ObjPod pod) =>
      negb (str_empty (k_PodIP pod)) && bool_decide (k_Phase pod = PodRunning)
  | CreateEvent ObjOther => false
  | UpdateEvent (ObjPod oldPod) (ObjPod newPod) =>
      let becameRunning :=
        bool_decide (k_Phase oldPod ≠ PodRunning) && bool_decide (k_Phase newPod = PodRunning) in
      let stoppedRunning :=
        bool_decide (k_Phase oldPod = PodRunning) && bool_decide (k_Phase newPod ≠ PodRunning) in
      let ipChanged := bool_decide (k_PodIP oldPod ≠ k_PodIP newPod) in
      let labelsChanged := negb (labelsEqual (k_Labels oldPod) (k_Labels newPod)) in
      becameRunning || stoppedRunning || ipChanged || labelsChanged
  | UpdateEvent _ _ => false
  | DeleteEvent _ => true
  | GenericEvent _ => false
  end.

(** ** Lemmas *)

(** The information indexed for a pod. *)
Definition infoOf pod : PodInfo :=
  mkPodInfo (k_PodIP pod) (k_Labels pod) (k_Namespace pod) (k_Name pod).

(** The cache after a pod with an address is reconciled. *)
Definition cacheAfterPod bc (req : NamespacedName) (info : PodInfo) : BlocklistCache PodIndex PolicyIndex :=
  let bc1 :=
    match PodIndex.Get (podIndex bc) req with
    | Some old => if bool_decide (pod_IP old ≠ pod_IP info) then RemovePod bc (pod_IP old) else bc
    | None => bc
    end in
  RecalculatePod (with_pods bc1 (PodIndex.Upsert (podIndex bc) req info)) req.

(** The cache after a pod is gone. *)
Definition cacheAfterPodGone bc (req : NamespacedName) : BlocklistCache PodIndex PolicyIndex :=
  with_pods (removeExisting bc req) (PodIndex.Delete (podIndex bc) req).

(** The branch for pods that are not running is never taken: it asks for an
    empty address after pods without an address have been skipped. *)
Lemma Reconcile_cases a bc req :
  Reconcile a bc req =
  match pod_client_Get a req with
  | inr err => if IsNotFound err then (cacheAfterPodGone bc req, None) else (bc, Some err)
  | inl pod =>
      if str_empty (k_PodIP pod) then (bc, None) else (cacheAfterPod bc req (infoOf pod), None)
  end.
Proof.
  unfold Reconcile. destruct (pod_client_Get a req) as [pod|err].
  - destruct (str_empty (k_PodIP pod)) eqn:He; [done|].
    destruct (bool_decide (String.length (k_PodIP pod) = 0)) eqn:Hl; reflect_bools.
    { destruct He. by destruct (k_PodIP pod). }
    rewrite andb_false_r. unfold cacheAfterPod, infoOf; simpl.
    by destruct (PodIndex.Get (podIndex bc) req); [case_bool_decide|].
  - destruct (IsNotFound err); [|done].
    unfold cacheAfterPodGone, removeExisting. by case_match.
Qed.

Lemma podIndex_cacheAfterPod bc req info :
  podIndex (cacheAfterPod bc req info) = PodIndex.Upsert (podIndex bc) req info ∧
  policyIndex (cacheAfterPod bc req info) = policyIndex bc.
Proof.
  unfold cacheAfterPod, RecalculatePod. set (bc1 := with_pods _ _).
  assert (podIndex bc1 = PodIndex.Upsert (podIndex bc) req info ∧ policyIndex bc1 = policyIndex bc)
    as [Hp Hl] by (unfold bc1; split; repeat case_match; done).
  case_match; [|done]. by destruct (recalculate_indexes bc1 p) as [-> ->].
Qed.

(** Who has an address, after the changes of the index. *)
Lemma sole_Upsert (pi : PodIndex) req info ip :
  sole pi ip → (pod_IP info = ip → ip_free pi req ip) → sole (PodIndex.Upsert pi req info) ip.
Proof.
  intros Hu Hfree n1 n2 p1 p2; simpl. rewrite !Get_Upsert.
  repeat case_decide; intros; simplify_eq; try done.
  - symmetry. eapply Hfree; [|done..]. by rewrite podCopy_IP in *.
  - eapply Hfree; [|done..]. by rewrite podCopy_IP in *.
  - by eapply Hu.
Qed.

Lemma sole_Delete (pi : PodIndex) req ip : sole pi ip → sole (PodIndex.Delete pi req) ip.
Proof.
  intros Hu n1 n2 p1 p2; simpl. rewrite !Get_Delete.
  repeat case_decide; intros; simplify_eq; by eapply Hu.
Qed.

Lemma ip_free_raw (pi : PodIndex) req ip :
  ip_free pi req ip ↔ ∀ nn p, pods pi !! nn = Some p → pod_IP p = ip → nn = req.
Proof.
  unfold ip_free; simpl. setoid_rewrite Get_Some. split.
  - intros Hf nn p Hp Hip. eapply (Hf nn (podCopy p)); [by eauto|done].
  - intros Hf nn p' (p & Hp & ->) Hip. by eapply Hf.
Qed.

(** When the answer is a pod with the address, no other indexed pod has it. *)
Definition address_apart bc (req : NamespacedName) (r : Pod + goerror) (ip : string) : Prop :=
  ∀ pod nn p, r = inl pod → k_PodIP pod = ip →
    pods (podIndex bc) !! nn = Some p → pod_IP p = ip → nn = req.

Lemma address_apart_free bc req pod ip :
  address_apart bc req (inl pod) ip → k_PodIP pod = ip → ip_free (podIndex bc) req ip.
Proof. intros Ha Hip. apply ip_free_raw. intros nn p Hp Hpip. by eapply Ha. Qed.

(** *** Effects on the entries *)
Lemma cacheAfterPod_moved bc req info :
  cacheAfterPod bc req info =
  RecalculatePod (with_pods (moved bc req (podCopy info)) (PodIndex.Upsert (podIndex bc) req info)) req.
Proof. done. Qed.

Lemma HoldsAt_cacheAfterPod strict bc req info ip :
  ip ≠ "" → sole (podIndex bc) ip → (pod_IP info = ip → ip_free (podIndex bc) req ip) →
  HoldsAt strict bc ip → HoldsAt strict (cacheAfterPod bc req info) ip.
Proof.
  intros Hne Hu Hfree Hh. rewrite cacheAfterPod_moved.
  apply (HoldsAt_pod_upsert strict bc (PodIndex.Upsert (podIndex bc) req info) req (podCopy info)); try done.
  - by apply sole_Upsert.
  - intros nn'. simpl. apply Get_Upsert.
Qed.

Lemma NoStale_cacheAfterPod bc req info : NoStale bc → NoStale (cacheAfterPod bc req info).
Proof.
  intros Hns. rewrite cacheAfterPod_moved.
  apply (NoStale_pod_upsert bc (PodIndex.Upsert (podIndex bc) req info) req (podCopy info)); [done|].
  intros nn'. simpl. apply Get_Upsert.
Qed.

Lemma cacheAfterPodGone_removed bc req :
  cacheAfterPodGone bc req = with_pods (removed bc req) (PodIndex.Delete (podIndex bc) req).
Proof. done. Qed.

Lemma HoldsAt_cacheAfterPodGone strict bc req ip :
  sole (podIndex bc) ip → HoldsAt strict bc ip → HoldsAt strict (cacheAfterPodGone bc req) ip.
Proof.
  intros Hu Hh. rewrite cacheAfterPodGone_removed. apply (HoldsAt_pod_delete strict bc (PodIndex.Delete (podIndex bc) req) req); [done..|].
  intros nn'. simpl. apply Get_Delete.
Qed.

Lemma NoStale_cacheAfterPodGone bc req : NoStale bc → NoStale (cacheAfterPodGone bc req).
Proof.
  intros Hns. rewrite cacheAfterPodGone_removed. apply (NoStale_pod_delete bc (PodIndex.Delete (podIndex bc) req) req); [done|].
  intros nn'. simpl. apply Get_Delete.
Qed.

Lemma sole_PodReconcile a bc req ip :
  sole (podIndex bc) ip → address_apart bc req (pod_client_Get a req) ip →
  sole (podIndex (Reconcile a bc req).1) ip.
Proof.
  intros Hu Hav. rewrite Reconcile_cases. destruct (pod_client_Get a req) as [pod|err].
  - destruct (str_empty (k_PodIP pod)); [done|]. simpl.
    destruct (podIndex_cacheAfterPod bc req (infoOf pod)) as [-> _].
    apply sole_Upsert; [done|]. by apply address_apart_free.
  - destruct (IsNotFound err); [|done]. by apply sole_Delete.
Qed.

Lemma HoldsAt_PodReconcile strict a bc req ip :
  ip ≠ "" → sole (podIndex bc) ip → address_apart bc req (pod_client_Get a req) ip →
  HoldsAt strict bc ip → HoldsAt strict (Reconcile a bc req).1 ip.
Proof.
  intros Hne Hu Hav Hh. rewrite Reconcile_cases. destruct (pod_client_Get a req) as [pod|err].
  - destruct (str_empty (k_PodIP pod)); [done|]. apply HoldsAt_cacheAfterPod; [done..| |done].
    by apply address_apart_free.
  - destruct (IsNotFound err); [|done]. by apply HoldsAt_cacheAfterPodGone.
Qed.

Lemma NoStale_PodReconcile a bc req : NoStale bc → NoStale (Reconcile a bc req).1.
Proof.
  intros Hns. rewrite Reconcile_cases.
  repeat case_match; simpl; auto using NoStale_cacheAfterPod, NoStale_cacheAfterPodGone.
Qed.

Lemma entries_keyed_PodReconcile a bc req : entries_keyed bc → entries_keyed (Reconcile a bc req).1.
Proof.
  intros Hk. rewrite Reconcile_cases. repeat case_match; simpl; try done.
  - unfold cacheAfterPod. apply entries_keyed_RecalculatePod. repeat case_match; by try apply entries_keyed_RemovePod.
  - unfold cacheAfterPodGone, removeExisting. case_match; by try apply entries_keyed_RemovePod.
Qed.

Lemma cacheAfterPod_normal bc req i1 i2 :
  normal i1 = normal i2 → cacheAfterPod bc req i1 = cacheAfterPod bc req i2.
Proof.
  intros Hn. assert (pod_IP i1 = pod_IP i2) as Hip by (unfold normal in Hn; congruence).
  unfold cacheAfterPod. rewrite Hip. do 2 f_equal.
  unfold PodIndex.Upsert. by rewrite !podCopy_normal, Hn, Hip.
Qed.
End Reconcile.

(** ** Properties *)
Section Properties.
Context `{RO : RangeOrder} `{AM : ApiMachinery} {A : Type} `{PC : PodClient A}.
Implicit Types (bc : BlocklistCache PodIndex PolicyIndex) (pod : Pod) (a : A).

(** C4: reconciling a pod keeps what is served for an address. For an address that at
    most one indexed pod has, and that is not the reported address of another pod than
    that one, every branch of [Reconcile] (pod gone, without address, new, relabelled,
    readdressed, or an API error) keeps the entry complete, keeps it exact, and leaves
    at most one indexed pod with the address. Whatever the addresses, no entry is left
    behind for an address of no indexed pod. *)
Theorem pod_reconcile_coherent a bc req ip :
  ip ≠ "" → sole (podIndex bc) ip → address_apart bc req (pod_client_Get a req) ip →
  let bc' := (Reconcile a bc req).1 in
  sole (podIndex bc') ip ∧
  (complete_at bc ip → complete_at bc' ip) ∧ (exact_at bc ip → exact_at bc' ip) ∧
  (NoStale bc → NoStale bc').
Proof.
  intros Hne Hu Hav bc'. split_and!.
  - by apply sole_PodReconcile.
  - by apply HoldsAt_PodReconcile.
  - by apply HoldsAt_PodReconcile.
  - apply NoStale_PodReconcile.
Qed.

(** C22: the event filter loses nothing. When an update of a pod is filtered out,
    reconciling the pod as it is now would do exactly what reconciling it as it
    was before did: the two runs return the same cache and the same error. *)
Theorem filtered_update_is_irrelevant (a1 a2 : A) bc old new :
  pod_client_Get a1 (PodNamespacedName old) = inl old →
  pod_client_Get a2 (PodNamespacedName old) = inl new →
  podEventFilter (UpdateEvent (ObjPod old) (ObjPod new)) = false →
  Reconcile a2 bc (PodNamespacedName old) = Reconcile a1 bc (PodNamespacedName old).
Proof.
  intros H1 H2 Hf. simpl in Hf. rewrite !Reconcile_cases, H1, H2.
  apply orb_false_iff in Hf as [[_ Hip]%orb_false_iff Hlab].
  reflect_bools. apply labelsEqual_contents in Hlab.
  assert (k_PodIP old = k_PodIP new) as Hip'
    by (by destruct (decide (k_PodIP old = k_PodIP new))).
  rewrite Hip'. destruct (str_empty (k_PodIP new)); [done|]. f_equal. apply cacheAfterPod_normal.
  apply pod_client_Get_key in H2. unfold PodNamespacedName in H2. injection H2 as Hns Hname.
  unfold normal, infoOf; simpl. by rewrite Hlab, Hip', Hns, Hname.
Qed.

(** A pod that stops running stays indexed. Reconciling a pod that has an
    address gives the same result in every phase; in particular a pod that has
    succeeded or failed is indexed and served like a running one, and the branch
    that would remove it is never taken. *)
Theorem phase_is_ignored (a1 a2 : A) bc pod phase :
  pod_client_Get a1 (PodNamespacedName pod) = inl pod →
  pod_client_Get a2 (PodNamespacedName pod) =
    inl (mkPod (k_Namespace pod) (k_Name pod) (k_Labels pod) (k_PodIP pod) phase) →
  k_PodIP pod ≠ "" →
  Reconcile a2 bc (PodNamespacedName pod) = Reconcile a1 bc (PodNamespacedName pod) ∧
  is_Some (PodIndex.Get (podIndex (Reconcile a2 bc (PodNamespacedName pod)).1) (PodNamespacedName pod)).
Proof.
  intros H1 H2 Hne. rewrite !Reconcile_cases, H1, H2; simpl.
  rewrite (proj2 (str_empty_false _)) by done. split; [done|]; simpl.
  match goal with |- context [cacheAfterPod bc ?r ?i] =>
    destruct (podIndex_cacheAfterPod bc r i) as [-> _] end.
  rewrite Get_Upsert, decide_True by done. by eexists.
Qed.

(** C23: deleting a pod whose address was reused removes the entry of its
    successor. When pods [x] and [y] are indexed with the same address and [x] is
    found gone, [y] stays indexed but the cache has no entry for its address any
    more, whatever the policies block for it. *)
Theorem address_reuse_unblocks a bc x y px py err :
  pod_client_Get a x = inr err → IsNotFound err = true →
  x ≠ y → PodIndex.Get (podIndex bc) x = Some px → PodIndex.Get (podIndex bc) y = Some py →
  pod_IP px = pod_IP py →
  let bc' := (Reconcile a bc x).1 in
  PodIndex.Get (podIndex bc') y = Some py ∧ entries bc' !! pod_IP py = None.
Proof.
  intros Hget Hnf Hxy Hx Hy Hip bc'. unfold bc'.
  rewrite Reconcile_cases, Hget, Hnf; simpl. split.
  - by rewrite Get_Delete, decide_False.
  - unfold removeExisting. rewrite Hx; simpl. by rewrite Hip, lookup_delete_eq.
Qed.

(** A pod that loses its address stays served under the old one. When an
    indexed pod is reconciled without an address, nothing changes: it stays indexed
    as it was, and every domain blocked for its labels is still served for the
    address it no longer has. *)
Theorem addressless_pod_skipped a bc pod p d :
  Coherent bc →
  pod_client_Get a (PodNamespacedName pod) = inl pod → k_PodIP pod = "" →
  PodIndex.Get (podIndex bc) (PodNamespacedName pod) = Some p → pod_IP p ≠ "" →
  Blocked (policyIndex bc) (pod_Labels p) d →
  let r := Reconcile a bc (PodNamespacedName pod) in
  r.2 = None ∧ PodIndex.Get (podIndex r.1) (PodNamespacedName pod) = Some p ∧
  ∃ e, e ∈ GetBlocklist r.1 ∧ entry_IP e = pod_IP p ∧ d ∈ entry_Domains e.
Proof.
  intros Hc Hget He Hp Hne Hb. rewrite Reconcile_cases, Hget, He. simpl. split_and!; [done..|].
  apply (GetBlocklist_Blocked bc (pod_IP p) d Hc). split; [done|]. by exists (PodNamespacedName pod), p.
Qed.

(** The creation filter is exactly the documented one, and the update filter
    lets through precisely the changes it lists. *)
Theorem pod_event_filter_spec old new :
  (podEventFilter (CreateEvent (ObjPod new)) = true ↔ k_PodIP new ≠ "" ∧ k_Phase new = PodRunning) ∧
  (podEventFilter (UpdateEvent (ObjPod old) (ObjPod new)) = true ↔
    (k_Phase old = PodRunning ↔ k_Phase new ≠ PodRunning) ∨
    k_PodIP old ≠ k_PodIP new ∨ contents (k_Labels old) ≠ contents (k_Labels new)) ∧
  podEventFilter (DeleteEvent (ObjPod old)) = true ∧
  podEventFilter (GenericEvent (ObjPod old)) = false.
Proof.
  split_and!; try done; simpl.
  - rewrite andb_true_iff, negb_true_iff, str_empty_false, bool_decide_eq_true. done.
  - rewrite !orb_true_iff, !andb_true_iff, !bool_decide_eq_true, negb_true_iff.
    rewrite <- not_true_iff_false, labelsEqual_contents.
    destruct (decide (k_Phase old = PodRunning)), (decide (k_Phase new = PodRunning)); naive_solver.
Qed.
End Properties.
