(* ===== verification/System.v ===== *)
(** * The controller as a whole

    The two reconcilers sharing one cache, as a transition system: each step is
    one reconciliation, run to completion with its own map iteration orders, or a
    change of the cluster behind the API server. The steps are those of the code, without
    restriction; what is known of a state depends on the run that led to it, which
    [reachable] takes as a condition on what the reconcilers read. *)

From S2P Require Import Prelude Types Selectors Stores Client.
From S2P Require Import PodIndex PolicyIndex BlocklistCache PolicyReconciler PodReconciler.

(** ** Independence of the map iteration order *)
Section Order.
Context `{AM : ApiMachinery} (o1 o2 : RangeOrder).

Lemma podCopy_order info : podCopy (RO:=o1) info = podCopy (RO:=o2) info.
Proof. by rewrite !podCopy_normal. Qed.

Lemma PodGet_order pi nn : PodIndex.Get (RO:=o1) pi nn = PodIndex.Get (RO:=o2) pi nn.
Proof. unfold PodIndex.Get. case_match; [|done]. by rewrite podCopy_order. Qed.

Lemma PodUpsert_order pi nn info :
  PodIndex.Upsert (RO:=o1) pi nn info = PodIndex.Upsert (RO:=o2) pi nn info.
Proof. unfold PodIndex.Upsert. by rewrite podCopy_order. Qed.

Lemma PolicyUpsert_order pl p :
  PolicyIndex.Upsert (RO:=o1) pl p = PolicyIndex.Upsert (RO:=o2) pl p.
Proof. unfold PolicyIndex.Upsert. by rewrite !DnsPolicy_DeepCopyInto_value. Qed.

Lemma sole_order pi ip :
  @sole _ (PodIndex_store (H:=o1)) pi ip → @sole _ (PodIndex_store (H:=o2)) pi ip.
Proof. intros Hu n1 n2 p1 p2; simpl. rewrite <- !PodGet_order. apply Hu. Qed.

Lemma Blocked_order pl labels d :
  @Blocked _ (PolicyIndex_store (H:=o1)) pl labels d ↔
  @Blocked _ (PolicyIndex_store (H:=o2)) pl labels d.
Proof. by rewrite !Blocked_lookup. Qed.

Lemma wantEntry_order pl pod :
  @wantEntry _ (PolicyIndex_store (H:=o1)) pl pod = @wantEntry _ (PolicyIndex_store (H:=o2)) pl pod.
Proof.
  unfold wantEntry, wantDomains. do 3 f_equal. apply set_eq. intros d.
  by rewrite !elem_of_blockedSet, Blocked_order.
Qed.

Lemma HoldsAt_order strict (bc : Cache) ip :
  @HoldsAt _ _ (PodIndex_store (H:=o1)) (PolicyIndex_store (H:=o1)) strict bc ip →
  @HoldsAt _ _ (PodIndex_store (H:=o2)) (PolicyIndex_store (H:=o2)) strict bc ip.
Proof.
  intros Hh nn pod; simpl. rewrite <- PodGet_order. intros Hget Hip.
  destruct (Hh nn pod Hget Hip) as (e & He & Hf). exists e. split; [done|]. destruct strict; simpl in *.
  - by rewrite <- wantEntry_order.
  - by setoid_rewrite <- Blocked_order.
Qed.

Lemma NoStale_order (bc : Cache) :
  @NoStale _ _ (PodIndex_store (H:=o1)) bc → @NoStale _ _ (PodIndex_store (H:=o2)) bc.
Proof.
  intros Hns ip e He. destruct (Hns _ _ He) as (Hne & nn & pod & Hpod & Hip).
  split; [done|]. exists nn, pod. split; [|done]. simpl in *. by rewrite <- PodGet_order.
Qed.

(** Recalculating the same pods in another order gives the same entry for an address,
    when it is the address of one pod. *)
Lemma recalculate_list_order (bc : Cache) ps1 ps2 ip :
  (∀ p, pod_IP p = ip → p ∈ ps1 ↔ p ∈ ps2) →
  (∀ p q, p ∈ ps1 → q ∈ ps1 → pod_IP p = ip → pod_IP q = ip → p = q) →
  entries (foldl (recalculatePodInternal (RO:=o1) (PL:=PolicyIndex_store (H:=o1))) bc ps1) !! ip =
  entries (foldl (recalculatePodInternal (RO:=o2) (PL:=PolicyIndex_store (H:=o2))) bc ps2) !! ip.
Proof.
  intros Hmem Hinj.
  destruct (decide (Exists (λ p, pod_IP p = ip ∧ ip ≠ "") ps1)) as [Hex|Hnex].
  - apply Exists_exists in Hex as (p & Hp & <- & Hne).
    rewrite recalculate_list_member by (try done; intros q Hq Hip; by apply Hinj).
    rewrite recalculate_list_member; [by rewrite wantEntry_order|by apply Hmem|done|].
    intros q Hq Hip. apply Hmem in Hq; [|done]. by apply Hinj.
  - assert (∀ p, p ∈ ps1 → pod_IP p = ip → ip = "") as Hnone.
    { intros p Hp Hip. destruct (decide (ip = "")); [done|].
      destruct Hnex. apply Exists_exists. eauto. }
    rewrite !recalculate_list_other; [done| |done].
    intros p Hp Hip. apply (Hnone p); [by apply Hmem|done].
Qed.

Lemma GetPodsMatchingSelector_order pi sel p :
  p ∈ PodIndex.GetPodsMatchingSelector (RO:=o1) pi sel ↔
  p ∈ PodIndex.GetPodsMatchingSelector (RO:=o2) pi sel.
Proof.
  rewrite !elem_of_GetPodsMatchingSelector. by setoid_rewrite PodGet_order.
Qed.

(** The pods of a store at an address of one pod. *)
Lemma stored_inj pi ip p q :
  @sole _ (PodIndex_store (H:=o1)) pi ip →
  (∃ nn, PodIndex.Get (RO:=o1) pi nn = Some p) → (∃ nn, PodIndex.Get (RO:=o1) pi nn = Some q) →
  pod_IP p = ip → pod_IP q = ip → p = q.
Proof.
  intros Hu [n1 Hp] [n2 Hq] Hip Hiq. assert (n1 = n2) as -> by (by eapply Hu). congruence.
Qed.

Abbreviation store1 := (PodIndex_store (H:=o1)).
Abbreviation store2 := (PodIndex_store (H:=o2)).
Abbreviation pols1 := (PolicyIndex_store (H:=o1)).
Abbreviation pols2 := (PolicyIndex_store (H:=o2)).

Lemma RecalculateForPolicy_order (bc : Cache) sel ip :
  @sole _ store1 (podIndex bc) ip →
  entries (RecalculateForPolicy (RO:=o1) (PS:=store1) (PL:=pols1) bc sel) !! ip =
  entries (RecalculateForPolicy (RO:=o2) (PS:=store2) (PL:=pols2) bc sel) !! ip.
Proof.
  intros Hu. unfold RecalculateForPolicy. case_bool_decide; [done|].
  apply recalculate_list_order; [intros; apply GetPodsMatchingSelector_order|].
  intros p q [Hp _]%elem_of_GetPodsMatchingSelector [Hq _]%elem_of_GetPodsMatchingSelector.
  by apply (stored_inj (podIndex bc)).
Qed.

Lemma RecalculatePod_order (bc : Cache) nn :
  RecalculatePod (RO:=o1) (PS:=store1) (PL:=pols1) bc nn =
  RecalculatePod (RO:=o2) (PS:=store2) (PL:=pols2) bc nn.
Proof.
  unfold RecalculatePod. simpl. rewrite PodGet_order. case_match; [|done].
  rewrite !recalculate_wantEntry. by rewrite wantEntry_order.
Qed.
End Order.

Section Affected.
Context `{AM : ApiMachinery} (o1 o2 : RangeOrder).

(** The affected pod with an address, in either order. *)
Lemma affectedBy_order (bc : Cache) old new p :
  @sole _ (PodIndex_store (H:=o1)) (podIndex bc) (pod_IP p) →
  p ∈ (range (RangeOrder:=o1) (affectedBy (PS:=PodIndex_store (H:=o1)) bc old new)).*2 →
  p ∈ (range (RangeOrder:=o2) (affectedBy (PS:=PodIndex_store (H:=o2)) bc old new)).*2.
Proof.
  intros Hu [ip Hip]%elem_of_range_snd. apply elem_of_range_snd.
  pose proof (affectedBy_source _ _ _ _ _ Hip) as [nn Hget].
  exists (pod_IP p). eapply (affectedBy_member (PS:=PodIndex_store (H:=o2))).
  - exact (sole_order o1 o2 _ _ Hu).
  - simpl in *. by rewrite <- (PodGet_order o1 o2).
  - by eapply affectedBy_selects.
Qed.
End Affected.

Section Irrelevance.
Context `{AM : ApiMachinery} (o1 o2 : RangeOrder).

Lemma RecalculateForPolicyChange_order (bc : Cache) old new ip :
  @sole _ (PodIndex_store (H:=o1)) (podIndex bc) ip →
  entries (RecalculateForPolicyChange (RO:=o1) (PS:=PodIndex_store (H:=o1)) (PL:=PolicyIndex_store (H:=o1)) bc old new) !! ip =
  entries (RecalculateForPolicyChange (RO:=o2) (PS:=PodIndex_store (H:=o2)) (PL:=PolicyIndex_store (H:=o2)) bc old new) !! ip.
Proof.
  intros Hu. rewrite !RecalculateForPolicyChange_list. apply recalculate_list_order.
  - intros p <-. split; apply affectedBy_order; [done|]. exact (sole_order o1 o2 _ _ Hu).
  - intros p q [ip1 Hp]%elem_of_range_snd [ip2 Hq]%elem_of_range_snd.
    apply affectedBy_source in Hp, Hq. by apply (stored_inj o1 (podIndex bc)).
Qed.

Lemma cacheAfterRemoval_order (bc : Cache) req sel ip :
  @sole _ (PodIndex_store (H:=o1)) (podIndex bc) ip →
  entries (cacheAfterRemoval (RO:=o1) bc req sel) !! ip = entries (cacheAfterRemoval (RO:=o2) bc req sel) !! ip.
Proof.
  intros Hu. unfold cacheAfterRemoval. case_bool_decide; [|done].
  by apply RecalculateForPolicy_order.
Qed.

Lemma cacheAfterUpsert_order (bc : Cache) policy ip :
  @sole _ (PodIndex_store (H:=o1)) (podIndex bc) ip →
  entries (cacheAfterUpsert (RO:=o1) bc policy) !! ip = entries (cacheAfterUpsert (RO:=o2) bc policy) !! ip.
Proof.
  intros Hu. unfold cacheAfterUpsert. rewrite (PolicyUpsert_order o1 o2).
  destruct (PolicyIndex.Upsert _ policy) as [idx old].
  assert (∀ a b, selectorsEqual (H:=o1) a b = selectorsEqual (H:=o2) a b) as ->.
  { intros a b. apply eq_true_iff_eq. by rewrite !selectorsEqual_contents. }
  case_match; [by apply RecalculateForPolicyChange_order|by apply RecalculateForPolicy_order].
Qed.

(** What a policy reconciliation does besides the entries does not depend on the order
    at all. *)
Lemma Reconcile_rest_order {A} `{PolicyClient A} now (st : RState A) req :
  let r1 := PolicyReconciler.Reconcile (RO:=o1) now st req in
  let r2 := PolicyReconciler.Reconcile (RO:=o2) now st req in
  st_api r1.1 = st_api r2.1 ∧ st_events r1.1 = st_events r2.1 ∧ r1.2 = r2.2 ∧
  podIndex (st_cache r1.1) = podIndex (st_cache r2.1) ∧
  policyIndex (st_cache r1.1) = policyIndex (st_cache r2.1).
Proof.
  intros r1 r2.
  destruct (Reconcile_indexes (RO:=o1) now st req) as [Hp1 Hl1], (Reconcile_indexes (RO:=o2) now st req) as [Hp2 Hl2].
  fold r1 in Hp1, Hl1. fold r2 in Hp2, Hl2.
  assert (policyIndex (st_cache r1.1) = policyIndex (st_cache r2.1)) as ->.
  { destruct (policyIndex (st_cache r1.1)), (policyIndex (st_cache r2.1)). simpl in *. congruence. }
  rewrite Hp1, Hp2. clear Hp1 Hl1 Hp2 Hl2. split_and!; try done; unfold r1, r2;
  unfold PolicyReconciler.Reconcile, reconcileNotFound, reconcileDeletion,
    reconcileAddFinalizer, reconcileValid;
  destruct (client_Get (st_api st) req); rewrite ?(PolicyUpsert_order o1 o2);
  repeat (case_match; simplify_eq/=); done.
Qed.

Lemma Reconcile_entries_order {A} `{PolicyClient A} now (st : RState A) req ip :
  @sole _ (PodIndex_store (H:=o1)) (podIndex (st_cache st)) ip →
  entries (st_cache (PolicyReconciler.Reconcile (RO:=o1) now st req).1) !! ip =
  entries (st_cache (PolicyReconciler.Reconcile (RO:=o2) now st req).1) !! ip.
Proof.
  intros Hu. unfold PolicyReconciler.Reconcile. repeat case_match; simpl;
    rewrite ?reconcileDeletion_cache, ?reconcileAddFinalizer_cache,
      ?reconcileValid_cache, ?reconcileNotFound_cache;
    auto using cacheAfterRemoval_order, cacheAfterUpsert_order.
Qed.

Lemma cacheAfterPod_order (bc : Cache) req info :
  cacheAfterPod (RO:=o1) bc req info = cacheAfterPod (RO:=o2) bc req info.
Proof.
  unfold cacheAfterPod. rewrite (PodGet_order o1 o2), (PodUpsert_order o1 o2).
  apply RecalculatePod_order.
Qed.

Lemma PodReconcile_order {B} `{PodClient B} (b : B) (bc : Cache) req :
  PodReconciler.Reconcile (RO:=o1) b bc req = PodReconciler.Reconcile (RO:=o2) b bc req.
Proof.
  rewrite !(Reconcile_cases (A:=B)). repeat case_match; try done.
  - by rewrite cacheAfterPod_order.
  - unfold cacheAfterPodGone, removeExisting. by rewrite (PodGet_order o1 o2).
Qed.
End Irrelevance.

(** ** Conditions on runs *)

(** What a reconciliation reads of its object. *)
Inductive Read :=
  | ReadPolicy (req : NamespacedName) (r : DnsPolicy + goerror)
  | ReadPod (req : NamespacedName) (r : Pod + goerror).

(** A condition on a run: the cache when the object is read, and the answer. *)
Definition RunCondition : Type := Cache → Read → Prop.

Definition anything : RunCondition := λ _ _, True.

(** No pod is reconciled with the address while another indexed pod has it. *)
Definition one_pod (ip : string) : RunCondition := λ bc rd,
  match rd with ReadPod req r => address_apart bc req r ip | ReadPolicy _ _ => True end.

(** No policy is reconciled for deletion that, since it was indexed, was edited so that
    it does not select the pod with the address any more. *)
Definition unedited `{AM : ApiMachinery} (ip : string) : RunCondition := λ bc rd,
  match rd with ReadPolicy req r => deletion_covers bc req r ip | ReadPod _ _ => True end.

Definition undisturbed `{AM : ApiMachinery} (ip : string) : RunCondition := λ bc rd,
  one_pod ip bc rd ∧ unedited ip bc rd.

(** The same for every address at once. *)
Definition undisturbing `{AM : ApiMachinery} : RunCondition := λ bc rd, ∀ ip, undisturbed ip bc rd.

Lemma undisturbing_gone `{AM : ApiMachinery} bc req err : undisturbing bc (ReadPod req (inr err)).
Proof. by intros ip; split; [intros pod|]. Qed.

Lemma undisturbing_live `{AM : ApiMachinery} bc req policy :
  Time_IsZero (om_DeletionTimestamp (p_ObjectMeta policy)) = true →
  undisturbing bc (ReadPolicy req (inl policy)).
Proof. intros Htz ip. split; [done|]. intros p q nn i [= <-]. congruence. Qed.

Lemma undisturbing_pod `{AM : ApiMachinery} bc req pod :
  (∀ nn p, pods (podIndex bc) !! nn = Some p → pod_IP p = k_PodIP pod → nn = req) →
  undisturbing bc (ReadPod req (inl pod)).
Proof. intros Hfree ip. split; [|done]. intros p nn i [= <-] <-. apply Hfree. Qed.

(** What completeness and exactness of an entry ask of the run. *)
Definition condition_of `{AM : ApiMachinery} (strict : bool) (ip : string) : RunCondition :=
  if strict then undisturbed ip else one_pod ip.

Lemma condition_of_one_pod `{AM : ApiMachinery} strict ip bc rd : condition_of strict ip bc rd → one_pod ip bc rd.
Proof. destruct strict; [by intros [? _]|done]. Qed.

Lemma condition_of_unedited `{AM : ApiMachinery} strict ip bc req r :
  condition_of strict ip bc (ReadPolicy req r) → strict = true → deletion_covers bc req r ip.
Proof. intros Hc ->. apply Hc. Qed.

(** ** The transition system *)
Section System.
Context `{AM : ApiMachinery} {A B : Type} `{PolicyClient A} `{PodClient B}.

(** The cluster behind the client for pods, and the state of the policy
    reconciler, whose cache the pod reconciler shares. *)
Record World := mkWorld {
  w_pods : B;
  w_state : RState A;
}.
Definition w_cache (w : World) := st_cache (w_state w).

Definition init (b : B) (a : A) : World :=
  mkWorld b (mkRState a (NewBlocklistCache NewPodIndex NewPolicyIndex) []).

Definition policy_step (RO : RangeOrder) (now : Time) (w : World) (req : NamespacedName) : World :=
  mkWorld (w_pods w) (PolicyReconciler.Reconcile now (w_state w) req).1.

Definition pod_step (RO : RangeOrder) (w : World) (req : NamespacedName) : World :=
  mkWorld (w_pods w)
    (set_cache (w_state w) (PodReconciler.Reconcile (w_pods w) (w_cache w) req).1).

(** A step: a reconciliation, or any change of the cluster. *)
Inductive SysEvent :=
  | EvPolicy (RO : RangeOrder) (now : Time) (req : NamespacedName)
  | EvPod (RO : RangeOrder) (req : NamespacedName)
  | EvCluster (a : A) (b : B).

Definition next (w : World) (ev : SysEvent) : World :=
  match ev with
  | EvPolicy RO now req => policy_step RO now w req
  | EvPod RO req => pod_step RO w req
  | EvCluster a b => mkWorld b (set_api (w_state w) a)
  end.

Definition read_by (w : World) (ev : SysEvent) : option Read :=
  match ev with
  | EvPolicy _ _ req => Some (ReadPolicy req (client_Get (st_api (w_state w)) req))
  | EvPod _ req => Some (ReadPod req (pod_client_Get (w_pods w) req))
  | EvCluster _ _ => None
  end.

(** The states reachable from a start of the controller by runs that meet the condition. *)
Inductive reachable (ok : RunCondition) : World → Prop :=
  | reachable_init b a : reachable ok (init b a)
  | reachable_step w ev :
      reachable ok w → (∀ rd, read_by w ev = Some rd → ok (w_cache w) rd) → reachable ok (next w ev).

Lemma reachable_mono (ok1 ok2 : RunCondition) w :
  (∀ bc rd, ok1 bc rd → ok2 bc rd) → reachable ok1 w → reachable ok2 w.
Proof. intros Hok. induction 1 as [|w ev _ IH Hr]; constructor; [done|]. intros rd Hrd. by apply Hok, Hr. Qed.

(** *** What holds after every run *)
Record inv (w : World) : Prop := {
  inv_stale : @NoStale _ _ (PodIndex_store (H:=order_fwd)) (w_cache w);
  inv_keyed : entries_keyed (w_cache w);
  inv_pods : PodIndex.wf (podIndex (w_cache w));
  inv_policies : index_valid (policies (policyIndex (w_cache w)));
}.

Lemma inv_init b a : inv (init b a).
Proof.
  split; simpl.
  - intros ip e. simpl. by rewrite lookup_empty.
  - intros ip e. simpl. by rewrite lookup_empty.
  - apply wf_NewPodIndex.
  - intros nn p. simpl. by rewrite lookup_empty.
Qed.

Lemma inv_pod_step RO w req : inv w → inv (pod_step RO w req).
Proof.
  intros [Hns Hk Hwf Hv]. split; unfold w_cache; simpl.
  - exact (NoStale_order _ _ _ (NoStale_PodReconcile (RO:=RO) (w_pods w) (w_cache w) req (NoStale_order _ _ _ Hns))).
  - by apply entries_keyed_PodReconcile.
  - rewrite Reconcile_cases. repeat case_match; simpl; try done.
    + match goal with |- context [cacheAfterPod ?b ?r ?i] =>
        destruct (podIndex_cacheAfterPod b r i) as [-> _] end. by apply wf_Upsert.
    + by apply wf_Delete.
  - rewrite Reconcile_cases. repeat case_match; simpl; try done.
    + match goal with |- context [cacheAfterPod ?b ?r ?i] =>
        destruct (podIndex_cacheAfterPod b r i) as [_ ->] end. done.
    + unfold removeExisting. by case_match.
Qed.

Lemma inv_policy_step RO now w req : inv w → inv (policy_step RO now w req).
Proof.
  intros [Hns Hk Hwf Hv].
  destruct (Reconcile_indexes (RO:=RO) now (w_state w) req) as [Hpods _].
  split; unfold w_cache; simpl.
  - exact (NoStale_order _ _ _ (NoStale_Reconcile (RO:=RO) now (w_state w) req (NoStale_order _ _ _ Hns))).
  - by apply entries_keyed_Reconcile.
  - by rewrite Hpods.
  - by apply index_valid_Reconcile.
Qed.

Lemma inv_reachable ok w : reachable ok w → inv w.
Proof.
  induction 1 as [b a|w ev _ IH _]; [apply inv_init|].
  destruct ev; simpl; [by apply inv_policy_step|by apply inv_pod_step|]. by destruct IH.
Qed.

(** *** What holds for an address, by the condition on the run *)
Lemma reachable_at strict ip w :
  ip ≠ "" → reachable (condition_of strict ip) w →
  @sole _ (PodIndex_store (H:=order_fwd)) (podIndex (w_cache w)) ip ∧
  @HoldsAt _ _ (PodIndex_store (H:=order_fwd)) (PolicyIndex_store (H:=order_fwd)) strict (w_cache w) ip.
Proof.
  intros Hne. induction 1 as [b a|w ev _ [Hu Hh] Hok].
  { split; [intros n1 n2 p1 p2 Hget; discriminate Hget|]. intros nn pod Hget. discriminate Hget. }
  destruct ev as [RO now req|RO req|a b]; simpl in *; [| |done].
  - specialize (Hok _ eq_refl).
    destruct (Reconcile_indexes (RO:=RO) now (w_state w) req) as [Hpods _].
    split; unfold w_cache; simpl; [by rewrite Hpods|].
    apply (HoldsAt_order RO order_fwd), HoldsAt_Reconcile; [done|exact (sole_order _ _ _ _ Hu)
      |exact (HoldsAt_order _ _ _ _ _ Hh)|]. by apply condition_of_unedited.
  - specialize (Hok _ eq_refl). apply condition_of_one_pod in Hok. split; unfold w_cache; simpl.
    + apply (sole_order RO order_fwd), sole_PodReconcile; [exact (sole_order _ _ _ _ Hu)|exact Hok].
    + apply (HoldsAt_order RO order_fwd), HoldsAt_PodReconcile; [done|exact (sole_order _ _ _ _ Hu)|exact Hok|].
      exact (HoldsAt_order _ _ _ _ _ Hh).
Qed.

(** A run that disturbs no address leaves a coherent cache. *)
Lemma reachable_coherent w :
  reachable undisturbing w →
  @Coherent _ _ (PodIndex_store (H:=order_fwd)) (PolicyIndex_store (H:=order_fwd)) (w_cache w) ∧
  @ips_unique _ (PodIndex_store (H:=order_fwd)) (podIndex (w_cache w)).
Proof.
  intros Hw. assert (∀ ip, reachable (condition_of true ip) w) as Hat.
  { intros ip. eapply reachable_mono; [|exact Hw]. intros bc rd Hok. exact (Hok ip). }
  split.
  - apply Coherent_exact. split; [|by apply (inv_stale _ (inv_reachable _ _ Hw))].
    intros ip Hne. by apply (reachable_at true ip w).
  - apply ips_unique_sole. intros ip Hne. by apply (reachable_at true ip w).
Qed.
End System.
Arguments World : clear implicits.
Arguments SysEvent : clear implicits.

(** ** Properties *)

(** An indexed pod has the address, and an indexed policy that selects it lists the
    domain. *)
Definition wanted (bc : Cache) (ip d : string) : Prop :=
  ∃ nn pod pn policy,
    pods (podIndex bc) !! nn = Some pod ∧ pod_IP pod = ip ∧
    policies (policyIndex bc) !! pn = Some policy ∧
    Selects (policy_selector policy) (pod_Labels pod) ∧
    d ∈ elems (BlockList (p_Spec policy)).

Section Properties.
Context `{AM : ApiMachinery} {A B : Type} `{PolicyClient A} `{PodClient B}.

Lemma wanted_Blocked (RO : RangeOrder) (bc : Cache) ip d :
  PodIndex.wf (podIndex bc) →
  wanted bc ip d ↔ ∃ nn pod, PodIndex.Get (podIndex bc) nn = Some pod ∧ pod_IP pod = ip ∧
    Blocked (policyIndex bc) (pod_Labels pod) d.
Proof.
  intros Hwf. unfold wanted. setoid_rewrite Blocked_lookup.
  setoid_rewrite (λ nn, Get_wf _ nn Hwf). naive_solver.
Qed.

(** What the controller serves after a run, in three steps. *)
Lemma serves_indexed (RO : RangeOrder) (w : World A B) ok ip d :
  reachable ok w → serves (w_cache w) ip d →
  ip ≠ "" ∧ ∃ nn pod, pods (podIndex (w_cache w)) !! nn = Some pod ∧ pod_IP pod = ip.
Proof.
  intros [Hns Hk Hwf _]%inv_reachable Hs.
  destruct (serves_NoStale _ ip d Hk (NoStale_order order_fwd RO _ Hns) Hs) as (Hne & nn & pod & Hget & Hip).
  simpl in Hget. rewrite (Get_wf _ nn Hwf) in Hget. eauto.
Qed.

Lemma serves_complete (RO : RangeOrder) (w : World A B) ip d :
  reachable (one_pod ip) w → ip ≠ "" → wanted (w_cache w) ip d → serves (w_cache w) ip d.
Proof.
  intros Hw Hne Hwant. destruct (inv_reachable _ _ Hw) as [_ Hk Hwf _].
  destruct (reachable_at false ip w Hne Hw) as [_ Hc].
  apply (wanted_Blocked RO) in Hwant as (nn & pod & Hget & Hip & Hb); [|done].
  eapply complete_at_serves; [done|exact (HoldsAt_order order_fwd RO _ _ _ Hc)|done..].
Qed.

Lemma serves_exact (RO : RangeOrder) (w : World A B) ip d :
  reachable (undisturbed ip) w → ip ≠ "" → serves (w_cache w) ip d ↔ wanted (w_cache w) ip d.
Proof.
  intros Hw Hne. destruct (inv_reachable _ _ Hw) as [Hns Hk Hwf _].
  destruct (reachable_at true ip w Hne Hw) as [_ Hx]. apply (HoldsAt_order order_fwd RO) in Hx.
  rewrite (wanted_Blocked RO) by done. split.
  - intros Hs. destruct (serves_NoStale _ ip d Hk (NoStale_order order_fwd RO _ Hns) Hs) as (_ & nn & pod & Hget & Hip).
    exists nn, pod. split_and!; [done..|]. by eapply (exact_at_serves (w_cache w) ip nn).
  - intros (nn & pod & Hget & Hip & Hb). by eapply (exact_at_serves (w_cache w) ip nn).
Qed.

(** C1: what the controller serves. The two reconcilers run one reconciliation at a time,
    in any order, each with its own map iteration orders, while the cluster changes in
    any way. After every run the blocklist is sorted, has no address twice, and only
    addresses of indexed pods. If no pod was reconciled with the address while another
    indexed pod had it, no domain is missing: each one listed by an indexed policy that
    selects the pod is served. If moreover no policy was reconciled for deletion that had
    been edited, since it was indexed, so that it no longer selects the pod, then exactly
    these domains are served. *)
Theorem served_blocklist_exact (RO : RangeOrder) (w : World A B) ip d :
  let bc := w_cache w in
  (reachable anything w →
    NoDup (entry_IP <$> GetBlocklist bc) ∧ StronglySorted entry_le (GetBlocklist bc) ∧
    (serves bc ip d → ip ≠ "" ∧ ∃ nn pod, pods (podIndex bc) !! nn = Some pod ∧ pod_IP pod = ip)) ∧
  (reachable (one_pod ip) w → ip ≠ "" → wanted bc ip d → serves bc ip d) ∧
  (reachable (undisturbed ip) w → ip ≠ "" → serves bc ip d ↔ wanted bc ip d).
Proof.
  intros bc. split_and!; [|apply serves_complete|apply serves_exact].
  intros Hw. split_and!.
  - apply GetBlocklist_NoDup, (inv_keyed _ (inv_reachable _ _ Hw)).
  - apply GetBlocklist_sorted.
  - by eapply serves_indexed.
Qed.

(** C5: map iteration order is irrelevant. Whatever the orders Go visits its maps in, the
    reconciliation of a policy makes the same API calls, records the same events, returns
    the same error, leaves the same indexes, and the same entry for every address that at
    most one indexed pod has. The reconciliation of a pod is the same altogether. *)
Theorem reconcile_order_irrelevant (o1 o2 : RangeOrder) now (st : RState A) (b : B) req :
  let r1 := PolicyReconciler.Reconcile (RO:=o1) now st req in
  let r2 := PolicyReconciler.Reconcile (RO:=o2) now st req in
  st_api r1.1 = st_api r2.1 ∧ st_events r1.1 = st_events r2.1 ∧ r1.2 = r2.2 ∧
  podIndex (st_cache r1.1) = podIndex (st_cache r2.1) ∧
  policyIndex (st_cache r1.1) = policyIndex (st_cache r2.1) ∧
  (∀ ip, @sole _ (PodIndex_store (H:=o1)) (podIndex (st_cache st)) ip →
    entries (st_cache r1.1) !! ip = entries (st_cache r2.1) !! ip) ∧
  PodReconciler.Reconcile (RO:=o1) b (st_cache st) req =
    PodReconciler.Reconcile (RO:=o2) b (st_cache st) req.
Proof.
  intros r1 r2. destruct (Reconcile_rest_order o1 o2 now st req) as (? & ? & ? & ? & ?).
  split_and!; try done; [|apply PodReconcile_order]. intros ip Hu. by apply Reconcile_entries_order.
Qed.
End Properties.
