(* ===== verification/Interleaving.v ===== *)
(** * The two reconcilers running concurrently

    controller-runtime runs one worker goroutine per reconciler. They share the
    two indexes, each behind its own mutex, and the cache entries behind the
    cache's mutex. This file models the interleavings: a configuration holds the
    shared state and the position of each worker inside its [Reconcile], and one
    step is one call of an index method or one piece of a critical section of the
    cache (pod_controller.go, dnspolicy_controller.go, blocklist_cache.go).
    Holding the cache's mutex is a matter of position. *)

From S2P Require Import Prelude Types Selectors Stores Client.
From S2P Require Import PodIndex PolicyIndex BlocklistCache PolicyReconciler PodReconciler System.

(** ** Positions of the workers *)

(** The policy worker, after its change of the policy index. *)
Inductive PolPC :=
  | PolIdle
  | PolRecalc (sel : GoMap)                                (* next: RecalculateForPolicy *)
  | PolRecalcChange (old new : GoMap)                      (* next: RecalculateForPolicyChange *)
  | PolSnap (affected : gmap string PodInfo) (new : GoMap) (* holds bc.mu *)
  | PolLoop (todo : list PodInfo).                         (* holds bc.mu *)

(** The pod worker, after its first read of the pod index. *)
Inductive PodPC :=
  | PodIdle
  | PodGoneRemove (req : NamespacedName) (ip : string)               (* next: RemovePod *)
  | PodGoneDelete (req : NamespacedName)                             (* next: PodIndex.Delete *)
  | PodMoveRemove (req : NamespacedName) (info : PodInfo) (ip : string) (* next: RemovePod *)
  | PodUpsert (req : NamespacedName) (info : PodInfo)                (* next: PodIndex.Upsert *)
  | PodRecalc (req : NamespacedName)                                 (* next: RecalculatePod *)
  | PodCompute (req : NamespacedName) (pod : PodInfo)                (* holds bc.mu *)
  | PodWrite (req : NamespacedName) (pod : PodInfo) (domains : list string). (* holds bc.mu *)

(** What is left to do when the work on the cache is done. *)
Inductive PolWrite :=
  | WNone                                  (* return nil *)
  | WFail (err : goerror)                  (* return the error *)
  | WUpdate (read written : DnsPolicy)     (* r.Update *)
  | WStatus (read written : DnsPolicy).    (* r.Status().Update *)

Definition pol_holds (pc : PolPC) : bool :=
  match pc with PolSnap _ _ | PolLoop _ => true | _ => false end.
Definition pod_holds (pc : PodPC) : bool :=
  match pc with PodCompute _ _ | PodWrite _ _ _ => true | _ => false end.

Record Conf := mkConf { c_cache : Cache; c_pol : PolPC; c_pod : PodPC }.

Section Steps.
Context `{RO : RangeOrder} `{AM : ApiMachinery}.
Implicit Types (bc : Cache) (sel : GoMap).

(** ** The policy worker *)

(** From the answer to [r.Get] to the change of the index: the next cache, the work on
    it that follows, and the write at the end. Recorded events play no part here. *)
Definition beginPolicy (now : Time) bc (req : NamespacedName) (r : DnsPolicy + goerror)
    : Cache * PolPC * PolWrite :=
  match r with
  | inr err =>
      if IsNotFound err then
        let '(idx, old) := PolicyIndex.Delete (policyIndex bc) req in
        (with_policies bc idx,
         if negb (is_nil old) && bool_decide (0 < mlen old) then PolRecalc old else PolIdle, WNone)
      else (bc, PolIdle, WFail err)
  | inl policy =>
      if negb (Time_IsZero (om_DeletionTimestamp (p_ObjectMeta policy))) then
        if ContainsFinalizer (p_ObjectMeta policy) dnsPolicyFinalizer then
          let sel := policy_selector policy in
          (with_policies bc (PolicyIndex.Delete (policyIndex bc) req).1,
           if bool_decide (0 < mlen sel) then PolRecalc sel else PolIdle,
           WUpdate policy (with_meta policy (RemoveFinalizer (p_ObjectMeta policy) dnsPolicyFinalizer)))
        else (bc, PolIdle, WNone)
      else if negb (ContainsFinalizer (p_ObjectMeta policy) dnsPolicyFinalizer) then
        (bc, PolIdle, WUpdate policy (with_meta policy (AddFinalizer (p_ObjectMeta policy) dnsPolicyFinalizer)))
      else if bool_decide (mlen (policy_selector policy) = 0) then (bc, PolIdle, WFail err_emptySelector)
      else
        let '(idx, old) := PolicyIndex.Upsert (policyIndex bc) policy in
        (with_policies bc idx,
         if negb (is_nil old) && negb (selectorsEqual old (policy_selector policy))
         then PolRecalcChange old (policy_selector policy) else PolRecalc (policy_selector policy),
         if bool_decide (ObservedGeneration (p_Status policy) ≠ om_Generation (p_ObjectMeta policy)) then
           WStatus policy (updateCondition now
             (with_generation policy (om_Generation (p_ObjectMeta policy)))
             "Ready" ConditionTrue "Reconciled" "DnsPolicy successfully reconciled")
         else WNone)
  end.

(** Its work on the cache. [free] says that the other worker does not hold the
    cache's mutex. Lists of pods come in any order. *)
Inductive pol_step (free : Prop) bc : PolPC → Cache → PolPC → Prop :=
  | pol_recalc_empty sel :
      mlen sel = 0 → pol_step free bc (PolRecalc sel) bc PolIdle
  | pol_recalc_lock sel todo :
      free → mlen sel ≠ 0 →
      todo ≡ₚ PodIndex.GetPodsMatchingSelector (podIndex bc) sel →
      pol_step free bc (PolRecalc sel) bc (PolLoop todo)
  | pol_change_lock old new ps :
      free → ps ≡ₚ PodIndex.GetPodsMatchingSelector (podIndex bc) old →
      pol_step free bc (PolRecalcChange old new) bc
        (PolSnap (if bool_decide (0 < mlen old) then addAffected ∅ ps else ∅) new)
  | pol_change_snap affected new ps todo :
      ps ≡ₚ PodIndex.GetPodsMatchingSelector (podIndex bc) new →
      todo ≡ₚ (map_to_list (if bool_decide (0 < mlen new)
        then addAffected affected ps else affected)).*2 →
      pol_step free bc (PolSnap affected new) bc (PolLoop todo)
  | pol_loop_next pod todo :
      pol_step free bc (PolLoop (pod :: todo)) (recalculatePodInternal bc pod) (PolLoop todo)
  | pol_loop_unlock :
      pol_step free bc (PolLoop []) bc PolIdle.

(** ** The pod worker *)

(** From the answer to the read of a pod to its first access to the index; [true] when
    the reconciliation ends with an error. *)
Definition beginPod bc (req : NamespacedName) (r : Pod + goerror) : PodPC * bool :=
  match r with
  | inr err =>
      if IsNotFound err then
        (match PodIndex.Get (podIndex bc) req with
         | Some existing => PodGoneRemove req (pod_IP existing)
         | None => PodGoneDelete req
         end, false)
      else (PodIdle, true)
  | inl pod =>
      if str_empty (k_PodIP pod) then (PodIdle, false)
      else if bool_decide (k_Phase pod ≠ PodRunning) && bool_decide (String.length (k_PodIP pod) = 0) then
        (match PodIndex.Get (podIndex bc) req with
         | Some existing => PodGoneRemove req (pod_IP existing)
         | None => PodIdle
         end, false)
      else
        let podInfo := mkPodInfo (k_PodIP pod) (k_Labels pod) (k_Namespace pod) (k_Name pod) in
        (match PodIndex.Get (podIndex bc) req with
         | Some existing =>
             if bool_decide (pod_IP existing ≠ pod_IP podInfo)
             then PodMoveRemove req podInfo (pod_IP existing) else PodUpsert req podInfo
         | None => PodUpsert req podInfo
         end, false)
  end.

(** The branch for pods that are not running is never taken. *)
Lemma beginPod_seen bc req pod :
  k_PodIP pod ≠ "" →
  beginPod bc req (inl pod) =
    (match PodIndex.Get (podIndex bc) req with
     | Some existing =>
         if bool_decide (pod_IP existing ≠ pod_IP (infoOf pod))
         then PodMoveRemove req (infoOf pod) (pod_IP existing) else PodUpsert req (infoOf pod)
     | None => PodUpsert req (infoOf pod)
     end, false).
Proof.
  intros Hne. simpl. rewrite (proj2 (str_empty_false _) Hne).
  rewrite (bool_decide_false (String.length _ = 0)) by (by destruct (k_PodIP pod)).
  by rewrite andb_false_r.
Qed.
Lemma beginPod_skipped bc req pod : k_PodIP pod = "" → beginPod bc req (inl pod) = (PodIdle, false).
Proof. intros He. simpl. by rewrite He. Qed.

(** Its changes. *)
Inductive pod_step (free : Prop) bc : PodPC → Cache → PodPC → Prop :=
  | pod_gone_remove req ip :
      free → pod_step free bc (PodGoneRemove req ip) (RemovePod bc ip) (PodGoneDelete req)
  | pod_gone_delete req :
      pod_step free bc (PodGoneDelete req)
        (with_pods bc (PodIndex.Delete (podIndex bc) req)) PodIdle
  | pod_move_remove req info ip :
      free → pod_step free bc (PodMoveRemove req info ip) (RemovePod bc ip) (PodUpsert req info)
  | pod_upsert req info :
      pod_step free bc (PodUpsert req info)
        (with_pods bc (PodIndex.Upsert (podIndex bc) req info)) (PodRecalc req)
  | pod_recalc_lock req :
      free →
      pod_step free bc (PodRecalc req) bc
        (match PodIndex.Get (podIndex bc) req with
         | Some pod => PodCompute req pod
         | None => PodIdle
         end)
  | pod_compute req pod :
      pod_step free bc (PodCompute req pod) bc
        (if str_empty (pod_IP pod) then PodIdle
         else PodWrite req pod
           (sortedDomains (collectDomains (pod_Labels pod) (PolicyIndex.GetAll (policyIndex bc)))))
  | pod_write req pod domains :
      pod_step free bc (PodWrite req pod domains)
        (with_entries bc (<[pod_IP pod := mkEntry (pod_IP pod) domains]> (entries bc))) PodIdle.

(** ** The interleaved system

    A step is labelled by what it reads from the API server, if it begins a
    reconciliation. The answer may be anything: the cluster behind it is the subject of
    Concurrent.v. *)
Inductive cstep : option Read → Conf → Conf → Prop :=
  | cstep_pol_start now bc pd k r bc' pc' w :
      beginPolicy now bc k r = (bc', pc', w) →
      cstep (Some (ReadPolicy k r)) (mkConf bc PolIdle pd) (mkConf bc' pc' pd)
  | cstep_pod_start bc pl k r pc' failed :
      beginPod bc k r = (pc', failed) →
      cstep (Some (ReadPod k r)) (mkConf bc pl PodIdle) (mkConf bc pl pc')
  | cstep_pol bc pl pd bc' pl' :
      pol_step (pod_holds pd = false) bc pl bc' pl' →
      cstep None (mkConf bc pl pd) (mkConf bc' pl' pd)
  | cstep_pod bc pl pd bc' pd' :
      pod_step (pol_holds pl = false) bc pd bc' pd' →
      cstep None (mkConf bc pl pd) (mkConf bc' pl pd').

(** A step whose read meets the condition, and the configurations such steps lead to
    from the start of the controller. *)
Definition cnext (ok : RunCondition) (c c' : Conf) : Prop :=
  ∃ l, cstep l c c' ∧ ∀ rd, l = Some rd → ok (c_cache c) rd.

Definition cinit : Conf :=
  mkConf (NewBlocklistCache NewPodIndex NewPolicyIndex) PolIdle PodIdle.

Definition creachable (ok : RunCondition) : Conf → Prop := rtc (cnext ok) cinit.

Lemma cnext_read (ok : RunCondition) rd c c' : cstep (Some rd) c c' → ok (c_cache c) rd → cnext ok c c'.
Proof. intros Hs Hok. exists (Some rd). split; [done|]. by intros ? [= <-]. Qed.

Lemma cnext_work ok c c' : cstep None c c' → cnext ok c c'.
Proof. by exists None. Qed.

Lemma creachable_step ok c c' : creachable ok c → cnext ok c c' → creachable ok c'.
Proof. apply rtc_r. Qed.

(** What holds at the start and is kept by every step holds at every moment. *)
Lemma creachable_ind_r (ok : RunCondition) (P : Conf → Prop) :
  P cinit → (∀ c c' l, P c → cstep l c c' → (∀ rd, l = Some rd → ok (c_cache c) rd) → P c') →
  ∀ c, creachable ok c → P c.
Proof.
  intros H0 Hs. apply (rtc_ind_r P); [done|]. intros c c' _ (l & Hl & Hok) Hc. by eapply Hs.
Qed.

(** *** How a reconciliation begins *)

(** The object is gone, is being deleted with the finalizer on it, or is valid; or the
    cache is not concerned. *)
Inductive pol_begun bc (k : NamespacedName) (r : DnsPolicy + goerror) : Cache → PolPC → Prop :=
  | pol_begun_nothing : pol_begun bc k r bc PolIdle
  | pol_begun_removal sel :
      (sel = (PolicyIndex.Delete (policyIndex bc) k).2 ∨
       ∃ policy, r = inl policy ∧ sel = policy_selector policy ∧
         Time_IsZero (om_DeletionTimestamp (p_ObjectMeta policy)) = false) →
      pol_begun bc k r (with_policies bc (PolicyIndex.Delete (policyIndex bc) k).1)
        (if bool_decide (0 < mlen sel) then PolRecalc sel else PolIdle)
  | pol_begun_valid policy :
      r = inl policy → Time_IsZero (om_DeletionTimestamp (p_ObjectMeta policy)) = true →
      ContainsFinalizer (p_ObjectMeta policy) dnsPolicyFinalizer = true →
      mlen (policy_selector policy) ≠ 0 →
      pol_begun bc k r (with_policies bc (PolicyIndex.Upsert (policyIndex bc) policy).1)
        (let old := (PolicyIndex.Upsert (policyIndex bc) policy).2 in
         if negb (is_nil old) && negb (selectorsEqual old (policy_selector policy))
         then PolRecalcChange old (policy_selector policy)
         else PolRecalc (policy_selector policy)).

Lemma beginPolicy_begun now bc k r bc' pc' w :
  beginPolicy now bc k r = (bc', pc', w) → pol_begun bc k r bc' pc'.
Proof.
  intros Hb. destruct r as [p|err]; cbn [beginPolicy negb] in Hb.
  - destruct (Time_IsZero _) eqn:Htz, (ContainsFinalizer _ _) eqn:Hf; cbn [negb] in Hb;
      try (simplify_eq; by constructor).
    + case_bool_decide as Hm; [simplify_eq; constructor|].
      pose proof (pol_begun_valid bc k (inl p) p eq_refl Htz Hf Hm) as Hv.
      destruct (PolicyIndex.Upsert _ p) as [idx old]. by simplify_eq.
    + injection Hb as <- <- _. apply pol_begun_removal. eauto.
  - destruct (IsNotFound err); [|simplify_eq; constructor].
    pose proof (pol_begun_removal bc k (inr err) _ (or_introl eq_refl)) as Hv.
    destruct (PolicyIndex.Delete _ k) as [idx old]. simplify_eq/=. by destruct old.
Qed.

(** The pod worker reads the pod it is about from the index. *)
Inductive pod_begun bc (k : NamespacedName) (r : Pod + goerror) : PodPC → Prop :=
  | pod_begun_nothing : pod_begun bc k r PodIdle
  | pod_begun_gone :
      pod_begun bc k r
        (match PodIndex.Get (podIndex bc) k with
         | Some existing => PodGoneRemove k (pod_IP existing)
         | None => PodGoneDelete k
         end)
  | pod_begun_seen pod :
      r = inl pod →
      pod_begun bc k r
        (match PodIndex.Get (podIndex bc) k with
         | Some existing =>
             if bool_decide (pod_IP existing ≠ pod_IP (infoOf pod))
             then PodMoveRemove k (infoOf pod) (pod_IP existing) else PodUpsert k (infoOf pod)
         | None => PodUpsert k (infoOf pod)
         end).

Lemma beginPod_begun bc k r pc' failed : beginPod bc k r = (pc', failed) → pod_begun bc k r pc'.
Proof.
  intros Hb. destruct r as [pod|err].
  - destruct (decide (k_PodIP pod = "")) as [He|He].
    + rewrite beginPod_skipped in Hb by done. simplify_eq. constructor.
    + rewrite beginPod_seen in Hb by done. simplify_eq. by constructor.
  - simpl in Hb. destruct (IsNotFound err); simplify_eq; constructor.
Qed.

(** ** The invariant *)

(** The policy worker is going to recalculate the pod. *)
Definition covers (pc : PolPC) (p : PodInfo) : Prop :=
  match pc with
  | PolIdle => False
  | PolRecalc sel => Selects sel (pod_Labels p)
  | PolRecalcChange old new => Selects old (pod_Labels p) ∨ Selects new (pod_Labels p)
  | PolSnap affected new => affected !! pod_IP p = Some p ∨ Selects new (pod_Labels p)
  | PolLoop todo => p ∈ todo
  end.

(** The pod worker is going to write or remove the entry of the pod. *)
Definition pending (pc : PodPC) (nn : NamespacedName) : Prop :=
  match pc with
  | PodIdle | PodGoneRemove _ _ | PodMoveRemove _ _ _ => False
  | PodGoneDelete req | PodUpsert req _ | PodRecalc req
  | PodCompute req _ | PodWrite req _ _ => nn = req
  end.

(** The pods the policy worker has read and will write. *)
Definition snapshot (pc : PolPC) (q : PodInfo) : Prop :=
  match pc with
  | PolSnap affected _ => ∃ ip, affected !! ip = Some q
  | PolLoop todo => q ∈ todo
  | _ => False
  end.

(** At most one worker is in a critical section of the cache's mutex. *)
Definition exclusive (c : Conf) : Prop := pol_holds (c_pol c) = true → pod_holds (c_pod c) = false.

(** *** What holds after every run *)

Lemma pol_begun_holds bc k r bc' pc' : pol_begun bc k r bc' pc' → pol_holds pc' = false ∧ ∀ q, ¬ snapshot pc' q.
Proof. destruct 1; simpl; repeat case_match; by split; [|intros q []]. Qed.

Lemma pod_begun_holds bc k r pc' : pod_begun bc k r pc' → pod_holds pc' = false.
Proof. destruct 1; by repeat case_match. Qed.

Lemma cstep_exclusive l c c' : cstep l c c' → exclusive c → exclusive c'.
Proof.
  unfold exclusive. destruct 1 as [now bc pd k r bc' pc' w Hb|bc pl k r pc' failed Hb|bc pl pd bc' pl' Hs
    |bc pl pd bc' pd' Hs]; simpl; intros Hex.
  - destruct (pol_begun_holds _ _ _ _ _ (beginPolicy_begun _ _ _ _ _ _ _ Hb)). congruence.
  - intros _. exact (pod_begun_holds _ _ _ _ (beginPod_begun _ _ _ _ _ Hb)).
  - destruct Hs; simpl in *; auto.
  - destruct Hs; simpl in *; repeat case_match; simpl in *; auto; congruence.
Qed.

Lemma creachable_exclusive ok c : creachable ok c → exclusive c.
Proof. apply (creachable_ind_r ok exclusive); [done|]. eauto using cstep_exclusive. Qed.

(** Entries are stored under their own address. *)
Lemma entries_keyed_creachable ok c : creachable ok c → entries_keyed (c_cache c).
Proof.
  apply (creachable_ind_r ok (λ c, entries_keyed (c_cache c))); [intros ip e; simpl; by rewrite lookup_empty|].
  intros c1 c2 l IH Hstep _. destruct Hstep as [? ? ? ? ? ? ? ? Hb|? ? ? ? ? ? Hb|? ? ? ? ? Hs|? ? ? ? ? Hs]; simpl in *.
  - by destruct (beginPolicy_begun _ _ _ _ _ _ _ Hb).
  - done.
  - destruct Hs; try done. by apply entries_keyed_recalculate.
  - destruct Hs; simpl in *; try done; try by apply entries_keyed_RemovePod.
    intros ip' e; simpl; intros [[<- <-]|[_ ?]]%lookup_insert_Some; [done|by apply IH].
Qed.

(** Indexed policies are live, with finalizer and selector. *)
Lemma index_valid_creachable ok c : creachable ok c → index_valid (policies (policyIndex (c_cache c))).
Proof.
  apply (creachable_ind_r ok (λ c, index_valid (policies (policyIndex (c_cache c)))));
    [intros nn p; simpl; by rewrite lookup_empty|].
  intros c1 c2 l IH Hstep _. destruct Hstep as [? ? ? ? ? ? ? ? Hb|? ? ? ? ? ? Hb|? ? ? ? ? Hs|? ? ? ? ? Hs]; simpl in *.
  - destruct (beginPolicy_begun _ _ _ _ _ _ _ Hb); [done| |]; cbn [policyIndex with_policies].
    + rewrite policies_Delete. intros nn p [_ ?]%lookup_delete_Some. by apply IH.
    + rewrite policies_Upsert. intros nn p [[<- <-]|[_ ?]]%lookup_insert_Some; [done|by apply IH].
  - done.
  - destruct Hs; try done. match goal with |- context [recalculatePodInternal ?b ?p] =>
      by destruct (recalculate_indexes b p) as [_ ->] end.
  - by destruct Hs.
Qed.

Lemma matching_index bc sel p :
  p ∈ PodIndex.GetPodsMatchingSelector (podIndex bc) sel ↔
  (∃ nn, PodIndex.Get (podIndex bc) nn = Some p) ∧ Selects sel (pod_Labels p).
Proof. exact (ps_matching_spec (podIndex bc) sel p). Qed.

Lemma snapshot_holds pc q : snapshot pc q → pol_holds pc = true.
Proof. by destruct pc. Qed.
End Steps.

(** *** The invariant at an address

    For completeness of what is served there, or with [strict] for exactness. *)
Section Invariant.
Context `{RO : RangeOrder} `{AM : ApiMachinery} (strict : bool) (ip : string) (Hne : ip ≠ "").
Implicit Types (bc : Cache) (sel : GoMap).

(** What the pod worker knows at its position. *)
Definition pod_local bc (pl : PolPC) (pc : PodPC) : Prop :=
  match pc with
  | PodGoneRemove req ip' => ∃ e, PodIndex.Get (podIndex bc) req = Some e ∧ pod_IP e = ip'
  | PodMoveRemove req info ip' =>
      (∃ e, PodIndex.Get (podIndex bc) req = Some e ∧ pod_IP e = ip') ∧
      (pod_IP info = ip → ip_free (podIndex bc) req ip)
  | PodUpsert req info => pod_IP info = ip → ip_free (podIndex bc) req ip
  | PodCompute req pod => PodIndex.Get (podIndex bc) req = Some pod
  | PodWrite req pod domains =>
      PodIndex.Get (podIndex bc) req = Some pod ∧
      (pod_IP pod = ip → fits strict (policyIndex bc) pod (mkEntry ip domains) ∨ covers pl pod)
  | _ => True
  end.

Record cinv (c : Conf) : Prop := {
  ci_sole : sole (podIndex (c_cache c)) ip;
  ci_lock : exclusive c;
  ci_fresh : ∀ nn p, PodIndex.Get (podIndex (c_cache c)) nn = Some p → pod_IP p = ip →
    (∃ e, entries (c_cache c) !! ip = Some e ∧ fits strict (policyIndex (c_cache c)) p e) ∨
    covers (c_pol c) p ∨ pending (c_pod c) nn;
  ci_snap : ∀ q nn p, snapshot (c_pol c) q → PodIndex.Get (podIndex (c_cache c)) nn = Some p →
    pod_IP p = ip → pod_IP q = ip → p = q ∨ c_pod c = PodRecalc nn;
  ci_pod : pod_local (c_cache c) (c_pol c) (c_pod c);
}.

Lemma cinv_init : cinv cinit.
Proof. by split. Qed.

(** A change of the policies that only concerns pods the new position covers. *)
Lemma cinv_policies bc pl' pd pl :
  cinv (mkConf bc PolIdle pd) → pol_holds pl' = false → (∀ q, ¬ snapshot pl' q) →
  (∀ nn p, PodIndex.Get (podIndex bc) nn = Some p → pod_IP p = ip →
    covers pl' p ∨ shrinks strict (policyIndex bc) pl (pod_Labels p)) →
  cinv (mkConf (with_policies bc pl) pl' pd).
Proof.
  intros [Hu Hl Hf Hs Hp] Hh Hns Hcov; simpl in *. split; unfold exclusive; simpl.
  - done.
  - congruence.
  - intros nn p Hget Hip. destruct (Hf nn p Hget Hip) as [(e & He & Hfit)|[?|?]]; [|done|by auto].
    destruct (Hcov nn p Hget Hip) as [?|Hsame]; [by auto|]. left. exists e. split; [done|].
    by eapply fits_shrinks.
  - intros q nn p Hq. by apply Hns in Hq.
  - destruct pd; simpl in *; try done. destruct Hp as [Hget Hd]. split; [done|]. intros Hip.
    destruct (Hd Hip) as [Hfit|?]; [|done]. destruct (Hcov _ _ Hget Hip) as [?|Hsame]; [by right|].
    left. by eapply fits_shrinks.
Qed.

(** The policy leaves the index: the selector that is recalculated must cover the pod. *)
Lemma cinv_removal bc pd k r sel :
  cinv (mkConf bc PolIdle pd) → (strict = true → deletion_covers bc k r ip) →
  (sel = (PolicyIndex.Delete (policyIndex bc) k).2 ∨
   ∃ policy, r = inl policy ∧ sel = policy_selector policy ∧
     Time_IsZero (om_DeletionTimestamp (p_ObjectMeta policy)) = false) →
  cinv (mkConf (with_policies bc (PolicyIndex.Delete (policyIndex bc) k).1)
    (if bool_decide (0 < mlen sel) then PolRecalc sel else PolIdle) pd).
Proof.
  intros Hinv Hcov Hsel. apply cinv_policies; [done|by case_bool_decide|intros q; by case_bool_decide; intros []|].
  intros nn p Hget Hip. destruct (decide (Selects sel (pod_Labels p))) as [Hs|Hs].
  - left. pose proof (Selects_nonempty _ _ Hs). by rewrite bool_decide_true by lia.
  - right. apply shrinks_Delete. intros Hst q Hq Hsq. apply Hs. destruct Hsel as [->|(policy & -> & -> & Htz)].
    + by rewrite Delete_old, Hq.
    + apply Get_Some in Hget as (p0 & Hp0 & ->). rewrite podCopy_Selects in *.
      by eapply (Hcov Hst policy q nn p0).
Qed.

(** The policy enters the index: pods under the old and the new selector are recalculated. *)
Lemma cinv_upsert bc pd policy :
  cinv (mkConf bc PolIdle pd) →
  cinv (mkConf (with_policies bc (PolicyIndex.Upsert (policyIndex bc) policy).1)
    (let old := (PolicyIndex.Upsert (policyIndex bc) policy).2 in
     if negb (is_nil old) && negb (selectorsEqual old (policy_selector policy))
     then PolRecalcChange old (policy_selector policy) else PolRecalc (policy_selector policy)) pd).
Proof.
  intros Hinv. pose proof (Upsert_old (policyIndex bc) policy) as Hold.
  set (old := (PolicyIndex.Upsert (policyIndex bc) policy).2) in *. simpl.
  apply cinv_policies; [done|by case_match|intros q; by case_match; intros []|].
  intros nn p _ _. destruct (decide (Selects old (pod_Labels p) ∨ Selects (policy_selector policy) (pod_Labels p)))
    as [Hs|Hs].
  - left. destruct (negb (is_nil old) && negb (selectorsEqual old (policy_selector policy))) eqn:Hch; [done|].
    simpl. destruct Hs as [Hs|]; [|done]. apply andb_false_iff in Hch as [Hnil|Heq].
    + destruct old; [done|]. by apply not_Selects_empty in Hs.
    + apply negb_false_iff, selectorsEqual_contents in Heq.
      by rewrite (Selects_proper _ _ Heq _ _ eq_refl) in Hs.
  - right. apply same_shrinks, same_blocked_Upsert; [naive_solver|]. intros q Hq. rewrite Hq in Hold.
    simpl in Hold. rewrite Hold in Hs. naive_solver.
Qed.

Lemma cinv_pol_begun bc pd k r bc' pl' :
  cinv (mkConf bc PolIdle pd) → (strict = true → deletion_covers bc k r ip) →
  pol_begun bc k r bc' pl' → cinv (mkConf bc' pl' pd).
Proof. intros Hinv Hcov Hb. destruct Hb; [done|by eapply cinv_removal|by apply cinv_upsert]. Qed.

(** What the policy worker reads under the mutex contains every indexed pod with the
    address that the position before covers, and only indexed pods. *)
Lemma cinv_pol_lock bc pl pl' pd :
  cinv (mkConf bc pl pd) → pod_holds pd = false →
  (∀ nn p, PodIndex.Get (podIndex bc) nn = Some p → pod_IP p = ip → covers pl p → covers pl' p) →
  (∀ q, snapshot pl' q → snapshot pl q ∨ ∃ nn, PodIndex.Get (podIndex bc) nn = Some q) →
  cinv (mkConf bc pl' pd).
Proof.
  intros [Hu Hl Hf Hs Hp] Hfree Hcov Hsnap; simpl in *. split; simpl; [done|by intros _| | |].
  - intros nn p Hget Hip. destruct (Hf nn p Hget Hip) as [?|[?|?]]; eauto.
  - intros q nn p Hq Hget Hip Hiq. destruct (Hsnap q Hq) as [?|[nn' Hget']]; [eauto|].
    left. assert (nn = nn') as <- by (by eapply Hu). congruence.
  - by destruct pd.
Qed.

(** The pods the old selector matches, read under the mutex. *)
Lemma cinv_change_lock bc old new ps pd :
  cinv (mkConf bc (PolRecalcChange old new) pd) → pod_holds pd = false →
  ps ≡ₚ PodIndex.GetPodsMatchingSelector (podIndex bc) old →
  cinv (mkConf bc (PolSnap (if bool_decide (0 < mlen old) then addAffected ∅ ps else ∅) new) pd).
Proof.
  intros Hinv Hfree Hps.
  pose proof (ci_sole _ Hinv) as Hu; simpl in Hu.
  apply (cinv_pol_lock _ _ _ _ Hinv Hfree); simpl.
  - intros nn p Hget Hip [Hsel|?]; [|by right]. left.
    rewrite bool_decide_true by (apply Selects_nonempty in Hsel; lia).
    apply addAffected_lookup; [rewrite Hps; apply matching_index; eauto|].
    intros q Hq. rewrite Hps in Hq. rewrite <- Hip in Hu. by eapply (matching_unique bc).
  - intros q [ip' Hip]. right. case_bool_decide; [|by rewrite lookup_empty in Hip].
    apply addAffected_source in Hip as [Hip|Hip]; [by rewrite lookup_empty in Hip|].
    rewrite Hps in Hip. by apply matching_index in Hip as [? _].
Qed.

(** Those the new selector matches are added to them. *)
Lemma cinv_change_snap bc affected new ps todo pd :
  cinv (mkConf bc (PolSnap affected new) pd) →
  ps ≡ₚ PodIndex.GetPodsMatchingSelector (podIndex bc) new →
  todo ≡ₚ (map_to_list (if bool_decide (0 < mlen new)
    then addAffected affected ps else affected)).*2 →
  cinv (mkConf bc (PolLoop todo) pd).
Proof.
  intros Hinv Hps Htodo.
  pose proof (ci_sole _ Hinv) as Hu; simpl in Hu.
  assert (pod_holds pd = false) as Hfree by (by apply (ci_lock _ Hinv)).
  assert (∀ q, q ∈ todo ↔ ∃ ip, (if bool_decide (0 < mlen new)
    then addAffected affected ps else affected) !! ip = Some q) as Hin.
  { intros q. rewrite Htodo, list_elem_of_fmap. split.
    - intros ([k v] & -> & Hkv%elem_of_map_to_list). eauto.
    - intros [ip' Hip]. exists (ip', q). by rewrite elem_of_map_to_list. }
  apply (cinv_pol_lock _ _ _ _ Hinv Hfree); simpl.
  - intros nn p Hget Hip Hcov. apply Hin. exists (pod_IP p).
    assert (∀ q, q ∈ ps → pod_IP q = pod_IP p → q = p) as Hsame.
    { intros q Hq. rewrite Hps in Hq. rewrite <- Hip in Hu. by eapply (matching_unique bc). }
    destruct (decide (Selects new (pod_Labels p))) as [Hsel|Hsel].
    + rewrite bool_decide_true by (apply Selects_nonempty in Hsel; lia).
      apply addAffected_lookup; [rewrite Hps; apply matching_index; eauto|done].
    + destruct Hcov as [Ha|?]; [|done]. case_bool_decide; [|done]. by apply addAffected_keep.
  - intros q [ip' Hip]%Hin. case_bool_decide; [|by eauto].
    apply addAffected_source in Hip as [Hip|Hip]; [by eauto|]. right.
    rewrite Hps in Hip. by apply matching_index in Hip as [? _].
Qed.

(** One pod is recalculated. *)
Lemma cinv_loop_next bc pod todo pd :
  cinv (mkConf bc (PolLoop (pod :: todo)) pd) →
  cinv (mkConf (recalculatePodInternal bc pod) (PolLoop todo) pd).
Proof.
  intros Hinv.
  destruct Hinv as [Hu Hl Hf Hs Hp]; simpl in *.
  destruct (recalculate_indexes bc pod) as [Hpi Hpl].
  split; simpl; rewrite ?Hpi, ?Hpl; [done|done| | |].
  - intros nn p Hget Hip. rewrite recalculate_lookup. case_decide as Hd.
    + destruct Hd as [Hip' _]. destruct (Hs pod nn p) as [->| ->]; [by left|done..| |simpl; by auto].
      left. eexists. split; [done|]. apply wantEntry_fits.
    + destruct (Hf nn p Hget Hip) as [?|[Hin|?]]; [by auto| |by auto].
      apply elem_of_cons in Hin as [-> |?]; [|by auto]. by destruct Hd.
  - intros q nn p Hq. apply Hs. by right.
  - assert (pod_holds pd = false) as Hfree by (by apply Hl).
    destruct pd; simpl in *; try congruence; try rewrite Hpi; done.
Qed.

Lemma cinv_pol_step bc pl pd bc' pl' :
  cinv (mkConf bc pl pd) → pol_step (pod_holds pd = false) bc pl bc' pl' →
  cinv (mkConf bc' pl' pd).
Proof.
  intros Hinv Hstep. destruct Hstep as [sel Hlen|sel todo Hfree Hlen Htodo|old new ps Hfree Hps
    |affected new ps todo Hps Htodo|pod todo|].
  - destruct Hinv as [Hu Hl Hf Hs Hp]; simpl in *.
    assert (∀ p, ¬ Selects sel (pod_Labels p)) as Hno by (by intros p Hs'%Selects_nonempty).
    split; simpl; [done..| |done|].
    + intros nn p Hget Hip. destruct (Hf nn p Hget Hip) as [?|[?|?]]; [by auto|by edestruct Hno|by auto].
    + destruct pd; simpl in *; try done. destruct Hp as [? Hd]. split; [done|]. intros Hip.
      destruct (Hd Hip); [by auto|by edestruct Hno].
  - apply (cinv_pol_lock _ _ _ _ Hinv Hfree); simpl.
    + intros nn p Hget _ Hsel. rewrite Htodo. apply matching_index. eauto.
    + intros q Hq. right. rewrite Htodo in Hq. by apply matching_index in Hq as [? _].
  - by apply cinv_change_lock with (ps := ps).
  - by apply cinv_change_snap with (affected := affected) (new := new) (ps := ps).
  - by apply cinv_loop_next.
  - apply (cinv_pol_lock _ _ _ _ Hinv); simpl; [by apply (ci_lock _ Hinv)| |done].
    intros nn p _ _ Hin. by apply not_elem_of_nil in Hin.
Qed.

Lemma cinv_pod_begun bc pl k r pd' :
  cinv (mkConf bc pl PodIdle) → address_apart bc k r ip → pod_begun bc k r pd' → cinv (mkConf bc pl pd').
Proof.
  intros [Hu Hl Hf Hs Hp] Hav Hstart; simpl in *. pose proof (pod_begun_holds _ _ _ _ Hstart) as Hh.
  assert (pod_local bc pl pd') as Hloc.
  { destruct Hstart as [| |pod ->]; [done|by case_match; simpl; eauto|].
    assert (k_PodIP pod = ip → ip_free (podIndex bc) k ip) as Hfree by (by apply address_apart_free).
    repeat case_match; simpl; eauto. }
  split; simpl; [done|by intros _| | |done].
  - intros nn p Hget Hip. destruct (Hf nn p Hget Hip) as [?|[?|[]]]; auto.
  - intros q nn p Hq Hget Hip Hiq. by destruct (Hs q nn p Hq Hget Hip Hiq); auto.
Qed.

(** Removing the entry of the pod the worker is about. *)
Lemma cinv_pod_remove bc pl pd pd' req ip' :
  cinv (mkConf bc pl pd) → pol_holds pl = false → pod_local bc pl pd' → (∀ nn, ¬ pending pd nn) →
  (∃ e, PodIndex.Get (podIndex bc) req = Some e ∧ pod_IP e = ip') → pending pd' req →
  pod_holds pd' = false → cinv (mkConf (RemovePod bc ip') pl pd').
Proof.
  intros [Hu Hl Hf Hs Hp] Hfree Hloc Hno (e & He & Hie) Hpend Hh; simpl in *.
  split; unfold exclusive; simpl; [done|congruence| | |by destruct pd'].
  - intros nn p Hget Hip. destruct (decide (nn = req)) as [->|Hnn]; [by auto|].
    destruct (Hf nn p Hget Hip) as [?|[?|Hb]]; [|by auto|by apply Hno in Hb].
    left. rewrite lookup_delete_ne; [done|]. intros ->. apply Hnn. by eapply Hu.
  - intros q nn p Hq. apply snapshot_holds in Hq. congruence.
Qed.

(** A change of the index entry of the pod the worker is about. *)
Lemma cinv_pod_index bc pl pd pd' req pi :
  cinv (mkConf bc pl pd) → sole pi ip → pod_holds pd' = false → pod_local (with_pods bc pi) pl pd' →
  (∀ nn, nn ≠ req → PodIndex.Get pi nn = PodIndex.Get (podIndex bc) nn ∧ ¬ pending pd nn ∧ pd ≠ PodRecalc nn) →
  (PodIndex.Get pi req = None ∨ pd' = PodRecalc req) →
  cinv (mkConf (with_pods bc pi) pl pd').
Proof.
  intros [Hu Hl Hf Hs Hp] Hu' Hh Hloc Hrest Hreq; simpl in *. split; simpl; [done|by intros _| | |done].
  - intros nn p Hget Hip. destruct (decide (nn = req)) as [->|Hnn].
    { destruct Hreq as [?| ->]; [congruence|]. simpl. by auto. }
    destruct (Hrest nn Hnn) as (Hsame & Hno & _). rewrite Hsame in Hget.
    destruct (Hf nn p Hget Hip) as [?|[?|?]]; [by auto|by auto|done].
  - intros q nn p Hq Hget Hip Hiq. destruct (decide (nn = req)) as [->|Hnn].
    { destruct Hreq as [?|?]; [congruence|by auto]. }
    destruct (Hrest nn Hnn) as (Hsame & _ & Hno). rewrite Hsame in Hget.
    by destruct (Hs q nn p Hq Hget Hip Hiq); auto.
Qed.

(** The recalculation of one pod by the pod worker. *)
Lemma cinv_pod_lock bc pl req :
  cinv (mkConf bc pl (PodRecalc req)) → pol_holds pl = false →
  cinv (mkConf bc pl (match PodIndex.Get (podIndex bc) req with
                      | Some pod => PodCompute req pod
                      | None => PodIdle
                      end)).
Proof.
  intros [Hu Hl Hf Hs _] Hfree; simpl in *. split; unfold exclusive; simpl; [done|congruence| | |].
  - intros nn p Hget Hip. destruct (Hf nn p Hget Hip) as [?|[?| ->]]; [by auto..|].
    rewrite Hget. simpl. by auto.
  - intros q nn p Hq. apply snapshot_holds in Hq. congruence.
  - by destruct (PodIndex.Get (podIndex bc) req) eqn:Hget.
Qed.

Lemma cinv_pod_compute bc pl req pod :
  cinv (mkConf bc pl (PodCompute req pod)) →
  cinv (mkConf bc pl
    (if str_empty (pod_IP pod) then PodIdle
     else PodWrite req pod
       (sortedDomains (collectDomains (pod_Labels pod) (PolicyIndex.GetAll (policyIndex bc)))))).
Proof.
  intros [Hu Hl Hf Hs Hloc]; unfold exclusive in Hl; simpl in *.
  assert (pol_holds pl = false) as Hfree by (destruct (pol_holds pl); [by apply Hl|done]).
  split; unfold exclusive; simpl; [done|congruence| | |].
  - intros nn p Hget Hip. destruct (Hf nn p Hget Hip) as [?|[?| ->]]; [by auto..|].
    rewrite (proj2 (str_empty_false _)) by congruence. simpl. by auto.
  - intros q nn p Hq. apply snapshot_holds in Hq. congruence.
  - destruct (str_empty (pod_IP pod)); [done|]. simpl. split; [done|]. intros <-. left.
    rewrite sortedDomains_elements, dom_collectDomains. exact (wantEntry_fits strict (policyIndex bc) pod).
Qed.

Lemma cinv_pod_write bc pl req pod domains :
  cinv (mkConf bc pl (PodWrite req pod domains)) →
  cinv (mkConf (with_entries bc (<[pod_IP pod := mkEntry (pod_IP pod) domains]> (entries bc))) pl PodIdle).
Proof.
  intros [Hu Hl Hf Hs [Hget Hd]]; unfold exclusive in Hl; simpl in *.
  assert (pol_holds pl = false) as Hfree by (destruct (pol_holds pl); [by apply Hl|done]).
  split; unfold exclusive; simpl; [done|congruence| | |done].
  - intros nn p Hp Hip. destruct (decide (nn = req)) as [->|Hnn].
    + assert (p = pod) as -> by congruence. destruct (Hd Hip) as [?|?]; [left|by auto].
      rewrite Hip, lookup_insert_eq. by eexists.
    + destruct (Hf nn p Hp Hip) as [?|[?|?]]; [|by auto|done]. left.
      rewrite lookup_insert_ne; [done|]. intros Heq. apply Hnn. by eapply Hu.
  - intros q nn p Hq. apply snapshot_holds in Hq. congruence.
Qed.

Lemma cinv_pod_step bc pl pd bc' pd' :
  cinv (mkConf bc pl pd) → pod_step (pol_holds pl = false) bc pd bc' pd' →
  cinv (mkConf bc' pl pd').
Proof.
  intros Hinv Hstep. pose proof (ci_pod _ Hinv) as Hloc. pose proof (ci_sole _ Hinv) as Hu.
  destruct Hstep as [req ip' Hfree|req|req info ip' Hfree|req info|req Hfree|req pod|req pod domains];
    simpl in Hloc, Hu.
  - eapply (cinv_pod_remove _ _ _ _ req); naive_solver.
  - apply (cinv_pod_index _ _ (PodGoneDelete req) _ req); try done.
    + by apply sole_Delete.
    + intros nn Hnn. by rewrite Get_Delete, decide_False by done.
    + left. by rewrite Get_Delete, decide_True.
  - eapply (cinv_pod_remove _ _ _ _ req); naive_solver.
  - apply (cinv_pod_index _ _ (PodUpsert req info) _ req); try done.
    + by apply sole_Upsert.
    + intros nn Hnn. by rewrite Get_Upsert, decide_False by done.
    + by right.
  - by apply cinv_pod_lock.
  - by apply cinv_pod_compute.
  - by eapply cinv_pod_write.
Qed.

Lemma cinv_creachable c : creachable (condition_of strict ip) c → cinv c.
Proof.
  apply creachable_ind_r; [apply cinv_init|]. intros c1 c2 l Hi Hstep Hok.
  destruct Hstep as [? ? ? ? ? ? ? ? Hb|? ? ? ? ? ? Hb| | ]; [| |by eapply cinv_pol_step|by eapply cinv_pod_step];
    specialize (Hok _ eq_refl); simpl in *.
  - eapply cinv_pol_begun; [exact Hi| |by eapply beginPolicy_begun]. by apply condition_of_unedited.
  - eapply cinv_pod_begun; [exact Hi| |by eapply beginPod_begun]. exact (condition_of_one_pod _ _ _ _ Hok).
Qed.
End Invariant.

Section Properties.
Context `{RO : RangeOrder} `{AM : ApiMachinery}.

(** What is served for an indexed pod. *)
Lemma creachable_complete c nn p d :
  PodIndex.Get (podIndex (c_cache c)) nn = Some p → pod_IP p ≠ "" →
  creachable (one_pod (pod_IP p)) c →
  covers (c_pol c) p ∨ pending (c_pod c) nn ∨
  (Blocked (policyIndex (c_cache c)) (pod_Labels p) d → serves (c_cache c) (pod_IP p) d).
Proof.
  intros Hget Hne Hc. pose proof (cinv_creachable false (pod_IP p) Hne c Hc) as Hi.
  destruct (ci_fresh _ _ _ Hi nn p Hget eq_refl) as [(e & He & _ & Hd)|[?|?]]; [|by auto..].
  right; right. intros Hb. apply serves_entry; [by eapply entries_keyed_creachable|]. eauto.
Qed.

Lemma creachable_exact c nn p d :
  PodIndex.Get (podIndex (c_cache c)) nn = Some p → pod_IP p ≠ "" →
  creachable (undisturbed (pod_IP p)) c →
  covers (c_pol c) p ∨ pending (c_pod c) nn ∨
  (serves (c_cache c) (pod_IP p) d ↔ Blocked (policyIndex (c_cache c)) (pod_Labels p) d).
Proof.
  intros Hget Hne Hc. pose proof (cinv_creachable true (pod_IP p) Hne c Hc) as Hi.
  destruct (ci_fresh _ _ _ Hi nn p Hget eq_refl) as [(e & He & ->)|[?|?]]; [|by auto..].
  right; right. rewrite serves_entry by (by eapply entries_keyed_creachable).
  rewrite <- elem_of_wantDomains. split; [|by eauto]. intros (e & He' & Hd). by simplify_eq.
Qed.

(** ** Property *)

(** C8: no interleaving of the two workers loses or mixes up an update. Take an indexed
    pod with an address, at any moment of any interleaving of the workers' steps, with
    any answers of the API server to their reads. If no pod was reconciled with the
    address while another indexed pod had it, then every domain the indexed policies
    block for the pod's labels is served; if moreover no policy was reconciled for
    deletion that had been edited, since it was indexed, so that it no longer selects the
    pod, then exactly these are served; unless a worker is at this moment about to
    recalculate or remove the pod's entry, which no idle worker is. *)
Theorem interleaved_pods_exact c nn p d :
  PodIndex.Get (podIndex (c_cache c)) nn = Some p → pod_IP p ≠ "" →
  (creachable (one_pod (pod_IP p)) c →
    covers (c_pol c) p ∨ pending (c_pod c) nn ∨
    (Blocked (policyIndex (c_cache c)) (pod_Labels p) d → serves (c_cache c) (pod_IP p) d)) ∧
  (creachable (undisturbed (pod_IP p)) c →
    covers (c_pol c) p ∨ pending (c_pod c) nn ∨
    (serves (c_cache c) (pod_IP p) d ↔ Blocked (policyIndex (c_cache c)) (pod_Labels p) d)).
Proof. intros Hget Hne. split; [by apply creachable_complete|by apply creachable_exact]. Qed.
End Properties.
