(* ===== verification/Schedules.v ===== *)
(** * Schedules of the two workers

    What the interleaved system of Interleaving.v can and must do: workers never
    wait for each other forever and finish in a bounded number of steps; and one
    schedule leaves an entry without a pod. *)

From S2P Require Import Prelude Types Selectors Stores Client.
From S2P Require Import PodIndex PolicyIndex BlocklistCache PolicyReconciler PodReconciler System.
From S2P Require Import Interleaving.

Section Progress.
Context `{RO : RangeOrder} `{AM : ApiMachinery}.
Implicit Types (bc : Cache) (c : Conf).

(** ** Progress and termination *)

(** A step of a reconciliation that has begun. *)
Inductive istep : Conf → Conf → Prop :=
  | istep_pol bc pl pd bc' pl' :
      pol_step (pod_holds pd = false) bc pl bc' pl' → istep (mkConf bc pl pd) (mkConf bc' pl' pd)
  | istep_pod bc pl pd bc' pd' :
      Interleaving.pod_step (pol_holds pl = false) bc pd bc' pd' →
      istep (mkConf bc pl pd) (mkConf bc' pl pd').

Lemma istep_cnext ok c c' : istep c c' → cnext ok c c'.
Proof. destruct 1; apply cnext_work; by constructor. Qed.

(** A bound on the steps that remain. *)
Definition pol_work (n : nat) (pc : PolPC) : nat :=
  match pc with
  | PolIdle => 0
  | PolRecalc _ => 2 + n
  | PolRecalcChange _ _ => 3 + n + n
  | PolSnap affected _ => 2 + size affected + n
  | PolLoop todo => 1 + length todo
  end.
Definition pod_work (pc : PodPC) : nat :=
  match pc with
  | PodIdle => 0
  | PodGoneRemove _ _ => 2
  | PodGoneDelete _ => 1
  | PodMoveRemove _ _ _ => 5
  | PodUpsert _ _ => 4
  | PodRecalc _ => 3
  | PodCompute _ _ => 2
  | PodWrite _ _ _ => 1
  end.
Definition work c : nat :=
  pol_work (PodIndex.Size (podIndex (c_cache c))) (c_pol c) + 3 * pod_work (c_pod c).

Lemma length_matching bc sel ps :
  ps ≡ₚ PodIndex.GetPodsMatchingSelector (podIndex bc) sel →
  length ps ≤ PodIndex.Size (podIndex bc).
Proof.
  intros ->. rewrite GetPodsMatchingSelector_fmap, length_fmap.
  etransitivity; [apply length_filter|]. rewrite length_fmap, length_range. done.
Qed.

Lemma size_addAffected affected ps : size (addAffected affected ps) ≤ size affected + length ps.
Proof.
  unfold addAffected. revert affected. induction ps as [|p ps IH]; intros affected; simpl; [lia|].
  rewrite IH, map_size_insert. destruct (affected !! pod_IP p); simpl; lia.
Qed.

Lemma pol_work_mono n m pc : n ≤ m → pol_work n pc ≤ pol_work m pc.
Proof. destruct pc; simpl; lia. Qed.

Lemma pol_work_succ n pc : pol_work (S n) pc ≤ 2 + pol_work n pc.
Proof. destruct pc; simpl; lia. Qed.

Lemma Size_Delete_le pi nn : PodIndex.Size (PodIndex.Delete pi nn) ≤ PodIndex.Size pi.
Proof.
  unfold PodIndex.Size, PodIndex.Delete. case_match; simpl; [|done].
  rewrite map_size_delete. case_match; simpl; lia.
Qed.

Lemma pol_step_work free bc pl bc' pl' pd :
  pol_step free bc pl bc' pl' → work (mkConf bc' pl' pd) < work (mkConf bc pl pd).
Proof.
  unfold work; simpl. destruct 1 as [sel|sel todo _ _ Htodo|old new ps _ Hps|affected new ps todo Hps Htodo
    |pod todo|]; simpl; try lia.
  - apply length_matching in Htodo. lia.
  - apply length_matching in Hps. pose proof (size_addAffected ∅ ps) as Hsz.
    rewrite map_size_empty in Hsz. case_bool_decide; rewrite ?map_size_empty; lia.
  - apply length_matching in Hps. pose proof (size_addAffected affected ps) as Hsz.
    rewrite Htodo, length_fmap, length_map_to_list. case_bool_decide; lia.
Qed.

Lemma pod_step_work free bc pd bc' pd' pl :
  Interleaving.pod_step free bc pd bc' pd' → work (mkConf bc' pl pd') < work (mkConf bc pl pd).
Proof.
  unfold work; simpl. destruct 1 as [| req | |req info|req|req pod|]; simpl; try lia.
  - pose proof (pol_work_mono _ _ pl (Size_Delete_le (podIndex bc) req)). lia.
  - rewrite Size_Upsert. pose proof (pol_work_succ (PodIndex.Size (podIndex bc)) pl).
    case_decide; lia.
  - case_match; simpl; lia.
  - case_match; simpl; lia.
Qed.

Lemma istep_work c c' : istep c c' → work c' < work c.
Proof. destruct 1; eauto using pol_step_work, pod_step_work. Qed.

Lemma pol_can_step free bc pl :
  pl ≠ PolIdle → pol_holds pl = true ∨ free → ∃ bc' pl', pol_step free bc pl bc' pl'.
Proof.
  intros Hne Hfree. destruct pl as [|sel|old new|affected new|[|pod todo]]; simpl in *; [done|..].
  - destruct (decide (mlen sel = 0)) as [Hz|Hz]; [by do 2 eexists; constructor|].
    destruct Hfree; [done|]. by do 2 eexists; econstructor.
  - destruct Hfree; [done|]. by do 2 eexists; econstructor.
  - by do 2 eexists; econstructor.
  - by do 2 eexists; econstructor.
  - by do 2 eexists; econstructor.
Qed.

Lemma pod_can_step free bc pd :
  pd ≠ PodIdle → pod_holds pd = true ∨ free →
  ∃ bc' pd', Interleaving.pod_step free bc pd bc' pd'.
Proof.
  intros Hne Hfree. destruct pd; simpl in *; try done;
    try (destruct Hfree; [done|]); do 2 eexists; econstructor; eauto.
Qed.

Lemma istep_exclusive c c' : istep c c' → exclusive c → exclusive c'.
Proof. destruct 1; apply (cstep_exclusive None); by constructor. Qed.

Lemma exclusive_progress c :
  exclusive c → c_pol c ≠ PolIdle ∨ c_pod c ≠ PodIdle → ∃ c', istep c c'.
Proof.
  intros Hl Hbusy. unfold exclusive in Hl.
  destruct c as [bc pl pd]; simpl in *.
  destruct (pod_holds pd) eqn:Hh.
  - destruct (pod_can_step (pol_holds pl = false) bc pd) as (bc' & pd' & ?); [by intros ->|by left|].
    eexists. by eapply istep_pod.
  - destruct (pol_holds pl) eqn:Hpl.
    + destruct (pol_can_step (pod_holds pd = false) bc pl) as (bc' & pl' & ?); [by intros ->|by left|].
      eexists. by eapply istep_pol.
    + destruct Hbusy as [Hbusy|Hbusy].
      * destruct (pol_can_step (pod_holds pd = false) bc pl) as (bc' & pl' & ?); [done|by right|].
        eexists. by eapply istep_pol.
      * destruct (pod_can_step (pol_holds pl = false) bc pd) as (bc' & pd' & ?); [done|by right|].
        eexists. by eapply istep_pod.
Qed.

Lemma istep_bounded n c c' : nsteps istep n c c' → n + work c' ≤ work c.
Proof.
  induction 1 as [c|n c1 c2 c3 Hstep _ IH]; [done|]. apply istep_work in Hstep. lia.
Qed.

Lemma istep_run ok c c' : rtc istep c c' → rtc (cnext ok) c c'.
Proof. apply rtc_subrel. exact (istep_cnext ok). Qed.

Lemma creachable_run ok c c' : creachable ok c → rtc istep c c' → creachable ok c'.
Proof. intros Hc Hrun. unfold creachable in *. etransitivity; [exact Hc|by apply istep_run]. Qed.

(** The workers finish. From every configuration of every run, the steps of the
    reconciliations that have begun are bounded by [work], so neither worker loops;
    and as long as one has not finished, some step is possible, so the locks of
    the cache and of the indexes never deadlock. *)
Theorem workers_finish c :
  creachable anything c →
  (∀ n c', nsteps istep n c c' → n ≤ work c) ∧
  (∀ c', rtc istep c c' → c_pol c' ≠ PolIdle ∨ c_pod c' ≠ PodIdle → ∃ c'', istep c' c'').
Proof.
  intros Hc. split.
  - intros n c' Hrun%istep_bounded. lia.
  - intros c' Hrun. apply exclusive_progress, (creachable_exclusive anything). by eapply creachable_run.
Qed.
End Progress.

(** ** Sequential runs are schedules *)
Section Sequential.
Context `{RO : RangeOrder} `{AM : ApiMachinery}.
Implicit Types (bc : Cache) (c : Conf).

(** *** Finishing what has begun *)
Lemma run_loop bc todo pd :
  rtc istep (mkConf bc (PolLoop todo) pd)
    (mkConf (foldl recalculatePodInternal bc todo) PolIdle pd).
Proof.
  revert bc. induction todo as [|p todo IH]; intros bc; simpl.
  - apply rtc_once, istep_pol. constructor.
  - eapply rtc_l; [apply istep_pol; constructor|]. apply IH.
Qed.

Lemma run_recalc bc sel pd :
  pod_holds pd = false →
  rtc istep (mkConf bc (PolRecalc sel) pd) (mkConf (RecalculateForPolicy bc sel) PolIdle pd).
Proof.
  intros Hfree. unfold RecalculateForPolicy. case_bool_decide.
  - apply rtc_once, istep_pol. by constructor.
  - eapply rtc_l; [apply istep_pol; by constructor|]. apply run_loop.
Qed.

Lemma run_change bc old new pd :
  pod_holds pd = false →
  rtc istep (mkConf bc (PolRecalcChange old new) pd)
    (mkConf (RecalculateForPolicyChange bc old new) PolIdle pd).
Proof.
  intros Hfree. rewrite RecalculateForPolicyChange_list.
  eapply rtc_l; [apply istep_pol; by constructor|].
  eapply rtc_l; [apply istep_pol, (pol_change_snap _ bc _ _ _ (range (affectedBy bc old new)).*2 (reflexivity _));
    exact (fmap_Permutation snd _ _ (range_perm _))|].
  apply run_loop.
Qed.

Lemma run_recalc_pod bc req pl :
  pol_holds pl = false →
  rtc istep (mkConf bc pl (PodRecalc req)) (mkConf (RecalculatePod bc req) pl PodIdle).
Proof.
  intros Hfree. eapply rtc_l; [apply istep_pod; by constructor|]. unfold RecalculatePod; simpl.
  destruct (PodIndex.Get (podIndex bc) req) as [pod|]; [|done].
  eapply rtc_l; [apply istep_pod; constructor|]. unfold recalculatePodInternal.
  destruct (str_empty (pod_IP pod)); [done|]. apply rtc_once, istep_pod. constructor.
Qed.

Lemma run_pod_seen bc req info pl :
  pol_holds pl = false →
  rtc istep
    (mkConf bc pl (match PodIndex.Get (podIndex bc) req with
                   | Some existing =>
                       if bool_decide (pod_IP existing ≠ pod_IP info)
                       then PodMoveRemove req info (pod_IP existing) else PodUpsert req info
                   | None => PodUpsert req info
                   end))
    (mkConf (cacheAfterPod bc req info) pl PodIdle).
Proof.
  intros Hfree. unfold cacheAfterPod. destruct (PodIndex.Get (podIndex bc) req) as [old|].
  - case_bool_decide.
    + eapply rtc_l; [apply istep_pod; by constructor|].
      eapply rtc_l; [apply istep_pod; by constructor|]. by apply run_recalc_pod.
    + eapply rtc_l; [apply istep_pod; by constructor|]. by apply run_recalc_pod.
  - eapply rtc_l; [apply istep_pod; by constructor|]. by apply run_recalc_pod.
Qed.

Lemma run_pod_removal bc req pl :
  pol_holds pl = false →
  rtc istep
    (mkConf bc pl (match PodIndex.Get (podIndex bc) req with
                   | Some existing => PodGoneRemove req (pod_IP existing)
                   | None => PodGoneDelete req
                   end))
    (mkConf (cacheAfterPodGone bc req) pl PodIdle).
Proof.
  intros Hfree. unfold cacheAfterPodGone, removeExisting.
  destruct (PodIndex.Get (podIndex bc) req) as [old|].
  - eapply rtc_l; [apply istep_pod; by constructor|]. apply rtc_once, istep_pod.
    exact (pod_gone_delete _ (RemovePod bc (pod_IP old)) req).
  - apply rtc_once, istep_pod. constructor.
Qed.

(** *** From one idle state to the next: a reconciliation run to completion *)
Lemma run_removal bc req sel pd :
  pod_holds pd = false →
  rtc istep (mkConf (with_policies bc (PolicyIndex.Delete (policyIndex bc) req).1)
      (if bool_decide (0 < mlen sel) then PolRecalc sel else PolIdle) pd)
    (mkConf (cacheAfterRemoval bc req sel) PolIdle pd).
Proof. intros Hfree. unfold cacheAfterRemoval. case_bool_decide; [by apply run_recalc|done]. Qed.

Lemma run_upsert bc policy pd :
  pod_holds pd = false →
  let '(idx, old) := PolicyIndex.Upsert (policyIndex bc) policy in
  rtc istep (mkConf (with_policies bc idx)
      (if negb (is_nil old) && negb (selectorsEqual old (policy_selector policy))
       then PolRecalcChange old (policy_selector policy) else PolRecalc (policy_selector policy)) pd)
    (mkConf (cacheAfterUpsert bc policy) PolIdle pd).
Proof.
  intros Hfree. unfold cacheAfterUpsert. destruct (PolicyIndex.Upsert _ policy) as [idx old].
  case_match; [by apply run_change|by apply run_recalc].
Qed.

(** A live policy with the finalizer and a selector is read and indexed. *)
Lemma run_live ok bc policy pd :
  pod_holds pd = false →
  Time_IsZero (om_DeletionTimestamp (p_ObjectMeta policy)) = true →
  ContainsFinalizer (p_ObjectMeta policy) dnsPolicyFinalizer = true → mlen (policy_selector policy) ≠ 0 →
  ok bc (ReadPolicy (policy_key policy) (inl policy)) →
  rtc (cnext ok) (mkConf bc PolIdle pd) (mkConf (cacheAfterUpsert bc policy) PolIdle pd).
Proof.
  intros Hfree Htz Hfin Hlen Hok. pose proof (run_upsert bc policy pd Hfree) as Hrun.
  destruct (PolicyIndex.Upsert (policyIndex bc) policy) as [idx old] eqn:Hups.
  eapply rtc_l; [|by apply istep_run]. eapply cnext_read; [|exact Hok].
  eapply (cstep_pol_start 0%Z). cbn [beginPolicy]. rewrite Htz, Hfin, Hups. cbn [negb].
  by rewrite bool_decide_false.
Qed.

(** A pod is found gone. *)
Lemma cnext_gone (ok : RunCondition) bc req pl err :
  IsNotFound err = true → ok bc (ReadPod req (inr err)) →
  cnext ok (mkConf bc pl PodIdle)
    (mkConf bc pl (match PodIndex.Get (podIndex bc) req with
                   | Some existing => PodGoneRemove req (pod_IP existing)
                   | None => PodGoneDelete req
                   end)).
Proof.
  intros Hnf Hok. eapply cnext_read; [|exact Hok].
  apply (cstep_pod_start bc pl req (inr err) _ false). simpl. by rewrite Hnf.
Qed.

(** Every reconciliation of the two reconcilers, as a schedule. *)
Lemma run_policy_Reconcile {A} `{PolicyClient A} (ok : RunCondition) now (st : RState A) req :
  ok (st_cache st) (ReadPolicy req (client_Get (st_api st) req)) →
  rtc (cnext ok) (mkConf (st_cache st) PolIdle PodIdle)
    (mkConf (st_cache (PolicyReconciler.Reconcile now st req).1) PolIdle PodIdle).
Proof.
  intros Hok. unfold PolicyReconciler.Reconcile.
  destruct (client_Get (st_api st) req) as [policy|err] eqn:Hget.
  - destruct (Time_IsZero _) eqn:Htz, (ContainsFinalizer _ _) eqn:Hfin; simpl; try done.
    + case_bool_decide; [done|]. rewrite reconcileValid_cache. apply run_live; try done.
      by rewrite (client_Get_key _ _ _ Hget).
    + by rewrite reconcileAddFinalizer_cache.
    + rewrite reconcileDeletion_cache. eapply rtc_l; [|by apply istep_run, run_removal].
      eapply cnext_read; [|exact Hok]. eapply (cstep_pol_start now). cbn [beginPolicy]. by rewrite Htz, Hfin.
  - destruct (IsNotFound err) eqn:Hnf; [|done]. simpl. rewrite reconcileNotFound_cache.
    eapply rtc_l; [|by apply istep_run, run_removal]. eapply cnext_read; [|exact Hok].
    eapply (cstep_pol_start now). cbn [beginPolicy]. rewrite Hnf.
    destruct (PolicyIndex.Delete _ req) as [idx [m|]]; done.
Qed.

Lemma run_pod_Reconcile {B} `{PodClient B} (ok : RunCondition) (b : B) bc req :
  ok bc (ReadPod req (pod_client_Get b req)) →
  rtc (cnext ok) (mkConf bc PolIdle PodIdle)
    (mkConf (PodReconciler.Reconcile b bc req).1 PolIdle PodIdle).
Proof.
  intros Hok. rewrite Reconcile_cases. destruct (pod_client_Get b req) as [pod|err].
  - destruct (str_empty (k_PodIP pod)) eqn:He; [done|]. reflect_bools. simpl.
    eapply rtc_l; [|by apply istep_run, run_pod_seen]. eapply cnext_read; [|exact Hok].
    eapply cstep_pod_start. by apply beginPod_seen.
  - destruct (IsNotFound err) eqn:Hnf; [|done]. simpl.
    eapply rtc_l; [by eapply cnext_gone|]. by apply istep_run, run_pod_removal.
Qed.
End Sequential.

(** ** A schedule that leaves an entry without a pod *)
Section Race.
Context `{RO : RangeOrder} `{AM : ApiMachinery}.
Implicit Types (bc : Cache) (c : Conf).

(** C15: a policy reconciliation between the two steps of a pod deletion leaves a
    stale entry. The pod reconciler removes the blocklist entry before it removes
    the pod from the index; when a policy that selects the pod is reconciled in
    between, the recalculation finds the pod in the index and writes the entry
    again. From every quiet configuration of every run, with an indexed pod that an
    indexed policy selects and whose address no other indexed pod has, such a schedule
    ends quiet, with the pod gone and its entry back. The schedule itself reads nothing
    that disturbs any address: no edited policy being deleted, no address in use. *)
Theorem deletion_race_leaves_stale bc nn p policy :
  creachable anything (mkConf bc PolIdle PodIdle) → sole (podIndex bc) (pod_IP p) →
  PodIndex.Get (podIndex bc) nn = Some p → pod_IP p ≠ "" →
  policies (policyIndex bc) !! policy_key policy = Some policy →
  Selects (policy_selector policy) (pod_Labels p) →
  ∃ bc', rtc (cnext undisturbing) (mkConf bc PolIdle PodIdle) (mkConf bc' PolIdle PodIdle) ∧
    PodIndex.Get (podIndex bc') nn = None ∧ (∀ nn' p', PodIndex.Get (podIndex bc') nn' = Some p' → pod_IP p' ≠ pod_IP p) ∧
    entries bc' !! pod_IP p = Some (wantEntry (policyIndex bc') p).
Proof.
  intros Hc Hu Hget Hne Hpol Hsel.
  destruct (index_valid_creachable _ _ Hc _ _ Hpol) as (_ & Htz & Hfin & Hlen).
  set (bc1 := RemovePod bc (pod_IP p)).
  set (bc2 := cacheAfterUpsert bc1 policy).
  set (bc' := with_pods bc2 (PodIndex.Delete (podIndex bc2) nn)).
  destruct (cacheAfterUpsert_indexes bc1 policy) as [Hpods _]. fold bc2 in Hpods.
  assert (∀ nn', PodIndex.Get (podIndex bc') nn' = if decide (nn = nn') then None else PodIndex.Get (podIndex bc) nn')
    as Hget' by (intros nn'; simpl; by rewrite Get_Delete, Hpods).
  exists bc'. split_and!.
  - eapply rtc_l; [apply (cnext_gone undisturbing bc nn PolIdle err_NotFound);
      [by apply IsNotFound_spec; eexists|apply undisturbing_gone]|]. rewrite Hget.
    eapply rtc_l; [by apply cnext_work, cstep_pod; constructor|].
    eapply rtc_r; [by apply (run_live undisturbing bc1 policy); auto using undisturbing_live|].
    apply cnext_work, cstep_pod. constructor.
  - by rewrite Hget', decide_True.
  - intros nn' p' Hp' Hip. rewrite Hget' in Hp'. case_decide as Hnn; [done|].
    apply Hnn. symmetry. by eapply Hu.
  - change (entries bc2 !! pod_IP p = Some (wantEntry (policyIndex bc2) p)).
    by apply (entries_cacheAfterUpsert bc1 policy nn).
Qed.
End Race.
