(* ===== verification/Examples.v ===== *)
(** * Concrete instances

    A small cluster on which the definitions evaluate, and for each property with
    hypotheses a closed instance of it there. *)

From S2P Require Import Prelude Types Selectors Stores Client.
From S2P Require Import PodIndex PolicyIndex BlocklistCache PolicyReconciler PodReconciler System.

(** ** The cluster *)

#[local] Existing Instance order_fwd.
#[local] Existing Instance simple_machinery.

(** A server for pods: a map from names to pods. *)
Abbreviation PodServer := (gmap NamespacedName Pod).

Definition pod_server_Get (b : PodServer) (nn : NamespacedName) : Pod + goerror :=
  match b !! nn with
  | Some p => if decide (PodNamespacedName p = nn) then inl p else inr err_NotFound
  | None => inr err_NotFound
  end.

Lemma pod_server_Get_key b nn p : pod_server_Get b nn = inl p → PodNamespacedName p = nn.
Proof. unfold pod_server_Get. repeat case_match; naive_solver. Qed.

#[export] Instance pod_server_client : PodClient PodServer := {|
  pod_client_Get := pod_server_Get;
  pod_client_Get_key := pod_server_Get_key;
|}.

Definition sel_web : GoMap := Some {["app" := "web"]}.
Definition sel_db : GoMap := Some {["app" := "db"]}.

Definition pod_web : Pod := mkPod "default" "web-1" sel_web "10.0.0.1" "Running".
Definition pod_web_done : Pod := mkPod "default" "web-1" sel_web "10.0.0.1" "Succeeded".
Definition nn_ads : NamespacedName := mkNN "default" "ads".

Definition policy (sel : GoMap) (del : option Time) (fins : list string) (observed : Z) : DnsPolicy :=
  mkPolicy (mkObjectMeta "default" "ads" 1 del (Some fins))
    (mkSpec sel (Some ["track.io"; "ads.com"]) None false false None)
    (mkStatus "" "" observed None).

Definition cluster_pods : PodServer := {[nn_web := pod_web]}.
Definition api (p : DnsPolicy) : ApiServer := {[nn_ads := p]}.

(** The policy as created, and once it is finalized. *)
Definition policy_new : DnsPolicy := policy sel_web None [] 0.
Definition policy_fin : DnsPolicy := policy sel_web None [dnsPolicyFinalizer] 1.

(** ** A run: the pod is reconciled, then the policy *)
Definition w0 : World ApiServer PodServer := init cluster_pods (api policy_fin).
Definition w1 : World ApiServer PodServer := pod_step order_fwd w0 nn_web.
Definition w2 : World ApiServer PodServer := policy_step order_fwd 7%Z w1 nn_ads.

Lemma w0_read : undisturbing (w_cache w0) (ReadPod nn_web (pod_server_Get (w_pods w0) nn_web)).
Proof. apply undisturbing_pod. intros nn p Hget. discriminate Hget. Qed.

Lemma w1_read : undisturbing (w_cache w1) (ReadPolicy nn_ads (server_Get (st_api (w_state w1)) nn_ads)).
Proof. by apply undisturbing_live. Qed.

Lemma reachable_w1 : reachable undisturbing w1.
Proof. apply (reachable_step _ w0 (EvPod order_fwd nn_web)); [constructor|]. intros rd [= <-]. exact w0_read. Qed.

Lemma reachable_w2 : reachable undisturbing w2.
Proof.
  apply (reachable_step _ w1 (EvPolicy order_fwd 7%Z nn_ads)); [apply reachable_w1|].
  intros rd [= <-]. exact w1_read.
Qed.

Lemma reachable_w2_at ip : reachable (undisturbed ip) w2.
Proof. eapply reachable_mono; [|exact reachable_w2]. intros bc rd Hok. exact (Hok ip). Qed.

Example w2_serves : GetBlocklist (w_cache w2) = [mkEntry "10.0.0.1" ["ads.com"; "track.io"]].
Proof. vm_compute. reflexivity. Qed.

Lemma w2_policies : policies (policyIndex (w_cache w2)) = {[nn_ads := policy_fin]}.
Proof. decide_now. Qed.

(** ** Instances of the properties *)

Lemma served_blocklist_exact_witness :
  serves (w_cache w2) "10.0.0.1" "ads.com" ∧ ¬ serves (w_cache w2) "10.0.0.1" "other.com".
Proof.
  split.
  - apply (served_blocklist_exact order_fwd w2 "10.0.0.1" "ads.com"); [apply reachable_w2_at|discriminate|].
    exists nn_web, (mkPodInfo "10.0.0.1" sel_web "default" "web-1"), nn_ads, policy_fin.
    split_and!; [vm_compute; reflexivity..|decide_now|]. right. left.
  - intros (_ & _ & pn & p & _ & _ & Hp & _ & Hd)%(served_blocklist_exact order_fwd w2 "10.0.0.1" "other.com");
      [|apply reachable_w2_at|discriminate].
    rewrite w2_policies, lookup_singleton_Some in Hp. destruct Hp as [<- <-].
    assert ("other.com" ∉ elems (BlockList (p_Spec policy_fin))) as Hn by decide_now. by destruct Hn.
Defined.

(** At [w1] the pod is indexed and its entry is there, still empty. *)
Lemma policy_reconcile_coherent_witness :
  exact_at (st_cache (PolicyReconciler.Reconcile 7%Z (w_state w1) nn_ads).1) "10.0.0.1".
Proof.
  destruct (reachable_coherent _ reachable_w1) as [Hc Hu].
  apply (policy_reconcile_coherent 7%Z (w_state w1) nn_ads "10.0.0.1").
  - discriminate.
  - by apply (ips_unique_sole (podIndex (w_cache w1))).
  - by apply (Coherent_exact (w_cache w1)).
  - apply w1_read.
Defined.

(** The pod of [w2] is relabelled. *)
Lemma pod_reconcile_coherent_witness :
  let relabelled := mkPod "default" "web-1" sel_db "10.0.0.1" "Running" in
  exact_at (PodReconciler.Reconcile ({[nn_web := relabelled]} : PodServer) (w_cache w2) nn_web).1 "10.0.0.1".
Proof.
  intros relabelled. destruct (reachable_coherent _ reachable_w2) as [Hc Hu].
  apply (pod_reconcile_coherent ({[nn_web := relabelled]} : PodServer) (w_cache w2) nn_web "10.0.0.1").
  - discriminate.
  - by apply (ips_unique_sole (podIndex (w_cache w2))).
  - intros pod nn p [= <-] _ Hp _. revert Hp.
    replace (pods (podIndex (w_cache w2))) with ({[nn_web := mkPodInfo "10.0.0.1" sel_web "default" "web-1"]} : gmap NamespacedName PodInfo)
      by decide_now.
    by intros [<- _]%lookup_singleton_Some.
  - by apply (Coherent_exact (w_cache w2)).
Defined.

Lemma reconcile_order_irrelevant_witness :
  entries (st_cache (PolicyReconciler.Reconcile (RO:=order_rev) 7%Z (w_state w1) nn_ads).1) !! "10.0.0.1" =
  entries (st_cache (PolicyReconciler.Reconcile (RO:=order_fwd) 7%Z (w_state w1) nn_ads).1) !! "10.0.0.1".
Proof.
  symmetry. apply (reconcile_order_irrelevant order_fwd order_rev 7%Z (w_state w1) cluster_pods nn_ads).
  apply (ips_unique_sole (podIndex (w_cache w1))); [apply (reachable_coherent _ reachable_w1)|discriminate].
Defined.

Lemma policy_reconcile_index_witness :
  policies (policyIndex (st_cache (PolicyReconciler.Reconcile 7%Z (w_state w1) nn_ads).1)) !! nn_ads =
    Some policy_fin.
Proof. rewrite (proj2 (policy_reconcile_index 7%Z (w_state w1) nn_ads)). vm_compute. reflexivity. Defined.

Lemma policy_reconcile_index_valid_witness :
  index_valid (policies (policyIndex (st_cache (PolicyReconciler.Reconcile 7%Z (w_state w1) nn_ads).1))).
Proof.
  apply (policy_reconcile_index_valid 7%Z (w_state w1) nn_ads).
  exact (inv_policies _ (inv_reachable _ _ reachable_w1)).
Defined.

Lemma empty_selector_rejected_witness :
  let st := mkRState (api (policy None None [dnsPolicyFinalizer] 1)) (w_cache w2) [] in
  PolicyReconciler.Reconcile 7%Z st nn_ads =
    (mkRState (st_api st) (w_cache w2)
      [mkEvent nn_ads EventTypeWarning "InvalidSpec" "TargetSelector cannot be empty"],
     Some (Errorf "targetSelector cannot be empty")).
Proof.
  intros st. apply (empty_selector_rejected 7%Z st nn_ads (policy None None [dnsPolicyFinalizer] 1));
    vm_compute; reflexivity.
Defined.

Lemma policy_reconcile_idempotent_witness :
  PolicyReconciler.Reconcile 9%Z (w_state w2) nn_ads =
    (mkRState (st_api (w_state w2)) (w_cache w2) (st_events (w_state w2) ++
      [mkEvent nn_ads EventTypeNormal "PolicyIndexed" "DnsPolicy successfully indexed"]), None).
Proof.
  apply (policy_reconcile_idempotent 9%Z (w_state w2) nn_ads policy_fin);
    [apply (reachable_coherent _ reachable_w2)
    |apply (reachable_coherent _ reachable_w2)|vm_compute..];
    first [reflexivity|discriminate].
Defined.

Lemma new_policy_indexed_in_two_witness :
  let st := mkRState (api policy_new) (w_cache w1) [] in
  let r1 := PolicyReconciler.Reconcile 7%Z st nn_ads in
  policies (policyIndex (st_cache (PolicyReconciler.Reconcile 8%Z r1.1 nn_ads).1)) !! nn_ads =
    Some (policy sel_web None [dnsPolicyFinalizer] 0).
Proof.
  intros st r1. edestruct (new_policy_indexed_in_two 7%Z 8%Z st nn_ads policy_new
    (api (policy sel_web None [dnsPolicyFinalizer] 0)) (policy sel_web None [dnsPolicyFinalizer] 0))
    as (_ & _ & Hidx & _); [decide_now..|exact Hidx].
Defined.

(** The policy of [w2] is edited to another selector and deleted before the edit
    is reconciled. *)
Lemma deletion_after_edit_leaves_stale_witness :
  let st := mkRState (api (policy sel_db (Some 5%Z) [dnsPolicyFinalizer] 1)) (w_cache w2) [] in
  let st1 := (PolicyReconciler.Reconcile 7%Z st nn_ads).1 in
  ¬ Blocked (policyIndex (st_cache st1)) sel_web "ads.com" ∧
  ∃ e, entries (st_cache st1) !! "10.0.0.1" = Some e ∧ "ads.com" ∈ entry_Domains e.
Proof.
  intros st st1.
  edestruct (deletion_after_edit_leaves_stale 7%Z 8%Z st nn_ads
    (policy sel_db (Some 5%Z) [dnsPolicyFinalizer] 1) policy_fin nn_web
    (mkPodInfo "10.0.0.1" sel_web "default" "web-1") "ads.com" ∅ err_NotFound) as (Hb & He & _).
  - apply (reachable_coherent _ reachable_w2).
  - apply (reachable_coherent _ reachable_w2).
  - vm_compute. reflexivity.
  - vm_compute. reflexivity.
  - vm_compute. reflexivity.
  - vm_compute. reflexivity.
  - vm_compute. reflexivity.
  - discriminate.
  - decide_now.
  - right. left.
  - decide_now.
  - rewrite Blocked_lookup, policies_Delete. intros (nn & p & Hp & _).
    apply lookup_delete_Some in Hp as [Hne Hp]. revert Hp.
    change (st_cache st) with (w_cache w2). rewrite w2_policies.
    by rewrite lookup_singleton_ne.
  - vm_compute. reflexivity.
  - vm_compute. reflexivity.
  - split; [exact Hb|exact He].
Defined.

(** A pod that had failed is reported to have succeeded: the update is filtered out. *)
Lemma filtered_update_is_irrelevant_witness :
  let failed := mkPod "default" "web-1" sel_web "10.0.0.1" "Failed" in
  podEventFilter (UpdateEvent (ObjPod failed) (ObjPod pod_web_done)) = false ∧
  PodReconciler.Reconcile ({[nn_web := pod_web_done]} : PodServer) (w_cache w2) nn_web =
  PodReconciler.Reconcile ({[nn_web := failed]} : PodServer) (w_cache w2) nn_web.
Proof.
  intros failed. split; [vm_compute; reflexivity|].
  apply (filtered_update_is_irrelevant ({[nn_web := failed]} : PodServer) {[nn_web := pod_web_done]}
    (w_cache w2) failed pod_web_done); vm_compute; reflexivity.
Defined.

Lemma phase_is_ignored_witness :
  is_Some (PodIndex.Get (podIndex
    (PodReconciler.Reconcile ({[nn_web := pod_web_done]} : PodServer) (w_cache w2) nn_web).1) nn_web).
Proof.
  apply (phase_is_ignored cluster_pods {[nn_web := pod_web_done]} (w_cache w2) pod_web "Succeeded");
    vm_compute; first [reflexivity|discriminate].
Defined.

(** A second pod is reconciled with the address of the first one, which is then
    found gone: the second pod is still indexed and matched by the policy. *)
Definition nn_web2 : NamespacedName := mkNN "default" "web-2".
Definition bc_reused : Cache :=
  (PodReconciler.Reconcile
    ({[nn_web2 := mkPod "default" "web-2" sel_web "10.0.0.1" "Running"]} : PodServer)
    (w_cache w2) nn_web2).1.

Lemma address_reuse_unblocks_witness :
  let bc' := (PodReconciler.Reconcile (∅ : PodServer) bc_reused nn_web).1 in
  PodIndex.Get (podIndex bc') nn_web2 = Some (mkPodInfo "10.0.0.1" sel_web "default" "web-2") ∧
  entries bc' !! "10.0.0.1" = None.
Proof.
  apply (address_reuse_unblocks (∅ : PodServer) bc_reused nn_web nn_web2
    (mkPodInfo "10.0.0.1" sel_web "default" "web-1")
    (mkPodInfo "10.0.0.1" sel_web "default" "web-2") err_NotFound);
    vm_compute; first [reflexivity|discriminate].
Defined.

Lemma addressless_pod_skipped_witness :
  let pod := mkPod "default" "web-1" sel_web "" "Failed" in
  ∃ e, e ∈ GetBlocklist (PodReconciler.Reconcile ({[nn_web := pod]} : PodServer) (w_cache w2) nn_web).1 ∧
    entry_IP e = "10.0.0.1" ∧ "ads.com" ∈ entry_Domains e.
Proof.
  intros pod. apply (addressless_pod_skipped {[nn_web := pod]} (w_cache w2) pod
    (mkPodInfo "10.0.0.1" sel_web "default" "web-1") "ads.com").
  - apply (reachable_coherent _ reachable_w2).
  - vm_compute. reflexivity.
  - reflexivity.
  - vm_compute. reflexivity.
  - discriminate.
  - rewrite Blocked_lookup. exists nn_ads, policy_fin. split_and!; [vm_compute; reflexivity|decide_now|].
    right. left.
Defined.

(** A cache with a stale entry is repaired by a full refresh. *)
Definition bc_stale : Cache :=
  with_entries (w_cache w2) {["10.9.9.9" := mkEntry "10.9.9.9" ["old.com"]]}.

Lemma full_refresh_repairs_witness : Coherent (RecalculateAll bc_stale).
Proof. apply (full_refresh_repairs bc_stale). apply (reachable_coherent _ reachable_w2). Defined.
