(* ===== verification/ScheduleExamples.v ===== *)
(** * Concrete schedules

    The run of Examples.v as a configuration of the interleaved system, and the
    properties of schedules at it. *)

From S2P Require Import Prelude Types Selectors Stores Client.
From S2P Require Import PodIndex PolicyIndex BlocklistCache PolicyReconciler PodReconciler System.
From S2P Require Import Interleaving Schedules Examples.

#[local] Existing Instance order_fwd.
#[local] Existing Instance simple_machinery.

Definition quiet : Conf := mkConf (w_cache w2) PolIdle PodIdle.
Definition web_info : PodInfo := mkPodInfo "10.0.0.1" sel_web "default" "web-1".

Lemma creachable_quiet ok :
  (∀ bc rd, undisturbing bc rd → ok bc rd) → creachable ok quiet.
Proof.
  intros Hok. unfold creachable. transitivity (mkConf (w_cache w1) PolIdle PodIdle).
  - apply (run_pod_Reconcile ok (w_pods w0) (w_cache w0)), Hok, w0_read.
  - apply (run_policy_Reconcile ok 7%Z (w_state w1) nn_ads), Hok, w1_read.
Qed.

Lemma interleaved_pods_exact_witness :
  serves (c_cache quiet) "10.0.0.1" "ads.com" ↔ Blocked (policyIndex (c_cache quiet)) sel_web "ads.com".
Proof.
  destruct (interleaved_pods_exact quiet nn_web web_info "ads.com") as [_ H];
    [vm_compute; reflexivity|discriminate|].
  destruct H as [H|[H|H]]; [by apply creachable_quiet; intros bc rd Hok; apply Hok|destruct H|destruct H|exact H].
Defined.

(** The pod was found gone: its entry is about to be removed. *)
Definition removing : Conf := mkConf (w_cache w2) PolIdle (PodGoneRemove nn_web "10.0.0.1").

Lemma creachable_removing : creachable anything removing.
Proof.
  eapply creachable_step; [by apply creachable_quiet|].
  exact (cnext_gone anything (w_cache w2) nn_web PolIdle err_NotFound eq_refl I).
Qed.

Lemma workers_finish_witness : ∃ c', istep removing c'.
Proof.
  apply (workers_finish removing creachable_removing); [apply rtc_refl|right; discriminate].
Defined.

Lemma deletion_race_leaves_stale_witness :
  ∃ bc', rtc (cnext undisturbing) quiet (mkConf bc' PolIdle PodIdle) ∧
    PodIndex.Get (podIndex bc') nn_web = None ∧ is_Some (entries bc' !! "10.0.0.1").
Proof.
  destruct (deletion_race_leaves_stale (w_cache w2) nn_web web_info policy_fin)
    as (bc' & Hrun & Hget & _ & He).
  - by apply creachable_quiet.
  - apply (ips_unique_sole (podIndex (w_cache w2))); [apply (reachable_coherent _ reachable_w2)|discriminate].
  - vm_compute. reflexivity.
  - discriminate.
  - vm_compute. reflexivity.
  - decide_now.
  - exists bc'. split_and!; [exact Hrun|exact Hget|]. eexists. exact He.
Defined.
