(* ===== verification/Json.v ===== *)
(** * JSON as Go's encoding/json writes it

    What the controller and the webhook use of encoding/json: string literals
    with the HTML-safe escaping of [json.Marshal], arrays, objects in the order of
    their fields, and maps in the order of their keys. Bytes are [N]. A reader of
    JSON documents serves as the reference: what is written reads back. *)

From Stdlib Require Import Ascii NArith ZifyN Wf_nat.
From S2P Require Import Prelude.

Abbreviation bytes := (list N).

(** [[]byte(s)] *)
Definition bytes_of (s : string) : bytes := N_of_ascii <$> String.list_ascii_of_string s.

(** [string(bs)] *)
Definition string_of (bs : bytes) : string := String.string_of_list_ascii (ascii_of_N <$> bs).

Lemma string_of_bytes_of s : string_of (bytes_of s) = s.
Proof.
  unfold string_of, bytes_of. rewrite <- list_fmap_compose.
  rewrite <- (String.string_of_list_ascii_of_string s) at 2. f_equal.
  induction (String.list_ascii_of_string s) as [|c l IH]; [done|]. csimpl. by rewrite ascii_N_embedding, IH.
Qed.

Definition is_byte (b : N) : Prop := (b < 256)%N.

Module Utf8.
#[local] Open Scope N_scope.

(** ** unicode/utf8

    A string as the runes [utf8.DecodeRune] reads from it; a byte that does not
    begin a well-formed sequence is read alone, as [RuneError] of width 1. *)
Inductive rune := Rune (bs : bytes) | RuneError (b : N).

Definition between (lo hi b : N) : bool := (lo <=? b) && (b <=? hi).
Definition cont (b : N) : bool := between 128 191 b.

(** The second byte of a sequence is restricted for some first bytes, which
    excludes overlong forms, surrogates and code points over 10FFFF. *)
Definition seq2 (b0 b1 : N) : bool := between 194 223 b0 && cont b1.
Definition seq3 (b0 b1 b2 : N) : bool :=
  between 224 239 b0 &&
  between (if b0 =? 224 then 160 else 128) (if b0 =? 237 then 159 else 191) b1 && cont b2.
Definition seq4 (b0 b1 b2 b3 : N) : bool :=
  between 240 244 b0 &&
  between (if b0 =? 240 then 144 else 128) (if b0 =? 244 then 143 else 191) b1 && cont b2 && cont b3.

Fixpoint runes (s : bytes) : list rune :=
  match s with
  | [] => []
  | b0 :: s1 =>
      if b0 <? 128 then Rune [b0] :: runes s1
      else
        match s1 with
        | b1 :: s2 =>
            if seq2 b0 b1 then Rune [b0; b1] :: runes s2
            else
              match s2 with
              | b2 :: s3 =>
                  if seq3 b0 b1 b2 then Rune [b0; b1; b2] :: runes s3
                  else
                    match s3 with
                    | b3 :: s4 =>
                        if seq4 b0 b1 b2 b3 then Rune [b0; b1; b2; b3] :: runes s4
                        else RuneError b0 :: runes s1
                    | [] => RuneError b0 :: runes s1
                    end
              | [] => RuneError b0 :: runes s1
              end
        | [] => RuneError b0 :: runes s1
        end
  end.

(** The bytes a rune was read from, and those it is written with: the
    replacement character U+FFFD stands for an error. *)
Definition raw (r : rune) : bytes := match r with Rune bs => bs | RuneError b => [b] end.
Definition written (r : rune) : bytes :=
  match r with Rune bs => bs | RuneError _ => [239; 191; 189] end.

(** [strings.ToValidUTF8(s, "\uFFFD")], per byte *)
Definition sanitize (s : bytes) : bytes := runes s ≫= written.

(** [utf8.ValidString] *)
Definition valid (s : bytes) : bool :=
  forallb (λ r, match r with Rune _ => true | RuneError _ => false end) (runes s).

(** Code points below 800 hexadecimal fit two bytes, the others of the basic
    plane three. *)
Definition encodeRune (c : N) : bytes :=
  if c <? 128 then [c]
  else if c <? 2048 then [192 + c / 64; 128 + c mod 64]
  else [224 + c / 4096; 128 + (c / 64) mod 64; 128 + c mod 64].

(** *** Lemmas *)

(** The runes of a string are an ASCII character, or bytes over 127. *)
Definition rune_ok (r : rune) : Prop :=
  match r with
  | Rune bs => (∃ b, bs = [b] ∧ b < 128) ∨ (bs ≠ [] ∧ Forall (λ b, 128 ≤ b < 256) bs)
  | RuneError b => 128 ≤ b
  end.

Lemma between_bounds lo hi b : between lo hi b = true ↔ lo ≤ b ≤ hi.
Proof. unfold between. rewrite andb_true_iff, !N.leb_le. done. Qed.

Ltac bounds :=
  reflect_bools;
  repeat match goal with H : between _ _ _ = true |- _ => apply between_bounds in H end;
  repeat match goal with H : context [if ?b then _ else _] |- _ => destruct b end;
  repeat constructor; lia.

Lemma seq2_ok b0 b1 : seq2 b0 b1 = true → rune_ok (Rune [b0; b1]).
Proof. unfold seq2, cont. intros H. right. split; [done|]. bounds. Qed.
Lemma seq3_ok b0 b1 b2 : seq3 b0 b1 b2 = true → rune_ok (Rune [b0; b1; b2]).
Proof. unfold seq3, cont. intros H. right. split; [done|]. bounds. Qed.
Lemma seq4_ok b0 b1 b2 b3 : seq4 b0 b1 b2 b3 = true → rune_ok (Rune [b0; b1; b2; b3]).
Proof. unfold seq4, cont. intros H. right. split; [done|]. bounds. Qed.

(** Induction over the runes of a string. *)
Lemma runes_ind (P : bytes → list rune → Prop) :
  P [] [] →
  (∀ r s rs, rune_ok r → P s rs → P (raw r ++ s) (r :: rs)) →
  ∀ s, P s (runes s).
Proof.
  intros Hnil Hcons s. induction s as [s IH] using (induction_ltof1 _ (@length N)).
  unfold ltof in IH. destruct s as [|b0 s1]; [done|]. simpl.
  destruct (N.ltb_spec b0 128) as [Hb|Hb].
  { apply (Hcons (Rune [b0])); [left; eauto|apply IH; simpl; lia]. }
  assert (P (b0 :: s1) (RuneError b0 :: runes s1)) as Herr
    by (apply (Hcons (RuneError b0)); [done|apply IH; simpl; lia]).
  destruct s1 as [|b1 s2]; [done|]. destruct (seq2 b0 b1) eqn:H2.
  { apply (Hcons (Rune [b0; b1])); [by apply seq2_ok|apply IH; simpl; lia]. }
  destruct s2 as [|b2 s3]; [done|]. destruct (seq3 b0 b1 b2) eqn:H3.
  { apply (Hcons (Rune [b0; b1; b2])); [by apply seq3_ok|apply IH; simpl; lia]. }
  destruct s3 as [|b3 s4]; [done|]. destruct (seq4 b0 b1 b2 b3) eqn:H4; [|done].
  apply (Hcons (Rune [b0; b1; b2; b3])); [by apply seq4_ok|apply IH; simpl; lia].
Qed.

Lemma runes_raw s : runes s ≫= raw = s.
Proof.
  apply (runes_ind (λ s rs, rs ≫= raw = s)); [done|].
  intros r s' rs _ IH. csimpl. by rewrite IH.
Qed.

Lemma runes_ok s : Forall rune_ok (runes s).
Proof. apply (runes_ind (λ _ rs, Forall rune_ok rs)); [done|]. by constructor. Qed.

Lemma sanitize_valid s : valid s = true → sanitize s = s.
Proof.
  intros Hv. rewrite <- (runes_raw s) at 2. unfold sanitize, valid in *.
  induction (runes s) as [|r rs IH]; [done|]; csimpl in *. apply andb_true_iff in Hv as [Hr Hrs].
  rewrite IH by done. by destruct r.
Qed.
End Utf8.

(** ** String literals *)
Module Literal.
Import Utf8.
#[local] Open Scope N_scope.

(** ["0123456789abcdef"[n]] *)
Definition hexdigit (n : N) : N := if n <? 10 then 48 + n else 87 + n.

(** [htmlSafeSet]: printable ASCII but the quote, the backslash and the
    characters that are special in HTML. *)
Definition htmlSafe (b : N) : bool :=
  (32 <=? b) && negb (b =? 34) && negb (b =? 92) && negb (b =? 60) && negb (b =? 62) && negb (b =? 38).

(** One ASCII character. *)
Definition escapeByte (b : N) : bytes :=
  if htmlSafe b then [b]
  else if (b =? 92) || (b =? 34) then [92; b]
  else if b =? 8 then [92; 98]
  else if b =? 12 then [92; 102]
  else if b =? 10 then [92; 110]
  else if b =? 13 then [92; 114]
  else if b =? 9 then [92; 116]
  else [92; 117; 48; 48; hexdigit (N.shiftr b 4); hexdigit (N.land b 15)].

(** One rune: line and paragraph separators are escaped, and the replacement
    character is written as an escape when it stands for an error. *)
Definition escapeRune (r : rune) : bytes :=
  match r with
  | Rune [b] => escapeByte b
  | Rune bs =>
      if bool_decide (bs = [226; 128; 168]) then [92; 117; 50; 48; 50; 56]
      else if bool_decide (bs = [226; 128; 169]) then [92; 117; 50; 48; 50; 57]
      else bs
  | RuneError _ => [92; 117; 102; 102; 102; 100]
  end.

(** [appendString] *)
Definition quote (s : bytes) : bytes := [34] ++ (runes s ≫= escapeRune) ++ [34].

(** ** A reader of string literals, after the opening quote *)
Definition unhex (b : N) : option N :=
  if between 48 57 b then Some (b - 48)
  else if between 97 102 b then Some (b - 87)
  else if between 65 70 b then Some (b - 55)
  else None.

Definition simpleEscape (b : N) : option N :=
  if b =? 34 then Some 34 else if b =? 92 then Some 92 else if b =? 47 then Some 47
  else if b =? 98 then Some 8 else if b =? 102 then Some 12 else if b =? 110 then Some 10
  else if b =? 114 then Some 13 else if b =? 116 then Some 9 else None.

Definition prepend (bs : bytes) (r : option (bytes * bytes)) : option (bytes * bytes) :=
  '(s, rest) ← r; Some (bs ++ s, rest).

(** Escapes of surrogates are refused: the writer produces none. *)
Fixpoint unquote (l : bytes) : option (bytes * bytes) :=
  match l with
  | [] => None
  | b :: l1 =>
      if b =? 34 then Some ([], l1)
      else if b =? 92 then
        match l1 with
        | [] => None
        | e :: l2 =>
            if e =? 117 then
              match l2 with
              | h3 :: h2 :: h1 :: h0 :: l6 =>
                  d3 ← unhex h3; d2 ← unhex h2; d1 ← unhex h1; d0 ← unhex h0;
                  let c := 4096 * d3 + 256 * d2 + 16 * d1 + d0 in
                  if between 55296 57343 c then None else prepend (encodeRune c) (unquote l6)
              | _ => None
              end
            else c ← simpleEscape e; prepend [c] (unquote l2)
        end
      else if b <? 32 then None
      else prepend [b] (unquote l1)
  end.

Lemma prepend_app a b r : prepend (a ++ b) r = prepend a (prepend b r).
Proof. destruct r as [[s rest]|]; [|done]. simpl. by rewrite (assoc_L (++)). Qed.

Lemma unhex_hexdigit n : n < 16 → unhex (hexdigit n) = Some n.
Proof.
  intros Hn. unfold unhex, hexdigit, between.
  destruct (N.ltb_spec n 10);
    repeat match goal with |- context [?a <=? ?b] => destruct (N.leb_spec a b); try lia end;
    simpl; f_equal; lia.
Qed.

(** *** Reading what was written *)

Lemma unquote_plain bs l :
  Forall (λ b, 32 ≤ b ∧ b ≠ 34 ∧ b ≠ 92) bs → unquote (bs ++ l) = prepend bs (unquote l).
Proof.
  induction 1 as [|b bs (Hlo & Hq & Hb) _ IH]; simpl; [by destruct (unquote l) as [[]|]|].
  rewrite (proj2 (N.eqb_neq b 34)), (proj2 (N.eqb_neq b 92)), (proj2 (N.ltb_ge b 32)) by done.
  rewrite IH, <- (prepend_app [b] bs). done.
Qed.

Lemma unquote_hex4 h3 h2 h1 h0 l :
  unquote (92 :: 117 :: h3 :: h2 :: h1 :: h0 :: l) =
    (d3 ← unhex h3; d2 ← unhex h2; d1 ← unhex h1; d0 ← unhex h0;
     let c := 4096 * d3 + 256 * d2 + 16 * d1 + d0 in
     if between 55296 57343 c then None else prepend (encodeRune c) (unquote l)).
Proof. done. Qed.

Lemma unquote_escapeByte b l : b < 128 → unquote (escapeByte b ++ l) = prepend [b] (unquote l).
Proof.
  intros Hb. unfold escapeByte. destruct (htmlSafe b) eqn:Hs.
  { apply unquote_plain. unfold htmlSafe in Hs. reflect_bools.
    repeat match goal with H : (_ =? _) = false |- _ => apply N.eqb_neq in H end.
    repeat constructor; try done. by apply N.leb_le. }
  repeat match goal with |- context [if ?c =? ?d then _ else _] =>
    destruct (N.eqb_spec c d); [by subst|] end.
  destruct ((b =? 92) || (b =? 34)) eqn:Ho.
  { apply orb_true_iff in Ho as [->%N.eqb_eq| ->%N.eqb_eq]; done. }
  repeat match goal with |- context [if ?c =? ?d then _ else _] =>
    destruct (N.eqb_spec c d); [by subst|] end.
  assert (N.shiftr b 4 < 8 ∧ N.land b 15 < 16 ∧ 16 * N.shiftr b 4 + N.land b 15 = b) as (Hhi & Hlo & Hval).
  { rewrite N.shiftr_div_pow2. change 15 with (N.ones 4). rewrite N.land_ones.
    change (2 ^ 4) with 16. split_and!; [apply N.Div0.div_lt_upper_bound; lia|by apply N.mod_lt|].
    symmetry. apply N.div_mod'. }
  rewrite <- (app_nil_l l) at 1. cbn [app]. rewrite unquote_hex4.
  rewrite !unhex_hexdigit by lia. change (unhex 48) with (Some 0). simpl mbind.
  cbv beta iota zeta. cbn [mbind option_bind].
  replace (4096 * 0 + 256 * 0 + 16 * N.shiftr b 4 + N.land b 15) with b by lia.
  unfold between. rewrite (proj2 (N.leb_gt 55296 b)) by lia. simpl.
  unfold encodeRune. by rewrite (proj2 (N.ltb_lt b 128)).
Qed.

Lemma escapeRune_multi bs :
  (1 < length bs)%nat →
  (bs = [226; 128; 168] ∧ escapeRune (Rune bs) = [92; 117; 50; 48; 50; 56]) ∨
  (bs = [226; 128; 169] ∧ escapeRune (Rune bs) = [92; 117; 50; 48; 50; 57]) ∨
  escapeRune (Rune bs) = bs.
Proof.
  intros Hlen. destruct (decide (bs = [226; 128; 168])) as [->|H1]; [by left|].
  destruct (decide (bs = [226; 128; 169])) as [->|H2]; [by right; left|]. right; right.
  unfold escapeRune. destruct bs as [|b0 [|b1 bs]]; simpl in Hlen; [lia|lia|].
  by rewrite !bool_decide_false by done.
Qed.

Lemma unquote_escapeRune r l :
  rune_ok r → unquote (escapeRune r ++ l) = prepend (written r) (unquote l).
Proof.
  destruct r as [bs|b]; [|done]. intros [(b & -> & Hb)|[Hne Hall]].
  { by apply unquote_escapeByte. }
  destruct bs as [|b0 [|b1 bs]]; [done| |].
  { apply Forall_cons in Hall as [Hb0 _]. simpl. unfold escapeByte, htmlSafe.
    repeat match goal with |- context [?a =? ?b] => destruct (N.eqb_spec a b); [lia|] end.
    rewrite (proj2 (N.leb_le 32 b0)) by lia. apply (unquote_plain [b0]).
    constructor; [|done]. lia. }
  destruct (escapeRune_multi (b0 :: b1 :: bs)) as [[-> ->]|[[-> ->]| ->]]; [simpl; lia|done..|].
  apply unquote_plain. eapply Forall_impl; [exact Hall|]. simpl. lia.
Qed.

(** A literal reads back as the string with its errors replaced. *)
Lemma unquote_quote s l : unquote ((runes s ≫= escapeRune) ++ 34 :: l) = Some (sanitize s, l).
Proof.
  unfold sanitize. generalize (runes_ok s). induction (runes s) as [|r rs IH]; csimpl; [done|].
  intros [Hr Hrs]%Forall_cons. rewrite <- (assoc_L (++)), unquote_escapeRune, IH by done. done.
Qed.
End Literal.

(** ** Documents *)
Inductive json :=
  | JNull
  | JBool (b : bool)
  | JNum (n : N)
  | JStr (s : bytes)
  | JArr (l : list json)
  | JObj (l : list (bytes * json)).

(** Induction with the hypothesis for the values inside arrays and objects. *)
Section JsonInd.
Variable P : json → Prop.
Hypothesis Hnull : P JNull.
Hypothesis Hbool : ∀ b, P (JBool b).
Hypothesis Hnum : ∀ n, P (JNum n).
Hypothesis Hstr : ∀ s, P (JStr s).
Hypothesis Harr : ∀ l, Forall P l → P (JArr l).
Hypothesis Hobj : ∀ l, Forall (λ kv, P kv.2) l → P (JObj l).

Fixpoint json_nested_ind (v : json) : P v :=
  match v with
  | JNull => Hnull
  | JBool b => Hbool b
  | JNum n => Hnum n
  | JStr s => Hstr s
  | JArr l => Harr l ((fix go l := match l return Forall P l with
      | [] => Forall_nil_2 P
      | v :: l => Forall_cons_2 P v l (json_nested_ind v) (go l) end) l)
  | JObj l => Hobj l ((fix go l := match l return Forall (λ kv, P kv.2) l with
      | [] => Forall_nil_2 _
      | kv :: l => Forall_cons_2 _ kv l (json_nested_ind kv.2) (go l) end) l)
  end.
End JsonInd.

(** Arithmetic with quotients and remainders. *)
#[local] Ltac Zify.zify_post_hook ::= Z.div_mod_to_equations.

Module Document.
Import Utf8 Literal.
#[local] Open Scope N_scope.

(** [strconv.AppendInt(n, 10)] for [n >= 0]: digits are produced from the last
    one; as many rounds as the number has bits are enough. *)
Fixpoint decimal (fuel : nat) (n : N) (acc : bytes) : bytes :=
  match fuel with
  | O => acc
  | S fuel =>
      let acc := (48 + n mod 10) :: acc in
      if n <? 10 then acc else decimal fuel (n / 10) acc
  end.
Definition writeNum (n : N) : bytes := decimal (S (N.to_nat (N.size n))) n [].

(** Comma-separated items. *)
Fixpoint commas (l : list bytes) : bytes :=
  match l with
  | [] => []
  | [x] => x
  | x :: l => x ++ [44] ++ commas l
  end.

(** [json.Marshal] of the value *)
Fixpoint write (v : json) : bytes :=
  match v with
  | JNull => [110; 117; 108; 108]
  | JBool true => [116; 114; 117; 101]
  | JBool false => [102; 97; 108; 115; 101]
  | JNum n => writeNum n
  | JStr s => quote s
  | JArr l => [91] ++ commas ((fix go l := match l with [] => [] | v :: l => write v :: go l end) l) ++ [93]
  | JObj l => [123] ++ commas ((fix go l := match l with
      | [] => [] | (k, v) :: l => (quote k ++ [58] ++ write v) :: go l end) l) ++ [125]
  end.

Lemma write_JArr l : write (JArr l) = [91] ++ commas (write <$> l) ++ [93].
Proof. reflexivity. Qed.

Lemma write_JObj l :
  write (JObj l) = [123] ++ commas ((λ kv, quote kv.1 ++ [58] ++ write kv.2) <$> l) ++ [125].
Proof. simpl. do 3 f_equal. induction l as [|[k v] l IH]; [done|]; csimpl. by rewrite IH. Qed.

(** ** A reader of documents *)
Fixpoint strip (pre l : bytes) : option bytes :=
  match pre, l with
  | [], _ => Some l
  | p :: pre, b :: l => if p =? b then strip pre l else None
  | _ :: _, [] => None
  end.

Definition isDigit (b : N) : bool := between 48 57 b.

Fixpoint readDigits (acc : N) (l : bytes) : N * bytes :=
  match l with
  | b :: l' => if isDigit b then readDigits (10 * acc + (b - 48)) l' else (acc, l)
  | [] => (acc, [])
  end.

Fixpoint read (fuel : nat) (l : bytes) {struct fuel} : option (json * bytes) :=
  match fuel, l with
  | S fuel, b :: r =>
      if b =? 110 then r ← strip [117; 108; 108] r; Some (JNull, r)
      else if b =? 116 then r ← strip [114; 117; 101] r; Some (JBool true, r)
      else if b =? 102 then r ← strip [97; 108; 115; 101] r; Some (JBool false, r)
      else if b =? 34 then '(s, r) ← unquote r; Some (JStr s, r)
      else if b =? 91 then
        match strip [93] r with
        | Some r => Some (JArr [], r)
        | None => '(vs, r) ← readElems fuel r; Some (JArr vs, r)
        end
      else if b =? 123 then
        match strip [125] r with
        | Some r => Some (JObj [], r)
        | None => '(kvs, r) ← readMembers fuel r; Some (JObj kvs, r)
        end
      else if isDigit b then let '(n, r) := readDigits 0 l in Some (JNum n, r)
      else None
  | _, _ => None
  end
with readElems (fuel : nat) (l : bytes) {struct fuel} : option (list json * bytes) :=
  match fuel with
  | S fuel =>
      '(v, r) ← read fuel l;
      match r with
      | b :: r =>
          if b =? 44 then '(vs, r) ← readElems fuel r; Some (v :: vs, r)
          else if b =? 93 then Some ([v], r) else None
      | [] => None
      end
  | O => None
  end
with readMembers (fuel : nat) (l : bytes) {struct fuel} : option (list (bytes * json) * bytes) :=
  match fuel with
  | S fuel =>
      r ← strip [34] l; '(k, r) ← unquote r; r ← strip [58] r;
      '(v, r) ← read fuel r;
      match r with
      | b :: r =>
          if b =? 44 then '(kvs, r) ← readMembers fuel r; Some ((k, v) :: kvs, r)
          else if b =? 125 then Some ([(k, v)], r) else None
      | [] => None
      end
  | O => None
  end.

(** A whole document: nothing may follow the value. *)
Definition parse (l : bytes) : option json :=
  match read (S (2 * length l)) l with
  | Some (v, []) => Some v
  | _ => None
  end.

(** What reading can recover: the strings with their errors replaced. *)
Fixpoint clean (v : json) : json :=
  match v with
  | JStr s => JStr (sanitize s)
  | JArr l => JArr ((fix go l := match l with [] => [] | v :: l => clean v :: go l end) l)
  | JObj l => JObj ((fix go l := match l with
      | [] => [] | (k, v) :: l => (sanitize k, clean v) :: go l end) l)
  | v => v
  end.

Lemma clean_JArr l : clean (JArr l) = JArr (clean <$> l).
Proof. reflexivity. Qed.
Lemma clean_JObj l : clean (JObj l) = JObj ((λ kv, (sanitize kv.1, clean kv.2)) <$> l).
Proof. simpl. f_equal. induction l as [|[k v] l IH]; [done|]; csimpl. by rewrite IH. Qed.

(** The depth of recursion reading a value needs. *)
Fixpoint cost (v : json) : nat :=
  match v with
  | JArr l => S ((fix go l := match l with [] => 0 | v :: l => S (cost v) + go l end) l)
  | JObj l => S ((fix go l := match l with [] => 0 | (_, v) :: l => S (cost v) + go l end) l)
  | _ => 1
  end%nat.

Lemma cost_JArr l : cost (JArr l) = S (sum_list_with (λ v, S (cost v)) l).
Proof. reflexivity. Qed.
Lemma cost_JObj l : cost (JObj l) = S (sum_list_with (λ kv, S (cost kv.2)) l).
Proof. simpl. f_equal. induction l as [|[k v] l IH]; [done|]; simpl. by rewrite IH. Qed.

(** *** Numbers *)

Lemma readDigits_decimal fuel n acc :
  n < 2 ^ N.of_nat fuel →
  ∃ b ds, decimal (S fuel) n acc = (b :: ds) ++ acc ∧ isDigit b = true ∧
    ∀ l, readDigits 0 ((b :: ds) ++ l) = readDigits n l.
Proof.
  revert n acc. induction fuel as [|fuel IH]; intros n acc Hn.
  all: assert (isDigit (48 + n mod 10) = true) as Hd
    by (apply between_bounds; pose proof (N.mod_lt n 10 ltac:(done)); lia).
  all: cbn [decimal]; destruct (N.ltb_spec n 10) as [Hs|Hs].
  1,3: exists (48 + n mod 10), []; split_and!; [done..|]; intros l; cbn [readDigits app];
    rewrite Hd; f_equal; rewrite N.mod_small by done; lia.
  - change (2 ^ N.of_nat 0) with 1 in Hn. lia.
  - destruct (IH (n / 10) ((48 + n mod 10) :: acc)) as (b & ds & Heq & Hb & Hr).
    { rewrite Nat2N.inj_succ, N.pow_succ_r' in Hn.
      pose proof (N.div_mod' n 10). lia. }
    exists b, (ds ++ [48 + n mod 10]). split_and!; [|done|].
    + change (decimal (S fuel) (n / 10) ((48 + n mod 10) :: acc) =
        (b :: (ds ++ [48 + n mod 10]) ++ acc)). rewrite Heq. simpl. by rewrite <- (assoc_L (++)).
    + intros l. replace ((b :: ds ++ [48 + n mod 10]) ++ l) with ((b :: ds) ++ (48 + n mod 10) :: l)
        by (simpl; by rewrite <- (assoc_L (++))).
      rewrite Hr. cbn [readDigits]. rewrite Hd. f_equal. pose proof (N.div_mod' n 10). lia.
Qed.

(** What follows a number must not continue it. *)
Definition no_digit (l : bytes) : Prop :=
  match l with b :: _ => isDigit b = false | [] => True end.

Lemma readDigits_stop n l : no_digit l → readDigits n l = (n, l).
Proof. destruct l; simpl; [done|]. by intros ->. Qed.

Lemma writeNum_spec n :
  ∃ b ds, writeNum n = b :: ds ∧ isDigit b = true ∧
    ∀ l, no_digit l → readDigits 0 (writeNum n ++ l) = (n, l).
Proof.
  destruct (readDigits_decimal (N.to_nat (N.size n)) n []) as (b & ds & Heq & Hb & Hr).
  { rewrite N2Nat.id. apply N.size_gt. }
  unfold writeNum. rewrite Heq, app_nil_r. exists b, ds. split_and!; [done..|].
  intros l Hl. rewrite Hr. by apply readDigits_stop.
Qed.

(** *** Values *)

Lemma quote_shape s : quote s = 34 :: (runes s ≫= escapeRune) ++ [34].
Proof. done. Qed.

Lemma unquote_quote_app s l : unquote (((runes s ≫= escapeRune) ++ [34]) ++ l) = Some (sanitize s, l).
Proof. rewrite <- (assoc_L (++)). apply unquote_quote. Qed.

(** A value does not begin with a closing bracket. *)
Lemma write_head v : ∃ b r, write v = b :: r ∧ b ≠ 93.
Proof.
  destruct v as [|[]|n|s|l|l]; try by eexists _, _.
  destruct (writeNum_spec n) as (b & ds & Heq & Hb & _). exists b, ds. split; [done|].
  intros ->. discriminate.
Qed.

(** The reader at each kind of value. *)
Definition reads (v : json) : Prop :=
  ∀ fuel l, (cost v ≤ fuel)%nat → no_digit l → read fuel (write v ++ l) = Some (clean v, l).

Lemma reads_num n : reads (JNum n).
Proof.
  intros [|fuel] l Hf Hl; simpl in Hf; [lia|]. destruct (writeNum_spec n) as (b & ds & Heq & Hb & Hr).
  change (write (JNum n)) with (writeNum n). specialize (Hr l Hl). rewrite Heq in *. cbn [read app].
  assert (48 ≤ b ≤ 57) as Hrange by (by apply between_bounds).
  repeat match goal with |- context [b =? ?c] => rewrite (proj2 (N.eqb_neq b c)) by lia end.
  rewrite Hb. change (b :: (ds ++ l)) with ((b :: ds) ++ l). by rewrite Hr.
Qed.

Lemma reads_str s : reads (JStr s).
Proof.
  intros [|fuel] l Hf _; simpl in Hf; [lia|]. change (write (JStr s)) with (quote s).
  rewrite quote_shape. cbn [read app]. cbn -[unquote]. by rewrite unquote_quote_app.
Qed.

Lemma reads_elems vs fuel l :
  vs ≠ [] → Forall reads vs → (sum_list_with (λ v, S (cost v)) vs ≤ fuel)%nat →
  readElems fuel (commas (write <$> vs) ++ 93 :: l) = Some (clean <$> vs, l).
Proof.
  intros Hne Hall. revert fuel. induction Hall as [|v vs Hv _ IH]; intros fuel Hf; [done|].
  destruct fuel as [|fuel]; [simpl in Hf; lia|]. cbn [sum_list_with] in Hf. cbn [readElems].
  destruct vs as [|v' vs].
  - cbn [commas fmap list_fmap]. rewrite Hv by (lia || done). done.
  - change (commas (write <$> v :: v' :: vs)) with (write v ++ [44] ++ commas (write <$> v' :: vs)).
    rewrite <- !(assoc_L (++)), Hv by (lia || done). cbn [mbind option_bind app].
    change (44 =? 44) with true. cbv iota. rewrite IH by (done || lia). done.
Qed.

Lemma reads_members kvs fuel l :
  kvs ≠ [] → Forall (λ kv, reads kv.2) kvs → (sum_list_with (λ kv, S (cost kv.2)) kvs ≤ fuel)%nat →
  readMembers fuel (commas ((λ kv, quote kv.1 ++ [58] ++ write kv.2) <$> kvs) ++ 125 :: l) =
    Some ((λ kv, (sanitize kv.1, clean kv.2)) <$> kvs, l).
Proof.
  intros Hne Hall. revert fuel. induction Hall as [|[k v] kvs Hv _ IH]; intros fuel Hf; [done|].
  destruct fuel as [|fuel]; [simpl in Hf; lia|]. cbn [sum_list_with snd] in Hf, Hv.
  assert (∀ X, strip [34] (quote k ++ X) = Some (((runes k ≫= escapeRune) ++ [34]) ++ X)) as Hq by done.
  destruct kvs as [|kv' kvs].
  - cbn [commas fmap list_fmap readMembers fst snd]. rewrite <- !(assoc_L (++)), Hq.
    cbn [mbind option_bind]. rewrite unquote_quote_app. cbn [mbind option_bind].
    change (strip [58] ([58] ++ write v ++ 125 :: l)) with (Some (write v ++ 125 :: l)).
    cbn [mbind option_bind]. rewrite Hv by (lia || done). done.
  - set (rest := commas ((λ kv, quote kv.1 ++ [58] ++ write kv.2) <$> kv' :: kvs)) in *.
    change (commas _) with ((quote k ++ [58] ++ write v) ++ [44] ++ rest).
    cbn [readMembers]. rewrite <- !(assoc_L (++)), Hq.
    cbn [mbind option_bind]. rewrite unquote_quote_app. cbn [mbind option_bind].
    change (strip [58] ([58] ++ ?X)) with (Some X).
    cbn [mbind option_bind]. rewrite Hv by (lia || done). cbn [mbind option_bind app].
    change (44 =? 44) with true. cbv iota. rewrite IH by (done || lia). done.
Qed.

Lemma reads_all v : reads v.
Proof.
  induction v as [|b|n|s|vs IH|kvs IH] using json_nested_ind.
  - by intros [|fuel] l Hf _; [simpl in Hf; lia|].
  - by destruct b; intros [|fuel] l Hf _; [simpl in Hf; lia| |simpl in Hf; lia|].
  - apply reads_num.
  - apply reads_str.
  - intros [|fuel] l Hf _; [simpl in Hf; lia|]. rewrite cost_JArr in Hf.
    rewrite write_JArr, clean_JArr. rewrite <- !(assoc_L (++)). cbn [app read].
    change (91 =? 91) with true. cbn -[strip readElems commas].
    destruct vs as [|v vs]; [done|].
    assert (strip [93] (commas (write <$> v :: vs) ++ 93 :: l) = None) as ->.
    { destruct (write_head v) as (b & r & Heq & Hb). csimpl. rewrite Heq.
      destruct (write <$> vs); simpl; by destruct b; try destruct (Pos.eqb_spec 93 p); subst. }
    rewrite reads_elems by (done || lia). done.
  - intros [|fuel] l Hf _; [simpl in Hf; lia|]. rewrite cost_JObj in Hf.
    rewrite write_JObj, clean_JObj. rewrite <- !(assoc_L (++)). cbn [app read].
    change (123 =? 123) with true. cbn -[strip readMembers commas].
    destruct kvs as [|[k v] kvs]; [done|].
    match goal with |- context [strip [125] ?x] =>
      assert (strip [125] x = None) as -> by (by destruct kvs);
      assert (readMembers fuel x = Some ((λ kv, (sanitize kv.1, clean kv.2)) <$> (k, v) :: kvs, l)) as ->
        by (apply (reads_members ((k, v) :: kvs)); done || lia) end.
    done.
Qed.

(** Reading needs no more depth than twice the length of the text. *)
Lemma commas_length l : (sum_list_with (λ x, S (length x)) l ≤ S (length (commas l)))%nat.
Proof.
  induction l as [|x l IH]; [simpl; lia|]. destruct l as [|y l]; [simpl; lia|].
  change (commas (x :: y :: l)) with (x ++ [44] ++ commas (y :: l)).
  rewrite !length_app. cbn [sum_list_with length] in *. lia.
Qed.

Lemma sum_list_with_mono {A} (f g : A → nat) l :
  Forall (λ x, f x ≤ g x)%nat l → (sum_list_with f l ≤ sum_list_with g l)%nat.
Proof. induction 1; simpl; lia. Qed.

Lemma sum_list_with_fmap' {A B} (f : B → nat) (g : A → B) l :
  sum_list_with f (g <$> l) = sum_list_with (λ x, f (g x)) l.
Proof. induction l; csimpl; congruence. Qed.

Lemma sum_list_with_double {A} (f : A → nat) l :
  sum_list_with (λ x, 2 * f x)%nat l = (2 * sum_list_with f l)%nat.
Proof. induction l as [|x l IH]; cbn [sum_list_with]; [done|]. rewrite IH. lia. Qed.

Lemma cost_length v : (cost v ≤ 2 * length (write v))%nat.
Proof.
  induction v as [|b|n|s|vs IH|kvs IH] using json_nested_ind.
  - simpl; lia.
  - destruct b; simpl; lia.
  - destruct (writeNum_spec n) as (b & ds & Heq & _). simpl. rewrite Heq. simpl. lia.
  - simpl. lia.
  - rewrite cost_JArr, write_JArr, !length_app. cbn [length].
    pose proof (commas_length (write <$> vs)) as Hc. rewrite sum_list_with_fmap' in Hc.
    assert (sum_list_with (λ v, S (cost v)) vs ≤ sum_list_with (λ v, 2 * S (length (write v))) vs)%nat
      as Hs by (apply sum_list_with_mono; eapply Forall_impl; [exact IH|]; simpl; lia).
    rewrite sum_list_with_double in Hs. lia.
  - rewrite cost_JObj, write_JObj, !length_app. cbn [length].
    pose proof (commas_length ((λ kv, quote kv.1 ++ [58] ++ write kv.2) <$> kvs)) as Hc.
    rewrite sum_list_with_fmap' in Hc.
    assert (sum_list_with (λ kv, S (cost kv.2)) kvs ≤
      sum_list_with (λ kv, 2 * S (length (quote kv.1 ++ [58%N] ++ write kv.2))) kvs)%nat as Hs.
    { apply sum_list_with_mono. eapply Forall_impl; [exact IH|]. intros kv Hkv. cbv beta in *.
      rewrite !length_app. lia. }
    rewrite sum_list_with_double in Hs. lia.
Qed.

Lemma parse_write_clean v : parse (write v) = Some (clean v).
Proof.
  unfold parse. rewrite <- (app_nil_r (write v)) at 2.
  rewrite reads_all by (done || (pose proof (cost_length v); lia)). done.
Qed.

(** Documents whose strings are valid UTF-8. *)
Fixpoint valid_json (v : json) : bool :=
  match v with
  | JStr s => valid s
  | JArr l => (fix go l := match l with [] => true | v :: l => valid_json v && go l end) l
  | JObj l => (fix go l := match l with [] => true | (k, v) :: l => valid k && valid_json v && go l end) l
  | _ => true
  end.

Lemma clean_valid v : valid_json v = true → clean v = v.
Proof.
  induction v as [|b|n|s|vs IH|kvs IH] using json_nested_ind; intros Hv; try done.
  - simpl. by rewrite sanitize_valid.
  - rewrite clean_JArr. f_equal. simpl in Hv. induction IH as [|v vs Hv1 _ IHvs]; [done|]. csimpl.
    apply andb_true_iff in Hv as [Hv2 Hv3]. by rewrite Hv1, IHvs.
  - rewrite clean_JObj. f_equal. simpl in Hv. induction IH as [|[k v] kvs Hv1 _ IHvs]; [done|]. csimpl.
    apply andb_true_iff in Hv as [[Hk Hv2]%andb_true_iff Hv3]. simpl in Hv1.
    by rewrite sanitize_valid, Hv1, IHvs.
Qed.

(** Equal texts come from equal documents. *)
Lemma write_inj v1 v2 :
  valid_json v1 = true → valid_json v2 = true → write v1 = write v2 → v1 = v2.
Proof.
  intros H1 H2 Hw. pose proof (parse_write_clean v1) as Hp. rewrite Hw, parse_write_clean in Hp.
  rewrite !clean_valid in Hp by done. by simplify_eq.
Qed.
End Document.
