(* ===== verification/Sha256.v ===== *)
(** * SHA-256 and hexadecimal encoding

    crypto/sha256 ([Sum256], FIPS 180-4) and encoding/hex ([EncodeToString]) as
    the hashes of internal/controller/hash.go use them. Words are [N] with the
    wrap-around of 32-bit addition written out. *)

From Stdlib Require Import NArith ZifyN Ascii.
From S2P Require Import Prelude Json.

#[local] Open Scope N_scope.

(** ** 32-bit words *)
Definition mask32 : N := 4294967295.
Definition add32 (a b : N) : N := N.land (a + b) mask32.
Definition rotr (n x : N) : N :=
  N.lor (N.shiftr x n) (N.land (N.shiftl x (32 - n)) mask32).
Definition not32 (x : N) : N := N.lxor x mask32.

Definition Ch (x y z : N) : N := N.lxor (N.land x y) (N.land (not32 x) z).
Definition Maj (x y z : N) : N := N.lxor (N.lxor (N.land x y) (N.land x z)) (N.land y z).
Definition Sigma0 (x : N) : N := N.lxor (N.lxor (rotr 2 x) (rotr 13 x)) (rotr 22 x).
Definition Sigma1 (x : N) : N := N.lxor (N.lxor (rotr 6 x) (rotr 11 x)) (rotr 25 x).
Definition sigma0 (x : N) : N := N.lxor (N.lxor (rotr 7 x) (rotr 18 x)) (N.shiftr x 3).
Definition sigma1 (x : N) : N := N.lxor (N.lxor (rotr 17 x) (rotr 19 x)) (N.shiftr x 10).

Definition K256 : list N :=
  [1116352408; 1899447441; 3049323471; 3921009573; 961987163; 1508970993; 2453635748; 2870763221;
   3624381080; 310598401; 607225278; 1426881987; 1925078388; 2162078206; 2614888103; 3248222580;
   3835390401; 4022224774; 264347078; 604807628; 770255983; 1249150122; 1555081692; 1996064986;
   2554220882; 2821834349; 2952996808; 3210313671; 3336571891; 3584528711; 113926993; 338241895;
   666307205; 773529912; 1294757372; 1396182291; 1695183700; 1986661051; 2177026350; 2456956037;
   2730485921; 2820302411; 3259730800; 3345764771; 3516065817; 3600352804; 4094571909; 275423344;
   430227734; 506948616; 659060556; 883997877; 958139571; 1322822218; 1537002063; 1747873779;
   1955562222; 2024104815; 2227730452; 2361852424; 2428436474; 2756734187; 3204031479; 3329325298].

Definition H256 : list N :=
  [1779033703; 3144134277; 1013904242; 2773480762; 1359893119; 2600822924; 528734635; 1541459225].

(** ** Bytes and words *)
Definition be32 (w : N) : bytes :=
  [N.land (N.shiftr w 24) 255; N.land (N.shiftr w 16) 255; N.land (N.shiftr w 8) 255; N.land w 255].

Fixpoint words (l : bytes) : list N :=
  match l with
  | a :: b :: c :: d :: l =>
      N.lor (N.lor (N.shiftl a 24) (N.shiftl b 16)) (N.lor (N.shiftl c 8) d) :: words l
  | _ => []
  end.

(** ** Padding: a one bit, zeros, and the length in bits on 64 bits. *)
Definition zeros (len : nat) : nat := (63 - (len + 8) mod 64)%nat.
Definition pad (m : bytes) : bytes :=
  let bits := 8 * N.of_nat (length m) in
  m ++ [128] ++ replicate (zeros (length m)) 0 ++ be32 (N.shiftr bits 32) ++ be32 (N.land bits mask32).

(** ** Compression *)

(** The message schedule, newest word first: sixteen words of the block and
    forty-eight computed ones. *)
Fixpoint schedule (n : nat) (w : list N) : list N :=
  match n with
  | O => w
  | S n =>
      let w' := add32 (add32 (sigma1 (nth 1 w 0)) (nth 6 w 0))
                      (add32 (sigma0 (nth 14 w 0)) (nth 15 w 0)) in
      schedule n (w' :: w)
  end.

Definition round (st : list N) (kw : N * N) : list N :=
  match st with
  | [a; b; c; d; e; f; g; h] =>
      let t1 := add32 (add32 (add32 h (Sigma1 e)) (add32 (Ch e f g) kw.1)) kw.2 in
      let t2 := add32 (Sigma0 a) (Maj a b c) in
      [add32 t1 t2; a; b; c; add32 d t1; e; f; g]
  | _ => st
  end.

Definition compress (h : list N) (block : bytes) : list N :=
  let w := reverse (schedule 48 (reverse (words block))) in
  zip_with add32 h (foldl round h (zip K256 w)).

(** The blocks of a message. *)
Fixpoint blocks (n : nat) (m : bytes) : list bytes :=
  match n with O => [] | S n => take 64 m :: blocks n (drop 64 m) end.

Definition Sum256 (m : bytes) : bytes :=
  let p := pad m in
  foldl compress H256 (blocks (length p / 64) p) ≫= be32.

(** [hex.EncodeToString] *)
Definition EncodeToString (b : bytes) : bytes :=
  b ≫= λ x, [Literal.hexdigit (N.shiftr x 4); Literal.hexdigit (N.land x 15)].

Example Sum256_abc : EncodeToString (Sum256 (bytes_of "abc")) =
  bytes_of "ba7816bf8f01cfea414140de5dae2223b00361a396177a9cb410ff61f20015ad".
Proof. vm_compute. reflexivity. Qed.

Example Sum256_two_blocks :
  EncodeToString (Sum256 (bytes_of "abcdbcdecdefdefgefghfghighijhijkijkljklmklmnlmnomnopnopq")) =
  bytes_of "248d6a61d20638b8e5c026930c3e6039a33ce45964ff2167f6ecedd419db06c1".
Proof. vm_compute. reflexivity. Qed.

(** ** Shape of a digest *)

Lemma length_pad m : (length (pad m) mod 64 = 0)%nat.
Proof.
  unfold pad, zeros. rewrite !length_app, length_replicate. simpl length.
  set (n := length m). pose proof (Nat.div_mod (n + 8) 64 ltac:(done)) as Hd.
  pose proof (Nat.mod_upper_bound (n + 8) 64 ltac:(done)) as Hb.
  apply Nat.Lcm0.mod_divide. exists (S ((n + 8) / 64)). lia.
Qed.

Lemma length_round st kw : length (round st kw) = length st.
Proof. by destruct st as [|a [|b [|c [|d [|e [|f [|g [|h [|? ?]]]]]]]]]. Qed.

Lemma length_compress h block : length h = 8%nat → length (compress h block) = 8%nat.
Proof.
  intros Hh. unfold compress. rewrite length_zip_with.
  assert (∀ l st, length (foldl round st l) = length st) as Hf.
  { induction l as [|kw l IH]; intros st; [done|]; simpl. by rewrite IH, length_round. }
  rewrite Hf, Hh. done.
Qed.

Lemma length_be32_bind l : length (l ≫= be32) = (4 * length l)%nat.
Proof. induction l as [|x l IH]; [done|]. csimpl. rewrite IH. lia. Qed.

Lemma length_Sum256 m : length (Sum256 m) = 32%nat.
Proof.
  unfold Sum256. rewrite length_be32_bind.
  assert (∀ bs h, length h = 8%nat → length (foldl compress h bs) = 8%nat) as Hf.
  { induction bs as [|b bs IH]; intros h Hh; [done|]; simpl. by apply IH, length_compress. }
  by rewrite Hf.
Qed.

Lemma length_EncodeToString b : length (EncodeToString b) = (2 * length b)%nat.
Proof. unfold EncodeToString. induction b as [|x b IH]; [done|]. csimpl. rewrite IH. lia. Qed.

(** The digest of a message is bytes. *)
Lemma byte_land x : N.land x 255 < 256.
Proof. change 255 with (N.ones 8). rewrite N.land_ones. by apply N.mod_lt. Qed.

Lemma Sum256_bytes m : Forall is_byte (Sum256 m).
Proof.
  unfold Sum256. generalize (foldl compress H256 (blocks (length (pad m) / 64) (pad m))).
  intros l. induction l as [|x l IH]; csimpl; [constructor|].
  repeat (constructor; [apply byte_land|]). exact IH.
Qed.

Lemma hexdigit_inj a b : a < 16 → b < 16 → Literal.hexdigit a = Literal.hexdigit b → a = b.
Proof.
  intros Ha Hb Heq. apply (f_equal Literal.unhex) in Heq.
  rewrite !Literal.unhex_hexdigit in Heq by done. by simplify_eq.
Qed.

Lemma nibbles x : is_byte x → N.shiftr x 4 < 16 ∧ N.land x 15 < 16 ∧ x = 16 * N.shiftr x 4 + N.land x 15.
Proof.
  unfold is_byte. intros Hx. rewrite N.shiftr_div_pow2. change 15 with (N.ones 4). rewrite N.land_ones.
  change (2 ^ 4) with 16. split_and!; [apply N.Div0.div_lt_upper_bound; lia|by apply N.mod_lt|].
  apply N.div_mod'.
Qed.

(** Hexadecimal encoding loses nothing. *)
Lemma EncodeToString_inj b1 b2 :
  Forall is_byte b1 → Forall is_byte b2 → EncodeToString b1 = EncodeToString b2 → b1 = b2.
Proof.
  unfold EncodeToString. intros H1. revert b2. induction H1 as [|x b1 Hx _ IH]; intros b2 H2 Heq.
  - by destruct b2.
  - destruct H2 as [|y b2 Hy Hb2]; [done|]. csimpl in Heq. simplify_list_eq.
    destruct (nibbles x Hx) as (Hx1 & Hx2 & Hx3), (nibbles y Hy) as (Hy1 & Hy2 & Hy3).
    f_equal; [|by apply IH].
    rewrite Hx3, Hy3. f_equal; [f_equal|]; by apply hexdigit_inj.
Qed.
