(* ===== verification/Hash.v ===== *)
(** * Hashes of selectors and specifications (internal/controller/hash.go)

    [ComputeSelectorHash] and [ComputeSpecHash], with the JSON text they hash.
    The second one sorts the block list of its argument in place: it returns the
    specification as the caller finds it afterwards. *)

From Stdlib Require Import Ascii NArith.
From S2P Require Import Prelude Types Json Sha256.

(** ** json.Marshal of the values hashed *)

(** Keys of a map are written in ascending order. *)
Definition key_le (a b : string * string) : Prop := String.le a.1 b.1.

#[export] Instance key_le_dec : RelDecision key_le.
Proof. intros a b. unfold key_le. apply _. Defined.
#[export] Instance key_le_trans : Transitive key_le.
Proof. intros a b c. unfold key_le. apply transitivity. Qed.
#[export] Instance key_le_total : Total key_le.
Proof. intros a b. unfold key_le. apply (total String.le). Qed.

Definition jstring (s : string) : json := JStr (bytes_of s).
Definition jmember (kv : string * string) : bytes * json := (bytes_of kv.1, jstring kv.2).

Section Marshal.
Context `{RO : RangeOrder}.

(** A [map[string]string]: nil is [null]. *)
Definition jmap (m : GoMap) : json :=
  match m with
  | None => JNull
  | Some m => JObj (jmember <$> merge_sort key_le (range m))
  end.

(** A [[]string]: nil is [null]. *)
Definition jstrings (l : option (list string)) : json :=
  match l with
  | None => JNull
  | Some l => JArr (jstring <$> l)
  end.
End Marshal.

(** [json.Marshal] returns no error for these values. *)
Definition json_Marshal (v : json) : bytes + goerror := inl (Document.write v).

Section Hashes.
Context `{RO : RangeOrder}.

(** The keys of a map, sorted, and the map rebuilt from them. *)
Definition sortedKeys (m : gmap string string) : list string :=
  sort_Strings (foldl (λ keys '(k, _), keys ++ [k]) [] (range m)).
Definition sortedSelector (m : gmap string string) : gmap string string :=
  foldl (λ out k, <[k := default "" (m !! k)]> out) ∅ (sortedKeys m).

Definition ComputeSelectorHash (selector : GoMap) : bytes + goerror :=
  if bool_decide (mlen selector = 0) then inl []
  else
    let sorted := sortedSelector (contents selector) in
    match json_Marshal (jmap (Some sorted)) with
    | inr err => inr err
    | inl data => inl (EncodeToString (Sum256 data))
    end.

(** The struct [ComputeSpecHash] marshals. *)
Definition jnormalized (target : GoMap) (block : option (list string)) : json :=
  JObj [(bytes_of "TargetSelector", jmap target); (bytes_of "BlockList", jstrings block)].

Definition set_BlockList (spec : DnsPolicySpec) (l : option (list string)) : DnsPolicySpec :=
  mkSpec (TargetSelector spec) l (Subject spec) (DryRun spec) (Doh spec) (DohTlsSecrets spec).

Definition ComputeSpecHash (spec : DnsPolicySpec) : DnsPolicySpec * (bytes + goerror) :=
  (* sort.Strings(normalized.BlockList): the slice is the one of spec *)
  let spec :=
    match BlockList spec with
    | Some l => set_BlockList spec (Some (sort_Strings l))
    | None => spec
    end in
  let target :=
    match TargetSelector spec with
    | Some m => Some (sortedSelector m)
    | None => None
    end in
  match json_Marshal (jnormalized target (BlockList spec)) with
  | inr err => (spec, inr err)
  | inl data => (spec, inl (EncodeToString (Sum256 data)))
  end.

(** ** Lemmas *)

Lemma foldl_keys {A} (l : list (string * A)) acc :
  foldl (λ keys '(k, _), keys ++ [k]) acc l = acc ++ l.*1.
Proof.
  revert acc. induction l as [|[k v] l IH]; intros acc; csimpl; [by rewrite app_nil_r|].
  by rewrite IH, <- (assoc_L (++)).
Qed.

Lemma sortedSelector_id (m : gmap string string) : sortedSelector m = m.
Proof.
  unfold sortedSelector, sortedKeys. rewrite foldl_keys; simpl.
  assert (∀ ks (acc : gmap string string) k,
    foldl (λ out k, <[k := default "" (m !! k)]> out) acc ks !! k =
    if decide (k ∈ ks) then Some (default "" (m !! k)) else acc !! k) as Hlook.
  { induction ks as [|k' ks IH]; intros acc k; [done|]; cbn [foldl].
    rewrite IH. destruct (decide (k ∈ ks)); [by rewrite decide_True by set_solver|].
    rewrite lookup_insert. destruct (decide (k' = k)) as [->|];
      [by rewrite decide_True by set_solver|by rewrite decide_False by set_solver]. }
  apply map_eq. intros k. rewrite Hlook, lookup_empty.
  assert (k ∈ sort_Strings (range m).*1 ↔ is_Some (m !! k)) as Hk.
  { rewrite elem_of_sort_Strings, list_elem_of_fmap. split.
    - intros ([k' v] & -> & Hin%elem_of_range). by eexists.
    - intros [v Hv]. exists (k, v). by rewrite elem_of_range. }
  destruct (m !! k) as [v|] eqn:Hm; [rewrite decide_True|rewrite decide_False]; try done;
    rewrite Hk; [by eexists|]. by intros [].
Qed.

(** The text a non-empty selector is hashed from. *)
Definition selectorText (m : GoMap) : bytes := Document.write (jmap (Some (contents m))).
Definition specText (spec : DnsPolicySpec) : bytes :=
  Document.write (jnormalized (TargetSelector spec) (sort_Strings <$> BlockList spec)).

Lemma ComputeSelectorHash_text m :
  ComputeSelectorHash m =
  inl (if bool_decide (mlen m = 0) then [] else EncodeToString (Sum256 (selectorText m))).
Proof.
  unfold ComputeSelectorHash, selectorText. rewrite sortedSelector_id. by case_bool_decide.
Qed.

Lemma ComputeSpecHash_text spec :
  ComputeSpecHash spec =
  (set_BlockList spec (sort_Strings <$> BlockList spec), inl (EncodeToString (Sum256 (specText spec)))).
Proof.
  unfold ComputeSpecHash, specText. destruct spec as [t [l|] s d dh ds]; simpl;
    (destruct t as [m|]; [by rewrite sortedSelector_id|done]).
Qed.
End Hashes.

(** *** The text determines the value *)

Lemma N_of_ascii_inj a b : N_of_ascii a = N_of_ascii b → a = b.
Proof. intros Heq. by rewrite <- (ascii_N_embedding a), Heq, ascii_N_embedding. Qed.

Lemma bytes_of_inj s1 s2 : bytes_of s1 = bytes_of s2 → s1 = s2.
Proof.
  unfold bytes_of. revert s2. induction s1 as [|a s1 IH]; intros [|b s2]; csimpl; try done.
  intros [= Ha%N_of_ascii_inj Hs]. f_equal; [done|by apply IH].
Qed.

Definition utf8 (s : string) : bool := Utf8.valid (bytes_of s).
Definition utf8_map (m : GoMap) : Prop := ∀ k v, mget m k = Some v → utf8 k = true ∧ utf8 v = true.
Definition utf8_strings (l : option (list string)) : Prop := ∀ s, s ∈ elems l → utf8 s = true.

Lemma jstring_fmap_inj (l1 l2 : list string) : jstring <$> l1 = jstring <$> l2 → l1 = l2.
Proof. apply list_fmap_eq_inj. intros s1 s2 [= Heq]. by apply bytes_of_inj. Qed.

Section Text.
Context `{RO : RangeOrder}.

Lemma elem_of_sorted (m : gmap string string) k v :
  (k, v) ∈ merge_sort key_le (range m) ↔ m !! k = Some v.
Proof. by rewrite merge_sort_Permutation, elem_of_range. Qed.

Lemma jmap_inj m1 m2 : jmap (Some m1) = jmap (Some m2) → m1 = m2.
Proof.
  intros [= Heq]. apply list_fmap_eq_inj in Heq.
  - apply map_eq. intros k. apply option_eq. intros v. by rewrite <- !elem_of_sorted, Heq.
  - intros [k1 v1] [k2 v2] [= Hk Hv]. apply bytes_of_inj in Hk, Hv. by subst.
Qed.

Lemma jmap_valid m : utf8_map m → Document.valid_json (jmap m) = true.
Proof.
  intros Hv. destruct m as [m|]; [|done]. simpl.
  assert (∀ k v, (k, v) ∈ merge_sort key_le (range m) → utf8 k = true ∧ utf8 v = true) as Hin.
  { intros k v Hkv%elem_of_sorted. by apply Hv. }
  induction (merge_sort key_le (range m)) as [|[k v] l IH]; [done|]; csimpl.
  destruct (Hin k v) as [Hk Hv']; [by left|]. unfold utf8 in *. rewrite Hk, Hv'. simpl.
  apply IH. intros k' v' Hin'. apply Hin. by right.
Qed.

Lemma jstrings_valid l : utf8_strings l → Document.valid_json (jstrings l) = true.
Proof.
  intros Hv. destruct l as [l|]; [|done]. unfold utf8_strings in Hv; simpl in *.
  induction l as [|s l IH]; [done|]; csimpl. unfold utf8 in *. rewrite Hv by (by left). simpl.
  apply IH. intros s' Hs'. apply Hv. by right.
Qed.

Lemma selectorText_inj m1 m2 :
  utf8_map m1 → utf8_map m2 → selectorText m1 = selectorText m2 → contents m1 = contents m2.
Proof.
  intros H1 H2 Heq. apply jmap_inj, Document.write_inj; try done; by apply jmap_valid.
Qed.

Lemma specText_inj s1 s2 :
  utf8_map (TargetSelector s1) → utf8_strings (BlockList s1) →
  utf8_map (TargetSelector s2) → utf8_strings (BlockList s2) →
  specText s1 = specText s2 →
  TargetSelector s1 = TargetSelector s2 ∧
  sort_Strings <$> BlockList s1 = sort_Strings <$> BlockList s2.
Proof.
  intros Ht1 Hb1 Ht2 Hb2 Heq. unfold specText in Heq.
  assert (∀ s, utf8_map (TargetSelector s) → utf8_strings (BlockList s) →
    Document.valid_json (jnormalized (TargetSelector s) (sort_Strings <$> BlockList s)) = true) as Hvalid.
  { intros s Ht Hb. unfold jnormalized. cbn -[jmap jstrings bytes_of Utf8.valid Document.valid_json].
    change (Document.valid_json (jmap (TargetSelector s)) && (Document.valid_json
      (jstrings (sort_Strings <$> BlockList s)) && true) = true).
    rewrite jmap_valid, jstrings_valid; [done| |done]. intros x Hx. apply Hb.
    destruct (BlockList s); [|done]. simpl in *. by rewrite elem_of_sort_Strings in Hx. }
  apply Document.write_inj in Heq; [|by apply Hvalid..]. injection Heq as Hj Hb.
  split.
  - destruct (TargetSelector s1), (TargetSelector s2); simpl in Hj; try done.
    f_equal. by apply jmap_inj.
  - destruct (BlockList s1), (BlockList s2); simpl in Hb; try done. simpl. f_equal.
    injection Hb as Hb. by apply jstring_fmap_inj.
Qed.

End Text.

Lemma jmap_order (o1 o2 : RangeOrder) m : jmap (RO:=o1) m = jmap (RO:=o2) m.
Proof.
  destruct m as [m|]; [|done]. simpl. do 2 f_equal.
  apply (StronglySorted_unique_strong key_le).
  - intros [k1 v1] [k2 v2] H1%(elem_of_sorted (RO:=o1)) H2 H12 H21.
    rewrite merge_sort_Permutation, elem_of_range in H2.
    assert (k1 = k2) as -> by (by apply (anti_symm String.le)). congruence.
  - apply StronglySorted_merge_sort; apply _.
  - apply StronglySorted_merge_sort; apply _.
  - by rewrite !merge_sort_Permutation, !range_perm.
Qed.

Lemma selectorText_order (o1 o2 : RangeOrder) m1 m2 :
  contents m1 = contents m2 → selectorText (RO:=o1) m1 = selectorText (RO:=o2) m2.
Proof. intros Heq. unfold selectorText. by rewrite Heq, (jmap_order o1 o2). Qed.

(** ** Properties *)
Section Properties.
Context `{RO : RangeOrder}.

(** C24: the selector hash identifies the selector. Selectors with the same entries
    have the same hash, whatever order Go visits the maps in; the hash never fails,
    is empty exactly for an empty selector and otherwise has 64 characters; and two
    different selectors (of valid UTF-8 strings) have the same hash only if their
    JSON texts, which differ, are a collision of SHA-256. *)
Theorem selector_hash_identifies (o1 o2 : RangeOrder) m1 m2 :
  utf8_map m1 → utf8_map m2 →
  (contents m1 = contents m2 → ComputeSelectorHash (RO:=o1) m1 = ComputeSelectorHash (RO:=o2) m2) ∧
  (∃ h, ComputeSelectorHash (RO:=o1) m1 = inl h ∧ (h = [] ↔ mlen m1 = 0) ∧ (h = [] ∨ length h = 64)) ∧
  (contents m1 ≠ contents m2 → ComputeSelectorHash (RO:=o1) m1 = ComputeSelectorHash (RO:=o1) m2 →
    selectorText (RO:=o1) m1 ≠ selectorText (RO:=o1) m2 ∧
    Sum256 (selectorText (RO:=o1) m1) = Sum256 (selectorText (RO:=o1) m2)).
Proof.
  intros H1 H2. rewrite !ComputeSelectorHash_text. split_and!.
  - intros Heq. unfold mlen. rewrite Heq. do 2 f_equal. by rewrite (selectorText_order o1 o2 _ _ Heq).
  - eexists. split; [done|]. case_bool_decide; [by split; [|left]|].
    pose proof (length_EncodeToString (Sum256 (selectorText (RO:=o1) m1))) as Hl. rewrite length_Sum256 in Hl.
    split; [|right; exact Hl]. split; [|done]. intros He. by rewrite He in Hl.
  - intros Hne Heq. injection Heq as Heq.
    assert (∀ m : GoMap, EncodeToString (Sum256 (selectorText (RO:=o1) m)) ≠ []) as Hnil.
    { intros m He. pose proof (length_EncodeToString (Sum256 (selectorText (RO:=o1) m))) as Hl.
      by rewrite length_Sum256, He in Hl. }
    split; [intros Ht; by eapply Hne, (selectorText_inj (RO:=o1))|].
    repeat case_bool_decide.
    + destruct Hne. unfold mlen in *. rewrite !map_size_empty_iff in *. congruence.
    + by destruct (Hnil m2).
    + by destruct (Hnil m1).
    + apply EncodeToString_inj; [apply Sum256_bytes..|done].
Qed.

(** C25: the specification hash identifies the selector and the block list up to
    order, and nothing else. It never fails; specifications with the same target
    selector and permuted block lists have the same hash, whatever their subject,
    dry-run and DNS-over-HTTPS fields are; and specifications that differ in the
    selector or in the block list as a multiset (of valid UTF-8 strings) have the
    same hash only if their JSON texts, which differ, are a collision of SHA-256. *)
Theorem spec_hash_identifies s1 s2 :
  utf8_map (TargetSelector s1) → utf8_strings (BlockList s1) →
  utf8_map (TargetSelector s2) → utf8_strings (BlockList s2) →
  let same := TargetSelector s1 = TargetSelector s2 ∧
    is_nil (BlockList s1) = is_nil (BlockList s2) ∧ elems (BlockList s1) ≡ₚ elems (BlockList s2) in
  (∃ h, (ComputeSpecHash s1).2 = inl h ∧ length h = 64) ∧
  (same → (ComputeSpecHash s1).2 = (ComputeSpecHash s2).2) ∧
  (¬ same → (ComputeSpecHash s1).2 = (ComputeSpecHash s2).2 →
    specText s1 ≠ specText s2 ∧ Sum256 (specText s1) = Sum256 (specText s2)).
Proof.
  intros Ht1 Hb1 Ht2 Hb2 same. rewrite !ComputeSpecHash_text; simpl.
  assert (same ↔ TargetSelector s1 = TargetSelector s2 ∧
    sort_Strings <$> BlockList s1 = sort_Strings <$> BlockList s2) as Hsame.
  { unfold same. apply and_iff_compat_l.
    destruct (BlockList s1) as [l1|], (BlockList s2) as [l2|]; simpl; try naive_solver.
    split.
    - intros [_ Hp]. by rewrite Hp.
    - intros [= Hs]. split; [done|]. by rewrite <- (sort_Strings_perm l1), Hs, sort_Strings_perm. }
  split_and!.
  - eexists. split; [done|]. by rewrite length_EncodeToString, length_Sum256.
  - intros [Ht Hb]%Hsame. unfold specText. by rewrite Ht, Hb.
  - intros Hne Heq. injection Heq as Heq. split.
    + intros Htext. by apply Hne, Hsame, specText_inj.
    + apply EncodeToString_inj; [apply Sum256_bytes..|done].
Qed.

(** Computing the specification hash reorders the caller's block list. The
    specification passed comes back with its block list sorted, in place, and
    otherwise unchanged; hashing it again gives the same hash and changes nothing. *)
Theorem spec_hash_sorts_in_place spec :
  let r := ComputeSpecHash spec in
  elems (BlockList r.1) ≡ₚ elems (BlockList spec) ∧
  Sorted String.le (elems (BlockList r.1)) ∧
  set_BlockList r.1 (BlockList spec) = spec ∧
  ComputeSpecHash r.1 = r.
Proof.
  intros r. assert (∀ l, sort_Strings (sort_Strings l) = sort_Strings l) as Hidem
    by (intros l; apply sort_Strings_proper, sort_Strings_perm).
  unfold r. rewrite !ComputeSpecHash_text. destruct spec as [t [l|] s d dh ds]; simpl.
  - split_and!; [apply sort_Strings_perm|apply sort_Strings_sorted|done|].
    unfold set_BlockList, specText; simpl. by rewrite Hidem.
  - split_and!; [done|constructor|done|done].
Qed.
End Properties.

(** ** Concrete hashes *)
#[local] Existing Instance order_fwd.

Definition spec_example : DnsPolicySpec :=
  mkSpec (Some {["app" := "web"]}) (Some ["track.io"; "ads.com"]) None false false None.

(** Text with single quotes for double ones. *)
Definition text (s : string) : bytes := (λ b, if (b =? 39)%N then 34%N else b) <$> bytes_of s.

Example spec_text :
  specText spec_example =
  text "{'TargetSelector':{'app':'web'},'BlockList':['ads.com','track.io']}".
Proof. vm_compute. reflexivity. Qed.

Example selector_hash_example :
  ComputeSelectorHash (Some {["app" := "web"]}) =
  inl (bytes_of "2eea2ae453e87fcdfc1158c1c4ecdfaf222a8b8420a48d5240f662f7df2543a8").
Proof. vm_compute. reflexivity. Qed.

Example spec_hash_example :
  (ComputeSpecHash spec_example).2 = inl (bytes_of "f4c0dee924027b2d51e3caa281cbbd1369e8452a4cb7a7663d16393032a3dd6a").
Proof. vm_compute. reflexivity. Qed.

Lemma utf8_map_web : utf8_map (Some {["app" := "web"]}).
Proof. intros k v Hkv. unfold mget in Hkv; simpl in Hkv. apply lookup_singleton_Some in Hkv as [<- <-]. done. Qed.

Lemma selector_hash_identifies_witness :
  ComputeSelectorHash (RO:=order_rev) (Some {["app" := "web"]}) =
  ComputeSelectorHash (RO:=order_fwd) (Some {["app" := "web"]}).
Proof.
  apply (selector_hash_identifies order_rev order_fwd (Some {["app" := "web"]}) (Some {["app" := "web"]}));
    [exact utf8_map_web|exact utf8_map_web|reflexivity].
Defined.

(** A dry run of the same policy, with its block list in another order. *)
Definition spec_dry : DnsPolicySpec :=
  mkSpec (Some {["app" := "web"]}) (Some ["ads.com"; "track.io"]) None true false None.

Lemma spec_hash_identifies_witness : (ComputeSpecHash spec_example).2 = (ComputeSpecHash spec_dry).2.
Proof.
  apply (spec_hash_identifies spec_example spec_dry).
  - exact utf8_map_web.
  - intros s. simpl. rewrite !elem_of_cons, elem_of_nil. by intros [->|[->|[]]].
  - exact utf8_map_web.
  - intros s. simpl. rewrite !elem_of_cons, elem_of_nil. by intros [->|[->|[]]].
  - split_and!; [reflexivity|reflexivity|]. simpl. apply Permutation_swap.
Defined.
