(* ===== verification/Http.v ===== *)
(** * Answering HTTP requests (net/http)

    What the two servers of the repository use of net/http: a response writer,
    [http.Error] and a request multiplexer for fixed paths. *)

From S2P Require Import Prelude Json.

(** ** Requests *)
Record Request := mkRequest {
  r_Method : string;
  r_Path : string;
  r_RawQuery : string;                (* what follows the ? *)
  r_Header : gmap string string;
  r_Body : option (bytes + string);   (* nil, the bytes read, or the error of reading *)
}.

(** [r.Header.Get(k)]: the empty string when absent *)
Definition Header_Get (r : Request) (k : string) : string := default "" (r_Header r !! k).

(** ** Response writers

    [w_status] and [w_sent] are the status and the header fields as they were
    when the header was written; [w_broken] says that the connection is lost, so
    that writes fail. *)
Record Writer := mkWriter {
  w_header : gmap string string;
  w_sent : gmap string string;
  w_status : option nat;
  w_body : bytes;
  w_broken : bool;
}.

Definition newWriter (broken : bool) : Writer := mkWriter ∅ ∅ None [] broken.

Definition Header_Set (w : Writer) (k v : string) : Writer :=
  mkWriter (<[k:=v]> (w_header w)) (w_sent w) (w_status w) (w_body w) (w_broken w).
Definition Header_Del (w : Writer) (k : string) : Writer :=
  mkWriter (delete k (w_header w)) (w_sent w) (w_status w) (w_body w) (w_broken w).

(** Only the first call has an effect. *)
Definition WriteHeader (w : Writer) (code : nat) : Writer :=
  match w_status w with
  | Some _ => w
  | None => mkWriter (w_header w) (w_header w) (Some code) (w_body w) (w_broken w)
  end.

(** A write sends the header with status 200 when it was not sent yet. The second
    component says that it succeeded. *)
Definition Write (w : Writer) (data : bytes) : Writer * bool :=
  let w := WriteHeader w 200 in
  if w_broken w then (w, false)
  else (mkWriter (w_header w) (w_sent w) (w_status w) (w_body w ++ data) false, true).

(** [http.Error] *)
Definition http_Error (w : Writer) (msg : string) (code : nat) : Writer :=
  let w := Header_Del w "Content-Length" in
  let w := Header_Set w "Content-Type" "text/plain; charset=utf-8" in
  let w := Header_Set w "X-Content-Type-Options" "nosniff" in
  let w := WriteHeader w code in
  (Write w (bytes_of msg ++ [10%N])).1.

(** [json.NewEncoder(w).Encode(v)]: the text and a newline, in one write. *)
Definition Encode (w : Writer) (v : json) : Writer * bool :=
  Write w (Document.write v ++ [10%N]).

(** ** Multiplexing: handlers registered for fixed paths; requests name a clean path. *)
Definition Handler := Writer → Request → Writer.

Fixpoint mux (routes : list (string * Handler)) (w : Writer) (r : Request) : Writer :=
  match routes with
  | [] => http_Error w "404 page not found" 404
  | (path, h) :: routes => if bool_decide (r_Path r = path) then h w r else mux routes w r
  end.

(** ** What a client sees *)
Record Response := mkResponse {
  res_status : nat;
  res_header : gmap string string;
  res_body : bytes;
}.

(** A handler that wrote nothing answers with status 200. *)
Definition finish (w : Writer) : Response :=
  match w_status w with
  | Some code => mkResponse code (w_sent w) (w_body w)
  | None => mkResponse 200 (w_header w) (w_body w)
  end.

Definition respond (h : Handler) (r : Request) : Response := finish (h (newWriter false) r).

Lemma respond_error msg code :
  finish (http_Error (newWriter false) msg code) =
  mkResponse code
    (<["X-Content-Type-Options" := "nosniff"]> {["Content-Type" := "text/plain; charset=utf-8"]})
    (bytes_of msg ++ [10%N]).
Proof. unfold finish, http_Error, Write; simpl. by rewrite delete_empty. Qed.
