(* ===== verification/ApiServer.v ===== *)
(** * The blocklist API (internal/controller/api_server.go)

    The handlers for /api/policies and /healthz and the multiplexer that selects
    them, on the cache the reconcilers maintain, and what a client that reads the
    JSON document learns from the answer. [Start] is in Lifecycle.v. *)

From Stdlib Require Import NArith.
From S2P Require Import Prelude Types Selectors Stores Client.
From S2P Require Import PodIndex PolicyIndex BlocklistCache PolicyReconciler PodReconciler System.
From S2P Require Import Json Hash Http.

(** ** The JSON of the answers *)

Definition jentry (e : BlocklistEntry) : json :=
  JObj [(bytes_of "ip", jstring (entry_IP e)); (bytes_of "domains", jstrings (Some (entry_Domains e)))].

(** [BlocklistResponse] *)
Record BlocklistResponse := mkBlocklistResponse { Blocklist : list BlocklistEntry }.
Definition jresponse (r : BlocklistResponse) : json :=
  JObj [(bytes_of "blocklist", JArr (jentry <$> Blocklist r))].

(** ** The handlers *)
Section Handlers.
Context `{RO : RangeOrder} `{AM : ApiMachinery}.

(** [APIServer]: the cache, and the settings of its server (times in milliseconds).
    Nothing uses the client it holds. *)
Record APIServer := mkAPIServer {
  BlocklistCache_ : Cache;
  Addr : string;
  ReadTimeout : Z;
  WriteTimeout : Z;
  IdleTimeout : Z;
}.

Definition handleGetBlocklist (s : APIServer) (w : Writer) (r : Request) : Writer :=
  if bool_decide (r_Method r ≠ "GET") then http_Error w "Method not allowed" 405
  else
    let blocklist := GetBlocklist (BlocklistCache_ s) in
    let response := mkBlocklistResponse blocklist in
    let w := Header_Set w "Content-Type" "application/json" in
    let w := WriteHeader w 200 in
    match Encode w (jresponse response) with
    | (w, false) => http_Error w "Failed to encode response" 500
    | (w, true) => w
    end.

(** A map is encoded with its keys in order; the error of [Encode] is dropped. *)
Definition handleHealthz (s : APIServer) (w : Writer) (r : Request) : Writer :=
  let w := Header_Set w "Content-Type" "application/json" in
  let w := WriteHeader w 200 in
  (Encode w (JObj [(bytes_of "blocklist_entries", JNum (N.of_nat (BlocklistCache.Size (BlocklistCache_ s))));
                   (bytes_of "status", jstring "ok")])).1.

Definition NewAPIServer (bc : Cache) (addr : string) : APIServer * Handler :=
  let apiServer := mkAPIServer bc addr 10000 10000 60000 in
  (apiServer, mux [("/api/policies", handleGetBlocklist apiServer); ("/healthz", handleHealthz apiServer)]).

(** The answer to a request. *)
Definition serve (bc : Cache) (r : Request) : Response := respond (NewAPIServer bc ":5959").2 r.
End Handlers.

(** ** A client of the API: what it reads from the body *)
Definition decodeEntry (j : json) : option (bytes * list bytes) :=
  match j with
  | JObj [(k1, JStr ip); (k2, JArr ds)] =>
      if decide (k1 = bytes_of "ip" ∧ k2 = bytes_of "domains")
      then ds ← mapM (λ d, match d with JStr s => Some s | _ => None end) ds; Some (ip, ds)
      else None
  | _ => None
  end.

Definition decodeBlocklist (j : json) : option (list (bytes * list bytes)) :=
  match j with
  | JObj [(k, JArr es)] => if decide (k = bytes_of "blocklist") then mapM decodeEntry es else None
  | _ => None
  end.

(** The body is a JSON document followed by a newline. *)
Definition clientRead (body : bytes) : option (list (bytes * list bytes)) :=
  match last body with
  | Some 10%N => parse_text ← Document.parse (removelast body); decodeBlocklist parse_text
  | _ => None
  end.

Definition entryBytes (e : BlocklistEntry) : bytes * list bytes :=
  (bytes_of (entry_IP e), bytes_of <$> entry_Domains e).

(** ** Lemmas *)

Lemma mapM_fmap_eq {A B C} (f : B → option C) (g : A → B) (h : A → C) (l : list A) :
  (∀ x, f (g x) = Some (h x)) → mapM f (g <$> l) = Some (h <$> l).
Proof. intros Hf. apply mapM_Some_2, Forall2_fmap_2, Forall_Forall2_diag, Forall_true. done. Qed.

Lemma decode_jentry e : decodeEntry (jentry e) = Some (entryBytes e).
Proof.
  unfold decodeEntry, jentry, jstring at 1, jstrings. cbv beta iota. rewrite decide_True by done.
  by rewrite (mapM_fmap_eq _ jstring bytes_of).
Qed.

Lemma decode_jresponse es : decodeBlocklist (jresponse (mkBlocklistResponse es)) = Some (entryBytes <$> es).
Proof.
  unfold decodeBlocklist, jresponse. cbv beta iota. rewrite decide_True by done.
  apply mapM_fmap_eq, decode_jentry.
Qed.

Definition utf8_entry (e : BlocklistEntry) : Prop :=
  utf8 (entry_IP e) = true ∧ utf8_strings (Some (entry_Domains e)).

Lemma jresponse_valid es :
  Forall utf8_entry es → Document.valid_json (jresponse (mkBlocklistResponse es)) = true.
Proof.
  intros Hes. change (Document.valid_json (JArr (jentry <$> es)) && true = true).
  rewrite andb_true_r. induction Hes as [|e es [Hip Hds] _ IH]; [done|].
  change (Document.valid_json (jentry e) && Document.valid_json (JArr (jentry <$> es)) = true).
  rewrite IH, andb_true_r.
  change (Utf8.valid (bytes_of (entry_IP e)) &&
    (Document.valid_json (jstrings (Some (entry_Domains e))) && true) = true).
  by rewrite jstrings_valid, andb_true_r.
Qed.

Lemma clientRead_encoded es :
  Forall utf8_entry es →
  clientRead (Document.write (jresponse (mkBlocklistResponse es)) ++ [10%N]) = Some (entryBytes <$> es).
Proof.
  intros Hes. unfold clientRead. rewrite last_snoc, removelast_last, Document.parse_write_clean.
  cbn [mbind option_bind]. rewrite Document.clean_valid by (by apply jresponse_valid).
  apply decode_jresponse.
Qed.

Section Answers.
Context `{RO : RangeOrder} `{AM : ApiMachinery}.

Lemma serve_get bc r :
  r_Method r = "GET" → r_Path r = "/api/policies" →
  serve bc r = mkResponse 200 {["Content-Type" := "application/json"]}
    (Document.write (jresponse (mkBlocklistResponse (GetBlocklist bc))) ++ [10%N]).
Proof.
  intros Hm Hp. unfold serve, respond, NewAPIServer. cbn [snd mux].
  rewrite bool_decide_true by done. unfold handleGetBlocklist.
  rewrite bool_decide_false by (intros Hn; by destruct Hn). done.
Qed.

Lemma serve_other_method bc r :
  r_Method r ≠ "GET" → r_Path r = "/api/policies" →
  serve bc r = finish (http_Error (newWriter false) "Method not allowed" 405).
Proof.
  intros Hm Hp. unfold serve, respond, NewAPIServer. cbn [snd mux].
  rewrite bool_decide_true by done. unfold handleGetBlocklist. by rewrite bool_decide_true.
Qed.

Lemma serve_healthz bc r :
  r_Path r = "/healthz" →
  serve bc r = mkResponse 200 {["Content-Type" := "application/json"]}
    (Document.write (JObj [(bytes_of "blocklist_entries", JNum (N.of_nat (BlocklistCache.Size bc)));
                           (bytes_of "status", jstring "ok")]) ++ [10%N]).
Proof.
  intros Hp. unfold serve, respond, NewAPIServer. cbn [snd mux].
  rewrite bool_decide_false by (by rewrite Hp). by rewrite bool_decide_true.
Qed.

Lemma serve_unknown bc r :
  r_Path r ≠ "/api/policies" → r_Path r ≠ "/healthz" →
  serve bc r = finish (http_Error (newWriter false) "404 page not found" 404).
Proof.
  intros H1 H2. unfold serve, respond, NewAPIServer. cbn [snd mux].
  by rewrite !bool_decide_false by done.
Qed.
End Answers.

(** *** Reachable states *)
Section Reachable.
Context `{AM : ApiMachinery} {A B : Type} `{PolicyClient A} `{PodClient B}.

(** The addresses with an entry are addresses of indexed pods. *)
Lemma dom_entries (w : World A B) :
  reachable anything w →
  dom (entries (w_cache w)) ⊆
    list_to_set (filter (λ ip, ip ≠ "") (pod_IP <$> (map_to_list (pods (podIndex (w_cache w)))).*2)).
Proof.
  intros [Hns _ Hwf _]%inv_reachable ip.
  rewrite elem_of_dom, elem_of_list_to_set, list_elem_of_filter, list_elem_of_fmap.
  setoid_rewrite list_elem_of_fmap.
  intros [e He]. destruct (Hns _ _ He) as (Hne & nn & pod & Hpod & <-). simpl in Hpod.
  rewrite (Get_wf _ nn Hwf) in Hpod. split; [done|]. exists pod. split; [done|].
  exists (nn, pod). by rewrite elem_of_map_to_list.
Qed.
End Reachable.

(** What a client has learned from the answer. *)
Definition learns (learned : list (bytes * list bytes)) (ip d : string) : Prop :=
  ∃ ds, (bytes_of ip, ds) ∈ learned ∧ bytes_of d ∈ ds.

Lemma learns_serves `{RO : RangeOrder} (bc : Cache) ip d :
  learns (entryBytes <$> GetBlocklist bc) ip d ↔ serves bc ip d.
Proof.
  split.
  - intros (ds & (e & Heq & He)%list_elem_of_fmap & Hd). injection Heq as Hip ->.
    apply list_elem_of_fmap in Hd as (d' & Hd%bytes_of_inj & Hd'). subst d'.
    exists e. split_and!; [done|symmetry; by apply bytes_of_inj|done].
  - intros (e & He & <- & Hd). exists (bytes_of <$> entry_Domains e). split.
    + apply list_elem_of_fmap. by exists e.
    + apply list_elem_of_fmap. by exists d.
Qed.

(** ** Properties *)
Section Properties.
Context `{AM : ApiMachinery} {A B : Type} `{PolicyClient A} `{PodClient B}.

(** C7: what a client of the API learns. Between any two reconciliations (each run to
    completion), when the strings served are valid UTF-8, GET /api/policies, with any
    query string, is answered with status 200 and a JSON body, from which a client
    obtains each address once, only addresses of indexed pods, and for each address
    exactly the domains the cache serves. These include every domain an indexed policy
    lists that selects the pod with the address, if no pod was reconciled with the
    address while another indexed pod had it; and they are exactly these, if moreover no
    policy was reconciled for deletion that had been edited, since it was indexed, so
    that it no longer selects the pod. *)
Theorem client_learns_policies (RO : RangeOrder) (w : World A B) r :
  reachable anything w → Forall utf8_entry (GetBlocklist (w_cache w)) →
  r_Method r = "GET" → r_Path r = "/api/policies" →
  let res := serve (w_cache w) r in
  res_status res = 200 ∧ res_header res !! "Content-Type" = Some "application/json" ∧
  ∃ learned, clientRead (res_body res) = Some learned ∧ NoDup learned.*1 ∧
    ∀ ip d,
      (learns learned ip d ↔ serves (w_cache w) ip d) ∧
      (learns learned ip d →
        ip ≠ "" ∧ ∃ nn pod, pods (podIndex (w_cache w)) !! nn = Some pod ∧ pod_IP pod = ip) ∧
      (reachable (one_pod ip) w → ip ≠ "" → wanted (w_cache w) ip d → learns learned ip d) ∧
      (reachable (undisturbed ip) w → ip ≠ "" → learns learned ip d ↔ wanted (w_cache w) ip d).
Proof.
  intros Hw Hutf Hm Hp res. unfold res. rewrite serve_get by done. cbn [res_status res_header res_body].
  split_and!; [done|by rewrite lookup_singleton_eq|].
  exists (entryBytes <$> GetBlocklist (w_cache w)). split_and!.
  - by apply clientRead_encoded.
  - rewrite <- list_fmap_compose. change (fst ∘ entryBytes) with (bytes_of ∘ entry_IP).
    rewrite list_fmap_compose. apply NoDup_fmap_2; [intros x y; apply bytes_of_inj|].
    apply GetBlocklist_NoDup, (inv_keyed _ (inv_reachable _ _ Hw)).
  - intros ip d. rewrite !learns_serves.
    split; [done|]. split; [by eapply serves_indexed|]. split; [apply serves_complete|apply serves_exact].
Qed.

(** The answers on every other request. A request for the blocklist with
    another method gets status 405, one for another path 404, both as plain text;
    the health check answers every method with 200 and the number of entries, which is
    at most the number of addresses of indexed pods. *)
Theorem api_other_answers (RO : RangeOrder) (w : World A B) r :
  reachable anything w →
  (r_Path r = "/api/policies" → r_Method r ≠ "GET" →
    res_status (serve (w_cache w) r) = 405 ∧
    res_body (serve (w_cache w) r) = bytes_of "Method not allowed" ++ [10%N]) ∧
  (r_Path r ≠ "/api/policies" → r_Path r ≠ "/healthz" → res_status (serve (w_cache w) r) = 404) ∧
  (r_Path r = "/healthz" →
    res_status (serve (w_cache w) r) = 200 ∧
    ∃ doc n, res_body (serve (w_cache w) r) = doc ++ [10%N] ∧
      Document.parse doc = Some (JObj [(bytes_of "blocklist_entries", JNum (N.of_nat n));
                                       (bytes_of "status", JStr (bytes_of "ok"))]) ∧
      n = size (entries (w_cache w)) ∧
      n ≤ size (list_to_set (C := gset string)
        (filter (λ ip, ip ≠ "") (pod_IP <$> (map_to_list (pods (podIndex (w_cache w)))).*2)))).
Proof.
  intros Hw. split_and!.
  - intros Hp Hm. by rewrite serve_other_method, respond_error by done.
  - intros H1 H2. by rewrite serve_unknown, respond_error by done.
  - intros Hp. rewrite serve_healthz by done. split; [done|].
    eexists _, _. split_and!; [done| | |].
    + rewrite Document.parse_write_clean, Document.clean_valid; [done|]. reflexivity.
    + done.
    + rewrite <- (subseteq_size _ _ (dom_entries w Hw)), size_dom. done.
Qed.
End Properties.

(** A lost connection: the header has been sent, so the 500 that reports the
    failed write changes nothing. *)
Lemma broken_connection `{RO : RangeOrder} `{AM : ApiMachinery} (s : APIServer) r :
  r_Method r = "GET" →
  let w := handleGetBlocklist s (newWriter true) r in
  w_status w = Some 200 ∧ w_body w = [].
Proof. intros Hm. unfold handleGetBlocklist. by rewrite bool_decide_false by (intros Hn; by destruct Hn). Qed.
