(* ===== verification/Webhook.v ===== *)
(** * The admission webhook (webhook/pkg/webhook)

    [mutate] and [ServeHTTP] with the JSON patch they produce. The Kubernetes
    parts they call are parameters: the client for services, the decoders of the
    admission review and of the deployment, the encoder of the answer and the JSON
    of a [PodDNSConfig]. A nil dereference is a panic. *)

From Stdlib Require Import NArith.
From S2P Require Import Prelude Types Json Hash Http.

(** ** Kubernetes types: the fields the webhook reads or writes *)

Record Deployment := mkDeployment {
  d_Namespace : string;
  d_Name : string;
  d_Annotations : GoMap;
  d_HostNetwork : bool;          (* spec.template.spec.hostNetwork *)
}.

Record PodDNSConfig := mkDNSConfig { Nameservers : list string; Searches : list string }.

Record AdmissionRequest := mkAdmissionRequest { req_UID : string; req_Raw : bytes }.

Inductive PatchType := PatchTypeJSONPatch.

Record AdmissionResponse := mkAdmissionResponse {
  resp_UID : string;
  resp_Allowed : bool;
  resp_Message : option string;  (* Result.Message, when there is a Result *)
  resp_Patch : option bytes;
  resp_PatchType : option PatchType;
}.

Record AdmissionReview := mkReview {
  rev_APIVersion : string;
  rev_Kind : string;
  rev_Request : option AdmissionRequest;
  rev_Response : option AdmissionResponse;
}.

(** [corev1.ClusterIPNone], [corev1.DNSNone] *)
Definition ClusterIPNone : string := "None".
Definition DNSNone : string := "None".

(** The code outside the repository. *)
Class Kubernetes := {
  (* Services(ns).Get(name): the ClusterIP of the service, or an error *)
  k8s_Service : string → string → string + goerror;
  (* deserializer.Decode into an AdmissionReview: what the review holds afterwards,
     and the error; json.Unmarshal of the raw object *)
  Decode_Review : bytes → AdmissionReview * option goerror;
  Unmarshal_Deployment : bytes → Deployment + goerror;
  (* json.Marshal of an AdmissionReview and of a PodDNSConfig *)
  Marshal_Review : AdmissionReview → bytes + goerror;
  json_PodDNSConfig : PodDNSConfig → json;
  (* its documented form, with nameservers and search domains and no options *)
  json_PodDNSConfig_spec c :
    Nameservers c ≠ [] → Searches c ≠ [] →
    json_PodDNSConfig c = JObj [(bytes_of "nameservers", jstrings (Some (Nameservers c)));
                                (bytes_of "searches", jstrings (Some (Searches c)))];
}.

(** ** Outcomes: a value, or a panic *)
Inductive outcome (A : Type) := Ret (a : A) | Panic.
Arguments Ret {A} _.
Arguments Panic {A}.

(** [Server], but for the client. *)
Record Server := mkServer { dnsServiceName : string; dnsServiceNamespace : string }.

(** The errors of [rest.InClusterConfig] and [kubernetes.NewForConfig], if any. *)
Record ClusterAccess := mkClusterAccess {
  InClusterConfig : option goerror;
  NewForConfig : option goerror;
}.

(** [NewServer]: names from the environment, with their defaults, and a client; the
    right component is the message [log.Fatalf] ends the process with. *)
Definition NewServer (getenv : string → string) (ca : ClusterAccess) : Server + string :=
  let name := getenv "DNS_SERVICE_NAME" in
  let name := if str_empty name then "kube-dns" else name in
  let ns := getenv "DNS_SERVICE_NAMESPACE" in
  let ns := if str_empty ns then "kube-system" else ns in
  match InClusterConfig ca with
  | Some err => inr ("Failed to create in-cluster config: " +:+ err_Error err)
  | None =>
      match NewForConfig ca with
      | Some err => inr ("Failed to create Kubernetes client: " +:+ err_Error err)
      | None => inl (mkServer name ns)
      end
  end.

(** ** mutation.go *)
Definition dashDnsAnnotation : string := "dasdns.io/watch".

Definition shouldAdjustDnsConfig (deployment : Deployment) : bool :=
  let annotations := d_Annotations deployment in
  if is_nil annotations then false
  else
    match mget annotations dashDnsAnnotation with
    | Some value => bool_decide (value = "true")
    | None => false
    end.

(** [patchOperation]: a nil value is omitted. *)
Record patchOperation := mkPatchOp { Op : string; Path : string; Value : option json }.
Definition jpatch (p : patchOperation) : json :=
  JObj ([(bytes_of "op", jstring (Op p)); (bytes_of "path", jstring (Path p))] ++
        match Value p with Some v => [(bytes_of "value", v)] | None => [] end).

Section Webhook.
Context `{K8S : Kubernetes}.

Definition patches (dnsServiceIP : string) : list patchOperation :=
  let dnsConfig := mkDNSConfig [dnsServiceIP]
    ["default.svc.cluster.local"; "svc.cluster.local"; "cluster.local"] in
  [mkPatchOp "add" "/spec/template/spec/dnsConfig" (Some (json_PodDNSConfig dnsConfig));
   mkPatchOp "add" "/spec/template/spec/dnsPolicy" (Some (jstring DNSNone))].

Definition createPatch (deployment : Deployment) (dnsServiceIP : string) : bytes + goerror :=
  match json_Marshal (JArr (jpatch <$> patches dnsServiceIP)) with
  | inr err => inr (Errorf ("failed to marshal patches: " +:+ err_Error err))
  | inl patchBytes => inl patchBytes
  end.

(** ** server.go *)
Definition HOST_NETWORK_NOT_ALLOWED : string :=
  "The Spec.Template.Spec.HostNetwork cannot be true according to the DnsPolicies".

Definition getDNSServiceIP (s : Server) : string + goerror :=
  let where_ := dnsServiceNamespace s +:+ "/" +:+ dnsServiceName s in
  match k8s_Service (dnsServiceNamespace s) (dnsServiceName s) with
  | inr err => inr (Errorf ("failed to get DNS service " +:+ where_ +:+ ": " +:+ err_Error err))
  | inl clusterIP =>
      if str_empty clusterIP || bool_decide (clusterIP = ClusterIPNone)
      then inr (Errorf ("DNS service " +:+ where_ +:+ " does not have a valid ClusterIP"))
      else inl clusterIP
  end.

(** An answer that is not allowed, with a message, and one that is. *)
Definition denied (msg : string) : AdmissionResponse := mkAdmissionResponse "" false (Some msg) None None.
Definition allowed (patch : option bytes) (pt : option PatchType) : AdmissionResponse :=
  mkAdmissionResponse "" true None patch pt.

Definition mutate (s : Server) (ar : AdmissionReview) : outcome AdmissionResponse :=
  match rev_Request ar with
  | None => Panic   (* the log line reads req.Kind *)
  | Some req =>
      match Unmarshal_Deployment (req_Raw req) with
      | inr err => Ret (denied (err_Error err))
      | inl deployment =>
          if negb (shouldAdjustDnsConfig deployment) then Ret (allowed None None)
          else
            match getDNSServiceIP s with
            | inr err => Ret (denied ("Failed to fetch DNS service IP: " +:+ err_Error err))
            | inl dnsServiceIP =>
                if d_HostNetwork deployment then Ret (denied HOST_NETWORK_NOT_ALLOWED)
                else
                  if shouldAdjustDnsConfig deployment then
                    match createPatch deployment dnsServiceIP with
                    | inr err => Ret (denied (err_Error err))
                    | inl patchBytes => Ret (allowed (Some patchBytes) (Some PatchTypeJSONPatch))
                    end
                  else Ret (allowed (Some []) (Some PatchTypeJSONPatch))
            end
      end
  end.

(** The answer written for a response, with the UID of the request. *)
Definition setUID (r : AdmissionResponse) (req : option AdmissionRequest) : AdmissionResponse :=
  match req with
  | None => r
  | Some req => mkAdmissionResponse (req_UID req) (resp_Allowed r) (resp_Message r) (resp_Patch r) (resp_PatchType r)
  end.

(** The message of a failed write never reaches the client: the connection is lost. *)
Definition ServeHTTP (s : Server) (w : Writer) (r : Request) : outcome Writer :=
  let body := match r_Body r with Some (inl data) => data | _ => [] end in
  if bool_decide (length body = 0) then Ret (http_Error w "Empty body" 400)
  else if bool_decide (Header_Get r "Content-Type" ≠ "application/json")
  then Ret (http_Error w "Invalid content type" 400)
  else
    let '(ar, response) :=
      match Decode_Review body with
      | (ar, Some err) => (ar, Ret (denied (err_Error err)))
      | (ar, None) => (ar, mutate s ar)
      end in
    match response with
    | Panic => Panic
    | Ret admissionResponse =>
        let admissionReview := mkReview "admission.k8s.io/v1" "AdmissionReview" None
          (Some (setUID admissionResponse (rev_Request ar))) in
        match Marshal_Review admissionReview with
        | inr err => Ret (http_Error w ("Could not encode response: " +:+ err_Error err) 500)
        | inl resp =>
            match Write w resp with
            | (w, false) => Ret (http_Error w "Could not write response: " 500)
            | (w, true) => Ret w
            end
        end
    end.
End Webhook.

(** ** JSON Patch (RFC 6902): what the API server does with the answer *)
Module Patch.

Fixpoint assoc (k : bytes) (kvs : list (bytes * json)) : option json :=
  match kvs with
  | [] => None
  | (k', v) :: kvs => if bool_decide (k = k') then Some v else assoc k kvs
  end.

Fixpoint set_member (k : bytes) (v : json) (kvs : list (bytes * json)) : list (bytes * json) :=
  match kvs with
  | [] => [(k, v)]
  | (k', v') :: kvs => if bool_decide (k = k') then (k, v) :: kvs else (k', v') :: set_member k v kvs
  end.

(** The value at a location, through objects. *)
Fixpoint get (path : list bytes) (doc : json) : option json :=
  match path with
  | [] => Some doc
  | k :: path => match doc with JObj kvs => assoc k kvs ≫= get path | _ => None end
  end.

(** The [add] operation: the parent must be an existing object. *)
Fixpoint add (path : list bytes) (v : json) (doc : json) : option json :=
  match path, doc with
  | [], _ => Some v
  | [k], JObj kvs => Some (JObj (set_member k v kvs))
  | k :: path, JObj kvs =>
      sub ← assoc k kvs; sub ← add path v sub; Some (JObj (set_member k sub kvs))
  | _, _ => None
  end.

(** A JSON pointer: the names after each slash. *)
Fixpoint split (l : bytes) (acc : bytes) : list bytes :=
  match l with
  | [] => [reverse acc]
  | b :: l => if (b =? 47)%N then reverse acc :: split l [] else split l (b :: acc)
  end.
Definition pointer (l : bytes) : list bytes :=
  match l with [] => [] | _ :: l => split l [] end.

Definition apply_op (op : json) (doc : json) : option json :=
  match op with
  | JObj kvs =>
      match assoc (bytes_of "op") kvs, assoc (bytes_of "path") kvs, assoc (bytes_of "value") kvs with
      | Some (JStr o), Some (JStr p), Some v =>
          if bool_decide (o = bytes_of "add") then add (pointer p) v doc else None
      | _, _, _ => None
      end
  | _ => None
  end.

Fixpoint apply_ops (ops : list json) (doc : json) : option json :=
  match ops with
  | [] => Some doc
  | op :: ops => doc ← apply_op op doc; apply_ops ops doc
  end.

(** The patch as the text of the answer. *)
Definition apply (patch : bytes) (doc : json) : option json :=
  match Document.parse patch with
  | Some (JArr ops) => apply_ops ops doc
  | _ => None
  end.

(** *** Lemmas *)

Lemma assoc_set_member k k' v kvs :
  assoc k (set_member k' v kvs) = if decide (k = k') then Some v else assoc k kvs.
Proof.
  induction kvs as [|[k1 v1] kvs IH]; simpl.
  - by destruct (decide (k = k')); [rewrite bool_decide_true|rewrite bool_decide_false].
  - destruct (decide (k' = k1)) as [->|Hne].
    + rewrite bool_decide_true by done. simpl. by case_bool_decide; case_decide.
    + rewrite (bool_decide_false (k' = k1)) by done. simpl.
      case_bool_decide as Hk; [subst; by rewrite decide_False by congruence|apply IH].
Qed.

Lemma add_cons k k' path v kvs :
  add (k :: k' :: path) v (JObj kvs) =
  (sub ← assoc k kvs; sub ← add (k' :: path) v sub; Some (JObj (set_member k sub kvs))).
Proof. done. Qed.

(** After adding a value it is there, and locations that are neither above nor
    below it keep their value. *)
Lemma add_spec path v doc doc' :
  add path v doc = Some doc' →
  get path doc' = Some v ∧
  ∀ q, ¬ path `prefix_of` q → ¬ q `prefix_of` path → get q doc' = get q doc.
Proof.
  revert doc doc'. induction path as [|k path IH]; intros doc doc' Hadd.
  { simpl in Hadd. simplify_eq. split; [done|]. intros q Hq. destruct Hq. apply prefix_nil. }
  assert (∃ kvs sub, doc = JObj kvs ∧ doc' = JObj (set_member k sub kvs) ∧
    get path sub = Some v ∧
    ∀ q, ¬ path `prefix_of` q → ¬ q `prefix_of` path → get q sub = assoc k kvs ≫= get q)
    as (kvs & sub & -> & -> & Hget & Hother).
  { destruct doc as [| | | | |kvs]; try by destruct path.
    destruct path as [|k' path].
    - simpl in Hadd. simplify_eq. exists kvs, v. split_and!; try done.
      intros q Hq. destruct Hq. apply prefix_nil.
    - rewrite add_cons in Hadd. destruct (assoc k kvs) as [sub|] eqn:Hk; [|done].
      cbn [mbind option_bind] in Hadd.
      destruct (add (k' :: path) v sub) as [sub'|] eqn:Hsub; [|done]. simpl in Hadd. simplify_eq.
      destruct (IH sub sub' Hsub) as [Hg Ho]. exists kvs, sub'. split_and!; [done..|].
      rewrite Hk. exact Ho. }
  split; [simpl; by rewrite assoc_set_member, decide_True|].
  intros [|k1 q] Hq1 Hq2; [destruct Hq2; apply prefix_nil|]. simpl. rewrite assoc_set_member.
  case_decide as Hk; [subst|done]. simpl. apply Hother; intros Hp.
  - by apply Hq1, prefix_cons.
  - by apply Hq2, prefix_cons.
Qed.

(** Adding below an existing object succeeds. *)
Lemma add_exists path k v doc kvs :
  get path doc = Some (JObj kvs) → is_Some (add (path ++ [k]) v doc).
Proof.
  revert doc. induction path as [|k1 path IH]; intros doc Hg.
  - simpl in Hg. simplify_eq. simpl. by eexists.
  - simpl in Hg. destruct doc as [| | | | |kvs']; try done.
    destruct (assoc k1 kvs') as [sub|] eqn:Hk; [|done]. simpl in Hg.
    destruct (IH sub Hg) as [sub' Hsub].
    replace (add ((k1 :: path) ++ [k]) v (JObj kvs')) with
      (sub ← assoc k1 kvs'; sub ← add (path ++ [k]) v sub; Some (JObj (set_member k1 sub kvs')))
      by (by destruct path).
    rewrite Hk. cbn [mbind option_bind]. rewrite Hsub. by eexists.
Qed.

Lemma get_app p q doc : get (p ++ q) doc = get p doc ≫= get q.
Proof.
  revert doc. induction p as [|k p IH]; intros doc; [done|]. simpl.
  destruct doc as [| | | | |kvs]; try done. destruct (assoc k kvs); [|done]. simpl. apply IH.
Qed.
End Patch.

(** ** Properties *)
Section Properties.
Context `{K8S : Kubernetes}.

(** The pod specification inside a deployment, and the two members the patch sets. *)
Definition podSpec : list bytes := [bytes_of "spec"; bytes_of "template"; bytes_of "spec"].
Definition dnsConfigAt : list bytes := podSpec ++ [bytes_of "dnsConfig"].
Definition dnsPolicyAt : list bytes := podSpec ++ [bytes_of "dnsPolicy"].

Lemma shouldAdjust_spec d :
  shouldAdjustDnsConfig d = true ↔ mget (d_Annotations d) dashDnsAnnotation = Some "true".
Proof.
  unfold shouldAdjustDnsConfig, mget. destruct (d_Annotations d) as [m|]; simpl.
  - destruct (m !! dashDnsAnnotation) as [v|]; [|done].
    rewrite bool_decide_eq_true. naive_solver.
  - split; [done|]. by rewrite lookup_empty.
Qed.

Lemma getDNSServiceIP_spec s ip :
  getDNSServiceIP s = inl ip ↔
  k8s_Service (dnsServiceNamespace s) (dnsServiceName s) = inl ip ∧ ip ≠ "" ∧ ip ≠ ClusterIPNone.
Proof.
  unfold getDNSServiceIP. destruct (k8s_Service _ _) as [c|e]; [|naive_solver].
  destruct (str_empty c) eqn:He; reflect_bools; simpl; [naive_solver|].
  case_bool_decide; naive_solver.
Qed.

(** The text of the patch reads back as its two operations. *)
Lemma patch_ops ip :
  utf8 ip = true →
  ∃ patch, (∀ d, createPatch d ip = inl patch) ∧
    Document.parse patch = Some (JArr (jpatch <$> patches ip)).
Proof.
  intros Hip. exists (Document.write (JArr (jpatch <$> patches ip))). split; [done|].
  rewrite Document.parse_write_clean, Document.clean_valid; [done|].
  unfold patches. rewrite json_PodDNSConfig_spec by done. cbn -[bytes_of Utf8.valid]. unfold utf8 in Hip. rewrite Hip.
  reflexivity.
Qed.

(** The operation that adds a value, as it is written. *)
Lemma apply_add_op path v doc :
  Patch.apply_op (jpatch (mkPatchOp "add" path (Some v))) doc = Patch.add (Patch.pointer (bytes_of path)) v doc.
Proof. done. Qed.

(** C26: the patch redirects the pods' DNS and changes nothing else. Whatever the
    deployment, when the API server applies the patch to a document with a pod
    specification, the result uses exactly the given address as nameserver with
    DNS policy None, and every location that is neither above nor below these two
    members is as it was. *)
Theorem patch_redirects_dns d ip doc kvs :
  utf8 ip = true → Patch.get podSpec doc = Some (JObj kvs) →
  ∃ patch doc', createPatch d ip = inl patch ∧ Patch.apply patch doc = Some doc' ∧
    Patch.get (dnsConfigAt ++ [bytes_of "nameservers"]) doc' = Some (JArr [jstring ip]) ∧
    Patch.get dnsPolicyAt doc' = Some (jstring "None") ∧
    ∀ q, ¬ dnsConfigAt `prefix_of` q → ¬ q `prefix_of` dnsConfigAt →
         ¬ dnsPolicyAt `prefix_of` q → ¬ q `prefix_of` dnsPolicyAt →
         Patch.get q doc' = Patch.get q doc.
Proof.
  intros Hip Hspec. destruct (patch_ops ip Hip) as (patch & Hcreate & Hparse).
  set (cfg := json_PodDNSConfig (mkDNSConfig [ip]
    ["default.svc.cluster.local"; "svc.cluster.local"; "cluster.local"])).
  destruct (Patch.add_exists podSpec (bytes_of "dnsConfig") cfg doc kvs Hspec) as [doc1 Hadd1].
  destruct (Patch.add_spec _ _ _ _ Hadd1) as [Hget1 Hother1].
  assert (∃ kvs1, Patch.get podSpec doc1 = Some (JObj kvs1)) as [kvs1 Hspec1].
  { rewrite Patch.get_app in Hget1. destruct (Patch.get podSpec doc1) as [[]|]; try done. by eexists. }
  destruct (Patch.add_exists podSpec (bytes_of "dnsPolicy") (jstring DNSNone) doc1 kvs1 Hspec1) as [doc2 Hadd2].
  destruct (Patch.add_spec _ _ _ _ Hadd2) as [Hget2 Hother2].
  exists patch, doc2. split_and!; [apply Hcreate| |..].
  - unfold Patch.apply. rewrite Hparse. unfold patches. fold cfg. cbn [fmap list_fmap Patch.apply_ops].
    rewrite apply_add_op.
    change (Patch.pointer (bytes_of "/spec/template/spec/dnsConfig")) with (podSpec ++ [bytes_of "dnsConfig"]).
    rewrite Hadd1. cbn [mbind option_bind]. rewrite apply_add_op.
    change (Patch.pointer (bytes_of "/spec/template/spec/dnsPolicy")) with (podSpec ++ [bytes_of "dnsPolicy"]).
    by rewrite Hadd2.
  - rewrite Patch.get_app. assert (Patch.get dnsConfigAt doc2 = Some cfg) as ->.
    { rewrite <- Hget1. apply Hother2; by intros [? [=]]. }
    unfold cfg. by rewrite json_PodDNSConfig_spec.
  - exact Hget2.
  - intros q H1 H2 H3 H4. rewrite Hother2 by done. by apply Hother1.
Qed.
(** C27: which deployments are admitted and which are patched. For a review with a
    request, [mutate] returns; the deployment is refused, with a message, exactly
    when it cannot be decoded, or is annotated and the DNS service has no address
    or the pods use the host network; an annotated deployment is admitted only
    with the patch for the address of the configured DNS service, and any other
    one is admitted unchanged. *)
Theorem mutate_decision s ar req :
  rev_Request ar = Some req →
  ∃ r, mutate s ar = Ret r ∧
    (resp_Allowed r = true ↔ ∃ d, Unmarshal_Deployment (req_Raw req) = inl d ∧
      (mget (d_Annotations d) "dasdns.io/watch" = Some "true" →
       d_HostNetwork d = false ∧ ∃ ip,
         k8s_Service (dnsServiceNamespace s) (dnsServiceName s) = inl ip ∧ ip ≠ "" ∧ ip ≠ "None")) ∧
    (resp_Allowed r = false → is_Some (resp_Message r) ∧ resp_Patch r = None) ∧
    (∀ d, Unmarshal_Deployment (req_Raw req) = inl d → resp_Allowed r = true →
      if decide (mget (d_Annotations d) "dasdns.io/watch" = Some "true")
      then ∃ ip patch, k8s_Service (dnsServiceNamespace s) (dnsServiceName s) = inl ip ∧
        createPatch d ip = inl patch ∧ resp_Patch r = Some patch ∧
        resp_PatchType r = Some PatchTypeJSONPatch
      else resp_Patch r = None ∧ resp_PatchType r = None).
Proof.
  intros Hreq. unfold mutate. rewrite Hreq.
  destruct (Unmarshal_Deployment (req_Raw req)) as [d|e]; [|eexists; split; [done|]; naive_solver].
  destruct (shouldAdjustDnsConfig d) eqn:Hadj; simpl.
  2: { eexists. split; [done|]. rewrite <- not_true_iff_false, shouldAdjust_spec in Hadj.
    split_and!; simpl; [naive_solver|done|]. intros d' [= <-] _. by rewrite decide_False. }
  apply shouldAdjust_spec in Hadj.
  destruct (getDNSServiceIP s) as [ip|e] eqn:Hip.
  - apply getDNSServiceIP_spec in Hip as (Hk & Hne & Hnone).
    destruct (d_HostNetwork d) eqn:Hhost.
    + eexists. split; [done|]. split_and!; simpl; [|by eauto|done]. split; [done|].
      intros (d' & [= <-] & Hd). destruct (Hd Hadj) as [? _]. congruence.
    + eexists. split; [done|]. split_and!; simpl; [naive_solver|done|].
      intros d' [= <-] _. rewrite decide_True by done. by eexists _, _.
  - eexists. split; [done|]. split_and!; simpl; [|by eauto|done]. split; [done|].
    intros (d' & [= <-] & Hd). destruct (Hd Hadj) as (_ & ip & Hk & Hne & Hnone).
    rewrite (proj2 (getDNSServiceIP_spec s ip)) in Hip; done.
Qed.

(** C28: a well-formed review is answered, and the answer is for it. A JSON request
    whose body decodes to a review with a request is answered with status 200 and
    the encoding of a review that carries the decision of [mutate] under the UID of
    the request. *)
Theorem review_answered s r data ar req :
  r_Body r = Some (inl data) → data ≠ [] → Header_Get r "Content-Type" = "application/json" →
  Decode_Review data = (ar, None) → rev_Request ar = Some req →
  (∀ rev, ∃ text, Marshal_Review rev = inl text) →
  ∃ w resp, ServeHTTP s (newWriter false) r = Ret w ∧ res_status (finish w) = 200 ∧
    mutate s ar = Ret resp ∧
    Marshal_Review (mkReview "admission.k8s.io/v1" "AdmissionReview" None
      (Some (mkAdmissionResponse (req_UID req) (resp_Allowed resp) (resp_Message resp)
        (resp_Patch resp) (resp_PatchType resp)))) = inl (res_body (finish w)).
Proof.
  intros Hb Hne Hct Hdec Hreq Hmarshal. unfold ServeHTTP. rewrite Hb.
  rewrite bool_decide_false by (by destruct data). rewrite bool_decide_false by (intros Hn; by apply Hn).
  rewrite Hdec. assert (∃ resp, mutate s ar = Ret resp) as [resp Hresp].
  { unfold mutate. rewrite Hreq. repeat case_match; by eexists. }
  rewrite Hresp, Hreq. simpl.
  destruct (Hmarshal (mkReview "admission.k8s.io/v1" "AdmissionReview" None
    (Some (mkAdmissionResponse (req_UID req) (resp_Allowed resp) (resp_Message resp)
        (resp_Patch resp) (resp_PatchType resp))))) as [text Htext].
  rewrite Htext. simpl. by eexists _, resp.
Qed.

(** C29: malformed requests. A request without a readable body, or whose content
    type is not JSON, gets status 400; a body that does not decode is answered with
    a review that refuses it with the error. A body that decodes to a review
    without a request makes the handler panic. *)
Theorem malformed_requests s r :
  let data := match r_Body r with Some (inl data) => data | _ => [] end in
  (data = [] → ∃ w, ServeHTTP s (newWriter false) r = Ret w ∧ res_status (finish w) = 400) ∧
  (Header_Get r "Content-Type" ≠ "application/json" →
    ∃ w, ServeHTTP s (newWriter false) r = Ret w ∧ res_status (finish w) = 400) ∧
  (data ≠ [] → Header_Get r "Content-Type" = "application/json" →
    (∀ ar err text, Decode_Review data = (ar, Some err) → rev_Request ar = None →
      Marshal_Review (mkReview "admission.k8s.io/v1" "AdmissionReview" None
        (Some (denied (err_Error err)))) = inl text →
      ∃ w, ServeHTTP s (newWriter false) r = Ret w ∧ finish w = mkResponse 200 ∅ text) ∧
    (∀ ar, Decode_Review data = (ar, None) → rev_Request ar = None →
      ServeHTTP s (newWriter false) r = Panic)).
Proof.
  intros data. unfold ServeHTTP. fold data. split_and!.
  - intros ->. rewrite bool_decide_true by done. by eexists.
  - intros Hct. case_bool_decide; [by eexists|]. rewrite bool_decide_true by done. by eexists.
  - intros Hne Hct. rewrite bool_decide_false by (by destruct data).
    rewrite bool_decide_false by (intros Hn; by apply Hn). split.
    + intros ar err text Hdec Hreq Htext. rewrite Hdec, Hreq. simpl. rewrite Htext. by eexists.
    + intros ar Hdec Hreq. rewrite Hdec. unfold mutate. by rewrite Hreq.
Qed.

(** The DNS service the webhook uses is the one the environment names, by
    default kube-dns in kube-system, and an address it returns is the service's
    ClusterIP, never empty nor the None of a headless service. *)
Theorem dns_service_address getenv ca s ip :
  NewServer getenv ca = inl s → getDNSServiceIP s = inl ip →
  ip ≠ "" ∧ ip ≠ "None" ∧
  k8s_Service
    (if decide (getenv "DNS_SERVICE_NAMESPACE" = "") then "kube-system" else getenv "DNS_SERVICE_NAMESPACE")
    (if decide (getenv "DNS_SERVICE_NAME" = "") then "kube-dns" else getenv "DNS_SERVICE_NAME") = inl ip.
Proof.
  intros Hs (Hk & Hne & Hnone)%getDNSServiceIP_spec. split_and!; [done..|]. rewrite <- Hk.
  unfold NewServer, str_empty in Hs. destruct (InClusterConfig ca), (NewForConfig ca); simplify_eq/=.
  by rewrite <- !decide_bool_decide.
Qed.
End Properties.
