(* ===== verification/ServerExamples.v ===== *)
(** * Concrete requests

    The two servers answering requests: the blocklist API on the run of
    Examples.v, and the webhook with a small Kubernetes. *)

From Stdlib Require Import NArith.
From S2P Require Import Prelude Types Selectors Stores Client.
From S2P Require Import PodIndex PolicyIndex BlocklistCache PolicyReconciler PodReconciler System Examples.
From S2P Require Import Json Hash Http ApiServer Webhook.

#[local] Existing Instance order_fwd.
#[local] Existing Instance simple_machinery.

(** ** The blocklist API *)
Definition get_policies : Request := mkRequest "GET" "/api/policies" "hash=3fe1" ∅ None.
Definition post_policies : Request := mkRequest "POST" "/api/policies" "" ∅ None.

Example get_policies_body :
  res_body (serve (w_cache w2) get_policies) =
  text "{'blocklist':[{'ip':'10.0.0.1','domains':['ads.com','track.io']}]}" ++ [10%N].
Proof. vm_compute. reflexivity. Qed.

Lemma w2_pods : pods (podIndex (w_cache w2)) = {[nn_web := mkPodInfo "10.0.0.1" sel_web "default" "web-1"]}.
Proof. decide_now. Qed.

Lemma utf8_w2 : Forall utf8_entry (GetBlocklist (w_cache w2)).
Proof.
  rewrite w2_serves. apply Forall_singleton. split; [reflexivity|]. intros s. simpl.
  rewrite !elem_of_cons, elem_of_nil. by intros [->|[->|[]]].
Qed.

Lemma reachable_w2_any : reachable anything w2.
Proof. by eapply reachable_mono, reachable_w2. Qed.

(** The hash in the query is ignored. *)
Lemma client_learns_policies_witness :
  ∃ learned, clientRead (res_body (serve (w_cache w2) get_policies)) = Some learned ∧
    learns learned "10.0.0.1" "ads.com".
Proof.
  destruct (client_learns_policies order_fwd w2 get_policies reachable_w2_any utf8_w2) as (_ & _ & l & Hl & _ & Hiff);
    [reflexivity|reflexivity|].
  exists l. split; [exact Hl|]. apply (Hiff "10.0.0.1" "ads.com"); [apply reachable_w2_at|discriminate|].
  exists nn_web, (mkPodInfo "10.0.0.1" sel_web "default" "web-1"), nn_ads, policy_fin.
  split_and!; [vm_compute; reflexivity..| |].
  - decide_now.
  - right. left.
Defined.

Lemma api_other_answers_witness : res_status (serve (w_cache w2) post_policies) = 405.
Proof. apply (api_other_answers order_fwd w2 post_policies reachable_w2_any); [reflexivity|discriminate]. Defined.

(** ** The webhook *)
Definition deployment_web : Deployment :=
  mkDeployment "shop" "web" (Some {["dasdns.io/watch" := "true"]}) false.
Definition review_of (req : option AdmissionRequest) : AdmissionReview :=
  mkReview "admission.k8s.io/v1" "AdmissionReview" req None.
Definition request_web : AdmissionRequest := mkAdmissionRequest "uid-1" (bytes_of "deployment").

Definition json_DNSConfig (c : PodDNSConfig) : json :=
  JObj [(bytes_of "nameservers", jstrings (Some (Nameservers c)));
        (bytes_of "searches", jstrings (Some (Searches c)))].

(** A cluster with kube-dns, whose reviews and deployments are named by words. *)
#[local] Instance small_kubernetes : Kubernetes := {|
  k8s_Service ns n :=
    if decide (ns = "kube-system" ∧ n = "kube-dns") then inl "10.96.0.10" else inr err_NotFound;
  Decode_Review b :=
    if decide (b = bytes_of "review") then (review_of (Some request_web), None)
    else if decide (b = bytes_of "no request") then (review_of None, None)
    else (review_of None, Some (Errorf "cannot decode"));
  Unmarshal_Deployment b :=
    if decide (b = bytes_of "deployment") then inl deployment_web else inr (Errorf "cannot decode");
  Marshal_Review rev :=
    inl (Document.write (JObj [(bytes_of "kind", jstring (rev_Kind rev));
      (bytes_of "uid", match rev_Response rev with Some r => jstring (resp_UID r) | None => JNull end)]));
  json_PodDNSConfig := json_DNSConfig;
  json_PodDNSConfig_spec c _ _ := eq_refl;
|}.

(** The server of an empty environment, in a cluster. *)
Definition in_cluster : ClusterAccess := mkClusterAccess None None.
Definition server : Server := mkServer "kube-dns" "kube-system".
Example default_server : NewServer (λ _, "") in_cluster = inl server.
Proof. reflexivity. Qed.

(** A deployment with an unrelated member in its pod specification. *)
Definition deployment_doc : json :=
  JObj [(bytes_of "kind", jstring "Deployment");
        (bytes_of "spec", JObj [(bytes_of "template", JObj [(bytes_of "spec",
           JObj [(bytes_of "dnsPolicy", jstring "ClusterFirst"); (bytes_of "containers", JArr [])])])])].

Lemma patch_redirects_dns_witness :
  ∃ patch doc', createPatch deployment_web "10.96.0.10" = inl patch ∧
    Patch.apply patch deployment_doc = Some doc' ∧
    Patch.get dnsPolicyAt doc' = Some (jstring "None").
Proof.
  destruct (patch_redirects_dns deployment_web "10.96.0.10" deployment_doc
    [(bytes_of "dnsPolicy", jstring "ClusterFirst"); (bytes_of "containers", JArr [])])
    as (patch & doc' & H1 & H2 & _ & H3 & _); [reflexivity|reflexivity|].
  exists patch, doc'. split_and!; [exact H1|exact H2|exact H3].
Defined.

Example patched_doc :
  (patch ← match createPatch deployment_web "10.96.0.10" with inl p => Some p | inr _ => None end;
   Document.write <$> Patch.apply patch deployment_doc) =
  Some (text ("{'kind':'Deployment','spec':{'template':{'spec':{'dnsPolicy':'None','containers':[]," +:+
    "'dnsConfig':{'nameservers':['10.96.0.10'],'searches':['default.svc.cluster.local'," +:+
    "'svc.cluster.local','cluster.local']}}}}}")).
Proof. vm_compute. reflexivity. Qed.

Lemma mutate_decision_witness : ∃ r, mutate server (review_of (Some request_web)) = Ret r ∧ resp_Allowed r = true.
Proof.
  destruct (mutate_decision server (review_of (Some request_web)) request_web) as (r & Hr & Hal & _);
    [reflexivity|].
  exists r. split; [exact Hr|]. apply Hal. exists deployment_web. split; [reflexivity|]. intros _.
  split; [reflexivity|]. exists "10.96.0.10". split_and!; [reflexivity|discriminate|discriminate].
Defined.

Definition review_request : Request :=
  mkRequest "POST" "/mutate" "timeout=10s" {["Content-Type" := "application/json"]} (Some (inl (bytes_of "review"))).

Lemma review_answered_witness : ∃ w, ServeHTTP server (newWriter false) review_request = Ret w ∧
  res_status (finish w) = 200.
Proof.
  destruct (review_answered server review_request (bytes_of "review") (review_of (Some request_web)) request_web)
    as (w & _ & Hw & Hst & _); [reflexivity|discriminate|reflexivity|reflexivity|reflexivity| |].
  - intros rev. eexists. reflexivity.
  - exists w. split; [exact Hw|exact Hst].
Defined.

Lemma malformed_requests_witness :
  ServeHTTP server (newWriter false)
    (mkRequest "POST" "/mutate" "timeout=10s" {["Content-Type" := "application/json"]} (Some (inl (bytes_of "no request")))) = Panic.
Proof.
  apply (malformed_requests server (mkRequest "POST" "/mutate" "timeout=10s" {["Content-Type" := "application/json"]}
    (Some (inl (bytes_of "no request"))))) with (ar := review_of None);
    [discriminate|reflexivity|reflexivity|reflexivity].
Defined.

Lemma dns_service_address_witness : "10.96.0.10" ≠ "" ∧ getDNSServiceIP server = inl "10.96.0.10".
Proof.
  split; [|reflexivity]. by apply (dns_service_address (λ _, "") in_cluster server "10.96.0.10").
Defined.
