(* ===== verification/Heap.v ===== *)
(** * Copies and aliasing

    Go's maps and slices are references: an index that kept the label map of the
    pod it was given, or handed out its own, would change whenever the caller, or
    the informer cache behind it, writes that map. The indexes copy on the way in
    and on the way out. This file has the heap on which that matters: objects with
    pointers, and the copies as allocations (pod_index.go, zz_generated.deepcopy.go).
    Isolation.v has the indexes on it. *)

From S2P Require Import Prelude Types Stores.

(** ** Memory *)
Abbreviation loc := positive.

(** What a pointer in a struct refers to: a map, a slice of strings, or a slice of
    conditions. *)
Inductive cell :=
  | CMap (m : gmap string string)
  | CStrings (l : list string)
  | CConditions (l : list Condition).

(** Structs: pods, and policies (metadata by value: its deep copy is metav1's). *)
Record PodObj := mkPodObj {
  po_IP : string; po_Labels : option loc; po_Namespace : string; po_Name : string }.
Record PolicyObj := mkPolicyObj {
  qo_Meta : ObjectMeta;
  qo_TargetSelector : option loc; qo_BlockList : option loc; qo_Subject : option loc;
  qo_DryRun : bool; qo_Doh : bool; qo_DohTlsSecrets : option loc;
  qo_SelectorHash : string; qo_SpecHash : string; qo_ObservedGeneration : Z;
  qo_Conditions : option loc }.

Inductive obj := OCell (c : cell) | OPod (p : PodObj) | OPolicy (p : PolicyObj).
Abbreviation heap := (gmap loc obj).

Definition alloc (h : heap) (o : obj) : heap * loc :=
  let l := fresh (dom h) in (<[l := o]> h, l).

(** ** Cells *)

(** The cell behind a pointer of a struct; [None] is a dangling pointer. *)
Definition load (h : heap) (p : option loc) : option (option cell) :=
  match p with
  | None => Some None
  | Some l => match h !! l with Some (OCell c) => Some (Some c) | _ => None end
  end.

Definition as_map (c : option cell) : option GoMap :=
  match c with None => Some None | Some (CMap m) => Some (Some m) | _ => None end.
Definition as_strings (c : option cell) : option (option (list string)) :=
  match c with None => Some None | Some (CStrings l) => Some (Some l) | _ => None end.
Definition as_conditions (c : option cell) : option (option (list Condition)) :=
  match c with None => Some None | Some (CConditions l) => Some (Some l) | _ => None end.

Section Copies.
Context `{RO : RangeOrder} `{AM : ApiMachinery}.

(** The contents of the fresh map or slice the generated code fills. *)
Definition copyCell (c : cell) : cell :=
  match c with
  | CMap m => CMap (foldl (λ out '(k, v), <[k:=v]> out) ∅ (range m))
  | CStrings l => CStrings (go_copy (replicate (length l) "") l)
  | CConditions l => CConditions (Condition_DeepCopyInto <$> l)
  end.

Lemma copyCell_value c : copyCell c = c.
Proof.
  destruct c as [m|l|l]; simpl; f_equal; [apply copy_loop|apply go_copy_fresh|].
  induction l as [|x l IH]; [done|]. csimpl. by rewrite Condition_DeepCopyInto_value, IH.
Qed.

(** [if in.X != nil { *out = make(...); ... }] *)
Definition copyPtr (h : heap) (p : option loc) : option (heap * option loc) :=
  c ← load h p;
  match c with
  | None => Some (h, None)
  | Some c => let '(h, l) := alloc h (OCell (copyCell c)) in Some (h, Some l)
  end.

(** ** Structs *)

(** The value a pointer to a pod stands for. *)
Definition derefPod (h : heap) (l : loc) : option PodInfo :=
  match h !! l with
  | Some (OPod p) =>
      labels ← load h (po_Labels p) ≫= as_map;
      Some (mkPodInfo (po_IP p) labels (po_Namespace p) (po_Name p))
  | _ => None
  end.

(** [&PodInfo{..., Labels: make(map[string]string)}] and the loop over the labels:
    the copy has a map even when the original has none. *)
Definition copyPod (h : heap) (l : loc) : option (heap * loc) :=
  match h !! l with
  | Some (OPod p) =>
      labels ← load h (po_Labels p) ≫= as_map;
      let '(h, a) := alloc h (OCell (CMap (foldl (λ out '(k, v), <[k:=v]> out) ∅ (range (contents labels))))) in
      Some (alloc h (OPod (mkPodObj (po_IP p) (Some a) (po_Namespace p) (po_Name p))))
  | _ => None
  end.

Definition derefPolicy (h : heap) (l : loc) : option DnsPolicy :=
  match h !! l with
  | Some (OPolicy p) =>
      target ← load h (qo_TargetSelector p) ≫= as_map;
      block ← load h (qo_BlockList p) ≫= as_strings;
      subject ← load h (qo_Subject p) ≫= as_map;
      secrets ← load h (qo_DohTlsSecrets p) ≫= as_map;
      conditions ← load h (qo_Conditions p) ≫= as_conditions;
      Some (mkPolicy (qo_Meta p)
        (mkSpec target block subject (qo_DryRun p) (qo_Doh p) secrets)
        (mkStatus (qo_SelectorHash p) (qo_SpecHash p) (qo_ObservedGeneration p) conditions))
  | _ => None
  end.

(** [DeepCopy]: a struct with fresh maps and slices. *)
Definition copyPolicy (h : heap) (l : loc) : option (heap * loc) :=
  match h !! l with
  | Some (OPolicy p) =>
      '(h, target) ← copyPtr h (qo_TargetSelector p);
      '(h, block) ← copyPtr h (qo_BlockList p);
      '(h, subject) ← copyPtr h (qo_Subject p);
      '(h, secrets) ← copyPtr h (qo_DohTlsSecrets p);
      '(h, conditions) ← copyPtr h (qo_Conditions p);
      Some (alloc h (OPolicy (mkPolicyObj (ObjectMeta_DeepCopyInto (qo_Meta p)) target block subject
        (qo_DryRun p) (qo_Doh p) secrets (qo_SelectorHash p) (qo_SpecHash p)
        (qo_ObservedGeneration p) conditions)))
  | _ => None
  end.
End Copies.

(** ** What an index asks of the objects it stores *)
Definition ptr_locs (p : option loc) : gset loc := match p with Some l => {[l]} | None => ∅ end.

Class HeapObject (A : Type) := {
  deref : heap → loc → option A;
  copy : heap → loc → option (heap * loc);
  stored : A → A;                        (* the value of a copy *)
  footprint : heap → loc → gset loc;     (* the memory its value depends on *)
  deref_frame h h' l a :
    deref h l = Some a → (∀ x, x ∈ footprint h l → h' !! x = h !! x) →
    deref h' l = Some a ∧ footprint h' l = footprint h l;
  footprint_dom h l a : deref h l = Some a → footprint h l ⊆ dom h;
  copy_spec h l a :
    deref h l = Some a →
    ∃ h' l', copy h l = Some (h', l') ∧ h ⊆ h' ∧ deref h' l' = Some (stored a) ∧
      footprint h' l' ## dom h;
  stored_idemp a : stored (stored a) = stored a;
}.

(** *** Lemmas on memory *)

Lemma alloc_spec h o h' l : alloc h o = (h', l) → (l ∉ dom h) ∧ h' = <[l := o]> h ∧ h ⊆ h'.
Proof.
  unfold alloc. intros [= <- <-]. pose proof (is_fresh (dom h)) as Hf.
  split_and!; [done|done|]. apply insert_subseteq. by apply not_elem_of_dom.
Qed.

Lemma load_mono h h' p c : load h p = Some c → h ⊆ h' → load h' p = Some c.
Proof.
  destruct p as [l|]; [|done]. simpl. intros Hl Hsub.
  destruct (h !! l) as [o|] eqn:Ho; [|done]. by rewrite (lookup_weaken _ _ _ _ Ho Hsub).
Qed.

Lemma load_frame h h' p c :
  load h p = Some c → (∀ x, x ∈ ptr_locs p → h' !! x = h !! x) → load h' p = Some c.
Proof.
  destruct p as [l|]; [|done]. simpl. intros Hl Hx. by rewrite (Hx l) by set_solver.
Qed.

Lemma load_dom h p c : load h p = Some c → ptr_locs p ⊆ dom h.
Proof.
  destruct p as [l|]; [|set_solver]. simpl. destruct (h !! l) eqn:Ho; [|done]. intros _.
  apply singleton_subseteq_l, elem_of_dom. by eexists.
Qed.

Lemma copyPtr_spec `{RO : RangeOrder} `{AM : ApiMachinery} h p c :
  load h p = Some c →
  ∃ h' p', copyPtr h p = Some (h', p') ∧ h ⊆ h' ∧ load h' p' = Some c ∧ ptr_locs p' ## dom h.
Proof.
  intros Hl. unfold copyPtr. rewrite Hl. cbn [mbind option_bind]. destruct c as [c|].
  - destruct (alloc h (OCell (copyCell c))) as [h' l] eqn:Ha.
    apply alloc_spec in Ha as (Hfresh & -> & Hsub). eexists _, _. split_and!; [done|done| |set_solver].
    simpl. by rewrite lookup_insert_eq, copyCell_value.
  - eexists _, _. split_and!; [done|done|done|set_solver].
Qed.

(** ** Pods and policies are such objects *)
Section Instances.
Context `{RO : RangeOrder} `{AM : ApiMachinery}.

Definition podFootprint (h : heap) (l : loc) : gset loc :=
  match h !! l with Some (OPod p) => {[l]} ∪ ptr_locs (po_Labels p) | _ => ∅ end.

(** A copy always has a label map. *)
Definition podStored (p : PodInfo) : PodInfo :=
  mkPodInfo (pod_IP p) (Some (contents (pod_Labels p))) (pod_Namespace p) (pod_Name p).

Lemma derefPod_Some h l a :
  derefPod h l = Some a ↔ ∃ p c, h !! l = Some (OPod p) ∧ load h (po_Labels p) = Some c ∧
    as_map c = Some (pod_Labels a) ∧
    po_IP p = pod_IP a ∧ po_Namespace p = pod_Namespace a ∧ po_Name p = pod_Name a.
Proof.
  unfold derefPod. split.
  - destruct (h !! l) as [[|p|]|] eqn:Hl; try done. intros Hd.
    apply bind_Some in Hd as (labels & (c & Hc & Hm)%bind_Some & [= <-]). by exists p, c.
  - intros (p & c & Hl & Hc & Hm & Hip & Hns & Hn). rewrite Hl, Hc; simpl. rewrite Hm; simpl.
    rewrite Hip, Hns, Hn. by destruct a.
Qed.

Lemma pod_frame h h' l a :
  derefPod h l = Some a → (∀ x, x ∈ podFootprint h l → h' !! x = h !! x) →
  derefPod h' l = Some a ∧ podFootprint h' l = podFootprint h l.
Proof.
  rewrite !derefPod_Some. intros (p & c & Hl & Hc & Hrest) Hx. unfold podFootprint in *.
  rewrite Hl in Hx. assert (h' !! l = Some (OPod p)) as Hl' by (rewrite Hx by set_solver; done).
  rewrite Hl, Hl'. split; [|done]. exists p, c. split_and!; [done| |naive_solver..].
  eapply load_frame; [done|]. set_solver.
Qed.

Lemma pod_footprint_dom h l a : derefPod h l = Some a → podFootprint h l ⊆ dom h.
Proof.
  intros (p & c & Hl & Hc & _)%derefPod_Some. unfold podFootprint. rewrite Hl.
  apply union_subseteq. split; [|by eapply load_dom].
  apply singleton_subseteq_l, elem_of_dom. by eexists.
Qed.

Lemma pod_copy_spec h l a :
  derefPod h l = Some a →
  ∃ h' l', copyPod h l = Some (h', l') ∧ h ⊆ h' ∧ derefPod h' l' = Some (podStored a) ∧
    podFootprint h' l' ## dom h.
Proof.
  intros (p & c & Hl & Hc & Hm & Hip & Hns & Hn)%derefPod_Some. unfold copyPod.
  rewrite Hl, Hc; cbn [mbind option_bind]. rewrite Hm; cbn [mbind option_bind].
  rewrite copy_loop. destruct (alloc h _) as [h1 a1] eqn:Ha1.
  apply alloc_spec in Ha1 as (Hf1 & -> & Hs1).
  destruct (alloc (<[a1:=_]> h) _) as [h2 l2] eqn:Ha2.
  apply alloc_spec in Ha2 as (Hf2 & -> & Hs2).
  eexists _, l2. split_and!; [done|by transitivity (<[a1:=OCell (CMap (contents (pod_Labels a)))]> h)| |].
  - apply derefPod_Some. eexists _, (Some (CMap (contents (pod_Labels a)))).
    rewrite lookup_insert_eq. split_and!; [done| |done..].
    simpl. assert (l2 ≠ a1) by set_solver. by rewrite lookup_insert_ne, lookup_insert_eq by done.
  - unfold podFootprint. rewrite lookup_insert_eq. simpl. set_solver.
Qed.

#[export] Instance pod_object : HeapObject PodInfo := {|
  deref := derefPod; copy := copyPod; stored := podStored; footprint := podFootprint;
  deref_frame := pod_frame; footprint_dom := pod_footprint_dom; copy_spec := pod_copy_spec;
  stored_idemp a := eq_refl;
|}.

(** *** Policies *)
Definition policyPtrs (p : PolicyObj) : gset loc :=
  ptr_locs (qo_TargetSelector p) ∪ ptr_locs (qo_BlockList p) ∪ ptr_locs (qo_Subject p) ∪
  ptr_locs (qo_DohTlsSecrets p) ∪ ptr_locs (qo_Conditions p).
Definition policyFootprint (h : heap) (l : loc) : gset loc :=
  match h !! l with Some (OPolicy p) => {[l]} ∪ policyPtrs p | _ => ∅ end.

(** The fields of a policy are loaded. *)
Definition loads (h : heap) (p : PolicyObj) (a : DnsPolicy) : Prop :=
  (load h (qo_TargetSelector p) ≫= as_map) = Some (TargetSelector (p_Spec a)) ∧
  (load h (qo_BlockList p) ≫= as_strings) = Some (BlockList (p_Spec a)) ∧
  (load h (qo_Subject p) ≫= as_map) = Some (Subject (p_Spec a)) ∧
  (load h (qo_DohTlsSecrets p) ≫= as_map) = Some (DohTlsSecrets (p_Spec a)) ∧
  (load h (qo_Conditions p) ≫= as_conditions) = Some (Conditions (p_Status a)).

(** Its other fields. *)
Definition scalars (p : PolicyObj) (a : DnsPolicy) : Prop :=
  qo_Meta p = p_ObjectMeta a ∧ qo_DryRun p = DryRun (p_Spec a) ∧ qo_Doh p = Doh (p_Spec a) ∧
  qo_SelectorHash p = SelectorHash (p_Status a) ∧ qo_SpecHash p = SpecHash (p_Status a) ∧
  qo_ObservedGeneration p = ObservedGeneration (p_Status a).

Lemma derefPolicy_Some h l a :
  derefPolicy h l = Some a ↔ ∃ p, h !! l = Some (OPolicy p) ∧ loads h p a ∧ scalars p a.
Proof.
  unfold derefPolicy, loads, scalars. split.
  - destruct (h !! l) as [[| |p]|] eqn:Hl; try done. intros Hd.
    repeat (apply bind_Some in Hd as (? & ? & Hd)). simplify_eq. exists p. by split_and!.
  - intros (p & Hl & (Ht & Hb & Hs & Hd & Hc) & (Hm & Hdr & Hdo & Hsh & Hsp & Hog)).
    rewrite Hl, Ht, Hb, Hs, Hd, Hc; simpl. rewrite Hm, Hdr, Hdo, Hsh, Hsp, Hog. by destruct a as [? [] []].
Qed.

Lemma load_as_frame {B} (f : option cell → option B) h h' p v :
  (load h p ≫= f) = Some v → (∀ x, x ∈ ptr_locs p → h' !! x = h !! x) → (load h' p ≫= f) = Some v.
Proof. intros (c & Hc & Hf)%bind_Some Hx. by rewrite (load_frame _ _ _ _ Hc Hx). Qed.

Lemma load_as_mono {B} (f : option cell → option B) h h' p v :
  (load h p ≫= f) = Some v → h ⊆ h' → (load h' p ≫= f) = Some v.
Proof. intros (c & Hc & Hf)%bind_Some Hx. by rewrite (load_mono _ _ _ _ Hc Hx). Qed.

Lemma load_as_dom {B} (f : option cell → option B) h p v :
  (load h p ≫= f) = Some v → ptr_locs p ⊆ dom h.
Proof. intros (c & Hc & _)%bind_Some. by eapply load_dom. Qed.

Lemma copyPtr_as {B} (f : option cell → option B) h0 h p v :
  h0 ⊆ h → (load h0 p ≫= f) = Some v →
  ∃ h' p', copyPtr h p = Some (h', p') ∧ h ⊆ h' ∧ (load h' p' ≫= f) = Some v ∧ ptr_locs p' ## dom h0.
Proof.
  intros Hsub Hv. pose proof (load_as_mono f _ _ _ _ Hv Hsub) as (c & Hc & Hf)%bind_Some.
  destruct (copyPtr_spec h p c Hc) as (h' & p' & Hcopy & Hs & Hl & Hd).
  exists h', p'. split_and!; [done..|by rewrite Hl|]. apply subseteq_dom in Hsub. set_solver.
Qed.

Lemma policy_frame h h' l a :
  derefPolicy h l = Some a → (∀ x, x ∈ policyFootprint h l → h' !! x = h !! x) →
  derefPolicy h' l = Some a ∧ policyFootprint h' l = policyFootprint h l.
Proof.
  rewrite !derefPolicy_Some. intros (p & Hl & (Ht & Hb & Hs & Hd & Hc) & Hsc) Hx.
  unfold policyFootprint in *. rewrite Hl in Hx.
  assert (h' !! l = Some (OPolicy p)) as Hl' by (rewrite Hx by set_solver; done).
  rewrite Hl, Hl'. split; [|done]. exists p. split_and!; [done| |done].
  unfold policyPtrs in Hx.
  split_and!; (eapply load_as_frame; [done|]); intros x Hin; apply Hx; set_solver.
Qed.

Lemma policy_footprint_dom h l a : derefPolicy h l = Some a → policyFootprint h l ⊆ dom h.
Proof.
  intros (p & Hl & (Ht & Hb & Hs & Hd & Hc) & _)%derefPolicy_Some.
  unfold policyFootprint, policyPtrs. rewrite Hl.
  apply load_as_dom in Ht, Hb, Hs, Hd, Hc.
  assert (l ∈ dom h) by (apply elem_of_dom; by eexists). set_solver.
Qed.

Lemma policy_copy_spec h l a :
  derefPolicy h l = Some a →
  ∃ h' l', copyPolicy h l = Some (h', l') ∧ h ⊆ h' ∧ derefPolicy h' l' = Some a ∧
    policyFootprint h' l' ## dom h.
Proof.
  intros (p & Hl & (Ht & Hb & Hs & Hd & Hc) & Hsc)%derefPolicy_Some.
  destruct (copyPtr_as as_map h h _ _ (reflexivity h) Ht) as (h1 & t & Ht1 & Hs1 & Ht2 & Hdt).
  destruct (copyPtr_as as_strings h h1 _ _ Hs1 Hb) as (h2 & b & Hb1 & Hs2 & Hb2 & Hdb).
  assert (h ⊆ h2) as Hh2 by (by transitivity h1).
  destruct (copyPtr_as as_map h h2 _ _ Hh2 Hs) as (h3 & s & Hs1' & Hs3 & Hs2' & Hds).
  assert (h ⊆ h3) as Hh3 by (by transitivity h2).
  destruct (copyPtr_as as_map h h3 _ _ Hh3 Hd) as (h4 & d & Hd1 & Hs4 & Hd2 & Hdd).
  assert (h ⊆ h4) as Hh4 by (by transitivity h3).
  destruct (copyPtr_as as_conditions h h4 _ _ Hh4 Hc) as (h5 & c & Hc1 & Hs5 & Hc2 & Hdc).
  assert (h ⊆ h5) as Hh5 by (by transitivity h4).
  unfold copyPolicy. rewrite Hl. cbn [mbind option_bind].
  rewrite Ht1; cbn [mbind option_bind]. rewrite Hb1; cbn [mbind option_bind].
  rewrite Hs1'; cbn [mbind option_bind]. rewrite Hd1; cbn [mbind option_bind].
  rewrite Hc1; cbn [mbind option_bind].
  destruct (alloc h5 _) as [h6 l6] eqn:Ha. apply alloc_spec in Ha as (Hf & Heq & Hs6).
  exists h6, l6. split_and!; [done|by transitivity h5| |].
  - apply derefPolicy_Some. eexists. rewrite Heq at 1. rewrite lookup_insert_eq. split_and!; [done| |].
    + split_and!; simpl; eapply load_as_mono; try eassumption; clear -Hs1 Hs2 Hs3 Hs4 Hs5 Hs6;
        repeat (etransitivity; [eassumption|]); done.
    + destruct Hsc as (Hm & Hrest). split; [simpl; by rewrite ObjectMeta_DeepCopyInto_value|exact Hrest].
  - unfold policyFootprint. rewrite Heq, lookup_insert_eq. unfold policyPtrs; simpl.
    assert (l6 ∉ dom h) by (apply subseteq_dom in Hh5; set_solver). set_solver.
Qed.

#[export] Instance policy_object : HeapObject DnsPolicy := {|
  deref := derefPolicy; copy := copyPolicy; stored a := a; footprint := policyFootprint;
  deref_frame := policy_frame; footprint_dom := policy_footprint_dom; copy_spec := policy_copy_spec;
  stored_idemp a := eq_refl;
|}.
End Instances.
