(* ===== verification/Isolation.v ===== *)
(** * Indexes that copy cannot be changed from outside

    The two indexes as they are in memory: maps of pointers, whose methods copy what they
    are given and what they return (pod_index.go, policy_index.go). Around them are
    callers that may at any moment write every location they can reach: all of the memory
    there was before the index, what they allocate themselves, every object a call
    returned, and the selector that [PolicyIndex.Upsert] and [PolicyIndex.Delete] hand out
    of the object they drop. Every call nevertheless returns what the index of values
    (PodIndex.v, PolicyIndex.v) returns after the same calls.

    The argument, separation of the stored objects from what callers know, is made once
    for both, against the interface [HeapObject]. *)

From S2P Require Import Prelude Types Selectors Stores PodIndex PolicyIndex Heap.

(** ** Stored objects and what callers know *)
Section Separation.
Context {A : Type} `{HO : HeapObject A}.
Implicit Types (nn : NamespacedName) (a : A) (h : heap) (l : loc) (known : gset loc).
Implicit Types (idx : gmap NamespacedName loc) (m : gmap NamespacedName A).

(** The memory behind returned pointers. *)
Definition reach h (ls : list loc) : gset loc := ⋃ (footprint h <$> ls).

Lemma reach_nil h : reach h [] = ∅.
Proof. done. Qed.
Lemma reach_singleton h l : reach h [l] = footprint h l.
Proof. unfold reach; csimpl. apply (right_id_L ∅ (∪)). Qed.

(** A stored object stands for a value, and callers know none of its memory. *)
Definition holds h known (l : loc) (a : A) : Prop :=
  deref h l = Some a ∧ footprint h l ## known ∧ stored a = a.

(** The pointers of an index stand for a map of values; objects are apart from each
    other and from what callers know. *)
Record separate h known idx m : Prop := {
  sep_known : known ⊆ dom h;
  sep_value : map_Forall2 (λ _, holds h known) idx m;
  sep_apart nn1 nn2 l1 l2 :
    idx !! nn1 = Some l1 → idx !! nn2 = Some l2 → nn1 ≠ nn2 → footprint h l1 ## footprint h l2;
}.

(** What callers may do to memory, and what they know afterwards: they write what they
    know, and allocate. *)
Definition tampers h known (h' : heap) : Prop :=
  dom h ⊆ dom h' ∧ ∀ l, l ∈ dom h → l ∉ known → h' !! l = h !! l.
Definition known_after h known (h' : heap) : gset loc := known ∪ (dom h' ∖ dom h).

(** [for _, x := range m { if test(x) { result = append(result, copy of x) } }] *)
Fixpoint copyWhere (test : heap → loc → bool) h (ls : list loc) : option (heap * list loc) :=
  match ls with
  | [] => Some (h, [])
  | l :: ls =>
      if test h l then
        '(h, l') ← copy h l;
        '(h, ls') ← copyWhere test h ls;
        Some (h, l' :: ls')
      else copyWhere test h ls
  end.

(** *** Lemmas *)
Lemma separate_empty h : separate h (dom h) ∅ ∅.
Proof.
  split; [done|apply map_Forall2_empty|]. intros nn1 nn2 l1 l2 Hl. by rewrite lookup_empty in Hl.
Qed.

Lemma separate_lookup h known idx m nn l :
  separate h known idx m → idx !! nn = Some l → ∃ a, m !! nn = Some a ∧ holds h known l a.
Proof.
  intros Hs Hl. pose proof (sep_value _ _ _ _ Hs nn) as Hv. rewrite Hl in Hv.
  inv Hv. eauto.
Qed.

Lemma separate_absent h known idx m nn :
  separate h known idx m → idx !! nn = None ↔ m !! nn = None.
Proof.
  intros Hs. pose proof (sep_value _ _ _ _ Hs nn) as Hv. by inv Hv.
Qed.

Lemma separate_dom h known idx m : separate h known idx m → dom idx = dom m.
Proof. intros Hs. by eapply map_Forall2_dom_L, sep_value. Qed.

(** Memory the callers do not know stays as it is. *)
Lemma separate_frame h known idx m h' known' :
  separate h known idx m → known' ⊆ dom h' → (∀ l, l ∈ dom h → l ∈ known' → l ∈ known) →
  (∀ l, l ∈ dom h → l ∉ known → h' !! l = h !! l) → separate h' known' idx m.
Proof.
  intros Hs Hk Hkk Hfr.
  assert (∀ nn l, idx !! nn = Some l → ∃ a, m !! nn = Some a ∧ holds h' known' l a ∧
    footprint h' l = footprint h l) as Hval.
  { intros nn l Hl. destruct (separate_lookup _ _ _ _ nn l Hs Hl) as (a & Ha & Hd & Hf & Hst).
    pose proof (footprint_dom h l a Hd) as Hdom.
    destruct (deref_frame h h' l a Hd) as [Hd' Hf']; [intros x Hx; apply Hfr; set_solver|].
    exists a. split_and!; [done| |done]. split_and!; [done|rewrite Hf'; set_solver|done]. }
  split; [done| |].
  - intros nn. destruct (idx !! nn) as [l|] eqn:Hl.
    + destruct (Hval nn l Hl) as (a & Ha & Hh & _). rewrite Ha. by constructor.
    + apply (separate_absent _ _ _ _ nn Hs) in Hl. rewrite Hl. constructor.
  - intros nn1 nn2 l1 l2 H1 H2 Hne. destruct (Hval nn1 l1 H1) as (? & _ & _ & ->).
    destruct (Hval nn2 l2 H2) as (? & _ & _ & ->). by eapply (sep_apart _ _ _ _ Hs nn1 nn2).
Qed.

Lemma separate_tampered h known idx m h' :
  separate h known idx m → tampers h known h' → separate h' (known_after h known h') idx m.
Proof.
  intros Hs [Hdom Hfr]. pose proof (sep_known _ _ _ _ Hs). unfold known_after.
  eapply separate_frame; [exact Hs|set_solver|set_solver|exact Hfr].
Qed.

Lemma separate_grow h known idx m h' new :
  separate h known idx m → h ⊆ h' → new ⊆ dom h' → new ## dom h → separate h' (known ∪ new) idx m.
Proof.
  intros Hs Hsub Hnew Hdisj. pose proof (sep_known _ _ _ _ Hs). pose proof (subseteq_dom _ _ Hsub).
  eapply separate_frame; [exact Hs|set_solver|set_solver|].
  intros l [o Ho]%elem_of_dom _. rewrite Ho. by eapply lookup_weaken.
Qed.

(** An object leaves the index; some of its memory may become known. *)
Lemma separate_remove h known idx m nn leaked :
  separate h known idx m → (∀ l, idx !! nn = Some l → leaked ⊆ footprint h l) →
  (idx !! nn = None → leaked = ∅) →
  separate h (known ∪ leaked) (delete nn idx) (delete nn m).
Proof.
  intros Hs Hleak Hnone. split.
  - apply union_subseteq. split; [apply Hs|]. destruct (idx !! nn) as [l|] eqn:Hl; [|set_solver].
    destruct (separate_lookup _ _ _ _ nn l Hs Hl) as (a & _ & Hd & _).
    pose proof (footprint_dom h l a Hd). set_solver.
  - intros nn'. destruct (decide (nn' = nn)) as [->|Hne]; [rewrite !lookup_delete_eq; constructor|].
    rewrite !lookup_delete_ne by done. pose proof (sep_value _ _ _ _ Hs nn') as Hv.
    destruct (idx !! nn') as [l'|] eqn:Hl'; inv Hv as [? a' (Hd & Hf & Hst)|]; constructor. split_and!; [done| |done].
    destruct (idx !! nn) as [l|] eqn:Hl; [|set_solver].
    pose proof (sep_apart _ _ _ _ Hs nn' nn l' l Hl' Hl Hne). set_solver.
  - intros nn1 nn2 l1 l2 [_ H1]%lookup_delete_Some [_ H2]%lookup_delete_Some Hne.
    by eapply (sep_apart _ _ _ _ Hs nn1 nn2).
Qed.

(** A copy of what the caller passed enters the index. *)
Lemma separate_put h known idx m nn l a :
  separate h known idx m → deref h l = Some a → idx !! nn = None →
  ∃ h' l', copy h l = Some (h', l') ∧ h ⊆ h' ∧
    separate h' known (<[nn := l']> idx) (<[nn := stored a]> m).
Proof.
  intros Hs Hd Hnone. destruct (copy_spec h l a Hd) as (h' & l' & Hcopy & Hsub & Hd' & Hdisj).
  exists h', l'. split_and!; [done..|].
  assert (separate h' known idx m) as Hs'.
  { rewrite <- (right_id_L ∅ (∪) known). apply (separate_grow h); [done..|set_solver|set_solver]. }
  assert (∀ nn' x, idx !! nn' = Some x → footprint h' x ⊆ dom h) as Hold.
  { intros nn' x Hx. destruct (separate_lookup _ _ _ _ nn' x Hs Hx) as (b & _ & Hdx & _).
    destruct (deref_frame h h' x b Hdx) as [_ ->]; [|by eapply footprint_dom].
    intros y Hy%(footprint_dom h x b Hdx). apply elem_of_dom in Hy as [o Ho]. rewrite Ho. by eapply lookup_weaken. }
  pose proof (sep_known _ _ _ _ Hs). split; [apply Hs'| |].
  - apply map_Forall2_insert_2; [|apply Hs']. split_and!; [done|set_solver|apply stored_idemp].
  - intros nn1 nn2 l1 l2 [[<- <-]|[_ H1]]%lookup_insert_Some [[<- <-]|[_ H2]]%lookup_insert_Some Hne.
    + done.
    + specialize (Hold _ _ H2). set_solver.
    + specialize (Hold _ _ H1). set_solver.
    + by eapply (sep_apart _ _ _ _ Hs' nn1 nn2).
Qed.

(** A copy of a stored object is handed out. *)
Lemma separate_get h known idx m nn l a :
  separate h known idx m → idx !! nn = Some l → m !! nn = Some a →
  ∃ h' l', copy h l = Some (h', l') ∧ h ⊆ h' ∧ deref h' l' = Some a ∧
    footprint h' l' ⊆ dom h' ∧ separate h' (known ∪ footprint h' l') idx m.
Proof.
  intros Hs Hl Ha. destruct (separate_lookup _ _ _ _ nn l Hs Hl) as (b & Hb & Hd & _ & Hst).
  simplify_eq. destruct (copy_spec h l a Hd) as (h' & l' & Hcopy & Hsub & Hd' & Hdisj).
  rewrite Hst in Hd'. pose proof (footprint_dom h' l' a Hd').
  exists h', l'. split_and!; [done..|]. by apply (separate_grow h).
Qed.

(** The loop over the stored objects returns copies of those that pass the test. *)
Definition values m (es : list (NamespacedName * loc)) : list A := omap (λ e, m !! e.1) es.

Lemma copyWhere_spec test (P : A → Prop) `{!∀ a, Decision (P a)} h known idx m es :
  separate h known idx m → (∀ nn l, (nn, l) ∈ es → idx !! nn = Some l) →
  (∀ h l a, deref h l = Some a → test h l = bool_decide (P a)) →
  ∃ h' ls, copyWhere test h es.*2 = Some (h', ls) ∧ h ⊆ h' ∧
    mapM (deref h') ls = Some (filter P (values m es)) ∧
    separate h' (known ∪ reach h' ls) idx m.
Proof.
  intros Hs Hes Htest. revert h known Hs. induction es as [|[nn l] es IH]; intros h known Hs; csimpl.
  { exists h, []. split_and!; [done..|]. by rewrite reach_nil, (right_id_L ∅ (∪)). }
  assert (idx !! nn = Some l) as Hl by (apply Hes; by left).
  assert (∀ nn l, (nn, l) ∈ es → idx !! nn = Some l) as Hes' by (intros ???; apply Hes; by right).
  destruct (separate_lookup _ _ _ _ nn l Hs Hl) as (a & Ha & Hd & _).
  rewrite (Htest h l a Hd). unfold values; csimpl. rewrite Ha, filter_cons.
  case_bool_decide as HP; [rewrite decide_True by done|rewrite decide_False by done; by apply IH].
  destruct (separate_get _ _ _ _ nn l a Hs Hl Ha) as (h1 & l1 & Hcopy & Hsub1 & Hd1 & Hf1 & Hs1).
  destruct (IH Hes' h1 _ Hs1) as (h' & ls & Hrest & Hsub & Hvals & Hs').
  destruct (deref_frame h1 h' l1 a Hd1) as [Hd1' Hf1'].
  { intros x Hx%Hf1. apply elem_of_dom in Hx as [o Ho]. rewrite Ho. by eapply lookup_weaken. }
  exists h', (l1 :: ls). rewrite Hcopy; cbn [mbind option_bind]. rewrite Hrest; cbn [mbind option_bind].
  split_and!; [done|by etrans| |].
  - apply mapM_Some. constructor; [done|]. by apply mapM_Some.
  - unfold reach; csimpl. by rewrite Hf1', (assoc_L (∪)).
Qed.

Lemma filter_all {B} (l : list B) : filter (λ _, True) l = l.
Proof. induction l as [|x l IH]; [done|]. by rewrite filter_cons_True, IH. Qed.

(** The values the loop over an index visits. *)
Lemma values_keys m (es : list (NamespacedName * loc)) : values m es = omap (m !!.) es.*1.
Proof. unfold values. induction es as [|[nn l] es IH]; csimpl; [done|]. by rewrite IH. Qed.

Lemma lookups_map_to_list m : omap (m !!.) (map_to_list m).*1 = (map_to_list m).*2.
Proof.
  assert (∀ nn a, (nn, a) ∈ map_to_list m → m !! nn = Some a) as Hin
    by (intros nn a; apply elem_of_map_to_list).
  induction (map_to_list m) as [|[nn a] es IH]; csimpl; [done|].
  rewrite (Hin nn a) by (by left). rewrite IH; [done|]. intros nn' a' ?. apply Hin. by right.
Qed.

Lemma elem_of_keys {V} (mv : gmap NamespacedName V) nn : nn ∈ (map_to_list mv).*1 ↔ nn ∈ dom mv.
Proof.
  rewrite list_elem_of_fmap, elem_of_dom. split.
  - intros ([nn' v] & -> & Hv%elem_of_map_to_list). by eexists.
  - intros [v Hv]. exists (nn, v). by rewrite elem_of_map_to_list.
Qed.

Lemma values_index `{RO : RangeOrder} h known idx m :
  separate h known idx m → values m (range idx) ≡ₚ (map_to_list m).*2.
Proof.
  intros Hs. rewrite values_keys, <- lookups_map_to_list. apply omap_Permutation.
  rewrite (range_perm idx). apply NoDup_Permutation; [apply NoDup_fst_map_to_list..|].
  intros nn. by rewrite !elem_of_keys, (separate_dom _ _ _ _ Hs).
Qed.
End Separation.

(** ** The pod index in memory *)

(** The calls, with the pod they are given: a pointer, or its value. *)
Inductive PodCall (X : Type) :=
  | CallUpsert (nn : NamespacedName) (info : X)
  | CallDelete (nn : NamespacedName)
  | CallGet (nn : NamespacedName)
  | CallGetByIP (ip : string)
  | CallGetAll
  | CallMatching (selector : GoMap).
Arguments CallUpsert {X} _ _.
Arguments CallDelete {X} _.
Arguments CallGet {X} _.
Arguments CallGetByIP {X} _.
Arguments CallGetAll {X}.
Arguments CallMatching {X} _.

Definition PodCall_map {X Y} (f : X → option Y) (c : PodCall X) : option (PodCall Y) :=
  match c with
  | CallUpsert nn x => CallUpsert nn <$> f x
  | CallDelete nn => Some (CallDelete nn)
  | CallGet nn => Some (CallGet nn)
  | CallGetByIP ip => Some (CallGetByIP ip)
  | CallGetAll => Some CallGetAll
  | CallMatching sel => Some (CallMatching sel)
  end.

Section Pods.
Context `{RO : RangeOrder}.

(** [pods map[types.NamespacedName]*PodInfo] and the reverse map. *)
Record HPodIndex := mkHPodIndex {
  hpods : gmap NamespacedName loc;
  hipToPod : gmap string NamespacedName;
}.

(** The fields of a pod behind a pointer; [None]: there is none. *)
Definition podAt (h : heap) (l : loc) : option PodObj :=
  match h !! l with Some (OPod p) => Some p | _ => None end.

Definition hUpsert (h : heap) (pi : HPodIndex) (nn : NamespacedName) (info : loc) : option (heap * HPodIndex) :=
  i ← podAt h info;
  ips ← match hpods pi !! nn with
        | Some existing =>
            e ← podAt h existing;
            Some (if bool_decide (po_IP e ≠ po_IP i) then delete (po_IP e) (hipToPod pi) else hipToPod pi)
        | None => Some (hipToPod pi)
        end;
  '(h, podCopy) ← copyPod h info;
  Some (h, mkHPodIndex (<[nn := podCopy]> (hpods pi)) (<[po_IP i := nn]> ips)).

Definition hDelete (h : heap) (pi : HPodIndex) (nn : NamespacedName) : option HPodIndex :=
  match hpods pi !! nn with
  | Some existing =>
      e ← podAt h existing;
      Some (mkHPodIndex (delete nn (hpods pi)) (delete (po_IP e) (hipToPod pi)))
  | None => Some pi
  end.

(** A copy of one stored pod, when there is one. *)
Definition hGet (h : heap) (pi : HPodIndex) (nn : NamespacedName) : option (heap * list loc) :=
  match hpods pi !! nn with
  | Some info => '(h, l) ← copyPod h info; Some (h, [l])
  | None => Some (h, [])
  end.

Definition hGetByIP (h : heap) (pi : HPodIndex) (ip : string) : option (heap * list loc) :=
  match hipToPod pi !! ip with
  | Some nn => hGet h pi nn
  | None => Some (h, [])
  end.

Definition hGetAll (h : heap) (pi : HPodIndex) : option (heap * list loc) :=
  copyWhere (A:=PodInfo) (λ _ _, true) h (range (hpods pi)).*2.

Definition hMatching (h : heap) (pi : HPodIndex) (selector : GoMap) : option (heap * list loc) :=
  copyWhere (A:=PodInfo) (λ h l, match derefPod h l with
                    | Some info => LabelsContainAll (pod_Labels info) selector
                    | None => false
                    end) h (range (hpods pi)).*2.

(** A call: the memory and the index after it, and the pointers it returns. *)
Definition podExec (h : heap) (pi : HPodIndex) (c : PodCall loc) : option (heap * HPodIndex * list loc) :=
  match c with
  | CallUpsert nn info => '(h, pi) ← hUpsert h pi nn info; Some (h, pi, [])
  | CallDelete nn => pi ← hDelete h pi nn; Some (h, pi, [])
  | CallGet nn => '(h, ls) ← hGet h pi nn; Some (h, pi, ls)
  | CallGetByIP ip => '(h, ls) ← hGetByIP h pi ip; Some (h, pi, ls)
  | CallGetAll => '(h, ls) ← hGetAll h pi; Some (h, pi, ls)
  | CallMatching sel => '(h, ls) ← hMatching h pi sel; Some (h, pi, ls)
  end.

(** The same call on the index of values. *)
Definition podCall (pi : PodIndex) (c : PodCall PodInfo) : PodIndex * list PodInfo :=
  match c with
  | CallUpsert nn info => (PodIndex.Upsert pi nn info, [])
  | CallDelete nn => (PodIndex.Delete pi nn, [])
  | CallGet nn => (pi, option_list (PodIndex.Get pi nn))
  | CallGetByIP ip => (pi, option_list (GetByIP pi ip))
  | CallGetAll => (pi, PodIndex.GetAll pi)
  | CallMatching sel => (pi, GetPodsMatchingSelector pi sel)
  end.

(** *** The index among its callers *)
Record PodMemory := mkPodMemory { pm_heap : heap; pm_index : HPodIndex; pm_known : gset loc }.

(** What happens: a call, with the values of its argument and of what it returns, or
    callers at work on the memory they know. *)
Inductive PodEvent :=
  | PodCalled (c : PodCall PodInfo) (rs : list PodInfo)
  | PodOutside.

Inductive pod_mstep : PodMemory → PodEvent → PodMemory → Prop :=
  | pod_called h pi known c cv h' pi' ls rs :
      PodCall_map (derefPod h) c = Some cv → podExec h pi c = Some (h', pi', ls) →
      mapM (derefPod h') ls = Some rs →
      pod_mstep (mkPodMemory h pi known) (PodCalled cv rs) (mkPodMemory h' pi' (known ∪ reach (A:=PodInfo) h' ls))
  | pod_outside h pi known h' :
      tampers h known h' →
      pod_mstep (mkPodMemory h pi known) PodOutside (mkPodMemory h' pi (known_after h known h')).

Inductive pod_msteps : PodMemory → list PodEvent → PodMemory → Prop :=
  | pod_msteps_nil st : pod_msteps st [] st
  | pod_msteps_cons st e st' es st'' :
      pod_mstep st e st' → pod_msteps st' es st'' → pod_msteps st (e :: es) st''.

(** [NewPodIndex()]: all the memory there is belongs to callers. *)
Definition pod_mstart (h : heap) : PodMemory := mkPodMemory h (mkHPodIndex ∅ ∅) (dom h).

Definition pod_run (pi : PodIndex) (es : list PodEvent) : PodIndex :=
  foldl (λ pi e, match e with PodCalled c _ => (podCall pi c).1 | PodOutside => pi end) pi es.

(** The memory stands for an index of values. *)
Record pod_stands (st : PodMemory) (pi : PodIndex) : Prop := {
  pst_separate : separate (pm_heap st) (pm_known st) (hpods (pm_index st)) (pods pi);
  pst_ips : hipToPod (pm_index st) = ipToPod pi;
  pst_wf : wf pi;
}.

Lemma podAt_deref h l a : derefPod h l = Some a → ∃ p, podAt h l = Some p ∧ po_IP p = pod_IP a.
Proof. intros (p & c & Hl & _ & _ & Hip & _)%derefPod_Some. exists p. unfold podAt. by rewrite Hl. Qed.

Lemma podStored_copy a : podStored a = podCopy a.
Proof. by rewrite podCopy_normal. Qed.

Lemma stands_Upsert h pi known v nn l a :
  pod_stands (mkPodMemory h pi known) v → derefPod h l = Some a →
  ∃ h' pi', hUpsert h pi nn l = Some (h', pi') ∧
    pod_stands (mkPodMemory h' pi' known) (PodIndex.Upsert v nn a).
Proof.
  intros [Hs Hips Hwf] Ha; simpl in *. destruct (podAt_deref h l a Ha) as (i & Hi & Hip).
  pose proof (separate_remove _ _ _ _ nn ∅ Hs (λ _ _, empty_subseteq _) (λ _, eq_refl)) as Hs1.
  rewrite (right_id_L ∅ (∪)) in Hs1.
  destruct (separate_put _ _ _ _ nn l a Hs1 Ha (lookup_delete_eq _ _)) as (h' & l' & Hcopy & _ & Hs').
  simpl in Hcopy. rewrite !insert_delete_eq in Hs'.
  pose proof (wf_Upsert v nn a Hwf) as Hwf'. unfold PodIndex.Upsert in *. unfold hUpsert.
  rewrite Hi; cbn [mbind option_bind]. rewrite Hips.
  destruct (hpods pi !! nn) as [x|] eqn:Hx.
  - destruct (separate_lookup _ _ _ _ nn x Hs Hx) as (b & Hb & Hd & _).
    destruct (podAt_deref h x b Hd) as (e & He & Hie). rewrite He; cbn [mbind option_bind].
    rewrite Hb in *. rewrite Hcopy; cbn [mbind option_bind]. rewrite Hie, Hip. eexists _, _. split; [done|].
    split; simpl; [by rewrite <- podStored_copy|done|exact Hwf'].
  - rewrite (proj1 (separate_absent _ _ _ _ nn Hs) Hx) in *. cbn [mbind option_bind].
    rewrite Hcopy; cbn [mbind option_bind]. rewrite Hip. eexists _, _. split; [done|].
    split; simpl; [by rewrite <- podStored_copy|done|exact Hwf'].
Qed.

Lemma stands_Delete h pi known v nn :
  pod_stands (mkPodMemory h pi known) v →
  ∃ pi', hDelete h pi nn = Some pi' ∧ pod_stands (mkPodMemory h pi' known) (PodIndex.Delete v nn).
Proof.
  intros [Hs Hips Hwf]; simpl in *. pose proof (wf_Delete v nn Hwf) as Hwf'.
  pose proof (separate_remove _ _ _ _ nn ∅ Hs (λ _ _, empty_subseteq _) (λ _, eq_refl)) as Hs1.
  rewrite (right_id_L ∅ (∪)) in Hs1. unfold hDelete, PodIndex.Delete in *.
  destruct (hpods pi !! nn) as [x|] eqn:Hx.
  - destruct (separate_lookup _ _ _ _ nn x Hs Hx) as (b & Hb & Hd & _).
    destruct (podAt_deref h x b Hd) as (e & He & Hie). rewrite He; cbn [mbind option_bind].
    rewrite Hb in *. eexists. split; [done|]. split; simpl; [done|by rewrite Hie, Hips|done].
  - rewrite (proj1 (separate_absent _ _ _ _ nn Hs) Hx). by eexists.
Qed.

(** Reads keep the index, and what they return becomes known. *)
Definition reads_as (h : heap) (pi : HPodIndex) known (v : PodIndex) (r : option (heap * list loc)) (vs : list PodInfo) : Prop :=
  ∃ h' ls rs, r = Some (h', ls) ∧ mapM (derefPod h') ls = Some rs ∧ rs ≡ₚ vs ∧
    pod_stands (mkPodMemory h' pi (known ∪ reach (A:=PodInfo) h' ls)) v.

Lemma stands_Get h pi known v nn :
  pod_stands (mkPodMemory h pi known) v →
  reads_as h pi known v (hGet h pi nn) (option_list (PodIndex.Get v nn)).
Proof.
  intros [Hs Hips Hwf]; simpl in *. rewrite (Get_wf v nn Hwf). unfold hGet.
  destruct (hpods pi !! nn) as [x|] eqn:Hx.
  - destruct (separate_lookup _ _ _ _ nn x Hs Hx) as (b & Hb & _).
    destruct (separate_get _ _ _ _ nn x b Hs Hx Hb) as (h' & l' & Hcopy & _ & Hd & _ & Hs').
    simpl in Hcopy. rewrite Hcopy, Hb; cbn [mbind option_bind]. exists h', [l'], [b].
    split_and!; [done|by apply mapM_Some; repeat constructor|done|].
    split; simpl; [|done..]. by rewrite reach_singleton.
  - rewrite (proj1 (separate_absent _ _ _ _ nn Hs) Hx). exists h, [], []. split_and!; [done..|].
    split; simpl; [|done..]. by rewrite reach_nil, (right_id_L ∅ (∪)).
Qed.

Lemma stands_GetByIP h pi known v ip :
  pod_stands (mkPodMemory h pi known) v →
  reads_as h pi known v (hGetByIP h pi ip) (option_list (GetByIP v ip)).
Proof.
  intros Hst. pose proof (pst_ips _ _ Hst) as Hips; simpl in Hips. unfold hGetByIP, GetByIP. rewrite Hips.
  destruct (ipToPod v !! ip) as [nn|]; [exact (stands_Get h pi known v nn Hst)|].
  exists h, [], []. split_and!; [done..|]. by rewrite reach_nil, (right_id_L ∅ (∪)).
Qed.

Lemma stands_loop test (P : PodInfo → Prop) `{!∀ a, Decision (P a)} h pi known v :
  pod_stands (mkPodMemory h pi known) v →
  (∀ h l a, derefPod h l = Some a → test h l = bool_decide (P a)) →
  reads_as h pi known v (copyWhere (A:=PodInfo) test h (range (hpods pi)).*2) (filter P (map_to_list (pods v)).*2).
Proof.
  intros [Hs Hips Hwf] Htest; simpl in *.
  destruct (copyWhere_spec (A:=PodInfo) test P h known _ _ (range (hpods pi)) Hs) as (h' & ls & Hr & _ & Hm & Hs').
  - intros nn l. rewrite range_perm. apply elem_of_map_to_list.
  - exact Htest.
  - exists h', ls, (filter P (values (pods v) (range (hpods pi)))). split_and!; [done..| |done].
    by rewrite (values_index h known _ _ Hs).
Qed.

(** The copies the index of values returns are the stored values. *)
Lemma Matching_wf v sel :
  wf v → GetPodsMatchingSelector v sel ≡ₚ filter (λ p, Selects sel (pod_Labels p)) (map_to_list (pods v)).*2.
Proof.
  intros Hwf. rewrite GetPodsMatchingSelector_fmap, range_perm.
  erewrite Forall_fmap_ext_1; [by rewrite list_fmap_id|]. apply Forall_forall.
  intros p [_ ([nn p'] & -> & Hp%elem_of_map_to_list)%list_elem_of_fmap]%list_elem_of_filter.
  apply podCopy_id. by eapply (wf_labels v Hwf).
Qed.

Lemma stands_GetAll h pi known v :
  pod_stands (mkPodMemory h pi known) v → reads_as h pi known v (hGetAll h pi) (PodIndex.GetAll v).
Proof.
  intros Hst. destruct (stands_loop (λ _ _, true) (λ _, True) h pi known v Hst) as (h' & ls & rs & ? & ? & Hp & ?);
    [done|]. exists h', ls, rs. split_and!; try done.
  rewrite Hp, (GetAll_wf v (pst_wf _ _ Hst)). by rewrite filter_all.
Qed.

Lemma stands_Matching h pi known v sel :
  pod_stands (mkPodMemory h pi known) v →
  reads_as h pi known v (hMatching h pi sel) (GetPodsMatchingSelector v sel).
Proof.
  intros Hst. unfold hMatching.
  edestruct (stands_loop (λ h l, match derefPod h l with
      | Some info => LabelsContainAll (pod_Labels info) sel | None => false end)
    (λ p, Selects sel (pod_Labels p)) h pi known v Hst) as (h' & ls & rs & ? & ? & Hp & ?).
  - intros h1 l a Ha. rewrite Ha. apply LabelsContainAll_decide.
  - exists h', ls, rs. split_and!; try done. by rewrite Hp, (Matching_wf v sel (pst_wf _ _ Hst)).
Qed.

(** Every call runs, follows the index of values, and returns what it returns. *)
Lemma stands_call h pi known v c cv :
  pod_stands (mkPodMemory h pi known) v → PodCall_map (derefPod h) c = Some cv →
  ∃ h' pi' ls rs, podExec h pi c = Some (h', pi', ls) ∧ mapM (derefPod h') ls = Some rs ∧
    rs ≡ₚ (podCall v cv).2 ∧ pod_stands (mkPodMemory h' pi' (known ∪ reach (A:=PodInfo) h' ls)) (podCall v cv).1.
Proof.
  intros Hst Hc.
  assert (∀ r vs, reads_as h pi known v r vs → ∃ h' pi' ls rs,
    ('(h, ls) ← r; Some (h, pi, ls)) = Some (h', pi', ls) ∧ mapM (derefPod h') ls = Some rs ∧
    rs ≡ₚ vs ∧ pod_stands (mkPodMemory h' pi' (known ∪ reach (A:=PodInfo) h' ls)) v) as Hread.
  { intros r vs (h' & ls & rs & -> & ? & ? & ?). by exists h', pi, ls, rs. }
  assert (∀ h', known ∪ reach (A:=PodInfo) h' [] = known) as Hnil
    by (intros h'; apply (right_id_L ∅ (∪))).
  destruct c as [nn l|nn|nn|ip| |sel]; simpl in Hc.
  - apply fmap_Some in Hc as (a & Ha & ->).
    destruct (stands_Upsert h pi known v nn l a Hst Ha) as (h' & pi' & Hu & Hst').
    exists h', pi', [], []. simpl. rewrite Hu, Hnil. by split_and!.
  - simplify_eq. destruct (stands_Delete h pi known v nn Hst) as (pi' & Hd & Hst').
    exists h, pi', [], []. simpl. rewrite Hd, Hnil. by split_and!.
  - simplify_eq. by apply Hread, stands_Get.
  - simplify_eq. by apply Hread, stands_GetByIP.
  - simplify_eq. by apply Hread, stands_GetAll.
  - simplify_eq. by apply Hread, stands_Matching.
Qed.

Lemma stands_pod_step st e st' v :
  pod_mstep st e st' → pod_stands st v →
  pod_stands st' (pod_run v [e]) ∧ ∀ c rs, e = PodCalled c rs → rs ≡ₚ (podCall v c).2.
Proof.
  intros Hstep Hst. destruct Hstep as [h pi known c cv h' pi' ls rs Hc Hx Hrs|h pi known h' Ht].
  - destruct (stands_call h pi known v c cv Hst Hc) as (h1 & pi1 & ls1 & rs1 & Hx1 & Hrs1 & Hp & Hst').
    simplify_eq. split; [done|]. by intros ? ? [= <- <-].
  - split; [|done]. destruct Hst as [Hs Hips Hwf]. split; simpl; [by apply separate_tampered|done..].
Qed.

Lemma stands_pod_steps st es st' v :
  pod_msteps st es st' → pod_stands st v →
  pod_stands st' (pod_run v es) ∧
  ∀ es1 c rs es2, es = es1 ++ PodCalled c rs :: es2 → rs ≡ₚ (podCall (pod_run v es1) c).2.
Proof.
  intros Hsteps. revert v. induction Hsteps as [st|st e st' es st'' Hstep _ IH]; intros v Hst.
  { split; [done|]. by intros []. }
  destruct (stands_pod_step _ _ _ _ Hstep Hst) as [Hst' Hret]. destruct (IH _ Hst') as [Hst'' Hrets].
  split; [done|]. intros [|e1 es1] c rs es2 Heq; simplify_list_eq; [by apply Hret|]. by eapply Hrets.
Qed.

Lemma stands_pod_start h : pod_stands (pod_mstart h) NewPodIndex.
Proof. split; [apply separate_empty|done|apply wf_NewPodIndex]. Qed.
End Pods.

(** ** The policy index in memory *)
Inductive PolicyCall (X : Type) :=
  | PolCallUpsert (policy : X)
  | PolCallDelete (nn : NamespacedName)
  | PolCallGet (nn : NamespacedName)
  | PolCallGetAll.
Arguments PolCallUpsert {X} _.
Arguments PolCallDelete {X} _.
Arguments PolCallGet {X} _.
Arguments PolCallGetAll {X}.

Definition PolicyCall_map {X Y} (f : X → option Y) (c : PolicyCall X) : option (PolicyCall Y) :=
  match c with
  | PolCallUpsert x => PolCallUpsert <$> f x
  | PolCallDelete nn => Some (PolCallDelete nn)
  | PolCallGet nn => Some (PolCallGet nn)
  | PolCallGetAll => Some PolCallGetAll
  end.

(** What a call returns: a selector, or policies. *)
Inductive PolicyReturn (X S : Type) :=
  | RetSelector (selector : S)
  | RetPolicies (policies : list X).
Arguments RetSelector {X S} _.
Arguments RetPolicies {X S} _.

Section Policies.
Context `{RO : RangeOrder} `{AM : ApiMachinery}.

Abbreviation HPolicyIndex := (gmap NamespacedName loc).

Definition policyAt (h : heap) (l : loc) : option PolicyObj :=
  match h !! l with Some (OPolicy p) => Some p | _ => None end.

(** The map behind [existing.Spec.TargetSelector], nil when there is no entry. *)
Definition oldSelector (h : heap) (pi : HPolicyIndex) (nn : NamespacedName) : option (option loc) :=
  match pi !! nn with
  | Some existing => e ← policyAt h existing; Some (qo_TargetSelector e)
  | None => Some None
  end.

Definition hpUpsert (h : heap) (pi : HPolicyIndex) (policy : loc) : option (heap * HPolicyIndex * option loc) :=
  p ← policyAt h policy;
  let namespacedName := mkNN (om_Namespace (qo_Meta p)) (om_Name (qo_Meta p)) in
  old ← oldSelector h pi namespacedName;
  '(h, c) ← copyPolicy h policy;
  Some (h, <[namespacedName := c]> pi, old).

Definition hpDelete (h : heap) (pi : HPolicyIndex) (nn : NamespacedName) : option (HPolicyIndex * option loc) :=
  selector ← oldSelector h pi nn;
  Some (delete nn pi, selector).

Definition hpGet (h : heap) (pi : HPolicyIndex) (nn : NamespacedName) : option (heap * list loc) :=
  match pi !! nn with
  | Some policy => '(h, l) ← copyPolicy h policy; Some (h, [l])
  | None => Some (h, [])
  end.

Definition hpGetAll (h : heap) (pi : HPolicyIndex) : option (heap * list loc) :=
  copyWhere (A:=DnsPolicy) (λ _ _, true) h (range pi).*2.

Definition policyExec (h : heap) (pi : HPolicyIndex) (c : PolicyCall loc)
    : option (heap * HPolicyIndex * PolicyReturn loc (option loc)) :=
  match c with
  | PolCallUpsert policy => '(h, pi, old) ← hpUpsert h pi policy; Some (h, pi, RetSelector old)
  | PolCallDelete nn => '(pi, selector) ← hpDelete h pi nn; Some (h, pi, RetSelector selector)
  | PolCallGet nn => '(h, ls) ← hpGet h pi nn; Some (h, pi, RetPolicies ls)
  | PolCallGetAll => '(h, ls) ← hpGetAll h pi; Some (h, pi, RetPolicies ls)
  end.

(** The same call on the index of values. *)
Definition policyCall (pi : PolicyIndex) (c : PolicyCall DnsPolicy) : PolicyIndex * PolicyReturn DnsPolicy GoMap :=
  match c with
  | PolCallUpsert policy => let '(pi, old) := PolicyIndex.Upsert pi policy in (pi, RetSelector old)
  | PolCallDelete nn => let '(pi, selector) := PolicyIndex.Delete pi nn in (pi, RetSelector selector)
  | PolCallGet nn => (pi, RetPolicies (option_list (PolicyIndex.Get pi nn)))
  | PolCallGetAll => (pi, RetPolicies (PolicyIndex.GetAll pi))
  end.

(** The value of what is returned, and the memory behind it. *)
Definition retValue (h : heap) (r : PolicyReturn loc (option loc)) : option (PolicyReturn DnsPolicy GoMap) :=
  match r with
  | RetSelector p => RetSelector <$> (load h p ≫= as_map)
  | RetPolicies ls => RetPolicies <$> mapM (derefPolicy h) ls
  end.
Definition retReach (h : heap) (r : PolicyReturn loc (option loc)) : gset loc :=
  match r with RetSelector p => ptr_locs p | RetPolicies ls => reach (A:=DnsPolicy) h ls end.

(** The same up to the order in which Go visits its maps. *)
Definition same_return (r1 r2 : PolicyReturn DnsPolicy GoMap) : Prop :=
  match r1, r2 with
  | RetSelector s1, RetSelector s2 => s1 = s2
  | RetPolicies l1, RetPolicies l2 => l1 ≡ₚ l2
  | _, _ => False
  end.

(** *** The index among its callers *)
Record PolicyMemory := mkPolicyMemory { qm_heap : heap; qm_index : HPolicyIndex; qm_known : gset loc }.

Inductive PolicyEvent :=
  | PolicyCalled (c : PolicyCall DnsPolicy) (r : PolicyReturn DnsPolicy GoMap)
  | PolicyOutside.

Inductive policy_mstep : PolicyMemory → PolicyEvent → PolicyMemory → Prop :=
  | policy_called h pi known c cv h' pi' r rv :
      PolicyCall_map (derefPolicy h) c = Some cv → policyExec h pi c = Some (h', pi', r) →
      retValue h' r = Some rv →
      policy_mstep (mkPolicyMemory h pi known) (PolicyCalled cv rv)
        (mkPolicyMemory h' pi' (known ∪ retReach h' r))
  | policy_outside h pi known h' :
      tampers h known h' →
      policy_mstep (mkPolicyMemory h pi known) PolicyOutside (mkPolicyMemory h' pi (known_after h known h')).

Inductive policy_msteps : PolicyMemory → list PolicyEvent → PolicyMemory → Prop :=
  | policy_msteps_nil st : policy_msteps st [] st
  | policy_msteps_cons st e st' es st'' :
      policy_mstep st e st' → policy_msteps st' es st'' → policy_msteps st (e :: es) st''.

Definition policy_mstart (h : heap) : PolicyMemory := mkPolicyMemory h ∅ (dom h).

Definition policy_run (pi : PolicyIndex) (es : list PolicyEvent) : PolicyIndex :=
  foldl (λ pi e, match e with PolicyCalled c _ => (policyCall pi c).1 | PolicyOutside => pi end) pi es.

Definition policy_stands (st : PolicyMemory) (pi : PolicyIndex) : Prop :=
  separate (qm_heap st) (qm_known st) (qm_index st) (policies pi).

(** The selector of an entry, by pointer and by value. *)
Lemma oldSelector_spec h pi known v nn :
  separate h known pi v →
  ∃ p, oldSelector h pi nn = Some p ∧ (load h p ≫= as_map) = Some (v !! nn ≫= policy_selector) ∧
    separate h (known ∪ ptr_locs p) (delete nn pi) (delete nn v).
Proof.
  intros Hs. unfold oldSelector. destruct (pi !! nn) as [x|] eqn:Hx.
  - destruct (separate_lookup _ _ _ _ nn x Hs Hx) as (b & Hb & Hd & _).
    simpl in Hd. apply derefPolicy_Some in Hd as (q & Hq & (Ht & _) & _).
    unfold policyAt. rewrite Hq, Hb; cbn [mbind option_bind]. exists (qo_TargetSelector q).
    split_and!; [done|exact Ht|]. apply separate_remove; [done| |congruence].
    intros l [= <-]%(eq_trans (eq_sym Hx)). simpl. unfold policyFootprint, policyPtrs. rewrite Hq. set_solver.
  - rewrite (proj1 (separate_absent _ _ _ _ nn Hs) Hx). exists None. split_and!; [done..|].
    apply separate_remove; [done|set_solver|done].
Qed.

Lemma stands_policy_Upsert h pi known v l a :
  separate h known pi (policies v) → derefPolicy h l = Some a →
  ∃ h' pi' p, hpUpsert h pi l = Some (h', pi', p) ∧
    (load h' p ≫= as_map) = Some (PolicyIndex.Upsert v a).2 ∧
    separate h' (known ∪ ptr_locs p) pi' (policies (PolicyIndex.Upsert v a).1).
Proof.
  intros Hs Ha. destruct (proj1 (derefPolicy_Some h l a) Ha) as (q & Hq & _ & Hm & _).
  unfold hpUpsert, policyAt. rewrite Hq; cbn [mbind option_bind]. rewrite Hm. fold (policy_key a).
  destruct (oldSelector_spec h pi known (policies v) (policy_key a) Hs) as (p & Hp & Hold & Hs1).
  rewrite Hp; cbn [mbind option_bind].
  destruct (separate_put _ _ _ _ (policy_key a) l a Hs1 Ha (lookup_delete_eq _ _)) as (h' & l' & Hcopy & Hsub & Hs').
  simpl in Hcopy. rewrite Hcopy; cbn [mbind option_bind]. rewrite !insert_delete_eq in Hs'.
  eexists _, _, p. split_and!; [done| |].
  - rewrite Upsert_old. by eapply load_as_mono.
  - by rewrite policies_Upsert.
Qed.

Lemma stands_policy_Get h pi known v nn :
  separate h known pi (policies v) →
  ∃ h' ls, hpGet h pi nn = Some (h', ls) ∧ mapM (derefPolicy h') ls = Some (option_list (PolicyIndex.Get v nn)) ∧
    separate h' (known ∪ reach (A:=DnsPolicy) h' ls) pi (policies v).
Proof.
  intros Hs. rewrite policy_Get_lookup. unfold hpGet. destruct (pi !! nn) as [x|] eqn:Hx.
  - destruct (separate_lookup _ _ _ _ nn x Hs Hx) as (b & Hb & _).
    destruct (separate_get _ _ _ _ nn x b Hs Hx Hb) as (h' & l' & Hcopy & _ & Hd & _ & Hs').
    simpl in Hcopy. rewrite Hcopy, Hb; cbn [mbind option_bind]. exists h', [l'].
    split_and!; [done|by apply mapM_Some; repeat constructor|]. by rewrite reach_singleton.
  - rewrite (proj1 (separate_absent _ _ _ _ nn Hs) Hx). exists h, []. split_and!; [done..|].
    by rewrite reach_nil, (right_id_L ∅ (∪)).
Qed.

(** Every call runs, follows the index of values, and returns what it returns. *)
Lemma stands_policy_call h pi known v c cv :
  separate h known pi (policies v) → PolicyCall_map (derefPolicy h) c = Some cv →
  ∃ h' pi' r rv, policyExec h pi c = Some (h', pi', r) ∧ retValue h' r = Some rv ∧
    same_return rv (policyCall v cv).2 ∧
    separate h' (known ∪ retReach h' r) pi' (policies (policyCall v cv).1).
Proof.
  intros Hs Hc. destruct c as [l|nn|nn|]; simpl in Hc.
  - apply fmap_Some in Hc as (a & Ha & ->).
    destruct (stands_policy_Upsert h pi known v l a Hs Ha) as (h' & pi' & p & Hu & Hold & Hs').
    cbn [policyExec policyCall]. rewrite Hu. destruct (PolicyIndex.Upsert v a) as [v' old]; cbn [fst snd mbind option_bind] in *.
    eexists _, _, _, _. split_and!; [done|cbn [retValue]; by rewrite Hold|done|done].
  - simplify_eq. destruct (oldSelector_spec h pi known (policies v) nn Hs) as (p & Hp & Hold & Hs1).
    cbn [policyExec policyCall]. unfold hpDelete. rewrite Hp; cbn [mbind option_bind].
    pose proof (policies_Delete v nn) as Hpol. rewrite <- Delete_old in Hold.
    destruct (PolicyIndex.Delete v nn) as [v' old]; cbn [fst snd] in *.
    eexists _, _, _, _. split_and!; [done|cbn [retValue]; by rewrite Hold|done|by rewrite Hpol].
  - simplify_eq. destruct (stands_policy_Get h pi known v nn Hs) as (h' & ls & Hg & Hm & Hs').
    cbn [policyExec policyCall]. rewrite Hg; cbn [mbind option_bind]. eexists _, _, _, _.
    split_and!; [done|cbn [retValue]; by rewrite Hm|by cbn|done].
  - simplify_eq. cbn [policyExec policyCall]. unfold hpGetAll.
    destruct (copyWhere_spec (A:=DnsPolicy) (λ _ _, true) (λ _, True) h known _ _ (range pi) Hs) as (h' & ls & Hr & _ & Hm & Hs');
      [intros nn l; rewrite range_perm; apply elem_of_map_to_list|done|].
    rewrite Hr; cbn [mbind option_bind]. eexists _, _, _, _. split_and!; [done|cbn [retValue]; exact (f_equal (fmap RetPolicies) Hm)| |done].
    simpl. by rewrite filter_all, (values_index h known _ _ Hs), policy_GetAll_range, range_perm.
Qed.

Lemma stands_policy_steps st es st' v :
  policy_msteps st es st' → policy_stands st v →
  policy_stands st' (policy_run v es) ∧
  ∀ es1 c r es2, es = es1 ++ PolicyCalled c r :: es2 → same_return r (policyCall (policy_run v es1) c).2.
Proof.
  intros Hsteps. revert v. induction Hsteps as [st|st e st' es st'' Hstep _ IH]; intros v Hst.
  { split; [done|]. by intros []. }
  assert (policy_stands st' (policy_run v [e]) ∧
    ∀ c r, e = PolicyCalled c r → same_return r (policyCall v c).2) as [Hst' Hret].
  { destruct Hstep as [h pi known c cv h' pi' r rv Hc Hx Hrv|h pi known h' Ht].
    - destruct (stands_policy_call h pi known v c cv Hst Hc) as (h1 & pi1 & r1 & rv1 & Hx1 & Hrv1 & Hp & Hst').
      simplify_eq. split; [done|]. by intros ? ? [= <- <-].
    - split; [|done]. by apply separate_tampered. }
  destruct (IH _ Hst') as [Hst'' Hrets].
  split; [done|]. intros [|e1 es1] c r es2 Heq; simplify_list_eq; [by apply Hret|]. by eapply Hrets.
Qed.

Lemma stands_policy_start h : policy_stands (policy_mstart h) NewPolicyIndex.
Proof. apply separate_empty. Qed.
End Policies.

(** ** Properties *)
Section Properties.
Context `{RO : RangeOrder} `{AM : ApiMachinery}.

(** C17: callers cannot reach into the pod index. Between any calls of [Upsert],
    [Delete], [Get], [GetByIP], [GetAll] and [GetPodsMatchingSelector], callers write what
    they like to all memory they can reach: the [PodInfo] they passed and its label map,
    which is the informer cache's, whatever they allocated, and every pod an earlier call
    returned, with its label map. Still every call runs, and returns what the same calls
    return on the index of values, up to the order Go visits its map in. *)
Theorem pod_index_isolated h es st :
  pod_msteps (pod_mstart h) es st →
  (∀ es1 c rs es2, es = es1 ++ PodCalled c rs :: es2 → rs ≡ₚ (podCall (pod_run NewPodIndex es1) c).2) ∧
  (∀ c cv, PodCall_map (derefPod (pm_heap st)) c = Some cv →
    ∃ rs st', pod_mstep st (PodCalled cv rs) st').
Proof.
  intros Hsteps. destruct (stands_pod_steps _ _ _ _ Hsteps (stands_pod_start h)) as [Hst Hret].
  split; [exact Hret|]. intros c cv Hc. destruct st as [h1 pi known]; simpl in Hc.
  destruct (stands_call h1 pi known _ c cv Hst Hc) as (h' & pi' & ls & rs & Hx & Hrs & _).
  eexists rs, _. by eapply pod_called.
Qed.

(** C18: callers cannot reach into the policy index: the same for [Upsert], [Delete],
    [Get] and [GetAll], whose objects refer to a selector, a block list, a subject,
    secrets and conditions. Callers may also write the selector that [Upsert] and
    [Delete] return, which is the map of the object the index drops and not a copy. *)
Theorem policy_index_isolated h es st :
  policy_msteps (policy_mstart h) es st →
  (∀ es1 c r es2, es = es1 ++ PolicyCalled c r :: es2 →
    same_return r (policyCall (policy_run NewPolicyIndex es1) c).2) ∧
  (∀ c cv, PolicyCall_map (derefPolicy (qm_heap st)) c = Some cv →
    ∃ r st', policy_mstep st (PolicyCalled cv r) st').
Proof.
  intros Hsteps. destruct (stands_policy_steps _ _ _ _ Hsteps (stands_policy_start h)) as [Hst Hret].
  split; [exact Hret|]. intros c cv Hc. destruct st as [h1 pi known]; simpl in Hc.
  destruct (stands_policy_call h1 pi known _ c cv Hst Hc) as (h' & pi' & r & rv & Hx & Hrv & _).
  eexists rv, _. by eapply policy_called.
Qed.
End Properties.

(** ** Callers that keep writing *)
#[local] Existing Instance order_fwd.
#[local] Existing Instance simple_machinery.

Lemma tampers_write h known l o : l ∈ known → tampers h known (<[l := o]> h).
Proof.
  intros Hl. split; [rewrite dom_insert_L; set_solver|]. intros x _ Hx. apply lookup_insert_ne. by intros ->.
Qed.

Definition pod_after (st : PodMemory) (c : PodCall loc) : PodMemory :=
  match podExec (pm_heap st) (pm_index st) c with
  | Some (h, pi, ls) => mkPodMemory h pi (pm_known st ∪ reach (A:=PodInfo) h ls)
  | None => st
  end.
Definition pod_written (st : PodMemory) (l : loc) (o : obj) : PodMemory :=
  let h := <[l := o]> (pm_heap st) in mkPodMemory h (pm_index st) (known_after (pm_heap st) (pm_known st) h).

Definition nn_a : NamespacedName := mkNN "default" "a".
Definition pod_heap : heap :=
  {[1%positive := OPod (mkPodObj "10.0.0.1" (Some 2%positive) "default" "a");
    2%positive := OCell (CMap {["app" := "web"]})]}.
Definition pod_value : PodInfo := mkPodInfo "10.0.0.1" (Some {["app" := "web"]}) "default" "a".
Definition other_labels : obj := OCell (CMap {["app" := "other"]}).

(** The pod is put; the caller changes the label map it passed; another reads all pods
    and changes the labels of the copy it got; the pod is read again. *)
Definition pm1 : PodMemory := pod_after (pod_mstart pod_heap) (CallUpsert nn_a 1%positive).
Definition pm2 : PodMemory := pod_written pm1 2%positive other_labels.
Definition pm3 : PodMemory := pod_after pm2 CallGetAll.
Definition pm4 : PodMemory := pod_written pm3 5%positive other_labels.
Definition pm5 : PodMemory := pod_after pm4 (CallGet nn_a).

Definition pod_history : list PodEvent :=
  [PodCalled (CallUpsert nn_a pod_value) []; PodOutside; PodCalled CallGetAll [pod_value]; PodOutside].

Lemma pod_history_runs :
  pod_msteps (pod_mstart pod_heap) (pod_history ++ [PodCalled (CallGet nn_a) [pod_value]]) pm5.
Proof.
  eapply (pod_msteps_cons _ _ pm1).
  { eapply (pod_called _ _ _ (CallUpsert nn_a 1%positive)); vm_compute; reflexivity. }
  eapply (pod_msteps_cons _ _ pm2).
  { apply (pod_outside (pm_heap pm1) (pm_index pm1)), tampers_write. decide_now. }
  eapply (pod_msteps_cons _ _ pm3).
  { eapply (pod_called _ _ _ CallGetAll); vm_compute; reflexivity. }
  eapply (pod_msteps_cons _ _ pm4).
  { apply (pod_outside (pm_heap pm3) (pm_index pm3)), tampers_write. decide_now. }
  eapply (pod_msteps_cons _ _ pm5), pod_msteps_nil.
  eapply (pod_called _ _ _ (CallGet nn_a)); vm_compute; reflexivity.
Qed.

Lemma pod_index_isolated_witness :
  [pod_value] ≡ₚ option_list (PodIndex.Get (pod_run NewPodIndex pod_history) nn_a).
Proof.
  exact (proj1 (pod_index_isolated pod_heap _ _ pod_history_runs) pod_history (CallGet nn_a) [pod_value] [] eq_refl).
Defined.

(** A policy is put and replaced; the caller then empties the selector it was returned,
    and sorts the block list it had passed, as the specification hash does. *)
Definition policy_after (st : PolicyMemory) (c : PolicyCall loc) : PolicyMemory :=
  match policyExec (qm_heap st) (qm_index st) c with
  | Some (h, pi, r) => mkPolicyMemory h pi (qm_known st ∪ retReach h r)
  | None => st
  end.
Definition policy_written (st : PolicyMemory) (l : loc) (o : obj) : PolicyMemory :=
  let h := <[l := o]> (qm_heap st) in mkPolicyMemory h (qm_index st) (known_after (qm_heap st) (qm_known st) h).

Definition policy_heap : heap :=
  {[1%positive := OPolicy (mkPolicyObj (mkObjectMeta "default" "a" 1 None None) (Some 2%positive)
      (Some 3%positive) None false false None "" "" 0 None);
    2%positive := OCell (CMap {["app" := "web"]});
    3%positive := OCell (CStrings ["track.io"; "ads.com"])]}.
Definition policy_value : DnsPolicy :=
  mkPolicy (mkObjectMeta "default" "a" 1 None None)
    (mkSpec (Some {["app" := "web"]}) (Some ["track.io"; "ads.com"]) None false false None)
    (mkStatus "" "" 0 None).
Definition web_selector : GoMap := Some {["app" := "web"]}.

Definition qm1 : PolicyMemory := policy_after (policy_mstart policy_heap) (PolCallUpsert 1%positive).
Definition qm2 : PolicyMemory := policy_after qm1 (PolCallUpsert 1%positive).
Definition qm3 : PolicyMemory := policy_written qm2 4%positive (OCell (CMap ∅)).
Definition qm4 : PolicyMemory := policy_written qm3 3%positive (OCell (CStrings ["ads.com"; "track.io"])).
Definition qm5 : PolicyMemory := policy_after qm4 PolCallGetAll.

Definition policy_history : list PolicyEvent :=
  [PolicyCalled (PolCallUpsert policy_value) (RetSelector None);
   PolicyCalled (PolCallUpsert policy_value) (RetSelector web_selector); PolicyOutside; PolicyOutside].

Lemma policy_history_runs :
  policy_msteps (policy_mstart policy_heap)
    (policy_history ++ [PolicyCalled PolCallGetAll (RetPolicies [policy_value])]) qm5.
Proof.
  eapply (policy_msteps_cons _ _ qm1).
  { eapply (policy_called _ _ _ (PolCallUpsert 1%positive)); vm_compute; reflexivity. }
  eapply (policy_msteps_cons _ _ qm2).
  { eapply (policy_called _ _ _ (PolCallUpsert 1%positive)); vm_compute; reflexivity. }
  eapply (policy_msteps_cons _ _ qm3).
  { apply (policy_outside (qm_heap qm2) (qm_index qm2)), tampers_write. decide_now. }
  eapply (policy_msteps_cons _ _ qm4).
  { apply (policy_outside (qm_heap qm3) (qm_index qm3)), tampers_write. decide_now. }
  eapply (policy_msteps_cons _ _ qm5), policy_msteps_nil.
  eapply (policy_called _ _ _ PolCallGetAll); vm_compute; reflexivity.
Qed.

Lemma policy_index_isolated_witness :
  [policy_value] ≡ₚ PolicyIndex.GetAll (policy_run NewPolicyIndex policy_history).
Proof.
  exact (proj1 (policy_index_isolated policy_heap _ _ policy_history_runs) policy_history PolCallGetAll
    (RetPolicies [policy_value]) [] eq_refl).
Defined.
