(* ===== verification/Strconv.v ===== *)
(** * Numbers on the command line (strconv)

    [strconv.ParseInt(s, 0, 64)] and [strconv.ParseBool], which package flag uses
    to set integer and boolean flags, and the decimal rendering of [%d]. The
    arithmetic of the loop is that of unsigned 64-bit integers, wrap-around and
    overflow tests included; it is compared with a reference that has no bound. *)

From Stdlib Require Import Ascii NArith ZifyN.
From S2P Require Import Prelude Json.

#[local] Open Scope Z_scope.

Inductive numError := ErrSyntax | ErrRange.

#[export] Instance numError_eq_dec : EqDecision numError.
Proof. solve_decision. Defined.

(** ** Unsigned 64-bit integers *)
Definition maxUint64 : Z := 2 ^ 64 - 1.
Definition uint64 (z : Z) : Z := z mod 2 ^ 64.

(** ** Digits *)

(** [c | ('x' - 'X')] *)
Definition lower (c : N) : N := N.lor c 32.

Definition inRange (lo hi c : N) : bool := (lo <=? c)%N && (c <=? hi)%N.

(** The value of a digit in any base up to 36. *)
Definition digit (c : N) : option Z :=
  if inRange 48 57 c then Some (Z.of_N c - 48)
  else if inRange 97 122 (lower c) then Some (Z.of_N (lower c) - 97 + 10)
  else None.

(** ** The loop of ParseUint with base prefixes allowed *)
Fixpoint parseLoop (base n : Z) (underscores : bool) (s : bytes) : (Z * bool) + numError :=
  match s with
  | [] => inl (n, underscores)
  | c :: s =>
      if (c =? 95)%N then parseLoop base n true s
      else
        match digit c with
        | None => inr ErrSyntax
        | Some d =>
            if base <=? d then inr ErrSyntax
            else
              let cutoff := maxUint64 / base + 1 in
              if cutoff <=? n then inr ErrRange
              else
                let n := uint64 (n * base) in
                let n1 := uint64 (n + d) in
                if (n1 <? n) || (maxUint64 <? n1) then inr ErrRange
                else parseLoop base n1 underscores s
        end
  end.

(** [underscoreOK]: underscores separate digits, or a base prefix and a digit.
    The state is the last character seen: a digit, an underscore or another. *)
Inductive seen := SawNothing | SawDigit | SawUnderscore | SawOther.

Fixpoint underscoreLoop (hex : bool) (saw : seen) (s : bytes) : bool :=
  match s with
  | [] => match saw with SawUnderscore => false | _ => true end
  | c :: s =>
      if inRange 48 57 c || (hex && inRange 97 102 (lower c)) then underscoreLoop hex SawDigit s
      else if (c =? 95)%N then
        match saw with SawDigit => underscoreLoop hex SawUnderscore s | _ => false end
      else
        match saw with SawUnderscore => false | _ => underscoreLoop hex SawOther s end
  end.

Definition isPrefixLetter (c : N) : bool :=
  ((lower c =? 98) || (lower c =? 111) || (lower c =? 120))%N.

Definition underscoreOK (s : bytes) : bool :=
  let s := match s with c :: s' => if ((c =? 45) || (c =? 43))%N then s' else s | [] => s end in
  match s with
  | 48%N :: c :: s' =>
      if isPrefixLetter c then underscoreLoop (lower c =? 120)%N SawDigit s'
      else underscoreLoop false SawNothing s
  | _ => underscoreLoop false SawNothing s
  end.

(** The base a number is written in, and its digits. *)
Definition basePrefix (s : bytes) : Z * bytes :=
  match s with
  | 48%N :: s1 =>
      match s1 with
      | c :: _ :: _ =>
          if (lower c =? 98)%N then (2, tail s1)
          else if (lower c =? 111)%N then (8, tail s1)
          else if (lower c =? 120)%N then (16, tail s1)
          else (8, s1)
      | _ => (8, s1)
      end
  | _ => (10, s)
  end.

Definition ParseUint (s : bytes) : Z + numError :=
  match s with
  | [] => inr ErrSyntax
  | _ =>
      let '(base, digits) := basePrefix s in
      match parseLoop base 0 false digits with
      | inr e => inr e
      | inl (n, underscores) => if underscores && negb (underscoreOK s) then inr ErrSyntax else inl n
      end
  end.

Definition ParseInt (s : bytes) : Z + numError :=
  match s with
  | [] => inr ErrSyntax
  | c :: s' =>
      let neg := (c =? 45)%N in
      let digits := if ((c =? 43) || (c =? 45))%N then s' else s in
      let cutoff := 2 ^ 63 in
      match ParseUint digits with
      | inr ErrSyntax => inr ErrSyntax
      | inr ErrRange => inr ErrRange
      | inl un =>
          if negb neg && (cutoff <=? un) then inr ErrRange
          else if neg && (cutoff <? un) then inr ErrRange
          else inl (if neg then - un else un)
      end
  end.

(** [strconv.ParseBool] *)
Definition ParseBool (s : string) : option bool :=
  if bool_decide (s ∈ ["1"; "t"; "T"; "true"; "TRUE"; "True"]) then Some true
  else if bool_decide (s ∈ ["0"; "f"; "F"; "false"; "FALSE"; "False"]) then Some false
  else None.

(** [fmt.Sprintf("%d", n)] *)
Definition Sprintf_d (z : Z) : bytes :=
  if z <? 0 then 45%N :: Document.writeNum (Z.to_N (- z)) else Document.writeNum (Z.to_N z).

(** ** The reference: numbers without a bound *)
Fixpoint numeral (base n : Z) (s : bytes) : option Z :=
  match s with
  | [] => Some n
  | c :: s =>
      if (c =? 95)%N then numeral base n s
      else d ← digit c; if base <=? d then None else numeral base (n * base + d) s
  end.

(** Sign, base prefix, digits, and underscores in their places. *)
Definition integer (s : bytes) : option Z :=
  match s with
  | [] => None
  | c :: s' =>
      let digits := if ((c =? 43) || (c =? 45))%N then s' else s in
      match digits with
      | [] => None
      | _ =>
          let '(base, ds) := basePrefix digits in
          n ← numeral base 0 ds;
          if existsb (λ c, (c =? 95)%N) ds && negb (underscoreOK digits) then None
          else Some (if (c =? 45)%N then - n else n)
      end
  end.

(** ** Lemmas *)

Lemma digit_nonneg c d : digit c = Some d → 0 ≤ d.
Proof.
  unfold digit, inRange. intros Hd.
  destruct (48 <=? c)%N eqn:H1, (c <=? 57)%N eqn:H2; simpl in Hd; simplify_eq;
    try (apply N.leb_le in H1, H2; lia);
    destruct (97 <=? lower c)%N eqn:H3, (lower c <=? 122)%N eqn:H4; simpl in Hd; simplify_eq;
    apply N.leb_le in H3; lia.
Qed.

Lemma numeral_mono base n s v : 2 ≤ base → 0 ≤ n → numeral base n s = Some v → n ≤ v.
Proof.
  intros Hb. revert n. induction s as [|c s IH]; simpl; intros n Hn Hv; [by simplify_eq|].
  destruct (c =? 95)%N; [by apply IH|].
  destruct (digit c) as [d|] eqn:Hd; [|done]. simpl in Hv. apply digit_nonneg in Hd.
  destruct (base <=? d); [done|]. assert (n ≤ n * base) by nia. apply IH in Hv; lia.
Qed.

(** The overflow tests are exact: the loop succeeds precisely when the number fits,
    and then with its value. *)
Lemma parseLoop_numeral base n u s v w :
  2 ≤ base ≤ 36 → 0 ≤ n ≤ maxUint64 →
  parseLoop base n u s = inl (v, w) ↔
  numeral base n s = Some v ∧ v ≤ maxUint64 ∧ w = u || existsb (λ c, (c =? 95)%N) s.
Proof.
  intros Hb. revert n u. induction s as [|c s IH]; intros n u Hn; simpl.
  { rewrite orb_false_r. split; [intros [= <- <-]; split_and!; [done|lia|done]|]. intros (? & ? & ->). by simplify_eq. }
  destruct (c =? 95)%N eqn:Hc.
  { rewrite IH by done. simpl. by rewrite orb_true_r. }
  simpl. destruct (digit c) as [d|] eqn:Hd; [|naive_solver]. simpl.
  apply digit_nonneg in Hd as Hd0. destruct (Z.leb_spec base d) as [Hbd|Hbd]; [naive_solver|].
  assert (maxUint64 + 1 = 2 ^ 64) as Hmax by done.
  assert (n * base + d ≤ maxUint64 →
    (maxUint64 / base + 1 <=? n) = false ∧ uint64 (n * base) = n * base ∧
    uint64 (n * base + d) = n * base + d) as Hfits.
  { intros Hle. split_and!.
    - apply Z.leb_gt. pose proof (Z.div_le_lower_bound maxUint64 base n ltac:(lia)). lia.
    - apply Z.mod_small. lia.
    - apply Z.mod_small. nia. }
  destruct (Z.le_gt_cases (n * base + d) maxUint64) as [Hle|Hgt].
  - destruct (Hfits Hle) as (-> & -> & ->).
    rewrite (proj2 (Z.ltb_ge _ _)), (proj2 (Z.ltb_ge maxUint64 _)) by lia. simpl. apply IH. nia.
  - split.
    + destruct (Z.leb_spec (maxUint64 / base + 1) n) as [Hcut|Hcut]; [done|].
      assert (n * base ≤ maxUint64) as Hnb.
      { pose proof (Z.mul_div_le maxUint64 base ltac:(lia)). nia. }
      assert (uint64 (n * base) = n * base) as -> by (apply Z.mod_small; nia).
      assert (uint64 (n * base + d) = n * base + d - 2 ^ 64) as ->.
      { unfold uint64. symmetry. apply (Z.mod_unique_pos _ _ 1); lia. }
      by rewrite (proj2 (Z.ltb_lt _ _)) by lia.
    + intros (Hnum & Hv & _). apply numeral_mono in Hnum; nia.
Qed.

Lemma basePrefix_base s : 2 ≤ (basePrefix s).1 ≤ 36.
Proof. unfold basePrefix. repeat case_match; simpl; lia. Qed.

Lemma ParseUint_spec s v :
  ParseUint s = inl v ↔ s ≠ [] ∧ v ≤ maxUint64 ∧
    numeral (basePrefix s).1 0 (basePrefix s).2 = Some v ∧
    existsb (λ c, (c =? 95)%N) (basePrefix s).2 && negb (underscoreOK s) = false.
Proof.
  unfold ParseUint. pose proof (basePrefix_base s) as Hb. destruct s as [|c s]; [naive_solver|].
  destruct (basePrefix (c :: s)) as [base ds]; simpl in *.
  destruct (parseLoop base 0 false ds) as [[n w]|e] eqn:Hp.
  - apply parseLoop_numeral in Hp as (Hnum & Hle & ->); [|done|done]. simpl.
    destruct (existsb _ ds && negb _) eqn:Hu; naive_solver.
  - split; [done|]. intros (_ & Hle & Hnum & _).
    assert (parseLoop base 0 false ds = inl (v, existsb (λ c, (c =? 95)%N) ds)) as Hok
      by (by apply parseLoop_numeral).
    congruence.
Qed.

(** [ParseInt] succeeds precisely on the numerals whose value fits 64 bits. *)
Lemma ParseInt_spec s z : ParseInt s = inl z ↔ integer s = Some z ∧ - 2 ^ 63 ≤ z ≤ 2 ^ 63 - 1.
Proof.
  unfold ParseInt, integer. destruct s as [|c s]; [naive_solver|].
  set (digits := if ((c =? 43) || (c =? 45))%N then s else c :: s).
  pose proof (ParseUint_spec digits) as Hspec. pose proof (basePrefix_base digits) as Hb.
  assert (digits = [] → ParseUint digits = inr ErrSyntax) as Hnil by (by intros ->).
  assert (∀ un, numeral (basePrefix digits).1 0 (basePrefix digits).2 = Some un → 0 ≤ un) as Hpos
    by (intros un Hun; eapply numeral_mono; [|done|exact Hun]; lia).
  destruct digits as [|c1 ds1]; [rewrite Hnil by done; by split; [|intros [? _]]|].
  destruct (basePrefix (c1 :: ds1)) as [base ds]; simpl fst in *; simpl snd in *.
  set (U := existsb _ ds && _) in *.
  assert (maxUint64 = 2 ^ 64 - 1) as Hmax by done.
  destruct (numeral base 0 ds) as [un|] eqn:Hnum.
  2: { destruct (ParseUint (c1 :: ds1)) as [un|[]]; simpl; [|by split; [|intros [? _]]..].
    by destruct (proj1 (Hspec un) eq_refl) as (_ & _ & ? & _). }
  specialize (Hpos un eq_refl). cbn [mbind option_bind].
  destruct U eqn:HU.
  { destruct (ParseUint (c1 :: ds1)) as [un'|[]]; [|by split; [|intros [? _]]..].
    by destruct (proj1 (Hspec un') eq_refl) as (_ & _ & _ & ?). }
  destruct (Z.le_gt_cases un maxUint64) as [Hle|Hgt].
  - rewrite (proj2 (Hspec un)) by (split_and!; done).
    destruct (c =? 45)%N; simpl.
    + destruct (Z.ltb_spec (2 ^ 63) un); [|split; [intros [= <-]; split; [done|lia]|by intros [[= <-] _]]]. split; [done|]. intros [[= <-] ?]. lia.
    + destruct (Z.leb_spec (2 ^ 63) un); [|split; [intros [= <-]; split; [done|lia]|by intros [[= <-] _]]]. split; [done|]. intros [[= <-] ?]. lia.
  - destruct (ParseUint (c1 :: ds1)) as [un'|[]];
      [destruct (proj1 (Hspec un') eq_refl) as (_ & ? & [= <-] & _); lia|..];
      (split; [done|]; intros [[= <-] ?]; destruct (c =? 45)%N; lia).
Qed.

(** ** Printing and parsing back *)

Lemma numeral_app base n s t :
  numeral base n (s ++ t) = numeral base n s ≫= λ m, numeral base m t.
Proof.
  revert n. induction s as [|c s IH]; intros n; simpl; [done|].
  destruct (c =? 95)%N; [done|]. destruct (digit c) as [d|]; simpl; [|done].
  by destruct (base <=? d).
Qed.

Lemma digit_decimal d : (d < 10)%N → digit (48 + d) = Some (Z.of_N d) ∧ (48 + d =? 95)%N = false.
Proof.
  intros Hd. unfold digit, inRange. rewrite !(proj2 (N.leb_le _ _)) by lia. simpl.
  split; [f_equal; lia|]. apply N.eqb_neq. lia.
Qed.

(** The digits of a number: the first is not zero unless the number is, there is no
    underscore among them, and their value is the number. *)
Lemma decimal_numeral fuel n acc :
  (n < 2 ^ N.of_nat fuel)%N →
  ∃ b ds, Document.decimal (S fuel) n acc = (b :: ds) ++ acc ∧
    (48 ≤ b ≤ 57)%N ∧ (b = 48%N → n = 0%N ∧ ds = []) ∧
    existsb (λ c, (c =? 95)%N) (b :: ds) = false ∧ numeral 10 0 (b :: ds) = Some (Z.of_N n).
Proof.
  revert n acc. induction fuel as [|fuel IH]; intros n acc Hn.
  all: pose proof (N.mod_lt n 10 ltac:(done)) as Hm; destruct (digit_decimal (n mod 10) Hm) as [Hd Hu].
  all: pose proof (N.div_mod' n 10) as Hdm; cbn [Document.decimal]; destruct (N.ltb_spec n 10) as [Hs|Hs].
  1,3: rewrite N.mod_small in * by done; exists (48 + n)%N, []; split_and!; [done|lia|lia|split;[lia|done]|..];
    cbn [existsb numeral]; rewrite Hu; [done|]; rewrite Hd; simpl; by rewrite (proj2 (Z.leb_gt _ _)) by lia.
  - change (2 ^ N.of_nat 0)%N with 1%N in Hn. lia.
  - destruct (IH (n / 10)%N ((48 + n mod 10)%N :: acc)) as (b & ds & Heq & Hb & H0 & Hus & Hnum).
    { rewrite Nat2N.inj_succ, N.pow_succ_r' in Hn. lia. }
    exists b, (ds ++ [(48 + n mod 10)%N]). split_and!; [|lia..| | |].
    + change (Document.decimal (S fuel) (n / 10) ((48 + n mod 10)%N :: acc) =
        (b :: (ds ++ [(48 + n mod 10)%N]) ++ acc)). rewrite Heq. simpl. by rewrite <- (assoc_L (++)).
    + intros ->. exfalso. destruct (H0 eq_refl) as [Hz _]. lia.
    + rewrite app_comm_cons, existsb_app, Hus. cbn [existsb orb]. by rewrite Hu.
    + rewrite app_comm_cons, numeral_app, Hnum. cbn [mbind option_bind numeral]. rewrite Hu, Hd.
      cbn [mbind option_bind]. rewrite (proj2 (Z.leb_gt _ _)) by lia. f_equal. lia.
Qed.

Lemma integer_writeNum n :
  ∃ b ds, Document.writeNum n = b :: ds ∧ integer (b :: ds) = Some (Z.of_N n) ∧
    integer (45%N :: b :: ds) = Some (- Z.of_N n).
Proof.
  destruct (decimal_numeral (N.to_nat (N.size n)) n []) as (b & ds & Heq & Hb & H0 & Hus & Hnum).
  { rewrite N2Nat.id. apply N.size_gt. }
  exists b, ds. split; [unfold Document.writeNum; by rewrite Heq, app_nil_r|].
  assert (basePrefix (b :: ds) = if (b =? 48)%N then (8, ds) else (10, b :: ds)) as Hpre.
  { destruct (N.eqb_spec b 48) as [->|Hne]; [by destruct (H0 eq_refl) as [_ ->]|].
    unfold basePrefix. repeat case_match; naive_solver. }
  unfold integer. rewrite (proj2 (N.eqb_neq b 43)), (proj2 (N.eqb_neq b 45)) by lia.
  simpl orb. cbv iota. change ((45 =? 43) || (45 =? 45))%N with true. change (45 =? 45)%N with true.
  cbv iota. rewrite Hpre. destruct (N.eqb_spec b 48) as [->|Hne].
  - destruct (H0 eq_refl) as [-> ->]. done.
  - by rewrite Hnum, Hus.
Qed.

(** Every 64-bit integer is read back from its decimal rendering. *)
Lemma ParseInt_Sprintf z : - 2 ^ 63 ≤ z ≤ 2 ^ 63 - 1 → ParseInt (Sprintf_d z) = inl z.
Proof.
  intros Hz. apply ParseInt_spec. split; [|done]. unfold Sprintf_d.
  destruct (Z.ltb_spec z 0).
  - destruct (integer_writeNum (Z.to_N (- z))) as (b & ds & -> & _ & ->). f_equal. lia.
  - destruct (integer_writeNum (Z.to_N z)) as (b & ds & -> & -> & _). f_equal. lia.
Qed.
