(* ===== verification/Flags.v ===== *)
(** * Command lines (package flag)

    Registration of flags and [flag.Parse] with its error handling, for variables
    of any type [S]. Both entry points declare their flags this way. *)

From Stdlib Require Import Ascii NArith.
From S2P Require Import Prelude Json Strconv.

(** ** Arguments *)

(** A name and, after the first equals sign, a value. *)
Fixpoint cut (s : string) : string * option string :=
  match s with
  | EmptyString => ("", None)
  | String c s =>
      if bool_decide (c = "="%char) then ("", Some s)
      else let '(name, value) := cut s in (String c name, value)
  end.

Inductive argument :=
  | NotFlag
  | Terminator
  | BadSyntax
  | FlagArg (name : string) (value : option string).

(** A name does not begin with a dash or an equals sign. *)
Definition flagName (name : string) : argument :=
  match name with
  | EmptyString => BadSyntax
  | String c s =>
      if bool_decide (c = "-"%char) || bool_decide (c = "="%char) then BadSyntax
      else let '(n, value) := cut s in FlagArg (String c n) value
  end.

Definition classify (s : string) : argument :=
  match s with
  | String c0 (String c1 s2 as s1) =>
      if bool_decide (c0 = "-"%char) then
        if bool_decide (c1 = "-"%char) then
          match s2 with EmptyString => Terminator | _ => flagName s2 end
        else flagName s1
      else NotFlag
  | _ => NotFlag
  end.

(** ** Flags and their variables *)

(** [Set] of a flag's value fails on a text it does not accept. *)
Record Flag (S : Type) := mkFlag { IsBoolFlag : bool; Set_ : string → S → option S }.
Arguments mkFlag {S}.
Arguments IsBoolFlag {S}.
Arguments Set_ {S}.

(** A flag set and the variables its flags write. *)
Record FlagSet (S : Type) := mkFlagSet { formal : gmap string (Flag S); vars : S }.
Arguments mkFlagSet {S}.
Arguments formal {S}.
Arguments vars {S}.

Inductive flagError :=
  | ErrHelp
  | BadFlagSyntax (arg : string)
  | NotDefined (name : string)
  | NeedsArgument (name : string)
  | InvalidValue (value name : string).

#[export] Instance flagError_eq_dec : EqDecision flagError.
Proof. solve_decision. Defined.

(** [os.Exit] of the error handling [ExitOnError] *)
Definition exitCode (e : flagError) : Z := match e with ErrHelp => 0 | _ => 2 end%Z.

Section Flags.
Context {S : Type}.
Implicit Types (fs : FlagSet S) (s : S).

(** Declaring a flag twice panics; otherwise the variable gets its default. *)
Definition Var (fs : FlagSet S) (name : string) (f : Flag S) (default : S → S) : option (FlagSet S) :=
  match formal fs !! name with
  | Some _ => None
  | None => Some (mkFlagSet (<[name:=f]> (formal fs)) (default (vars fs)))
  end.

Definition StringVar (put : string → S → S) (name value : string) fs : option (FlagSet S) :=
  Var fs name (mkFlag false (λ v s, Some (put v s))) (put value).

Definition BoolVar (put : bool → S → S) (name : string) (value : bool) fs : option (FlagSet S) :=
  Var fs name (mkFlag true (λ v s, (λ b, put b s) <$> ParseBool v)) (put value).

(** [int] has 64 bits. *)
Definition setInt (put : Z → S → S) (v : string) (s : S) : option S :=
  match ParseInt (bytes_of v) with inl z => Some (put z s) | inr _ => None end.

Definition IntVar (put : Z → S → S) (name : string) (value : Z) fs : option (FlagSet S) :=
  Var fs name (mkFlag false (setInt put)) (put value).

(** ** Parse *)

(** [parseOne] until there is no flag left: the variables and the arguments that remain. *)
Fixpoint parseArgs (fm : gmap string (Flag S)) (s : S) (args : list string) : (S * list string) + flagError :=
  match args with
  | [] => inl (s, [])
  | a :: rest =>
      match classify a with
      | NotFlag => inl (s, args)
      | Terminator => inl (s, rest)
      | BadSyntax => inr (BadFlagSyntax a)
      | FlagArg name value =>
          match fm !! name with
          | None =>
              if bool_decide (name ∈ ["help"; "h"]) then inr ErrHelp else inr (NotDefined name)
          | Some f =>
              if IsBoolFlag f then
                let v := default "true" value in
                match Set_ f v s with
                | Some s => parseArgs fm s rest
                | None => inr (InvalidValue v name)
                end
              else
                match value, rest with
                | Some v, _ =>
                    match Set_ f v s with
                    | Some s => parseArgs fm s rest
                    | None => inr (InvalidValue v name)
                    end
                | None, v :: rest =>
                    match Set_ f v s with
                    | Some s => parseArgs fm s rest
                    | None => inr (InvalidValue v name)
                    end
                | None, [] => inr (NeedsArgument name)
                end
          end
      end
  end.

Definition Parse fs (args : list string) : (S * list string) + flagError :=
  parseArgs (formal fs) (vars fs) args.

(** ** Spelling a setting on the command line *)

(** One dash or two, the value after an equals sign or as the next argument. *)
Inductive spelling := Spelling (dashes : bool) (inline : bool).

Definition dash (d : bool) : string := if d then "--" else "-".

Definition spell (sp : spelling) (name value : string) : list string :=
  let '(Spelling d i) := sp in
  if i then [dash d +:+ name +:+ "=" +:+ value] else [dash d +:+ name; value].

(** A boolean flag takes its value inline. *)
Definition boolText (b : bool) : string := if b then "true" else "false".
Definition spellBool (d : bool) (name : string) (b : bool) : list string :=
  [dash d +:+ name +:+ "=" +:+ boolText b].

(** Names that [flag] can find: no equals sign, no dash in front. *)
Fixpoint noEquals (s : string) : bool :=
  match s with
  | EmptyString => true
  | String c s => negb (bool_decide (c = "="%char)) && noEquals s
  end.
Definition goodName (name : string) : bool :=
  match name with
  | EmptyString => false
  | String c s => negb (bool_decide (c = "-"%char)) && noEquals name
  end.

Lemma append_String c (s t : string) : String c s +:+ t = String c (s +:+ t).
Proof. done. Qed.

Lemma append_empty (s : string) : s +:+ "" = s.
Proof. induction s as [|c s IH]; [done|]. by rewrite append_String, IH. Qed.

Lemma goodName_noEquals name : goodName name = true → noEquals name = true.
Proof. destruct name; [done|]. intros [_ ?]%andb_true_iff. done. Qed.

Lemma cut_inline name value : noEquals name = true → cut (name +:+ "=" +:+ value) = (name, Some value).
Proof.
  induction name as [|c name IH]; [done|]. rewrite append_String. simpl.
  intros [Hc Hn]%andb_true_iff. apply negb_true_iff in Hc. by rewrite Hc, IH.
Qed.

Lemma cut_bare name : noEquals name = true → cut name = (name, None).
Proof.
  induction name as [|c name IH]; [done|]. simpl.
  intros [Hc Hn]%andb_true_iff. apply negb_true_iff in Hc. by rewrite Hc, IH.
Qed.

Lemma classify_dash d name tl v :
  goodName name = true → cut (name +:+ tl) = (name, v) →
  classify (dash d +:+ (name +:+ tl)) = FlagArg name v.
Proof.
  unfold goodName. destruct name as [|c name]; [done|]. cbn [noEquals].
  intros Hn Hcut. apply andb_true_iff in Hn as [Hd Hn]. apply andb_true_iff in Hn as [He Hn].
  apply negb_true_iff in Hd, He. rewrite !append_String in *. simpl in Hcut. rewrite He in Hcut.
  assert (cut (name +:+ tl) = (name, v)) as Hcut' by (destruct (cut (name +:+ tl)); by simplify_eq).
  destruct d; unfold dash; rewrite !append_String; simpl; rewrite ?Hd, ?He; simpl; by rewrite Hcut'.
Qed.

(** A setting of a defined flag is performed, however it is spelled. *)
Lemma parseArgs_spell fm f sp name value s rest :
  goodName name = true → fm !! name = Some f → IsBoolFlag f = false →
  parseArgs fm s (spell sp name value ++ rest) =
  match Set_ f value s with
  | Some s => parseArgs fm s rest
  | None => inr (InvalidValue value name)
  end.
Proof.
  intros Hn Hf Hb. pose proof (goodName_noEquals _ Hn) as Hne.
  destruct sp as [d []]; cbn [spell app parseArgs].
  - rewrite (classify_dash _ _ _ (Some value)) by (auto using cut_inline). by rewrite Hf, Hb.
  - rewrite <- (append_empty name) at 1.
    rewrite (classify_dash _ _ _ None) by (rewrite ?append_empty; auto using cut_bare).
    by rewrite Hf, Hb.
Qed.

Lemma parseArgs_bool fm f d name (b : bool) s rest :
  goodName name = true → fm !! name = Some f → IsBoolFlag f = true →
  parseArgs fm s (spellBool d name b ++ rest) =
  match Set_ f (boolText b) s with
  | Some s => parseArgs fm s rest
  | None => inr (InvalidValue (boolText b) name)
  end.
Proof.
  intros Hn Hf Hb. pose proof (goodName_noEquals _ Hn) as Hne.
  cbn [spellBool app parseArgs]. rewrite (classify_dash _ _ _ (Some (boolText b))) by (auto using cut_inline).
  by rewrite Hf, Hb.
Qed.

(** A flag that is not declared stops the program. *)
Lemma parseArgs_undefined fm sp name value s rest :
  goodName name = true → fm !! name = None → name ∉ ["help"; "h"] →
  parseArgs fm s (spell sp name value ++ rest) = inr (NotDefined name).
Proof.
  intros Hn Hf Hh. pose proof (goodName_noEquals _ Hn) as Hne.
  destruct sp as [d []]; cbn [spell app parseArgs].
  - rewrite (classify_dash _ _ _ (Some value)) by (auto using cut_inline).
    by rewrite Hf, bool_decide_false.
  - rewrite <- (append_empty name) at 1.
    rewrite (classify_dash _ _ _ None) by (rewrite ?append_empty; auto using cut_bare).
    by rewrite Hf, bool_decide_false.
Qed.

(** A property of the variables that every flag keeps holds after parsing. *)
Lemma parseArgs_invariant fm (P : S → Prop) args s s' rest :
  (∀ name f v s s', fm !! name = Some f → Set_ f v s = Some s' → P s → P s') →
  parseArgs fm s args = inl (s', rest) → P s → P s'.
Proof.
  intros Hfm. revert s. induction args as [args IH] using (induction_ltof1 _ (@length string)).
  unfold ltof in IH. destruct args as [|a args]; cbn [parseArgs]; intros s Hp HP; [by simplify_eq|].
  repeat step_match; simplify_eq;
    match goal with
    | H : parseArgs _ _ _ = _ |- _ => eapply IH in H; [done|simpl; lia|eauto]
    | _ => done
    end.
Qed.
End Flags.
