(* ===== verification/Lifecycle.v ===== *)
(** * The life of an HTTP server (net/http.Server, Start of the API server)

    Both programs run an [http.Server] in a goroutine, wait until they are told to
    stop, and shut the server down with a deadline. The goroutine, the waiting
    function, the connections and the clock are one state; events are the steps of
    either side and of their environment, in any order. A [Policy] says what
    differs between the programs: what an error of the listening goroutine does,
    what happens to a signal that arrives before anyone waits for it, and how long
    the shutdown may take.

    A connection carries one request, which is answered unless the connection ends
    before: the client closes it, reading from it times out, its TLS handshake fails, its
    handler panics, or [Shutdown] closes it because it has sent nothing for five
    seconds. Further requests on a connection that is kept alive are left out. *)

From S2P Require Import Prelude Types.

#[local] Open Scope Z_scope.

(** ** State *)

(** The goroutine that calls [ListenAndServe]. *)
Inductive goroutine := Starting | Serving | ServerClosed | ServeFailed.

(** Why the waiting function ends. *)
Inductive cause :=
  | Drained        (* Shutdown returned nil *)
  | CloseFailed    (* Shutdown returned an error of closing the listener *)
  | DeadlineExceeded   (* Shutdown returned the error of its context *)
  | Crashed        (* the goroutine ended the process *)
  | Killed.        (* the default action of a signal *)

(** The waiting function: before it waits, waiting, inside [Shutdown] until a
    deadline, or ended. *)
Inductive waiter := Launching | Waiting | ShuttingDown (deadline : Z) | Stopped (c : cause).

#[export] Instance goroutine_eq_dec : EqDecision goroutine.
Proof. solve_decision. Defined.
#[export] Instance cause_eq_dec : EqDecision cause.
Proof. solve_decision. Defined.
#[export] Instance waiter_eq_dec : EqDecision waiter.
Proof. solve_decision. Defined.

(** Connections are numbered; times are in milliseconds. *)
Record State := mkState {
  l_waiter : waiter;
  l_server : goroutine;
  l_cancelled : bool;
  l_accepted : gset nat;
  l_answered : gset nat;
  l_dropped : gset nat;    (* ended without an answer *)
  l_now : Z;
}.

Record Policy := mkPolicy_ {
  fatalServeError : bool;     (* an error of ListenAndServe ends the process *)
  fatalEarlySignal : bool;    (* a signal before [Launching] is over ends the process *)
  shutdownTimeout : Z;
}.

(** Connections that are still served. *)
Definition active (s : State) : gset nat := l_accepted s ∖ (l_answered s ∪ l_dropped s).

Definition with_waiter (s : State) (w : waiter) : State :=
  mkState w (l_server s) (l_cancelled s) (l_accepted s) (l_answered s) (l_dropped s) (l_now s).
Definition with_server (s : State) (g : goroutine) : State :=
  mkState (l_waiter s) g (l_cancelled s) (l_accepted s) (l_answered s) (l_dropped s) (l_now s).

(** [srv.shuttingDown()] *)
Definition inShutdown (s : State) : bool := match l_waiter s with ShuttingDown _ => true | _ => false end.

(** ** Events *)
Inductive event :=
  | Listen (ok : bool)     (* ListenAndServe opens its socket, or fails to *)
  | AcceptFails            (* the listening socket breaks *)
  | ServeReturns           (* Serve notices the shutdown: ErrServerClosed *)
  | Fatalf                 (* the goroutine reports its error with log.Fatalf *)
  | Accept (c : nat)
  | Answer (c : nat)
  | Drop (c : nat)         (* the connection ends without an answer *)
  | Notify                 (* the waiting function starts to wait *)
  | Cancel                 (* the context is cancelled, or a signal arrives *)
  | Wake                   (* the waiting function calls Shutdown *)
  | ShutdownDone (ok : bool)   (* Shutdown finds no active connection; closing went well *)
  | ShutdownExpires        (* Shutdown notices its deadline *)
  | Tick.

#[export] Instance event_eq_dec : EqDecision event.
Proof. solve_decision. Defined.

Section Steps.
Variable p : Policy.

(** [ListenAndServe] returns an error other than [http.ErrServerClosed]. What the
    goroutine does about it, if anything, is a step of its own. *)
Definition serveError (s : State) : State := with_server s ServeFailed.

(** A pending [Shutdown] reacts to its deadline before the clock moves on. *)
Definition step (e : event) (s : State) : option State :=
  match l_waiter s with
  | Stopped _ => None
  | _ =>
      match e with
      | Listen ok =>
          match l_server s with
          | Starting =>
              Some (if inShutdown s then with_server s ServerClosed
                    else if ok then with_server s Serving else serveError s)
          | _ => None
          end
      | AcceptFails =>
          match l_server s with
          | Serving => if inShutdown s then None else Some (serveError s)
          | _ => None
          end
      | ServeReturns =>
          match l_server s with
          | Serving => if inShutdown s then Some (with_server s ServerClosed) else None
          | _ => None
          end
      | Fatalf =>
          match l_server s with
          | ServeFailed => if fatalServeError p then Some (with_waiter s (Stopped Crashed)) else None
          | _ => None
          end
      | Accept c =>
          match l_server s with
          | Serving =>
              if inShutdown s || bool_decide (c ∈ l_accepted s) then None
              else Some (mkState (l_waiter s) Serving (l_cancelled s) ({[c]} ∪ l_accepted s) (l_answered s) (l_dropped s) (l_now s))
          | _ => None
          end
      | Answer c =>
          if bool_decide (c ∈ active s) then
            Some (mkState (l_waiter s) (l_server s) (l_cancelled s) (l_accepted s) ({[c]} ∪ l_answered s) (l_dropped s) (l_now s))
          else None
      | Drop c =>
          if bool_decide (c ∈ active s) then
            Some (mkState (l_waiter s) (l_server s) (l_cancelled s) (l_accepted s) (l_answered s) ({[c]} ∪ l_dropped s) (l_now s))
          else None
      | Notify => match l_waiter s with Launching => Some (with_waiter s Waiting) | _ => None end
      | Cancel =>
          if l_cancelled s then None
          else
            let s' := mkState (l_waiter s) (l_server s) true (l_accepted s) (l_answered s) (l_dropped s) (l_now s) in
            match l_waiter s with
            | Launching => Some (if fatalEarlySignal p then with_waiter s' (Stopped Killed) else s')
            | _ => Some s'
            end
      | Wake =>
          match l_waiter s with
          | Waiting => if l_cancelled s then Some (with_waiter s (ShuttingDown (l_now s + shutdownTimeout p))) else None
          | _ => None
          end
      | ShutdownDone ok =>
          match l_waiter s with
          | ShuttingDown _ =>
              if bool_decide (active s = ∅)
              then Some (with_waiter s (Stopped (if ok then Drained else CloseFailed))) else None
          | _ => None
          end
      | ShutdownExpires =>
          match l_waiter s with
          | ShuttingDown d => if d <=? l_now s then Some (with_waiter s (Stopped DeadlineExceeded)) else None
          | _ => None
          end
      | Tick =>
          let s' := mkState (l_waiter s) (l_server s) (l_cancelled s) (l_accepted s) (l_answered s) (l_dropped s) (l_now s + 1) in
          match l_waiter s with
          | ShuttingDown d => if d <=? l_now s then None else Some s'
          | _ => Some s'
          end
      end
  end.

Fixpoint run (es : list event) (s : State) : option State :=
  match es with
  | [] => Some s
  | e :: es => s ← step e s; run es s
  end.

(** The goroutine has been spawned, nothing has happened. *)
Definition initial (w : waiter) (now : Z) : State := mkState w Starting false ∅ ∅ ∅ now.
End Steps.

(** ** Start of the API server *)

(** A serving error is logged; the context may be cancelled at any time, and
    [<-ctx.Done()] sees it. *)
Definition api_policy : Policy := mkPolicy_ false false 5000.
Definition api_initial (now : Z) : State := initial Waiting now.

Definition err_DeadlineExceeded : goerror := Errorf "context deadline exceeded".
Definition err_Close : goerror := Errorf "close: use of closed network connection".

(** What [Start] returns once it does: the error of [Shutdown], or nil. *)
Definition Start_returns (s : State) : option (option goerror) :=
  match l_waiter s with
  | Stopped DeadlineExceeded => Some (Some err_DeadlineExceeded)
  | Stopped CloseFailed => Some (Some err_Close)
  | Stopped Drained => Some None
  | _ => None
  end.

(** ** Invariant *)

(** What holds in every state of a run. *)
Record Life (p : Policy) (s : State) : Prop := {
  life_answered : l_answered s ∪ l_dropped s ⊆ l_accepted s;
  life_starting : l_server s = Starting → l_accepted s = ∅;
  life_waiter : match l_waiter s with
    | Launching => fatalEarlySignal p = true → l_cancelled s = false
    | Waiting => True
    | ShuttingDown d => l_cancelled s = true ∧ l_now s ≤ d
    | Stopped Drained | Stopped CloseFailed => l_cancelled s = true ∧ active s = ∅
    | Stopped DeadlineExceeded => l_cancelled s = true
    | Stopped Crashed => fatalServeError p = true ∧ l_server s = ServeFailed
    | Stopped Killed => fatalEarlySignal p = true
    end;
}.

(** Take one step apart: every branch of [step] that does something. *)
Ltac step_cases H p e :=
  destruct p as [[] [] ?]; destruct e as [[]| | | | | | | | | |[]| |];
  unfold step, serveError, inShutdown, with_waiter, with_server, active in H;
  repeat (match type of H with context [match ?x with _ => _ end] => destruct x eqn:? end; simplify_eq/=);
  simplify_eq/=.

Lemma initial_Life p w now : w = Launching ∨ w = Waiting → Life p (initial w now).
Proof. by intros [-> | ->]; split. Qed.

Lemma step_Life p e s s' : 0 ≤ shutdownTimeout p → step p e s = Some s' → Life p s → Life p s'.
Proof.
  intros Hp Hs [Ha Hst Hw]. destruct s as [w g cc acc ans drp t]; simpl in *.
  step_cases Hs p e; reflect_bools; split; simpl in *; try done; try lia; try naive_solver lia.
  all: set_solver.
Qed.

Lemma run_Life p es s s' : 0 ≤ shutdownTimeout p → run p es s = Some s' → Life p s → Life p s'.
Proof.
  intros Hp. revert s. induction es as [|e es IH]; simpl; intros s Hr HL; [by simplify_eq|].
  destruct (step p e s) as [s1|] eqn:Hs; [|done]. eauto using step_Life.
Qed.

Lemma run_app p es1 es2 s : run p (es1 ++ es2) s = run p es1 s ≫= run p es2.
Proof. revert s. induction es1 as [|e es1 IH]; intros s; simpl; [done|]. by destruct (step p e s); simpl. Qed.

(** ** Shutting down *)

(** How many steps are left once [Shutdown] was called. *)
Definition remaining (s : State) : nat :=
  match l_waiter s with
  | ShuttingDown d =>
      Z.to_nat (d - l_now s) + size (active s) +
      match l_server s with Starting | Serving => 1 | _ => 0 end + 1
  | _ => 0
  end.

Definition stopped (s : State) : Prop := ∃ c, l_waiter s = Stopped c.

Lemma size_answered (c : nat) (acc ans drp : gset nat) :
  c ∈ acc ∖ (ans ∪ drp) →
  (size (acc ∖ (({[c]} ∪ ans) ∪ drp)) < size (acc ∖ (ans ∪ drp)))%nat ∧
  (size (acc ∖ (ans ∪ ({[c]} ∪ drp))) < size (acc ∖ (ans ∪ drp)))%nat.
Proof. intros Hc. split; apply subset_size; set_solver. Qed.

(** [Shutdown] has returned, or the goroutine has ended the process meanwhile. *)
Definition shutdown_over (s : State) (d : Z) : Prop :=
  l_waiter s = Stopped Drained ∨ l_waiter s = Stopped CloseFailed ∨ l_waiter s = Stopped Crashed ∨
  (l_waiter s = Stopped DeadlineExceeded ∧ l_now s = d).

Lemma step_shutdown p e s s' d :
  Life p s → l_waiter s = ShuttingDown d → step p e s = Some s' →
  (l_waiter s' = ShuttingDown d ∨ shutdown_over s' d) ∧
  (remaining s' < remaining s)%nat ∧ l_accepted s' = l_accepted s ∧ l_now s' ≤ d.
Proof.
  intros [_ _ Hw] Hd Hs. destruct s as [w g cc acc ans drp t]; simpl in *. subst w. destruct Hw as [-> Hle].
  unfold remaining, active. step_cases Hs p e; reflect_bools; split_and!; simpl in *; auto; try lia;
    try (right; unfold shutdown_over; simpl; by auto);
    try (right; right; right; right; split; simpl; [done|lia]); unfold active; simpl; try destruct g;
    try match goal with H : _ ∈ _ ∖ _ |- _ => apply size_answered in H end; lia.
Qed.

Lemma run_shutdown p es s s' d :
  0 ≤ shutdownTimeout p → Life p s → l_waiter s = ShuttingDown d → run p es s = Some s' →
  (l_waiter s' = ShuttingDown d ∨ shutdown_over s' d) ∧
  (length es + remaining s' ≤ remaining s)%nat ∧ l_accepted s' = l_accepted s ∧ l_now s' ≤ d.
Proof.
  intros Hp. revert s. induction es as [|e es IH]; simpl; intros s HL Hd Hr.
  { simplify_eq. split_and!; [by left|lia|done|]. destruct HL as [_ _ Hw]. rewrite Hd in Hw. apply Hw. }
  destruct (step p e s) as [s1|] eqn:Hs; [|done]. cbn [mbind option_bind] in Hr.
  destruct (step_shutdown p e s s1 d HL Hd Hs) as ([Hd1|Hstop] & Hrem & Hacc & Hnow).
  - destruct (IH s1 (step_Life p e s s1 Hp Hs HL) Hd1 Hr) as (? & ? & -> & ?). split_and!; [done|lia|done..].
  - destruct es as [|e' es]; cbn [run] in Hr; [simplify_eq; split_and!; [by right|simpl; lia|done..]|].
    unfold step in Hr. by destruct Hstop as [Hc|[Hc|[Hc|[Hc _]]]]; rewrite Hc in Hr.
Qed.

(** The call of [Shutdown] starts the countdown. *)
Lemma wake_shutdown p s s' :
  0 ≤ shutdownTimeout p → step p Wake s = Some s' →
  l_waiter s' = ShuttingDown (l_now s + shutdownTimeout p) ∧ l_accepted s' = l_accepted s ∧
  Z.of_nat (remaining s') ≤ shutdownTimeout p + Z.of_nat (size (active s)) + 2.
Proof.
  intros Hp Hwake. unfold step in Hwake. destruct (l_waiter s), (l_cancelled s); simplify_eq.
  split_and!; [done..|]. unfold remaining, active; simpl. destruct (l_server s); lia.
Qed.

(** While [Shutdown] runs there is always a next step. *)
Lemma shutdown_progress p s d : l_waiter s = ShuttingDown d → ∃ e s', step p e s = Some s'.
Proof.
  intros Hd. destruct (decide (d ≤ l_now s)) as [Hle|Hgt].
  - exists ShutdownExpires. unfold step. rewrite Hd, (proj2 (Z.leb_le _ _)) by done. by eexists.
  - exists Tick. unfold step. rewrite Hd, (proj2 (Z.leb_gt _ _)) by lia. by eexists.
Qed.

(** The bounds of a shutdown: steps, time, connections, and how it can end. *)
Lemma shutdown_bounds p s0 s es s' :
  0 ≤ shutdownTimeout p → Life p s0 → step p Wake s0 = Some s → run p es s = Some s' →
  Z.of_nat (length es) ≤ shutdownTimeout p + Z.of_nat (size (active s0)) + 2 ∧
  l_now s' ≤ l_now s0 + shutdownTimeout p ∧ l_accepted s' = l_accepted s0 ∧
  ((∀ e, step p e s' = None) ↔ stopped s').
Proof.
  intros Hp HL0 Hwake Hr. assert (Life p s) as HL by (by eapply step_Life).
  destruct (wake_shutdown p s0 s Hp Hwake) as (Hd & Hacc & Hrem).
  destruct (run_shutdown p es s s' _ Hp HL Hd Hr) as (Hw & Hlen & Hacc' & Hnow).
  split_and!; [lia|done|congruence|]. split.
  - intros Hstuck. unfold stopped. destruct Hw as [Hw|[Hc|[Hc|[Hc|[Hc _]]]]]; [|by eauto..].
    destruct (shutdown_progress p s' _ Hw) as (e & s'' & He). by rewrite Hstuck in He.
  - intros [c Hc] e. unfold step. by rewrite Hc.
Qed.

(** Before [Shutdown] is called the function waits, unless the process ends. *)
Lemma step_waiting p e s s' :
  l_waiter s = Launching ∨ l_waiter s = Waiting → step p e s = Some s' → e ≠ Wake →
  l_waiter s' = Launching ∨ l_waiter s' = Waiting ∨
  (l_waiter s' = Stopped Crashed ∧ fatalServeError p = true) ∨
  (l_waiter s' = Stopped Killed ∧ fatalEarlySignal p = true).
Proof.
  intros Hw Hs He. destruct s as [w g cc acc ans drp t]; simpl in *.
  destruct Hw as [-> | ->]; step_cases Hs p e; auto 6.
Qed.

(** A call of [Shutdown] splits the history of a run: what came before it, and what
    came after. *)
Lemma run_woken p es s s' c :
  0 ≤ shutdownTimeout p → Life p s → l_waiter s = Launching ∨ l_waiter s = Waiting → run p es s = Some s' →
  l_waiter s' = Stopped c →
  (c = Crashed ∧ fatalServeError p = true) ∨ (c = Killed ∧ fatalEarlySignal p = true) ∨
  ∃ es1 es2 s1 s2, es = es1 ++ Wake :: es2 ∧ run p es1 s = Some s1 ∧ step p Wake s1 = Some s2 ∧
    run p es2 s2 = Some s' ∧ Life p s2 ∧ l_waiter s2 = ShuttingDown (l_now s1 + shutdownTimeout p).
Proof.
  intros Hp. revert s. induction es as [|e es IH]; simpl; intros s HL Hw Hr Hc.
  { simplify_eq. by destruct Hw as [Hw|Hw]; rewrite Hw in Hc. }
  destruct (step p e s) as [s1|] eqn:Hs; [|done]. cbn [mbind option_bind] in Hr.
  assert (Life p s1) as HL1 by (by eapply step_Life).
  destruct (decide (e = Wake)) as [->|He].
  { right; right. exists [], es, s, s1. split_and!; try done. unfold step in Hs.
    by destruct Hw as [Hw|Hw]; rewrite Hw in Hs; [done|]; destruct (l_cancelled s); simplify_eq. }
  pose proof (step_waiting p e s s1 Hw Hs He) as Hcases.
  assert (∀ c', l_waiter s1 = Stopped c' → s1 = s' ∧ c' = c) as Hend.
  { intros c' Hc'. destruct es as [|e' es]; cbn [run] in Hr; [simplify_eq; split; congruence|].
    unfold step in Hr. by rewrite Hc' in Hr. }
  destruct Hcases as [Hl|[Hl|[[Hl ?]|[Hl ?]]]].
  1,2: destruct (IH s1 HL1) as [?|[?|(es1 & es2 & t1 & t2 & -> & Hr1 & Hwk & Hr2 & HL2 & Hd)]]; [by auto|done..| | |]; auto;
    right; right; exists (e :: es1), es2, t1, t2; cbn [run app]; rewrite Hs; split_and!; done.
  - apply Hend in Hl as [_ <-]. by left.
  - apply Hend in Hl as [_ <-]. by right; left.
Qed.

(** ** The API server's Start *)

(** C32: shutting the API server down takes at most five seconds. Once [Start] has
    called [Shutdown], whatever happened before and however connections, the serving
    goroutine and the clock interleave, only finitely many steps follow, at most five
    seconds pass, no further connection is accepted, and the run can only end with
    [Start] having returned. *)
Theorem start_shutdown_terminates t0 es0 s0 s es s' :
  run api_policy es0 (api_initial t0) = Some s0 → step api_policy Wake s0 = Some s →
  run api_policy es s = Some s' →
  Z.of_nat (length es) ≤ 5000 + Z.of_nat (size (active s0)) + 2 ∧ l_now s' ≤ l_now s0 + 5000 ∧
  l_accepted s' = l_accepted s0 ∧
  ((∀ e, step api_policy e s' = None) ↔ is_Some (Start_returns s')).
Proof.
  intros Hr0 Hwake Hr.
  assert (Life api_policy s0) as HL0 by (eapply run_Life; [done|done|apply initial_Life; by right]).
  destruct (shutdown_bounds api_policy s0 s es s' ltac:(done) HL0 Hwake Hr) as (Hlen & Hnow & Hacc & Hend).
  split_and!; [done..|]. rewrite Hend. unfold Start_returns. split.
  - intros [c Hc]. assert (Life api_policy s') as [_ _ Hw].
    { eapply run_Life; [done|done|]. by eapply step_Life. }
    rewrite Hc in *. destruct c; [by eexists..|by destruct Hw|done].
  - intros [r Hret]. unfold stopped. destruct (l_waiter s') as [| | |c]; [by destruct r..|]. by exists c.
Qed.

(** Nothing is being served: every connection was answered or ended by itself. *)
Lemma drained_all (s : State) :
  l_answered s ∪ l_dropped s ⊆ l_accepted s → active s = ∅ → l_accepted s = l_answered s ∪ l_dropped s.
Proof. intros Ha Hact. apply (anti_symm (⊆)); [|done]. by apply empty_difference_subseteq_L. Qed.

(** C31: what the result of [Start] means. [Start] returns only after its context
    was cancelled. It returns nil only when no connection is being served any more: every
    accepted connection was answered, or ended without an answer by itself (client gone,
    timeout, handler panic, or nothing sent). When it returns the error of an expired
    deadline, five seconds have passed since it called [Shutdown], and no connection was
    accepted in between. *)
Theorem start_result_sound t0 es s r :
  run api_policy es (api_initial t0) = Some s → Start_returns s = Some r →
  l_cancelled s = true ∧ (r = None → l_accepted s = l_answered s ∪ l_dropped s) ∧
  (r = Some err_DeadlineExceeded → ∃ es1 es2 s1, es = es1 ++ Wake :: es2 ∧
    run api_policy es1 (api_initial t0) = Some s1 ∧ l_now s = l_now s1 + 5000 ∧ l_accepted s = l_accepted s1).
Proof.
  intros Hr Hret. pose proof (initial_Life api_policy Waiting t0 ltac:(by right)) as HL0.
  pose proof (run_Life api_policy _ _ _ ltac:(done) Hr HL0) as [Ha _ Hw].
  assert (∃ c, l_waiter s = Stopped c) as [c Hc] by (unfold Start_returns in Hret; destruct (l_waiter s); by eauto).
  unfold Start_returns in Hret. rewrite Hc in Hw, Hret. split_and!.
  - destruct c; naive_solver.
  - intros ->. destruct c; simplify_eq. by apply drained_all, Hw.
  - intros ->. destruct c; simplify_eq.
    destruct (run_woken api_policy es _ _ _ ltac:(done) HL0 ltac:(by right) Hr Hc)
      as [[]|[[]|(es1 & es2 & s1 & s2 & -> & Hr1 & Hwk & Hr2 & HL2 & Hd)]]; [done..|].
    destruct (run_shutdown api_policy es2 s2 s _ ltac:(done) HL2 Hd Hr2) as (Hover & _ & Hacc & _).
    exists es1, es2, s1. split_and!; [done..| |].
    + destruct Hover as [Hx|[Hx|[Hx|[Hx|[_ ->]]]]]; [congruence..|done].
    + rewrite Hacc. by destruct (wake_shutdown api_policy s1 s2 ltac:(done) Hwk) as (_ & -> & _).
Qed.

Lemma never_launching p es s s' : l_waiter s ≠ Launching → run p es s = Some s' → l_waiter s' ≠ Launching.
Proof.
  revert s. induction es as [|e es IH]; simpl; intros s Hw Hr; [by simplify_eq|].
  destruct (step p e s) as [s1|] eqn:Hs; [|done]. apply (IH s1); [|done]. clear IH Hr.
  destruct s as [w g cc acc ans drp t]; simpl in *. by step_cases Hs p e.
Qed.

(** A server that failed stays failed, and accepts nothing more. *)
Lemma failed_stays p es s s' :
  l_server s = ServeFailed → run p es s = Some s' →
  l_server s' = ServeFailed ∧ l_accepted s' = l_accepted s.
Proof.
  revert s. induction es as [|e es IH]; simpl; intros s Hf Hr; [by simplify_eq|].
  destruct (step p e s) as [s1|] eqn:Hs; [|done]. cbn [mbind option_bind] in Hr.
  assert (l_server s1 = ServeFailed ∧ l_accepted s1 = l_accepted s) as [Hf1 <-]; [|by apply IH].
  clear IH Hr. destruct s as [w g cc acc ans drp t]; simpl in *. subst g. by step_cases Hs p e.
Qed.

(** C38: a failure to listen is never reported. If the API server cannot open its
    socket, no connection is ever accepted, yet [Start] keeps waiting as long as its
    context is not cancelled; whenever it is found waiting, a cancellation makes it
    return nil. *)
Theorem listen_failure_unreported t0 es0 s0 s es s' :
  run api_policy es0 (api_initial t0) = Some s0 → inShutdown s0 = false →
  step api_policy (Listen false) s0 = Some s → run api_policy es s = Some s' →
  l_accepted s' = ∅ ∧ (l_cancelled s' = false → l_waiter s' = Waiting) ∧
  (l_waiter s' = Waiting → ∃ s'',
    run api_policy ((if l_cancelled s' then [] else [Cancel]) ++ [Wake; ShutdownDone true]) s' = Some s'' ∧
    Start_returns s'' = Some None).
Proof.
  intros Hr0 Hsd Hs Hr.
  assert (Life api_policy s0) as HL0 by (eapply run_Life; [done|done|apply initial_Life; by right]).
  assert (Life api_policy s) as HL by (by eapply step_Life).
  assert (Life api_policy s') as HL' by (by eapply run_Life).
  assert (l_server s = ServeFailed ∧ l_accepted s = ∅) as [Hf Hacc].
  { destruct HL0 as [_ Hst _]. unfold step in Hs. rewrite Hsd in Hs.
    by destruct (l_waiter s0), (l_server s0); simplify_eq; eauto. }
  destruct (failed_stays api_policy es s s' Hf Hr) as [Hf' Hacc'].
  assert (l_waiter s' ≠ Launching) as Hnl.
  { eapply (never_launching api_policy (es0 ++ Listen false :: es) (api_initial t0)); [done|].
    rewrite run_app, Hr0. cbn [mbind option_bind run]. by rewrite Hs. }
  destruct s' as [w g cc acc ans drp t]; simpl in *. assert (acc = ∅) as -> by congruence. split_and!.
  - done.
  - intros ->. destruct HL' as [_ _ Hw]; simpl in Hw. by destruct w as [| | |[]]; destruct_and?.
  - intros ->. assert (ans = ∅ ∧ drp = ∅) as [-> ->] by (destruct HL' as [Ha _ _]; simpl in Ha; set_solver).
    by destruct cc; eexists.
Qed.
