(* ===== verification/WebhookMain.v ===== *)
(** * The webhook's entry point (webhook/cmd/webhook/main.go)

    The flags, the HTTPS server [main] builds, and how the process ends. Flags that
    imported packages declare are a parameter, as are the environment, the
    Kubernetes client and the certificate files. *)

From Stdlib Require Import Ascii NArith ZifyN.
From S2P Require Import Prelude Types Json Hash Http Webhook Strconv Flags Lifecycle.

#[local] Open Scope Z_scope.

(** ** Package variables and init *)
Record Vars := mkVars { port : Z; certFile : string; keyFile : string }.

Definition set_port {L} (z : Z) (s : Vars * L) : Vars * L := (mkVars z (certFile s.1) (keyFile s.1), s.2).
Definition set_certFile {L} (v : string) (s : Vars * L) : Vars * L := (mkVars (port s.1) v (keyFile s.1), s.2).
Definition set_keyFile {L} (v : string) (s : Vars * L) : Vars * L := (mkVars (port s.1) (certFile s.1) v, s.2).

(** Flags of imported packages act on their own variables. *)
Definition lift_flag {A L} (f : Flag L) : Flag (A * L) :=
  mkFlag (IsBoolFlag f) (λ v s, (λ l, (s.1, l)) <$> Set_ f v s.2).
Definition lift_flags {A L} (a : A) (fs : FlagSet L) : FlagSet (A * L) :=
  mkFlagSet (lift_flag <$> formal fs) (a, vars fs).

(** What a process does before it serves: it gets there, exits, or panics. *)
Inductive boot (A : Type) := Booted (a : A) | Exit (code : Z) | Panicked.
Arguments Booted {A} _.
Arguments Exit {A} _.
Arguments Panicked {A}.

Section Main.
Context {L : Type} (lib : FlagSet L).

Definition declareFlags : option (FlagSet (Vars * L)) :=
  fs ← IntVar set_port "port" 8443 (lift_flags (mkVars 0 "" "") lib);
  fs ← StringVar set_certFile "cert-file" "/etc/webhook/certs/tls.crt" fs;
  StringVar set_keyFile "key-file" "/etc/webhook/certs/tls.key" fs.

(** [init]: the flags are parsed before main runs. *)
Definition init (args : list string) : boot Vars :=
  match declareFlags with
  | None => Panicked
  | Some fs =>
      match Parse fs args with
      | inl (s, _) => Booted s.1
      | inr e => Exit (exitCode e)
      end
  end.

(** ** The HTTPS server *)

(** [mux] with handlers that may panic. *)
Definition PHandler := Writer → Request → outcome Writer.
Fixpoint pmux (routes : list (string * PHandler)) (w : Writer) (r : Request) : outcome Writer :=
  match routes with
  | [] => Ret (http_Error w "404 page not found" 404)
  | (path, h) :: routes => if bool_decide (r_Path r = path) then h w r else pmux routes w r
  end.

Definition healthCheck (w : Writer) (r : Request) : Writer :=
  let w := WriteHeader w 200 in
  (Write w (bytes_of "OK")).1.

Definition VersionTLS12 : Z := 771.   (* 0x0303 *)

Record HttpServer := mkHttpServer {
  srv_Addr : string;
  srv_Handler : PHandler;
  srv_Certificate : string * string;   (* the files it was loaded from *)
  srv_MinVersion : Z;
  srv_ReadTimeout : Z;                 (* milliseconds *)
  srv_WriteTimeout : Z;
}.

(** The machine the process runs on. *)
Record Machine := mkMachine {
  Args : list string;
  Getenv : string → string;
  Cluster : ClusterAccess;
  LoadX509KeyPair : string → string → option goerror;
}.

Context `{K8S : Kubernetes}.

(** [main] up to the start of the server; [log.Fatalf] exits with status 1. *)
Definition newServer (m : Machine) (v : Vars) : boot HttpServer :=
  match NewServer (Getenv m) (Cluster m) with
  | inr _ => Exit 1
  | inl webhookServer =>
      let mux := pmux [("/mutate", ServeHTTP webhookServer); ("/health", λ w r, Ret (healthCheck w r))] in
      match LoadX509KeyPair m (certFile v) (keyFile v) with
      | Some _ => Exit 1
      | None => Booted (mkHttpServer (":" +:+ string_of (Sprintf_d (port v))) mux
          (certFile v, keyFile v) VersionTLS12 10000 10000)
      end
  end.

Definition start (m : Machine) : boot HttpServer :=
  match init (Args m) with
  | Booted v => newServer m v
  | Exit c => Exit c
  | Panicked => Panicked
  end.
End Main.

(** ** Waiting for a signal *)

(** An error of [ListenAndServeTLS] is fatal; until [signal.Notify] has been called, a
    signal has its default action; the shutdown may take five seconds. *)
Definition webhook_policy : Policy := mkPolicy_ true true 5000.
Definition webhook_initial (now : Z) : State := initial Launching now.

Inductive exitStatus := ExitStatus (code : Z) | KilledBySignal.

Definition main_exits (s : State) : option exitStatus :=
  match l_waiter s with
  | Stopped Drained => Some (ExitStatus 0)
  | Stopped CloseFailed | Stopped DeadlineExceeded => Some (ExitStatus 1)   (* log.Fatalf *)
  | Stopped Crashed => Some (ExitStatus 1)                                  (* log.Fatalf in the goroutine *)
  | Stopped Killed => Some KilledBySignal
  | _ => None
  end.

(** ** Lemmas *)

Lemma writeNum_ascii n : Forall (λ c, (c < 256)%N) (Document.writeNum n).
Proof.
  unfold Document.writeNum. generalize (S (N.to_nat (N.size n))) as fuel. intros fuel.
  assert (∀ acc, Forall (λ c, (c < 256)%N) acc → Forall (λ c, (c < 256)%N) (Document.decimal fuel n acc)) as Hgen.
  { revert n. induction fuel as [|fuel IH]; intros n acc Hacc; simpl; [done|].
    assert ((48 + n mod 10) < 256)%N by (pose proof (N.mod_lt n 10 ltac:(done)); lia).
    destruct (n <? 10)%N; [by constructor|]. apply IH. by constructor. }
  by apply Hgen.
Qed.

Lemma bytes_of_string_of bs : Forall (λ c, (c < 256)%N) bs → bytes_of (string_of bs) = bs.
Proof.
  intros Hbs. unfold bytes_of, string_of. rewrite String.list_ascii_of_string_of_list_ascii.
  rewrite <- list_fmap_compose. induction Hbs as [|c bs Hc _ IH]; csimpl; [done|].
  rewrite IH. f_equal. by apply N_ascii_embedding.
Qed.

Lemma ParseInt_printed z :
  - 2 ^ 63 ≤ z ≤ 2 ^ 63 - 1 → ParseInt (bytes_of (string_of (Sprintf_d z))) = inl z.
Proof.
  intros Hz. rewrite bytes_of_string_of; [by apply ParseInt_Sprintf|]. unfold Sprintf_d.
  destruct (z <? 0); [constructor; [done|]|]; apply writeNum_ascii.
Qed.

Definition int64 (z : Z) : Prop := - 2 ^ 63 ≤ z ≤ 2 ^ 63 - 1.
#[export] Instance int64_dec z : Decision (int64 z).
Proof. unfold int64. apply _. Defined.

Section FlagLemmas.
Context {L : Type} (lib : FlagSet L).

(** Imported packages do not declare the flags of this program. *)
Definition no_clash (names : list string) : Prop := ∀ name, name ∈ names → formal lib !! name = None.

Definition webhookFlags : list string := ["port"; "cert-file"; "key-file"].
Definition defaults : Vars := mkVars 8443 "/etc/webhook/certs/tls.crt" "/etc/webhook/certs/tls.key".

Lemma declareFlags_ok :
  no_clash webhookFlags →
  declareFlags lib = Some (mkFlagSet
    (<["key-file" := mkFlag false (λ v s, Some (set_keyFile v s))]>
     (<["cert-file" := mkFlag false (λ v s, Some (set_certFile v s))]>
      (<["port" := mkFlag false (setInt set_port)]> (lift_flag <$> formal lib)))) (defaults, vars lib)).
Proof.
  intros Hnc. unfold declareFlags, IntVar, StringVar, Var. simpl.
  rewrite lookup_fmap, Hnc by set_solver. simpl.
  rewrite lookup_insert_ne, lookup_fmap, Hnc by (done || set_solver). simpl.
  rewrite !lookup_insert_ne, lookup_fmap, Hnc by (done || set_solver). done.
Qed.

Hypothesis Hnc : no_clash webhookFlags.

(** The flags, one by one. *)
Definition theFlags : gmap string (Flag (Vars * L)) := default ∅ (formal <$> declareFlags lib).

Lemma theFlags_port : theFlags !! "port" = Some (mkFlag false (setInt set_port)).
Proof. unfold theFlags. rewrite declareFlags_ok by done. simpl. by rewrite (lookup_insert_ne _ "key-file"), (lookup_insert_ne _ "cert-file"), lookup_insert_eq. Qed.
Lemma theFlags_cert : theFlags !! "cert-file" = Some (mkFlag false (λ v s, Some (set_certFile v s))).
Proof. unfold theFlags. rewrite declareFlags_ok by done. simpl. by rewrite lookup_insert_ne, lookup_insert_eq. Qed.
Lemma theFlags_key : theFlags !! "key-file" = Some (mkFlag false (λ v s, Some (set_keyFile v s))).
Proof. unfold theFlags. rewrite declareFlags_ok by done. simpl. by rewrite lookup_insert_eq. Qed.

Lemma init_parse args :
  init lib args = match parseArgs theFlags (defaults, vars lib) args with
                  | inl (s, _) => Booted s.1
                  | inr e => Exit (exitCode e)
                  end.
Proof. unfold init, theFlags, Parse. by rewrite declareFlags_ok. Qed.

Lemma setInt_port v (s : Vars * L) :
  setInt set_port v s =
  match integer (bytes_of v) with
  | Some z => if decide (int64 z) then Some (set_port z s) else None
  | None => None
  end.
Proof.
  unfold setInt. destruct (ParseInt (bytes_of v)) as [z|e] eqn:Hp.
  - apply ParseInt_spec in Hp as [-> Hz]. by rewrite decide_True.
  - destruct (integer (bytes_of v)) as [z|] eqn:Hi; [|done]. rewrite decide_False; [done|].
    intros Hz. rewrite (proj2 (ParseInt_spec (bytes_of v) z)) in Hp; done.
Qed.
End FlagLemmas.

Section Properties.
Context {L : Type} (lib : FlagSet L).

(** C35: the command line carries the configuration. Whatever the port (a 64-bit
    integer) and the file names are, and whether each setting is spelled with one
    dash or two and with an equals sign or as two arguments, the process starts with
    exactly that configuration. *)
Theorem flags_roundtrip sp1 sp2 sp3 v :
  no_clash lib webhookFlags → int64 (port v) →
  init lib (spell sp1 "port" (string_of (Sprintf_d (port v))) ++
    spell sp2 "cert-file" (certFile v) ++ spell sp3 "key-file" (keyFile v)) = Booted v.
Proof.
  intros Hnc Hp. rewrite init_parse by done.
  rewrite (parseArgs_spell _ _ _ "port" _ _ _ eq_refl (theFlags_port lib Hnc) eq_refl). simpl Set_.
  unfold setInt. rewrite ParseInt_printed by done.
  rewrite (parseArgs_spell _ _ _ "cert-file" _ _ _ eq_refl (theFlags_cert lib Hnc) eq_refl). simpl Set_.
  rewrite <- (app_nil_r (spell sp3 _ _)).
  rewrite (parseArgs_spell _ _ _ "key-file" _ _ _ eq_refl (theFlags_key lib Hnc) eq_refl). by destruct v.
Qed.

(** C34: the port is a 64-bit integer. The port flag accepts a text precisely when it
    denotes an integer of 64 bits, which is then the port; any other text makes the
    process exit with status 2. No command line whatsoever yields another port. *)
Theorem port_flag_bounds sp text :
  no_clash lib webhookFlags →
  init lib (spell sp "port" text) =
    match integer (bytes_of text) with
    | Some z => if decide (int64 z) then Booted (mkVars z (certFile defaults) (keyFile defaults)) else Exit 2
    | None => Exit 2
    end ∧
  (∀ args v, init lib args = Booted v → int64 (port v)).
Proof.
  intros Hnc. split.
  - rewrite init_parse by done. rewrite <- (app_nil_r (spell sp _ _)).
    rewrite (parseArgs_spell _ _ _ "port" _ _ _ eq_refl (theFlags_port lib Hnc) eq_refl). simpl Set_.
    rewrite setInt_port. destruct (integer (bytes_of text)) as [z|]; [|done]. by case_decide.
  - intros args v. rewrite init_parse by done.
    destruct (parseArgs _ _ args) as [[s rest]|e] eqn:Hp; [|done]. intros [= <-].
    eapply (parseArgs_invariant _ (λ s, int64 (port s.1))) in Hp; [done| |by vm_compute].
    intros name f w s1 s2 Hf Hset HP. unfold theFlags in Hf. rewrite declareFlags_ok in Hf by done. simpl in Hf.
    rewrite !lookup_insert_Some, lookup_fmap in Hf.
    destruct Hf as [[_ <-]|[_ [[_ <-]|[_ [[_ <-]|[_ Hf]]]]]]; simpl in Hset; [by simplify_eq..| |].
    + rewrite setInt_port in Hset. destruct (integer (bytes_of w)) as [z|]; [|done]. by case_decide; simplify_eq.
    + destruct (formal lib !! name); simplify_eq/=. destruct (Set_ _ w s1.2); by simplify_eq/=.
Qed.

(** What the webhook process serves. When the process gets to serve, its flags
    parsed, a cluster client was made and the certificate the flags name was loaded;
    it listens on the port of the flags with that certificate and TLS 1.2 or newer,
    hands /mutate to the admission handler for the DNS service of the environment,
    answers 200 OK on /health and 404 elsewhere. Otherwise it exits: with the status
    of the flag error, or with 1 when the client or the certificate is missing. *)
Theorem webhook_start_spec `{K8S : Kubernetes} m :
  no_clash lib webhookFlags →
  match start lib m with
  | Booted srv => ∃ v s, init lib (Args m) = Booted v ∧ NewServer (Getenv m) (Cluster m) = inl s ∧
      LoadX509KeyPair m (certFile v) (keyFile v) = None ∧
      srv_Addr srv = ":" +:+ string_of (Sprintf_d (port v)) ∧
      srv_Certificate srv = (certFile v, keyFile v) ∧ srv_MinVersion srv = VersionTLS12 ∧
      (∀ w r, r_Path r = "/mutate" → srv_Handler srv w r = ServeHTTP s w r) ∧
      (∀ r, r_Path r = "/health" → ∃ w, srv_Handler srv (newWriter false) r = Ret w ∧
        finish w = mkResponse 200 ∅ (bytes_of "OK")) ∧
      (∀ r, r_Path r ∉ ["/mutate"; "/health"] → ∃ w, srv_Handler srv (newWriter false) r = Ret w ∧
        res_status (finish w) = 404%nat)
  | Exit c =>
      (init lib (Args m) = Exit c ∧ (c = 0 ∨ c = 2)) ∨
      (c = 1 ∧ ∃ v, init lib (Args m) = Booted v ∧
        (is_Some (InClusterConfig (Cluster m)) ∨ is_Some (NewForConfig (Cluster m)) ∨
         is_Some (LoadX509KeyPair m (certFile v) (keyFile v))))
  | Panicked => False
  end.
Proof.
  intros Hnc. unfold start. destruct (init lib (Args m)) as [v|c|] eqn:Hi.
  - unfold newServer. destruct (NewServer (Getenv m) (Cluster m)) as [s|msg] eqn:Hs.
    + destruct (LoadX509KeyPair m (certFile v) (keyFile v)) as [e|] eqn:Hc.
      { right. split; [done|]. exists v. split; [done|]. rewrite Hc. by eauto. }
      exists v, s. split_and!; [done..| | |]; intros; cbn [srv_Handler pmux].
      * by rewrite bool_decide_true.
      * rewrite bool_decide_false, bool_decide_true by congruence. by eexists.
      * rewrite !bool_decide_false by set_solver. by eexists.
    + right. split; [done|]. exists v. split; [done|]. unfold NewServer in Hs.
      destruct (InClusterConfig _); [by eauto|]. destruct (NewForConfig _); [by eauto|done].
  - left. split; [done|]. rewrite init_parse in Hi by done.
    destruct (parseArgs _ _ _) as [[]|[]]; simplify_eq/=; auto.
  - rewrite init_parse in Hi by done. by destruct (parseArgs _ _ _) as [[]|[]].
Qed.
End Properties.

(** ** The end of the process *)

(** C36: the exit status of the webhook tells the truth. In every run: status 0 means
    that a signal asked for it and no connection is being served any more (each accepted
    one was answered, or ended without an answer by itself: client gone, timeout, failed
    handshake, handler panic, or nothing sent); status 1 means that serving failed or that
    a signal came and the shutdown failed. When serving fails nothing more is accepted,
    and until the process has exited for another reason, the step that makes it exit with
    status 1 is there to be taken. Once [Shutdown] is called the process exits within five
    seconds and a bounded number of steps, accepting nothing more. *)
Theorem webhook_exit_sound t0 es s :
  run webhook_policy es (webhook_initial t0) = Some s →
  (main_exits s = Some (ExitStatus 0) →
    l_cancelled s = true ∧ l_accepted s = l_answered s ∪ l_dropped s) ∧
  (main_exits s = Some (ExitStatus 1) → l_server s = ServeFailed ∨ l_cancelled s = true) ∧
  (l_server s = ServeFailed →
    (∀ es' s', run webhook_policy es' s = Some s' → l_server s' = ServeFailed ∧ l_accepted s' = l_accepted s) ∧
    (main_exits s = None →
      ∃ s', step webhook_policy Fatalf s = Some s' ∧ main_exits s' = Some (ExitStatus 1))) ∧
  (∀ s1 es' s', step webhook_policy Wake s = Some s1 → run webhook_policy es' s1 = Some s' →
    Z.of_nat (length es') ≤ 5000 + Z.of_nat (size (active s)) + 2 ∧ l_now s' ≤ l_now s + 5000 ∧
    l_accepted s' = l_accepted s ∧
    ((∀ e, step webhook_policy e s' = None) ↔ is_Some (main_exits s'))).
Proof.
  intros Hr.
  assert (Life webhook_policy s) as HL by (eapply run_Life; [done|done|apply initial_Life; by left]).
  unfold main_exits. split_and!.
  - destruct HL as [Ha _ Hw]. intros He. destruct (l_waiter s) as [| | |[]]; simplify_eq.
    destruct Hw as [Hc Hact]. split; [done|by apply drained_all].
  - destruct HL as [_ _ Hw]. intros He. destruct (l_waiter s) as [| | |[]]; simplify_eq; naive_solver.
  - intros Hf. split; [intros es' s'; by apply failed_stays|]. intros He. unfold step. rewrite Hf.
    destruct (l_waiter s) as [| | |[]]; simplify_eq; by eexists.
  - intros s1 es' s' Hwake Hr'.
    destruct (shutdown_bounds webhook_policy s s1 es' s' ltac:(done) HL Hwake Hr') as (Hlen & Hnow & Hacc & Hend).
    split_and!; [done..|]. rewrite Hend. split; [intros [c ->]; destruct c; by eexists|].
    intros [x Hx]. unfold stopped. destruct (l_waiter s') as [| | |c]; [done..|by exists c].
Qed.
