(* ===== verification/Slices.v ===== *)
(** * Slices that share arrays

    A Go slice is a view of an array: base, length and capacity. [append] writes
    into the array when the capacity allows it, and allocates a larger one
    otherwise; how much larger is up to the implementation. *)

From S2P Require Import Prelude.

(** How far [append] grows an array: from a capacity, for a length. *)
Class Growth := {
  grow : nat → nat → nat;
  grow_ge c n : n ≤ grow c n;
}.

Record slice := mkSlice { base : option nat; len : nat; cap : nat }.
Definition nil_slice : slice := mkSlice None 0 0.

(** The arrays in use, by address, with the cells written so far. *)
Record Arrays (A : Type) := mkArrays { cells : gmap nat (list A); next : nat }.
Arguments mkArrays {A}.
Arguments cells {A}.
Arguments next {A}.

Section Slices.
Context {A : Type} `{G : Growth}.
Implicit Types (st : Arrays A) (s t : slice) (x : A).

(** The elements of a slice. *)
Definition view st s : list A :=
  match base s with
  | None => []
  | Some a => take (len s) (default [] (cells st !! a))
  end.

(** Store a value at an index of an array. *)
Definition put (l : list A) (i : nat) x : list A := take i l ++ [x] ++ drop (S i) l.

Definition append st s x : Arrays A * slice :=
  match base s with
  | Some a =>
      if decide (len s < cap s) then
        (mkArrays (<[a := put (default [] (cells st !! a)) (len s) x]> (cells st)) (next st),
         mkSlice (Some a) (S (len s)) (cap s))
      else
        (mkArrays (<[next st := view st s ++ [x]]> (cells st)) (S (next st)),
         mkSlice (Some (next st)) (S (len s)) (grow (cap s) (S (len s))))
  | None =>
      (mkArrays (<[next st := [x]]> (cells st)) (S (next st)),
       mkSlice (Some (next st)) 1 (grow 0 1))
  end.

(** A slice lies within the cells of an array that exists. *)
Definition slice_wf st s : Prop :=
  match base s with
  | None => len s = 0 ∧ cap s = 0
  | Some a => a < next st ∧ ∃ l, cells st !! a = Some l ∧ len s ≤ length l ∧ len s ≤ cap s
  end.

Lemma nil_slice_wf st : slice_wf st nil_slice.
Proof. done. Qed.

Lemma view_nil st : view st nil_slice = [].
Proof. done. Qed.

Lemma length_view st s : slice_wf st s → length (view st s) = len s.
Proof.
  unfold slice_wf, view. destruct (base s) as [a|]; [|intros [-> _]; done].
  intros (_ & l & -> & Hl & _). simpl. rewrite length_take. lia.
Qed.

(** The new slice has the elements of the old one and the new element. *)
Lemma append_view st s x :
  slice_wf st s → view (append st s x).1 (append st s x).2 = view st s ++ [x].
Proof.
  intros Hwf. unfold append. destruct (base s) as [a|] eqn:Hb.
  - case_decide as Hcap; cbn [fst snd]; unfold view at 1; simpl; rewrite lookup_insert_eq; simpl.
    + unfold slice_wf in Hwf. rewrite Hb in Hwf. destruct Hwf as (_ & l & Hl & Hlen & _).
      unfold view. rewrite Hb, Hl. simpl. unfold put.
      rewrite take_app, take_take, length_take, !Nat.min_r, !Nat.min_l by lia.
      by replace (S (len s) - len s) with 1 by lia.
    + rewrite take_ge; [done|]. rewrite length_app, length_view by done. simpl. lia.
  - cbn [fst snd]. unfold view. simpl. rewrite Hb, lookup_insert_eq. done.
Qed.

Lemma append_wf st s x : slice_wf st s → slice_wf (append st s x).1 (append st s x).2.
Proof.
  intros Hwf. unfold append. destruct (base s) as [a|] eqn:Hb.
  - case_decide as Hcap; unfold slice_wf; cbn [fst snd]; simpl; rewrite lookup_insert_eq.
    + unfold slice_wf in Hwf. rewrite Hb in Hwf. destruct Hwf as (Ha & l & Hl & Hlen & _).
      split; [done|]. eexists; split; [done|]. rewrite Hl. unfold put. simpl.
      rewrite !length_app, length_take. simpl. lia.
    + split; [lia|]. eexists; split; [done|]. rewrite length_app, length_view by done. simpl.
      pose proof (grow_ge (cap s) (S (len s))). lia.
  - unfold slice_wf; simpl. rewrite lookup_insert_eq. pose proof (grow_ge 0 1).
    split; [lia|]. eexists; split; [done|]. simpl. lia.
Qed.

(** Another slice keeps its elements unless it shares the array and reaches past the
    end of the slice appended to while there is room. *)
Lemma append_frame st s t x :
  slice_wf st s → slice_wf st t →
  base s ≠ base t ∨ len t ≤ len s ∨ cap s ≤ len s →
  view (append st s x).1 t = view st t ∧ slice_wf (append st s x).1 t.
Proof.
  intros Hs Ht Hsep. unfold append.
  assert (∀ v, view (mkArrays (<[next st := v]> (cells st)) (S (next st))) t = view st t ∧
    slice_wf (mkArrays (<[next st := v]> (cells st)) (S (next st))) t) as Hfresh.
  { intros v. unfold view, slice_wf in *. destruct (base t) as [b|]; [|done]. simpl.
    destruct Ht as (Hb & l & Hl & ?). rewrite lookup_insert_ne by lia. rewrite Hl. split; [done|].
    split; [lia|]. by exists l. }
  destruct (base s) as [a|] eqn:Hb; [|apply Hfresh]. case_decide as Hcap; [|apply Hfresh].
  cbn [fst]. unfold view, slice_wf in *. rewrite Hb in Hs. destruct Hs as (Ha & l & Hl & Hlen & _).
  destruct (base t) as [b|]; [|done]. simpl. destruct (decide (a = b)) as [<-|Hab].
  - rewrite lookup_insert_eq, Hl. simpl. destruct Ht as (_ & l' & Hl' & Hlt & Hct). simplify_eq.
    destruct Hsep as [Hsep|[Hsep|Hsep]]; [done| |lia]. split.
    + unfold put. rewrite take_app_le by (rewrite length_take; lia). rewrite take_take. f_equal. lia.
    + split; [done|]. eexists; split; [done|]. unfold put. rewrite !length_app, length_take. simpl. lia.
  - rewrite lookup_insert_ne by done. split; [done|]. destruct Ht as (? & l' & ? & ?). split; [done|]. by exists l'.
Qed.
End Slices.
