(* ===== verification/ControllerMain.v ===== *)
(** * The controller's entry point (controller/cmd/main.go)

    [main] as a program in a small monad: its state holds the arrays behind slices,
    the objects it allocates and the calls it has made to controller-runtime; a call
    that returns an error makes the process exit. The answers to the calls are a
    parameter. [SetupWithManager] of both reconcilers is part of it. *)

From Stdlib Require Import Ascii.
From S2P Require Import Prelude Types PodIndex PolicyIndex BlocklistCache PolicyReconciler PodReconciler.
From S2P Require Import Strconv Flags WebhookMain Slices.

(** ** File names: [filepath.Join] *)
Module Filepath.

(** The elements between slashes. *)
Fixpoint split (cur : string) (s : string) : list string :=
  match s with
  | EmptyString => [cur]
  | String c s =>
      if bool_decide (c = "/"%char) then cur :: split "" s
      else split (cur +:+ String c "") s
  end.

Fixpoint joinWith (sep : string) (l : list string) : string :=
  match l with
  | [] => ""
  | [x] => x
  | x :: l => x +:+ sep +:+ joinWith sep l
  end.

(** [out] is the path so far, last element first. *)
Fixpoint clean (rooted : bool) (out : list string) (elems : list string) : list string :=
  match elems with
  | [] => out
  | e :: elems =>
      if bool_decide (e = "") || bool_decide (e = ".") then clean rooted out elems
      else if bool_decide (e = "..") then
        match out with
        | [] => clean rooted (if rooted then [] else [".."]) elems
        | top :: out' =>
            if bool_decide (top = "..") then clean rooted (".." :: out) elems
            else clean rooted out' elems
        end
      else clean rooted (e :: out) elems
  end.

Definition Clean (path : string) : string :=
  let rooted := match path with String c _ => bool_decide (c = "/"%char) | EmptyString => false end in
  let body := joinWith "/" (reverse (clean rooted [] (split "" path))) in
  let result := (if rooted then "/" else "") +:+ body in
  if str_empty result then "." else result.

Definition Join (dir name : string) : string :=
  match filter (λ e, e ≠ "") [dir; name] with
  | [] => ""
  | l => Clean (joinWith "/" l)
  end.

Example Join_1 : Join "/etc/certs/" "tls.crt" = "/etc/certs/tls.crt".
Proof. reflexivity. Qed.
Example Join_2 : Join "/../a/./b" "../tls.key" = "/a/tls.key".
Proof. reflexivity. Qed.
Example Join_3 : Join "certs" "" = "certs" ∧ Join "a/.." "../x" = "../x" ∧ Join "" "" = "".
Proof. by repeat split. Qed.
End Filepath.

(** ** Flags *)
Record Config := mkConfig {
  metricsAddr : string;
  metricsCertPath : string; metricsCertName : string; metricsCertKey : string;
  webhookCertPath : string; webhookCertName : string; webhookCertKey : string;
  enableLeaderElection : bool;
  probeAddr : string;
  apiAddr : string;
  secureMetrics : bool;
  enableHTTP2 : bool;
}.

Section Flags.
Context {L : Type}.

(** The writes the flags perform, one per variable. *)
Definition upd (f : Config → Config) (s : Config * L) : Config * L := (f s.1, s.2).
Definition set_metricsAddr (v : string) (s : Config) : Config :=
  let 'mkConfig _ b c d e f g h i j k l := s in mkConfig v b c d e f g h i j k l.
Definition set_metricsCertPath (v : string) (s : Config) : Config :=
  let 'mkConfig a _ c d e f g h i j k l := s in mkConfig a v c d e f g h i j k l.
Definition set_metricsCertName (v : string) (s : Config) : Config :=
  let 'mkConfig a b _ d e f g h i j k l := s in mkConfig a b v d e f g h i j k l.
Definition set_metricsCertKey (v : string) (s : Config) : Config :=
  let 'mkConfig a b c _ e f g h i j k l := s in mkConfig a b c v e f g h i j k l.
Definition set_webhookCertPath (v : string) (s : Config) : Config :=
  let 'mkConfig a b c d _ f g h i j k l := s in mkConfig a b c d v f g h i j k l.
Definition set_webhookCertName (v : string) (s : Config) : Config :=
  let 'mkConfig a b c d e _ g h i j k l := s in mkConfig a b c d e v g h i j k l.
Definition set_webhookCertKey (v : string) (s : Config) : Config :=
  let 'mkConfig a b c d e f _ h i j k l := s in mkConfig a b c d e f v h i j k l.
Definition set_enableLeaderElection (v : bool) (s : Config) : Config :=
  let 'mkConfig a b c d e f g _ i j k l := s in mkConfig a b c d e f g v i j k l.
Definition set_probeAddr (v : string) (s : Config) : Config :=
  let 'mkConfig a b c d e f g h _ j k l := s in mkConfig a b c d e f g h v j k l.
Definition set_apiAddr (v : string) (s : Config) : Config :=
  let 'mkConfig a b c d e f g h i _ k l := s in mkConfig a b c d e f g h i v k l.
Definition set_secureMetrics (v : bool) (s : Config) : Config :=
  let 'mkConfig a b c d e f g h i j _ l := s in mkConfig a b c d e f g h i j v l.
Definition set_enableHTTP2 (v : bool) (s : Config) : Config :=
  let 'mkConfig a b c d e f g h i j k _ := s in mkConfig a b c d e f g h i j k v.

Definition zeroConfig : Config := mkConfig "" "" "" "" "" "" "" false "" "" false false.

(** [opts.BindFlags(flag.CommandLine)]: the logger's flags, declared one by one. *)
Fixpoint BindFlags (zap : list (string * Flag L)) (fs : FlagSet (Config * L)) : option (FlagSet (Config * L)) :=
  match zap with
  | [] => Some fs
  | (name, f) :: zap => fs ← Var fs name (lift_flag f) id; BindFlags zap fs
  end.

Definition declareFlags (lib : FlagSet L) (zap : list (string * Flag L)) : option (FlagSet (Config * L)) :=
  fs ← StringVar (λ v, upd (set_metricsAddr v)) "metrics-bind-address" "0" (lift_flags zeroConfig lib);
  fs ← StringVar (λ v, upd (set_probeAddr v)) "health-probe-bind-address" ":8081" fs;
  fs ← StringVar (λ v, upd (set_apiAddr v)) "api-bind-address" ":5959" fs;
  fs ← BoolVar (λ v, upd (set_enableLeaderElection v)) "leader-elect" false fs;
  fs ← BoolVar (λ v, upd (set_secureMetrics v)) "metrics-secure" true fs;
  fs ← StringVar (λ v, upd (set_webhookCertPath v)) "webhook-cert-path" "" fs;
  fs ← StringVar (λ v, upd (set_webhookCertName v)) "webhook-cert-name" "tls.crt" fs;
  fs ← StringVar (λ v, upd (set_webhookCertKey v)) "webhook-cert-key" "tls.key" fs;
  fs ← StringVar (λ v, upd (set_metricsCertPath v)) "metrics-cert-path" "" fs;
  fs ← StringVar (λ v, upd (set_metricsCertName v)) "metrics-cert-name" "tls.crt" fs;
  fs ← StringVar (λ v, upd (set_metricsCertKey v)) "metrics-cert-key" "tls.key" fs;
  fs ← BoolVar (λ v, upd (set_enableHTTP2 v)) "enable-http2" false fs;
  BindFlags zap fs.

(** Declaring and parsing the flags. *)
Definition parseFlags (lib : FlagSet L) (zap : list (string * Flag L)) (args : list string) : boot Config :=
  match declareFlags lib zap with
  | None => Panicked
  | Some fs =>
      match Parse fs args with
      | inl (s, _) => Booted s.1
      | inr e => Exit (exitCode e)
      end
  end.
End Flags.

(** ** What main builds *)

(** Objects it allocates: the two indexes, and the cache with pointers to them. *)
Definition loc := nat.
Inductive object :=
  | ObjPodIndex (pi : PodIndex)
  | ObjPolicyIndex (pl : PolicyIndex)
  | ObjCache (bc : BlocklistCache loc loc).

(** Functions that edit a TLS configuration. *)
Inductive certificates := WebhookCerts (cert key : string) | MetricsCerts (cert key : string).
Inductive tlsOption := DisableHTTP2 | UseCertificates (w : certificates).

Record tlsConfig := mkTlsConfig { NextProtos : list string; GetCertificate : option certificates }.

Definition applyOption (c : tlsConfig) (o : tlsOption) : tlsConfig :=
  match o with
  | DisableHTTP2 => mkTlsConfig ["http/1.1"] (GetCertificate c)
  | UseCertificates w => mkTlsConfig (NextProtos c) (Some w)
  end.

Record metricsOptions := mkMetricsOptions {
  BindAddress : string;
  SecureServing : bool;
  MetricsTLSOpts : slice;
  FilterProvider : bool;       (* filters.WithAuthenticationAndAuthorization, or none *)
}.

Record managerOptions := mkManagerOptions {
  Metrics : metricsOptions;
  WebhookTLSOpts : slice;      (* of the webhook server *)
  HealthProbeBindAddress : string;
  LeaderElection : bool;
  LeaderElectionID : string;
}.

(** The reconcilers, by the pointers they hold. *)
Record DnsPolicyReconciler := mkDnsPolicyReconciler {
  rp_Index : loc; rp_BlocklistCache : loc; rp_Recorder : option string }.
Record PodReconciler := mkPodReconciler { rq_PodIndex : loc; rq_BlocklistCache : loc }.

Inductive reconciler := RPolicy (r : DnsPolicyReconciler) | RPod (r : PodReconciler).
Inductive watched := WatchDnsPolicy | WatchPod.

(** A controller: what it watches, the events it lets through, its name. *)
Record controller := mkController {
  c_For : watched;
  c_EventFilter : option (WatchEvent → bool);
  c_Named : string;
  c_Reconciler : reconciler;
}.

Inductive runnable :=
  | APIServerRunnable (cache : loc) (addr : string)
  | CertWatcherRunnable (w : certificates).

(** The calls to controller-runtime that can fail. *)
Inductive call :=
  | CertWatcherNew (w : certificates)
  | GetConfigOrDie
  | NewManager (o : managerOptions)
  | Complete (c : controller)
  | Add (r : runnable)
  | AddHealthzCheck (name : string)
  | AddReadyzCheck (name : string)
  | StartManager.

(** ** The monad of main *)
Record Process := mkProcess {
  p_arrays : Arrays tlsOption;
  p_heap : gmap loc object;
  p_next : loc;
  p_calls : list call;
}.
Definition newProcess : Process := mkProcess (mkArrays ∅ 0) ∅ 0 [].

(** A result, or the status the process exits with. *)
Definition M (A : Type) : Type := Process → Process * (A + Z).
#[export] Instance M_ret : MRet M := λ A a p, (p, inl a).
#[export] Instance M_bind : MBind M := λ A B k m p,
  match m p with
  | (p, inl a) => k a p
  | (p, inr code) => (p, inr code)
  end.

Section Main.
Context `{RO : RangeOrder} `{G : Growth}.

(** What controller-runtime answers a call, given the calls before it. *)
Variable answer : list call → call → option goerror.

(** A call, with [os.Exit(1)] on its error. *)
Definition perform (c : call) : M unit := λ p,
  (mkProcess (p_arrays p) (p_heap p) (p_next p) (p_calls p ++ [c]),
   match answer (p_calls p) c with None => inl tt | Some _ => inr 1%Z end).

Definition new (o : object) : M loc := λ p,
  (mkProcess (p_arrays p) (<[p_next p := o]> (p_heap p)) (S (p_next p)) (p_calls p), inl (p_next p)).

Definition appendOption (s : slice) (o : tlsOption) : M slice := λ p,
  let '(a, s) := append (p_arrays p) s o in
  (mkProcess a (p_heap p) (p_next p) (p_calls p), inl s).

(** [SetupWithManager] *)
Definition DnsPolicyReconciler_SetupWithManager (r : DnsPolicyReconciler) : M unit :=
  let r := mkDnsPolicyReconciler (rp_Index r) (rp_BlocklistCache r) (Some "dnspolicy-controller") in
  perform (Complete (mkController WatchDnsPolicy None "dnspolicy" (RPolicy r))).

Definition PodReconciler_SetupWithManager (r : PodReconciler) : M unit :=
  perform (Complete (mkController WatchPod (Some podEventFilter) "pod" (RPod r))).

(** The certificate of a server, when a directory is given. *)
Definition webhookCerts (c : Config) : certificates :=
  WebhookCerts (Filepath.Join (webhookCertPath c) (webhookCertName c))
    (Filepath.Join (webhookCertPath c) (webhookCertKey c)).
Definition metricsCerts (c : Config) : certificates :=
  MetricsCerts (Filepath.Join (metricsCertPath c) (metricsCertName c))
    (Filepath.Join (metricsCertPath c) (metricsCertKey c)).

(** From the options for TLS to the manager's options; the watchers that were made
    are returned too. *)
Definition serverOptions (c : Config) : M (managerOptions * option certificates * option certificates) :=
  tlsOpts ← (if negb (enableHTTP2 c) then appendOption nil_slice DisableHTTP2 else mret nil_slice);
  '(webhookTLSOpts, webhookCertWatcher) ←
    (if negb (str_empty (webhookCertPath c)) then
       perform (CertWatcherNew (webhookCerts c));;
       s ← appendOption tlsOpts (UseCertificates (webhookCerts c));
       mret (s, Some (webhookCerts c))
     else mret (tlsOpts, None));
  let filter := secureMetrics c in
  '(metricsTLSOpts, metricsCertWatcher) ←
    (if negb (str_empty (metricsCertPath c)) then
       perform (CertWatcherNew (metricsCerts c));;
       s ← appendOption tlsOpts (UseCertificates (metricsCerts c));
       mret (s, Some (metricsCerts c))
     else mret (tlsOpts, None));
  mret (mkManagerOptions
    (mkMetricsOptions (metricsAddr c) (secureMetrics c) metricsTLSOpts filter)
    webhookTLSOpts (probeAddr c) (enableLeaderElection c) "afd794be.dnspolicies.io",
    webhookCertWatcher, metricsCertWatcher).

(** Indexes, cache, reconcilers and the API server. *)
Definition wire (c : Config) : M unit :=
  podIndex ← new (ObjPodIndex NewPodIndex);
  policyIndex ← new (ObjPolicyIndex NewPolicyIndex);
  blocklistCache ← new (ObjCache (NewBlocklistCache podIndex policyIndex));
  DnsPolicyReconciler_SetupWithManager (mkDnsPolicyReconciler policyIndex blocklistCache None);;
  PodReconciler_SetupWithManager (mkPodReconciler podIndex blocklistCache);;
  perform (Add (APIServerRunnable blocklistCache (apiAddr c))).

Definition addWatcher (w : option certificates) : M unit :=
  match w with Some w => perform (Add (CertWatcherRunnable w)) | None => mret tt end.

(** [main] after the flags are parsed. *)
(** The health checks, and the start of the manager. *)
Definition startManager : M unit :=
  perform (AddHealthzCheck "healthz");;
  perform (AddReadyzCheck "readyz");;
  perform StartManager.

Definition main (c : Config) : M managerOptions :=
  '(opts, webhookCertWatcher, metricsCertWatcher) ← serverOptions c;
  perform GetConfigOrDie;;
  perform (NewManager opts);;
  wire c;;
  addWatcher metricsCertWatcher;;
  addWatcher webhookCertWatcher;;
  startManager;;
  mret opts.
End Main.

(** ** The sequence of calls *)

(** What a call is for. *)
Inductive stage :=
  | SCertificates (w : certificates) | SConfig | SManager | SController (name : string)
  | SAPIServer (addr : string) | SWatcher (w : certificates) | SHealthz (name : string)
  | SReadyz (name : string) | SStart.

Definition stageOf (c : call) : stage :=
  match c with
  | CertWatcherNew w => SCertificates w
  | GetConfigOrDie => SConfig
  | NewManager _ => SManager
  | Complete c => SController (c_Named c)
  | Add (APIServerRunnable _ addr) => SAPIServer addr
  | Add (CertWatcherRunnable w) => SWatcher w
  | AddHealthzCheck n => SHealthz n
  | AddReadyzCheck n => SReadyz n
  | StartManager => SStart
  end.

Definition when (b : bool) (s : stage) : list stage := if b then [s] else [].
Definition given (path : string) : bool := negb (str_empty path).

(** Everything before the start of the manager. *)
Definition setup (c : Config) : list stage :=
  when (given (webhookCertPath c)) (SCertificates (webhookCerts c)) ++
  when (given (metricsCertPath c)) (SCertificates (metricsCerts c)) ++
  [SConfig; SManager; SController "dnspolicy"; SController "pod"; SAPIServer (apiAddr c)] ++
  when (given (metricsCertPath c)) (SWatcher (metricsCerts c)) ++
  when (given (webhookCertPath c)) (SWatcher (webhookCerts c)) ++
  [SHealthz "healthz"; SReadyz "readyz"].

Definition plan (c : Config) : list stage := setup c ++ [SStart].

Lemma setup_no_start c : SStart ∉ setup c.
Proof.
  unfold setup, when. destruct (given (webhookCertPath c)), (given (metricsCertPath c)); set_solver.
Qed.

Lemma start_is_last c tr pre post :
  (stageOf <$> tr) `prefix_of` plan c → tr = pre ++ StartManager :: post → post = [] ∧ stageOf <$> pre = setup c.
Proof.
  intros [k Hk] ->. unfold plan in Hk. rewrite fmap_app, fmap_cons in Hk. simpl in Hk.
  assert (∀ (l1 l2 l3 : list stage), SStart ∉ l1 → l1 ++ [SStart] = l2 ++ SStart :: l3 → l3 = [] ∧ l2 = l1) as Hgen.
  { induction l1 as [|x l1 IH]; intros [|y l2] l3 Hn Heq; simplify_eq/=; [done| | |].
    - by destruct l2.
    - set_solver.
    - destruct (IH l2 l3) as [-> ->]; [set_solver|done|done]. }
  rewrite <- (assoc_L (++)) in Hk. apply Hgen in Hk as [Hpost Hpre]; [|apply setup_no_start].
  split; [|done]. by destruct post.
Qed.
Section Calls.
Context `{RO : RangeOrder} `{G : Growth}.
Variable answer : list call → call → option goerror.

(** Every call of a sequence succeeds, after the calls [h]; the last one fails. *)
Fixpoint succeeded (h tr : list call) : Prop :=
  match tr with
  | [] => True
  | c :: tr => answer h c = None ∧ succeeded (h ++ [c]) tr
  end.
Definition failed (h tr : list call) : Prop :=
  ∃ pre c err, tr = pre ++ [c] ∧ succeeded h pre ∧ answer (h ++ pre) c = Some err.

Lemma succeeded_app h tr1 tr2 : succeeded h (tr1 ++ tr2) ↔ succeeded h tr1 ∧ succeeded (h ++ tr1) tr2.
Proof.
  revert h. induction tr1 as [|c tr1 IH]; intros h; simpl; [rewrite app_nil_r; naive_solver|].
  rewrite IH, <- (assoc_L (++)). simpl. naive_solver.
Qed.

(** [m] makes the calls [ss] in this order and ends with a value that satisfies [P],
    or stops with status 1 after the first that fails. *)
Definition Runs {A} (m : M A) (ss : list stage) (P : A → Prop) : Prop :=
  ∀ p, ∃ tr, p_calls (m p).1 = p_calls p ++ tr ∧
    match (m p).2 with
    | inl a => P a ∧ stageOf <$> tr = ss ∧ succeeded (p_calls p) tr
    | inr code => code = 1%Z ∧ (stageOf <$> tr) `prefix_of` ss ∧ failed (p_calls p) tr
    end.

Lemma Runs_ret {A} (a : A) (P : A → Prop) : P a → Runs (mret a) [] P.
Proof. intros HP p. exists []. by rewrite app_nil_r. Qed.

Lemma Runs_perform c : Runs (perform answer c) [stageOf c] (λ _, True).
Proof.
  intros p. exists [c]. split; [done|]. unfold perform; simpl. destruct (answer (p_calls p) c) as [err|] eqn:Ha.
  - split_and!; [done..|]. exists [], c, err. by rewrite app_nil_r.
  - done.
Qed.

Lemma Runs_new o : Runs (new o) [] (λ _, True).
Proof. intros p. exists []. by rewrite app_nil_r. Qed.

Lemma Runs_append s o : Runs (appendOption s o) [] (λ _, True).
Proof. intros p. exists []. unfold appendOption. destruct (append _ s o). by rewrite app_nil_r. Qed.

Lemma Runs_bind {A B} (m : M A) (k : A → M B) ss1 ss2 P Q :
  Runs m ss1 P → (∀ a, P a → Runs (k a) ss2 Q) → Runs (m ≫= k) (ss1 ++ ss2) Q.
Proof.
  intros Hm Hk p. destruct (Hm p) as (tr1 & Hc1 & Hr1). unfold mbind, M_bind.
  destruct (m p) as [p1 [a|code]]; simpl in *.
  - destruct Hr1 as (Ha & Hs1 & Hok1). destruct (Hk a Ha p1) as (tr2 & Hc2 & Hr2).
    exists (tr1 ++ tr2). split; [by rewrite Hc2, Hc1, (assoc_L (++))|]. rewrite Hc1 in Hr2.
    destruct (k a p1) as [p2 [b|code]]; simpl in *; rewrite fmap_app, Hs1.
    + destruct Hr2 as (Hb & -> & Hok2). split_and!; [done..|]. by apply succeeded_app.
    + destruct Hr2 as (-> & Hpre & (pre & c & err & -> & Hok2 & Herr)).
      split_and!; [done|by apply prefix_app|]. exists (tr1 ++ pre), c, err.
      rewrite (assoc_L (++)). split_and!; [done|by apply succeeded_app|]. by rewrite (assoc_L (++)).
  - exists tr1. destruct Hr1 as (-> & Hpre & Hf). split_and!; [done..| |done].
    by apply prefix_app_r.
Qed.

Lemma Runs_unit {B} c (k : unit → M B) ss Q :
  Runs (k tt) ss Q → Runs (perform answer c ≫= k) (stageOf c :: ss) Q.
Proof.
  intros Hk. apply (Runs_bind _ _ [stageOf c] ss (λ _, True)); [apply Runs_perform|]. by intros [] _.
Qed.

Lemma Runs_watcher_made path mk s :
  Runs (if negb (str_empty path) then
          perform answer (CertWatcherNew mk);;
          s ← appendOption s (UseCertificates mk); mret (s, Some mk)
        else mret (s, None)) (when (given path) (SCertificates mk))
    (λ r, r.2 = if given path then Some mk else None).
Proof.
  unfold given. destruct (negb (str_empty path)); [|by apply Runs_ret].
  apply (Runs_unit (CertWatcherNew mk) _ []). apply (Runs_bind _ _ [] [] (λ _, True)); [apply Runs_append|].
  intros s' _. by apply Runs_ret.
Qed.

Lemma Runs_serverOptions c :
  Runs (serverOptions answer c)
    (when (given (webhookCertPath c)) (SCertificates (webhookCerts c)) ++
     when (given (metricsCertPath c)) (SCertificates (metricsCerts c)))
    (λ r, r.1.2 = (if given (webhookCertPath c) then Some (webhookCerts c) else None) ∧
          r.2 = if given (metricsCertPath c) then Some (metricsCerts c) else None).
Proof.
  unfold serverOptions. apply (Runs_bind _ _ [] _ (λ _, True)).
  { destruct (negb (enableHTTP2 c)); [apply Runs_append|by apply Runs_ret]. }
  intros tlsOpts _. eapply Runs_bind; [apply Runs_watcher_made|]. intros [ws ww] Hw; simpl in Hw.
  rewrite <- (app_nil_r (when (given (metricsCertPath c)) _)).
  eapply Runs_bind; [apply Runs_watcher_made|]. intros [ms mw] Hm; simpl in Hm. by apply Runs_ret.
Qed.

Lemma Runs_addWatcher path w :
  Runs (addWatcher answer (if given path then Some w else None)) (when (given path) (SWatcher w)) (λ _, True).
Proof. destruct (given path); [apply Runs_perform|by apply Runs_ret]. Qed.

Lemma Runs_wire c :
  Runs (wire answer c) [SController "dnspolicy"; SController "pod"; SAPIServer (apiAddr c)] (λ _, True).
Proof.
  unfold wire. do 3 (apply (Runs_bind _ _ [] _ (λ _, True)); [apply Runs_new|]; intros ? _).
  do 2 apply Runs_unit. apply Runs_perform.
Qed.

Lemma Runs_startManager : Runs (startManager answer) [SHealthz "healthz"; SReadyz "readyz"; SStart] (λ _, True).
Proof. unfold startManager. do 2 apply Runs_unit. apply Runs_perform. Qed.

Lemma Runs_main c : Runs (main answer c) (plan c) (λ _, True).
Proof.
  unfold main, plan, setup. rewrite <- !(assoc_L (++)), (assoc_L (++)). eapply Runs_bind; [apply Runs_serverOptions|].
  intros [[opts w] m] [Hw Hm]; simpl in Hw, Hm. subst w m. simpl app. do 2 apply Runs_unit.
  apply (Runs_bind _ _ [_; _; _] _ (λ _, True)); [apply Runs_wire|]. intros [] _.
  eapply Runs_bind; [apply Runs_addWatcher|]. intros [] _.
  eapply Runs_bind; [apply Runs_addWatcher|]. intros [] _.
  apply (Runs_bind _ _ [_; _; _] [] (λ _, True)); [apply Runs_startManager|]. intros [] _. by apply Runs_ret.
Qed.

End Calls.

(** ** Properties *)

(** A process none of whose calls fails returns. *)
Lemma main_returns `{RO : RangeOrder} `{G : Growth} answer c :
  (∀ h k, answer h k = None) → ∃ opts, (main answer c newProcess).2 = inl opts.
Proof.
  intros Hok. destruct (Runs_main answer c newProcess) as (tr & _ & Hr).
  destruct (main answer c newProcess).2 as [opts|code]; [by exists opts|].
  destruct Hr as (_ & _ & pre & k & err & _ & _ & Hk). by rewrite Hok in Hk.
Qed.

(** *** Values along a run that returns *)

Lemma bind_inl {A B} (m : M A) (k : A → M B) p p' b :
  (m ≫= k) p = (p', inl b) → ∃ p1 a, m p = (p1, inl a) ∧ k a p1 = (p', inl b).
Proof. unfold mbind, M_bind. destruct (m p) as [p1 [a|code]]; [|done]. by exists p1, a. Qed.

Lemma perform_inl answer c p p' u :
  perform answer c p = (p', inl u) →
  p' = mkProcess (p_arrays p) (p_heap p) (p_next p) (p_calls p ++ [c]).
Proof. unfold perform. by intros [= <- _]. Qed.

(** Follow a run: one hypothesis per call, allocation or value. *)
Ltac run_inv :=
  repeat match goal with
  | H : (_ ≫= _) _ = (_, inl _) |- _ =>
      let p := fresh "p" in let a := fresh "a" in apply bind_inl in H as (p & a & ? & H)
  | H : perform _ _ _ = (_, inl _) |- _ => apply perform_inl in H; subst
  | H : mret _ _ = (_, inl _) |- _ => injection H as ?; subst
  | H : new _ _ = (_, inl _) |- _ => injection H as ?; subst
  | H : (match ?a with pair _ _ => _ end) _ = (_, inl _) |- _ => destruct a
  end.

Section Properties.
Context `{RO : RangeOrder} `{G : Growth}.
Variable answer : list call → call → option goerror.

(** C33: the controller starts its manager exactly when everything before succeeded.
    The calls to controller-runtime follow the plan that the configuration
    determines. [main] returns normally if and only if every call of the plan was
    made and succeeded; otherwise it exits with status 1 right after the first call
    that failed. The manager is only ever started as the last call, after all the
    others have succeeded. *)
Theorem controller_main_spec c :
  let '(p, r) := main answer c newProcess in
  (stageOf <$> p_calls p) `prefix_of` plan c ∧
  match r with
  | inl _ => stageOf <$> p_calls p = plan c ∧ succeeded answer [] (p_calls p)
  | inr code => code = 1%Z ∧ failed answer [] (p_calls p)
  end ∧
  (∀ pre post, p_calls p = pre ++ StartManager :: post →
    post = [] ∧ stageOf <$> pre = setup c ∧ succeeded answer [] pre).
Proof.
  destruct (Runs_main answer c newProcess) as (tr & Hc & Hr).
  destruct (main answer c newProcess) as [p r]; simpl in *. subst tr.
  assert ((stageOf <$> p_calls p) `prefix_of` plan c) as Hpre.
  { destruct r; [destruct Hr as (_ & -> & _)|destruct Hr as (_ & ? & _)]; done. }
  split_and!; [done| |].
  - destruct r; naive_solver.
  - intros pre post Hsplit. destruct (start_is_last c _ _ _ Hpre Hsplit) as [-> Hs]. split_and!; [done..|].
    destruct r as [opts|code]; destruct Hr as (_ & _ & Hok).
    + rewrite Hsplit in Hok. by apply (succeeded_app answer [] pre [StartManager]) in Hok as [? _].
    + destruct Hok as (pre' & c' & err & Heq & Hok & _). rewrite Hsplit in Heq.
      by apply app_inj_tail in Heq as [-> _].
Qed.

(** The objects and calls of [wire], for a process whose next address is [q]. *)
Definition wiredHeap (q : loc) (h : gmap loc object) : gmap loc object :=
  <[S (S q) := ObjCache (NewBlocklistCache q (S q))]>
    (<[S q := ObjPolicyIndex NewPolicyIndex]> (<[q := ObjPodIndex NewPodIndex]> h)).

Definition policyController (index cache : loc) : controller :=
  mkController WatchDnsPolicy None "dnspolicy"
    (RPolicy (mkDnsPolicyReconciler index cache (Some "dnspolicy-controller"))).
Definition podController (index cache : loc) : controller :=
  mkController WatchPod (Some podEventFilter) "pod" (RPod (mkPodReconciler index cache)).

Lemma wire_inl c p p' u :
  wire answer c p = (p', inl u) →
  let q := p_next p in
  p' = mkProcess (p_arrays p) (wiredHeap q (p_heap p)) (S (S (S q))) (p_calls p ++
    [Complete (policyController (S q) (S (S q))); Complete (podController q (S (S q)));
     Add (APIServerRunnable (S (S q)) (apiAddr c))]).
Proof.
  unfold wire, DnsPolicyReconciler_SetupWithManager, PodReconciler_SetupWithManager. intros H. run_inv. simpl.
  by rewrite <- !(assoc_L (++)).
Qed.

Lemma addWatcher_inl w p p' u :
  addWatcher answer w p = (p', inl u) →
  p' = mkProcess (p_arrays p) (p_heap p) (p_next p)
    (p_calls p ++ match w with Some w => [Add (CertWatcherRunnable w)] | None => [] end).
Proof.
  destruct w; simpl; intros H; run_inv; [done|]. rewrite app_nil_r. by destruct p'.
Qed.

(** Before the manager exists nothing is allocated and only certificates are read. *)
Lemma watcher_made_inl path mk s p p' s' w :
  (if negb (str_empty path) then
     perform answer (CertWatcherNew mk);;
     s ← appendOption s (UseCertificates mk); mret (s, Some mk)
   else mret (s, None)) p = (p', inl (s', w)) →
  p_heap p' = p_heap p ∧ p_next p' = p_next p ∧
  (given path = false ∧ p_arrays p' = p_arrays p ∧ s' = s ∧ p_calls p' = p_calls p ∨
   given path = true ∧ (p_arrays p', s') = append (p_arrays p) s (UseCertificates mk) ∧
     p_calls p' = p_calls p ++ [CertWatcherNew mk]).
Proof.
  unfold given. destruct (negb (str_empty path)); intros H; run_inv.
  - unfold appendOption in *. simpl in *. destruct (append (p_arrays p) s _) as [arr s1] eqn:Ha.
    simplify_eq/=. split_and!; [done..|]. by right.
  - simplify_eq. split_and!; [done..|]. by left.
Qed.

(** The options both servers get, and the certificate of one of them. *)
Definition http1 (c : Config) : list tlsOption := if enableHTTP2 c then [] else [DisableHTTP2].
Definition ownCert (path : string) (w : certificates) : list tlsOption :=
  if given path then [UseCertificates w] else [].

(** Whether the second append writes over the element of the first. *)
Definition overlap (c : Config) : bool :=
  negb (enableHTTP2 c) && given (metricsCertPath c) && bool_decide (1 < grow 0 1).

Lemma serverOptions_inl c p opts w m :
  serverOptions answer c newProcess = (p, inl (opts, w, m)) →
  p_heap p = ∅ ∧ p_next p = 0 ∧ Forall (λ k, ∃ w, k = CertWatcherNew w) (p_calls p) ∧
  view (p_arrays p) (WebhookTLSOpts opts) =
    http1 c ++ ownCert (webhookCertPath c) (if overlap c then metricsCerts c else webhookCerts c) ∧
  view (p_arrays p) (MetricsTLSOpts (Metrics opts)) = http1 c ++ ownCert (metricsCertPath c) (metricsCerts c).
Proof.
  unfold serverOptions. intros H. run_inv.
  match goal with
  | H0 : _ newProcess = (?q0, inl ?s0), Hw : _ ?q0 = (?q1, inl (_, _)), Hm : _ ?q1 = (_, inl (_, _)) |- _ =>
      rename H0 into Htls; apply watcher_made_inl in Hw as (Hh1 & Hn1 & HW);
      apply watcher_made_inl in Hm as (Hh2 & Hn2 & HM); rename q0 into p0; rename s0 into tls
  end.
  assert (p_heap p0 = ∅ ∧ p_next p0 = 0 ∧ p_calls p0 = [] ∧
    (enableHTTP2 c = true ∧ tls = nil_slice ∧ p_arrays p0 = mkArrays ∅ 0 ∨
     enableHTTP2 c = false ∧ tls = mkSlice (Some 0) 1 (grow 0 1) ∧ p_arrays p0 = mkArrays {[0 := [DisableHTTP2]]} 1))
    as (Hh0 & Hn0 & Hc0 & Htls0).
  { destruct (enableHTTP2 c); simpl in Htls; injection Htls as <- <-; split_and!; try done; auto. }
  clear Htls. simpl. rewrite Hh2, Hh1, Hn2, Hn1. split; [done|]. split; [done|]. split.
  - destruct HW as [(_ & _ & _ & Hc1)|(_ & _ & Hc1)], HM as [(_ & _ & _ & Hc2)|(_ & _ & Hc2)];
      rewrite Hc2, Hc1, Hc0; repeat constructor; by eexists.
  - unfold http1, ownCert, overlap.
    destruct HW as [(Hg1 & Ha1 & Hs1 & _)|(Hg1 & Ha1 & _)], HM as [(Hg2 & Ha2 & Hs2 & _)|(Hg2 & Ha2 & _)],
      Htls0 as [(He & Ht & Ha0)|(He & Ht & Ha0)]; subst; rewrite ?Hg1, ?Hg2, ?He; rewrite ?Ha1, ?Ha0 in *;
      unfold append in *; simpl in *; repeat case_decide; simplify_eq;
      rewrite ?bool_decide_true, ?bool_decide_false by lia;
      repeat match goal with H : p_arrays ?q = _ |- context [p_arrays ?q] => rewrite H end;
      unfold view; simpl; by simplify_map_eq.
Qed.
(** A run that returns: the options, then the wiring, then the rest. *)
Lemma main_inl c p opts :
  main answer c newProcess = (p, inl opts) →
  ∃ p1 w m, serverOptions answer c newProcess = (p1, inl (opts, w, m)) ∧
    p_arrays p = p_arrays p1 ∧ p_heap p = wiredHeap 0 ∅ ∧
    p_calls p = p_calls p1 ++ [GetConfigOrDie; NewManager opts;
      Complete (policyController 1 2); Complete (podController 0 2); Add (APIServerRunnable 2 (apiAddr c))] ++
      match m with Some w => [Add (CertWatcherRunnable w)] | None => [] end ++
      match w with Some w => [Add (CertWatcherRunnable w)] | None => [] end ++
      [AddHealthzCheck "healthz"; AddReadyzCheck "readyz"; StartManager].
Proof.
  unfold main, startManager. intros H. run_inv.
  repeat match goal with
  | H : wire _ _ _ = (_, inl _) |- _ => apply wire_inl in H
  | H : addWatcher _ _ _ = (_, inl _) |- _ => apply addWatcher_inl in H
  end. simplify_eq/=.
  match goal with H : serverOptions _ _ _ = (?q, inl (_, ?w, ?m)) |- _ =>
    exists q, w, m; split; [exact H|]; apply serverOptions_inl in H as (Hh & Hn & _) end.
  rewrite Hh, Hn. split_and!; [done..|]. by rewrite <- !(assoc_L (++)).
Qed.

(** The cache a pointer denotes, through its pointers to the indexes. *)
Definition deref (h : gmap loc object) (l : loc) : option Cache :=
  match h !! l with
  | Some (ObjCache bc) =>
      match h !! podIndex bc, h !! policyIndex bc with
      | Some (ObjPodIndex pi), Some (ObjPolicyIndex pl) => Some (mkCache pi pl (entries bc))
      | _, _ => None
      end
  | _ => None
  end.

(** The controllers and the API servers among the calls. *)
Definition controllers (calls : list call) : list controller :=
  omap (λ k, match k with Complete c => Some c | _ => None end) calls.
Definition apiServers (calls : list call) : list (loc * string) :=
  omap (λ k, match k with Add (APIServerRunnable l a) => Some (l, a) | _ => None end) calls.

(** C30: both reconcilers and the API server share one cache. When [main] returns, the
    manager runs exactly two controllers: one for DnsPolicy objects with all their
    events and a recorder, one for pods with the pod event filter; and one API server
    on the address of the flags. All three hold the same cache, the index of each
    reconciler is the one that cache reads, and the cache is initially empty. *)
Theorem controller_wiring c p opts :
  main answer c newProcess = (p, inl opts) →
  ∃ pods policies cache,
    controllers (p_calls p) = [policyController policies cache; podController pods cache] ∧
    apiServers (p_calls p) = [(cache, apiAddr c)] ∧
    p_heap p !! cache = Some (ObjCache (mkCache pods policies ∅)) ∧
    p_heap p !! pods = Some (ObjPodIndex NewPodIndex) ∧
    p_heap p !! policies = Some (ObjPolicyIndex NewPolicyIndex) ∧
    deref (p_heap p) cache = Some (NewBlocklistCache NewPodIndex NewPolicyIndex).
Proof.
  intros (p1 & w & m & Hopts & _ & Hh & Hc)%main_inl.
  apply serverOptions_inl in Hopts as (_ & _ & Hcalls & _). exists 0, 1, 2. rewrite Hh, Hc.
  unfold controllers, apiServers. rewrite !omap_app.
  assert (∀ {B} (f : call → option B), (∀ w, f (CertWatcherNew w) = None) → omap f (p_calls p1) = []) as Hnone.
  { intros B f Hf. clear Hc. induction Hcalls as [|k l [w' ->] _ IH]; simpl; [done|]. rewrite Hf. exact IH. }
  rewrite !Hnone by done. by destruct w, m.
Qed.

(** C37: each server gets its own TLS options. HTTP/2 is disabled for both servers
    unless the flag enables it, and each server uses its own certificate when a
    directory is given for it, and none otherwise. This relies on how far [append]
    grows a nil slice: beyond one element, the second append would write over the
    first and the webhook server would use the certificate of the metrics server. *)
Theorem tls_options_separate c p opts protos :
  main answer c newProcess = (p, inl opts) →
  let config s := foldl applyOption (mkTlsConfig protos None) (view (p_arrays p) s) in
  let webhook := config (WebhookTLSOpts opts) in
  let metrics := config (MetricsTLSOpts (Metrics opts)) in
  NextProtos webhook = (if enableHTTP2 c then protos else ["http/1.1"]) ∧
  NextProtos metrics = NextProtos webhook ∧
  GetCertificate metrics = (if given (metricsCertPath c) then Some (metricsCerts c) else None) ∧
  (grow 0 1 = 1 →
    GetCertificate webhook = if given (webhookCertPath c) then Some (webhookCerts c) else None) ∧
  (1 < grow 0 1 → enableHTTP2 c = false → given (webhookCertPath c) = true → given (metricsCertPath c) = true →
    GetCertificate webhook = Some (metricsCerts c)).
Proof.
  intros (p1 & w & m & Hopts & Harr & _ & _)%main_inl.
  apply serverOptions_inl in Hopts as (_ & _ & _ & Hw & Hm). simpl. rewrite Harr, Hw, Hm.
  unfold http1, ownCert, overlap.
  destruct (enableHTTP2 c), (given (webhookCertPath c)), (given (metricsCertPath c)); simpl;
    split_and!; try done; intros Hg; rewrite ?Hg; try done.
  by rewrite bool_decide_true.
Qed.
End Properties.

(** ** The command line *)

(** The process: flags, then main. *)
Definition controllerProcess {L} `{RangeOrder} `{Growth} (lib : FlagSet L) (zap : list (string * Flag L))
    (answer : list call → call → option goerror) (args : list string) : Process * boot managerOptions :=
  match parseFlags lib zap args with
  | Booted c =>
      let '(p, r) := main answer c newProcess in
      (p, match r with inl o => Booted o | inr code => Exit code end)
  | Exit code => (newProcess, Exit code)
  | Panicked => (newProcess, Panicked)
  end.

Lemma Var_inv {S} (fs fs' : FlagSet S) name f d :
  Var fs name f d = Some fs' →
  formal fs' !! name = Some f ∧ (∀ k g, formal fs !! k = Some g → formal fs' !! k = Some g) ∧
  (∀ k, k ≠ name → formal fs !! k = None → formal fs' !! k = None) ∧ vars fs' = d (vars fs).
Proof.
  unfold Var. destruct (formal fs !! name) eqn:Hn; [done|]. intros [= <-]; simpl. split_and!.
  - by rewrite lookup_insert_eq.
  - intros k g Hk. rewrite lookup_insert_ne; [done|]. congruence.
  - intros k Hne Hk. by rewrite lookup_insert_ne.
  - done.
Qed.

Lemma BindFlags_inv {L} zap (fs fs' : FlagSet (Config * L)) :
  BindFlags zap fs = Some fs' →
  (∀ k g, formal fs !! k = Some g → formal fs' !! k = Some g) ∧
  (∀ k, k ∉ zap.*1 → formal fs !! k = None → formal fs' !! k = None) ∧ vars fs' = vars fs.
Proof.
  revert fs. induction zap as [|[name f] zap IH]; simpl; intros fs H; [by simplify_eq|].
  apply bind_Some in H as (fs1 & (_ & Hk & Hn & Hv)%Var_inv & H). apply IH in H as (Hk' & Hn' & Hv').
  split_and!; [by auto| |by rewrite Hv', Hv]. intros k Hnin Hnone. apply Hn'; [set_solver|]. apply Hn; set_solver.
Qed.

(** The names of the flags main declares. *)
Definition flagNames : list string :=
  ["metrics-bind-address"; "health-probe-bind-address"; "api-bind-address"; "leader-elect"; "metrics-secure";
   "webhook-cert-path"; "webhook-cert-name"; "webhook-cert-key"; "metrics-cert-path"; "metrics-cert-name";
   "metrics-cert-key"; "enable-http2"].

Definition defaultConfig : Config :=
  mkConfig "0" "" "tls.crt" "tls.key" "" "tls.crt" "tls.key" false ":8081" ":5959" true false.

Section CommandLine.
Context {L : Type} (lib : FlagSet L) (zap : list (string * Flag L)).

(** What is declared, when declaring does not panic. *)
Record Declared (fs : FlagSet (Config * L)) : Prop := {
  decl_string name put : (name, put) ∈ [
      ("metrics-bind-address", set_metricsAddr); ("health-probe-bind-address", set_probeAddr);
      ("api-bind-address", set_apiAddr); ("webhook-cert-path", set_webhookCertPath);
      ("webhook-cert-name", set_webhookCertName); ("webhook-cert-key", set_webhookCertKey);
      ("metrics-cert-path", set_metricsCertPath); ("metrics-cert-name", set_metricsCertName);
      ("metrics-cert-key", set_metricsCertKey)] →
    formal fs !! name = Some (mkFlag false (λ v s, Some (upd (put v) s)));
  decl_bool name put : (name, put) ∈ [
      ("leader-elect", set_enableLeaderElection); ("metrics-secure", set_secureMetrics);
      ("enable-http2", set_enableHTTP2)] →
    formal fs !! name = Some (mkFlag true (λ v s, (λ b, upd (put b) s) <$> ParseBool v));
  decl_none name : name ∉ flagNames → name ∉ zap.*1 → formal lib !! name = None → formal fs !! name = None;
  decl_vars : vars fs = (defaultConfig, vars lib);
}.

Lemma declareFlags_Declared fs : declareFlags lib zap = Some fs → Declared fs.
Proof.
  unfold declareFlags, StringVar, BoolVar. intros H.
  repeat match goal with
  | H : _ ≫= _ = Some _ |- _ =>
      let fs := fresh "fs" in let E := fresh "E" in apply bind_Some in H as (fs & E & H);
      let f := fresh "F" in let k := fresh "K" in let n := fresh "N" in let v := fresh "V" in
      apply Var_inv in E as (f & k & n & v)
  end.
  apply BindFlags_inv in H as (K' & N' & V'). split.
  - intros name put Hin. repeat (apply elem_of_cons in Hin as [Hin|Hin]; [simplify_eq; auto 20|]). set_solver.
  - intros name put Hin. repeat (apply elem_of_cons in Hin as [Hin|Hin]; [simplify_eq; auto 20|]). set_solver.
  - intros name Hn Hz Hl. unfold flagNames in Hn. rewrite !not_elem_of_cons in Hn. destruct_and!.
    apply N'; [done|]. repeat match goal with N : ∀ k, _ → _ → formal ?fs !! k = None |- formal ?fs !! _ = None => apply N; [done|] end.
    simpl. by rewrite lookup_fmap, Hl.
  - rewrite V'. repeat match goal with V : vars ?fs = _ |- context [vars ?fs] => rewrite V end. done.
Qed.

(** A command line for a configuration; each setting may be spelled in any way. *)
Definition commandLine (sp : string → spelling) (c : Config) : list string :=
  let str name v := spell (sp name) name v in
  let boolean name b := spellBool true name b in
  str "metrics-bind-address" (metricsAddr c) ++ str "health-probe-bind-address" (probeAddr c) ++
  str "api-bind-address" (apiAddr c) ++ boolean "leader-elect" (enableLeaderElection c) ++
  boolean "metrics-secure" (secureMetrics c) ++ str "webhook-cert-path" (webhookCertPath c) ++
  str "webhook-cert-name" (webhookCertName c) ++ str "webhook-cert-key" (webhookCertKey c) ++
  str "metrics-cert-path" (metricsCertPath c) ++ str "metrics-cert-name" (metricsCertName c) ++
  str "metrics-cert-key" (metricsCertKey c) ++ boolean "enable-http2" (enableHTTP2 c) ++ [].

Lemma parse_string fs name put sp v s rest :
  goodName name = true → formal fs !! name = Some (mkFlag false (λ v s, Some (upd (L:=L) (put v) s))) →
  parseArgs (formal fs) s (spell sp name v ++ rest) = parseArgs (formal fs) (upd (put v) s) rest.
Proof. intros Hn Hf. by rewrite (parseArgs_spell _ _ _ _ _ _ _ Hn Hf eq_refl). Qed.

Lemma parse_boolean fs name put d b s rest :
  goodName name = true →
  formal fs !! name = Some (mkFlag true (λ v s, (λ b, upd (L:=L) (put b) s) <$> ParseBool v)) →
  parseArgs (formal fs) s (spellBool d name b ++ rest) = parseArgs (formal fs) (upd (put b) s) rest.
Proof. intros Hn Hf. rewrite (parseArgs_bool _ _ _ _ _ _ _ Hn Hf eq_refl). by destruct b. Qed.

(** The controller's command line carries its configuration. When declaring the
    flags does not panic, an empty command line gives the documented defaults and a
    command line that spells out a configuration gives exactly that configuration,
    for all values and spellings. *)
Theorem controller_flags_roundtrip sp c :
  is_Some (declareFlags lib zap) →
  parseFlags lib zap [] = Booted defaultConfig ∧ parseFlags lib zap (commandLine sp c) = Booted c.
Proof.
  intros [fs Hfs]. unfold parseFlags. rewrite Hfs. apply declareFlags_Declared in Hfs as [Hs Hb _ Hv].
  unfold Parse. rewrite Hv. split; [done|]. unfold commandLine.
  repeat first
    [ erewrite parse_string; [|reflexivity|apply Hs; by repeat constructor]
    | erewrite parse_boolean; [|reflexivity|apply Hb; by repeat constructor] ].
  by destruct c.
Qed.

(** Flags that nothing declares, such as those CHANGES.md names for the kube-dns
    certificates, end the process with status 2 before anything is set up. *)
Theorem undeclared_flag_exits `{RangeOrder} `{Growth} answer sp name value rest :
  is_Some (declareFlags lib zap) → goodName name = true → name ∉ ["help"; "h"] →
  name ∉ flagNames → name ∉ zap.*1 → formal lib !! name = None →
  controllerProcess lib zap answer (spell sp name value ++ rest) = (newProcess, Exit 2).
Proof.
  intros [fs Hfs] Hn Hh Hf Hz Hl. unfold controllerProcess, parseFlags. rewrite Hfs.
  apply declareFlags_Declared in Hfs as [_ _ Hnone Hv]. unfold Parse.
  by rewrite (parseArgs_undefined _ _ _ _ _ _ Hn (Hnone _ Hf Hz Hl) Hh).
Qed.
End CommandLine.
