(* ===== verification/Scheme.v ===== *)
(** * Registration of the API types (groupversion_info.go and the init functions)

    The runtime scheme maps kinds to Go types; the manager's client and the two
    controllers work only for kinds it knows. Schemes and the builder are
    controller-runtime's and apimachinery's, hence parameters with their documented
    behaviour; what is registered, and in which order, is the program's. *)

From S2P Require Import Prelude Types Webhook.

Record GroupVersion_ := mkGroupVersion { gv_Group : string; gv_Version : string }.
Record GroupVersionKind := mkGVK { gvk_GroupVersion : GroupVersion_; gvk_Kind : string }.

#[export] Instance GroupVersion_eq_dec : EqDecision GroupVersion_.
Proof. solve_decision. Defined.
#[export] Instance GroupVersionKind_eq_dec : EqDecision GroupVersionKind.
Proof. solve_decision. Defined.

(** [Register] collects objects, whose kind is the name of their type; [AddToScheme]
    makes a scheme recognize them next to what it knew. [clientgoscheme.AddToScheme]
    adds the built-in types, pods among them. *)
Class SchemeLib := {
  Scheme : Type;
  NewScheme : Scheme;
  Builder : Type;
  NewBuilder : GroupVersion_ → Builder;
  Register : Builder → list string → Builder;
  BuilderAddToScheme : Builder → Scheme → Scheme * option goerror;
  ClientgoAddToScheme : Scheme → Scheme * option goerror;
  Recognizes : Scheme → GroupVersionKind → bool;
  BuilderAddToScheme_spec gv kinds s s' k :
    BuilderAddToScheme (Register (NewBuilder gv) kinds) s = (s', None) →
    gvk_GroupVersion k = gv ∧ gvk_Kind k ∈ kinds ∨ Recognizes s k = true → Recognizes s' k = true;
  ClientgoAddToScheme_spec s s' :
    ClientgoAddToScheme s = (s', None) → Recognizes s' (mkGVK (mkGroupVersion "" "v1") "Pod") = true;
}.

Definition GroupVersion : GroupVersion_ := mkGroupVersion "dns.dnspolicies.io" "v1alpha1".

Section Scheme.
Context `{SL : SchemeLib}.

Definition SchemeBuilder : Builder := NewBuilder GroupVersion.

(** The package's init function registers its types with the builder. *)
Definition initTypes (b : Builder) : Builder := Register b ["DnsPolicy"; "DnsPolicyList"].

(** A method value of [SchemeBuilder], which init has filled by the time it is called. *)
Definition AddToScheme : Scheme → Scheme * option goerror := BuilderAddToScheme (initTypes SchemeBuilder).

(** [utilruntime.Must] panics on an error. *)
Definition Must {A} (r : A * option goerror) : outcome A :=
  match r with (a, None) => Ret a | (_, Some _) => Panic end.

(** init of the controller's main package *)
Definition initScheme : outcome Scheme :=
  match Must (ClientgoAddToScheme NewScheme) with
  | Panic => Panic
  | Ret scheme => Must (AddToScheme scheme)
  end.

(** The controller's main only runs with a scheme that knows every kind its
    controllers watch and list. *)
Lemma initScheme_recognizes scheme k :
  initScheme = Ret scheme →
  k ∈ [mkGVK GroupVersion "DnsPolicy"; mkGVK GroupVersion "DnsPolicyList"; mkGVK (mkGroupVersion "" "v1") "Pod"] →
  Recognizes scheme k = true.
Proof.
  unfold initScheme, AddToScheme, initTypes, SchemeBuilder.
  destruct (ClientgoAddToScheme NewScheme) as [s1 [err|]] eqn:H1; simpl; [done|].
  destruct (BuilderAddToScheme _ s1) as [s2 [err|]] eqn:H2; simpl; [done|]. intros [= <-] Hk.
  eapply BuilderAddToScheme_spec; [exact H2|]. apply ClientgoAddToScheme_spec in H1.
  rewrite !elem_of_cons in Hk. destruct Hk as [->|[->|[->|Hk]]]; [left|left|by right|by apply not_elem_of_nil in Hk];
    (split; [done|]); set_solver.
Qed.
End Scheme.

(** A scheme as the list of the kinds it knows. *)
Definition list_schemes : SchemeLib.
Proof.
  refine {|
    Scheme := list GroupVersionKind; NewScheme := [];
    Builder := GroupVersion_ * list string; NewBuilder gv := (gv, []); Register b l := (b.1, b.2 ++ l);
    BuilderAddToScheme b s := ((mkGVK b.1 <$> b.2) ++ s, None);
    ClientgoAddToScheme s := (mkGVK (mkGroupVersion "" "v1") "Pod" :: s, None);
    Recognizes s k := bool_decide (k ∈ s);
  |}.
  - intros gv kinds s s' [gv' kd] [= <-] Hk. apply bool_decide_eq_true, elem_of_app. simpl in *.
    destruct Hk as [[-> Hk]|Hk%bool_decide_eq_true]; [left; by apply list_elem_of_fmap_2|by right].
  - intros s s' [= <-]. apply bool_decide_eq_true. set_solver.
Defined.

Example initScheme_list :
  ∃ s, initScheme (SL:=list_schemes) = Ret s ∧
    Recognizes (SchemeLib:=list_schemes) s (mkGVK GroupVersion "DnsPolicyList") = true.
Proof. by eexists. Qed.
