(* ===== verification/MainExamples.v ===== *)
(** * The entry points on concrete inputs

    Command lines, a machine, runs of the two servers and a controller process, and
    instances of the properties of the entry points there. *)

From Stdlib Require Import Ascii.
From S2P Require Import Prelude Types PodIndex PolicyIndex BlocklistCache.
From S2P Require Import Json Http Webhook ServerExamples Strconv Flags Lifecycle WebhookMain Slices ControllerMain.

#[local] Open Scope Z_scope.

(** ** The webhook's command line *)

(** One imported package that declares a flag of its own. *)
Definition lib : FlagSet string :=
  mkFlagSet {["kubeconfig" := mkFlag false (λ v _, Some v)]} "".

Lemma lib_no_clash : no_clash lib webhookFlags.
Proof.
  intros name Hn. unfold webhookFlags in Hn. repeat (apply elem_of_cons in Hn as [->|Hn]; [reflexivity|]).
  by apply not_elem_of_nil in Hn.
Qed.

Definition vars_9443 : Vars := mkVars 9443 "/certs/a.crt" "".

Example command_line_9443 :
  spell (Spelling true true) "port" (string_of (Sprintf_d (port vars_9443))) ++
  spell (Spelling false false) "cert-file" (certFile vars_9443) ++ spell (Spelling true true) "key-file" "" =
  ["--port=9443"; "-cert-file"; "/certs/a.crt"; "--key-file="].
Proof. reflexivity. Qed.

Lemma flags_roundtrip_witness :
  init lib (spell (Spelling true true) "port" (string_of (Sprintf_d (port vars_9443))) ++
    spell (Spelling false false) "cert-file" (certFile vars_9443) ++
    spell (Spelling true true) "key-file" (keyFile vars_9443)) = Booted vars_9443.
Proof. apply flags_roundtrip; [exact lib_no_clash|decide_now]. Defined.

(** Octal, underscores, and one more than the largest 64-bit integer. *)
Lemma port_flag_bounds_witness :
  init lib (spell (Spelling true true) "port" "0o1_7") = Booted (mkVars 15 (certFile defaults) (keyFile defaults)) ∧
  init lib (spell (Spelling true true) "port" "9223372036854775808") = Exit 2.
Proof.
  split.
  - rewrite (proj1 (port_flag_bounds lib (Spelling true true) "0o1_7" lib_no_clash)). reflexivity.
  - rewrite (proj1 (port_flag_bounds lib (Spelling true true) "9223372036854775808" lib_no_clash)). reflexivity.
Defined.

(** ** The webhook process *)
#[local] Existing Instance small_kubernetes.
Definition machine : Machine :=
  mkMachine ["--port=9443"] (λ _, "") in_cluster (λ cert _, if decide (cert = "") then Some (Errorf "no file") else None).

Lemma webhook_start_spec_witness :
  match start lib machine with
  | Booted srv => srv_Addr srv = ":9443" ∧ ∃ w, srv_Handler srv (newWriter false) (mkRequest "GET" "/health" "" ∅ None) = Ret w
  | _ => False
  end.
Proof.
  pose proof (webhook_start_spec lib machine lib_no_clash) as Hspec.
  destruct (start lib machine) as [srv|c|] eqn:Hs; [|discriminate Hs|discriminate Hs].
  destruct Hspec as (v & s & Hi & _ & _ & Ha & _ & _ & _ & Hh & _).
  split; [by injection Hi as <-|].
  destruct (Hh (mkRequest "GET" "/health" "" ∅ None) eq_refl) as (w & Hw & _). by exists w.
Defined.

(** A run of the webhook: one request that is answered, one whose handler panics, a
    signal, and a clean exit. *)
Definition webhook_events : list event :=
  [Notify; Listen true; Accept 1; Accept 2; Cancel; Wake; Answer 1; Drop 2; ServeReturns; ShutdownDone true].
Definition webhook_end : State := default (webhook_initial 0) (run webhook_policy webhook_events (webhook_initial 0)).

Lemma webhook_exit_sound_witness :
  main_exits webhook_end = Some (ExitStatus 0) ∧
  l_accepted webhook_end = l_answered webhook_end ∪ l_dropped webhook_end.
Proof.
  assert (main_exits webhook_end = Some (ExitStatus 0)) as He by (vm_compute; reflexivity).
  split; [exact He|]. apply (webhook_exit_sound 0 webhook_events webhook_end); [vm_compute; reflexivity|exact He].
Defined.

(** A signal that arrives when serving has failed, and the goroutine has not reported it
    yet, can still end the process with status 0. *)
Example failed_serving_exits_zero :
  main_exits <$> run webhook_policy [Notify; Listen false; Cancel; Wake; ShutdownDone true] (webhook_initial 0) =
  Some (Some (ExitStatus 0)).
Proof. vm_compute. reflexivity. Qed.

(** ** Runs of the API server *)
Definition api_events : list event := [Listen true; Accept 1; Tick; Cancel].
Definition api_waiting : State := default (api_initial 0) (run api_policy api_events (api_initial 0)).
Definition api_stopping : State := default api_waiting (step api_policy Wake api_waiting).
Definition api_stopped : State :=
  default api_stopping (run api_policy [Answer 1; Tick; ShutdownDone true] api_stopping).

Lemma start_shutdown_terminates_witness :
  Start_returns api_stopped = Some None ∧ l_now api_stopped ≤ l_now api_waiting + 5000.
Proof.
  split; [vm_compute; reflexivity|].
  apply (start_shutdown_terminates 0 api_events api_waiting api_stopping [Answer 1; Tick; ShutdownDone true]);
    vm_compute; reflexivity.
Defined.

Lemma start_result_sound_witness : l_accepted api_stopped = l_answered api_stopped ∪ l_dropped api_stopped.
Proof.
  apply (start_result_sound 0 (api_events ++ Wake :: [Answer 1; Tick; ShutdownDone true]) api_stopped None);
    vm_compute; reflexivity.
Defined.

(** The port is taken: Start goes on waiting. *)
Definition api_failed : State := default (api_initial 0) (step api_policy (Listen false) (api_initial 0)).

Lemma listen_failure_unreported_witness :
  let s := default api_failed (run api_policy [Tick; Tick] api_failed) in
  l_accepted s = ∅ ∧ l_waiter s = Waiting.
Proof.
  set (s := default _ _). split;
    apply (listen_failure_unreported 0 [] (api_initial 0) api_failed [Tick; Tick] s); vm_compute; reflexivity.
Defined.

(** ** The controller process *)

(** The growth of gc for one pointer, and a growth to four elements. *)
Definition exact_growth : Growth := {| grow _ n := n; grow_ge _ n := Nat.le_refl n |}.
Definition spare_growth : Growth.
Proof. refine {| grow _ n := (n + 3)%nat |}. intros _ n. apply Nat.le_add_r. Defined.

Definition all_fine (_ : list call) (_ : call) : option goerror := None.
Definition config_certs : Config :=
  mkConfig ":8443" "/m" "tls.crt" "tls.key" "/w/" "tls.crt" "tls.key" true ":8081" ":5959" true false.

Definition controller_run (G : Growth) : Process * (managerOptions + Z) :=
  main (RO:=order_fwd) (G:=G) all_fine config_certs newProcess.
Definition run_options (G : Growth) : managerOptions :=
  match (controller_run G).2 with
  | inl o => o
  | inr _ => mkManagerOptions (mkMetricsOptions "" false nil_slice false) nil_slice "" false ""
  end.

(** The process returns, whatever the growth of slices. *)
Lemma controller_returns G :
  main (RO:=order_fwd) (G:=G) all_fine config_certs newProcess = ((controller_run G).1, inl (run_options G)).
Proof.
  destruct (main_returns (RO:=order_fwd) (G:=G) all_fine config_certs) as [o Ho]; [done|].
  unfold run_options, controller_run. rewrite Ho. by destruct (main _ _ _); simplify_eq/=.
Qed.

Lemma controller_wiring_witness :
  apiServers (p_calls (controller_run exact_growth).1) = [(2%nat, ":5959")] ∧
  deref (p_heap (controller_run exact_growth).1) 2%nat = Some (NewBlocklistCache NewPodIndex NewPolicyIndex).
Proof.
  destruct (controller_wiring (RO:=order_fwd) (G:=exact_growth) all_fine config_certs
    (controller_run exact_growth).1 (run_options exact_growth) (controller_returns exact_growth))
    as (pods & policies & cache & _ & Hapi & _ & _ & _ & Hd).
  assert (apiServers (p_calls (controller_run exact_growth).1) = [(2%nat, ":5959")]) as H by (vm_compute; reflexivity).
  split; [exact H|]. rewrite H in Hapi. injection Hapi as <-. exact Hd.
Defined.

(** With gc's growth the webhook server has its own certificate; with spare capacity
    it would have the one of the metrics server. *)
Lemma tls_options_separate_witness :
  GetCertificate (foldl applyOption (mkTlsConfig ["h2"] None)
    (view (p_arrays (controller_run exact_growth).1) (WebhookTLSOpts (run_options exact_growth)))) =
    Some (WebhookCerts "/w/tls.crt" "/w/tls.key") ∧
  GetCertificate (foldl applyOption (mkTlsConfig ["h2"] None)
    (view (p_arrays (controller_run spare_growth).1) (WebhookTLSOpts (run_options spare_growth)))) =
    Some (MetricsCerts "/m/tls.crt" "/m/tls.key").
Proof.
  split.
  - apply (tls_options_separate (RO:=order_fwd) (G:=exact_growth) all_fine config_certs
      (controller_run exact_growth).1 (run_options exact_growth) ["h2"] (controller_returns exact_growth)); vm_compute; reflexivity.
  - apply (tls_options_separate (RO:=order_fwd) (G:=spare_growth) all_fine config_certs
      (controller_run spare_growth).1 (run_options spare_growth) ["h2"] (controller_returns spare_growth)); vm_compute; first [reflexivity|lia].
Defined.

(** The flags of the logger, and the configuration on its command line. *)
Definition zap : list (string * Flag string) := [("zap-devel", mkFlag true (λ _ s, Some s))].

Lemma controller_flags_roundtrip_witness :
  parseFlags lib zap (commandLine (λ _, Spelling true true) config_certs) = Booted config_certs.
Proof. apply (controller_flags_roundtrip lib zap); by eexists. Defined.

Example undeclared_flag_example :
  controllerProcess (H:=order_fwd) (H0:=exact_growth) lib zap all_fine ["--kube-dns-namespace=custom-namespace"] =
  (newProcess, Exit 2).
Proof.
  apply (undeclared_flag_exits lib zap all_fine (Spelling true true) "kube-dns-namespace" "custom-namespace" []);
    first [by eexists | reflexivity | (vm_compute; set_solver) | set_solver].
Defined.
