(* ===== verification/Locks.v ===== *)
(** * The mutexes (sync.RWMutex in pod_index.go, policy_index.go, blocklist_cache.go)

    Each index and the cache guard their maps with a readers-writer mutex; the
    cache's methods call the indexes' while they hold their own. Here a method is
    its sequence of lock operations and accesses to guarded data, goroutines run
    arbitrary sequences of methods, and the mutexes behave like Go's: a writer that
    waits keeps new readers out. A static discipline on sequences is shown to
    exclude data races and deadlocks, and every method to obey it. *)

From stdpp Require Import functions.
From S2P Require Import Prelude.

(** ** Lock operations *)
Inductive lock := CacheMu | PodMu | PolicyMu.
#[export] Instance lock_eq_dec : EqDecision lock.
Proof. solve_decision. Defined.

Inductive instr :=
  | Lock (l : lock)
  | Unlock (l : lock)
  | RLock (l : lock)
  | RUnlock (l : lock)
  | Access (l : lock) (write : bool).   (* of the data [l] guards *)

(** ** The methods

    The data decides how often a method goes round its loops and which branches it
    takes; that data is an argument, so that all cases are covered. *)

(** [defer mu.Unlock()]: a body under a lock *)
Definition locked (l : lock) (body : list instr) : list instr := Lock l :: body ++ [Unlock l].
Definition rlocked (l : lock) (body : list instr) : list instr := RLock l :: body ++ [RUnlock l].

(** *** PodIndex *)
Definition PodIndex_Upsert_locks : list instr := locked PodMu [Access PodMu false; Access PodMu true].
Definition PodIndex_Delete_locks (found : bool) : list instr :=
  locked PodMu (Access PodMu false :: if found then [Access PodMu true] else []).
Definition PodIndex_Get_locks : list instr := rlocked PodMu [Access PodMu false].
Definition PodIndex_GetByIP_locks : list instr := rlocked PodMu [Access PodMu false].
Definition PodIndex_GetAll_locks : list instr := rlocked PodMu [Access PodMu false].
Definition PodIndex_GetPodsMatchingSelector_locks : list instr := rlocked PodMu [Access PodMu false].
Definition PodIndex_Size_locks : list instr := rlocked PodMu [Access PodMu false].

(** *** PolicyIndex *)
Definition PolicyIndex_Upsert_locks : list instr := locked PolicyMu [Access PolicyMu false; Access PolicyMu true].
Definition PolicyIndex_Delete_locks (found : bool) : list instr :=
  locked PolicyMu (Access PolicyMu false :: if found then [Access PolicyMu true] else []).
Definition PolicyIndex_Get_locks : list instr := rlocked PolicyMu [Access PolicyMu false].
Definition PolicyIndex_GetAll_locks : list instr := rlocked PolicyMu [Access PolicyMu false].
Definition PolicyIndex_Size_locks : list instr := rlocked PolicyMu [Access PolicyMu false].

(** *** BlocklistCache *)

(** [recalculatePodInternal]; nothing happens for a pod without address. *)
Definition Cache_recalculatePodInternal_locks (hasIP : bool) : list instr :=
  if hasIP then PolicyIndex_GetAll_locks ++ [Access CacheMu true] else [].

(** [pod] is [None] when the pod is not indexed, else whether it has an address. *)
Definition Cache_RecalculatePod_locks (pod : option bool) : list instr :=
  locked CacheMu (PodIndex_Get_locks ++ match pod with Some ip => Cache_recalculatePodInternal_locks ip | None => [] end).
Definition Cache_RemovePod_locks : list instr := locked CacheMu [Access CacheMu true].
Definition Cache_RecalculateForPolicy_locks (emptySelector : bool) (pods : list bool) : list instr :=
  if emptySelector then []
  else locked CacheMu (PodIndex_GetPodsMatchingSelector_locks ++ (pods ≫= Cache_recalculatePodInternal_locks)).
Definition Cache_RecalculateForPolicyChange_locks (old new : bool) (affected : list bool) : list instr :=
  locked CacheMu ((if old then PodIndex_GetPodsMatchingSelector_locks else []) ++
    (if new then PodIndex_GetPodsMatchingSelector_locks else []) ++ (affected ≫= Cache_recalculatePodInternal_locks)).
Definition Cache_RecalculateAll_locks (pods : list bool) : list instr :=
  locked CacheMu ([Access CacheMu true] ++ PodIndex_GetAll_locks ++ (pods ≫= Cache_recalculatePodInternal_locks)).
Definition Cache_GetBlocklist_locks : list instr := rlocked CacheMu [Access CacheMu false].
Definition Cache_Size_locks : list instr := rlocked CacheMu [Access CacheMu false].

(** Every method of the three types, with the choices its data makes. *)
Inductive method : list instr → Prop :=
  | m_pod_upsert : method PodIndex_Upsert_locks
  | m_pod_delete b : method (PodIndex_Delete_locks b)
  | m_pod_get : method PodIndex_Get_locks
  | m_pod_get_by_ip : method PodIndex_GetByIP_locks
  | m_pod_get_all : method PodIndex_GetAll_locks
  | m_pod_matching : method PodIndex_GetPodsMatchingSelector_locks
  | m_pod_size : method PodIndex_Size_locks
  | m_policy_upsert : method PolicyIndex_Upsert_locks
  | m_policy_delete b : method (PolicyIndex_Delete_locks b)
  | m_policy_get : method PolicyIndex_Get_locks
  | m_policy_get_all : method PolicyIndex_GetAll_locks
  | m_policy_size : method PolicyIndex_Size_locks
  | m_recalculate_pod p : method (Cache_RecalculatePod_locks p)
  | m_remove_pod : method Cache_RemovePod_locks
  | m_recalculate_policy b ps : method (Cache_RecalculateForPolicy_locks b ps)
  | m_recalculate_change o n ps : method (Cache_RecalculateForPolicyChange_locks o n ps)
  | m_recalculate_all ps : method (Cache_RecalculateAll_locks ps)
  | m_get_blocklist : method Cache_GetBlocklist_locks
  | m_size : method Cache_Size_locks.

(** ** Goroutines and mutexes *)

(** A goroutine: what it still has to do, and the locks it holds ([true] for
    writing). *)
Record thread := mkThread { prog : list instr; held : gmap nat bool }.

(** A mutex: the writer that has announced itself, and whether it has got in; the
    readers inside. *)
Record rwmutex := mkRW { owner : option (nat * bool); readers : gset nat }.

Record LState := mkLState { threads : list thread; mutex : lock → rwmutex }.

(** The order in which locks may be nested; it also numbers them. *)
Definition rank (l : lock) : nat := match l with CacheMu => 0 | PodMu => 1 | PolicyMu => 2 end.
#[export] Instance rank_inj : Inj (=) (=) rank.
Proof. by intros [] []. Qed.

Definition step (i : nat) (s : LState) : option LState :=
  t ← threads s !! i;
  match prog t with
  | [] => None
  | Lock l :: p =>
      let m := mutex s l in
      match owner m with
      | None => Some (mkLState (threads s) (<[l := mkRW (Some (i, false)) (readers m)]> (mutex s)))
      | Some (j, false) =>
          if decide (j = i ∧ readers m = ∅) then
            Some (mkLState (<[i := mkThread p (<[rank l := true]> (held t))]> (threads s))
                    (<[l := mkRW (Some (i, true)) ∅]> (mutex s)))
          else None
      | Some (_, true) => None
      end
  | Unlock l :: p =>
      let m := mutex s l in
      if decide (owner m = Some (i, true)) then
        Some (mkLState (<[i := mkThread p (delete (rank l) (held t))]> (threads s))
                (<[l := mkRW None (readers m)]> (mutex s)))
      else None
  | RLock l :: p =>
      let m := mutex s l in
      match owner m with
      | None =>
          Some (mkLState (<[i := mkThread p (<[rank l := false]> (held t))]> (threads s))
                  (<[l := mkRW None ({[i]} ∪ readers m)]> (mutex s)))
      | Some _ => None
      end
  | RUnlock l :: p =>
      let m := mutex s l in
      if decide (i ∈ readers m) then
        Some (mkLState (<[i := mkThread p (delete (rank l) (held t))]> (threads s))
                (<[l := mkRW (owner m) (readers m ∖ {[i]})]> (mutex s)))
      else None
  | Access l w :: p => Some (mkLState (<[i := mkThread p (held t)]> (threads s)) (mutex s))
  end.

(** A schedule names the goroutine that moves next. *)
Fixpoint run (sched : list nat) (s : LState) : option LState :=
  match sched with
  | [] => Some s
  | i :: sched => s ← step i s; run sched s
  end.

(** Goroutines that each run a sequence of methods, with all mutexes free. *)
Definition start (progs : list (list instr)) : LState :=
  mkLState ((λ p, mkThread p ∅) <$> progs) (λ _, mkRW None ∅).

(** ** The discipline *)

(** Locks are nested in the order of their ranks, released as they were taken, data
    is accessed under its lock, and nothing is held at the end. *)
Fixpoint ok (h : gmap nat bool) (p : list instr) : Prop :=
  match p with
  | [] => h = ∅
  | Lock l :: p => map_Forall (λ k _, k < rank l) h ∧ ok (<[rank l := true]> h) p
  | RLock l :: p => map_Forall (λ k _, k < rank l) h ∧ ok (<[rank l := false]> h) p
  | Unlock l :: p => h !! rank l = Some true ∧ ok (delete (rank l) h) p
  | RUnlock l :: p => h !! rank l = Some false ∧ ok (delete (rank l) h) p
  | Access l w :: p => (if w then h !! rank l = Some true else is_Some (h !! rank l)) ∧ ok h p
  end.

(** A piece of code that leaves the locks held as it found them. *)
Definition keeps (h : gmap nat bool) (p : list instr) : Prop := ∀ q, ok h q → ok h (p ++ q).

Lemma keeps_nil h : keeps h [].
Proof. by intros q. Qed.
Lemma keeps_app h p1 p2 : keeps h p1 → keeps h p2 → keeps h (p1 ++ p2).
Proof. intros H1 H2 q Hq. rewrite <- (assoc_L (++)). by apply H1, H2. Qed.
Lemma keeps_cons h i p : keeps h [i] → keeps h p → keeps h (i :: p).
Proof. intros H1 H2 q Hq. apply H1, H2, Hq. Qed.
Lemma keeps_if h (b : bool) p1 p2 : keeps h p1 → keeps h p2 → keeps h (if b then p1 else p2).
Proof. by destruct b. Qed.
Lemma keeps_bind {A} h (f : A → list instr) l : (∀ x, keeps h (f x)) → keeps h (l ≫= f).
Proof. intros Hf. induction l as [|x l IH]; csimpl; [apply keeps_nil|by apply keeps_app]. Qed.
Lemma keeps_read h l b : h !! rank l = Some b → keeps h [Access l false].
Proof. intros Hl q Hq. split; [by eexists|done]. Qed.
Lemma keeps_write h l : h !! rank l = Some true → keeps h [Access l true].
Proof. intros Hl q Hq. by split. Qed.

Lemma below_fresh (h : gmap nat bool) l : map_Forall (λ k _, k < rank l) h → h !! rank l = None.
Proof. intros Hb. destruct (h !! rank l) eqn:Hh; [|done]. apply Hb in Hh. lia. Qed.

Lemma keeps_locked h l body :
  map_Forall (λ k _, k < rank l) h → keeps (<[rank l := true]> h) body → keeps h (locked l body).
Proof.
  intros Hb Hbody q Hq. unfold locked. cbn [app]. split; [done|]. rewrite <- (assoc_L (++)). apply Hbody.
  split; [by rewrite lookup_insert_eq|]. by rewrite delete_insert_id by (by apply below_fresh).
Qed.
Lemma keeps_rlocked h l body :
  map_Forall (λ k _, k < rank l) h → keeps (<[rank l := false]> h) body → keeps h (rlocked l body).
Proof.
  intros Hb Hbody q Hq. unfold rlocked. cbn [app]. split; [done|]. rewrite <- (assoc_L (++)). apply Hbody.
  split; [by rewrite lookup_insert_eq|]. by rewrite delete_insert_id by (by apply below_fresh).
Qed.

(** Decompose a method into the pieces above. *)
Ltac keep :=
  repeat first
    [ apply keeps_nil
    | apply keeps_locked; [decide_now|]
    | apply keeps_rlocked; [decide_now|]
    | apply keeps_write; reflexivity
    | eapply keeps_read; reflexivity
    | apply keeps_if
    | apply keeps_bind; intros ?
    | apply keeps_app
    | lazymatch goal with |- keeps _ [_] => fail | _ => apply keeps_cons end ].

Lemma recalculate_keeps b : keeps (<[0 := true]> ∅) (Cache_recalculatePodInternal_locks b).
Proof. keep. Qed.

(** Every method obeys the discipline. *)
Lemma method_keeps m : method m → keeps ∅ m.
Proof. destruct 1 as [| | | | | | | | | | | |[]| | | | | |]; keep; apply recalculate_keeps. Qed.

Lemma methods_ok ms : Forall method ms → ok ∅ (concat ms).
Proof. induction 1 as [|m ms Hm _ IH]; simpl; [done|]. by apply method_keeps. Qed.

(** ** The invariant *)
Record Inv (s : LState) : Prop := {
  inv_owner i t l : threads s !! i = Some t →
    owner (mutex s l) = Some (i, true) ↔ held t !! rank l = Some true;
  inv_reader i t l : threads s !! i = Some t →
    i ∈ readers (mutex s l) ↔ held t !! rank l = Some false;
  inv_valid l i : i ∈ readers (mutex s l) ∨ (∃ b, owner (mutex s l) = Some (i, b)) → is_Some (threads s !! i);
  inv_waiting l i t : owner (mutex s l) = Some (i, false) → threads s !! i = Some t → ∃ p, prog t = Lock l :: p;
  inv_exclusive l i : owner (mutex s l) = Some (i, true) → readers (mutex s l) = ∅;
  inv_ok i t : threads s !! i = Some t → ok (held t) (prog t);
}.

Lemma Inv_start mss : Forall (Forall method) mss → Inv (start ((λ ms, concat ms) <$> mss)).
Proof.
  intros Hms. unfold start.
  assert (∀ i t, ((λ p, mkThread p ∅) <$> ((λ ms, concat ms) <$> mss)) !! i = Some t → held t = ∅ ∧ ok ∅ (prog t)) as Ht.
  { intros i t Hi. rewrite !list_lookup_fmap in Hi. destruct (mss !! i) as [ms|] eqn:Hm; [|done].
    simplify_eq/=. split; [done|]. apply methods_ok. by eapply Forall_lookup_1. }
  split; simpl.
  - intros i t l [-> _]%Ht. by rewrite lookup_empty.
  - intros i t l [-> _]%Ht. rewrite lookup_empty. set_solver.
  - intros l i [?|[b ?]]; [set_solver|done].
  - done.
  - done.
  - intros i t [Hh Hok]%Ht. by rewrite Hh.
Qed.

(** Case analysis on whether a goroutine, or a mutex, is the one that moved. *)
Ltac split_thread i j :=
  destruct (decide (i = j)) as [<-|?];
  [rewrite ?list_lookup_insert_eq in * by (by eapply lookup_lt_Some)|rewrite ?list_lookup_insert_ne in * by done].
Ltac split_lock l l' :=
  destruct (decide (l = l')) as [<-|?];
  [rewrite ?fn_lookup_insert in *|rewrite ?fn_lookup_insert_ne in * by done].

(** A move of goroutine [i] on mutex [l]. *)
Lemma Inv_update s i t t' l m' :
  Inv s → threads s !! i = Some t →
  (∀ l', l' ≠ l → held t' !! rank l' = held t !! rank l') →
  (owner m' = Some (i, true) ↔ held t' !! rank l = Some true) →
  (i ∈ readers m' ↔ held t' !! rank l = Some false) →
  (∀ j b, j ≠ i → owner m' = Some (j, b) ↔ owner (mutex s l) = Some (j, b)) →
  (∀ j, j ≠ i → j ∈ readers m' ↔ j ∈ readers (mutex s l)) →
  (∀ l', (owner m' = Some (i, false) ∧ l' = l) ∨ (l' ≠ l ∧ owner (mutex s l') = Some (i, false)) →
    ∃ p, prog t' = Lock l' :: p) →
  (∀ j, owner m' = Some (j, true) → readers m' = ∅) →
  ok (held t') (prog t') →
  Inv (mkLState (<[i := t']> (threads s)) (<[l := m']> (mutex s))).
Proof.
  intros [Ho Hr Hv Hw He Hok] Hi Hh Hom Hrm Hother Hothr Hwait Hexc Hokt. split; simpl.
  - intros j tj l' Hj. split_thread i j.
    + simplify_eq. split_lock l l'; [done|]. rewrite Hh by done. by apply Ho.
    + split_lock l l'; [|by apply Ho]. rewrite Hother by done. by apply Ho.
  - intros j tj l' Hj. split_thread i j.
    + simplify_eq. split_lock l l'; [done|]. rewrite Hh by done. by apply Hr.
    + split_lock l l'; [|by apply Hr]. rewrite Hothr by done. by apply Hr.
  - intros l' j Hin. split_thread i j; [by eexists|]. apply (Hv l').
    split_lock l l'; [|done]. rewrite Hothr in Hin by done.
    destruct Hin as [?|[b Hb]]; [by left|]. right. exists b. by apply Hother.
  - intros l' j tj Hj Htj. split_thread i j.
    + simplify_eq. apply Hwait. split_lock l l'; auto.
    + split_lock l l'; [|by eapply Hw]. rewrite Hother in Hj by done. by eapply Hw.
  - intros l' j Hj. split_lock l l'; by eauto.
  - intros j tj Htj. split_thread i j; [by simplify_eq|by eapply Hok].
Qed.

(** The mutex another announcement waits for is the one at the head of the program. *)
Lemma waiting_head s i t ins p l' :
  Inv s → threads s !! i = Some t → prog t = ins :: p → owner (mutex s l') = Some (i, false) → ins = Lock l'.
Proof. intros [_ _ _ Hw _ _] Hi Hp Ho. destruct (Hw l' i t Ho Hi) as [p' Hp']. congruence. Qed.

Lemma rank_ne (h : gmap nat bool) l l' b : l' ≠ l → <[rank l := b]> h !! rank l' = h !! rank l'.
Proof. intros Hne. apply lookup_insert_ne. intros Heq%(inj rank). congruence. Qed.
Lemma rank_delete_ne (h : gmap nat bool) l l' : l' ≠ l → delete (rank l) h !! rank l' = h !! rank l'.
Proof. intros Hne. apply lookup_delete_ne. intros Heq%(inj rank). congruence. Qed.

(** Taking a lock for writing: announcing, then getting in. *)
Lemma Inv_lock s s' i t l p :
  Inv s → threads s !! i = Some t → prog t = Lock l :: p → step i s = Some s' → Inv s'.
Proof.
  intros HI Hi Hp Hs. pose proof HI as [_ Hr _ _ _ Hok]. unfold step in Hs. rewrite Hi in Hs.
  cbn [mbind option_bind] in Hs. rewrite Hp in Hs. pose proof (Hok i t Hi) as Hoki. rewrite Hp in Hoki.
  destruct Hoki as [Hpre Hokp]. apply below_fresh in Hpre as Hfresh.
  pose proof (λ l', waiting_head s i t _ p l' HI Hi Hp) as Hhead.
  destruct (owner (mutex s l)) as [[j [|]]|] eqn:Hown; [done| |].
  - case_decide as Hd; [|done]. destruct Hd as [-> Hrd]. simplify_eq.
    eapply Inv_update; [done..| | | | | | | |done]; simpl.
    + intros l' Hl'. by apply rank_ne.
    + by rewrite lookup_insert_eq.
    + rewrite lookup_insert_eq. set_solver.
    + intros j b Hj. rewrite Hown. split; congruence.
    + intros j Hj. by rewrite Hrd.
    + intros l' [[? _]|[Hl' Hwl]]; [done|]. apply Hhead in Hwl. congruence.
    + done.
  - simplify_eq. rewrite <- (list_insert_id (threads s) i t Hi).
    eapply Inv_update; [done..| | | | | | | |by rewrite Hp]; simpl.
    + done.
    + rewrite Hfresh. by split.
    + apply (Hr i t l Hi).
    + intros j b Hj. rewrite Hown. split; congruence.
    + done.
    + intros l' [[_ ->]|[Hl' Hwl]]; [by eexists|]. apply Hhead in Hwl. congruence.
    + done.
Qed.

Lemma Inv_access s i t l w p :
  Inv s → threads s !! i = Some t → prog t = Access l w :: p →
  Inv (mkLState (<[i := mkThread p (held t)]> (threads s)) (mutex s)).
Proof.
  intros HI Hi Hp. pose proof HI as [Ho Hr Hv Hw He Hok]. pose proof (Hok i t Hi) as Hoki.
  rewrite Hp in Hoki. destruct Hoki as [_ Hokp]. split; simpl.
  - intros j tj l' Hj. split_thread i j; [|by apply Ho]. simplify_eq. by apply (Ho i t).
  - intros j tj l' Hj. split_thread i j; [|by apply Hr]. simplify_eq. by apply (Hr i t).
  - intros l' j Hin. split_thread i j; [by eexists|]. by apply (Hv l').
  - intros l' j tj Hj Htj. split_thread i j; [|by eapply Hw]. by apply (waiting_head s i t _ p l' HI Hi Hp) in Hj.
  - done.
  - intros j tj Htj. split_thread i j; [by simplify_eq|by eapply Hok].
Qed.

Lemma step_Inv i s s' : step i s = Some s' → Inv s → Inv s'.
Proof.
  intros Hs HI. pose proof HI as [Ho Hr Hv Hw He Hok]. pose proof Hs as Hstep. unfold step in Hs.
  destruct (threads s !! i) as [t|] eqn:Hi; [|done]. cbn [mbind option_bind] in Hs.
  pose proof (Hok i t Hi) as Hoki. destruct (prog t) as [|ins p] eqn:Hp; [done|].
  pose proof (λ l', waiting_head s i t ins p l' HI Hi Hp) as Hhead.
  destruct ins as [l|l|l|l|l w]; cbn [ok] in Hoki; destruct Hoki as [Hpre Hokp].
  - by eapply Inv_lock.
  - case_decide as Hd; simplify_eq. eapply Inv_update; [done..| | | | | | | |done]; simpl.
    + intros l' Hl'. by apply rank_delete_ne.
    + by rewrite lookup_delete_eq.
    + rewrite lookup_delete_eq, (He l i Hd). set_solver.
    + intros j b Hj. rewrite Hd. split; congruence.
    + done.
    + intros l' [[? _]|[Hl' Hwl]]; [done|]. by apply Hhead in Hwl.
    + done.
  - apply below_fresh in Hpre as Hfresh. destruct (owner (mutex s l)) as [[]|] eqn:Hown; simplify_eq.
    eapply Inv_update; [done..| | | | | | | |done]; simpl.
    + intros l' Hl'. by apply rank_ne.
    + by rewrite lookup_insert_eq.
    + rewrite lookup_insert_eq. set_solver.
    + intros j b Hj. by rewrite Hown.
    + intros j Hj. set_solver.
    + intros l' [[? _]|[Hl' Hwl]]; [done|]. by apply Hhead in Hwl.
    + done.
  - case_decide as Hd; simplify_eq. eapply Inv_update; [done..| | | | | | | |done]; simpl.
    + intros l' Hl'. by apply rank_delete_ne.
    + rewrite lookup_delete_eq, (Ho i t l Hi), Hpre. by split.
    + rewrite lookup_delete_eq. set_solver.
    + done.
    + intros j Hj. set_solver.
    + intros l' [[Hwl _]|[Hl' Hwl]]; by apply Hhead in Hwl.
    + intros j Hj. apply He in Hj. set_solver.
  - simplify_eq. by eapply Inv_access.
Qed.

Lemma run_Inv sched s s' : run sched s = Some s' → Inv s → Inv s'.
Proof.
  revert s. induction sched as [|i sched IH]; simpl; intros s Hr HI; [by simplify_eq|].
  destruct (step i s) as [s1|] eqn:Hs; [|done]. eauto using step_Inv.
Qed.

(** ** Data races *)

(** Two goroutines about to access the same data, one of them to write it. *)
Definition race (s : LState) : Prop :=
  ∃ i j ti tj l wi wj pi pj, i ≠ j ∧ threads s !! i = Some ti ∧ threads s !! j = Some tj ∧
    prog ti = Access l wi :: pi ∧ prog tj = Access l wj :: pj ∧ wi || wj = true.

Lemma writer_alone s i j ti tj l :
  Inv s → i ≠ j → threads s !! i = Some ti → threads s !! j = Some tj →
  held ti !! rank l = Some true → held tj !! rank l = None.
Proof.
  intros [Ho Hr _ _ He _] Hij Hi Hj Hh. apply (Ho i ti l Hi) in Hh as Hown.
  destruct (held tj !! rank l) as [[|]|] eqn:Htj; [| |done].
  - apply (Ho j tj l Hj) in Htj. congruence.
  - apply (Hr j tj l Hj) in Htj. rewrite (He l i Hown) in Htj. set_solver.
Qed.

Lemma Inv_no_race s : Inv s → ¬ race s.
Proof.
  intros HI (i & j & ti & tj & l & wi & wj & pi & pj & Hij & Hi & Hj & Hpi & Hpj & Hw).
  pose proof (inv_ok s HI i ti Hi) as Hoki. pose proof (inv_ok s HI j tj Hj) as Hokj.
  rewrite Hpi in Hoki. rewrite Hpj in Hokj. destruct Hoki as [Hai _], Hokj as [Haj _].
  destruct wi.
  - rewrite (writer_alone s i j ti tj l HI Hij Hi Hj Hai) in Haj. destruct wj; [done|by destruct Haj].
  - destruct wj; [|done].
    rewrite (writer_alone s j i tj ti l HI (not_eq_sym Hij) Hj Hi Haj) in Hai. by destruct Hai.
Qed.

(** ** Deadlocks *)
Definition finished (s : LState) : Prop := Forall (λ t, prog t = []) (threads s).
Definition can_move (s : LState) : Prop := ∃ i, is_Some (step i s).

(** A goroutine that holds a lock is not done; unless it can move it waits for a lock
    of a higher rank. *)
Lemma holder_next s k t l :
  Inv s → threads s !! k = Some t → is_Some (held t !! rank l) →
  can_move s ∨ ∃ l' p, (prog t = Lock l' :: p ∨ prog t = RLock l' :: p) ∧ rank l < rank l'.
Proof.
  intros HI Hk [b Hb]. pose proof HI as [Ho Hr _ _ _ Hok]. pose proof (Hok k t Hk) as Hokk.
  destruct (prog t) as [|[l'|l'|l'|l'|l' w] p] eqn:Hp; cbn [ok] in Hokk; [|destruct Hokk as [Hpre _]..].
  - rewrite Hokk in Hb. by rewrite lookup_empty in Hb.
  - right. exists l', p. split; [by left|]. by eapply Hpre.
  - left. exists k. unfold step. rewrite Hk. cbn [mbind option_bind]. rewrite Hp.
    rewrite decide_True by (by apply (Ho k t)). by eexists.
  - right. exists l', p. split; [by right|]. by eapply Hpre.
  - left. exists k. unfold step. rewrite Hk. cbn [mbind option_bind]. rewrite Hp.
    rewrite decide_True by (by apply (Hr k t)). by eexists.
  - left. exists k. unfold step. rewrite Hk. cbn [mbind option_bind]. rewrite Hp. by eexists.
Qed.

(** Whoever waits for a lock, somebody can move: follow the holders upwards. *)
Lemma waiter_progress n s i t l p :
  2 < n + rank l → Inv s → threads s !! i = Some t → prog t = Lock l :: p ∨ prog t = RLock l :: p → can_move s.
Proof.
  revert i t l p. induction n as [|n IH]; intros i t l p Hn HI Hi Hp; [destruct l; simpl in Hn; lia|].
  pose proof HI as [Ho Hr Hv Hw _ _].
  assert (∀ k tk, threads s !! k = Some tk → is_Some (held tk !! rank l) → can_move s) as Hholder.
  { intros k tk Hk Hh. destruct (holder_next s k tk l HI Hk Hh) as [?|(l' & p' & Hp' & Hlt)]; [done|].
    apply (IH k tk l' p'); [lia|done..]. }
  destruct (owner (mutex s l)) as [[j b]|] eqn:Hown.
  - destruct (Hv l j (or_intror (ex_intro _ b Hown))) as [tj Hj]. destruct b.
    + apply (Hholder j tj Hj). exists true. by apply (Ho j tj).
    + destruct (decide (readers (mutex s l) = ∅)) as [Hrd|Hrd].
      * exists j. destruct (Hw l j tj Hown Hj) as [pj Hpj]. unfold step. rewrite Hj. cbn [mbind option_bind].
        rewrite Hpj, Hown, decide_True by done. by eexists.
      * apply set_choose_L in Hrd as [k Hin]. destruct (Hv l k (or_introl Hin)) as [tk Hk].
        apply (Hholder k tk Hk). exists false. by apply (Hr k tk).
  - exists i. unfold step. rewrite Hi. cbn [mbind option_bind].
    destruct Hp as [Hp|Hp]; rewrite Hp, Hown; by eexists.
Qed.

Lemma Inv_progress s : Inv s → finished s ∨ can_move s.
Proof.
  intros HI. destruct (decide (Forall (λ t, prog t = []) (threads s))) as [Hf|Hf]; [by left|right].
  apply not_Forall_Exists, Exists_exists in Hf as (t & Hin & Hne); [|apply _].
  apply list_elem_of_lookup in Hin as [i Hi]. pose proof (inv_ok s HI i t Hi) as Hok.
  destruct (prog t) as [|[l|l|l|l|l w] p] eqn:Hp; [done|..].
  1,3: eapply (waiter_progress 3 s i t l p); [lia|done..|auto].
  all: destruct Hok as [Hpre _]; destruct (holder_next s i t l HI Hi) as [?|(l' & p' & [Hp'|Hp'] & _)];
    try congruence; by destruct w || eexists.
Qed.

(** When everything is done all mutexes are free. *)
Lemma Inv_released s l : Inv s → finished s → owner (mutex s l) = None ∧ readers (mutex s l) = ∅.
Proof.
  intros [Ho Hr Hv Hw _ Hok] Hfin.
  assert (∀ i t, threads s !! i = Some t → prog t = [] ∧ held t = ∅) as Hdone.
  { intros i t Hi. pose proof (Forall_lookup_1 _ _ _ _ Hfin Hi) as Hp. simpl in Hp.
    split; [done|]. pose proof (Hok i t Hi) as Hoki. by rewrite Hp in Hoki. }
  split.
  - destruct (owner (mutex s l)) as [[j b]|] eqn:Hown; [|done].
    destruct (Hv l j (or_intror (ex_intro _ b Hown))) as [t Hj]. destruct (Hdone j t Hj) as [Hp Hh]. destruct b.
    + apply (Ho j t l Hj) in Hown. by rewrite Hh, lookup_empty in Hown.
    + destruct (Hw l j t Hown Hj) as [p Hp']. congruence.
  - apply set_eq. intros k. split; [|set_solver]. intros Hin. exfalso.
    destruct (Hv l k (or_introl Hin)) as [t Hk]. destruct (Hdone k t Hk) as [_ Hh].
    apply (Hr k t l Hk) in Hin. by rewrite Hh, lookup_empty in Hin.
Qed.

(** ** Termination: each operation takes at most two steps *)
Definition unannounced (m : rwmutex) : nat := match owner m with Some (_, false) => 0 | _ => 1 end.
Definition measure (s : LState) : nat :=
  sum_list_with (λ t, 2 * length (prog t)) (threads s) +
  (unannounced (mutex s CacheMu) + unannounced (mutex s PodMu) + unannounced (mutex s PolicyMu)).

Lemma sum_insert {A} (f : A → nat) l i x y :
  l !! i = Some x → sum_list_with f (<[i := y]> l) + f x = sum_list_with f l + f y.
Proof.
  revert i. induction l as [|z l IH]; intros [|i] Hi; simplify_eq/=; [lia|]. specialize (IH i Hi). lia.
Qed.

Lemma free_insert (f : lock → rwmutex) l m :
  let free (f : lock → rwmutex) := unannounced (f CacheMu) + unannounced (f PodMu) + unannounced (f PolicyMu) in
  free (<[l := m]> f) + unannounced (f l) = free f + unannounced m.
Proof. destruct l; simpl; unfold insert, fn_insert; simpl; lia. Qed.

Lemma step_measure i s s' : step i s = Some s' → measure s' < measure s.
Proof.
  intros Hs. unfold step in Hs. destruct (threads s !! i) as [t|] eqn:Hi; [|done]. cbn [mbind option_bind] in Hs.
  assert (∀ t', sum_list_with (λ t, 2 * length (prog t)) (<[i := t']> (threads s)) + 2 * length (prog t) =
    sum_list_with (λ t, 2 * length (prog t)) (threads s) + 2 * length (prog t')) as Hsum
    by (intros t'; by apply (sum_insert (λ t, 2 * length (prog t)))).
  pose proof (free_insert (mutex s)) as Hfree; cbv beta zeta in Hfree.
  assert (∀ m, unannounced m ≤ 1) as Hone by (intros m; unfold unannounced; repeat case_match; lia).
  (* a step that completes an operation, and one that announces a writer *)
  assert (∀ p h l m', length (prog t) = S (length p) →
    measure (mkLState (<[i := mkThread p h]> (threads s)) (<[l := m']> (mutex s))) < measure s) as Hmove.
  { intros p h l m' Hlen. unfold measure; cbn [threads mutex]. specialize (Hsum (mkThread p h)).
    specialize (Hfree l m'). specialize (Hone m'). cbn [prog] in Hsum. lia. }
  destruct (prog t) as [|[l|l|l|l|l w] p] eqn:Hp; [done|..].
  - destruct (owner (mutex s l)) as [[j [|]]|] eqn:Hown; [done|case_decide; simplify_eq; by apply Hmove|].
    simplify_eq. unfold measure; cbn [threads mutex].
    specialize (Hfree l (mkRW (Some (i, false)) (readers (mutex s l)))).
    assert (unannounced (mutex s l) = 1) by (unfold unannounced; by rewrite Hown).
    change (unannounced (mkRW (Some (i, false)) _)) with 0 in Hfree. lia.
  - case_decide; simplify_eq. by apply Hmove.
  - destruct (owner (mutex s l)); simplify_eq. by apply Hmove.
  - case_decide; simplify_eq. by apply Hmove.
  - simplify_eq. unfold measure; cbn [threads mutex]. specialize (Hsum (mkThread p (held t))).
    cbn [prog length] in Hsum. lia.
Qed.

Lemma run_measure sched s s' : run sched s = Some s' → length sched + measure s' ≤ measure s.
Proof.
  revert s. induction sched as [|i sched IH]; simpl; intros s Hr; [by simplify_eq|].
  destruct (step i s) as [s1|] eqn:Hs; [|done]. apply step_measure in Hs. apply IH in Hr. lia.
Qed.

Lemma measure_start progs : measure (start progs) = sum_list_with (λ p, 2 * length p) progs + 3.
Proof.
  unfold measure, start. cbn [threads mutex]. f_equal. induction progs as [|p ps IH]; [done|].
  rewrite fmap_cons. cbn [sum_list_with prog]. by rewrite IH.
Qed.

(** C11: the mutexes protect the shared data and nobody waits forever. However many
    goroutines run whatever sequences of methods of the two indexes and the cache,
    and in whatever order they are scheduled: two accesses to the same map of which
    one is a write never happen at the same time, some goroutine can always move until
    all are done, when all are done every mutex is free, and the number of steps is
    bounded by twice the number of operations plus three. *)
Theorem no_race_no_deadlock mss sched s :
  Forall (Forall method) mss → run sched (start ((λ ms, concat ms) <$> mss)) = Some s →
  ¬ race s ∧ (finished s ∨ can_move s) ∧
  (finished s → ∀ l, owner (mutex s l) = None ∧ readers (mutex s l) = ∅) ∧
  length sched ≤ sum_list_with (λ p, 2 * length p) ((λ ms, concat ms) <$> mss) + 3.
Proof.
  intros Hms Hr. assert (Inv s) as HI by (eapply run_Inv; [done|by apply Inv_start]).
  split_and!; [by apply Inv_no_race|by apply Inv_progress|intros Hf l; by apply Inv_released|].
  apply run_measure in Hr. rewrite measure_start in Hr. lia.
Qed.

(** Two workers and a reader of the blocklist. The first holds the cache's mutex and
    reads the pods while the second waits to write them; the blocklist is read after
    the first has finished. *)
Definition workers : list (list (list instr)) :=
  [[PolicyIndex_Upsert_locks; Cache_RecalculateForPolicy_locks false [true; false]];
   [PodIndex_Upsert_locks; Cache_RecalculatePod_locks (Some true)];
   [Cache_GetBlocklist_locks]].
Definition schedule : list nat := [0; 0; 0; 0; 0; 0; 0; 0; 1; 0; 0; 1; 1; 1; 1; 0; 0; 0; 0; 0; 2; 2].

Lemma no_race_no_deadlock_witness :
  match run schedule (start ((λ ms, concat ms) <$> workers)) with
  | Some s => ¬ race s ∧ (finished s ∨ can_move s)
  | None => False
  end.
Proof.
  pose proof (no_race_no_deadlock workers schedule) as H.
  destruct (run schedule (start ((λ ms, concat ms) <$> workers))) as [s|] eqn:Hr; [|vm_compute in Hr; discriminate Hr].
  destruct (H s) as (H1 & H2 & _); [|reflexivity|split; assumption]. repeat constructor.
Defined.
