(* ===== verification/Linearizable.v ===== *)
(** * The indexes under concurrent calls (pod_index.go, policy_index.go)

    The methods of the two indexes, one access to a map at a time, run by any number of
    goroutines under a readers-writer mutex. Each call is shown to take effect at one
    instant between its invocation and its return: the histories of the concurrent
    index are histories of one whose methods are the atomic operations of PodIndex.v
    and PolicyIndex.v. *)

From stdpp Require Import functions.
From S2P Require Import Prelude Types Selectors Stores PodIndex PolicyIndex.

(** ** Objects with a readers-writer mutex *)
Section Objects.
Context {C L R D : Type}.      (* calls, positions in a body, results, guarded data *)
Variable writes : C → bool.                (* [Lock] or [RLock] *)
Variable enter : C → L.                    (* the body after the lock is taken *)
Variable next : L → D → (L * D) + R.       (* one access, or the result *)
Variable apply : C → D → D * R.            (* the atomic operation *)

(** The body, alone on the data, from a position to its end. *)
Inductive finishes : L → D → D → R → Prop :=
  | finishes_done l d r : next l d = inr r → finishes l d d r
  | finishes_step l d l1 d1 d' r : next l d = inl (l1, d1) → finishes l1 d1 d' r → finishes l d d' r.

(** Visible events *)
Inductive event := Call (i : nat) (c : C) | Return (i : nat) (r : R).

(** *** The concurrent object *)
Inductive status := Idle | Waiting (c : C) | Inside (c : C) (l : L) | Returning (r : R).
Record CState := mkCState {
  c_data : D;
  c_writer : option nat;
  c_readers : gset nat;
  c_thread : nat → status;
}.

Inductive cstep (s : CState) : option event → CState → Prop :=
  | c_call i c :
      c_thread s i = Idle →
      cstep s (Some (Call i c)) (mkCState (c_data s) (c_writer s) (c_readers s) (<[i := Waiting c]> (c_thread s)))
  | c_lock i c :
      c_thread s i = Waiting c → writes c = true → c_writer s = None → c_readers s = ∅ →
      cstep s None (mkCState (c_data s) (Some i) ∅ (<[i := Inside c (enter c)]> (c_thread s)))
  | c_rlock i c :
      c_thread s i = Waiting c → writes c = false → c_writer s = None →
      cstep s None (mkCState (c_data s) None ({[i]} ∪ c_readers s) (<[i := Inside c (enter c)]> (c_thread s)))
  | c_access i c l l' d' :
      c_thread s i = Inside c l → next l (c_data s) = inl (l', d') →
      cstep s None (mkCState d' (c_writer s) (c_readers s) (<[i := Inside c l']> (c_thread s)))
  | c_unlock i c l r :
      c_thread s i = Inside c l → next l (c_data s) = inr r → writes c = true →
      cstep s None (mkCState (c_data s) None (c_readers s) (<[i := Returning r]> (c_thread s)))
  | c_runlock i c l r :
      c_thread s i = Inside c l → next l (c_data s) = inr r → writes c = false →
      cstep s None (mkCState (c_data s) (c_writer s) (c_readers s ∖ {[i]}) (<[i := Returning r]> (c_thread s)))
  | c_return i r :
      c_thread s i = Returning r →
      cstep s (Some (Return i r)) (mkCState (c_data s) (c_writer s) (c_readers s) (<[i := Idle]> (c_thread s))).

(** *** The atomic object: a call has its whole effect in one step *)
Inductive astatus := AIdle | APending (c : C) | ADone (r : R).
Record AState := mkAState { a_data : D; a_thread : nat → astatus }.

Inductive astep (a : AState) : option event → AState → Prop :=
  | a_call i c :
      a_thread a i = AIdle →
      astep a (Some (Call i c)) (mkAState (a_data a) (<[i := APending c]> (a_thread a)))
  | a_effect i c d r :
      a_thread a i = APending c → apply c (a_data a) = (d, r) →
      astep a None (mkAState d (<[i := ADone r]> (a_thread a)))
  | a_return i r :
      a_thread a i = ADone r →
      astep a (Some (Return i r)) (mkAState (a_data a) (<[i := AIdle]> (a_thread a))).

(** Histories: the visible events of a run *)
Definition visible (e : option event) : list event := match e with Some e => [e] | None => [] end.

Inductive chistory (d : D) : list event → CState → Prop :=
  | ch_start : chistory d [] (mkCState d None ∅ (λ _, Idle))
  | ch_step h s e s' : chistory d h s → cstep s e s' → chistory d (h ++ visible e) s'.
Inductive ahistory (d : D) : list event → AState → Prop :=
  | ah_start : ahistory d [] (mkAState d (λ _, AIdle))
  | ah_step h a e a' : ahistory d h a → astep a e a' → ahistory d (h ++ visible e) a'.

(** *** Schedules: which goroutine moves next, and what it calls when it is idle *)
Inductive move := Invoke (i : nat) (c : C) | Go (i : nat).

Definition set_thread (s : CState) (i : nat) (t : status) : CState :=
  mkCState (c_data s) (c_writer s) (c_readers s) (<[i := t]> (c_thread s)).

Definition do_move (m : move) (s : CState) : option (option event * CState) :=
  match m with
  | Invoke i c =>
      match c_thread s i with
      | Idle => Some (Some (Call i c), set_thread s i (Waiting c))
      | _ => None
      end
  | Go i =>
      match c_thread s i with
      | Idle => None
      | Waiting c =>
          match c_writer s with
          | Some _ => None
          | None =>
              if writes c then
                if decide (c_readers s = ∅)
                then Some (None, mkCState (c_data s) (Some i) ∅ (<[i := Inside c (enter c)]> (c_thread s)))
                else None
              else Some (None, mkCState (c_data s) None ({[i]} ∪ c_readers s) (<[i := Inside c (enter c)]> (c_thread s)))
          end
      | Inside c l =>
          match next l (c_data s) with
          | inl (l', d') => Some (None, mkCState d' (c_writer s) (c_readers s) (<[i := Inside c l']> (c_thread s)))
          | inr r =>
              Some (None, mkCState (c_data s) (if writes c then None else c_writer s)
                (if writes c then c_readers s else c_readers s ∖ {[i]}) (<[i := Returning r]> (c_thread s)))
          end
      | Returning r => Some (Some (Return i r), set_thread s i Idle)
      end
  end.

Fixpoint do_moves (ms : list move) (s : CState) : option (list event * CState) :=
  match ms with
  | [] => Some ([], s)
  | m :: ms =>
      '(e, s) ← do_move m s;
      '(h, s) ← do_moves ms s;
      Some (visible e ++ h, s)
  end.

Definition cstart (d : D) : CState := mkCState d None ∅ (λ _, Idle).

Lemma do_move_sound m s e s' : do_move m s = Some (e, s') → cstep s e s'.
Proof.
  destruct m as [i c|i]; simpl; destruct (c_thread s i) as [|c'|c' l|r] eqn:Hi; try done.
  - intros [= <- <-]. by constructor.
  - destruct (c_writer s) eqn:Hw; [done|]. destruct (writes c') eqn:Hc.
    + case_decide; [|done]. intros [= <- <-]. by eapply c_lock.
    + intros [= <- <-]. by eapply c_rlock.
  - destruct (next l (c_data s)) as [[l' d']|r] eqn:Hn; intros [= <- <-]; [by eapply c_access|].
    destruct (writes c') eqn:Hc; [by eapply c_unlock|by eapply c_runlock].
  - intros [= <- <-]. by constructor.
Qed.

Lemma do_moves_sound d ms h s h' s' :
  chistory d h s → do_moves ms s = Some (h', s') → chistory d (h ++ h') s'.
Proof.
  revert h s h'. induction ms as [|m ms IH]; intros h s h' Hh Hms; simpl in Hms.
  - injection Hms as <- <-. by rewrite app_nil_r.
  - destruct (do_move m s) as [[e s1]|] eqn:Hm; [|done]. simpl in Hms.
    destruct (do_moves ms s1) as [[h1 s2]|] eqn:Hms1; [|done]. simpl in Hms. injection Hms as <- <-.
    rewrite (assoc_L (++)). eapply IH; [|done]. econstructor; [done|]. by eapply do_move_sound.
Qed.

(** ** The simulation *)

(** The body of a call computes its operation, and calls that only take the lock for
    reading do not write. *)
Hypothesis body : ∀ c d, finishes (enter c) d (apply c d).1 (apply c d).2.
Variable reading : L → Prop.
Hypothesis reading_enter : ∀ c, writes c = false → reading (enter c).
Hypothesis reading_next : ∀ l d l' d', reading l → next l d = inl (l', d') → reading l' ∧ d' = d.

Definition same (t : status) (u : astatus) : Prop :=
  match t with
  | Idle => u = AIdle
  | Waiting c | Inside c _ => u = APending c
  | Returning r => u = ADone r
  end.

(** Calls take effect when they leave the critical section: until then what is left of
    the body finishes with the outcome the operation has on the atomic data. *)
Record sim (s : CState) (a : AState) : Prop := {
  sim_status i : same (c_thread s i) (a_thread a i);
  sim_inside i c l : c_thread s i = Inside c l →
    finishes l (c_data s) (apply c (a_data a)).1 (apply c (a_data a)).2 ∧
    (if writes c then c_writer s = Some i else i ∈ c_readers s ∧ reading l);
  sim_writer i : c_writer s = Some i → c_readers s = ∅ ∧ ∃ c l, c_thread s i = Inside c l ∧ writes c = true;
  sim_data : c_writer s = None → a_data a = c_data s;
}.

Lemma sim_start d : sim (mkCState d None ∅ (λ _, Idle)) (mkAState d (λ _, AIdle)).
Proof. split; simpl; try done. Qed.

Lemma finishes_next l d l1 d1 d' r : next l d = inl (l1, d1) → finishes l d d' r → finishes l1 d1 d' r.
Proof. intros Hn Hf. destruct Hf; congruence. Qed.
Lemma finishes_result l d r d' r' : next l d = inr r → finishes l d d' r' → d' = d ∧ r' = r.
Proof. intros Hn Hf. destruct Hf; split; congruence. Qed.

(** Case analysis on whether a goroutine is the one that moved. *)
Ltac on_thread i j :=
  destruct (decide (i = j)) as [<-|?]; [rewrite ?fn_lookup_insert in *|rewrite ?fn_lookup_insert_ne in * by done].

(** While somebody writes nobody else is inside. *)
Lemma sim_alone s a i j c l :
  sim s a → c_writer s = Some i → c_thread s j = Inside c l → j = i.
Proof.
  intros Hs Hw Hj. apply (sim_inside s a Hs) in Hj as [_ Hj]. destruct (writes c); [congruence|].
  destruct (sim_writer s a Hs i Hw) as [He _]. set_solver.
Qed.

(** A move of goroutine [i]. *)
Lemma sim_update s a a' i t d w rd :
  sim s a → same t (a_thread a' i) → (∀ j, j ≠ i → a_thread a' j = a_thread a j) →
  (∀ j c l, j ≠ i → c_thread s j = Inside c l →
    finishes l d (apply c (a_data a')).1 (apply c (a_data a')).2 ∧
    (if writes c then w = Some j else j ∈ rd ∧ reading l)) →
  (∀ c l, t = Inside c l →
    finishes l d (apply c (a_data a')).1 (apply c (a_data a')).2 ∧
    (if writes c then w = Some i else i ∈ rd ∧ reading l)) →
  (∀ j, w = Some j → rd = ∅ ∧ ∃ c l, <[i := t]> (c_thread s) j = Inside c l ∧ writes c = true) →
  (w = None → a_data a' = d) →
  sim (mkCState d w rd (<[i := t]> (c_thread s))) a'.
Proof.
  intros Hs Htu Hothers Hin Hi Hw Hd. split; simpl; [| |done|done].
  - intros j. on_thread i j; [done|]. rewrite Hothers by done. apply (sim_status s a Hs).
  - intros j c l. on_thread i j; [apply Hi|by apply Hin].
Qed.

(** The writer that is inside stays there when another goroutine moves, or it moves on. *)
Lemma sim_writer_update s a i t j :
  sim s a → (∀ c l, c_thread s i = Inside c l → writes c = true → ∃ l', t = Inside c l') →
  c_writer s = Some j → c_readers s = ∅ ∧ ∃ c l, <[i := t]> (c_thread s) j = Inside c l ∧ writes c = true.
Proof.
  intros Hs Hi Hw. destruct (sim_writer s a Hs j Hw) as (He & c & l & Hj & Hwr). split; [done|].
  on_thread i j; [|eauto]. destruct (Hi c l Hj Hwr) as [l' ->]. eauto.
Qed.

Lemma sim_call s a i c :
  sim s a → c_thread s i = Idle →
  sim (mkCState (c_data s) (c_writer s) (c_readers s) (<[i := Waiting c]> (c_thread s)))
    (mkAState (a_data a) (<[i := APending c]> (a_thread a))).
Proof.
  intros Hs Hi. eapply sim_update; simpl; [exact Hs|by rewrite fn_lookup_insert| | |done| |].
  - intros j Hj. by rewrite fn_lookup_insert_ne.
  - intros j c' l _. apply (sim_inside s a Hs).
  - intros j. apply (sim_writer_update s a); [done|]. congruence.
  - apply (sim_data s a Hs).
Qed.

Lemma sim_return s a i r :
  sim s a → c_thread s i = Returning r →
  sim (mkCState (c_data s) (c_writer s) (c_readers s) (<[i := Idle]> (c_thread s)))
    (mkAState (a_data a) (<[i := AIdle]> (a_thread a))).
Proof.
  intros Hs Hi. eapply sim_update; simpl; [exact Hs|by rewrite fn_lookup_insert| | |done| |].
  - intros j Hj. by rewrite fn_lookup_insert_ne.
  - intros j c' l _. apply (sim_inside s a Hs).
  - intros j. apply (sim_writer_update s a); [done|]. congruence.
  - apply (sim_data s a Hs).
Qed.

Lemma sim_acquire s a i c w rd :
  sim s a → c_thread s i = Waiting c → c_writer s = None →
  (if writes c then w = Some i ∧ c_readers s = ∅ ∧ rd = ∅ else w = None ∧ rd = {[i]} ∪ c_readers s) →
  sim (mkCState (c_data s) w rd (<[i := Inside c (enter c)]> (c_thread s))) a.
Proof.
  intros Hs Hi Hw Hc. pose proof (sim_data s a Hs Hw) as Hd.
  pose proof (sim_status s a Hs i) as Hst. rewrite Hi in Hst. eapply sim_update; [exact Hs|done|done| | | |].
  - intros j c' l Hj Hin. apply (sim_inside s a Hs) in Hin as [Hf Hl]. split; [done|].
    destruct (writes c'); [congruence|]. destruct Hl as [Hr Hl], (writes c); destruct Hc as [-> Hc]; set_solver.
  - intros c' l [= <- <-]. rewrite <- Hd. split; [apply body|].
    destruct (writes c) eqn:Hwc; destruct Hc as [-> Hc]; [done|]. split; [set_solver|by apply reading_enter].
  - intros j Hj. destruct (writes c) eqn:Hwc; destruct Hc as [-> Hc]; [|done]. injection Hj as <-.
    split; [by destruct Hc|]. exists c, (enter c). by rewrite fn_lookup_insert.
  - intros _. done.
Qed.

Lemma sim_access s a i c l l' d' :
  sim s a → c_thread s i = Inside c l → next l (c_data s) = inl (l', d') →
  sim (mkCState d' (c_writer s) (c_readers s) (<[i := Inside c l']> (c_thread s))) a.
Proof.
  intros Hs Hi Hn. pose proof (sim_status s a Hs i) as Hst. rewrite Hi in Hst.
  destruct (sim_inside s a Hs i c l Hi) as [Hf Hl]. eapply sim_update; [exact Hs|done|done| | | |].
  - intros j c' l2 Hj Hin. destruct (writes c) eqn:Hwc.
    + destruct Hj. by eapply sim_alone.
    + destruct Hl as [_ Hl], (reading_next _ _ _ _ Hl Hn) as [_ ->]. by apply (sim_inside s a Hs).
  - intros c' l2 [= <- <-]. split; [by eapply finishes_next|].
    destruct (writes c); [done|]. split; [apply Hl|]. by eapply reading_next; [apply Hl|].
  - intros j. apply (sim_writer_update s a); [done|]. intros c' l2 Hc' _. rewrite Hi in Hc'. simplify_eq. eauto.
  - intros Hw. rewrite (sim_data s a Hs Hw). destruct (writes c); [congruence|].
    destruct Hl as [_ Hl]. by destruct (reading_next _ _ _ _ Hl Hn) as [_ ->].
Qed.

(** Leaving the critical section is where the call takes effect. *)
Lemma sim_release s a i c l r :
  sim s a → c_thread s i = Inside c l → next l (c_data s) = inr r →
  apply c (a_data a) = (c_data s, r) ∧
  sim (mkCState (c_data s) (if writes c then None else c_writer s)
        (if writes c then c_readers s else c_readers s ∖ {[i]}) (<[i := Returning r]> (c_thread s)))
    (mkAState (c_data s) (<[i := ADone r]> (a_thread a))).
Proof.
  intros Hs Hi Hn. destruct (sim_inside s a Hs i c l Hi) as [Hf Hl].
  destruct (finishes_result _ _ _ _ _ Hn Hf) as [Hd Hr].
  split; [destruct (apply c (a_data a)); simpl in *; congruence|].
  eapply sim_update; simpl; [exact Hs|by rewrite fn_lookup_insert| | |done| |done].
  - intros j Hj. by rewrite fn_lookup_insert_ne.
  - intros j c' l2 Hj Hin. destruct (writes c) eqn:Hwc; [destruct Hj; by eapply sim_alone|].
    assert (c_writer s = None) as Hw.
    { destruct (c_writer s) as [k|] eqn:Hw; [|done]. destruct (sim_writer s a Hs k Hw) as [He _]. set_solver. }
    rewrite <- (sim_data s a Hs Hw). destruct (sim_inside s a Hs j c' l2 Hin) as [Hf2 Hl2].
    rewrite (sim_data s a Hs Hw) in *. split; [done|]. destruct (writes c'); [done|]. set_solver.
  - intros j Hj. destruct (writes c) eqn:Hwc; [done|].
    destruct (sim_writer s a Hs j Hj) as [He _]. set_solver.
Qed.

(** Every step is matched by at most one step of the atomic object. *)
Lemma sim_step s a e s' :
  sim s a → cstep s e s' → ∃ a', sim s' a' ∧ (astep a e a' ∨ (e = None ∧ a' = a)).
Proof.
  intros Hs Hstep. destruct Hstep as [i c Hi|i c Hi Hc Hw He|i c Hi Hc Hw|i c l l' d' Hi Hn|
    i c l r Hi Hn Hc|i c l r Hi Hn Hc|i r Hi]; pose proof (sim_status s a Hs i) as Hst; rewrite Hi in Hst.
  - eexists. split; [by apply sim_call|]. left. by constructor.
  - exists a. split; [|by right]. eapply sim_acquire; [done..|]. by rewrite Hc.
  - exists a. split; [|by right]. eapply sim_acquire; [done..|]. by rewrite Hc.
  - exists a. split; [|by right]. by eapply sim_access.
  - destruct (sim_release s a i c l r Hs Hi Hn) as [Happ Hsim]. rewrite Hc in Hsim.
    eexists. split; [exact Hsim|]. left. by econstructor.
  - destruct (sim_release s a i c l r Hs Hi Hn) as [Happ Hsim]. rewrite Hc in Hsim.
    eexists. split; [exact Hsim|]. left. by econstructor.
  - eexists. split; [by apply (sim_return s a i r)|]. left. by constructor.
Qed.

(** Histories of the concurrent object are histories of the atomic one. *)
Lemma linearizable d h s : chistory d h s → ∃ a, ahistory d h a ∧ sim s a.
Proof.
  induction 1 as [|h s e s' _ IH Hstep]; [eexists; split; [constructor|apply sim_start]|].
  destruct IH as (a & Ha & Hs). destruct (sim_step _ _ _ _ Hs Hstep) as (a' & Hs' & [Ha'|[-> ->]]).
  - exists a'. split; [by econstructor|done].
  - exists a. simpl. rewrite app_nil_r. done.
Qed.
(** ** Sequential executions

    The calls that took effect, in the order they did: one after the other they give the
    results that were returned. *)
Inductive sequential (d : D) : list (nat * C * R) → D → Prop :=
  | seq_nil : sequential d [] d
  | seq_snoc lin d1 i c d2 r :
      sequential d lin d1 → apply c d1 = (d2, r) → sequential d (lin ++ [(i, c, r)]) d2.

Definition calls (i : nat) (h : list event) : list C :=
  omap (λ e, match e with Call j c => if decide (j = i) then Some c else None | Return _ _ => None end) h.
Definition returns (i : nat) (h : list event) : list R :=
  omap (λ e, match e with Return j r => if decide (j = i) then Some r else None | Call _ _ => None end) h.
Definition callsOf (i : nat) (lin : list (nat * C * R)) : list C :=
  omap (λ x, if decide (x.1.1 = i) then Some x.1.2 else None) lin.
Definition resultsOf (i : nat) (lin : list (nat * C * R)) : list R :=
  omap (λ x, if decide (x.1.1 = i) then Some x.2 else None) lin.

Definition unreturned (u : astatus) : list R := match u with ADone r => [r] | _ => [] end.
Definition uneffected (u : astatus) : list C := match u with APending c => [c] | _ => [] end.

Lemma calls_visible i h e :
  calls i (h ++ visible e) =
    calls i h ++ match e with Some (Call j c) => if decide (j = i) then [c] else [] | _ => [] end.
Proof. unfold calls. rewrite omap_app. destruct e as [[j c|j r]|]; csimpl; [case_decide|..]; done. Qed.
Lemma returns_visible i h e :
  returns i (h ++ visible e) =
    returns i h ++ match e with Some (Return j r) => if decide (j = i) then [r] else [] | _ => [] end.
Proof. unfold returns. rewrite omap_app. destruct e as [[j c|j r]|]; csimpl; [|case_decide|]; done. Qed.
Lemma callsOf_snoc i lin j c r : callsOf i (lin ++ [(j, c, r)]) = callsOf i lin ++ if decide (j = i) then [c] else [].
Proof. unfold callsOf. rewrite omap_app; csimpl. by case_decide. Qed.
Lemma resultsOf_snoc i lin j c r : resultsOf i (lin ++ [(j, c, r)]) = resultsOf i lin ++ if decide (j = i) then [r] else [].
Proof. unfold resultsOf. rewrite omap_app; csimpl. by case_decide. Qed.

Lemma ahistory_sequential d h a :
  ahistory d h a → ∃ lin, sequential d lin (a_data a) ∧ ∀ i,
    resultsOf i lin = returns i h ++ unreturned (a_thread a i) ∧
    calls i h = callsOf i lin ++ uneffected (a_thread a i).
Proof.
  induction 1 as [|h a e a' _ (lin & Hlin & Hi) Hstep]; [exists []; by split; [constructor|]|].
  setoid_rewrite calls_visible. setoid_rewrite returns_visible.
  destruct Hstep as [i c Ha|i c d2 r Ha Happ|i r Ha].
  - exists lin. split; [done|]. intros j. destruct (Hi j) as [-> ->]. cbn [a_thread].
    destruct (decide (i = j)) as [<-|]; rewrite ?fn_lookup_insert, ?fn_lookup_insert_ne by done; [rewrite Ha|];
      simpl; by rewrite !app_nil_r.
  - exists (lin ++ [(i, c, r)]). split; [by econstructor|]. intros j. rewrite callsOf_snoc, resultsOf_snoc.
    destruct (Hi j) as [-> ->]. cbn [a_thread].
    destruct (decide (i = j)) as [<-|]; rewrite ?fn_lookup_insert, ?fn_lookup_insert_ne by done; [rewrite Ha|];
      simpl; by rewrite !app_nil_r.
  - exists lin. split; [done|]. intros j. destruct (Hi j) as [-> ->]. cbn [a_thread].
    destruct (decide (i = j)) as [<-|]; rewrite ?fn_lookup_insert, ?fn_lookup_insert_ne by done; [rewrite Ha|];
      simpl; by rewrite !app_nil_r.
Qed.

(** Every history of the concurrent object is explained by a sequential execution. *)
Lemma linearization d h s :
  chistory d h s → ∃ a lin, ahistory d h a ∧ (c_writer s = None → a_data a = c_data s) ∧
    sequential d lin (a_data a) ∧
    ∀ i, returns i h `prefix_of` resultsOf i lin ∧ callsOf i lin `prefix_of` calls i h.
Proof.
  intros (a & Ha & Hs)%linearizable. destruct (ahistory_sequential _ _ _ Ha) as (lin & Hlin & Hi).
  exists a, lin. split_and!; [done|apply (sim_data s a Hs)|done|].
  intros i. destruct (Hi i) as [Hr Hc]. split; [by exists (unreturned (a_thread a i))|by exists (uneffected (a_thread a i))].
Qed.
End Objects.
Arguments finishes_done {L R D} next.
Arguments finishes_step {L R D} next.

(** Run a straight-line body. *)
Ltac run_body := repeat (first [eapply finishes_done; reflexivity | eapply finishes_step; [reflexivity|]; simpl]).

(** ** The pod index *)
Section Pods.
Context `{RO : RangeOrder}.

Inductive PodCall :=
  | CallUpsert (nn : NamespacedName) (info : PodInfo)
  | CallDelete (nn : NamespacedName)
  | CallGet (nn : NamespacedName)
  | CallGetByIP (ip : string)
  | CallGetAll
  | CallGetPodsMatchingSelector (selector : GoMap)
  | CallSize.

Inductive PodResult := NoResult | ResPod (p : option PodInfo) | ResPods (ps : list PodInfo) | ResSize (n : nat).

(** Where a call is in its critical section. *)
Inductive PodPos :=
  | UpsertLookup (nn : NamespacedName) (info : PodInfo)
  | UpsertUnmap (nn : NamespacedName) (info : PodInfo) (ip : string)  (* delete(pi.ipToPod, existing.IP) *)
  | UpsertStore (nn : NamespacedName) (info : PodInfo)                (* pi.pods[namespacedName] = podCopy *)
  | UpsertMap (nn : NamespacedName) (info : PodInfo)                  (* pi.ipToPod[info.IP] = namespacedName *)
  | DeleteLookup (nn : NamespacedName)
  | DeleteUnmap (nn : NamespacedName) (ip : string)                   (* delete(pi.ipToPod, existing.IP) *)
  | DeleteRemove (nn : NamespacedName)                                (* delete(pi.pods, namespacedName) *)
  | GetLookup (nn : NamespacedName)
  | ByIPLookup (ip : string)                                          (* pi.ipToPod[ip] *)
  | ByIPPod (nn : NamespacedName)                                     (* pi.pods[namespacedName] *)
  | RangeStart (keep : PodInfo → bool)
  | RangeLoop (keep : PodInfo → bool) (todo : list NamespacedName) (result : list PodInfo)
  | SizeRead
  | Finished (r : PodResult).

Definition pod_writes (c : PodCall) : bool :=
  match c with CallUpsert _ _ | CallDelete _ => true | _ => false end.

Definition pod_enter (c : PodCall) : PodPos :=
  match c with
  | CallUpsert nn info => UpsertLookup nn info
  | CallDelete nn => DeleteLookup nn
  | CallGet nn => GetLookup nn
  | CallGetByIP ip => ByIPLookup ip
  | CallGetAll => RangeStart (λ _, true)
  | CallGetPodsMatchingSelector selector => RangeStart (λ info, LabelsContainAll (pod_Labels info) selector)
  | CallSize => SizeRead
  end.

(** One access to the maps. *)
Definition pod_next (l : PodPos) (pi : PodIndex) : (PodPos * PodIndex) + PodResult :=
  match l with
  | UpsertLookup nn info =>
      inl (match pods pi !! nn with
           | Some existing =>
               if bool_decide (pod_IP existing ≠ pod_IP info)
               then UpsertUnmap nn info (pod_IP existing) else UpsertStore nn info
           | None => UpsertStore nn info
           end, pi)
  | UpsertUnmap nn info ip => inl (UpsertStore nn info, mkPodIndex (pods pi) (delete ip (ipToPod pi)))
  | UpsertStore nn info => inl (UpsertMap nn info, mkPodIndex (<[nn := podCopy info]> (pods pi)) (ipToPod pi))
  | UpsertMap nn info => inl (Finished NoResult, mkPodIndex (pods pi) (<[pod_IP info := nn]> (ipToPod pi)))
  | DeleteLookup nn =>
      inl (match pods pi !! nn with
           | Some existing => DeleteUnmap nn (pod_IP existing)
           | None => Finished NoResult
           end, pi)
  | DeleteUnmap nn ip => inl (DeleteRemove nn, mkPodIndex (pods pi) (delete ip (ipToPod pi)))
  | DeleteRemove nn => inl (Finished NoResult, mkPodIndex (delete nn (pods pi)) (ipToPod pi))
  | GetLookup nn => inl (Finished (ResPod (podCopy <$> pods pi !! nn)), pi)
  | ByIPLookup ip =>
      inl (match ipToPod pi !! ip with Some nn => ByIPPod nn | None => Finished (ResPod None) end, pi)
  | ByIPPod nn => inl (Finished (ResPod (podCopy <$> pods pi !! nn)), pi)
  | RangeStart keep => inl (RangeLoop keep (range (pods pi)).*1 [], pi)
  | RangeLoop keep (nn :: todo) result =>
      inl (RangeLoop keep todo
             match pods pi !! nn with
             | Some info => if keep info then result ++ [podCopy info] else result
             | None => result
             end, pi)
  | RangeLoop keep [] result => inl (Finished (ResPods result), pi)
  | SizeRead => inl (Finished (ResSize (size (pods pi))), pi)
  | Finished r => inr r
  end.

(** The operations of PodIndex.v *)
Definition pod_apply (c : PodCall) (pi : PodIndex) : PodIndex * PodResult :=
  match c with
  | CallUpsert nn info => (PodIndex.Upsert pi nn info, NoResult)
  | CallDelete nn => (PodIndex.Delete pi nn, NoResult)
  | CallGet nn => (pi, ResPod (PodIndex.Get pi nn))
  | CallGetByIP ip => (pi, ResPod (GetByIP pi ip))
  | CallGetAll => (pi, ResPods (PodIndex.GetAll pi))
  | CallGetPodsMatchingSelector selector => (pi, ResPods (GetPodsMatchingSelector pi selector))
  | CallSize => (pi, ResSize (PodIndex.Size pi))
  end.

(** Positions of calls that only read. *)
Definition pod_reading (l : PodPos) : Prop :=
  match l with
  | GetLookup _ | ByIPLookup _ | ByIPPod _ | RangeStart _ | RangeLoop _ _ _ | SizeRead | Finished _ => True
  | _ => False
  end.

Lemma pod_reading_enter c : pod_writes c = false → pod_reading (pod_enter c).
Proof. by destruct c. Qed.

Lemma pod_reading_next l pi l' pi' :
  pod_reading l → pod_next l pi = inl (l', pi') → pod_reading l' ∧ pi' = pi.
Proof. destruct l as [| | | | | | | | | | |keep [|] res| |]; simpl; intros Hl [= <- <-]; repeat case_match; done. Qed.

Lemma range_body keep pi (l : list (NamespacedName * PodInfo)) result :
  (∀ nn info, (nn, info) ∈ l → pods pi !! nn = Some info) →
  finishes pod_next (RangeLoop keep l.*1 result) pi pi
    (ResPods (foldl (λ result '(_, info), if keep info then result ++ [podCopy info] else result) result l)).
Proof.
  revert result. induction l as [|[nn info] l IH]; intros result Hl; csimpl; [run_body|].
  eapply finishes_step; [reflexivity|]. rewrite (Hl nn info) by (by left).
  apply IH. intros nn' info' Hin. apply Hl. by right.
Qed.

Lemma pod_body c pi : finishes pod_next (pod_enter c) pi (pod_apply c pi).1 (pod_apply c pi).2.
Proof.
  assert (∀ keep, finishes pod_next (RangeStart keep) pi pi (ResPods (foldl (λ result '(_, info),
    if keep info then result ++ [podCopy info] else result) [] (range (pods pi))))) as Hrange.
  { intros keep. eapply finishes_step; [reflexivity|]. apply range_body. intros nn info. apply elem_of_range. }
  destruct c as [nn info|nn|nn|ip| |sel|]; simpl.
  - unfold PodIndex.Upsert. eapply finishes_step; [reflexivity|]. destruct (pods pi !! nn) as [e|].
    + case_bool_decide; run_body.
    + run_body.
  - unfold PodIndex.Delete. eapply finishes_step; [reflexivity|]. destruct (pods pi !! nn) as [e|]; run_body.
  - unfold PodIndex.Get. eapply finishes_step; [reflexivity|]. destruct (pods pi !! nn); run_body.
  - unfold GetByIP. eapply finishes_step; [reflexivity|]. destruct (ipToPod pi !! ip) as [nn|]; [|run_body].
    eapply finishes_step; [reflexivity|]. destruct (pods pi !! nn); run_body.
  - apply (Hrange (λ _, true)).
  - apply Hrange.
  - run_body.
Qed.
End Pods.

(** ** The policy index *)
Section Policies.
Context `{RO : RangeOrder} `{AM : ApiMachinery}.

Inductive PolicyCall :=
  | CallPolicyUpsert (policy : DnsPolicy)
  | CallPolicyDelete (nn : NamespacedName)
  | CallPolicyGet (nn : NamespacedName)
  | CallPolicyGetAll
  | CallPolicySize.

Inductive PolicyResult :=
  | ResSelector (selector : GoMap) | ResPolicy (p : option DnsPolicy) | ResPolicies (ps : list DnsPolicy)
  | ResPolicySize (n : nat).

Inductive PolicyPos :=
  | PolicyUpsertLookup (policy : DnsPolicy)
  | PolicyUpsertStore (policy : DnsPolicy) (oldSelector : GoMap)   (* pi.policies[namespacedName] = policy.DeepCopy() *)
  | PolicyDeleteLookup (nn : NamespacedName)
  | PolicyDeleteRemove (nn : NamespacedName) (selector : GoMap)    (* delete(pi.policies, namespacedName) *)
  | PolicyGetLookup (nn : NamespacedName)
  | PolicyRangeStart
  | PolicyRangeLoop (todo : list NamespacedName) (result : list DnsPolicy)
  | PolicySizeRead
  | PolicyFinished (r : PolicyResult).

Definition policy_writes (c : PolicyCall) : bool :=
  match c with CallPolicyUpsert _ | CallPolicyDelete _ => true | _ => false end.

Definition policy_enter (c : PolicyCall) : PolicyPos :=
  match c with
  | CallPolicyUpsert policy => PolicyUpsertLookup policy
  | CallPolicyDelete nn => PolicyDeleteLookup nn
  | CallPolicyGet nn => PolicyGetLookup nn
  | CallPolicyGetAll => PolicyRangeStart
  | CallPolicySize => PolicySizeRead
  end.

Definition policy_next (l : PolicyPos) (pi : PolicyIndex) : (PolicyPos * PolicyIndex) + PolicyResult :=
  match l with
  | PolicyUpsertLookup policy =>
      inl (PolicyUpsertStore policy
        match policies pi !! policy_key policy with Some existing => policy_selector existing | None => None end, pi)
  | PolicyUpsertStore policy oldSelector =>
      inl (PolicyFinished (ResSelector oldSelector),
           mkPolicyIndex (<[policy_key policy := DnsPolicy_DeepCopyInto policy]> (policies pi)))
  | PolicyDeleteLookup nn =>
      inl (match policies pi !! nn with
           | Some existing => PolicyDeleteRemove nn (policy_selector existing)
           | None => PolicyFinished (ResSelector None)
           end, pi)
  | PolicyDeleteRemove nn selector =>
      inl (PolicyFinished (ResSelector selector), mkPolicyIndex (delete nn (policies pi)))
  | PolicyGetLookup nn => inl (PolicyFinished (ResPolicy (DnsPolicy_DeepCopy (policies pi !! nn))), pi)
  | PolicyRangeStart => inl (PolicyRangeLoop (range (policies pi)).*1 [], pi)
  | PolicyRangeLoop (nn :: todo) result =>
      inl (PolicyRangeLoop todo
             match policies pi !! nn with
             | Some policy => result ++ [DnsPolicy_DeepCopyInto policy]
             | None => result
             end, pi)
  | PolicyRangeLoop [] result => inl (PolicyFinished (ResPolicies result), pi)
  | PolicySizeRead => inl (PolicyFinished (ResPolicySize (size (policies pi))), pi)
  | PolicyFinished r => inr r
  end.

(** The operations of PolicyIndex.v *)
Definition policy_apply (c : PolicyCall) (pi : PolicyIndex) : PolicyIndex * PolicyResult :=
  match c with
  | CallPolicyUpsert policy => let '(pi, old) := PolicyIndex.Upsert pi policy in (pi, ResSelector old)
  | CallPolicyDelete nn => let '(pi, old) := PolicyIndex.Delete pi nn in (pi, ResSelector old)
  | CallPolicyGet nn => (pi, ResPolicy (PolicyIndex.Get pi nn))
  | CallPolicyGetAll => (pi, ResPolicies (PolicyIndex.GetAll pi))
  | CallPolicySize => (pi, ResPolicySize (PolicyIndex.Size pi))
  end.

Definition policy_reading (l : PolicyPos) : Prop :=
  match l with
  | PolicyGetLookup _ | PolicyRangeStart | PolicyRangeLoop _ _ | PolicySizeRead | PolicyFinished _ => True
  | _ => False
  end.

Lemma policy_reading_enter c : policy_writes c = false → policy_reading (policy_enter c).
Proof. by destruct c. Qed.

Lemma policy_reading_next l pi l' pi' :
  policy_reading l → policy_next l pi = inl (l', pi') → policy_reading l' ∧ pi' = pi.
Proof. destruct l as [| | | | | |[|] res| |]; simpl; intros Hl [= <- <-]; done. Qed.

Lemma policy_range_body pi (l : list (NamespacedName * DnsPolicy)) result :
  (∀ nn p, (nn, p) ∈ l → policies pi !! nn = Some p) →
  finishes policy_next (PolicyRangeLoop l.*1 result) pi pi
    (ResPolicies (foldl (λ ps '(_, policy), ps ++ [DnsPolicy_DeepCopyInto policy]) result l)).
Proof.
  revert result. induction l as [|[nn p] l IH]; intros result Hl; csimpl; [run_body|].
  eapply finishes_step; [reflexivity|]. rewrite (Hl nn p) by (by left).
  apply IH. intros nn' p' Hin. apply Hl. by right.
Qed.

Lemma policy_body c pi : finishes policy_next (policy_enter c) pi (policy_apply c pi).1 (policy_apply c pi).2.
Proof.
  destruct c as [p|nn|nn| |]; simpl.
  - run_body.
  - unfold PolicyIndex.Delete. eapply finishes_step; [reflexivity|]. destruct (policies pi !! nn); run_body.
  - unfold PolicyIndex.Get. eapply finishes_step; [reflexivity|]. destruct (policies pi !! nn); run_body.
  - eapply finishes_step; [reflexivity|]. apply policy_range_body. intros nn p. apply elem_of_range.
  - run_body.
Qed.
End Policies.

(** ** Properties *)
Section Properties.
Context `{RO : RangeOrder} `{AM : ApiMachinery}.

(** C12: the pod index is linearizable. However goroutines call its methods, with every
    access to its two maps a step of its own and only the readers-writer mutex keeping
    them apart: the calls and returns are those of an index whose operations happen at
    one instant between call and return, the index holds what these operations left, and
    there is a sequential order of the calls in which each goroutine, in its own order
    of calls, gets the results it was given. *)
Theorem pod_index_linearizable h s :
  chistory pod_writes pod_enter pod_next NewPodIndex h s →
  ∃ a lin, ahistory pod_apply NewPodIndex h a ∧ (c_writer s = None → a_data a = c_data s) ∧
    sequential pod_apply NewPodIndex lin (a_data a) ∧
    ∀ i, returns i h `prefix_of` resultsOf i lin ∧ callsOf i lin `prefix_of` calls i h.
Proof.
  apply (linearization _ _ _ _ pod_body pod_reading); [apply pod_reading_enter|apply pod_reading_next].
Qed.

(** C13: the policy index is linearizable, in the same sense: in particular the selector
    that [Upsert] and [Delete] return is the one the policy had at the instant it was
    replaced or removed. *)
Theorem policy_index_linearizable h s :
  chistory policy_writes policy_enter policy_next NewPolicyIndex h s →
  ∃ a lin, ahistory policy_apply NewPolicyIndex h a ∧ (c_writer s = None → a_data a = c_data s) ∧
    sequential policy_apply NewPolicyIndex lin (a_data a) ∧
    ∀ i, returns i h `prefix_of` resultsOf i lin ∧ callsOf i lin `prefix_of` calls i h.
Proof.
  apply (linearization _ _ _ _ policy_body policy_reading); [apply policy_reading_enter|apply policy_reading_next].
Qed.
End Properties.

(** ** Runs: a lookup that begins before an update has finished *)
#[local] Existing Instance order_fwd.
#[local] Existing Instance simple_machinery.

Definition nn_a : NamespacedName := mkNN "default" "a".
Definition info_a : PodInfo := mkPodInfo "10.0.0.7" (Some {["app" := "web"]}) "default" "a".
Definition policy_a : DnsPolicy :=
  mkPolicy (mkObjectMeta "default" "a" 1 None None) (mkSpec (Some {["app" := "web"]}) (Some ["ads.com"]) None false false None)
    (mkStatus "" "" 0 None).

Definition pod_overlap : list event :=
  [Call 0 (CallUpsert nn_a info_a); Call 1 (CallGet nn_a); Return 1 (ResPod (Some info_a)); Return 0 NoResult].
Definition pod_moves : list move :=
  [Invoke 0 (CallUpsert nn_a info_a); Go 0; Go 0; Invoke 1 (CallGet nn_a); Go 0; Go 0; Go 0; Go 1; Go 1; Go 1; Go 1; Go 0].

Lemma pod_overlap_run :
  fst <$> do_moves pod_writes pod_enter pod_next pod_moves (cstart NewPodIndex) = Some pod_overlap.
Proof. vm_compute. reflexivity. Qed.

Lemma pod_index_linearizable_witness :
  ∃ a lin, ahistory pod_apply NewPodIndex pod_overlap a ∧ sequential pod_apply NewPodIndex lin (a_data a) ∧
    [ResPod (Some info_a)] `prefix_of` resultsOf 1 lin.
Proof.
  pose proof pod_overlap_run as Hrun.
  destruct (do_moves pod_writes pod_enter pod_next pod_moves (cstart NewPodIndex)) as [[h s]|] eqn:Hm; [|discriminate Hrun].
  injection Hrun as Hh. simpl in Hh. subst h.
  destruct (pod_index_linearizable pod_overlap s) as (a & lin & Ha & _ & Hs & Hi).
  - exact (do_moves_sound _ _ _ _ _ [] _ _ _ (ch_start _ _ _ _) Hm).
  - exists a, lin. split; [exact Ha|]. split; [exact Hs|]. exact (proj1 (Hi 1)).
Defined.

Definition policy_overlap : list event :=
  [Call 0 (CallPolicyUpsert policy_a); Call 1 (CallPolicyDelete nn_a);
   Return 1 (ResSelector (Some {["app" := "web"]})); Return 0 (ResSelector None)].
Definition policy_moves : list move :=
  [Invoke 0 (CallPolicyUpsert policy_a); Go 0; Go 0; Invoke 1 (CallPolicyDelete nn_a); Go 0; Go 0;
   Go 1; Go 1; Go 1; Go 1; Go 1; Go 0].

Lemma policy_overlap_run :
  fst <$> do_moves policy_writes policy_enter policy_next policy_moves (cstart NewPolicyIndex) = Some policy_overlap.
Proof. vm_compute. reflexivity. Qed.

Lemma policy_index_linearizable_witness :
  ∃ a lin, ahistory policy_apply NewPolicyIndex policy_overlap a ∧
    sequential policy_apply NewPolicyIndex lin (a_data a) ∧
    [ResSelector (Some {["app" := "web"]})] `prefix_of` resultsOf 1 lin.
Proof.
  pose proof policy_overlap_run as Hrun.
  destruct (do_moves policy_writes policy_enter policy_next policy_moves (cstart NewPolicyIndex)) as [[h s]|] eqn:Hm;
    [|discriminate Hrun].
  injection Hrun as Hh. simpl in Hh. subst h.
  destruct (policy_index_linearizable policy_overlap s) as (a & lin & Ha & _ & Hs & Hi).
  - exact (do_moves_sound _ _ _ _ _ [] _ _ _ (ch_start _ _ _ _) Hm).
  - exists a, lin. split; [exact Ha|]. split; [exact Hs|]. exact (proj1 (Hi 1)).
Defined.
