(* ===== verification/Queue.v ===== *)
(** * The controllers with their work queues

    [SetupWithManager] puts each reconciler behind a queue: a change of a watched
    object puts its name into the queue, for pods when the event filter lets the
    event through; a worker takes names out one by one, and puts a name back when the
    reconciliation returns an error. The API server keeps the objects and may fail
    any call. What the queues hold is what is left to do: names that are in no queue
    are in step with the cluster. *)

From S2P Require Import Prelude Types Selectors Stores Client.
From S2P Require Import PodIndex PolicyIndex BlocklistCache PolicyReconciler PodReconciler System.

(** ** API servers that may fail *)

(** The calls of one reconciliation that fail, with their errors. *)
Record Faults := mkFaults {
  f_Get : option goerror;
  f_Update : option goerror;
  f_StatusUpdate : option goerror;
}.
Definition noFaults : Faults := mkFaults None None None.

Record PolicyApi := mkPolicyApi { pa_objects : ApiServer; pa_faults : Faults }.

Definition api_Get (a : PolicyApi) (nn : NamespacedName) : DnsPolicy + goerror :=
  match f_Get (pa_faults a) with
  | Some err => inr err
  | None => server_Get (pa_objects a) nn
  end.

(** A call that fails changes nothing. *)
Definition faulty (a : PolicyApi) (fault : option goerror)
    (call : ApiServer → DnsPolicy → ApiServer * (DnsPolicy + goerror)) (p : DnsPolicy)
    : PolicyApi * (DnsPolicy + goerror) :=
  match fault with
  | Some err => (a, inr err)
  | None => let '(o, r) := call (pa_objects a) p in (mkPolicyApi o (pa_faults a), r)
  end.

Lemma api_Get_key a nn p : api_Get a nn = inl p → policy_key p = nn.
Proof. unfold api_Get. case_match; [done|]. apply server_Get_key. Qed.

#[export] Instance policy_api : PolicyClient PolicyApi := {|
  client_Get := api_Get;
  client_Update a := faulty a (f_Update (pa_faults a)) server_Update;
  client_StatusUpdate a := faulty a (f_StatusUpdate (pa_faults a)) server_StatusUpdate;
  client_Get_key := api_Get_key;
|}.

Abbreviation Pods := (gmap NamespacedName Pod).
Record PodApi := mkPodApi { pd_objects : Pods; pd_fault : option goerror }.

Definition podApi_Get (b : PodApi) (nn : NamespacedName) : Pod + goerror :=
  match pd_fault b with
  | Some err => inr err
  | None =>
      match pd_objects b !! nn with
      | Some p => if decide (PodNamespacedName p = nn) then inl p else inr err_NotFound
      | None => inr err_NotFound
      end
  end.

Lemma podApi_Get_key b nn p : podApi_Get b nn = inl p → PodNamespacedName p = nn.
Proof. unfold podApi_Get. repeat case_match; naive_solver. Qed.

#[export] Instance pod_api : PodClient PodApi := {|
  pod_client_Get := podApi_Get;
  pod_client_Get_key := podApi_Get_key;
|}.

(** Objects are stored under their names. *)
Definition keyed (a : ApiServer) : Prop := map_Forall (λ k p, policy_key p = k) a.
Definition pods_keyed (b : Pods) : Prop := map_Forall (λ k p, PodNamespacedName p = k) b.

(** ** Events *)

(** Every change of a DnsPolicy is an event for its name. *)
Definition changed (a a' : ApiServer) : gset NamespacedName :=
  filter (λ k, a !! k ≠ a' !! k) (dom a ∪ dom a').

(** A change of a pod is an event when the filter lets it through. *)
Section Events.
Context `{RO : RangeOrder}.

Definition podEvent (old new : option Pod) : bool :=
  match old, new with
  | None, None => false
  | None, Some pod => podEventFilter (CreateEvent (ObjPod pod))
  | Some pod, Some pod' => podEventFilter (UpdateEvent (ObjPod pod) (ObjPod pod'))
  | Some pod, None => podEventFilter (DeleteEvent (ObjPod pod))
  end.

Definition podEvents (b b' : Pods) : gset NamespacedName :=
  filter (λ k, podEvent (b !! k) (b' !! k) = true) (dom b ∪ dom b').
End Events.

Lemma elem_of_changed a a' k : k ∈ changed a a' ↔ a !! k ≠ a' !! k.
Proof.
  unfold changed. rewrite elem_of_filter, elem_of_union, !elem_of_dom.
  split; [naive_solver|]. intros Hne. split; [done|].
  destruct (a !! k), (a' !! k); [left|left|right|]; by eauto.
Qed.

Lemma elem_of_podEvents `{RO : RangeOrder} b b' k :
  k ∈ podEvents b b' ↔ podEvent (b !! k) (b' !! k) = true.
Proof.
  unfold podEvents. rewrite elem_of_filter, elem_of_union, !elem_of_dom.
  split; [naive_solver|]. intros Hev. split; [done|].
  destruct (b !! k), (b' !! k); [left|left|right|]; by eauto.
Qed.

(** ** The system *)

Record QState := mkQ {
  q_world : World PolicyApi PodApi;
  q_policies : gset NamespacedName;
  q_pods : gset NamespacedName;
}.

Definition objects (s : QState) : ApiServer := pa_objects (st_api (w_state (q_world s))).
Definition podObjects (s : QState) : Pods := pd_objects (w_pods (q_world s)).
Definition cacheOf (s : QState) : Cache := w_cache (q_world s).

(** A name goes back into the queue when its reconciliation failed. *)
Definition requeue (k : NamespacedName) (err : option goerror) : gset NamespacedName :=
  match err with Some _ => {[k]} | None => ∅ end.

Section Queue.
Context `{AM : ApiMachinery}.

Definition qstart (a : ApiServer) (b : Pods) : QState :=
  mkQ (init (mkPodApi b None) (mkPolicyApi a noFaults)) (dom a) (podEvents (RO:=order_fwd) ∅ b).

(** The worker of the DnsPolicy controller takes a name; what it writes to the API
    server are changes like any other. *)
Definition withFaults (s : QState) (f : Faults) : RState PolicyApi :=
  set_api (w_state (q_world s)) (mkPolicyApi (objects s) f).

Definition policyWork (RO : RangeOrder) (now : Time) (f : Faults) (k : NamespacedName) (s : QState) : QState :=
  let '(st, err) := PolicyReconciler.Reconcile now (withFaults s f) k in
  mkQ (mkWorld (w_pods (q_world s)) st)
    ((q_policies s ∖ {[k]}) ∪ changed (objects s) (pa_objects (st_api st)) ∪ requeue k err) (q_pods s).

Definition podWork (RO : RangeOrder) (f : option goerror) (k : NamespacedName) (s : QState) : QState :=
  let b := mkPodApi (podObjects s) f in
  let '(bc, err) := PodReconciler.Reconcile b (cacheOf s) k in
  mkQ (mkWorld b (set_cache (w_state (q_world s)) bc))
    (q_policies s) ((q_pods s ∖ {[k]}) ∪ requeue k err).

(** Somebody changes objects of the cluster. *)
Definition changePolicies (a' : ApiServer) (s : QState) : QState :=
  mkQ (mkWorld (w_pods (q_world s)) (set_api (w_state (q_world s)) (mkPolicyApi a' noFaults)))
    (q_policies s ∪ changed (objects s) a') (q_pods s).
Definition changePods (RO : RangeOrder) (b' : Pods) (s : QState) : QState :=
  mkQ (mkWorld (mkPodApi b' None) (w_state (q_world s)))
    (q_policies s) (q_pods s ∪ podEvents (podObjects s) b').

(** A failure to read is not taken for the absence of the object. *)
Definition read_fault (f : option goerror) : Prop := ∀ err, f = Some err → IsNotFound err = false.

(** The steps, labelled by what they read of an object. *)
Inductive qstep (s : QState) : option Read → QState → Prop :=
  | q_policy RO now f k :
      k ∈ q_policies s → read_fault (f_Get f) →
      qstep s (Some (ReadPolicy k (api_Get (mkPolicyApi (objects s) f) k))) (policyWork RO now f k s)
  | q_pod RO f k :
      k ∈ q_pods s → read_fault f →
      qstep s (Some (ReadPod k (podApi_Get (mkPodApi (podObjects s) f) k))) (podWork RO f k s)
  | q_change_policies a' : keyed a' → qstep s None (changePolicies a' s)
  | q_change_pods RO b' : pods_keyed b' → qstep s None (changePods RO b' s)
  | q_resync ks ks' : qstep s None (mkQ (q_world s) (q_policies s ∪ ks) (q_pods s ∪ ks')).

(** The states after runs that meet the condition. *)
Inductive qreachable (ok : RunCondition) : QState → Prop :=
  | qreachable_start a b : keyed a → pods_keyed b → qreachable ok (qstart a b)
  | qreachable_step s l s' :
      qreachable ok s → qstep s l s' → (∀ rd, l = Some rd → ok (cacheOf s) rd) → qreachable ok s'.

Lemma qreachable_mono (ok1 ok2 : RunCondition) s :
  (∀ bc rd, ok1 bc rd → ok2 bc rd) → qreachable ok1 s → qreachable ok2 s.
Proof.
  intros Hok. induction 1 as [|s l s' _ IH Hs Hr]; [by constructor|].
  eapply qreachable_step; [exact IH|exact Hs|]. eauto.
Qed.

(** Its states are states of the system without queues. *)
Lemma reachable_pods ok (w : World PolicyApi PodApi) (b : PodApi) :
  reachable ok w → reachable ok (mkWorld b (w_state w)).
Proof.
  destruct w as [b0 [a bc evs]]. intros Hw.
  by apply (reachable_step ok (mkWorld b0 (mkRState a bc evs)) (EvCluster a b)).
Qed.

Lemma reachable_policies ok (w : World PolicyApi PodApi) (a : PolicyApi) :
  reachable ok w → reachable ok (mkWorld (w_pods w) (set_api (w_state w) a)).
Proof. intros Hw. by apply (reachable_step ok w (EvCluster a (w_pods w))). Qed.

Lemma qreachable_world ok s : qreachable ok s → reachable ok (q_world s).
Proof.
  induction 1 as [a b _ _|s l s' _ IH Hs Hok]; [apply reachable_init|].
  destruct Hs as [RO now f k _ _|RO f k _ _|a' _|RO b' _|ks ks']; [| | | |done].
  - pose proof (reachable_policies ok _ (mkPolicyApi (objects s) f) IH) as Hw.
    apply (reachable_step ok _ (EvPolicy RO now k)) in Hw; [|intros rd [= <-]; by apply Hok].
    unfold policyWork. simpl in Hw. unfold policy_step in Hw. simpl in Hw. fold (withFaults s f) in Hw.
    by destruct (PolicyReconciler.Reconcile now (withFaults s f) k).
  - pose proof (reachable_pods ok _ (mkPodApi (podObjects s) f) IH) as Hw.
    apply (reachable_step ok _ (EvPod RO k)) in Hw; [|intros rd [= <-]; by apply Hok].
    unfold podWork. simpl in Hw. unfold pod_step, w_cache in Hw. unfold cacheOf, w_cache. simpl in Hw.
    by destruct (PodReconciler.Reconcile (mkPodApi (podObjects s) f) (st_cache (w_state (q_world s))) k).
  - by apply reachable_policies.
  - by apply reachable_pods.
Qed.
End Queue.

(** ** What the API server holds after a reconciliation *)
Section Writes.
Context `{RO : RangeOrder} `{AM : ApiMachinery}.
Implicit Types (a : PolicyApi) (st : RState PolicyApi).

(** A write that succeeds replaces the object, or removes it. *)
Lemma update_writes a f p a' r q :
  faulty a f server_Update p = (a', inl r) → q ≠ p → pa_objects a' !! policy_key p ≠ Some q.
Proof.
  unfold faulty, server_Update. intros Hw Hne. repeat case_match; simplify_eq/=.
  - by rewrite lookup_delete_eq.
  - rewrite lookup_insert_eq. congruence.
Qed.

(** Writes touch the object of their name only. *)
Lemma update_frame a f p a' r :
  faulty a f server_Update p = (a', r) →
  (∀ k, k ≠ policy_key p → pa_objects a' !! k = pa_objects a !! k) ∧
  (keyed (pa_objects a) → keyed (pa_objects a')) ∧
  pa_faults a' = pa_faults a.
Proof.
  unfold faulty, server_Update. intros Hw. repeat case_match; simplify_eq/=; split_and!; try done.
  - intros k Hk. by rewrite lookup_delete_ne.
  - intros Hkey. by apply map_Forall_delete.
  - intros k Hk. by rewrite lookup_insert_ne.
  - intros Hkey. by apply map_Forall_insert_2.
Qed.

Lemma status_frame a f p a' r :
  faulty a f server_StatusUpdate p = (a', r) →
  (∀ k, k ≠ policy_key p → pa_objects a' !! k = pa_objects a !! k) ∧
  (keyed (pa_objects a) → keyed (pa_objects a')) ∧
  pa_faults a' = pa_faults a.
Proof.
  unfold faulty, server_StatusUpdate. intros Hw. repeat case_match; simplify_eq/=; split_and!; try done.
  - intros k Hk. by rewrite lookup_insert_ne.
  - intros Hkey. apply map_Forall_insert_2; [|done]. unfold policy_key at 1; simpl.
    by apply (Hkey (policy_key p)).
Qed.

Lemma AddFinalizer_key p f :
  ContainsFinalizer (p_ObjectMeta p) f = false →
  policy_key (with_meta p (AddFinalizer (p_ObjectMeta p) f)) = policy_key p.
Proof. intros Hf. unfold policy_key, with_meta; simpl. by rewrite AddFinalizer_spec. Qed.

Lemma RemoveFinalizer_key p f :
  policy_key (with_meta p (RemoveFinalizer (p_ObjectMeta p) f)) = policy_key p.
Proof.
  destruct (RemoveFinalizer_spec (p_ObjectMeta p) f) as (Hns & Hn & _).
  unfold policy_key, with_meta; simpl. by rewrite Hns, Hn.
Qed.

Lemma AddFinalizer_contains o f :
  ContainsFinalizer o f = false → ContainsFinalizer (AddFinalizer o f) f = true.
Proof.
  intros Hf. rewrite AddFinalizer_spec by done. apply ContainsFinalizer_spec. simpl. set_solver.
Qed.

Lemma RemoveFinalizer_contains o f : ContainsFinalizer (RemoveFinalizer o f) f = false.
Proof.
  apply not_true_iff_false. rewrite ContainsFinalizer_spec.
  destruct (RemoveFinalizer_spec o f) as (_ & _ & _ & _ & ->).
  rewrite list_elem_of_filter. naive_solver.
Qed.

Lemma server_Get_lookup (a : ApiServer) k p : server_Get a k = inl p → a !! k = Some p.
Proof. unfold server_Get. repeat case_match; naive_solver. Qed.

(** A reconciliation writes only the object it is asked for. *)
Lemma Reconcile_frame now st k :
  let a := st_api st in
  let a' := st_api (PolicyReconciler.Reconcile now st k).1 in
  (∀ k', k' ≠ k → pa_objects a' !! k' = pa_objects a !! k') ∧
  (keyed (pa_objects a) → keyed (pa_objects a')).
Proof.
  unfold PolicyReconciler.Reconcile. destruct (client_Get (st_api st) k) as [p|err] eqn:Hget;
    [|case_match; [unfold reconcileNotFound; by case_match|done]].
  apply client_Get_key in Hget as <-.
  destruct (Time_IsZero _), (ContainsFinalizer _ _) eqn:Hf; simpl; [| | |done].
  - case_bool_decide; [done|]. unfold reconcileValid.
    destruct (PolicyIndex.Upsert _ p); case_bool_decide; [|done]. simpl.
    match goal with |- context [faulty ?a ?f server_StatusUpdate ?q] =>
      destruct (faulty a f server_StatusUpdate q) as [a' [r|r]] eqn:Hw;
      apply status_frame in Hw as (Hfr & Hk & _);
      assert (policy_key q = policy_key p) as Heq by (unfold updateCondition; by case_match; case_match)
    end; rewrite Heq in Hfr; done.
  - unfold reconcileAddFinalizer; simpl.
    destruct (faulty _ _ _ _) as [a' [r|r]] eqn:Hw; apply update_frame in Hw as (Hfr & Hk & _);
      rewrite AddFinalizer_key in Hfr; done.
  - unfold reconcileDeletion. destruct (PolicyIndex.Delete _ _); simpl.
    destruct (faulty _ _ _ _) as [a' [r|r]] eqn:Hw; apply update_frame in Hw as (Hfr & Hk & _);
      rewrite RemoveFinalizer_key in Hfr; simpl in *; case_bool_decide; done.
Qed.
End Writes.

(** ** In step with the cluster

    What the policy index and the pod index hold for a name, against the object of
    that name. *)
Section Synced.
Context `{AM : ApiMachinery}.

Definition polSynced (r : DnsPolicy + goerror) (i : option DnsPolicy) : Prop :=
  match r with
  | inr _ => i = None
  | inl p =>
      if Time_IsZero (om_DeletionTimestamp (p_ObjectMeta p))
      then mlen (policy_selector p) ≠ 0 ∧ i = Some p
      else ContainsFinalizer (p_ObjectMeta p) dnsPolicyFinalizer = false
  end.

(** Pods without an address are not looked at. *)
Definition podSynced (o : option Pod) (i : option PodInfo) : Prop :=
  match o with
  | None => i = None
  | Some pod =>
      k_PodIP pod ≠ "" →
      (k_Phase pod = PodRunning → is_Some i) ∧
      ∀ info, i = Some info → info = normal (infoOf pod)
  end.

(** What being in step says of objects stored under their names. *)
Lemma polSynced_live (a : ApiServer) k p i :
  keyed a → a !! k = Some p → Time_IsZero (om_DeletionTimestamp (p_ObjectMeta p)) = true →
  polSynced (server_Get a k) i → i = Some p.
Proof.
  intros Hk Hp Hl Hs. unfold server_Get in Hs. rewrite Hp, decide_True in Hs by (by apply (Hk k)).
  simpl in Hs. rewrite Hl in Hs. by destruct Hs.
Qed.

Lemma polSynced_indexed (a : ApiServer) k p :
  keyed a → map_Forall (λ _ p, Time_IsZero (om_DeletionTimestamp (p_ObjectMeta p)) = true) a →
  polSynced (server_Get a k) (Some p) → a !! k = Some p.
Proof.
  intros Hk Hlive Hs. unfold server_Get in Hs. destruct (a !! k) as [p'|] eqn:Hp; [|done].
  rewrite decide_True in Hs by (by apply (Hk k)). simpl in Hs. rewrite (Hlive k p' Hp) in Hs.
  destruct Hs; congruence.
Qed.

Lemma podSynced_running o i pod :
  o = Some pod → k_Phase pod = PodRunning → k_PodIP pod ≠ "" → podSynced o i →
  i = Some (normal (infoOf pod)).
Proof. intros -> Hph Hip Hs. destruct (Hs Hip) as [[info Hi] Hv]; [done|]. by rewrite Hi, (Hv info Hi). Qed.

(** A reconciliation that succeeds without writing anything leaves its name in step. *)
Lemma Reconcile_settles (RO : RangeOrder) now (st st' : RState PolicyApi) k :
  PolicyReconciler.Reconcile now st k = (st', None) →
  read_fault (f_Get (pa_faults (st_api st))) →
  pa_objects (st_api st') !! k = pa_objects (st_api st) !! k →
  polSynced (server_Get (pa_objects (st_api st')) k) (policies (policyIndex (st_cache st')) !! k).
Proof.
  intros Hr Hf Hsame. destruct (Reconcile_indexes now st k) as [_ Hidx]. rewrite Hr in Hidx.
  simpl in Hidx. rewrite Hidx.
  assert (server_Get (pa_objects (st_api st')) k = server_Get (pa_objects (st_api st)) k) as ->
    by (unfold server_Get; by rewrite Hsame).
  clear Hidx. revert Hr. unfold PolicyReconciler.Reconcile, indexAfter; simpl.
  unfold api_Get. destruct (f_Get (pa_faults (st_api st))) as [err|] eqn:Hfe.
  { rewrite (Hf err) by done. done. }
  destruct (server_Get (pa_objects (st_api st)) k) as [p|err] eqn:Hget; simpl.
  2:{ unfold server_Get in Hget. assert (err = err_NotFound) as -> by (repeat case_match; congruence).
      rewrite (proj2 (IsNotFound_spec err_NotFound)) by (by eexists). by rewrite lookup_delete_eq. }
  pose proof (server_Get_key _ _ _ Hget) as Hkey. apply server_Get_lookup in Hget. subst k.
  destruct (Time_IsZero _) eqn:Htz, (ContainsFinalizer _ _) eqn:Hfin; simpl; try done.
  - case_bool_decide; [done|]. by rewrite lookup_insert_eq.
  - unfold reconcileAddFinalizer; simpl. destruct (faulty _ _ _ _) as [a' [r|r]] eqn:Hw; [|done].
    intros [= <-]. simpl in Hsame. destruct (update_writes _ _ _ _ _ p Hw).
    + intros Heq. pose proof (AddFinalizer_contains _ _ Hfin) as Hc.
      apply (f_equal p_ObjectMeta) in Heq. simpl in Heq. congruence.
    + by rewrite AddFinalizer_key, Hsame.
  - unfold reconcileDeletion. destruct (PolicyIndex.Delete _ _); simpl.
    destruct (faulty _ _ _ _) as [a' [r|r]] eqn:Hw; [|done].
    intros [= <-]. simpl in Hsame. destruct (update_writes _ _ _ _ _ p Hw).
    + intros Heq. pose proof (RemoveFinalizer_contains (p_ObjectMeta p) dnsPolicyFinalizer) as Hc.
      apply (f_equal p_ObjectMeta) in Heq. simpl in Heq. congruence.
    + by rewrite RemoveFinalizer_key, Hsame.
Qed.

Lemma indexAfter_ne (st : RState PolicyApi) k k' :
  k' ≠ k → indexAfter st k !! k' = policies (policyIndex (st_cache st)) !! k'.
Proof.
  intros Hne. unfold indexAfter. repeat case_match; try done;
    by rewrite ?lookup_delete_ne, ?lookup_insert_ne.
Qed.

Lemma pods_Delete (pi : PodIndex) k : pods (PodIndex.Delete pi k) = delete k (pods pi).
Proof. unfold PodIndex.Delete. case_match; [done|]. by rewrite delete_id. Qed.

(** The same for pods: a reconciliation that succeeds leaves its name in step. *)
Lemma PodReconcile_settles (RO : RangeOrder) b (bc bc' : Cache) k :
  PodReconciler.Reconcile b bc k = (bc', None) →
  pods_keyed (pd_objects b) → read_fault (pd_fault b) →
  podSynced (pd_objects b !! k) (pods (podIndex bc') !! k).
Proof.
  intros Hr Hkey Hf. rewrite Reconcile_cases in Hr. revert Hr. simpl. unfold podApi_Get.
  destruct (pd_fault b) as [err|]; [by rewrite (Hf err)|].
  destruct (pd_objects b !! k) as [pod|] eqn:Hpod; simpl.
  - rewrite decide_True by (by apply (Hkey k pod)). intros Hr Hip.
    rewrite (proj2 (str_empty_false _)) in Hr by done. injection Hr as <-.
    destruct (podIndex_cacheAfterPod bc k (infoOf pod)) as [-> _]. unfold PodIndex.Upsert; simpl.
    rewrite lookup_insert_eq, podCopy_normal. split; [by eexists|congruence].
  - rewrite (proj2 (IsNotFound_spec err_NotFound)) by (by eexists). intros [= <-]; simpl.
    by rewrite pods_Delete, lookup_delete_eq.
Qed.

(** A reconciliation leaves the other names of the pod index alone. *)
Lemma PodReconcile_frame (RO : RangeOrder) (b : PodApi) (bc : Cache) k k' :
  k' ≠ k → pods (podIndex (PodReconciler.Reconcile b bc k).1) !! k' = pods (podIndex bc) !! k'.
Proof.
  intros Hne. rewrite Reconcile_cases. repeat case_match; simpl; try done.
  - match goal with |- context [cacheAfterPod ?b ?r ?i] =>
      destruct (podIndex_cacheAfterPod b r i) as [-> _] end.
    unfold PodIndex.Upsert; simpl. by rewrite lookup_insert_ne.
  - by rewrite pods_Delete, lookup_delete_ne.
Qed.

Lemma PodReconcile_policies (RO : RangeOrder) (b : PodApi) (bc : Cache) k :
  policyIndex (PodReconciler.Reconcile b bc k).1 = policyIndex bc.
Proof.
  rewrite Reconcile_cases. repeat case_match; simpl; try done.
  - match goal with |- context [cacheAfterPod ?b ?r ?i] =>
      destruct (podIndex_cacheAfterPod b r i) as [_ ->] end. done.
  - unfold removeExisting. by case_match.
Qed.

(** A change of a pod that the filter drops keeps its name in step. *)
Lemma podSynced_filtered (RO : RangeOrder) k old new i :
  podEvent old new = false →
  (∀ pod, old = Some pod → PodNamespacedName pod = k) →
  (∀ pod, new = Some pod → PodNamespacedName pod = k) →
  podSynced old i → podSynced new i.
Proof.
  destruct old as [old|], new as [new|]; intros Hev Hko Hkn Hs; [|done| |done].
  - pose proof (proj1 (proj2 (pod_event_filter_spec old new))) as Hspec.
    cbn [podEvent] in Hev. rewrite Hev in Hspec. apply not_iff_compat in Hspec. assert (false ≠ true) as Hn by done.
    apply Hspec in Hn. clear Hspec. intros Hip.
    destruct (decide (k_PodIP old = k_PodIP new)) as [Hipe|]; [|naive_solver].
    destruct (decide (contents (k_Labels old) = contents (k_Labels new))) as [Hl|]; [|naive_solver].
    destruct Hs as [Hrun Hval]; [congruence|]. split.
    + intros Hph. apply Hrun. destruct (decide (k_Phase old = PodRunning)); naive_solver.
    + intros info Hi. rewrite (Hval info Hi). specialize (Hko old eq_refl). specialize (Hkn new eq_refl).
      subst k. unfold PodNamespacedName in Hkn. injection Hkn as Hns Hname.
      unfold normal, infoOf; simpl. by rewrite Hl, Hipe, Hns, Hname.
  - intros Hip. simpl in Hs. subst i. split; [|done]. intros Hph.
    simpl in Hev. by rewrite (proj2 (str_empty_false _) Hip), bool_decide_true in Hev.
Qed.

(** ** The invariant: names that are in no queue are in step *)
Record qinv (s : QState) : Prop := {
  qi_keyed : keyed (objects s);
  qi_pods_keyed : pods_keyed (podObjects s);
  qi_policies k : k ∉ q_policies s →
    polSynced (server_Get (objects s) k) (policies (policyIndex (cacheOf s)) !! k);
  qi_pods k : k ∉ q_pods s →
    podSynced (podObjects s !! k) (pods (podIndex (cacheOf s)) !! k);
}.

Lemma qinv_start a b : keyed a → pods_keyed b → qinv (qstart a b).
Proof.
  intros Ha Hb. split; [done..| |]; simpl; intros k Hk.
  - apply not_elem_of_dom in Hk. unfold server_Get, objects; simpl. by rewrite Hk, lookup_empty.
  - rewrite elem_of_podEvents, lookup_empty in Hk. apply not_true_is_false in Hk.
    eapply (podSynced_filtered order_fwd k None); [exact Hk|done|exact (Hb k)|done].
Qed.

Lemma qinv_policyWork RO now f k s : read_fault (f_Get f) → qinv s → qinv (policyWork RO now f k s).
Proof.
  intros Hf [Hk Hpk Hpol Hpod]. unfold policyWork.
  pose proof (Reconcile_frame now (withFaults s f) k) as [Hfr Hkey].
  pose proof (Reconcile_indexes now (withFaults s f) k) as [Hpi Hidx].
  destruct (PolicyReconciler.Reconcile now (withFaults s f) k) as [st err] eqn:Hr. simpl in *.
  split; [by apply Hkey|done| |].
  - intros k' Hk'. simpl in Hk'. unfold objects, cacheOf; simpl.
    rewrite !not_elem_of_union, not_elem_of_difference, elem_of_singleton, elem_of_changed in Hk'.
    destruct Hk' as [[Hq Hc] Hre]. destruct (decide (k' = k)) as [->|Hne].
    + destruct err; [by destruct Hre; apply elem_of_singleton|].
      apply (Reconcile_settles RO now (withFaults s f)); [done..|]. symmetry. by apply dec_stable.
    + unfold w_cache; simpl. rewrite Hidx, indexAfter_ne by done. destruct Hq as [Hq|]; [|done].
      unfold server_Get. rewrite Hfr by done. by apply Hpol.
  - intros k' Hk'. unfold cacheOf, w_cache; simpl. rewrite Hpi. by apply Hpod.
Qed.

Lemma qinv_podWork RO f k s : read_fault f → qinv s → qinv (podWork RO f k s).
Proof.
  intros Hf [Hk Hpk Hpol Hpod]. unfold podWork.
  set (b := mkPodApi (podObjects s) f).
  pose proof (PodReconcile_frame RO b (cacheOf s) k) as Hfr.
  pose proof (PodReconcile_policies RO b (cacheOf s) k) as Hpl.
  destruct (PodReconciler.Reconcile b (cacheOf s) k) as [bc err] eqn:Hr. simpl in *.
  split; [done..| |]; intros k' Hk'; simpl in Hk'; unfold cacheOf, w_cache; simpl.
  - rewrite Hpl. by apply Hpol.
  - rewrite not_elem_of_union, not_elem_of_difference, elem_of_singleton in Hk'.
    destruct Hk' as [Hq Hre]. destruct (decide (k' = k)) as [->|Hne].
    + destruct err; [by destruct Hre; apply elem_of_singleton|].
      apply (PodReconcile_settles RO b (cacheOf s)); done.
    + rewrite Hfr by done. destruct Hq as [Hq|]; [|done]. by apply Hpod.
Qed.

Lemma qinv_step s l s' : qinv s → qstep s l s' → qinv s'.
Proof.
  intros Hi Hs. destruct Hs as [RO now f k _ Hf|RO f k _ Hf|a' Ha|RO b' Hb|ks ks'].
  - by apply qinv_policyWork.
  - by apply qinv_podWork.
  - destruct Hi as [Hk Hpk Hpol Hpod]. split; [done..| |exact Hpod]. intros k Hq; simpl in Hq.
    rewrite not_elem_of_union, elem_of_changed in Hq. destruct Hq as [Hq Hc%dec_stable].
    unfold objects, server_Get; simpl. rewrite <- Hc. by apply Hpol.
  - destruct Hi as [Hk Hpk Hpol Hpod]. split; [done..|exact Hpol|]. intros k Hq; simpl in Hq.
    rewrite not_elem_of_union, elem_of_podEvents in Hq. destruct Hq as [Hq Hc%not_true_is_false].
    apply (podSynced_filtered RO k (podObjects s !! k)); [exact Hc|exact (Hpk k)|exact (Hb k)|].
    by apply Hpod.
  - destruct Hi as [Hk Hpk Hpol Hpod]. split; [done..| |]; intros k Hq; simpl in Hq;
      apply not_elem_of_union in Hq as [Hq _]; auto.
Qed.

Lemma qinv_reachable ok s : qreachable ok s → qinv s.
Proof. induction 1; [by apply qinv_start|by eapply qinv_step]. Qed.
End Synced.

(** ** Draining the queues

    How often a name is still reconciled when nothing fails and nobody else writes:
    a new policy gets its finalizer, then its status, and is read once more; a deleted
    one loses its finalizer. *)
Section Drain.
Context `{AM : ApiMachinery}.

Definition work (a : ApiServer) (k : NamespacedName) : nat :=
  match server_Get a k with
  | inr _ => 1
  | inl p =>
      let finalized := ContainsFinalizer (p_ObjectMeta p) dnsPolicyFinalizer in
      if Time_IsZero (om_DeletionTimestamp (p_ObjectMeta p)) then
        if finalized then
          if bool_decide (ObservedGeneration (p_Status p) ≠ om_Generation (p_ObjectMeta p)) then 2 else 1
        else 3
      else if finalized then 2 else 1
  end.

Definition totalWork (a : ApiServer) (ks : gset NamespacedName) : nat :=
  sum_list_with (work a) (elements ks).

Definition pending (s : QState) : nat := totalWork (objects s) (q_policies s) + size (q_pods s).

(** Live policies have selectors. *)
Definition valid_specs (a : ApiServer) : Prop :=
  map_Forall (λ _ p, Time_IsZero (om_DeletionTimestamp (p_ObjectMeta p)) = true →
    mlen (policy_selector p) ≠ 0) a.

(** A worker takes a name, nothing fails. *)
Inductive worker : QState → QState → Prop :=
  | work_policy RO now k s : k ∈ q_policies s → worker s (policyWork RO now noFaults k s)
  | work_pod RO k s : k ∈ q_pods s → worker s (podWork RO None k s).

Lemma work_pos a k : 1 ≤ work a k.
Proof. unfold work. repeat case_match; lia. Qed.

Lemma pending_bound s : pending s ≤ 3 * size (q_policies s) + size (q_pods s).
Proof.
  unfold pending, totalWork, size, set_size. simpl.
  induction (elements (q_policies s)) as [|k l IH]; simpl; [lia|].
  assert (work (objects s) k ≤ 3) by (unfold work; repeat case_match; lia). lia.
Qed.

Lemma totalWork_remove a ks k :
  k ∈ ks → totalWork a ks = work a k + totalWork a (ks ∖ {[k]}).
Proof.
  intros Hk. unfold totalWork. rewrite (union_difference_singleton_L k ks) at 1 by done.
  rewrite (elements_disj_union {[k]}) by set_solver.
  by rewrite elements_singleton.
Qed.

Lemma totalWork_add a ks k :
  totalWork a (ks ∪ {[k]}) ≤ work a k + totalWork a (ks ∖ {[k]}).
Proof.
  rewrite (totalWork_remove a _ k) by set_solver.
  by replace ((ks ∪ {[k]}) ∖ {[k]}) with (ks ∖ {[k]}) by set_solver.
Qed.

Lemma totalWork_ext a a' ks :
  (∀ k, k ∈ ks → a' !! k = a !! k) → totalWork a' ks = totalWork a ks.
Proof.
  intros Hext. unfold totalWork. 
  assert (∀ k, k ∈ elements ks → work a' k = work a k) as Hw.
  { intros k Hk%elem_of_elements. unfold work, server_Get. by rewrite Hext. }
  induction (elements ks) as [|k l IH]; [done|]. simpl.
  rewrite Hw by set_solver. rewrite IH by set_solver. done.
Qed.

(** A stored object, written back with new metadata or a new status. *)
Lemma server_Update_stored (a : ApiServer) p q :
  a !! policy_key p = Some q →
  server_Update a p = (delete (policy_key p) a, inl p) ∨
  server_Update a p = (<[policy_key p := p]> a, inl p).
Proof. intros Hq. unfold server_Update. rewrite Hq. case_decide; auto. Qed.
Lemma valid_specs_write (a : ApiServer) p q :
  valid_specs a → a !! policy_key p = Some q →
  p_Spec p = p_Spec q → om_DeletionTimestamp (p_ObjectMeta p) = om_DeletionTimestamp (p_ObjectMeta q) →
  valid_specs (<[policy_key p := p]> a).
Proof.
  intros Hv Hq Hs Hd. apply map_Forall_insert_2; [|done]. unfold policy_selector.
  rewrite Hs, Hd. exact (Hv _ _ Hq).
Qed.

(** An update of a stored object: what it leaves to do. *)
Lemma update_progress (a : ApiServer) p q n :
  a !! policy_key p = Some q → valid_specs a →
  p_Spec p = p_Spec q → om_DeletionTimestamp (p_ObjectMeta p) = om_DeletionTimestamp (p_ObjectMeta q) →
  1 < n → work {[policy_key p := p]} (policy_key p) < n →
  ∃ a', server_Update a p = (a', inl p) ∧ valid_specs a' ∧ work a' (policy_key p) < n.
Proof.
  intros Hq Hv Hs Hd Hn Hw. destruct (server_Update_stored a p q Hq) as [->| ->]; eexists; split_and!; try done.
  - by apply map_Forall_delete.
  - unfold work, server_Get. by rewrite lookup_delete_eq.
  - by eapply valid_specs_write.
  - unfold work, server_Get in *. by rewrite lookup_insert_eq, lookup_singleton_eq in *.
Qed.

(** The status update of a policy whose generation is not the observed one. *)
Lemma status_progress (a : ApiServer) p p' :
  a !! policy_key p = Some p → valid_specs a → p_ObjectMeta p' = p_ObjectMeta p →
  ObservedGeneration (p_Status p') = om_Generation (p_ObjectMeta p) →
  Time_IsZero (om_DeletionTimestamp (p_ObjectMeta p)) = true →
  ContainsFinalizer (p_ObjectMeta p) dnsPolicyFinalizer = true →
  ∃ a' r, server_StatusUpdate a p' = (a', inl r) ∧ valid_specs a' ∧ work a' (policy_key p) < 2.
Proof.
  intros Hp Hv Hm Ho Htz Hfin. set (q := mkPolicy (p_ObjectMeta p) (p_Spec p) (p_Status p')).
  assert (policy_key p' = policy_key p) as Hk by (unfold policy_key; by rewrite Hm).
  exists (<[policy_key p := q]> a), q. unfold server_StatusUpdate. rewrite Hk, Hp. split_and!; [done| |].
  - by apply (valid_specs_write _ q p).
  - unfold work, server_Get. rewrite lookup_insert_eq, decide_True by done. simpl.
    rewrite Htz, Hfin, bool_decide_false by naive_solver. lia.
Qed.

Lemma Reconcile_progress (RO : RangeOrder) now (st : RState PolicyApi) k :
  pa_faults (st_api st) = noFaults → valid_specs (pa_objects (st_api st)) →
  let '(st', err) := PolicyReconciler.Reconcile now st k in
  let a := pa_objects (st_api st) in
  let a' := pa_objects (st_api st') in
  err = None ∧ valid_specs a' ∧ (a' !! k = a !! k ∨ work a' k < work a k).
Proof.
  intros Hf Hv. unfold PolicyReconciler.Reconcile; simpl. unfold api_Get. rewrite Hf; simpl.
  destruct (server_Get (pa_objects (st_api st)) k) as [p|err] eqn:Hget.
  2:{ unfold server_Get in Hget. assert (err = err_NotFound) as -> by (repeat case_match; congruence).
      rewrite (proj2 (IsNotFound_spec err_NotFound)) by (by eexists).
      unfold reconcileNotFound. destruct (PolicyIndex.Delete _ _). simpl. auto. }
  pose proof (server_Get_key _ _ _ Hget) as Hkey.
  pose proof (server_Get_lookup _ _ _ Hget) as Hp. subst k.
  assert (work (pa_objects (st_api st)) (policy_key p) = work {[policy_key p := p]} (policy_key p)) as Hwp
    by (unfold work, server_Get; by rewrite Hp, lookup_singleton_eq).
  rewrite Hwp. clear Hwp. unfold work at 2, server_Get at 1. rewrite lookup_singleton_eq, decide_True by done.
  destruct (Time_IsZero _) eqn:Htz, (ContainsFinalizer _ _) eqn:Hfin; simpl; [| | |auto].
  - rewrite bool_decide_false by exact (Hv _ _ Hp Htz). unfold reconcileValid.
    destruct (PolicyIndex.Upsert _ p) as [idx old]. case_bool_decide as Hobs; [|simpl; auto].
    simpl. rewrite Hf; simpl. set (p' := updateCondition _ _ _ _ _ _).
    assert (p_ObjectMeta p' = p_ObjectMeta p ∧
      ObservedGeneration (p_Status p') = om_Generation (p_ObjectMeta p)) as [Hm Ho]
      by (unfold p', updateCondition; by case_match; case_match).
    destruct (status_progress (pa_objects (st_api st)) p p') as (a' & r & Hu & Hv' & Hw); [done..|].
    unfold faulty. rewrite Hu. simpl. auto.
  - unfold reconcileAddFinalizer; simpl. rewrite Hf; simpl.
    set (p' := with_meta p _). pose proof (AddFinalizer_key p dnsPolicyFinalizer Hfin) as Hk. fold p' in Hk.
    edestruct (update_progress (pa_objects (st_api st)) p' p 3) as (a' & Hu & Hv' & Hw);
      [by rewrite Hk|done|done|unfold p'; simpl; by rewrite AddFinalizer_spec|lia| |].
    { unfold work, server_Get. rewrite lookup_singleton_eq, decide_True by done.
      unfold p'; simpl. rewrite (AddFinalizer_contains _ _ Hfin). repeat case_match; lia. }
    unfold faulty. rewrite Hu. simpl. rewrite Hk in Hw. auto.
  - unfold reconcileDeletion. destruct (PolicyIndex.Delete _ _); simpl.
    set (p' := with_meta p _). pose proof (RemoveFinalizer_key p dnsPolicyFinalizer) as Hk. fold p' in Hk.
    edestruct (update_progress (pa_objects (st_api st)) p' p 2) as (a' & Hu & Hv' & Hw);
      [by rewrite Hk|done|done|by apply RemoveFinalizer_spec|lia| |].
    { unfold work, server_Get. rewrite lookup_singleton_eq, decide_True by done.
      unfold p'; simpl. rewrite RemoveFinalizer_contains.
      destruct (RemoveFinalizer_spec (p_ObjectMeta p) dnsPolicyFinalizer) as (_ & _ & _ & -> & _).
      rewrite Htz. lia. }
    rewrite Hk in Hw. case_bool_decide; unfold faulty; simpl; rewrite Hf; simpl; rewrite Hu; simpl; auto.
Qed.
Lemma pending_policy RO now k s :
  k ∈ q_policies s → valid_specs (objects s) →
  valid_specs (objects (policyWork RO now noFaults k s)) ∧
  pending (policyWork RO now noFaults k s) < pending s.
Proof.
  intros Hk Hv. unfold policyWork.
  pose proof (Reconcile_frame now (withFaults s noFaults) k) as [Hfr _].
  pose proof (Reconcile_progress RO now (withFaults s noFaults) k eq_refl Hv) as Hpr.
  destruct (PolicyReconciler.Reconcile now (withFaults s noFaults) k) as [st err]. simpl in *.
  destruct Hpr as (-> & Hv' & Hw). split; [done|]. unfold pending; simpl.
  set (a := objects s) in *. set (a' := pa_objects (st_api st)) in *.
  change (objects _) with a'.
  set (q := q_policies s ∖ {[k]}).
  assert (totalWork a' q = totalWork a q) as Hq by (apply totalWork_ext; intros k' ?; apply Hfr; set_solver).
  rewrite (totalWork_remove a (q_policies s) k) by done. fold q. pose proof (work_pos a k).
  destruct (decide (a' !! k = a !! k)) as [Hsame|Hdiff].
  - assert (changed a a' = ∅) as ->.
    { apply elem_of_equiv_empty_L. intros k' Hk'%elem_of_changed. destruct Hk'.
      destruct (decide (k' = k)) as [->|]; [done|]. symmetry. by apply Hfr. }
    rewrite !(right_id_L ∅ (∪)), Hq. lia.
  - assert (changed a a' = {[k]}) as ->.
    { apply set_eq. intros k'. rewrite elem_of_changed, elem_of_singleton. split; [|naive_solver].
      intros Hne. destruct (decide (k' = k)) as [|Hne']; [done|]. destruct Hne. symmetry. by apply Hfr. }
    rewrite (right_id_L ∅ (∪)). pose proof (totalWork_add a' q k) as Hadd.
    unfold q in Hadd at 2. rewrite difference_twice_L in Hadd. fold q in Hadd. destruct Hw as [|Hw]; [done|]. lia.
Qed.

Lemma pending_pod RO k s :
  k ∈ q_pods s →
  objects (podWork RO None k s) = objects s ∧ pending (podWork RO None k s) < pending s.
Proof.
  intros Hk. unfold podWork. rewrite Reconcile_cases.
  assert (∀ bc, let s' := mkQ (mkWorld (mkPodApi (podObjects s) None) (set_cache (w_state (q_world s)) bc))
    (q_policies s) (q_pods s ∖ {[k]} ∪ requeue k None) in objects s' = objects s ∧ pending s' < pending s) as Hs.
  { intros bc s'. split; [done|]. unfold pending, s'; simpl. rewrite (right_id_L ∅ (∪)).
    change (objects _) with (objects s) at 1.
    assert (size (q_pods s ∖ {[k]}) < size (q_pods s)) by (apply subset_size; set_solver). lia. }
  destruct (pod_client_Get _ k) as [pod|err] eqn:Hget; [destruct (str_empty (k_PodIP pod)); apply Hs|].
  assert (err = err_NotFound) as -> by (revert Hget; simpl; unfold podApi_Get; simpl; repeat case_match; congruence).
  rewrite (proj2 (IsNotFound_spec err_NotFound)) by (by eexists). apply Hs.
Qed.

Lemma worker_pending s s' :
  worker s s' → valid_specs (objects s) → valid_specs (objects s') ∧ pending s' < pending s.
Proof.
  intros [RO now k s0 Hk|RO k s0 Hk] Hv; [by apply pending_policy|].
  destruct (pending_pod RO k s0 Hk) as [-> ?]. done.
Qed.

Lemma worker_progress s : (q_policies s = ∅ ∧ q_pods s = ∅) ∨ ∃ s', worker s s'.
Proof.
  destruct (decide (q_policies s = ∅)) as [Hp|[k Hk]%set_choose_L].
  - destruct (decide (q_pods s = ∅)) as [|[k Hk]%set_choose_L]; [by left|].
    right. eexists. by apply (work_pod order_fwd k s).
  - right. eexists. by apply (work_policy order_fwd 0%Z k s).
Qed.

Lemma worker_bounded n s s' :
  nsteps worker n s s' → valid_specs (objects s) →
  valid_specs (objects s') ∧ n + pending s' ≤ pending s.
Proof.
  induction 1 as [s|n s s1 s' Hstep _ IH]; intros Hv; [split; [done|lia]|].
  destruct (worker_pending _ _ Hstep Hv) as [Hv1 Hlt]. destruct (IH Hv1) as [? ?]. split; [done|lia].
Qed.

Lemma worker_drains s :
  valid_specs (objects s) → ∃ m s', nsteps worker m s s' ∧ q_policies s' = ∅ ∧ q_pods s' = ∅.
Proof.
  induction s as [s IH] using (induction_ltof1 _ pending). unfold ltof in IH. intros Hv.
  destruct (worker_progress s) as [[? ?]|[s1 Hs1]]; [exists 0, s; by repeat constructor|].
  destruct (worker_pending _ _ Hs1 Hv) as [Hv1 Hlt]. destruct (IH s1 Hlt Hv1) as (m & s' & Hm & Hq).
  exists (S m), s'. split; [|done]. by econstructor.
Qed.
End Drain.

(** ** Properties *)
Section Properties.
Context `{RO : RangeOrder} `{AM : ApiMachinery}.

Definition live (p : DnsPolicy) : Prop :=
  Time_IsZero (om_DeletionTimestamp (p_ObjectMeta p)) = true.

(** With the queues empty, the indexes are the cluster's objects. *)
Lemma settled_policy s pn p :
  qinv s → q_policies s = ∅ → objects s !! pn = Some p → live p →
  policies (policyIndex (cacheOf s)) !! pn = Some p.
Proof.
  intros [Hk _ Hpol _] Hq Hp Hl. eapply polSynced_live; [exact Hk|exact Hp|exact Hl|]. apply Hpol. set_solver.
Qed.

Lemma settled_policy_inv s pn p :
  qinv s → q_policies s = ∅ → map_Forall (λ _ p, live p) (objects s) →
  policies (policyIndex (cacheOf s)) !! pn = Some p → objects s !! pn = Some p.
Proof.
  intros [Hk _ Hpol _] Hq Hlive Hi. apply polSynced_indexed; [done..|]. rewrite <- Hi. apply Hpol. set_solver.
Qed.

Lemma settled_pod s nn pod :
  qinv s → q_pods s = ∅ → podObjects s !! nn = Some pod → k_Phase pod = PodRunning → k_PodIP pod ≠ "" →
  pods (podIndex (cacheOf s)) !! nn = Some (normal (infoOf pod)).
Proof.
  intros [_ _ _ Hpod] Hq Hp Hph Hip. eapply podSynced_running; [exact Hp|done..|]. apply Hpod. set_solver.
Qed.

Lemma settled_pod_inv s nn info :
  qinv s → q_pods s = ∅ → map_Forall (λ _ pod, k_PodIP pod ≠ "") (podObjects s) →
  pods (podIndex (cacheOf s)) !! nn = Some info →
  ∃ pod, podObjects s !! nn = Some pod ∧ info = normal (infoOf pod).
Proof.
  intros [_ _ _ Hpod] Hq Hip Hi. specialize (Hpod nn). rewrite Hq, Hi in Hpod.
  destruct (podObjects s !! nn) as [pod|] eqn:Hp; simpl in Hpod.
  - exists pod. split; [done|]. apply Hpod; [set_solver|by apply (Hip nn)|done].
  - by discriminate Hpod; set_solver.
Qed.

Lemma Selects_normal sel pod :
  Selects sel (pod_Labels (normal (infoOf pod))) ↔ Selects sel (k_Labels pod).
Proof. by apply (Selects_proper sel sel eq_refl). Qed.

(** C2: what is served when the queues are empty. The two controllers start on any
    cluster and run with their work queues, one reconciliation at a time; reconciliations
    come in any order, every API call may fail, where a failed read is not reported as
    absence, and objects may change at any time, where changes of pods reach the queue
    only through the event filter. In a state where both queues are empty: each domain a
    live policy lists is served for the address of each running pod the policy selects, if
    no pod was reconciled with that address while another indexed pod had it. And what is
    served for an address comes from a pod of the cluster with that address and a policy
    of the cluster that selects it, if moreover no policy was reconciled for deletion that
    had been edited, since it was indexed, so that it no longer selects the pod, no policy
    of the cluster is being deleted now, and every pod of the cluster has an address. *)
Theorem quiescent_serves_cluster s :
  q_policies s = ∅ → q_pods s = ∅ →
  (∀ nn pod pn policy d,
    podObjects s !! nn = Some pod → k_Phase pod = PodRunning → k_PodIP pod ≠ "" →
    qreachable (one_pod (k_PodIP pod)) s →
    objects s !! pn = Some policy → live policy →
    Selects (policy_selector policy) (k_Labels pod) → d ∈ elems (BlockList (p_Spec policy)) →
    serves (cacheOf s) (k_PodIP pod) d) ∧
  (∀ ip d, qreachable (undisturbed ip) s →
    map_Forall (λ _ p, live p) (objects s) → map_Forall (λ _ pod, k_PodIP pod ≠ "") (podObjects s) →
    serves (cacheOf s) ip d → ∃ nn pod pn policy,
      podObjects s !! nn = Some pod ∧ k_PodIP pod = ip ∧
      objects s !! pn = Some policy ∧ Selects (policy_selector policy) (k_Labels pod) ∧
      d ∈ elems (BlockList (p_Spec policy))).
Proof.
  intros Hq1 Hq2. split.
  - intros nn pod pn policy d Hpod Hph Hip Hr Hpol Hl Hsel Hd. pose proof (qinv_reachable _ s Hr) as Hi.
    apply (serves_complete RO (q_world s)); [by apply qreachable_world|done|].
    exists nn, (normal (infoOf pod)), pn, policy. split_and!;
      [by apply settled_pod|done|by apply settled_policy|by apply Selects_normal|done].
  - intros ip d Hr Hlive Hips Hserved. pose proof (qinv_reachable _ s Hr) as Hi.
    pose proof (qreachable_world _ s Hr) as Hw.
    destruct (serves_indexed RO (q_world s) _ ip d Hw Hserved) as [Hne _].
    apply (serves_exact RO (q_world s)) in Hserved as (nn & info & pn & policy & Hpod & Hip & Hpol & Hsel & Hd); [|done..].
    apply settled_pod_inv in Hpod as (pod & Hpod & ->); [|done..]. apply Selects_normal in Hsel.
    exists nn, pod, pn, policy. split_and!; try done. by apply settled_policy_inv.
Qed.

(** C6: the controllers come to rest. When the API server answers, nobody else writes
    and every live policy has a selector, the workers stop: a run of reconciliations
    from a state is at most as long as the work that is pending there (at most three
    reconciliations for a policy in the queue, one for a pod), and every run goes on to a
    state where both queues are empty. The controllers' own writes, which put names
    back into the queue, do not keep them busy. *)
Theorem queue_drains s n s' :
  valid_specs (objects s) → nsteps worker n s s' →
  n ≤ pending s ∧ pending s ≤ 3 * size (q_policies s) + size (q_pods s) ∧
  ∃ m s'', nsteps worker m s' s'' ∧ n + m ≤ pending s ∧ q_policies s'' = ∅ ∧ q_pods s'' = ∅.
Proof.
  intros Hv Hn. destruct (worker_bounded _ _ _ Hn Hv) as [Hv' Hle].
  destruct (worker_drains s' Hv') as (m & s'' & Hm & Hq).
  destruct (worker_bounded _ _ _ Hm Hv') as [_ Hle']. split_and!; [lia|apply pending_bound|].
  exists m, s''. split_and!; try apply Hq; [done|lia].
Qed.

(** One attempt at a policy without a selector: the name is back in the queue, and
    nothing else has changed. *)
Lemma invalid_policy_attempt now f k s p :
  objects s !! k = Some p → policy_key p = k → live p →
  ContainsFinalizer (p_ObjectMeta p) dnsPolicyFinalizer = true → mlen (policy_selector p) = 0 →
  read_fault (f_Get f) →
  let s' := policyWork RO now f k s in
  k ∈ q_policies s' ∧ objects s' = objects s ∧ cacheOf s' = cacheOf s.
Proof.
  intros Hp Hk Hl Hf Hm Hfault s'. unfold s', policyWork, PolicyReconciler.Reconcile; simpl.
  unfold api_Get, server_Get; simpl. destruct (f_Get f) as [err|] eqn:Hget.
  { rewrite (Hfault err) by done. split; [set_solver|done]. }
  rewrite Hp, decide_True by done. rewrite Hl, Hf; simpl.
  rewrite bool_decide_true by done. simpl. split; [set_solver|done].
Qed.

(** C10: an edit that empties the selector of a policy is never reported and never takes
    effect. However often the policy is reconciled, at whatever times and with whatever
    failing calls (a failed read not being reported as absence): its name is in the
    queue again, no object of the cluster has changed (the condition Ready=False is
    never written), and the cache is the same (a version of the policy that was
    indexed before stays enforced). *)
Theorem invalid_policy_retried k s p (attempts : list (Time * Faults)) :
  objects s !! k = Some p → policy_key p = k → live p →
  ContainsFinalizer (p_ObjectMeta p) dnsPolicyFinalizer = true → mlen (policy_selector p) = 0 →
  k ∈ q_policies s → Forall (λ a, read_fault (f_Get a.2)) attempts →
  let s' := foldl (λ s '(now, f), policyWork RO now f k s) s attempts in
  k ∈ q_policies s' ∧ objects s' = objects s ∧ cacheOf s' = cacheOf s.
Proof.
  intros Hp Hk Hl Hf Hm Hq Hall. revert s Hp Hq.
  induction Hall as [|[now f] attempts Hfault _ IH]; intros s Hp Hq; simpl; [done|].
  destruct (invalid_policy_attempt now f k s p Hp Hk Hl Hf Hm Hfault) as (Hq' & Ho & Hc).
  destruct (IH (policyWork RO now f k s)) as (Hq'' & Ho' & Hc'); [by rewrite Ho|done|].
  split_and!; [done|by rewrite Ho'|by rewrite Hc'].
Qed.
End Properties.
