(* ===== verification/QueueExamples.v ===== *)
(** * Concrete runs of the controllers with their queues

    A start on the cluster of Examples.v, runs to empty queues, and a run that shows why
    the converse half of the queue theorem asks for pods with addresses. *)

From S2P Require Import Prelude Types Selectors Stores Client.
From S2P Require Import PodIndex PolicyIndex BlocklistCache PolicyReconciler PodReconciler System.
From S2P Require Import Examples Queue.

#[local] Existing Instance order_fwd.
#[local] Existing Instance simple_machinery.

(** The pod is reconciled, then the policy, whose finalizer and status are in place. *)
Definition s0 : QState := qstart (api policy_fin) cluster_pods.
Definition s1 : QState := podWork order_fwd None nn_web s0.
Definition s2 : QState := policyWork order_fwd 7%Z noFaults nn_ads s1.

Lemma keyed_api p : policy_key p = nn_ads → keyed (api p).
Proof. intros Hp. by apply map_Forall_singleton. Qed.
Lemma keyed_pods pod : PodNamespacedName pod = nn_web → pods_keyed {[nn_web := pod]}.
Proof. intros Hp. by apply map_Forall_singleton. Qed.

Lemma qreachable_s1 : qreachable undisturbing s1.
Proof.
  eapply qreachable_step;
    [apply qreachable_start; [exact (keyed_api policy_fin eq_refl)|exact (keyed_pods pod_web eq_refl)]
    |apply (q_pod _ order_fwd None nn_web); [decide_now|done]|].
  intros rd [= <-]. apply undisturbing_pod. intros nn p Hget. discriminate Hget.
Qed.

Lemma qreachable_s2 : qreachable undisturbing s2.
Proof.
  eapply qreachable_step; [apply qreachable_s1|apply (q_policy _ order_fwd 7%Z noFaults nn_ads); [decide_now|done]|].
  intros rd [= <-]. by apply undisturbing_live.
Qed.

Lemma qreachable_s2_at ip : qreachable (undisturbed ip) s2.
Proof. eapply qreachable_mono; [|exact qreachable_s2]. intros bc rd Hok. exact (Hok ip). Qed.

Lemma quiescent_serves_cluster_witness :
  serves (cacheOf s2) "10.0.0.1" "ads.com" ∧
  (∀ d, serves (cacheOf s2) "10.0.0.1" d → ∃ nn pod pn p,
    podObjects s2 !! nn = Some pod ∧ k_PodIP pod = "10.0.0.1" ∧ objects s2 !! pn = Some p ∧
    Selects (policy_selector p) (k_Labels pod) ∧ d ∈ elems (BlockList (p_Spec p))).
Proof.
  destruct (quiescent_serves_cluster s2) as [Hc Hn]; [decide_now|decide_now|]. split.
  - apply (Hc nn_web pod_web nn_ads policy_fin "ads.com");
      [vm_compute; reflexivity|reflexivity|discriminate| | | | |].
    + eapply qreachable_mono; [|exact (qreachable_s2_at "10.0.0.1")]. intros bc rd Hok. apply Hok.
    + vm_compute. reflexivity.
    + vm_compute. reflexivity.
    + decide_now.
    + right. left.
  - intros d. apply (Hn "10.0.0.1" d (qreachable_s2_at _)); by apply map_Forall_singleton.
Defined.

(** A new policy is reconciled three times: finalizer, status, and once more. *)
Definition t0 : QState := qstart (api policy_new) cluster_pods.

Lemma valid_specs_t0 : valid_specs (objects t0).
Proof. apply map_Forall_singleton. intros _. by vm_compute. Qed.

Example pending_t0 : pending t0 = 4.
Proof. vm_compute. reflexivity. Qed.

Lemma queue_drains_witness :
  ∃ m s'', nsteps worker m t0 s'' ∧ m ≤ 4 ∧ q_policies s'' = ∅ ∧ q_pods s'' = ∅.
Proof.
  destruct (queue_drains t0 0 t0) as (_ & _ & m & s'' & Hm & Hle & Hq);
    [exact valid_specs_t0|apply nsteps_O|].
  rewrite pending_t0 in Hle. exists m, s''. split_and!; [exact Hm|exact Hle|apply Hq..].
Defined.

(** The selector of the enforced policy is removed: after three attempts, one with a
    failing read, the name is still in the queue and the old version is still served. *)
Definition policy_bare : DnsPolicy := policy None None [dnsPolicyFinalizer] 2.
Definition u0 : QState := changePolicies (api policy_bare) s2.
Definition attempts : list (Time * Faults) :=
  [(8%Z, noFaults); (9%Z, mkFaults (Some (Errorf "connection refused")) None None); (10%Z, noFaults)].

Lemma invalid_policy_retried_witness :
  let s' := foldl (λ s '(now, f), policyWork order_fwd now f nn_ads s) u0 attempts in
  nn_ads ∈ q_policies s' ∧ objects s' = api policy_bare ∧
  GetBlocklist (cacheOf s') = [mkEntry "10.0.0.1" ["ads.com"; "track.io"]].
Proof.
  intros s'. destruct (invalid_policy_retried nn_ads u0 policy_bare attempts) as (Hq & Ho & Hc);
    [vm_compute; reflexivity..|decide_now| |].
  - repeat constructor; by intros err [= <-].
  - change (objects s' = objects u0) in Ho. change (cacheOf s' = cacheOf u0) in Hc.
    split_and!; [exact Hq|rewrite Ho; vm_compute; reflexivity|rewrite Hc; vm_compute; reflexivity].
Defined.

(** ** A pod that is recreated before its deletion is handled

    The pod is deleted, and one of the same name, which has no address yet, is created
    before the worker takes the name. The reconciliation finds the new pod and skips it;
    creations of pods without an address are filtered out. *)
Definition pod_pending : Pod := mkPod "default" "web-1" sel_web "" "Pending".
Definition s3 : QState := changePods order_fwd ∅ s2.
Definition s4 : QState := changePods order_fwd {[nn_web := pod_pending]} s3.
Definition s5 : QState := podWork order_fwd None nn_web s4.

Lemma qreachable_s5 : qreachable undisturbing s5.
Proof.
  eapply qreachable_step; [eapply qreachable_step; [eapply qreachable_step; [apply qreachable_s2| |]| |]| |].
  - apply (q_change_pods _ order_fwd), map_Forall_empty.
  - done.
  - apply (q_change_pods _ order_fwd). exact (keyed_pods pod_pending eq_refl).
  - done.
  - apply (q_pod _ order_fwd None nn_web); [decide_now|done].
  - intros rd [= <-]. apply undisturbing_pod. intros nn p Hp.
    assert (pods (podIndex (cacheOf s4)) = {[nn_web := mkPodInfo "10.0.0.1" sel_web "default" "web-1"]}) as Heq
      by decide_now.
    change (pods (podIndex (cacheOf s4)) !! nn = Some p) in Hp. rewrite Heq in Hp.
    by apply lookup_singleton_Some in Hp as [<- _].
Qed.

(** Nothing is left to do, no pod of the cluster has an address, and the address of the
    deleted pod is still served. *)
Theorem recreated_pod_stays_served :
  qreachable undisturbing s5 ∧ q_policies s5 = ∅ ∧ q_pods s5 = ∅ ∧
  map_Forall (λ _ pod, k_PodIP pod = "") (podObjects s5) ∧
  GetBlocklist (cacheOf s5) = [mkEntry "10.0.0.1" ["ads.com"; "track.io"]].
Proof.
  split; [exact qreachable_s5|]. split; [decide_now|]. split; [decide_now|].
  split; [by apply map_Forall_singleton|]. vm_compute. reflexivity.
Qed.
