(* ===== verification/Concurrent.v ===== *)
(** * The controllers as they run: queues, API calls and interleaving together

    The two workers of Interleaving.v, behind the queues of Queue.v, against an API
    server that changes under their hands. A reconciliation of a policy is its read, the
    change of the index, the steps on the cache, and at last its write, which the server
    refuses when the object is no longer the one that was read; between any two of
    these the other worker and the cluster may move. *)

From S2P Require Import Prelude Types Selectors Stores Client.
From S2P Require Import PodIndex PolicyIndex BlocklistCache PolicyReconciler PodReconciler System.
From S2P Require Import Interleaving Schedules Queue.

(** ** The write at the end of a reconciliation *)

Section Pieces.
Context `{RO : RangeOrder} `{AM : ApiMachinery}.

(** The server refuses a write based on an object that was changed since. *)
Definition err_Conflict : goerror := StatusError "Conflict" "the object has been modified".

Definition guarded (a : ApiServer) (fault : option goerror) (read : DnsPolicy)
    (call : ApiServer * (DnsPolicy + goerror)) : ApiServer * option goerror :=
  match fault with
  | Some err => (a, Some err)
  | None =>
      if decide (a !! policy_key read = Some read)
      then let '(a', res) := call in (a', match res with inr err => Some err | inl _ => None end)
      else (a, Some err_Conflict)
  end.

Definition finishPolicy (a : ApiServer) (f : Faults) (w : PolWrite) : ApiServer * option goerror :=
  match w with
  | WNone => (a, None)
  | WFail err => (a, Some err)
  | WUpdate read written => guarded a (f_Update f) read (server_Update a written)
  | WStatus read written => guarded a (f_StatusUpdate f) read (server_StatusUpdate a written)
  end.

End Pieces.

(** ** The system *)
Record KState := mkK {
  k_objects : ApiServer;                              (* the cluster *)
  k_podObjects : Pods;
  k_policies : gset NamespacedName;                   (* the queues *)
  k_podQueue : gset NamespacedName;
  k_conf : Conf;                                      (* the cache, and both workers on it *)
  k_task : option (NamespacedName * PolWrite);        (* what the policy worker is at *)
}.

Section System.
Context `{RO : RangeOrder} `{AM : ApiMachinery}.

Abbreviation cacheK s := (c_cache (k_conf s)).

Definition kstart (a : ApiServer) (b : Pods) : KState :=
  mkK a b (dom a) (podEvents ∅ b) cinit None.

(** The read of an object, which may fail, but not by reporting it as absent. *)
Definition reads {A} (fault : option goerror) (answer : A + goerror) (r : A + goerror) : Prop :=
  read_fault fault ∧ r = match fault with Some err => inr err | None => answer end.

(** The steps, labelled by what they read of an object. *)
Inductive kstep (s : KState) : option Read → KState → Prop :=
  | k_pol_begin now k fault r bc' pc' w :
      k_task s = None → c_pol (k_conf s) = PolIdle → k ∈ k_policies s →
      reads fault (server_Get (k_objects s) k) r →
      beginPolicy now (cacheK s) k r = (bc', pc', w) →
      kstep s (Some (ReadPolicy k r)) (mkK (k_objects s) (k_podObjects s) (k_policies s ∖ {[k]}) (k_podQueue s)
        (mkConf bc' pc' (c_pod (k_conf s))) (Some (k, w)))
  | k_pol_cache bc' pc' :
      pol_step (pod_holds (c_pod (k_conf s)) = false) (cacheK s) (c_pol (k_conf s)) bc' pc' →
      kstep s None (mkK (k_objects s) (k_podObjects s) (k_policies s) (k_podQueue s)
        (mkConf bc' pc' (c_pod (k_conf s))) (k_task s))
  | k_pol_finish k w f a' err :
      k_task s = Some (k, w) → c_pol (k_conf s) = PolIdle →
      finishPolicy (k_objects s) f w = (a', err) →
      kstep s None (mkK a' (k_podObjects s) (k_policies s ∪ changed (k_objects s) a' ∪ requeue k err)
        (k_podQueue s) (k_conf s) None)
  | k_pod_begin k fault r pc' failed :
      c_pod (k_conf s) = PodIdle → k ∈ k_podQueue s →
      reads fault (podApi_Get (mkPodApi (k_podObjects s) None) k) r →
      beginPod (cacheK s) k r = (pc', failed) →
      kstep s (Some (ReadPod k r)) (mkK (k_objects s) (k_podObjects s) (k_policies s)
        (if failed then k_podQueue s else k_podQueue s ∖ {[k]})
        (mkConf (cacheK s) (c_pol (k_conf s)) pc') (k_task s))
  | k_pod_cache bc' pc' :
      Interleaving.pod_step (pol_holds (c_pol (k_conf s)) = false) (cacheK s) (c_pod (k_conf s)) bc' pc' →
      kstep s None (mkK (k_objects s) (k_podObjects s) (k_policies s) (k_podQueue s)
        (mkConf bc' (c_pol (k_conf s)) pc') (k_task s))
  | k_change_policies a' :
      keyed a' →
      kstep s None (mkK a' (k_podObjects s) (k_policies s ∪ changed (k_objects s) a') (k_podQueue s)
        (k_conf s) (k_task s))
  | k_change_pods b' :
      pods_keyed b' →
      kstep s None (mkK (k_objects s) b' (k_policies s) (k_podQueue s ∪ podEvents (k_podObjects s) b')
        (k_conf s) (k_task s))
  | k_resync ks ks' :
      kstep s None (mkK (k_objects s) (k_podObjects s) (k_policies s ∪ ks) (k_podQueue s ∪ ks')
        (k_conf s) (k_task s)).

(** The states after runs that meet the condition. *)
Inductive kreachable (ok : RunCondition) : KState → Prop :=
  | kreachable_start a b : keyed a → pods_keyed b → kreachable ok (kstart a b)
  | kreachable_step s l s' :
      kreachable ok s → kstep s l s' → (∀ rd, l = Some rd → ok (cacheK s) rd) → kreachable ok s'.

Lemma kreachable_read ok s rd s' :
  kreachable ok s → kstep s (Some rd) s' → ok (cacheK s) rd → kreachable ok s'.
Proof. intros Hr Hs Hok. eapply kreachable_step; [exact Hr|exact Hs|]. by intros ? [= <-]. Qed.

Lemma kreachable_move ok s s' : kreachable ok s → kstep s None s' → kreachable ok s'.
Proof. intros Hr Hs. by eapply kreachable_step. Qed.

Lemma kreachable_mono (ok1 ok2 : RunCondition) s :
  (∀ bc rd, ok1 bc rd → ok2 bc rd) → kreachable ok1 s → kreachable ok2 s.
Proof.
  intros Hok. induction 1 as [|s l s' _ IH Hs Hr]; [by constructor|].
  eapply kreachable_step; [exact IH|exact Hs|]. eauto.
Qed.

(** The steps of the workers on the cache are those of Schedules.v. *)
Definition with_conf (s : KState) (c : Conf) : KState :=
  mkK (k_objects s) (k_podObjects s) (k_policies s) (k_podQueue s) c (k_task s).

Lemma istep_kstep s c : istep (k_conf s) c → kstep s None (with_conf s c).
Proof.
  destruct s as [a b q qp [bc pl pd] t]; simpl. unfold with_conf; simpl. intros Hs.
  inversion Hs; subst; [by apply (k_pol_cache (mkK a b q qp (mkConf bc pl pd) t))
    |by apply (k_pod_cache (mkK a b q qp (mkConf bc pl pd) t))].
Qed.

Lemma kreachable_run ok s c :
  kreachable ok s → rtc istep (k_conf s) c → kreachable ok (with_conf s c).
Proof.
  intros Hs Hrun. remember (k_conf s) as c0 eqn:Hc. revert s Hs Hc.
  induction Hrun as [c|c1 c2 c3 Hstep _ IH]; intros s Hs ->; [by destruct s|].
  apply (IH (with_conf s c2)); [|done]. by eapply kreachable_move, istep_kstep.
Qed.
End System.

(** ** The pieces *)
Section PieceLemmas.
Context `{RO : RangeOrder} `{AM : ApiMachinery}.
Implicit Types (bc : Cache).

(** The name of the write that is left, and that it changes the object. *)
Definition proper_write (k : NamespacedName) (w : PolWrite) : Prop :=
  match w with
  | WNone | WFail _ => True
  | WUpdate read written => policy_key read = k ∧ policy_key written = k ∧ read ≠ written
  | WStatus read written => policy_key read = k ∧ policy_key written = k ∧ p_Status read ≠ p_Status written
  end.

Definition quiet_write (w : PolWrite) : bool := match w with WNone => true | _ => false end.

(** The effect of the beginning of a reconciliation on the indexes. *)
Lemma beginPolicy_frame now bc k r bc' pc' w :
  beginPolicy now bc k r = (bc', pc', w) → (∀ p, r = inl p → policy_key p = k) →
  podIndex bc' = podIndex bc ∧
  ∀ k', k' ≠ k → policies (policyIndex bc') !! k' = policies (policyIndex bc) !! k'.
Proof.
  intros Hb Hk. destruct r as [p|err]; cbn [beginPolicy negb] in Hb.
  - specialize (Hk p eq_refl). subst k.
    destruct (Time_IsZero _), (ContainsFinalizer _ _); cbn [beginPolicy negb] in Hb; try (simplify_eq; done).
    + case_bool_decide; [by simplify_eq|].
      pose proof (policies_Upsert (policyIndex bc) p) as Hu. destruct (PolicyIndex.Upsert _ p) as [idx old].
      simplify_eq/=. split; [done|]. intros k' Hne. rewrite Hu. by rewrite lookup_insert_ne.
    + injection Hb as <- _ _. split; [done|]. intros k' Hne. simpl.
      by rewrite policies_Delete, lookup_delete_ne.
  - destruct (IsNotFound err); [|by simplify_eq].
    pose proof (policies_Delete (policyIndex bc) k) as Hd. destruct (PolicyIndex.Delete _ k) as [idx old].
    simplify_eq/=. split; [done|]. intros k' Hne. rewrite Hd. by rewrite lookup_delete_ne.
Qed.

(** When nothing is left to write the name is in step. *)
Lemma beginPolicy_settles now bc (a : ApiServer) k bc' pc' w :
  beginPolicy now bc k (server_Get a k) = (bc', pc', w) → quiet_write w = true →
  polSynced (server_Get a k) (policies (policyIndex bc') !! k).
Proof.
  intros Hb Hw. destruct (server_Get a k) as [p|err] eqn:Hget;
    cbn [beginPolicy polSynced negb] in *.
  - apply server_Get_key in Hget as <-.
    destruct (Time_IsZero _), (ContainsFinalizer _ _); cbn [beginPolicy negb] in Hb; try (simplify_eq; done).
    case_bool_decide; [by simplify_eq|].
    pose proof (policies_Upsert (policyIndex bc) p) as Hu. destruct (PolicyIndex.Upsert _ p) as [idx old].
    simplify_eq/=. by rewrite Hu, lookup_insert_eq.
  - unfold server_Get in Hget. assert (err = err_NotFound) as -> by (repeat case_match; congruence).
    rewrite (proj2 (IsNotFound_spec err_NotFound)) in Hb by (by eexists).
    pose proof (policies_Delete (policyIndex bc) k) as Hd. destruct (PolicyIndex.Delete _ k) as [idx old].
    simplify_eq/=. by rewrite Hd, lookup_delete_eq.
Qed.

Lemma updateCondition_rest now p t st reason msg :
  p_ObjectMeta (updateCondition now p t st reason msg) = p_ObjectMeta p ∧
  ObservedGeneration (p_Status (updateCondition now p t st reason msg)) = ObservedGeneration (p_Status p).
Proof. unfold updateCondition. by case_match; case_match. Qed.

Lemma beginPolicy_write now bc k r bc' pc' w :
  beginPolicy now bc k r = (bc', pc', w) → (∀ p, r = inl p → policy_key p = k) → proper_write k w.
Proof.
  intros Hb Hk. destruct r as [p|err]; cbn [beginPolicy negb] in Hb.
  - specialize (Hk p eq_refl). subst k.
    destruct (Time_IsZero _), (ContainsFinalizer _ _) eqn:Hf; cbn [beginPolicy negb] in Hb; try (simplify_eq; done).
    + case_bool_decide; [by simplify_eq|]. destruct (PolicyIndex.Upsert _ p) as [idx old].
      case_bool_decide as Hg; simplify_eq/=; [|done].
      match goal with |- context [updateCondition ?n ?q ?t ?s ?r ?m] =>
        destruct (updateCondition_rest n q t s r m) as [Hm Ho] end.
      split_and!; [done|unfold policy_key; by rewrite Hm|]. intros Heq. apply Hg. rewrite Heq, Ho. done.
    + simplify_eq/=. split_and!; [done|by apply AddFinalizer_key|].
      intros Heq. pose proof (AddFinalizer_contains _ _ Hf). apply (f_equal p_ObjectMeta) in Heq. simpl in Heq.
      congruence.
    + simplify_eq/=. split_and!; [done|apply RemoveFinalizer_key|].
      intros Heq. apply (f_equal p_ObjectMeta) in Heq. simpl in Heq.
      pose proof (RemoveFinalizer_contains (p_ObjectMeta p) dnsPolicyFinalizer). congruence.
  - destruct (IsNotFound err); [|by simplify_eq]. destruct (PolicyIndex.Delete _ k). by simplify_eq.
Qed.
End PieceLemmas.

(** ** Names that are in no queue are in step *)
Section Invariant.
Context `{RO : RangeOrder} `{AM : ApiMachinery}.

Abbreviation cacheK s := (c_cache (k_conf s)).

(** What the entry of a name in the pod index will be when the pod worker is done. *)
Definition expected (pc : PodPC) (k : NamespacedName) (i : option PodInfo) : option PodInfo :=
  match pc with
  | PodGoneRemove req _ | PodGoneDelete req => if decide (k = req) then None else i
  | PodMoveRemove req info _ | PodUpsert req info => if decide (k = req) then Some (normal info) else i
  | _ => i
  end.

(** The policy worker is at a name it will write, or put back into the queue. *)
Definition unsettled (t : option (NamespacedName * PolWrite)) (k : NamespacedName) : Prop :=
  ∃ w, t = Some (k, w) ∧ quiet_write w = false.

Record kinv (s : KState) : Prop := {
  ki_keyed : keyed (k_objects s);
  ki_pods_keyed : pods_keyed (k_podObjects s);
  ki_task k w : k_task s = Some (k, w) → proper_write k w;
  ki_policies k : k ∉ k_policies s → ¬ unsettled (k_task s) k →
    polSynced (server_Get (k_objects s) k) (policies (policyIndex (cacheK s)) !! k);
  ki_pods k : k ∉ k_podQueue s →
    podSynced (k_podObjects s !! k)
      (expected (c_pod (k_conf s)) k (pods (podIndex (cacheK s)) !! k));
}.

(** The steps on the cache and the indexes. *)
Lemma pol_step_indexes free (bc bc' : Cache) pl pl' :
  pol_step free bc pl bc' pl' → podIndex bc' = podIndex bc ∧ policyIndex bc' = policyIndex bc.
Proof. destruct 1; try done. apply recalculate_indexes. Qed.

Lemma pod_step_indexes free (bc bc' : Cache) pd pd' :
  Interleaving.pod_step free bc pd bc' pd' →
  policyIndex bc' = policyIndex bc ∧
  ∀ k, expected pd' k (pods (podIndex bc') !! k) = expected pd k (pods (podIndex bc) !! k).
Proof.
  destruct 1 as [| | |req info| | |]; split; try done; intros k; simpl; repeat case_decide; subst;
    rewrite ?pods_Delete, ?lookup_delete_eq, ?lookup_delete_ne by done; try done.
  - by rewrite lookup_insert_eq, podCopy_normal.
  - by rewrite lookup_insert_ne.
  - by case_match.
  - by case_match.
Qed.

(** The beginning of the work on a pod. *)
Lemma beginPod_expected (bc : Cache) k r pc' failed k' i :
  beginPod bc k r = (pc', failed) → k' ≠ k → expected pc' k' i = i.
Proof.
  intros Hb Hne. destruct r; simpl in Hb; repeat case_match; simplify_eq/=; by rewrite ?decide_False by done.
Qed.

Lemma beginPod_settles (bc : Cache) (b : Pods) k pc' i :
  pods_keyed b → beginPod bc k (podApi_Get (mkPodApi b None) k) = (pc', false) →
  podSynced (b !! k) (expected pc' k i).
Proof.
  intros Hk Hb. unfold podApi_Get in Hb; simpl in Hb.
  destruct (b !! k) as [pod|] eqn:Hp; simpl in *.
  - rewrite decide_True in Hb by (by apply (Hk k)). intros Hip.
    rewrite beginPod_seen in Hb by done.
    assert (expected pc' k i = Some (normal (infoOf pod))) as ->.
    { repeat case_match; simplify_eq/=; by rewrite decide_True. }
    split; [by eexists|congruence].
  - rewrite (proj2 (IsNotFound_spec err_NotFound)) in Hb by (by eexists).
    repeat case_match; simplify_eq/=; by rewrite decide_True.
Qed.
(** The write at the end: it touches its own name only, and when it succeeds it is a
    change of the object. *)
Lemma server_Update_frame (a a' : ApiServer) p r :
  server_Update a p = (a', r) →
  (keyed a → keyed a') ∧ ∀ k, k ≠ policy_key p → a' !! k = a !! k.
Proof.
  intros Hu. destruct (update_frame (mkPolicyApi a noFaults) None p (mkPolicyApi a' noFaults) r)
    as (? & ? & _); [|done]. unfold faulty; simpl. by rewrite Hu.
Qed.

Lemma server_StatusUpdate_frame (a a' : ApiServer) p r :
  server_StatusUpdate a p = (a', r) →
  (keyed a → keyed a') ∧ ∀ k, k ≠ policy_key p → a' !! k = a !! k.
Proof.
  intros Hu. destruct (status_frame (mkPolicyApi a noFaults) None p (mkPolicyApi a' noFaults) r)
    as (? & ? & _); [|done]. unfold faulty; simpl. by rewrite Hu.
Qed.

Lemma finishPolicy_frame (a a' : ApiServer) f k w err :
  finishPolicy a f w = (a', err) → proper_write k w →
  (keyed a → keyed a') ∧ ∀ k', k' ≠ k → a' !! k' = a !! k'.
Proof.
  intros Hf Hw. destruct w as [| |read written|read written]; simpl in *; try by simplify_eq.
  all: destruct Hw as (Hr & <- & _); unfold guarded in Hf; destruct (_ f); [by simplify_eq|].
  all: case_decide; [|by simplify_eq].
  - destruct (server_Update a written) as [a1 r] eqn:Hu. simplify_eq. by eapply server_Update_frame.
  - destruct (server_StatusUpdate a written) as [a1 r] eqn:Hu. simplify_eq. by eapply server_StatusUpdate_frame.
Qed.

Lemma finishPolicy_writes (a a' : ApiServer) f k w :
  finishPolicy a f w = (a', None) → proper_write k w → quiet_write w = false → a' !! k ≠ a !! k.
Proof.
  intros Hf Hw Hq. destruct w as [| |read written|read written]; simpl in *; try by simplify_eq.
  all: destruct Hw as (Hr & <- & Hne); unfold guarded in Hf; destruct (_ f); [done|].
  all: rewrite Hr in Hf; case_decide as Ha; [|done].
  all: unfold server_Update, server_StatusUpdate in Hf; rewrite Ha in *; repeat case_match; simplify_eq.
  - by rewrite lookup_delete_eq.
  - rewrite lookup_insert_eq. congruence.
  - rewrite lookup_insert_eq. intros [= Heq]. apply Hne. by rewrite <- Heq.
Qed.
Lemma kinv_start a b : keyed a → pods_keyed b → kinv (kstart a b).
Proof.
  intros Ha Hb. split; [done|done|done| |]; simpl; intros k Hk.
  - intros _. apply not_elem_of_dom in Hk. unfold server_Get. by rewrite Hk, lookup_empty.
  - rewrite elem_of_podEvents, lookup_empty in Hk. apply not_true_is_false in Hk.
    eapply (podSynced_filtered RO k None); [exact Hk|done|exact (Hb k)|done].
Qed.

Lemma kinv_pol_begin now k fault r bc' pc' w s :
  kinv s → k_task s = None → reads fault (server_Get (k_objects s) k) r →
  beginPolicy now (cacheK s) k r = (bc', pc', w) →
  kinv (mkK (k_objects s) (k_podObjects s) (k_policies s ∖ {[k]}) (k_podQueue s)
    (mkConf bc' pc' (c_pod (k_conf s))) (Some (k, w))).
Proof.
  intros [Hk Hpk _ Hpol Hpod] Ht [Hf ->] Hb.
  assert (∀ p, (match fault with Some err => inr err | None => server_Get (k_objects s) k end) = inl p →
    policy_key p = k) as Hkey by (destruct fault; [done|]; intros p; apply server_Get_key).
  destruct (beginPolicy_frame _ _ _ _ _ _ _ Hb Hkey) as [Hpi Hfr].
  split; simpl; [done|done| | |by rewrite Hpi].
  - intros k' w' [= <- <-]. by eapply beginPolicy_write.
  - intros k' Hq Hu. destruct (decide (k' = k)) as [->|Hne].
    + destruct (quiet_write w) eqn:Hw; [|by destruct Hu; exists w].
      destruct fault as [err|]; [|by eapply beginPolicy_settles].
      simpl in Hb. rewrite (Hf err eq_refl) in Hb. by simplify_eq.
    + rewrite Hfr by done. apply Hpol; [set_solver|]. rewrite Ht. by intros (? & ? & _).
Qed.

Lemma kinv_pol_finish k w f a' err s :
  kinv s → k_task s = Some (k, w) → finishPolicy (k_objects s) f w = (a', err) →
  kinv (mkK a' (k_podObjects s) (k_policies s ∪ changed (k_objects s) a' ∪ requeue k err)
    (k_podQueue s) (k_conf s) None).
Proof.
  intros [Hk Hpk Hw Hpol Hpod] Ht Hf. specialize (Hw k w Ht).
  destruct (finishPolicy_frame _ _ _ _ _ _ Hf Hw) as [Hk' Hfr].
  split; simpl; [by apply Hk'|done|done| |done].
  intros k' Hq _. rewrite !not_elem_of_union, elem_of_changed in Hq.
  destruct Hq as [[Hq Hc%dec_stable] Hre]. unfold server_Get. rewrite <- Hc. apply Hpol; [done|].
  intros (w' & Htask & Hqw). rewrite Ht in Htask. simplify_eq.
  destruct err; [by destruct Hre; apply elem_of_singleton|].
  by destruct (finishPolicy_writes _ _ _ _ _ Hf Hw Hqw).
Qed.

(** Without a fault the work on a pod begins. *)
Lemma beginPod_succeeds (bc : Cache) (b : Pods) k pc' failed :
  beginPod bc k (podApi_Get (mkPodApi b None) k) = (pc', failed) → failed = false.
Proof.
  unfold podApi_Get; simpl. intros Hb. revert Hb.
  repeat case_match; simpl; rewrite ?(proj2 (IsNotFound_spec err_NotFound)) by (by eexists);
    repeat case_match; by intros; simplify_eq.
Qed.

Lemma kinv_pod_begin k fault r pc' failed s :
  kinv s → c_pod (k_conf s) = PodIdle →
  reads fault (podApi_Get (mkPodApi (k_podObjects s) None) k) r →
  beginPod (cacheK s) k r = (pc', failed) →
  kinv (mkK (k_objects s) (k_podObjects s) (k_policies s)
    (if failed then k_podQueue s else k_podQueue s ∖ {[k]})
    (mkConf (cacheK s) (c_pol (k_conf s)) pc') (k_task s)).
Proof.
  intros [Hk Hpk Hw Hpol Hpod] Hidle [Hf ->] Hb. rewrite Hidle in Hpod. split; simpl; [done..|].
  assert (fault = None ∨ failed = true ∧ pc' = PodIdle) as Hcase.
  { destruct fault as [err|]; [right|by left]. simpl in Hb. rewrite (Hf err eq_refl) in Hb. by simplify_eq. }
  intros k' Hq. destruct (decide (k' = k)) as [->|Hne].
  - destruct Hcase as [->|[-> ->]]; [|by apply Hpod].
    destruct failed; [|by eapply beginPod_settles].
    by apply beginPod_succeeds in Hb.
  - rewrite (beginPod_expected _ _ _ _ _ _ _ Hb Hne). apply Hpod. destruct failed; set_solver.
Qed.

Lemma kinv_step s l s' : kinv s → kstep s l s' → kinv s'.
Proof.
  intros Hi Hs. destruct Hs as [now k fault r bc' pc' w Ht _ _ Hr Hb|bc' pc' Hs|k w f a' err Ht _ Hf
    |k fault r pc' failed Hidle _ Hr Hb|bc' pc' Hs|a' Ha|b' Hb|ks ks'].
  - by eapply kinv_pol_begin.
  - apply pol_step_indexes in Hs as [Hpi Hpl]. destruct Hi. by split; simpl; rewrite ?Hpi, ?Hpl.
  - by eapply kinv_pol_finish.
  - by eapply kinv_pod_begin.
  - apply pod_step_indexes in Hs as [Hpl Hex]. destruct Hi as [? ? ? ? Hpod].
    split; simpl; rewrite ?Hpl; [done..|]. intros k Hq. rewrite Hex. by apply Hpod.
  - destruct Hi as [Hk Hpk Hw Hpol Hpod]. split; simpl; [done..| |done]. intros k Hq Hu.
    rewrite not_elem_of_union, elem_of_changed in Hq. destruct Hq as [Hq Hc%dec_stable].
    unfold server_Get. rewrite <- Hc. by apply Hpol.
  - destruct Hi as [Hk Hpk Hw Hpol Hpod]. split; simpl; [done..|]. intros k Hq.
    rewrite not_elem_of_union, elem_of_podEvents in Hq. destruct Hq as [Hq Hc%not_true_is_false].
    apply (podSynced_filtered RO k (k_podObjects s !! k)); [exact Hc|exact (Hpk k)|exact (Hb k)|].
    by apply Hpod.
  - destruct Hi as [Hk Hpk Hw Hpol Hpod]. split; simpl; [done..| |]; intros k Hq;
      apply not_elem_of_union in Hq as [Hq _]; auto.
Qed.

Lemma kinv_reachable ok s : kreachable ok s → kinv s.
Proof. induction 1; [by apply kinv_start|by eapply kinv_step]. Qed.

(** The workers are those of Interleaving.v. *)
Lemma kreachable_conf ok s : kreachable ok s → creachable ok (k_conf s).
Proof.
  induction 1 as [|s l s' _ IH Hs Hok]; [constructor|].
  destruct s as [a b q qp [bc pl pd] t]; simpl in *.
  destruct Hs as [now k fault r bc' pc' w _ Hidle _ _ Hb|bc' pc' Hs|
    |k fault r pc' failed Hidle _ _ Hb|bc' pc' Hs| | |]; simpl in *; try done; subst;
    (eapply creachable_step; [exact IH|]).
  - eapply cnext_read; [by econstructor|]. by apply Hok.
  - apply cnext_work. by constructor.
  - eapply cnext_read; [by econstructor|]. by apply Hok.
  - apply cnext_work. by apply cstep_pod.
Qed.
End Invariant.

(** ** Properties *)
Section Properties.
Context `{RO : RangeOrder} `{AM : ApiMachinery}.

(** The write of a piece, when nobody else moved, is the client's call. *)
Lemma guarded_current (a : ApiServer) f fault read written call :
  a !! policy_key read = Some read →
  guarded a fault read (call a written) =
    let '(a', r) := faulty (mkPolicyApi a f) fault call written in
    (pa_objects a', match r with inr err => Some err | inl _ => None end).
Proof.
  intros Ha. unfold guarded, faulty. destruct fault as [err|]; [done|]. rewrite decide_True by done.
  simpl. by destruct (call a written).
Qed.

(** Taken without interference, the pieces of a policy's reconciliation (read and change of the
    index, steps on the cache, write guarded against conflicts) are [Reconcile]: for
    every API server state, every choice of failing calls and every object, they leave
    the same objects, return the same error, and their steps on the cache lead to the
    same cache. *)
Theorem policy_pieces_are_reconcile now (a : ApiServer) f bc evs k :
  let '(bc1, pc, w) := beginPolicy now bc k (api_Get (mkPolicyApi a f) k) in
  let '(a', err) := finishPolicy a f w in
  let '(st, err') := PolicyReconciler.Reconcile now (mkRState (mkPolicyApi a f) bc evs) k in
  pa_objects (st_api st) = a' ∧ err' = err ∧
  rtc istep (mkConf bc1 pc PodIdle) (mkConf (st_cache st) PolIdle PodIdle).
Proof.
  unfold PolicyReconciler.Reconcile. cbn [client_Get policy_api st_api].
  destruct (api_Get (mkPolicyApi a f) k) as [p|err] eqn:Hget; cbn [beginPolicy].
  - assert (a !! policy_key p = Some p) as Ha.
    { pose proof (api_Get_key _ _ _ Hget) as ->. unfold api_Get in Hget; simpl in Hget.
      destruct (f_Get f); [done|]. by apply server_Get_lookup. }
    destruct (Time_IsZero _), (ContainsFinalizer _ _); cbn [negb].
    + case_bool_decide; [done|]. unfold reconcileValid; cbn [st_cache].
      destruct (PolicyIndex.Upsert _ p) as [idx old].
      assert (∀ b : bool, rtc istep (mkConf (with_policies bc idx)
        (if b then PolRecalcChange old (policy_selector p) else PolRecalc (policy_selector p)) PodIdle)
        (mkConf (if b then RecalculateForPolicyChange (with_policies bc idx) old (policy_selector p)
                 else RecalculateForPolicy (with_policies bc idx) (policy_selector p)) PolIdle PodIdle)) as Hrun
        by (intros []; [by apply run_change|by apply run_recalc]).
      case_bool_decide; [|by split_and!]. cbn [finishPolicy]. rewrite (guarded_current a f) by done. simpl.
      destruct (faulty _ _ _ _) as [a' [r|err]]; simpl; split_and!; auto.
    + unfold reconcileAddFinalizer. cbn [finishPolicy]. rewrite (guarded_current a f) by done. simpl.
      destruct (faulty _ _ _ _) as [a' [r|err]]; by simpl.
    + unfold reconcileDeletion. cbn [finishPolicy st_cache]. rewrite (guarded_current a f) by done.
      destruct (PolicyIndex.Delete _ k) as [idx old]. simpl.
      case_bool_decide; simpl; destruct (faulty _ _ _ _) as [a' [r|err]]; simpl; split_and!; try done;
        by apply run_recalc.
    + done.
  - destruct (IsNotFound err); [|done]. unfold reconcileNotFound. cbn [st_cache].
    destruct (PolicyIndex.Delete _ k) as [idx old]. simpl. split_and!; [done..|].
    case_match; [by apply run_recalc|done].
Qed.

(** The same for pods: from the read and the first access to the index, the steps
    of the pod worker lead to the cache [Reconcile] returns, and an error is reported
    exactly when [Reconcile] returns one. *)
Theorem pod_pieces_are_reconcile (b : PodApi) bc k :
  let '(pc, failed) := beginPod bc k (podApi_Get b k) in
  let '(bc', err) := PodReconciler.Reconcile b bc k in
  failed = negb (is_nil err) ∧
  rtc istep (mkConf bc PolIdle pc) (mkConf bc' PolIdle PodIdle).
Proof.
  rewrite Reconcile_cases. cbn [pod_client_Get pod_api] in *.
  destruct (podApi_Get b k) as [pod|err].
  - destruct (str_empty (k_PodIP pod)) eqn:He; reflect_bools; [by rewrite beginPod_skipped|].
    rewrite beginPod_seen by done. split; [done|]. by apply run_pod_seen.
  - simpl. destruct (IsNotFound err); [|done]. split; [done|]. by apply run_pod_removal.
Qed.

(** Nothing is queued and no worker is at work. *)
Definition at_rest (s : KState) : Prop :=
  k_policies s = ∅ ∧ k_podQueue s = ∅ ∧ k_task s = None ∧
  c_pol (k_conf s) = PolIdle ∧ c_pod (k_conf s) = PodIdle.

(** What rest says of the two indexes. *)
Lemma rest_policy ok s pn :
  kreachable ok s → at_rest s →
  polSynced (server_Get (k_objects s) pn) (policies (policyIndex (c_cache (k_conf s))) !! pn).
Proof.
  intros Hr (Hq & _ & Ht & _). apply (ki_policies s (kinv_reachable ok s Hr)); [set_solver|].
  rewrite Ht. by intros (? & ? & _).
Qed.

Lemma rest_pod ok s nn pod :
  kreachable ok s → at_rest s → k_podObjects s !! nn = Some pod → k_Phase pod = PodRunning → k_PodIP pod ≠ "" →
  pods (podIndex (c_cache (k_conf s))) !! nn = Some (normal (infoOf pod)).
Proof.
  intros Hr (_ & Hq & _ & _ & Hidle) Hp Hph Hip. eapply podSynced_running; [exact Hp|done..|].
  pose proof (ki_pods s (kinv_reachable ok s Hr) nn) as Hs. rewrite Hidle in Hs. apply Hs. set_solver.
Qed.

(** An indexed pod, for what is served at rest. *)
Lemma rest_Get ok s nn pod :
  kreachable ok s → at_rest s → k_podObjects s !! nn = Some pod → k_Phase pod = PodRunning → k_PodIP pod ≠ "" →
  PodIndex.Get (podIndex (c_cache (k_conf s))) nn = Some (normal (infoOf pod)).
Proof.
  intros Hr Hrest Hp Hph Hip. unfold PodIndex.Get. rewrite (rest_pod ok s nn pod) by done.
  f_equal. apply podCopy_id. by eexists.
Qed.

Lemma rest_done s nn p (P : Prop) :
  at_rest s → covers (c_pol (k_conf s)) p ∨ Interleaving.pending (c_pod (k_conf s)) nn ∨ P → P.
Proof. intros (_ & _ & _ & -> & ->) [[]|[[]|?]]. done. Qed.

Lemma Blocked_normal (pl : PolicyIndex) pod d :
  Blocked pl (pod_Labels (normal (infoOf pod))) d ↔ Blocked pl (k_Labels pod) d.
Proof. rewrite !Blocked_lookup. by setoid_rewrite Selects_normal. Qed.

(** C9: whatever the interleaving, when everything is at rest the running pods are
    served what the cluster asks for. The two workers run concurrently, step by step,
    each behind its queue; objects of the cluster change at any moment, also between a
    worker's read and its write, in which case the API server refuses the write; any
    call may fail, where a failed read is not reported as absence. Take a running pod
    with an address, in a state in which the queues are empty and both workers idle. If
    no pod was reconciled with that address while another indexed pod had it, each domain
    a live policy lists that selects the pod is served for the address. If moreover no
    policy was reconciled for deletion that had been edited, since it was indexed, so
    that it no longer selects the pod, and no policy of the cluster is being deleted now,
    nothing else is served for it. *)
Theorem concurrent_rest_exact s nn pod :
  at_rest s → k_podObjects s !! nn = Some pod → k_Phase pod = PodRunning → k_PodIP pod ≠ "" →
  (kreachable (one_pod (k_PodIP pod)) s →
    ∀ pn policy d, k_objects s !! pn = Some policy → live policy →
      Selects (policy_selector policy) (k_Labels pod) → d ∈ elems (BlockList (p_Spec policy)) →
      serves (c_cache (k_conf s)) (k_PodIP pod) d) ∧
  (kreachable (undisturbed (k_PodIP pod)) s → map_Forall (λ _ p, live p) (k_objects s) →
    ∀ d, serves (c_cache (k_conf s)) (k_PodIP pod) d →
      ∃ pn policy, k_objects s !! pn = Some policy ∧
        Selects (policy_selector policy) (k_Labels pod) ∧ d ∈ elems (BlockList (p_Spec policy))).
Proof.
  intros Hrest Hpod Hph Hip. split; intros Hr.
  - intros pn policy d Hpol Hl Hsel Hd. pose proof (kinv_reachable _ s Hr) as Hi.
    apply (rest_done s nn (normal (infoOf pod)) _ Hrest
      (creachable_complete (k_conf s) nn (normal (infoOf pod)) d (rest_Get _ s nn pod Hr Hrest Hpod Hph Hip)
        Hip (kreachable_conf _ s Hr))).
    apply Blocked_normal, Blocked_lookup. exists pn, policy. split_and!; try done.
    eapply polSynced_live; [apply Hi|exact Hpol|exact Hl|]. by eapply rest_policy.
  - intros Hlive d Hs. pose proof (kinv_reachable _ s Hr) as Hi.
    apply (rest_done s nn (normal (infoOf pod)) _ Hrest
      (creachable_exact (k_conf s) nn (normal (infoOf pod)) d (rest_Get _ s nn pod Hr Hrest Hpod Hph Hip)
        Hip (kreachable_conf _ s Hr))) in Hs.
    apply Blocked_normal, Blocked_lookup in Hs as (pn & policy & Hpol & Hsel & Hd).
    exists pn, policy. split_and!; try done. apply polSynced_indexed; [apply Hi|done|].
    rewrite <- Hpol. by eapply rest_policy.
Qed.
End Properties.
