(* ===== verification/Rest.v ===== *)
(** * The concurrent controllers come to rest

    When no call fails and nobody else writes, the two workers of Concurrent.v, however
    they are interleaved, run out of work: a write that was prepared on an object that
    has changed since is refused and its name reconciled again, the controllers' own
    writes put names back into the queue, and still every run ends. *)

From S2P Require Import Prelude Types Selectors Stores Client.
From S2P Require Import PodIndex PolicyIndex BlocklistCache PolicyReconciler PodReconciler System.
From S2P Require Import Interleaving Schedules Queue Concurrent.

Abbreviation polWork := Queue.work.
Abbreviation confWork := Schedules.work.

Section Rest.
Context `{RO : RangeOrder} `{AM : ApiMachinery}.

Abbreviation cacheK s := (c_cache (k_conf s)).

(** The steps of the workers alone. *)
Inductive kworker (s : KState) : KState → Prop :=
  | kw_pol_begin now k bc' pc' w :
      k_task s = None → c_pol (k_conf s) = PolIdle → k ∈ k_policies s →
      beginPolicy now (cacheK s) k (server_Get (k_objects s) k) = (bc', pc', w) →
      kworker s (mkK (k_objects s) (k_podObjects s) (k_policies s ∖ {[k]}) (k_podQueue s)
        (mkConf bc' pc' (c_pod (k_conf s))) (Some (k, w)))
  | kw_pol_finish k w a' err :
      k_task s = Some (k, w) → c_pol (k_conf s) = PolIdle →
      finishPolicy (k_objects s) noFaults w = (a', err) →
      kworker s (mkK a' (k_podObjects s) (k_policies s ∪ changed (k_objects s) a' ∪ requeue k err)
        (k_podQueue s) (k_conf s) None)
  | kw_pod_begin k pc' failed :
      c_pod (k_conf s) = PodIdle → k ∈ k_podQueue s →
      beginPod (cacheK s) k (podApi_Get (mkPodApi (k_podObjects s) None) k) = (pc', failed) →
      kworker s (mkK (k_objects s) (k_podObjects s) (k_policies s)
        (if failed then k_podQueue s else k_podQueue s ∖ {[k]})
        (mkConf (cacheK s) (c_pol (k_conf s)) pc') (k_task s))
  | kw_cache c' :
      istep (k_conf s) c' → kworker s (with_conf s c').

(** They are steps of the system. *)
Lemma kworker_kstep s s' : kworker s s' → ∃ l, kstep s l s'.
Proof.
  destruct 1 as [now k bc' pc' w Ht Hi Hk Hb|k w a' err Ht Hi Hf|k pc' failed Hi Hk Hb|c' Hc]; eexists.
  - by eapply (k_pol_begin s now k None).
  - by eapply k_pol_finish.
  - by apply (k_pod_begin s k None (podApi_Get (mkPodApi (k_podObjects s) None) k)).
  - by apply istep_kstep.
Qed.

(** ** How much is left *)

(** What a write leaves to do for its name is less than what there was. *)
Definition reducing (k : NamespacedName) (w : PolWrite) : Prop :=
  match w with
  | WNone | WFail _ => True
  | WUpdate read written =>
      policy_key read = k ∧ policy_key written = k ∧ p_Spec written = p_Spec read ∧
      om_DeletionTimestamp (p_ObjectMeta written) = om_DeletionTimestamp (p_ObjectMeta read) ∧
      polWork {[k := written]} k < polWork {[k := read]} k
  | WStatus read written =>
      policy_key read = k ∧ p_ObjectMeta written = p_ObjectMeta read ∧
      ObservedGeneration (p_Status written) = om_Generation (p_ObjectMeta read) ∧
      Time_IsZero (om_DeletionTimestamp (p_ObjectMeta read)) = true ∧
      ContainsFinalizer (p_ObjectMeta read) dnsPolicyFinalizer = true ∧
      polWork {[k := read]} k = 2
  end.

Lemma polWork_lookup (a : ApiServer) k p : a !! k = Some p → polWork a k = polWork {[k := p]} k.
Proof. intros Hp. unfold Queue.work, server_Get. by rewrite Hp, lookup_singleton_eq. Qed.

Lemma polWork_named p :
  polWork {[policy_key p := p]} (policy_key p) =
    if Time_IsZero (om_DeletionTimestamp (p_ObjectMeta p)) then
      if ContainsFinalizer (p_ObjectMeta p) dnsPolicyFinalizer then
        if bool_decide (ObservedGeneration (p_Status p) ≠ om_Generation (p_ObjectMeta p)) then 2 else 1
      else 3
    else if ContainsFinalizer (p_ObjectMeta p) dnsPolicyFinalizer then 2 else 1.
Proof. unfold Queue.work, server_Get. by rewrite lookup_singleton_eq, decide_True. Qed.

Lemma beginPolicy_reducing now (bc bc' : Cache) k r pc' w :
  beginPolicy now bc k r = (bc', pc', w) → (∀ p, r = inl p → policy_key p = k) → reducing k w.
Proof.
  intros Hb Hk. destruct r as [p|err]; cbn [beginPolicy negb] in Hb.
  - specialize (Hk p eq_refl). subst k.
    destruct (Time_IsZero _) eqn:Htz, (ContainsFinalizer _ _) eqn:Hf; cbn [negb] in Hb; try (simplify_eq; done).
    + case_bool_decide; [by simplify_eq|]. destruct (PolicyIndex.Upsert _ p) as [idx old].
      case_bool_decide as Hg; simplify_eq; [|done]. cbn [reducing].
      match goal with |- context [updateCondition ?n ?q ?t ?s ?r ?m] =>
        destruct (updateCondition_rest n q t s r m) as [Hm Ho] end.
      split_and!; try done. rewrite polWork_named, Htz, Hf. by rewrite bool_decide_true.
    + simplify_eq. cbn [reducing]. pose proof (AddFinalizer_key p dnsPolicyFinalizer Hf) as Hk.
      split_and!; [done|done|done|simpl; by rewrite AddFinalizer_spec|].
      rewrite polWork_named, Htz, Hf. rewrite <- Hk, polWork_named. simpl. rewrite (AddFinalizer_contains _ _ Hf).
      rewrite AddFinalizer_spec by done. simpl. repeat case_match; lia.
    + simplify_eq. cbn [reducing]. pose proof (RemoveFinalizer_key p dnsPolicyFinalizer) as Hk.
      destruct (RemoveFinalizer_spec (p_ObjectMeta p) dnsPolicyFinalizer) as (_ & _ & _ & Hd & _).
      split_and!; [done..|]. rewrite polWork_named, Htz, Hf. rewrite <- Hk, polWork_named. simpl.
      rewrite Hd, Htz, RemoveFinalizer_contains. lia.
  - destruct (IsNotFound err); [|by simplify_eq]. destruct (PolicyIndex.Delete _ k). by simplify_eq.
Qed.
(** The reconciliations still to come for the name the policy worker is at, when its
    write succeeds, and when it is refused or its name is put back. *)
Definition taskWork (a : ApiServer) (t : option (NamespacedName * PolWrite)) : nat :=
  match t with
  | None | Some (_, WNone) => 0
  | Some (k, WFail _) => polWork a k
  | Some (k, WUpdate read _) | Some (k, WStatus read _) =>
      if decide (a !! k = Some read) then polWork a k - 1 else polWork a k
  end.

(** Beginnings and endings of reconciliations that are left. *)
Definition remaining (s : KState) : nat :=
  2 * (totalWork (k_objects s) (k_policies s) + taskWork (k_objects s) (k_task s)) +
  (if is_nil (k_task s) then 0 else 1) + size (k_podQueue s).

Record steady (s : KState) : Prop := {
  sd_keyed : keyed (k_objects s);
  sd_specs : valid_specs (k_objects s);
  sd_task k w : k_task s = Some (k, w) → reducing k w;
  sd_lock : exclusive (k_conf s);
}.

Lemma beginPolicy_taskWork now (bc bc' : Cache) (a : ApiServer) k pc' w :
  valid_specs a → beginPolicy now bc k (server_Get a k) = (bc', pc', w) →
  taskWork a (Some (k, w)) < polWork a k.
Proof.
  intros Hv Hb. pose proof (work_pos a k) as Hpos.
  assert (∀ w', quiet_write w' = true → taskWork a (Some (k, w')) < polWork a k) as Hquiet
    by (intros []; simpl; done || lia).
  destruct (server_Get a k) as [p|err] eqn:Hget; cbn [beginPolicy negb] in Hb.
  - apply server_Get_lookup in Hget.
    assert (∀ q, taskWork a (Some (k, WUpdate p q)) < polWork a k ∧
      taskWork a (Some (k, WStatus p q)) < polWork a k) as Hfresh.
    { intros q. cbn [taskWork]. rewrite decide_True by done. lia. }
    destruct (Time_IsZero _) eqn:Htz, (ContainsFinalizer _ _); cbn [negb] in Hb;
      try (simplify_eq; first [apply Hfresh|by apply Hquiet]).
    rewrite bool_decide_false in Hb by exact (Hv _ _ Hget Htz).
    destruct (PolicyIndex.Upsert _ p) as [idx old].
    case_bool_decide; simplify_eq; [apply Hfresh|by apply Hquiet].
  - unfold server_Get in Hget. assert (err = err_NotFound) as -> by (repeat case_match; congruence).
    rewrite (proj2 (IsNotFound_spec err_NotFound)) in Hb by (by eexists).
    destruct (PolicyIndex.Delete _ k) as [idx old]. simplify_eq. by apply Hquiet.
Qed.

(** A write on the object that was read leaves less to do. *)
Lemma fresh_write (a : ApiServer) k w a' err :
  valid_specs a → reducing k w → finishPolicy a noFaults w = (a', err) →
  match w with
  | WUpdate read _ | WStatus read _ =>
      if decide (a !! k = Some read)
      then err = None ∧ valid_specs a' ∧ polWork a' k < polWork a k
      else err = Some err_Conflict ∧ a' = a
  | WFail e => err = Some e ∧ a' = a
  | WNone => err = None ∧ a' = a
  end.
Proof.
  intros Hv Hr Hf. destruct w as [|e|read written|read written]; simpl in Hr, Hf; [by simplify_eq..| |].
  - destruct Hr as (Hk & Hk' & Hs & Hd & Hlt). unfold guarded in Hf; simpl in Hf. rewrite Hk in Hf.
    case_decide as Ha; [|by simplify_eq]. rewrite (polWork_lookup a k read Ha).
    pose proof (work_pos {[k := written]} k). clear Hk. subst k.
    destruct (update_progress a written read (polWork {[policy_key written := read]} (policy_key written)))
      as (a1 & Hu & Hv' & Hw); [done..|lia|done|]. rewrite Hu in Hf. by simplify_eq.
  - destruct Hr as (Hk & Hm & Ho & Htz & Hfin & Hw2). unfold guarded in Hf; simpl in Hf. rewrite Hk in Hf.
    case_decide as Ha; [|by simplify_eq]. rewrite (polWork_lookup a k read Ha), Hw2. subst k.
    destruct (status_progress a read written) as (a1 & r & Hu & Hv' & Hw); [done..|].
    rewrite Hu in Hf. by simplify_eq.
Qed.
Lemma reducing_proper k w : reducing k w → proper_write k w.
Proof.
  destruct w as [| |read written|read written]; simpl; [done..| |].
  - intros (Hk & Hk' & _ & _ & Hlt). split_and!; [done..|]. intros ->. lia.
  - intros (<- & Hm & Ho & Htz & Hfin & Hw). split_and!; [done|unfold policy_key; by rewrite Hm|].
    intros Heq. rewrite polWork_named, Htz, Hfin, Heq, Ho, bool_decide_false in Hw; [done|naive_solver].
Qed.

(** The end of a reconciliation. *)
Lemma finish_remaining (a : ApiServer) q k w a' err :
  keyed a → valid_specs a → reducing k w → finishPolicy a noFaults w = (a', err) →
  valid_specs a' ∧
  totalWork a' (q ∪ changed a a' ∪ requeue k err) ≤ totalWork a q + taskWork a (Some (k, w)).
Proof.
  intros Hkey Hv Hr Hf. pose proof (fresh_write a k w a' err Hv Hr Hf) as Hw.
  destruct (finishPolicy_frame _ _ _ _ _ _ Hf (reducing_proper k w Hr)) as [_ Hfr].
  assert (changed a a = ∅) as Hsame.
  { apply elem_of_equiv_empty_L. intros k' Hk'%elem_of_changed. by destruct Hk'. }
  assert (∀ a1 n, (∀ k', k' ≠ k → a1 !! k' = a !! k') → polWork a1 k ≤ n →
    totalWork a1 (q ∪ {[k]}) ≤ totalWork a q + n) as Hadd.
  { intros a1 n Hf1 Hn. etransitivity; [apply totalWork_add|].
    rewrite (totalWork_ext a a1) by (intros k' Hk'; apply Hf1; set_solver).
    assert (totalWork a (q ∖ {[k]}) ≤ totalWork a q); [|lia].
    destruct (decide (k ∈ q)) as [Hk|Hk]; [rewrite (totalWork_remove a q k Hk); lia|].
    by replace (q ∖ {[k]}) with q by set_solver. }
  assert (∀ e, totalWork a (q ∪ changed a a ∪ requeue k (Some e)) ≤ totalWork a q + polWork a k) as Hback.
  { intros e. rewrite Hsame, (right_id_L ∅ (∪)). by apply Hadd. }
  assert (err = None → quiet_write w = false → polWork a' k < polWork a k →
    totalWork a' (q ∪ changed a a' ∪ requeue k err) ≤ totalWork a q + (polWork a k - 1)) as Hfresh.
  { intros -> Hq Hlt. assert (changed a a' = {[k]}) as ->.
    { apply set_eq. intros k'. rewrite elem_of_changed, elem_of_singleton. split.
      - intros Hne. apply dec_stable. intros Hne'. by destruct Hne; rewrite Hfr.
      - intros ->. apply not_eq_sym. by eapply finishPolicy_writes; [|apply reducing_proper|]. }
    cbn [requeue]. rewrite (right_id_L ∅ (∪)). apply Hadd; [done|lia]. }
  destruct w as [|e|read written|read written]; cbn [taskWork].
  - destruct Hw as [-> ->]. cbn [requeue]. rewrite Hsame, !(right_id_L ∅ (∪)). split; [done|lia].
  - destruct Hw as [-> ->]. by split.
  - case_decide; [|destruct Hw as [-> ->]; by split]. destruct Hw as (? & Hv' & Hlt). split; [done|].
    by apply Hfresh.
  - case_decide; [|destruct Hw as [-> ->]; by split]. destruct Hw as (? & Hv' & Hlt). split; [done|].
    by apply Hfresh.
Qed.
(** Every step of a worker is one less. *)
Lemma steady_step s s' :
  steady s → kworker s s' →
  steady s' ∧ (remaining s' < remaining s ∨
    remaining s' = remaining s ∧ confWork (k_conf s') < confWork (k_conf s)).
Proof.
  intros [Hk Hv Ht Hl] Hs.
  destruct Hs as [now k bc' pc' w Htask _ Hq Hb|k w a' err Htask _ Hf|k pc' failed _ Hq Hb|c' Hc].
  - split.
    + split; simpl; [done..| |].
      * intros k' w' [= <- <-]. eapply beginPolicy_reducing; [exact Hb|]. intros p. apply server_Get_key.
      * apply beginPolicy_begun, pol_begun_holds in Hb as [Hh _]. unfold exclusive; simpl. congruence.
    + left. unfold remaining; simpl. rewrite Htask, (totalWork_remove _ (k_policies s) k Hq).
      pose proof (beginPolicy_taskWork _ _ _ _ _ _ _ Hv Hb) as Hlt. cbn [taskWork is_nil]. simpl in Hlt. lia.
  - destruct (finish_remaining (k_objects s) (k_policies s) k w a' err Hk Hv (Ht k w Htask) Hf) as [Hv' Hle].
    split.
    + split; simpl; [|done..]. by eapply finishPolicy_frame; [exact Hf|apply reducing_proper, Ht|].
    + left. unfold remaining; simpl. rewrite Htask in *. cbn [taskWork is_nil] in *. lia.
  - apply beginPod_succeeds in Hb as Hfail. subst failed. split.
    + split; simpl; [done..|]. apply beginPod_begun, pod_begun_holds in Hb. by unfold exclusive; simpl.
    + left. unfold remaining; simpl.
      assert (size (k_podQueue s ∖ {[k]}) < size (k_podQueue s)) by (apply subset_size; set_solver). lia.
  - split; [|right; split; [done|]; by apply istep_work].
    split; simpl; [done..|]. by eapply istep_exclusive.
Qed.

(** States of the system are steady when their live policies have selectors. *)
Lemma task_reducing ok s : kreachable ok s → ∀ k w, k_task s = Some (k, w) → reducing k w.
Proof.
  induction 1 as [|s l s' _ IH Hs _]; [done|].
  destruct Hs as [now k fault r bc' pc' w _ _ _ [_ ->] Hb| | | | | | |]; simpl; try done.
  intros k' w' [= <- <-]. eapply beginPolicy_reducing; [exact Hb|].
  intros p. destruct fault; [done|]. apply server_Get_key.
Qed.

Lemma steady_reachable ok s : kreachable ok s → valid_specs (k_objects s) → steady s.
Proof.
  intros Hr Hv. split; [apply (kinv_reachable ok s Hr)|done|by eapply task_reducing|].
  exact (creachable_exclusive ok _ (kreachable_conf ok s Hr)).
Qed.

Lemma steady_run s s' : steady s → rtc kworker s s' → steady s'.
Proof. intros Hs Hrun. induction Hrun as [|s1 s2 s3 H12 _ IH]; [done|]. by apply IH, (steady_step s1 s2). Qed.

(** As long as something is left a worker can move. *)
Lemma steady_progress s :
  steady s → at_rest s ∨ ∃ s', kworker s s'.
Proof.
  intros [_ _ _ Hl].
  assert ((c_pol (k_conf s) = PolIdle ∧ c_pod (k_conf s) = PodIdle) ∨
    (c_pol (k_conf s) ≠ PolIdle ∨ c_pod (k_conf s) ≠ PodIdle)) as [[Hpol Hpod]|Hbusy]
    by (destruct (c_pol (k_conf s)), (c_pod (k_conf s)); auto).
  2:{ right. destruct (exclusive_progress _ Hl Hbusy) as [c' Hc]. eexists. by apply kw_cache. }
  destruct (k_task s) as [[k w]|] eqn:Ht.
  { right. destruct (finishPolicy (k_objects s) noFaults w) as [a' err] eqn:Hf.
    eexists. by eapply kw_pol_finish. }
  destruct (decide (k_policies s = ∅)) as [Hq|[k Hk]%set_choose_L].
  2:{ right. destruct (beginPolicy 0%Z (cacheK s) k (server_Get (k_objects s) k)) as [[bc' pc'] w] eqn:Hb.
      eexists. by eapply kw_pol_begin. }
  destruct (decide (k_podQueue s = ∅)) as [Hq'|[k Hk]%set_choose_L]; [by left|].
  right. destruct (beginPod (cacheK s) k (podApi_Get (mkPodApi (k_podObjects s) None) k)) as [pc' failed] eqn:Hb.
  eexists. by eapply kw_pod_begin.
Qed.

(** C14: the concurrent controllers come to rest. From every state of every run of the
    concurrent system in which every live policy has a selector, when no call fails and
    nobody else writes, no run of the two workers goes on forever, whatever the
    interleaving; and in every state they get to, everything is at rest or some worker
    can move. So every run that goes on as long as it can ends at rest. *)
Theorem concurrent_comes_to_rest s :
  kreachable anything s → valid_specs (k_objects s) →
  sn kworker s ∧ ∀ s', rtc kworker s s' → at_rest s' ∨ ∃ s'', kworker s' s''.
Proof.
  intros Hr Hv. pose proof (steady_reachable _ s Hr Hv) as Hs. split.
  - exact (sn_lex kworker steady remaining (λ s, confWork (k_conf s)) steady_step s Hs).
  - intros s' Hrun. apply steady_progress. by eapply steady_run.
Qed.
End Rest.
