(* ===== verification/ConcurrentExamples.v ===== *)
(** * Concrete runs of the concurrent controllers

    A run in which the pod worker does all of its work between two steps of the policy
    worker, and one that comes to rest with the address of a deleted pod served. *)

From S2P Require Import Prelude Types Selectors Stores Client.
From S2P Require Import PodIndex PolicyIndex BlocklistCache PolicyReconciler PodReconciler System.
From S2P Require Import Interleaving Schedules Examples ScheduleExamples Queue QueueExamples Concurrent Rest.

#[local] Existing Instance order_fwd.
#[local] Existing Instance simple_machinery.

Definition k0 : KState := kstart (api policy_fin) cluster_pods.

Lemma kreachable_k0 : kreachable undisturbing k0.
Proof. apply kreachable_start; [exact (keyed_api policy_fin eq_refl)|exact (keyed_pods pod_web eq_refl)]. Qed.

(** The policy is read and indexed. *)
Definition bc1 : Cache := with_policies (c_cache cinit) (PolicyIndex.Upsert NewPolicyIndex policy_fin).1.
Definition k1 : KState :=
  mkK (k_objects k0) (k_podObjects k0) (k_policies k0 ∖ {[nn_ads]}) (k_podQueue k0)
    (mkConf bc1 (PolRecalc sel_web) PodIdle) (Some (nn_ads, WNone)).

Lemma kreachable_k1 : kreachable undisturbing k1.
Proof.
  eapply (kreachable_read _ k0 (ReadPolicy nn_ads (inl policy_fin))); [apply kreachable_k0| |by apply undisturbing_live].
  apply (k_pol_begin k0 7%Z nn_ads None (inl policy_fin)); [done|done|decide_now| |].
  - split; [done|]. vm_compute. reflexivity.
  - vm_compute. reflexivity.
Qed.

(** The pod is reconciled meanwhile, from its read to its entry. *)
Definition bc2 : Cache := cacheAfterPod bc1 nn_web (infoOf pod_web).
Definition k2 : KState :=
  mkK (k_objects k1) (k_podObjects k1) (k_policies k1) (k_podQueue k1 ∖ {[nn_web]})
    (mkConf bc2 (PolRecalc sel_web) PodIdle) (k_task k1).

Lemma kreachable_k2 : kreachable undisturbing k2.
Proof.
  assert (kreachable undisturbing (mkK (k_objects k1) (k_podObjects k1) (k_policies k1) (k_podQueue k1 ∖ {[nn_web]})
    (mkConf bc1 (PolRecalc sel_web) (PodUpsert nn_web (infoOf pod_web))) (k_task k1))) as Hb.
  { eapply (kreachable_read _ k1 (ReadPod nn_web (inl pod_web))); [apply kreachable_k1| |].
    2:{ apply undisturbing_pod. intros nn p Hget. discriminate Hget. }
    apply (k_pod_begin k1 nn_web None (inl pod_web) _ false); [done|decide_now| |].
    - split; [done|]. vm_compute. reflexivity.
    - vm_compute. reflexivity. }
  apply (kreachable_run _ _ (mkConf bc2 (PolRecalc sel_web) PodIdle) Hb).
  apply (run_pod_seen bc1 nn_web (infoOf pod_web) (PolRecalc sel_web)). done.
Qed.

(** The policy worker goes on, and has nothing to write. *)
Definition bc3 : Cache := RecalculateForPolicy bc2 sel_web.
Definition k3 : KState :=
  mkK (k_objects k2) (k_podObjects k2) ∅ ∅ (mkConf bc3 PolIdle PodIdle) None.

Lemma kreachable_k3 : kreachable undisturbing k3.
Proof.
  pose proof (kreachable_run _ _ (mkConf bc3 PolIdle PodIdle) kreachable_k2 (run_recalc bc2 sel_web PodIdle eq_refl)) as Hr.
  eapply (kreachable_move undisturbing) in Hr;
    [|apply (k_pol_finish _ nn_ads WNone noFaults (k_objects k2) None); reflexivity].
  replace k3 with (mkK (k_objects k2) (k_podObjects k2)
    (k_policies k2 ∪ changed (k_objects k2) (k_objects k2) ∪ requeue nn_ads None) (k_podQueue k2)
    (mkConf bc3 PolIdle PodIdle) None); [exact Hr|].
  unfold k3. f_equal; decide_now.
Qed.

Lemma at_rest_k3 : at_rest k3.
Proof. done. Qed.

Lemma kreachable_k3_at ip : kreachable (undisturbed ip) k3.
Proof. eapply kreachable_mono; [|exact kreachable_k3]. intros bc rd Hok. exact (Hok ip). Qed.

Lemma concurrent_rest_exact_witness :
  serves (c_cache (k_conf k3)) "10.0.0.1" "ads.com" ∧
  (∀ d, serves (c_cache (k_conf k3)) "10.0.0.1" d → ∃ pn p, k_objects k3 !! pn = Some p ∧
    Selects (policy_selector p) sel_web ∧ d ∈ elems (BlockList (p_Spec p))).
Proof.
  destruct (concurrent_rest_exact k3 nn_web pod_web) as [Hc Hn];
    [exact at_rest_k3|vm_compute; reflexivity|reflexivity|discriminate|]. split.
  - apply (Hc) with (pn := nn_ads) (policy := policy_fin);
      [|vm_compute; reflexivity|vm_compute; reflexivity|decide_now|right; left].
    eapply kreachable_mono; [|exact (kreachable_k3_at "10.0.0.1")]. intros bc rd Hok. apply Hok.
  - apply Hn; [apply kreachable_k3_at|]. by apply map_Forall_singleton.
Defined.

(** From the start on a new policy, whose finalizer and status are written on the way. *)
Definition k_new : KState := kstart (api policy_new) cluster_pods.

Example remaining_k_new : remaining k_new = 7.
Proof. vm_compute. reflexivity. Qed.

Lemma concurrent_comes_to_rest_witness : sn kworker k_new ∧ ∃ s', kworker k_new s'.
Proof.
  destruct (concurrent_comes_to_rest k_new) as [Hsn Hprog].
  - apply kreachable_start; [exact (keyed_api policy_new eq_refl)|exact (keyed_pods pod_web eq_refl)].
  - exact valid_specs_t0.
  - split; [exact Hsn|]. destruct (Hprog k_new) as [Hrest|Hstep].
    + apply rtc_refl.
    + destruct Hrest as [Hq _]. assert (nn_ads ∈ k_policies k_new) as Hin by decide_now.
      rewrite Hq in Hin. destruct (not_elem_of_empty (C:=gset NamespacedName) nn_ads Hin).
    + exact Hstep.
Defined.

(** ** At rest with a pod that is gone

    The pod is deleted while its policy is reconciled again, as on every resync. The pod
    worker has removed the entry, and not yet the pod from the index, when the policy
    worker recalculates the pods of the policy. *)
Definition kstate_of (ps : gset NamespacedName) (qs : gset NamespacedName) (c : Conf)
    (t : option (NamespacedName * PolWrite)) : KState := mkK (api policy_fin) ∅ ps qs c t.

Definition bc4 : Cache := RemovePod bc3 "10.0.0.1".
Definition bc5 : Cache := with_policies bc4 (PolicyIndex.Upsert (policyIndex bc4) policy_fin).1.
Definition bc6 : Cache := RecalculateForPolicy bc5 sel_web.
Definition bc7 : Cache := with_pods bc6 (PodIndex.Delete (podIndex bc6) nn_web).

Lemma kreachable_events :
  kreachable undisturbing (kstate_of {[nn_ads]} {[nn_web]} (mkConf bc3 PolIdle PodIdle) None).
Proof.
  pose proof (kreachable_move _ _ _ kreachable_k3 (k_change_pods k3 ∅ (map_Forall_empty _))) as Hr.
  eapply (kreachable_move undisturbing) in Hr; [|apply (k_resync _ {[nn_ads]} ∅)].
  match type of Hr with kreachable _ ?s => replace (kstate_of _ _ _ _) with s; [exact Hr|] end.
  unfold kstate_of. f_equal; decide_now.
Qed.

Lemma kreachable_entry_removed :
  kreachable undisturbing (kstate_of {[nn_ads]} ∅ (mkConf bc4 PolIdle (PodGoneDelete nn_web)) None).
Proof.
  pose proof kreachable_events as Hr. eapply (kreachable_read undisturbing) in Hr;
    [|apply (k_pod_begin _ nn_web None (inr err_NotFound) (PodGoneRemove nn_web "10.0.0.1") false);
      [done|decide_now|split; [done|by vm_compute]|by vm_compute]|apply undisturbing_gone].
  eapply (kreachable_move undisturbing) in Hr; [|apply k_pod_cache; constructor; done].
  match type of Hr with kreachable _ ?s => replace (kstate_of _ _ _ _) with s; [exact Hr|] end.
  unfold kstate_of. f_equal; decide_now.
Qed.

Lemma kreachable_recalculated :
  kreachable undisturbing (kstate_of ∅ ∅ (mkConf bc6 PolIdle (PodGoneDelete nn_web)) None).
Proof.
  pose proof kreachable_entry_removed as Hr. eapply (kreachable_read undisturbing) in Hr;
    [|apply (k_pol_begin _ 8%Z nn_ads None (inl policy_fin) bc5 (PolRecalc sel_web) WNone);
      [done|done|decide_now|split; [done|by vm_compute]|by vm_compute]|by apply undisturbing_live].
  apply (kreachable_run _ _ (mkConf bc6 PolIdle (PodGoneDelete nn_web))) in Hr; [|by apply run_recalc].
  eapply (kreachable_move undisturbing) in Hr; [|apply (k_pol_finish _ nn_ads WNone noFaults (api policy_fin) None); reflexivity].
  match type of Hr with kreachable _ ?s => replace (kstate_of _ _ _ _) with s; [exact Hr|] end.
  unfold kstate_of. f_equal; decide_now.
Qed.

(** Everything is at rest, the cluster has no pods, and the address of the deleted pod is
    served: what is served for an address no pod has is not settled by rest, and nothing
    will remove the entry. *)
Theorem rest_serves_deleted_pod :
  let s := kstate_of ∅ ∅ (mkConf bc7 PolIdle PodIdle) None in
  kreachable undisturbing s ∧ at_rest s ∧ k_podObjects s = ∅ ∧
  GetBlocklist (c_cache (k_conf s)) = [mkEntry "10.0.0.1" ["ads.com"; "track.io"]].
Proof.
  split_and!; [|done..|vm_compute; reflexivity].
  apply (kreachable_run _ _ (mkConf bc7 PolIdle PodIdle) kreachable_recalculated).
  apply rtc_once, istep_pod. constructor.
Qed.
