(* ===== verification/Text.v ===== *)
(** * Texts: what the test helpers use of strings and bufio

    [strings.Index], [Contains], [Split] at a newline, [ReplaceAll] and [TrimPrefix] on
    byte strings, and the tokens of a [bufio.Scanner] that scans lines. *)

From S2P Require Import Prelude Json.

Implicit Types (s t sub old new p l : bytes).

(** [strings.HasPrefix], [strings.TrimPrefix] *)
Definition HasPrefix s p : bool := bool_decide (p `prefix_of` s).
Definition TrimPrefix s p : bytes := if HasPrefix s p then drop (length p) s else s.

(** [strings.Index]: the first position where [sub] is found; [None] for -1 *)
Fixpoint Index s sub : option nat :=
  if HasPrefix s sub then Some 0
  else match s with
  | [] => None
  | _ :: s => S <$> Index s sub
  end.

Definition Contains s sub : bool := negb (is_nil (Index s sub)).

(** [strings.ReplaceAll] of a text [old] that is not empty: matches are taken from the
    left and do not overlap. [skip] bytes of the last match are still to be dropped. *)
Fixpoint replaceFrom (old new : bytes) (skip : nat) s : bytes :=
  match s with
  | [] => []
  | b :: s' =>
      match skip with
      | S skip => replaceFrom old new skip s'
      | O =>
          if HasPrefix s old then new ++ replaceFrom old new (length old - 1) s'
          else b :: replaceFrom old new 0 s'
      end
  end.
Definition ReplaceAll s old new : bytes := replaceFrom old new 0 s.

Definition newline : N := 10.

(** [strings.Split(s, "\n")] *)
Fixpoint splitLines s : list bytes :=
  match s with
  | [] => [[]]
  | b :: s =>
      if bool_decide (b = newline) then [] :: splitLines s
      else match splitLines s with
      | l :: ls => (b :: l) :: ls
      | [] => [[b]]
      end
  end.

(** [strings.Join] *)
Fixpoint Join (ls : list bytes) (sep : bytes) : bytes :=
  match ls with
  | [] => []
  | [l] => l
  | l :: ls => l ++ sep ++ Join ls sep
  end.

(** ** bufio.Scanner with the split function ScanLines *)

(** [dropCR]: a carriage return at the end of a line is not part of it. *)
Definition dropCR l : bytes :=
  if bool_decide (last l = Some 13%N) then take (length l - 1) l else l.

(** The text after the last newline is a line when it is not empty. *)
Definition rawLines s : list bytes :=
  let ls := splitLines s in
  if bool_decide (last ls = Some []) then take (length ls - 1) ls else ls.

(** [bufio.MaxScanTokenSize]: the scanner stops, with an error, before a line that fills
    its buffer. *)
Definition MaxScanTokenSize : Z := 64 * 1024.
Definition fits l : bool := bool_decide (Z.of_nat (length l) < MaxScanTokenSize)%Z.

Fixpoint takeFitting (ls : list bytes) : list bytes :=
  match ls with
  | [] => []
  | l :: ls => if fits l then dropCR l :: takeFitting ls else []
  end.

(** The lines [Scan] delivers before it returns false. *)
Definition scannedLines s : list bytes := takeFitting (rawLines s).

(** ** Occurrences *)

Definition occurs sub s : Prop := ∃ a b, s = a ++ sub ++ b.

Lemma Index_Some s sub i :
  Index s sub = Some i ↔
  sub `prefix_of` drop i s ∧ i ≤ length s ∧ ∀ j, j < i → ¬ sub `prefix_of` drop j s.
Proof.
  revert i. induction s as [|b s IH]; intros i; simpl; unfold HasPrefix; case_bool_decide as Hp.
  - split; [intros [= <-]; split_and!; [done|lia|lia]|]. intros (_ & Hi & _). f_equal. lia.
  - rewrite drop_nil. naive_solver.
  - split; [intros [= <-]; split_and!; [done|lia|lia]|].
    intros (_ & _ & Hm). destruct i as [|i]; [done|]. destruct (Hm 0 ltac:(lia)). done.
  - rewrite fmap_Some. setoid_rewrite IH. split.
    + intros (j & (Hj & Hl & Hm) & ->). split_and!; [done|lia|]. intros [|j'] Hj'; [done|]. apply Hm. lia.
    + intros (Hi & Hl & Hm). destruct i as [|i]; [done|]. exists i. split_and!; [done|lia| |done].
      intros j Hj. apply (Hm (S j)). lia.
Qed.

Lemma prefix_occurs sub s i : sub `prefix_of` drop i s → occurs sub s.
Proof. intros [b Hb]. exists (take i s), b. by rewrite <- Hb, take_drop. Qed.

Lemma Contains_occurs s sub : Contains s sub = true ↔ occurs sub s.
Proof.
  unfold Contains. split.
  - destruct (Index s sub) as [i|] eqn:Hi; [|done]. intros _.
    apply Index_Some in Hi as [Hp _]. by eapply prefix_occurs.
  - intros (a & b & ->). clear. induction a as [|x a IH]; simpl.
    + destruct (sub ++ b) eqn:He; simpl; unfold HasPrefix; rewrite bool_decide_true; try done;
        rewrite <- He; by exists b.
    + unfold HasPrefix. case_bool_decide; [done|]. by destruct (Index (a ++ sub ++ b) sub).
Qed.

(** Two decompositions of a text around its first occurrence are the same. *)
Lemma Index_first pre sub post :
  (∀ i, i < length pre → ¬ sub `prefix_of` drop i (pre ++ sub ++ post)) →
  Index (pre ++ sub ++ post) sub = Some (length pre).
Proof.
  intros Hm. apply Index_Some. split_and!; [|rewrite length_app; lia|done].
  rewrite drop_app_length. by exists post.
Qed.

(** ** Lines *)

Definition isLine l : Prop := newline ∉ l.

Lemma splitLines_cons s : ∃ l ls, splitLines s = l :: ls.
Proof. destruct s as [|b s]; simpl; repeat case_match; eauto. Qed.

Lemma splitLines_lines s : Forall isLine (splitLines s).
Proof.
  induction s as [|b s IH]; simpl; [repeat constructor; unfold isLine; set_solver|].
  case_bool_decide as Hb; [constructor; [unfold isLine; set_solver|done]|].
  destruct (splitLines_cons s) as (l & ls & Hs). rewrite Hs in *. inversion IH; subst.
  constructor; [|done]. unfold isLine in *. set_solver.
Qed.

Lemma splitLines_line l s : isLine l → splitLines (l ++ newline :: s) = l :: splitLines s.
Proof.
  unfold isLine. induction l as [|b l IH]; intros Hl; simpl; [done|].
  rewrite bool_decide_false by set_solver. by rewrite IH by set_solver.
Qed.

Lemma splitLines_last l : isLine l → splitLines l = [l].
Proof.
  unfold isLine. induction l as [|b l IH]; intros Hl; simpl; [done|].
  rewrite bool_decide_false by set_solver. by rewrite IH by set_solver.
Qed.

(** Splitting undoes joining, and the other way round. *)
Lemma splitLines_Join ls : ls ≠ [] → Forall isLine ls → splitLines (Join ls [newline]) = ls.
Proof.
  intros Hne Hl. induction Hl as [|l ls Hl Hls IH]; [done|]. destruct ls as [|l' ls].
  - simpl. by apply splitLines_last.
  - change (Join (l :: l' :: ls) [newline]) with (l ++ newline :: Join (l' :: ls) [newline]).
    rewrite splitLines_line by done. by rewrite IH.
Qed.

Lemma Join_splitLines s : Join (splitLines s) [newline] = s.
Proof.
  induction s as [|b s IH]; [done|]; simpl. destruct (splitLines_cons s) as (l & ls & Hs).
  rewrite Hs in *. case_bool_decide as Hb.
  - subst b. simpl in *. by rewrite IH.
  - destruct ls; simpl in *; by rewrite IH.
Qed.

Lemma prefix_first_line s sub l ls :
  splitLines s = l :: ls → isLine sub → sub `prefix_of` s → sub `prefix_of` l.
Proof.
  unfold isLine. revert s l ls. induction sub as [|b sub IH]; intros s l ls Hs Hsub Hp; [apply prefix_nil|].
  destruct Hp as [r ->]. simpl in Hs. rewrite bool_decide_false in Hs by set_solver.
  destruct (splitLines_cons (sub ++ r)) as (l' & ls' & Hs'). rewrite Hs' in Hs. injection Hs as <- <-.
  apply prefix_cons. eapply IH; [done|set_solver|]. by exists r.
Qed.

Lemma occurs_app_l sub t s : occurs sub s → occurs sub (t ++ s).
Proof. intros (a & b & ->). exists (t ++ a), b. by rewrite <- app_assoc. Qed.
Lemma occurs_app_r sub t s : occurs sub s → occurs sub (s ++ t).
Proof. intros (a & b & ->). exists a, (b ++ t). by rewrite <- !app_assoc. Qed.
Lemma occurs_cons sub b s : occurs sub (b :: s) ↔ sub `prefix_of` b :: s ∨ occurs sub s.
Proof.
  split.
  - intros ([|x a] & r & Hs); [left; by exists r|]. injection Hs as -> ->. right. by exists a, r.
  - intros [Hp|Ho]; [by apply (prefix_occurs _ _ 0)|by apply (occurs_app_l _ [b])].
Qed.

Lemma occurs_Join sub l ls : l ∈ ls → occurs sub l → occurs sub (Join ls [newline]).
Proof.
  intros Hl Ho. induction ls as [|l' ls IH]; [set_solver|].
  apply elem_of_cons in Hl as [->|Hl].
  - destruct ls; simpl; [done|by apply occurs_app_r].
  - destruct ls as [|l2 ls]; [set_solver|]. simpl. by apply occurs_app_l, (occurs_app_l _ [newline]), IH.
Qed.

(** A text without newlines occurs in a text when it occurs in one of its lines. *)
Lemma occurs_lines s sub :
  isLine sub → sub ≠ [] → occurs sub s ↔ Exists (occurs sub) (splitLines s).
Proof.
  intros Hsub Hne. split.
  - induction s as [|b s IH]; [intros Ho; by constructor|]. rewrite occurs_cons. simpl.
    case_bool_decide as Hb.
    + intros [[r Hp]|Ho]; [|right; auto]. destruct sub as [|b' sub]; [done|].
      injection Hp as -> _. unfold isLine in Hsub. set_solver.
    + destruct (splitLines_cons s) as (l & ls & Hs). rewrite Hs in *. intros [Hp|Ho].
      * left. apply (prefix_occurs _ _ 0). eapply (prefix_first_line (b :: s)); [|done..].
        simpl. by rewrite Hs, bool_decide_false.
      * apply IH in Ho. inversion Ho; subst; [left; by apply (occurs_app_l _ [b])|by right].
  - intros (l & Hl & Ho)%Exists_exists. rewrite <- (Join_splitLines s). by eapply occurs_Join.
Qed.

(** ** Scanning *)

(** Lines of a moderate length that do not end in a carriage return, the last of them
    not empty, are scanned as they were joined. *)
Definition scannable l : Prop := isLine l ∧ last l ≠ Some 13%N ∧ fits l = true.

Lemma takeFitting_all ls : Forall scannable ls → takeFitting ls = ls.
Proof.
  induction 1 as [|l ls (_ & Hcr & Hf) _ IH]; simpl; [done|]. rewrite Hf, IH. f_equal.
  unfold dropCR. by rewrite bool_decide_false.
Qed.

Lemma scannedLines_Join ls :
  ls ≠ [] → Forall scannable ls → last ls ≠ Some [] → scannedLines (Join ls [newline]) = ls.
Proof.
  intros Hne Hls Hlast. unfold scannedLines, rawLines.
  rewrite splitLines_Join by (try done; by eapply Forall_impl; [exact Hls|intros l [? _]]).
  rewrite bool_decide_false by done. by apply takeFitting_all.
Qed.

(** A newline at the end of the text adds no line. *)
Lemma scannedLines_newline ls :
  ls ≠ [] → Forall scannable ls → scannedLines (Join ls [newline] ++ [newline]) = ls.
Proof.
  intros Hne Hls. unfold scannedLines, rawLines.
  assert (Join ls [newline] ++ [newline] = Join (ls ++ [[]]) [newline]) as ->.
  { clear Hls. induction ls as [|l ls IH]; [done|]. destruct ls as [|l' ls]; [done|].
    change (Join (l :: l' :: ls) [newline]) with (l ++ newline :: Join (l' :: ls) [newline]).
    change (Join ((l :: l' :: ls) ++ [[]]) [newline]) with (l ++ newline :: Join ((l' :: ls) ++ [[]]) [newline]).
    rewrite <- IH by done. by rewrite <- app_assoc. }
  rewrite splitLines_Join.
  - rewrite last_snoc, bool_decide_true, length_app, Nat.add_sub, take_app_length by done.
    by apply takeFitting_all.
  - by destruct ls.
  - apply Forall_app. split; [by eapply Forall_impl; [exact Hls|intros l [? _]]|].
    repeat constructor. unfold isLine. set_solver.
Qed.

(** A line that does not fit ends the scan. *)
Lemma takeFitting_long ls x rest :
  Forall scannable ls → fits x = false → takeFitting (ls ++ x :: rest) = ls.
Proof.
  intros Hls Hx. induction Hls as [|l ls (_ & Hcr & Hf) _ IH]; simpl; [by rewrite Hx|].
  rewrite Hf, IH. f_equal. unfold dropCR. by rewrite bool_decide_false.
Qed.

Lemma scannedLines_long ls x rest :
  Forall scannable ls → Forall isLine (x :: rest) → fits x = false →
  scannedLines (Join (ls ++ x :: rest) [newline]) = ls.
Proof.
  intros Hls Hrest Hx. unfold scannedLines, rawLines. rewrite splitLines_Join.
  - case_bool_decide as Hlast; [|by apply takeFitting_long]. destruct rest as [|l rest] using rev_ind.
    + rewrite last_snoc in Hlast. by simplify_eq.
    + replace (take _ _) with (ls ++ x :: rest); [by apply takeFitting_long|].
      rewrite app_comm_cons, app_assoc. rewrite length_app, Nat.add_sub. by rewrite take_app_length.
  - by destruct ls.
  - apply Forall_app. split; [by eapply Forall_impl; [exact Hls|intros l [? _]]|done].
Qed.

(** ** Replacing *)

Lemma replaceFrom_drop old new n s : length s ≤ n → replaceFrom old new n s = [].
Proof. revert n. induction s as [|b s IH]; intros [|n] Hn; simpl in *; [done..|lia|]. apply IH. lia. Qed.

(** A text that is found only at the end is replaced there. *)
Lemma ReplaceAll_last s old new :
  old ≠ [] → (∀ i, i < length s → ¬ old `prefix_of` drop i (s ++ old)) →
  ReplaceAll (s ++ old) old new = s ++ new.
Proof.
  intros Hne. unfold ReplaceAll. induction s as [|b s IH]; intros Hi; simpl.
  - destruct old as [|b old]; [done|]. cbn [replaceFrom]. unfold HasPrefix.
    rewrite bool_decide_true by done. simpl. rewrite replaceFrom_drop by lia. apply app_nil_r.
  - unfold HasPrefix. rewrite bool_decide_false by (apply (Hi 0); simpl; lia). f_equal.
    apply IH. intros i Hlt. apply (Hi (S i)). simpl. lia.
Qed.

Lemma ReplaceAll_absent s old new : ¬ occurs old s → ReplaceAll s old new = s.
Proof.
  unfold ReplaceAll. induction s as [|b s IH]; intros Ho; simpl; [done|].
  rewrite occurs_cons in Ho. unfold HasPrefix. rewrite bool_decide_false by naive_solver.
  f_equal. naive_solver.
Qed.

(** When no beginning of a text is one of its ends, it overlaps no other occurrence. *)
Lemma no_overlap s old i :
  (∀ n, 0 < n → n < length old → ¬ old `prefix_of` take n old ++ old) → ¬ occurs old s →
  i < length s → ¬ old `prefix_of` drop i (s ++ old).
Proof.
  intros Hb Ho Hi Hp. rewrite drop_app_le in Hp by lia. set (u := drop i s) in *.
  assert (0 < length u) as Hu by (unfold u; rewrite length_drop; lia).
  destruct (decide (length old ≤ length u)) as [Hle|Hgt].
  - destruct Ho. apply (prefix_occurs _ _ i). fold u.
    destruct Hp as [r Hr]. apply (f_equal (take (length old))) in Hr.
    rewrite take_app_length, take_app_le in Hr by lia. rewrite <- Hr.
    by exists (drop (length old) u); rewrite take_drop.
  - apply (Hb (length u)); [lia..|]. assert (take (length u) old = u) as ->; [|done].
    destruct Hp as [r Hr]. apply (f_equal (take (length u))) in Hr.
    rewrite take_app_length, take_app_le in Hr by lia. by symmetry.
Qed.
