(* ===== verification/TestUtils.v ===== *)
(** * The helpers of the end-to-end tests (test/utils/utils.go)

    Commands are run by the operating system: the class [OS] gives its answers on a
    state of its own, which every call may change. Errors are values with the arguments
    of their messages; what goes to [GinkgoWriter] is a log. *)

From S2P Require Import Prelude Types Json Text.

#[local] Abbreviation text := bytes_of (only parsing).

(** [exec.Cmd]: the fields the helpers set *)
Record Cmd := mkCmd { Args : list bytes; Dir : bytes; Env : list bytes }.

(** [exec.Command(name, args...)] *)
Definition Command (args : list string) : Cmd := mkCmd (text <$> args) [] [].

Inductive utilError :=
  | GetwdFailed (err : goerror)
  | CommandFailed (command output : bytes) (err : goerror)
  | ReadFailed (filename : bytes) (err : goerror)
  | CodeNotFound (target : bytes)
  | WriteFailed (filename : bytes) (err : goerror).

Inductive logEntry :=
  | LogChdir (err : goerror)
  | LogRunning (command : bytes)
  | LogWarning (err : utilError).

(** The operating system: a change of directory that succeeds is seen by [Getwd], and
    running a command does not change the directory of the process. *)
Class OS (W : Type) := {
  Getwd : W → bytes * option goerror;
  Chdir : W → bytes → W * option goerror;
  Environ : W → list bytes;
  LookupEnv : W → string → option bytes;
  CombinedOutput : W → Cmd → W * (bytes * option goerror);
  Chdir_Getwd w dir w' : Chdir w dir = (w', None) → Getwd w' = (dir, None);
  CombinedOutput_Getwd w c : Getwd (CombinedOutput w c).1 = Getwd w;
}.
#[export] Hint Mode OS ! : typeclass_instances.

(** Files: what was written is read, other files stay. *)
Class Files (F : Type) := {
  ReadFile : F → bytes → bytes + goerror;
  WriteFile : F → bytes → bytes → F * option goerror;
  WriteFile_ReadFile f n data f' :
    WriteFile f n data = (f', None) →
    ReadFile f' n = inl data ∧ ∀ n', n' ≠ n → ReadFile f' n' = ReadFile f n';
}.
#[export] Hint Mode Files ! : typeclass_instances.

(** [fmt.Sprintf] of a format with one [%s] *)
Fixpoint Sprintf_s (format v : bytes) : bytes :=
  match format with
  | 37%N :: 115%N :: rest => v ++ rest
  | b :: rest => b :: Sprintf_s rest v
  | [] => []
  end.

Definition prometheusOperatorVersion : string := "v0.77.1".
Definition prometheusOperatorURL : string :=
  "https://github.com/prometheus-operator/prometheus-operator/" +:+ "releases/download/%s/bundle.yaml".
Definition certmanagerVersion : string := "v1.16.3".
Definition certmanagerURLTmpl : string :=
  "https://github.com/cert-manager/cert-manager/releases/download/%s/cert-manager.yaml".

(** ** Lines of a command's output *)

Definition GetNonEmptyLines (output : bytes) : list bytes :=
  foldl (λ res element, if bool_decide (element ≠ []) then res ++ [element] else res) []
    (splitLines output).

(** The two nested loops: some line contains some of the names. *)
Definition anyCRD (crds : list bytes) (output : bytes) : bool :=
  existsb (λ crd, existsb (λ line, Contains line crd) (GetNonEmptyLines output)) crds.

Section Commands.
Context {W : Type} `{O : OS W}.

(** The state of the system, and the log *)
Record TState := mkT { t_os : W; t_log : list logEntry }.
Definition logged (t : TState) (e : logEntry) : TState := mkT (t_os t) (t_log t ++ [e]).

Definition warnError (t : TState) (err : utilError) : TState := logged t (LogWarning err).

Definition GetProjectDir (t : TState) : bytes * option utilError :=
  match Getwd (t_os t) with
  | (wd, Some err) => (wd, Some (GetwdFailed err))
  | (wd, None) => (ReplaceAll wd (text "/test/e2e") [], None)
  end.

Definition Run (t : TState) (cmd : Cmd) : TState * (bytes * option utilError) :=
  let '(dir, _) := GetProjectDir t in
  let t :=
    match Chdir (t_os t) dir with
    | (w, Some err) => logged (mkT w (t_log t)) (LogChdir err)
    | (w, None) => mkT w (t_log t)
    end in
  let cmd := mkCmd (Args cmd) dir (Environ (t_os t) ++ [text "GO111MODULE=on"]) in
  let command := Join (Args cmd) (text " ") in
  let t := logged t (LogRunning command) in
  match CombinedOutput (t_os t) cmd with
  | (w, (output, Some err)) => (mkT w (t_log t), (output, Some (CommandFailed command output err)))
  | (w, (output, None)) => (mkT w (t_log t), (output, None))
  end.

(** [exec.Command("kubectl", verb, "-f", url)] *)
Definition kubectl (verb format version : string) : Cmd :=
  mkCmd [text "kubectl"; text verb; text "-f"; Sprintf_s (text format) (text version)] [] [].

Definition InstallPrometheusOperator (t : TState) : TState * option utilError :=
  let '(t, (_, err)) := Run t (kubectl "create" prometheusOperatorURL prometheusOperatorVersion) in (t, err).

Definition UninstallPrometheusOperator (t : TState) : TState :=
  match Run t (kubectl "delete" prometheusOperatorURL prometheusOperatorVersion) with
  | (t, (_, Some err)) => warnError t err
  | (t, (_, None)) => t
  end.

Definition prometheusCRDs : list bytes := text <$>
  ["prometheuses.monitoring.coreos.com"; "prometheusrules.monitoring.coreos.com";
   "prometheusagents.monitoring.coreos.com"].

Definition IsPrometheusCRDsInstalled (t : TState) : TState * bool :=
  match Run t (Command ["kubectl"; "get"; "crds"; "-o"; "custom-columns=NAME:.metadata.name"]) with
  | (t, (_, Some _)) => (t, false)
  | (t, (output, None)) => (t, anyCRD prometheusCRDs output)
  end.

Definition UninstallCertManager (t : TState) : TState :=
  match Run t (kubectl "delete" certmanagerURLTmpl certmanagerVersion) with
  | (t, (_, Some err)) => warnError t err
  | (t, (_, None)) => t
  end.

Definition InstallCertManager (t : TState) : TState * option utilError :=
  match Run t (kubectl "apply" certmanagerURLTmpl certmanagerVersion) with
  | (t, (_, Some err)) => (t, Some err)
  | (t, (_, None)) =>
      let '(t, (_, err)) := Run t (Command ["kubectl"; "wait"; "deployment.apps/cert-manager-webhook";
        "--for"; "condition=Available"; "--namespace"; "cert-manager"; "--timeout"; "5m"]) in
      (t, err)
  end.

Definition certManagerCRDs : list bytes := text <$>
  ["certificates.cert-manager.io"; "issuers.cert-manager.io"; "clusterissuers.cert-manager.io";
   "certificaterequests.cert-manager.io"; "orders.acme.cert-manager.io"; "challenges.acme.cert-manager.io"].

Definition IsCertManagerCRDsInstalled (t : TState) : TState * bool :=
  match Run t (Command ["kubectl"; "get"; "crds"]) with
  | (t, (_, Some _)) => (t, false)
  | (t, (output, None)) => (t, anyCRD certManagerCRDs output)
  end.

Definition LoadImageToKindClusterWithName (t : TState) (name : bytes) : TState * option utilError :=
  let cluster := default (text "kind") (LookupEnv (t_os t) "KIND_CLUSTER") in
  let '(t, (_, err)) := Run t (mkCmd [text "kind"; text "load"; text "docker-image"; name; text "--name"; cluster] [] []) in
  (t, err).
End Commands.
Arguments TState : clear implicits.

(** ** UncommentCode *)

(** The lines of the target, without the prefix, a newline between them. *)
Fixpoint writeLines (lines : list bytes) (pre : bytes) : bytes :=
  match lines with
  | [] => []
  | [line] => TrimPrefix line pre
  | line :: lines => TrimPrefix line pre ++ newline :: writeLines lines pre
  end.

Definition UncommentCode {F} `{Files F} (f : F) (filename target pre : bytes) : F * option utilError :=
  match ReadFile f filename with
  | inr err => (f, Some (ReadFailed filename err))
  | inl content =>
      match Index content target with
      | None => (f, Some (CodeNotFound target))
      | Some idx =>
          match scannedLines target with
          | [] => (f, None)
          | lines =>
              let out := take idx content ++ writeLines lines pre ++ drop (idx + length target) content in
              match WriteFile f filename out with
              | (f, Some err) => (f, Some (WriteFailed filename err))
              | (f, None) => (f, None)
              end
          end
      end
  end.

(** ** Lemmas *)

Lemma GetNonEmptyLines_filter output : GetNonEmptyLines output = filter (.≠ []) (splitLines output).
Proof.
  unfold GetNonEmptyLines. assert (∀ ls acc,
    foldl (λ res (element : bytes), if bool_decide (element ≠ []) then res ++ [element] else res) acc ls =
      acc ++ filter (.≠ []) ls) as ->; [|done].
  induction ls as [|l ls IH]; intros acc; simpl; [by rewrite app_nil_r|]. rewrite IH, filter_cons.
  case_bool_decide; case_decide; try done. by rewrite <- app_assoc.
Qed.

(** The names searched for have no newline in them. *)
Definition crdNames (crds : list bytes) : Prop := Forall (λ crd, isLine crd ∧ crd ≠ []) crds.

Lemma anyCRD_occurs crds output :
  crdNames crds → anyCRD crds output = true ↔ ∃ crd, crd ∈ crds ∧ occurs crd output.
Proof.
  intros Hn. unfold anyCRD. rewrite existsb_exists. setoid_rewrite existsb_exists.
  setoid_rewrite <- list_elem_of_In. setoid_rewrite GetNonEmptyLines_filter.
  setoid_rewrite list_elem_of_filter. setoid_rewrite Contains_occurs.
  assert (∀ crd, crd ∈ crds → occurs crd output ↔ ∃ l, (l ≠ [] ∧ l ∈ splitLines output) ∧ occurs crd l) as Hc.
  { intros crd Hin. eapply Forall_forall in Hn as [Hl Hne]; [|exact Hin].
    rewrite (occurs_lines output crd Hl Hne), Exists_exists.
    split; [|naive_solver]. intros (l & Hin' & Ho). exists l. split_and!; try done.
    intros ->. destruct Ho as (a & b & Hab). symmetry in Hab.
    apply app_eq_nil in Hab as [_ [? _]%app_eq_nil]. done. }
  clear Hn. naive_solver.
Qed.

Lemma isLine_text (s : string) : 
  bool_decide ((newline ∉ bytes_of s) ∧ bytes_of s ≠ []) = true → isLine (bytes_of s) ∧ bytes_of s ≠ [].
Proof. intros Hs. by apply bool_decide_eq_true in Hs. Qed.

Lemma crdNames_prometheus : crdNames prometheusCRDs.
Proof. repeat constructor; by apply isLine_text. Qed.
Lemma crdNames_certManager : crdNames certManagerCRDs.
Proof. repeat constructor; by apply isLine_text. Qed.

Lemma writeLines_prefixed pre ls : writeLines ((pre ++.) <$> ls) pre = Join ls [newline].
Proof.
  assert (∀ l, TrimPrefix (pre ++ l) pre = l) as Ht.
  { intros l. unfold TrimPrefix, HasPrefix. by rewrite bool_decide_true, drop_app_length by (by exists l). }
  induction ls as [|l ls IH]; [done|]. destruct ls as [|l' ls]; [simpl; apply Ht|].
  change (writeLines ((pre ++.) <$> l :: l' :: ls) pre)
    with (TrimPrefix (pre ++ l) pre ++ newline :: writeLines ((pre ++.) <$> l' :: ls) pre).
  by rewrite IH, Ht.
Qed.

(** ** Properties *)
Section UncommentProperties.
Context {F : Type} `{FS : Files F}.
Implicit Types (f : F) (pre post cpre : bytes) (ls : list bytes).

(** A block of lines, each with the comment prefix. *)
Definition commented cpre ls : bytes := Join ((cpre ++.) <$> ls) [newline].

(** What [UncommentCode] writes, by the lines that are scanned. *)
Lemma UncommentCode_scanned f name pre target post cpre lines :
  ReadFile f name = inl (pre ++ target ++ post) →
  (∀ i, i < length pre → ¬ target `prefix_of` drop i (pre ++ target ++ post)) →
  scannedLines target = lines → lines ≠ [] →
  UncommentCode f name target cpre =
    let '(f', err) := WriteFile f name (pre ++ writeLines lines cpre ++ post) in
    (f', WriteFailed name <$> err).
Proof.
  intros Hr Hfirst Hl Hne. unfold UncommentCode. rewrite Hr, Index_first, Hl by done.
  destruct lines as [|line lines]; [done|].
  rewrite take_app_length, drop_app_ge, Nat.add_comm, Nat.add_sub, drop_app_length by lia.
  by destruct (WriteFile f name _) as [f' [err|]].
Qed.

(** C40: uncommenting undoes commenting. When the file holds a block of lines, each
    commented with the prefix, and the block, without its final newline, is given as the
    target at its first occurrence, and no error is returned, the file that is written has
    the lines without the prefix in its place and everything else as it was; other files
    are not touched. Lines are shorter than the scanner's buffer and do not end in a
    carriage return. *)
Theorem uncomment_restores f f' name pre cpre ls post :
  ReadFile f name = inl (pre ++ commented cpre ls ++ post) →
  (∀ i, i < length pre → ¬ commented cpre ls `prefix_of` drop i (pre ++ commented cpre ls ++ post)) →
  ls ≠ [] → cpre ≠ [] → Forall (λ l, scannable (cpre ++ l)) ls →
  UncommentCode f name (commented cpre ls) cpre = (f', None) →
  ReadFile f' name = inl (pre ++ Join ls [newline] ++ post) ∧
  ∀ other, other ≠ name → ReadFile f' other = ReadFile f other.
Proof.
  intros Hr Hfirst Hne Hc Hls.
  rewrite (UncommentCode_scanned f name pre _ post cpre ((cpre ++.) <$> ls) Hr Hfirst).
  - rewrite writeLines_prefixed. destruct (WriteFile f name _) as [f1 [err|]] eqn:Hw; [done|].
    intros [= <-]. by eapply WriteFile_ReadFile.
  - unfold commented. apply scannedLines_Join; [by destruct ls|by apply Forall_fmap|].
    rewrite fmap_last. destruct (last ls); [|done]. intros [= Hnil]. by apply app_nil in Hnil as [? _].
  - by destruct ls.
Qed.

(** A failure is reported and leaves the files alone, except for a write that
    failed: a file that cannot be read and a target that does not occur are errors; an
    empty target is accepted and nothing is done; otherwise the outcome is that of the
    write. *)
Theorem uncomment_outcomes f name target cpre :
  let r := UncommentCode f name target cpre in
  match ReadFile f name with
  | inr err => r = (f, Some (ReadFailed name err))
  | inl content =>
      (¬ occurs target content → r = (f, Some (CodeNotFound target))) ∧
      (target = [] → r = (f, None)) ∧
      (r.2 = None ∨ (∃ err, r.2 = Some (WriteFailed name err)) ∨ r = (f, Some (CodeNotFound target)))
  end.
Proof.
  intros r. unfold r, UncommentCode. destruct (ReadFile f name) as [content|err]; [|done]. split_and!.
  - intros Ho. rewrite <- Contains_occurs in Ho. unfold Contains in Ho. by destruct (Index content target).
  - intros ->. by destruct content.
  - repeat case_match; simpl; eauto.
Qed.

(** A newline at the end of the target is lost: the last line of the block and the
    text after it become one line. *)
Theorem uncomment_joins_lines f name pre cpre ls post :
  let target := commented cpre ls ++ [newline] in
  ReadFile f name = inl (pre ++ target ++ post) →
  (∀ i, i < length pre → ¬ target `prefix_of` drop i (pre ++ target ++ post)) →
  ls ≠ [] → Forall (λ l, scannable (cpre ++ l)) ls →
  UncommentCode f name target cpre =
    let '(f', err) := WriteFile f name (pre ++ Join ls [newline] ++ post) in
    (f', WriteFailed name <$> err).
Proof.
  intros target Hr Hfirst Hne Hls.
  rewrite (UncommentCode_scanned f name pre _ post cpre ((cpre ++.) <$> ls) Hr Hfirst).
  - by rewrite writeLines_prefixed.
  - unfold target, commented. apply scannedLines_newline; [by destruct ls|by apply Forall_fmap].
  - by destruct ls.
Qed.

(** A line that does not fit into the scanner's buffer is dropped with all lines of the
    block after it, and no error is reported. *)
Theorem uncomment_drops_long_lines f name pre cpre ls long rest post :
  let target := commented cpre (ls ++ long :: rest) in
  ReadFile f name = inl (pre ++ target ++ post) →
  (∀ i, i < length pre → ¬ target `prefix_of` drop i (pre ++ target ++ post)) →
  ls ≠ [] → cpre ≠ [] → Forall (λ l, scannable (cpre ++ l)) ls →
  Forall (λ l, isLine (cpre ++ l)) (long :: rest) → fits (cpre ++ long) = false →
  UncommentCode f name target cpre =
    let '(f', err) := WriteFile f name (pre ++ Join ls [newline] ++ post) in
    (f', WriteFailed name <$> err).
Proof.
  intros target Hr Hfirst Hne Hc Hls Hlines Hlong.
  rewrite (UncommentCode_scanned f name pre _ post cpre ((cpre ++.) <$> ls) Hr Hfirst).
  - by rewrite writeLines_prefixed.
  - unfold target, commented. rewrite fmap_app, fmap_cons. apply scannedLines_long.
    + by apply Forall_fmap.
    + inversion Hlines; subst. constructor; [done|by apply Forall_fmap].
    + done.
  - by destruct ls.
Qed.
End UncommentProperties.

Section CommandProperties.
Context {W : Type} `{O : OS W}.
Implicit Types (t : TState W) (cmd : Cmd).

Definition e2eDir : bytes := bytes_of "/test/e2e".

Lemma e2eDir_no_overlap n : 0 < n → n < length e2eDir → ¬ e2eDir `prefix_of` take n e2eDir ++ e2eDir.
Proof.
  intros H0 Hn. change (length e2eDir) with 9 in Hn. refine (bool_decide_eq_false_1 _ _).
  do 9 (destruct n as [|n]; [first [lia|vm_compute; reflexivity]|]). lia.
Qed.

Lemma ReplaceAll_e2eDir proj :
  ¬ occurs e2eDir proj → ReplaceAll (proj ++ e2eDir) e2eDir [] = proj ∧ ReplaceAll proj e2eDir [] = proj.
Proof.
  intros Ho. split; [|by apply ReplaceAll_absent].
  rewrite ReplaceAll_last; [apply app_nil_r|done|]. intros i Hi. apply no_overlap; auto using e2eDir_no_overlap.
Qed.

(** Commands run in the project directory. When the process is in the project
    directory or in its test/e2e directory, [Run] moves it to the project directory, runs
    the command there with GO111MODULE=on added to the environment, logs the command
    line and returns the output, with an error exactly when the command failed; the
    process stays there, so that the next command runs there too. *)
Theorem run_in_project_dir t cmd proj w :
  ¬ occurs e2eDir proj →
  Getwd (t_os t) = (proj ++ e2eDir, None) ∨ Getwd (t_os t) = (proj, None) →
  Chdir (t_os t) proj = (w, None) →
  let command := Join (Args cmd) (bytes_of " ") in
  let '(w', (output, err)) :=
    CombinedOutput w (mkCmd (Args cmd) proj (Environ w ++ [bytes_of "GO111MODULE=on"])) in
  Run t cmd = (mkT w' (t_log t ++ [LogRunning command]), (output, CommandFailed command output <$> err)) ∧
  Getwd w' = (proj, None).
Proof.
  intros Ho Hwd Hcd command.
  pose proof (CombinedOutput_Getwd w (mkCmd (Args cmd) proj (Environ w ++ [bytes_of "GO111MODULE=on"]))) as Hg.
  rewrite (Chdir_Getwd _ _ _ Hcd) in Hg. destruct (CombinedOutput w _) as [w' [output err]] eqn:Hout.
  split; [|done].
  assert (∀ wd, Getwd (t_os t) = (wd, None) → ReplaceAll wd e2eDir [] = proj →
    Run t cmd = (mkT w' (t_log t ++ [LogRunning command]), (output, CommandFailed command output <$> err))) as Hrun.
  { intros wd Hw Hrep. unfold Run, GetProjectDir. rewrite Hw. fold e2eDir. rewrite Hrep, Hcd. simpl.
    rewrite Hout. by destruct err. }
  destruct (ReplaceAll_e2eDir proj Ho). destruct Hwd as [Hwd|Hwd]; eapply Hrun; eauto.
Qed.

Lemma checked_output crds (r : TState W * (bytes * option utilError)) :
  crdNames crds →
  (match r with
   | (t, (_, Some _)) => (t, false)
   | (t, (output, None)) => (t, anyCRD crds output)
   end).2 = true ↔ r.2.2 = None ∧ ∃ crd, crd ∈ crds ∧ occurs crd r.2.1.
Proof.
  intros Hn. destruct r as [t [output [err|]]]; simpl; [split; [done|by intros [? _]]|].
  rewrite (anyCRD_occurs _ _ Hn). split; [done|by intros [_ ?]].
Qed.

(** The checks for custom resource definitions look for their names. Each check is
    true exactly when its command succeeded and its output contains one of the names:
    splitting the output into lines and skipping empty ones loses no occurrence. *)
Theorem crds_installed_exact t :
  let prom := Run t (Command ["kubectl"; "get"; "crds"; "-o"; "custom-columns=NAME:.metadata.name"]) in
  let cert := Run t (Command ["kubectl"; "get"; "crds"]) in
  ((IsPrometheusCRDsInstalled t).2 = true ↔
    prom.2.2 = None ∧ ∃ crd, crd ∈ prometheusCRDs ∧ occurs crd prom.2.1) ∧
  ((IsCertManagerCRDsInstalled t).2 = true ↔
    cert.2.2 = None ∧ ∃ crd, crd ∈ certManagerCRDs ∧ occurs crd cert.2.1).
Proof.
  split; apply checked_output; [apply crdNames_prometheus|apply crdNames_certManager].
Qed.
End CommandProperties.

(** ** Instances: a file system and a process *)

#[local] Abbreviation DiskFS := (gmap bytes bytes).

Lemma disk_laws (f : DiskFS) n data f' :
  (<[n := data]> f, @None goerror) = (f', None) →
  from_option inl (inr (Errorf "no such file")) (f' !! n) = inl data ∧
  ∀ n', n' ≠ n → from_option inl (inr (Errorf "no such file")) (f' !! n') =
    from_option inl (inr (Errorf "no such file")) (f !! n').
Proof. intros [= <-]. rewrite lookup_insert_eq. split; [done|]. intros n' Hn. by rewrite lookup_insert_ne. Qed.

#[export] Instance disk : Files DiskFS := {|
  ReadFile f n := from_option inl (inr (Errorf "no such file")) (f !! n);
  WriteFile f n data := (<[n := data]> f, None);
  WriteFile_ReadFile := disk_laws;
|}.

Definition kustomization : bytes :=
  bytes_of "resources:" ++ newline :: bytes_of "#- ../webhook" ++ newline :: bytes_of "#- ../certmanager"
    ++ newline :: bytes_of "- ../manager".

Example uncomment_run :
  UncommentCode ({[bytes_of "k.yaml" := kustomization]} : DiskFS) (bytes_of "k.yaml")
    (commented (bytes_of "#") [bytes_of "- ../webhook"; bytes_of "- ../certmanager"]) (bytes_of "#") =
  ({[bytes_of "k.yaml" :=
      bytes_of "resources:" ++ newline :: bytes_of "- ../webhook" ++ newline :: bytes_of "- ../certmanager"
        ++ newline :: bytes_of "- ../manager"]}, None).
Proof. vm_compute. reflexivity. Qed.

Lemma uncomment_restores_witness :
  ∃ f', ReadFile (f' : DiskFS) (bytes_of "k.yaml") =
    inl (bytes_of "resources:" ++ newline :: bytes_of "- ../webhook" ++ newline :: bytes_of "- ../certmanager"
        ++ newline :: bytes_of "- ../manager").
Proof.
  eexists. eapply (uncomment_restores {[bytes_of "k.yaml" := kustomization]} _ (bytes_of "k.yaml")
    (bytes_of "resources:" ++ [newline]) (bytes_of "#") [bytes_of "- ../webhook"; bytes_of "- ../certmanager"]
    (newline :: bytes_of "- ../manager")).
  - vm_compute. reflexivity.
  - change (length (bytes_of "resources:" ++ [newline])) with 11.
    intros i Hi. refine (bool_decide_eq_false_1 _ _).
    do 11 (destruct i as [|i]; [vm_compute; reflexivity|]). lia.
  - discriminate.
  - discriminate.
  - repeat constructor; [decide_now|vm_compute; discriminate|decide_now|vm_compute; discriminate].
  - exact uncomment_run.
Defined.

(** A process is its directory; a command prints the directory it runs in. *)
Lemma shell_chdir (w dir w' : bytes) : (dir, @None goerror) = (w', None) → (w', @None goerror) = (dir, None).
Proof. by intros [= <-]. Qed.

#[export] Instance shell : OS bytes := {|
  Getwd w := (w, None);
  Chdir w dir := (dir, None);
  Environ w := [];
  LookupEnv w v := None;
  CombinedOutput w c := (w, (Dir c, None));
  Chdir_Getwd := shell_chdir;
  CombinedOutput_Getwd w c := eq_refl;
|}.

Lemma run_in_project_dir_witness :
  Run (mkT (bytes_of "/src/test/e2e") []) (Command ["kubectl"; "version"]) =
    (mkT (bytes_of "/src") [LogRunning (bytes_of "kubectl version")], (bytes_of "/src", None)).
Proof.
  refine (proj1 (run_in_project_dir (mkT (bytes_of "/src/test/e2e") []) (Command ["kubectl"; "version"])
    (bytes_of "/src") (bytes_of "/src") _ _ _)).
  - rewrite <- Contains_occurs. vm_compute. discriminate.
  - left. vm_compute. reflexivity.
  - reflexivity.
Defined.
