(* ===== verification/Wire.v ===== *)
(** * DnsPolicy specifications on the wire (the tags of dnspolicy_types.go)

    The JSON form that the struct tags give a specification, in which empty members are
    left out, and how a reader fills the struct from it. *)

From Stdlib Require Import Ascii NArith.
From S2P Require Import Prelude Types Json Sha256 Hash.

(** ** Writing *)

(** A member tagged [omitempty]. *)
Definition omitempty (name : string) (empty : bool) (v : json) : list (bytes * json) :=
  if empty then [] else [(bytes_of name, v)].

Section Write.
Context `{RO : RangeOrder}.

Definition mapMember (name : string) (m : GoMap) : list (bytes * json) :=
  omitempty name (bool_decide (mlen m = 0)) (jmap m).

Definition jspec (s : DnsPolicySpec) : json := JObj (
  mapMember "targetSelector" (TargetSelector s) ++
  omitempty "blockList" (bool_decide (elems (BlockList s) = [])) (jstrings (BlockList s)) ++
  mapMember "subject" (Subject s) ++
  omitempty "dryrun" (negb (DryRun s)) (JBool (DryRun s)) ++
  omitempty "doh" (negb (Doh s)) (JBool (Doh s)) ++
  mapMember "dohTlsSecrets" (DohTlsSecrets s)).
End Write.

(** ** Reading *)

Definition readString (j : json) : option string :=
  match j with JStr s => Some (string_of s) | _ => None end.

(** Entries are added to the map that is there, or to a fresh one. *)
Fixpoint readEntries (m : gmap string string) (kvs : list (bytes * json)) : option (gmap string string) :=
  match kvs with
  | [] => Some m
  | (k, v) :: kvs => v ← readString v; readEntries (<[string_of k := v]> m) kvs
  end.

Definition readMap (cur : GoMap) (j : json) : option GoMap :=
  match j with
  | JNull => Some None
  | JObj kvs => Some <$> readEntries (contents cur) kvs
  | _ => None
  end.

Definition readStrings (j : json) : option (option (list string)) :=
  match j with
  | JNull => Some None
  | JArr l => Some <$> mapM readString l
  | _ => None
  end.

Definition readBool (cur : bool) (j : json) : option bool :=
  match j with JNull => Some cur | JBool b => Some b | _ => None end.

(** One member: the field of that name is set, other names are ignored. *)
Definition setMember (s : DnsPolicySpec) (k : bytes) (v : json) : option DnsPolicySpec :=
  let '(mkSpec ts bl su dr doh tls) := s in
  if bool_decide (k = bytes_of "targetSelector") then ts ← readMap ts v; Some (mkSpec ts bl su dr doh tls)
  else if bool_decide (k = bytes_of "blockList") then bl ← readStrings v; Some (mkSpec ts bl su dr doh tls)
  else if bool_decide (k = bytes_of "subject") then su ← readMap su v; Some (mkSpec ts bl su dr doh tls)
  else if bool_decide (k = bytes_of "dryrun") then dr ← readBool dr v; Some (mkSpec ts bl su dr doh tls)
  else if bool_decide (k = bytes_of "doh") then doh ← readBool doh v; Some (mkSpec ts bl su dr doh tls)
  else if bool_decide (k = bytes_of "dohTlsSecrets") then tls ← readMap tls v; Some (mkSpec ts bl su dr doh tls)
  else Some s.

Fixpoint setMembers (s : DnsPolicySpec) (kvs : list (bytes * json)) : option DnsPolicySpec :=
  match kvs with
  | [] => Some s
  | (k, v) :: kvs => s ← setMember s k v; setMembers s kvs
  end.

Definition zeroSpec : DnsPolicySpec := mkSpec None None None false false None.

Definition readSpec (j : json) : option DnsPolicySpec :=
  match j with JObj kvs => setMembers zeroSpec kvs | _ => None end.

(** ** What is left of a specification: empty maps and slices become nil *)

Definition someMap (m : GoMap) : GoMap := if bool_decide (mlen m = 0) then None else m.
Definition someSlice (l : option (list string)) : option (list string) :=
  if bool_decide (elems l = []) then None else l.

Definition wireSpec (s : DnsPolicySpec) : DnsPolicySpec :=
  mkSpec (someMap (TargetSelector s)) (someSlice (BlockList s)) (someMap (Subject s))
    (DryRun s) (Doh s) (someMap (DohTlsSecrets s)).

(** ** Lemmas *)

Section Roundtrip.
Context `{RO : RangeOrder}.

Lemma readEntries_members l m :
  readEntries m (jmember <$> l) = Some (foldl (λ out '(k, v), <[k:=v]> out) m l).
Proof.
  revert m. induction l as [|[k v] l IH]; intros m; [done|]. csimpl.
  rewrite !string_of_bytes_of. apply IH.
Qed.

Lemma readMap_jmap m : readMap None (jmap (Some m)) = Some (Some m).
Proof.
  simpl. rewrite readEntries_members. simpl. do 2 f_equal.
  apply foldl_insert_perm. by rewrite merge_sort_Permutation, range_perm.
Qed.

Lemma readStrings_jstrings l : readStrings (jstrings (Some l)) = Some (Some l).
Proof.
  simpl. induction l as [|x l IH]; [done|]. csimpl. rewrite string_of_bytes_of.
  destruct (mapM readString (jstring <$> l)) eqn:Hm; simpl in *; by simplify_eq.
Qed.

(** Reading what was written, member by member. *)
Lemma setMembers_app s l1 l2 : setMembers s (l1 ++ l2) = s ← setMembers s l1; setMembers s l2.
Proof.
  revert s. induction l1 as [|[k v] l1 IH]; intros s; [done|]. simpl.
  destruct (setMember s k v); [apply IH|done].
Qed.

Lemma set_map (f : GoMap → DnsPolicySpec) name m :
  (∀ v, setMember (f None) (bytes_of name) v = m ← readMap None v; Some (f m)) →
  setMembers (f None) (mapMember name m) = Some (f (someMap m)).
Proof.
  intros Hf. unfold mapMember, omitempty, someMap. case_bool_decide as Hz; [done|].
  cbn [setMembers]. rewrite Hf. destruct m as [m|]; [by rewrite readMap_jmap|].
  destruct Hz. apply map_size_empty.
Qed.

Lemma set_strings (f : option (list string) → DnsPolicySpec) name l :
  (∀ v, setMember (f None) (bytes_of name) v = l ← readStrings v; Some (f l)) →
  setMembers (f None) (omitempty name (bool_decide (elems l = [])) (jstrings l)) = Some (f (someSlice l)).
Proof.
  intros Hf. unfold omitempty, someSlice. case_bool_decide as Hz; [done|].
  cbn [setMembers]. rewrite Hf. destruct l as [l|]; [by rewrite readStrings_jstrings|]. by destruct Hz.
Qed.

Lemma set_bool (f : bool → DnsPolicySpec) name b :
  (∀ v, setMember (f false) (bytes_of name) v = b ← readBool false v; Some (f b)) →
  setMembers (f false) (omitempty name (negb b) (JBool b)) = Some (f b).
Proof. intros Hf. destruct b; [|done]. simpl. by rewrite Hf. Qed.

Lemma readSpec_jspec s : readSpec (jspec s) = Some (wireSpec s).
Proof.
  destruct s as [ts bl su dr doh tls]. unfold jspec, readSpec, wireSpec, zeroSpec; simpl.
  rewrite setMembers_app, (set_map (λ ts, mkSpec ts None None false false None)) by done. cbn [mbind option_bind].
  rewrite setMembers_app, (set_strings (λ bl, mkSpec (someMap ts) bl None false false None)) by done. cbn [mbind option_bind].
  rewrite setMembers_app, (set_map (λ su, mkSpec (someMap ts) (someSlice bl) su false false None)) by done. cbn [mbind option_bind].
  rewrite setMembers_app, (set_bool (λ dr, mkSpec (someMap ts) (someSlice bl) (someMap su) dr false None)) by done. cbn [mbind option_bind].
  rewrite setMembers_app, (set_bool (λ doh, mkSpec (someMap ts) (someSlice bl) (someMap su) dr doh None)) by done. cbn [mbind option_bind].
  by rewrite (set_map (λ tls, mkSpec (someMap ts) (someSlice bl) (someMap su) dr doh tls)).
Qed.

(** The strings of a specification are valid UTF-8. *)
Definition utf8_spec (s : DnsPolicySpec) : Prop :=
  utf8_map (TargetSelector s) ∧ utf8_strings (BlockList s) ∧ utf8_map (Subject s) ∧ utf8_map (DohTlsSecrets s).

Lemma valid_members l :
  Forall (λ kv : bytes * json, Utf8.valid kv.1 = true ∧ Document.valid_json kv.2 = true) l →
  Document.valid_json (JObj l) = true.
Proof. simpl. induction 1 as [|[k v] l [Hk Hv] _ IH]; simpl in *; [done|]. by rewrite Hk, Hv. Qed.

Lemma jspec_valid s : utf8_spec s → Document.valid_json (jspec s) = true.
Proof.
  intros (Ht & Hb & Hs & Hd). apply valid_members.
  assert (∀ name b v, Utf8.valid (bytes_of name) = true → Document.valid_json v = true →
    Forall (λ kv : bytes * json, Utf8.valid kv.1 = true ∧ Document.valid_json kv.2 = true) (omitempty name b v))
    as Hm by (intros name [] v Hn Hv; by repeat constructor).
  repeat (apply Forall_app; split); apply Hm; auto using jmap_valid, jstrings_valid.
Qed.

(** C39: a specification survives the wire. The JSON text the struct tags define reads
    back as the specification with empty maps and slices turned into nil, whatever the
    order its maps are visited in: it selects by the same labels, blocks the same domains
    in the same order, and has the same flags, subject and secrets. *)
Theorem spec_wire_roundtrip s :
  utf8_spec s →
  (Document.parse (Document.write (jspec s)) ≫= readSpec) = Some (wireSpec s) ∧
  contents (TargetSelector (wireSpec s)) = contents (TargetSelector s) ∧
  elems (BlockList (wireSpec s)) = elems (BlockList s) ∧
  contents (Subject (wireSpec s)) = contents (Subject s) ∧
  DryRun (wireSpec s) = DryRun s ∧ Doh (wireSpec s) = Doh s ∧
  contents (DohTlsSecrets (wireSpec s)) = contents (DohTlsSecrets s).
Proof.
  intros Hu.
  assert (∀ m, contents (someMap m) = contents m) as Hm.
  { intros m. unfold someMap. case_bool_decide as Hz; [|done]. symmetry. by apply map_size_empty_inv. }
  split.
  { rewrite Document.parse_write_clean, Document.clean_valid by (by apply jspec_valid). apply readSpec_jspec. }
  split_and!; simpl; try done. unfold someSlice. case_bool_decide as Hz; [by rewrite Hz|done].
Qed.
End Roundtrip.

(** ** An instance *)
#[local] Existing Instance order_rev.

Definition spec_wire : DnsPolicySpec :=
  mkSpec (Some {["app" := "web"; "tier" := "front"]}) (Some ["ads.com"; "track.io"]) (Some ∅) true false None.

Example spec_wire_text :
  string_of (Document.write (jspec (mkSpec (Some {["app" := "web"]}) (Some ["ads.com"]) (Some ∅) false false None))) =
  string_of (bytes_of "{" ++ [34%N] ++ bytes_of "targetSelector" ++ [34%N] ++ bytes_of ":{" ++ [34%N] ++
    bytes_of "app" ++ [34%N] ++ bytes_of ":" ++ [34%N] ++ bytes_of "web" ++ [34%N] ++ bytes_of "}," ++ [34%N] ++
    bytes_of "blockList" ++ [34%N] ++ bytes_of ":[" ++ [34%N] ++ bytes_of "ads.com" ++ [34%N] ++ bytes_of "]}").
Proof. vm_compute. reflexivity. Qed.

Lemma spec_wire_roundtrip_witness :
  (Document.parse (Document.write (jspec spec_wire)) ≫= readSpec) =
    Some (mkSpec (TargetSelector spec_wire) (BlockList spec_wire) None true false None).
Proof.
  apply (spec_wire_roundtrip spec_wire). unfold utf8_spec, utf8_map, utf8_strings. split_and!; simpl.
  - intros k v. unfold mget; simpl. rewrite lookup_insert_Some, lookup_singleton_Some.
    by intros [[<- <-]|[_ [<- <-]]].
  - intros x Hx. rewrite !elem_of_cons in Hx. destruct Hx as [->|[->|Hx]]; [done..|by apply not_elem_of_nil in Hx].
  - intros k v. unfold mget; simpl. by rewrite lookup_empty.
  - intros k v. unfold mget; simpl. by rewrite lookup_empty.
Defined.
